(* ===== verification/_CoqProject ===== *)
-Q . S2P
Prelude.v
RoundRobin.v
Batch.v
Backend.v
TaskWaker.v
BackendRing.v
RingConc.v
BackendSeg.v
MpscPool.v
Rings.v
Staged.v
Brokerless.v
Lanes.v
Targets.v
Brokered.v
Park.v
Mpsc.v
MpscRecv.v
Broadcast.v
BroadcastConc.v
IpcFrame.v
IpcArena.v
IpcTransfer.v
IpcDynamic.v
IpcSetup.v
IpcSession.v
IpcPod.v
IpcEvent.v
Declaration.v
Open.v
Leased.v
Select.v
Inbox.v
Async.v
