(* ===== verification/Prelude.v ===== *)
(** * Prescient: a verification development for the channel library

    Prescient ([src/src]) is a Rust library of in-process and cross-process
    channels. Its parts, from the bottom up:

    - [backend/]: the storage of one single-producer single-consumer (SPSC)
      transport, a bounded ring or a list of segments, the owned batch that bulk
      receives fill, and a lock-free stack that parks rings;
    - [park/] and [task_waker.rs]: how blocking and async endpoints wait;
    - [round_robin.rs] and [mpmc/brokerless/scan.rs]: positions and fairness;
    - [mpsc/]: many SPSC transports gathered by one receiver, with fixed,
      dynamic or pooled membership, blocking or as futures;
    - [mpmc/]: brokerless channels whose consumers claim rings, lane grids,
      channels routed by brokers, broadcast, and leased payload blocks;
    - [select/]: waiting on several receivers;
    - [ipc/]: byte streams between two processes over shared memory, and the
      session that sets them up;
    - [declaration.rs] and [open.rs]: the builder of a channel and what it opens.

    ** Files

    Foundations:
    - [Prelude.v] (this file): machine integers with their wrap-around, the
      [outcome] of unsafe code ([OK], [PANIC], [UB]), results, slot cells and
      spans, generic lemmas, tactics and hints.
    - [RoundRobin.v]: [index], [next] and the scan [Cursor]; a full turn visits
      every position once, and a productive ring delays the others by at most
      sixteen drains.
    - [Batch.v]: [Batch]; it refines a FIFO list.
    - [Backend.v]: the traits [Backend], [Tx], [Rx] as the class [SpscBackend]
      with the laws [SpscLaws] and, for bounded storage, [SpscBounded], and the
      provided methods.
    - [TaskWaker.v]: [TaskWaiter]; an event published after the registration
      always wakes the task, whatever the recheck answers.
    - [Park.v] (Module [park]): the four wait kernels behind one interface, run
      by the receive loop against any number of senders, which may publish several
      values before they wake: no announced value of the working set is slept over;
      a shard in the inbox can be.

    Storage:
    - [BackendRing.v] (Module [ring]): every call of both ring endpoints; they
      refine a bounded FIFO, bulk and single-value paths agree, teardown drops
      every value once, a finished ring recycles to a pristine one. An
      [Instance] of [SpscLaws] and [SpscBounded].
    - [RingConc.v] (Module [ring_conc]): the two endpoints interleaved access
      by access: no race, FIFO, and a correct end of stream.
    - [BackendSeg.v] (Module [seg]): the segmented transport over a heap of
      segments; it refines an unbounded FIFO, memory is bounded by the backlog,
      teardown frees every segment once. An [Instance] of [SpscLaws].
    - [Inbox.v] (Module [inbox]): the lock-free stack of parked rings; every ring
      is in one place, and is delivered as often as it was parked.

    Gathering:
    - [MpscPool.v] (Module [pool]): the claim bitmap of the producer pool, alone
      and interleaved.
    - [Mpsc.v] (Module [mpsc]): the gathering receiver over shared shards, proved
      against [SpscLaws] only: per-producer FIFO, no loss, completeness of a pass.
    - [MpscRecv.v] (Module [mpsc_recv]): [recv] one access at a time among its
      senders: what its end means, what is buffered when it parks, that it answers
      once nobody is left, and the value in the inbox it can park over.
    - [Select.v] (Module [select]): [select!] over a trait with laws, which the MPSC
      receiver meets, interleaved with the senders: what its [complete] arm
      guarantees, and what it misses.
    - [Async.v] (Module [async]): the send futures and the blocking sends over any
      answers of the ring, and the receive polls over the interface of [Select.v]:
      what their end means, and a value they can strand.

    Competing consumers, proved against [SpscLaws] in every interleaving:
    - [Rings.v]: ring membership, fixed, locked and array, as the class [Rings]
      with laws.
    - [Staged.v]: what the consumers share: jobs, logs, counting lemmas.
    - [Brokerless.v] (Module [brokerless]): consumers that claim whole rings:
      exclusive claims, every value reaches exactly one consumer, and the one panic
      is that of a registration beyond the bound of the array.
    - [Lanes.v] (Module [lanes]): one lane per producer and consumer, with
      adoption of abandoned lanes.
    - [Targets.v], [Brokered.v] (Module [brokered]): routing by brokers; what a
      broker decides is its policy's plan, for round robin with the consumers tried
      and the cursor left behind, and the plan is what is delivered.
    - [Leased.v] (Module [leased]): payload blocks that travel over a brokerless
      channel and return over SPSC lanes: custody and delivery of blocks, and the
      one panic, of [advance_initialized].
    - [Broadcast.v], [BroadcastConc.v] (Modules [broadcast], [broadcast_conc]):
      the calls refine a log with one position per reader; interleaved, no slot
      is overwritten before every active reader has passed it.

    Processes:
    - [IpcFrame.v] (Module [frame]): the wire frame and its codec, the scalar and
      AVX2 checksums.
    - [IpcArena.v] (Module [arena]): stream shapes, chunk arithmetic, the layout
      of a shared arena, its header contract, its role claims and its operations
      over the bytes of the region.
    - [IpcTransfer.v] (Module [transfer]): [produce] and [consume] interleaved:
      memory safety and slot custody, exact delivery, termination.
    - [IpcDynamic.v] (Module [dynamic]): streams of unknown length: exact delivery,
      and the two errors of the producer.
    - [IpcSetup.v], [IpcSession.v] (Modules [setup], [session]): the setup frame
      and the handshake over a shared store of regions.
    - [IpcPod.v] (Module [pod]): typed payload destinations.
    - [IpcEvent.v] (Module [event]): process events under one direction of a ring,
      over a class of parking objects: when a parked process is woken, and the
      interleaving in which a futex loses the wake.

    Declarations:
    - [Declaration.v] (Module [declaration]): the builder calls on the axes of a
      channel; which chains type-check and which declarations have an [open].
    - [Open.v] (Module [open]): capacities, validation and the construction of
      every engine over the sizes of its endpoint types: exactly the stated shapes
      are accepted, and an accepted one panics exactly when its vectors exceed the
      largest allocation.

    ** Conventions

    A [usize] or [u64] is a [Z] in [[0, 2^64)] and every operation that wraps is
    written out. A slot that owns no value is [None], so that a read of it is
    [UB]. Loops that are not structural take the fuel that the code's own bound
    gives (the ring length, the number of shards, the payload length), and the
    lemmas about them show that it is enough. Interleaved models are in
    sequentially consistent memory: a step is one shared access, and the
    acquire / release pairs of the code are what justifies that reading. In
    [Park.v] the stores of the senders also become visible late.

    ** Not modelled

    Weak memory orderings, and the choice between std and loom primitives
    ([platform.rs]). The operating-system side of the process channels: mapping of
    regions, control sockets ([ipc/control.rs]), the system calls behind a process
    event and Windows access control ([ipc/windows_security.rs]); in
    [IpcTransfer.v] a wait is a step that is not enabled yet. Destructors of values
    that panic; timeouts of the wait kernels: the theorems hold without them, and
    what they are needed for is stated ([park_sleeps_over_inbox],
    [recv_parks_over_inbox]). The reuse of
    rings by a later registration, of which only the reset of one ring is modelled.
    Codecs supplied by the caller.
    Examples, benchmarks, tests and the performance tools. *)

From stdpp Require Import prelude gmap strings.
Local Open Scope Z_scope.

(** ** Machine integers

    [usize] and [u64] are modelled as [Z] values in [[0, USIZE)]; every
    operation that can wrap, overflow or fail is written out below with the
    name of the Rust method it stands for. *)

Declare Scope prescient_scope.
Delimit Scope prescient_scope with prescient.

Abbreviation USIZE := 18446744073709551616 (only parsing).
Abbreviation U32 := 4294967296 (only parsing).
Abbreviation ISIZE_MAX := 9223372036854775807 (only parsing).

Definition wrapping_add (a b : Z) : Z := (a + b) mod USIZE.
Definition wrapping_sub (a b : Z) : Z := (a - b) mod USIZE.
Definition wrapping_mul (a b : Z) : Z := (a * b) mod USIZE.

Definition checked_add (a b : Z) : option Z :=
  if a + b <? USIZE then Some (a + b) else None.
Definition checked_mul (a b : Z) : option Z :=
  if a * b <? USIZE then Some (a * b) else None.
Definition saturating_sub (a b : Z) : Z := if b <=? a then a - b else 0.

(** [usize::div_ceil] and [usize::is_multiple_of]; [is_multiple_of(0)] holds of
    zero only, as the standard library documents. *)
Definition div_ceil (a b : Z) : Z := if a mod b =? 0 then a / b else a / b + 1.
Definition is_multiple_of (a b : Z) : bool :=
  if b =? 0 then a =? 0 else a mod b =? 0.

(** [usize::checked_next_power_of_two]: the least power of two that is at
    least [n], or nothing when it does not fit. *)
Definition checked_next_power_of_two (n : Z) : option Z :=
  let p := 2 ^ Z.log2_up n in
  if p <? USIZE then Some p else None.

Definition is_power_of_two (n : Z) : bool :=
  (0 <? n) && (Z.land n (n - 1) =? 0).

(** [u64::trailing_zeros]; 64 on zero. *)
Fixpoint pos_trailing_zeros (p : positive) : Z :=
  match p with
  | xO q => 1 + pos_trailing_zeros q
  | _ => 0
  end.
Definition trailing_zeros (n : Z) : Z :=
  match n with Zpos p => pos_trailing_zeros p | _ => 64 end.

(** [u64::rotate_left] and the logical right shift. *)
Definition rotate_left (x n : Z) : Z :=
  Z.lor (Z.land (Z.shiftl x n) (Z.ones 64)) (Z.shiftr x (64 - n)).

(** ** Outcomes

    [OK] is normal return, [PANIC] an unwinding panic and [UB] undefined
    behaviour: an unchecked index out of range, a read of a [MaybeUninit] cell
    that owns no value, or an access to freed memory. *)

Inductive outcome (A : Type) : Type :=
| OK (a : A)
| PANIC
| UB.
Arguments OK {A} a.
Arguments PANIC {A}.
Arguments UB {A}.

#[export] Instance outcome_ret : MRet outcome := fun A a => OK a.
#[export] Instance outcome_bind : MBind outcome := fun A B f m =>
  match m with OK a => f a | PANIC => PANIC | UB => UB end.

(** [Result<A, E>]. *)
Inductive result (A E : Type) : Type :=
| Ok (a : A)
| Err (e : E).
Arguments Ok {A E} a.
Arguments Err {A E} e.

(** The question mark operator. *)
Definition result_bind {A B E} (m : result A E) (k : A -> result B E) : result B E :=
  match m with Ok a => k a | Err e => Err e end.
Notation "x ←? y ; z" := (result_bind y (fun x => z))
  (at level 20, y at level 100, z at level 200, only parsing) : prescient_scope.
Notation "' x ←? y ; z" := (result_bind y (fun x => z))
  (at level 20, x pattern, y at level 100, z at level 200, only parsing) : prescient_scope.

(** A [MaybeUninit<T>] cell: [Some v] owns the initialised value [v]; [None] is
    uninitialised, or its value has been moved out. *)
Abbreviation cell T := (option T).

Definition assume_init_read {T} (c : cell T) : outcome T :=
  match c with Some v => OK v | None => UB end.

(** Unchecked indexing into a slice of cells. *)
Definition get_unchecked {T} (b : list (cell T)) (i : Z) : outcome (cell T) :=
  if i <? 0 then UB else
  match b !! Z.to_nat i with Some c => OK c | None => UB end.
Definition set_unchecked {T} (b : list (cell T)) (i : Z) (c : cell T)
    : outcome (list (cell T)) :=
  if (0 <=? i) && (i <? Z.of_nat (length b)) then OK (<[Z.to_nat i := c]> b) else UB.

(** A raw span of [n] cells from [off], and the same span written or left behind
    as moved out, as [copy_nonoverlapping] reads and writes it; a span that
    leaves the allocation is undefined behaviour. *)
Definition span {T} (b : list (cell T)) (off n : Z) : outcome (list (cell T)) :=
  if (0 <=? off) && (0 <=? n) && (off + n <=? Z.of_nat (length b))
  then OK (take (Z.to_nat n) (drop (Z.to_nat off) b)) else UB.
Definition write_span {T} (b : list (cell T)) (off : Z) (cs : list (cell T))
    : outcome (list (cell T)) :=
  if (0 <=? off) && (off + Z.of_nat (length cs) <=? Z.of_nat (length b))
  then OK (list_inserts (Z.to_nat off) cs b) else UB.
Definition moved_out {T} (b : list (cell T)) (off n : Z) : list (cell T) :=
  list_inserts (Z.to_nat off) (replicate (Z.to_nat n) None) b.

(** Plain [usize] subtraction: it never wraps silently in this model; a
    negative result is the overflow panic of a checked build. *)
Definition sub_usize (a b : Z) : outcome Z := if b <=? a then OK (a - b) else PANIC.

(** A closure argument [FnMut(T)] acting on a caller state [S]; the flag says
    whether the call panics after its effects. *)
Abbreviation callback S T := (S -> T -> S * bool)%type.

(** How a routine that runs caller code leaves: [Returned] or [Unwound]. *)
Inductive flow (A : Type) : Type :=
| Returned (a : A)
| Unwound.
Arguments Returned {A} a.
Arguments Unwound {A}.

(** ** Automation *)

Create HintDb prescient.

(** Split the outermost integer comparisons of the goal and discharge by [lia]. *)
Ltac zbool :=
  repeat match goal with
  | |- context [?a <? ?b] => destruct (Z.ltb_spec a b)
  | |- context [?a <=? ?b] => destruct (Z.leb_spec a b)
  | |- context [?a =? ?b] => destruct (Z.eqb_spec a b)
  | |- context [?a >=? ?b] => rewrite (Z.geb_leb a b)
  | |- context [?a >? ?b] => rewrite (Z.gtb_ltb a b)
  end.

Ltac zbool_in H :=
  repeat match type of H with
  | context [?a <? ?b] => destruct (Z.ltb_spec a b)
  | context [?a <=? ?b] => destruct (Z.leb_spec a b)
  | context [?a =? ?b] => destruct (Z.eqb_spec a b)
  | context [?a >=? ?b] => rewrite (Z.geb_leb a b) in H
  | context [?a >? ?b] => rewrite (Z.gtb_ltb a b) in H
  end.

(** Split a goal's syntactic conjunctions only, then close what is easy. *)
Ltac splits := repeat match goal with |- _ /\ _ => split end; try done; try lia.

Lemma bind_OK {A B} (m : outcome A) (k : A -> outcome B) b :
  m ≫= k = OK b -> exists a, m = OK a /\ k a = OK b.
Proof. destruct m as [a| |]; [|done..]. intros Hk. by exists a. Qed.

(** Opens one monadic step of [H : m ≫= k = OK _], and the pairs it returns. *)
Ltac split_pairs a :=
  lazymatch type of a with
  | prod _ _ => let x := fresh "r" in destruct a as [a x]; split_pairs a
  | _ => idtac
  end.
Ltac open_bind H :=
  let a := fresh "r" in let E := fresh "E" in
  apply bind_OK in H; destruct H as (a & E & H); split_pairs a.

(** ** Arithmetic lemmas *)

Lemma land_mask (a k : Z) : 0 <= k -> Z.land a (2 ^ k - 1) = a mod 2 ^ k.
Proof.
  intros Hk. rewrite <- Z.land_ones by done. rewrite Z.ones_equiv.
  by rewrite Z.sub_1_r.
Qed.

Lemma pow2_divide_usize (k : Z) : 0 <= k <= 64 -> (2 ^ k | USIZE).
Proof.
  intros Hk. exists (2 ^ (64 - k)). rewrite <- Z.pow_add_r by lia.
  by replace (64 - k + k) with 64 by lia.
Qed.

Lemma mod_usize_pow2 (a k : Z) : 0 <= k <= 64 -> (a mod USIZE) mod 2 ^ k = a mod 2 ^ k.
Proof. intros Hk. by apply Z.mod_mod_divide, pow2_divide_usize. Qed.

Lemma pow2_pos (k : Z) : 0 <= k -> 0 < 2 ^ k.
Proof. intros. by apply Z.pow_pos_nonneg. Qed.

(** A cursor is a machine word that stands for an unbounded counter. *)
Lemma wrapping_add_cursor (t n : Z) :
  wrapping_add (t mod USIZE) n = (t + n) mod USIZE.
Proof. unfold wrapping_add. by rewrite Zplus_mod_idemp_l. Qed.

Lemma wrapping_sub_cursor (t h : Z) :
  0 <= t - h < USIZE -> wrapping_sub (t mod USIZE) (h mod USIZE) = t - h.
Proof.
  intros Hr. unfold wrapping_sub.
  rewrite Zminus_mod_idemp_l, Zminus_mod_idemp_r. by apply Z.mod_small.
Qed.

Lemma cursor_eqb (t h : Z) :
  0 <= t - h < USIZE -> (h mod USIZE =? t mod USIZE) = (h =? t).
Proof.
  intros Hr. destruct (Z.eqb_spec h t) as [->|Hne]; [apply Z.eqb_refl|].
  apply Z.eqb_neq. intros Heq.
  assert ((t - h) mod USIZE = 0) as H0
    by (rewrite Zminus_mod, Heq, Z.sub_diag; done).
  rewrite Z.mod_small in H0 by done. lia.
Qed.

Lemma cursor_range (t : Z) : 0 <= t mod USIZE < USIZE.
Proof. by apply Z.mod_pos_bound. Qed.

Lemma usize_small (x : Z) : 0 <= x < USIZE -> x mod USIZE = x.
Proof. apply Z.mod_small. Qed.

Lemma mod_inj (c x y : Z) :
  0 < c -> Z.abs (x - y) < c -> x mod c = y mod c -> x = y.
Proof.
  intros Hc Hd Heq.
  assert (((x - y) mod c) = 0) as H0 by (by rewrite Zminus_mod, Heq, Z.sub_diag).
  apply Z.mod_divide in H0; [|lia]. destruct H0 as [q Hq].
  destruct (Z.lt_trichotomy q 0) as [Hq0|[->|Hq0]]; [|lia|];
    assert (c <= Z.abs (q * c)) by nia; lia.
Qed.

(** Rounding up to a power of two. *)
Lemma next_power_of_two_spec (n p : Z) :
  checked_next_power_of_two n = Some p ->
  exists k, p = 2 ^ k /\ 0 <= k < 64 /\ n <= p.
Proof.
  unfold checked_next_power_of_two. zbool; [|done]. intros [= <-].
  exists (Z.log2_up n). split; [done|]. split.
  - split; [apply Z.log2_up_nonneg|].
    apply (Z.pow_lt_mono_r_iff 2); [lia|lia|].
    by change (2 ^ 64) with USIZE.
  - destruct (Z.le_gt_cases n 0).
    + pose proof (pow2_pos (Z.log2_up n) (Z.log2_up_nonneg n)). lia.
    + by apply Z.log2_log2_up_spec.
Qed.

Lemma next_power_of_two_total (n : Z) :
  n <= 2 ^ 63 -> checked_next_power_of_two n = Some (2 ^ Z.log2_up n).
Proof.
  intros Hn. unfold checked_next_power_of_two.
  pose proof (Z.log2_up_le_mono n (2 ^ 63) Hn) as Hl.
  rewrite Z.log2_up_pow2 in Hl by done.
  assert (2 ^ Z.log2_up n <= 2 ^ 63) by (apply Z.pow_le_mono_r; lia).
  zbool; [done|]. lia.
Qed.

(** ** Bits *)

Lemma trailing_zeros_testbit (p : positive) :
  Z.testbit (Zpos p) (pos_trailing_zeros p) = true /\ 0 <= pos_trailing_zeros p <= Z.log2 (Zpos p).
Proof.
  induction p as [p IH|p IH|]; cbn [pos_trailing_zeros].
  - split; [done|]. pose proof (Z.log2_nonneg (Zpos p~1)). lia.
  - destruct IH as [IH1 IH2]. split.
    + by rewrite Z.add_1_l, Pos2Z.inj_xO, Z.double_bits_succ.
    + rewrite Pos2Z.inj_xO, Z.log2_double by lia. lia.
  - split; [done|]. simpl. lia.
Qed.

Lemma trailing_zeros_spec (x : Z) :
  0 < x < USIZE -> Z.testbit x (trailing_zeros x) = true /\ 0 <= trailing_zeros x < 64.
Proof.
  intros Hx. destruct x as [|p|p]; try lia. simpl.
  destruct (trailing_zeros_testbit p) as [H1 H2]. split; [done|].
  assert (Z.log2 (Zpos p) < 64) by (apply Z.log2_lt_pow2; [lia|]; change (2 ^ 64) with USIZE; lia).
  lia.
Qed.

Lemma trailing_zeros_lowest (x i : Z) :
  0 < x -> 0 <= i < trailing_zeros x -> Z.testbit x i = false.
Proof.
  intros Hx. destruct x as [|p|p]; try lia. simpl. clear Hx. revert i.
  induction p as [p IH|p IH|]; intros i; cbn [pos_trailing_zeros]; intros Hi; [lia| |lia].
  rewrite Pos2Z.inj_xO. destruct (decide (i = 0)) as [->|Hne]; [apply Z.testbit_even_0|].
  replace i with (Z.succ (i - 1)) by lia. rewrite Z.double_bits_succ. apply IH. lia.
Qed.

Lemma one_bit (b i : Z) : 0 <= b -> 0 <= i -> Z.testbit (Z.shiftl 1 b) i = (b =? i).
Proof.
  intros Hb Hi. rewrite Z.shiftl_spec by done.
  destruct (Z.eqb_spec b i) as [->|Hne]; [by rewrite Z.sub_diag|].
  destruct (Z.lt_trichotomy (i - b) 0) as [|[|]]; [by apply Z.testbit_neg_r|lia|].
  apply Z.bits_above_log2; simpl; lia.
Qed.

(** [m & (m - 1)] clears the lowest set bit. *)
Lemma clear_lowest_even (m : Z) : Z.land (2 * m) (2 * m - 1) = 2 * Z.land m (m - 1).
Proof.
  replace (2 * m - 1) with (2 * (m - 1) + 1) by lia. apply Z.bits_inj'. intros i Hi. rewrite Z.land_spec.
  destruct (decide (i = 0)) as [->|Hne]; [by rewrite !Z.testbit_even_0|].
  replace i with (Z.succ (i - 1)) by lia.
  by rewrite !Z.testbit_even_succ, Z.testbit_odd_succ, Z.land_spec by lia.
Qed.

Lemma clear_lowest (p : positive) (i : Z) :
  0 <= i -> Z.testbit (Z.land (Zpos p) (Zpos p - 1)) i =
    Z.testbit (Zpos p) i && negb (i =? pos_trailing_zeros p).
Proof.
  revert i. induction p as [p IH|p IH|]; intros i Hi; cbn [pos_trailing_zeros].
  - replace (Zpos p~1 - 1) with (2 * Zpos p) by lia. rewrite (Pos2Z.inj_xI p), Z.land_spec.
    destruct (Z.eqb_spec i 0) as [->|Hne]; [by rewrite Z.testbit_even_0, andb_false_r|].
    replace i with (Z.succ (i - 1)) by lia. rewrite Z.testbit_odd_succ, Z.testbit_even_succ by lia.
    by destruct (Z.testbit (Zpos p) (i - 1)).
  - rewrite (Pos2Z.inj_xO p), clear_lowest_even. destruct (decide (i = 0)) as [->|Hne];
      [by rewrite !Z.testbit_even_0|].
    replace i with (Z.succ (i - 1)) by lia. rewrite !Z.testbit_even_succ, IH by lia. do 2 f_equal.
    destruct (Z.eqb_spec (i - 1) (pos_trailing_zeros p)), (Z.eqb_spec (Z.succ (i - 1)) (1 + pos_trailing_zeros p)); lia.
  - rewrite Z.land_0_r, Z.bits_0. destruct (Z.eqb_spec i 0) as [->|]; [done|].
    by rewrite (Z.bits_above_log2 1 i) by (simpl; lia).
Qed.

(** ** List lemmas *)

Lemma get_unchecked_lookup {T} (b : list (cell T)) (i : Z) (c : cell T) :
  0 <= i -> b !! Z.to_nat i = Some c -> get_unchecked b i = OK c.
Proof. intros Hi Hb. unfold get_unchecked. zbool; [lia|]. by rewrite Hb. Qed.

Lemma set_unchecked_in {T} (b : list (cell T)) (i : Z) (c : cell T) :
  0 <= i < Z.of_nat (length b) -> set_unchecked b i c = OK (<[Z.to_nat i := c]> b).
Proof. intros Hi. unfold set_unchecked. zbool; (done || lia). Qed.

Lemma span_in {T} (b : list (cell T)) (off n : Z) :
  0 <= off -> 0 <= n -> off + n <= Z.of_nat (length b) ->
  span b off n = OK (take (Z.to_nat n) (drop (Z.to_nat off) b)).
Proof. intros. unfold span. zbool; (done || lia). Qed.

Lemma write_span_in {T} (b cs : list (cell T)) (off : Z) :
  0 <= off -> off + Z.of_nat (length cs) <= Z.of_nat (length b) ->
  write_span b off cs = OK (list_inserts (Z.to_nat off) cs b).
Proof. intros. unfold write_span. zbool; (done || lia). Qed.

Lemma sub_usize_le (a b : Z) : b <= a -> sub_usize a b = OK (a - b).
Proof. intros. unfold sub_usize. zbool; (done || lia). Qed.

Lemma moved_out_length {T} (b : list (cell T)) (off n : Z) :
  length (moved_out b off n) = length b.
Proof. apply length_inserts. Qed.

(** One lookup lemma for [list_inserts], by position. *)
Lemma inserts_lookup {A} (l k : list A) (i j : nat) :
  (j < length l)%nat ->
  list_inserts i k l !! j =
    if decide (i <= j < i + length k)%nat then k !! (j - i)%nat else l !! j.
Proof.
  intros Hj. case_decide as Hd; [by apply list_lookup_inserts|].
  destruct (decide (j < i)%nat); [apply list_lookup_inserts_lt; lia|].
  apply list_lookup_inserts_ge. lia.
Qed.

(** What is found after an update at position [i]. *)
Lemma insert_other_or_same {X} (l : list X) i j (x y : X) :
  <[i := x]> l !! j = Some y -> (i = j /\ x = y) \/ (i <> j /\ l !! j = Some y).
Proof.
  intros Hl. destruct (decide (i = j)) as [->|Hne].
  - left. split; [done|]. apply list_lookup_insert_Some in Hl.
    destruct Hl as [(_ & ? & _)|[? _]]; done.
  - right. by rewrite list_lookup_insert_ne in Hl.
Qed.

#[export] Hint Resolve pow2_pos cursor_range : prescient.

(** Case analysis on a lookup [H] in an updated list: the updated entry, or an
    old one at another position. *)
Ltac updated H :=
  apply insert_other_or_same in H; destruct H as [[? ?]|[? H]]; simplify_eq.
