(* ===== verification/RoundRobin.v ===== *)
(** * Round-robin positions and the bounded-preference scan cursor

    [src/src/round_robin.rs] (the division-free [index] and [next] shared by
    every topology) and [src/src/mpmc/brokerless/scan.rs] (the consumer-local
    [Cursor] that prefers a productive ring for a bounded number of drains). *)

From stdpp Require Import prelude.
From S2P Require Import Prelude.
Local Open Scope Z_scope.

(** ** [round_robin.rs] *)

Definition index (cursor len : Z) : Z := if cursor <? len then cursor else 0.

(** Returns the selected slot and the new cursor. *)
Definition next (cursor len : Z) : Z * Z :=
  let i := index cursor len in (i, i + 1).

(** [k] successive selections: the visited slots and the final cursor. *)
Fixpoint visits (k : nat) (cursor len : Z) : list Z * Z :=
  match k with
  | O => ([], cursor)
  | S k' =>
      let '(i, cursor') := next cursor len in
      let '(l, c) := visits k' cursor' len in (i :: l, c)
  end.

(** ** [scan.rs] *)

Definition QUANTUM : Z := 16.

Record Cursor := mkCursor { cur_next : Z; credits : Z }.

Definition Cursor_new (seed : Z) : Cursor := mkCursor seed (QUANTUM - 1).

Definition Cursor_next (c : Cursor) (len : Z) : Z * Cursor :=
  let '(i, n) := next (cur_next c) len in (i, mkCursor n (credits c)).

(** [credits] is a [u8]: [wrapping_sub(1) & (QUANTUM - 1)]. *)
Definition prefer (c : Cursor) : Cursor :=
  mkCursor (cur_next c - (if credits c =? 0 then 0 else 1))
           (Z.land ((credits c - 1) mod 256) (QUANTUM - 1)).

(** [k] successive productive drains: each selects a ring and then calls
    [prefer]; the list holds the rings served. *)
Fixpoint productive (k : nat) (c : Cursor) (len : Z) : list Z * Cursor :=
  match k with
  | O => ([], c)
  | S k' =>
      let '(i, c1) := Cursor_next c len in
      let '(l, c2) := productive k' (prefer c1) len in (i :: l, c2)
  end.

(** ** Bounds *)

Lemma index_bounds cursor len : 0 <= cursor -> 0 < len -> 0 <= index cursor len < len.
Proof. intros. unfold index. zbool; lia. Qed.

(** [next] never overflows: the stored cursor is at most [len]. *)
Lemma next_bounds cursor len i c :
  0 <= cursor -> 0 < len -> next cursor len = (i, c) -> 0 <= i < len /\ c = i + 1 /\ 0 < c <= len.
Proof.
  intros Hc Hl [= <- <-]. pose proof (index_bounds cursor len Hc Hl). lia.
Qed.

Lemma index_after cursor len :
  0 <= cursor -> 0 < len ->
  index (index cursor len + 1) len = (index cursor len + 1) mod len.
Proof.
  intros Hc Hl. pose proof (index_bounds cursor len Hc Hl).
  unfold index at 1. zbool; [by rewrite Z.mod_small by lia|].
  replace (index cursor len + 1) with len by lia. by rewrite Z.mod_same by lia.
Qed.

Lemma index_mod i len : 0 <= i -> 0 < len -> index (i mod len) len = i mod len.
Proof. intros. pose proof (Z.mod_pos_bound i len). unfold index. zbool; lia. Qed.

(** The selections form a rotation: the j-th one is [(first + j) mod len]. *)
Lemma visits_lookup k cursor len j :
  0 <= cursor -> 0 < len -> (j < k)%nat ->
  (visits k cursor len).1 !! j = Some ((index cursor len + Z.of_nat j) mod len).
Proof.
  revert cursor j. induction k as [|k IH]; intros cursor j Hc Hl Hj; [lia|].
  pose proof (index_bounds cursor len Hc Hl) as Hb.
  simpl. specialize (IH (index cursor len + 1)).
  destruct (visits k (index cursor len + 1) len) as [l c] eqn:Hv.
  destruct j as [|j]; simpl.
  - rewrite Z.add_0_r, Z.mod_small by lia. done.
  - simpl in IH. rewrite IH by lia. f_equal.
    rewrite index_after, Zplus_mod_idemp_l by lia. f_equal. lia.
Qed.

Lemma visits_length k cursor len : length (visits k cursor len).1 = k.
Proof.
  revert cursor. induction k as [|k IH]; intros cursor; [done|].
  simpl. specialize (IH (index cursor len + 1)).
  destruct (visits k _ len). simpl in *. lia.
Qed.

Lemma visits_app a b cursor len :
  visits (a + b) cursor len =
  ((visits a cursor len).1 ++ (visits b (visits a cursor len).2 len).1,
   (visits b (visits a cursor len).2 len).2).
Proof.
  revert cursor. induction a as [|a IH]; intros cursor; simpl; [by destruct (visits b cursor len)|].
  rewrite IH. by destruct (visits a (index cursor len + 1) len).
Qed.

Lemma visits_cursor k cursor len : 0 <= cursor -> 0 < len -> 0 <= (visits k cursor len).2.
Proof.
  revert cursor. induction k as [|k IH]; intros cursor Hc Hl; simpl; [done|].
  pose proof (index_bounds cursor len Hc Hl). specialize (IH (index cursor len + 1) ltac:(lia) Hl).
  by destruct (visits k (index cursor len + 1) len).
Qed.

(** A full pass reaches every slot. *)
Lemma visits_cover cursor len x :
  0 <= cursor -> 0 <= x < len -> x ∈ (visits (Z.to_nat len) cursor len).1.
Proof.
  intros Hc Hx. pose proof (index_bounds cursor len Hc ltac:(lia)) as Hb.
  apply list_elem_of_lookup. exists (Z.to_nat ((x - index cursor len) mod len)).
  pose proof (Z.mod_pos_bound (x - index cursor len) len ltac:(lia)).
  rewrite visits_lookup by lia. f_equal. rewrite Z2Nat.id by lia.
  rewrite Zplus_mod_idemp_r. rewrite Z.mod_small; lia.
Qed.

(** A pass of [len] selections, from any cursor value (also a stale one
    beyond a shrunken membership), visits every slot index below [len] exactly
    once, so a full scan neither skips nor repeats a ring. *)
Lemma visits_permutation (cursor len : Z) :
  0 <= cursor -> 0 < len ->
  (visits (Z.to_nat len) cursor len).1 ≡ₚ seqZ 0 len.
Proof.
  intros Hc Hl. pose proof (index_bounds cursor len Hc Hl) as Hb.
  assert (NoDup (visits (Z.to_nat len) cursor len).1) as Hnd.
  { apply NoDup_alt. intros i j x Hi Hj.
    pose proof (lookup_lt_Some _ _ _ Hi) as Hil. pose proof (lookup_lt_Some _ _ _ Hj) as Hjl.
    rewrite visits_length in Hil, Hjl.
    rewrite visits_lookup in Hi, Hj by done.
    assert (index cursor len + Z.of_nat i = index cursor len + Z.of_nat j); [|lia].
    apply (mod_inj len); [done|lia|congruence]. }
  symmetry. apply submseteq_length_Permutation.
  - apply NoDup_submseteq; [apply NoDup_seqZ|]. intros x Hx%elem_of_seqZ.
    apply visits_cover; lia.
  - rewrite visits_length, length_seqZ. lia.
Qed.

(** At a cursor beyond the membership. *)
Lemma visits_permutation_witness :
  0 <= 7 /\ 0 < 3 /\ (visits (Z.to_nat 3) 7 3).1 ≡ₚ seqZ 0 3.
Proof. split; [lia|]. split; [lia|]. apply (visits_permutation 7 3); lia. Defined.

(** ** Bounded service *)

(** The cursor after [i] productive drains from [Cursor_new 0]. *)
Definition cursor_after (i len : Z) : Cursor :=
  mkCursor (if i mod 16 =? 0 then (if i =? 0 then 0 else (i / 16 - 1) mod len + 1)
            else (i / 16) mod len)
           (15 - i mod 16).

Lemma div16_succ i : 0 <= i ->
  (i mod 16 <> 15 /\ (i + 1) / 16 = i / 16 /\ (i + 1) mod 16 = i mod 16 + 1) \/
  (i mod 16 = 15 /\ (i + 1) / 16 = i / 16 + 1 /\ (i + 1) mod 16 = 0).
Proof. intros. Z.to_euclidean_division_equations. lia. Qed.

Lemma land_credits r : 0 <= r <= 15 ->
  Z.land ((15 - r - 1) mod 256) 15 = 15 - (r + 1) mod 16.
Proof.
  intros Hr. destruct (Z.eq_dec r 15) as [->|Hne]; [done|].
  rewrite !(Z.mod_small _ 256), (Z.mod_small _ 16) by lia.
  change 15 with (2 ^ 4 - 1) at 2. rewrite land_mask by lia.
  change (2 ^ 4) with 16. rewrite Z.mod_small; lia.
Qed.

Lemma index_cursor_after i len : 0 <= i -> 0 < len ->
  index (cur_next (cursor_after i len)) len = (i / 16) mod len.
Proof.
  intros Hi Hl. unfold cursor_after; simpl.
  destruct (Z.eqb_spec (i mod 16) 0) as [Hm|Hm]; [|by apply index_mod; [apply Z.div_pos|]].
  destruct (Z.eqb_spec i 0) as [->|Hi0].
  { unfold index. zbool; [|lia]. by rewrite Z.mod_0_l by lia. }
  assert (1 <= i / 16) as Hd by (Z.to_euclidean_division_equations; lia).
  pose proof (Z.mod_pos_bound (i / 16 - 1) len Hl).
  rewrite <- (index_mod (i / 16 - 1) len) by lia. rewrite index_after by lia.
  rewrite index_mod by lia. rewrite Zplus_mod_idemp_l. f_equal. lia.
Qed.

Lemma cursor_after_step i len : 0 <= i -> 0 < len ->
  Cursor_next (cursor_after i len) len =
    ((i / 16) mod len, mkCursor ((i / 16) mod len + 1) (15 - i mod 16)) /\
  prefer (mkCursor ((i / 16) mod len + 1) (15 - i mod 16)) = cursor_after (i + 1) len.
Proof.
  intros Hi Hl. split.
  - unfold Cursor_next, next. by rewrite index_cursor_after by done.
  - pose proof (Z.mod_pos_bound i 16 ltac:(lia)).
    unfold prefer, cursor_after; simpl. change (QUANTUM - 1) with 15.
    rewrite land_credits by lia.
    assert (i + 1 <> 0) as Hn by lia. apply Z.eqb_neq in Hn. rewrite Hn.
    destruct (div16_succ i Hi) as [(Hm & Hd & Hr)|(Hm & Hd & Hr)]; rewrite Hd, Hr.
    + zbool; [lia..|]. f_equal; [lia|]. by rewrite Z.mod_small by lia.
    + rewrite Hm. simpl. f_equal. rewrite Z.sub_0_r. by replace (i / 16 + 1 - 1) with (i / 16) by lia.
Qed.

Lemma productive_from k i len j :
  0 <= i -> 0 < len -> (j < k)%nat ->
  (productive k (cursor_after i len) len).1 !! j = Some (((i + Z.of_nat j) / 16) mod len).
Proof.
  revert i j. induction k as [|k IH]; intros i j Hi Hl Hj; [lia|].
  destruct (cursor_after_step i len Hi Hl) as [Hn Hp].
  cbn [productive]. rewrite Hn, Hp. specialize (IH (i + 1)).
  destruct (productive k (cursor_after (i + 1) len) len) as [l c].
  destruct j as [|j]; simpl; [by rewrite Z.add_0_r|].
  simpl in IH. rewrite IH by lia. do 3 f_equal. lia.
Qed.

(** A consumer that finds every ring hot serves ring [(j / 16) mod len] on
    its [j]-th productive drain: it never serves one ring more than [QUANTUM]
    times in a row and it reaches every other ring before coming back. *)
Theorem bounded_service (k j : nat) (len : Z) :
  0 < len -> (j < k)%nat ->
  (productive k (Cursor_new 0) len).1 !! j = Some ((Z.of_nat j / QUANTUM) mod len).
Proof. intros Hl Hj. apply (productive_from k 0 len j); lia. Qed.

(** The thirty-fifth drain over three rings serves ring two. *)
Lemma bounded_service_witness :
  (34 < 48)%nat /\ (productive 48 (Cursor_new 0) 3).1 !! 34%nat = Some 2.
Proof. split; [lia|]. exact (bounded_service 48 34 3 ltac:(lia) ltac:(lia)). Defined.
