(* ===== verification/Batch.v ===== *)
(** * The owned FIFO batch: [src/src/backend/batch.rs]

    [values] holds the [MaybeUninit] cells and [read] the length of the
    moved-out prefix. A cell whose value has been moved out holds [None], so a
    second read, or a drop, of it is undefined behaviour in this model. Vector
    growth ([reserve], [grow]) has no effect on the owned values and is not a
    state change here; allocation failure is not modelled. *)

From stdpp Require Import prelude.
From S2P Require Import Prelude.
Local Open Scope Z_scope.

Record Batch (T : Type) := mkBatch { values : list (cell T); read : Z }.
Arguments mkBatch {T} values read.
Arguments values {T} b.
Arguments read {T} b.

(** Move every value out of a span of cells, as drop glue or a slice borrow
    does; a cell that owns nothing is undefined behaviour. *)
Fixpoint read_cells {T} (cs : list (cell T)) : outcome (list T) :=
  match cs with
  | [] => OK []
  | c :: cs' =>
      v ← assume_init_read c;
      vs ← read_cells cs';
      OK (v :: vs)
  end.

Section operations.
Context {T : Type}.
Implicit Types b : Batch T.

Definition Batch_new : Batch T := mkBatch [] 0.

Definition batch_len b : Z := Z.of_nat (length (values b)) - read b.

Definition batch_is_empty b : bool := read b =? Z.of_nat (length (values b)).

(** [clear] empties the metadata first and then runs the destructors of the
    unread suffix; the dropped values are returned in destruction order. *)
Definition clear b : outcome (list T * Batch T) :=
  dropped ← read_cells (drop (Z.to_nat (read b)) (values b));
  OK (dropped, mkBatch [] 0).

Definition as_slice b : outcome (list T) :=
  read_cells (drop (Z.to_nat (read b)) (values b)).

Definition push_back b (v : T) : Batch T := mkBatch (values b ++ [Some v]) (read b).

Definition pop_front b : outcome (option T * Batch T) :=
  if read b =? Z.of_nat (length (values b)) then OK (None, b) else
  c ← get_unchecked (values b) (read b);
  v ← assume_init_read c;
  OK (Some v, mkBatch (<[Z.to_nat (read b) := None]> (values b)) (read b + 1)).

(** [checked_sub(1).expect(..)] panics on a batch nothing was popped from, and
    the indexing panics out of range. *)
Definition restore_front b (v : T) : outcome (Batch T) :=
  if read b <? 1 then PANIC else
  if Z.of_nat (length (values b)) <=? read b - 1 then PANIC else
  OK (mkBatch (<[Z.to_nat (read b - 1) := Some v]> (values b)) (read b - 1)).

(** [Drop for Batch] is [clear]. *)
Definition batch_drop b : outcome (list T) :=
  x ← clear b; OK x.1.

(** ** Representation

    [batch_repr b q]: the cells are a moved-out prefix of [read] cells followed
    by the values of [q]. *)
Definition batch_repr b (q : list T) : Prop :=
  0 <= read b /\ values b = replicate (Z.to_nat (read b)) None ++ (Some <$> q).

(** ** A client: an arbitrary sequence of calls *)

Inductive batch_op : Type :=
| BPush (v : T)
| BPop
| BPopRestore
| BClear
| BSlice
| BLen.

(** What the caller sees of one call. *)
Inductive batch_obs : Type :=
| OPopped (o : option T)
| ODropped (l : list T)
| OSlice (l : list T)
| OLen (n : Z)
| ONone.

Definition batch_step b (op : batch_op) : outcome (batch_obs * Batch T) :=
  match op with
  | BPush v => OK (ONone, push_back b v)
  | BPop => '(o, b') ← pop_front b; OK (OPopped o, b')
  | BPopRestore =>
      '(o, b') ← pop_front b;
      match o with
      | None => OK (ONone, b')
      | Some v => b'' ← restore_front b' v; OK (ONone, b'')
      end
  | BClear => '(l, b') ← clear b; OK (ODropped l, b')
  | BSlice => l ← as_slice b; OK (OSlice l, b)
  | BLen => OK (OLen (batch_len b), b)
  end.

(** The specification: a plain FIFO list. *)
Definition fifo_step (q : list T) (op : batch_op) : batch_obs * list T :=
  match op with
  | BPush v => (ONone, q ++ [v])
  | BPop => match q with [] => (OPopped None, []) | v :: q' => (OPopped (Some v), q') end
  | BPopRestore => (ONone, q)
  | BClear => (ODropped q, [])
  | BSlice => (OSlice q, q)
  | BLen => (OLen (Z.of_nat (length q)), q)
  end.

Fixpoint batch_run b (ops : list batch_op) : outcome (list batch_obs * Batch T) :=
  match ops with
  | [] => OK ([], b)
  | op :: ops' =>
      '(o, b') ← batch_step b op;
      '(os, b'') ← batch_run b' ops';
      OK (o :: os, b'')
  end.

Fixpoint fifo_run (q : list T) (ops : list batch_op) : list batch_obs * list T :=
  match ops with
  | [] => ([], q)
  | op :: ops' =>
      let '(o, q') := fifo_step q op in
      let '(os, q'') := fifo_run q' ops' in (o :: os, q'')
  end.

(** ** Lemmas *)

Lemma read_cells_Some (l : list T) : read_cells (Some <$> l) = OK l.
Proof. induction l as [|v l IH]; [done|]. csimpl. by rewrite IH. Qed.

Lemma batch_repr_new : batch_repr Batch_new [].
Proof. by split. Qed.

Lemma batch_repr_length b q :
  batch_repr b q -> Z.of_nat (length (values b)) = read b + Z.of_nat (length q).
Proof.
  intros [Hr Hv]. rewrite Hv, length_app, length_replicate, length_fmap. lia.
Qed.

Lemma batch_len_repr b q : batch_repr b q -> batch_len b = Z.of_nat (length q).
Proof. intros Hb. unfold batch_len. apply batch_repr_length in Hb. lia. Qed.

Lemma batch_is_empty_repr b q :
  batch_repr b q -> batch_is_empty b = bool_decide (q = []).
Proof.
  intros Hb. unfold batch_is_empty. apply batch_repr_length in Hb.
  destruct q; simpl in *; zbool; (done || lia).
Qed.

Lemma batch_unread b q : batch_repr b q -> drop (Z.to_nat (read b)) (values b) = Some <$> q.
Proof.
  intros [Hr Hv]. rewrite Hv, drop_app_length'; [done|]. by rewrite length_replicate.
Qed.

Lemma clear_repr b q : batch_repr b q -> clear b = OK (q, Batch_new).
Proof. intros Hb. unfold clear. by rewrite (batch_unread b q Hb), read_cells_Some. Qed.

Lemma as_slice_repr b q : batch_repr b q -> as_slice b = OK q.
Proof. intros Hb. unfold as_slice. by rewrite (batch_unread b q Hb), read_cells_Some. Qed.

Lemma push_back_repr b q v : batch_repr b q -> batch_repr (push_back b v) (q ++ [v]).
Proof.
  intros [Hr Hv]. split; [done|]. simpl. by rewrite Hv, fmap_app, <- app_assoc.
Qed.

Lemma pop_front_nil b : batch_repr b [] -> pop_front b = OK (None, b).
Proof.
  intros Hb. apply batch_repr_length in Hb. unfold pop_front. simpl in Hb. zbool; (done || lia).
Qed.

Lemma pop_front_cons b v q :
  batch_repr b (v :: q) ->
  exists b', pop_front b = OK (Some v, b') /\ batch_repr b' q /\ read b' = read b + 1 /\
    values b' = <[Z.to_nat (read b) := None]> (values b).
Proof.
  intros Hb. pose proof (batch_repr_length _ _ Hb) as Hl. destruct Hb as [Hr Hv].
  unfold pop_front. simpl in Hl. zbool; [lia|].
  rewrite (get_unchecked_lookup _ _ (Some v)); [|done|].
  2:{ rewrite Hv, lookup_app_r; rewrite length_replicate; [|done].
      by rewrite Nat.sub_diag. }
  simpl. eexists. split; [done|]. split; [|done]. split; simpl; [lia|].
  rewrite Hv. rewrite insert_app_r_alt; rewrite length_replicate; [|done].
  rewrite Nat.sub_diag. simpl.
  replace (Z.to_nat (read b + 1)) with (Z.to_nat (read b) + 1)%nat by lia.
  by rewrite replicate_add, <- app_assoc.
Qed.

(** Raw moves out of the unread cells, as the ring's bulk push does them. *)
Lemma batch_moved_out b q n :
  batch_repr b q -> (n <= length q)%nat ->
  batch_repr (mkBatch (moved_out (values b) (read b) (Z.of_nat n)) (read b + Z.of_nat n)) (drop n q).
Proof.
  intros [Hr Hv] Hn. split; simpl; [lia|]. unfold moved_out. rewrite Hv, Nat2Z.id.
  rewrite <- (take_drop n q) at 1. rewrite fmap_app.
  pose proof (list_inserts_app_r (replicate n None) (replicate (Z.to_nat (read b)) None)
    ((Some <$> take n q) ++ (Some <$> drop n q)) 0) as Hi.
  rewrite length_replicate, Nat.add_0_r in Hi. rewrite Hi.
  rewrite list_inserts_0_r by (rewrite length_replicate, length_fmap, length_take; lia).
  rewrite app_assoc, <- replicate_add. do 2 f_equal. lia.
Qed.

Lemma batch_span b q off n :
  batch_repr b q -> (off + n <= length q)%nat ->
  span (values b) (read b + Z.of_nat off) (Z.of_nat n) = OK (take n (drop off (Some <$> q))).
Proof.
  intros Hb Hn. pose proof (batch_repr_length b q Hb). pose proof (batch_unread b q Hb) as Hu.
  destruct Hb as [Hr Hv]. rewrite span_in by lia. rewrite <- Hu, drop_drop.
  rewrite Nat2Z.id. do 3 f_equal. lia.
Qed.

Lemma batch_front b v q :
  batch_repr b (v :: q) -> get_unchecked (values b) (read b) = OK (Some v).
Proof.
  intros [Hr Hv]. apply get_unchecked_lookup; [done|].
  rewrite Hv, lookup_app_r; rewrite length_replicate; [|done]. by rewrite Nat.sub_diag.
Qed.

Lemma batch_append b q l :
  batch_repr b q -> batch_repr (mkBatch (values b ++ (Some <$> l)) (read b)) (q ++ l).
Proof.
  intros [Hr Hv]. split; [done|]. simpl. by rewrite Hv, fmap_app, <- app_assoc.
Qed.

(** Popping and restoring is the identity. *)
Lemma pop_restore b v q :
  batch_repr b (v :: q) ->
  exists b', pop_front b = OK (Some v, b') /\ restore_front b' v = OK b.
Proof.
  intros Hb. pose proof (batch_repr_length _ _ Hb) as Hl. simpl in Hl.
  destruct (pop_front_cons b v q Hb) as (b' & Hp & Hb' & Hrd & Hvs).
  exists b'. split; [done|]. destruct Hb as [Hr Hv].
  unfold restore_front. rewrite Hrd, Hvs, length_insert.
  zbool; [lia..|]. replace (read b + 1 - 1) with (read b) by lia.
  rewrite list_insert_insert_eq. destruct b as [vs r]; simpl in *. f_equal. f_equal.
  apply list_insert_id. rewrite Hv, lookup_app_r; rewrite length_replicate; [|done].
  by rewrite Nat.sub_diag.
Qed.

(** Putting a rejected value back in front of what is left. *)
Lemma restore_front_repr b v q :
  batch_repr b q -> 0 < read b ->
  exists b', restore_front b v = OK b' /\ batch_repr b' (v :: q) /\ read b' = read b - 1.
Proof.
  intros Hb Hr. pose proof (batch_repr_length _ _ Hb) as Hl. destruct Hb as [H0 Hv].
  unfold restore_front. zbool; [lia..|]. eexists. split; [done|]. split; [|done].
  split; simpl; [lia|]. rewrite Hv.
  replace (Z.to_nat (read b)) with (Z.to_nat (read b - 1) + 1)%nat by lia.
  rewrite replicate_add, <- app_assoc, insert_app_r_alt by (rewrite length_replicate; lia).
  by rewrite length_replicate, Nat.sub_diag.
Qed.

Lemma batch_step_fifo b q op :
  batch_repr b q ->
  exists b', batch_step b op = OK ((fifo_step q op).1, b') /\ batch_repr b' (fifo_step q op).2.
Proof.
  intros Hb. destruct op; simpl.
  - eexists. split; [done|]. by apply push_back_repr.
  - destruct q as [|v q].
    + rewrite (pop_front_nil b Hb). by eexists.
    + destruct (pop_front_cons b v q Hb) as (b' & -> & Hb' & _). by eexists.
  - destruct q as [|v q].
    + rewrite (pop_front_nil b Hb). by eexists.
    + destruct (pop_restore b v q Hb) as (b' & -> & Hr). simpl. rewrite Hr. by eexists.
  - rewrite (clear_repr b q Hb). eexists. split; [done|]. apply batch_repr_new.
  - rewrite (as_slice_repr b q Hb). by eexists.
  - rewrite (batch_len_repr b q Hb). by eexists.
Qed.

(** Whatever sequence of public calls a caller makes on a fresh batch, the
    cells and the read index behave as one FIFO list: every observation (popped
    value, borrowed slice, dropped values, length) equals the list's, no call
    reads or drops a moved-out cell, and no call panics. *)
Theorem batch_refines_fifo (ops : list batch_op) :
  exists b, batch_run Batch_new ops = OK ((fifo_run [] ops).1, b) /\
            batch_repr b (fifo_run [] ops).2.
Proof.
  cut (forall b q, batch_repr b q -> exists b', batch_run b ops = OK ((fifo_run q ops).1, b') /\
    batch_repr b' (fifo_run q ops).2); [intros H; apply H, batch_repr_new|].
  induction ops as [|op ops IH]; intros b q Hb; simpl; [by eexists|].
  destruct (batch_step_fifo b q op Hb) as (b1 & -> & Hb1). simpl.
  destruct (fifo_step q op) as [o q1]; simpl in *.
  destruct (IH b1 q1 Hb1) as (b2 & -> & Hb2).
  destruct (fifo_run q1 ops) as [os q2]. simpl in *. by eexists.
Qed.

End operations.

Arguments batch_op T : clear implicits.
Arguments batch_obs T : clear implicits.

#[export] Hint Resolve batch_repr_new push_back_repr : prescient.
