(* ===== verification/Backend.v ===== *)
(** * The storage interface: [src/src/backend/mod.rs]

    [SpscBackend] is the trio of traits [Backend], [Tx] and [Rx]: the state [C]
    is one SPSC transport with both of its endpoints, and each method takes and
    returns it; [bk_drop_tx] and [bk_drop_rx] are dropping an endpoint. [SpscLaws]
    is what the topologies rely on, stated over the FIFO content of the transport; [BackendRing.v] and [BackendSeg.v] discharge it and the
    topology files use nothing else. [SpscBounded] adds what a bounded storage
    promises about room. The provided methods [Tx::push_from] and
    [Rx::drain_into] are the definitions [default_push_from] and
    [default_drain_into], proved to satisfy the same laws as the overrides. *)

From stdpp Require Import prelude.
From S2P Require Import Prelude Batch.
Local Open Scope Z_scope.

(** ** The traits *)

Class SpscBackend (T C : Type) := {
  bk_channel : Z -> outcome C;
  bk_try_push : C -> T -> outcome (result unit T * C);
  bk_push_from : C -> Z -> Batch T -> outcome (Z * C * Batch T);
  bk_is_consumer_gone : C -> bool;
  bk_drop_tx : C -> C;
  bk_drop_rx : C -> outcome C;
  bk_try_pop : C -> outcome (option T * C);
  bk_drain_in_place : forall S : Type, C -> Z -> callback S T -> S -> outcome (flow Z * C * S);
  bk_drain_into : C -> Z -> Batch T -> outcome (Z * C * Batch T);
  bk_is_empty : C -> outcome bool;
  bk_is_finished : C -> outcome bool
}.
Arguments bk_drain_in_place {T C _ S} _ _ _ _.

(** ** Provided methods *)

Section defaults.
Context {T C : Type} (try_push : C -> T -> outcome (result unit T * C)).

(** [Tx::push_from]: pop, push, restore on refusal. The loop runs at most once
    per value of the source plus one, which [fuel] counts. *)
Fixpoint push_from_loop (fuel : nat) (accepted max : Z) (c : C) (source : Batch T)
    : outcome (Z * C * Batch T) :=
  match fuel with
  | O => OK (accepted, c, source)
  | S fuel' =>
      if accepted <? max then
        '(o, source1) ← pop_front source;
        match o with
        | None => OK (accepted, c, source1)
        | Some value =>
            '(r, c1) ← try_push c value;
            match r with
            | Ok _ => push_from_loop fuel' (accepted + 1) max c1 source1
            | Err back =>
                source2 ← restore_front source1 back;
                OK (accepted, c1, source2)
            end
        end
      else OK (accepted, c, source)
  end.

Definition default_push_from (c : C) (max : Z) (source : Batch T) : outcome (Z * C * Batch T) :=
  push_from_loop (S (Z.to_nat (batch_len source))) 0 max c source.

Context (drain_in_place : forall S : Type, C -> Z -> callback S T -> S -> outcome (flow Z * C * S)).

(** [Rx::drain_into]: [drain_in_place(max, |value| out.push_back(value))]. *)
Definition default_drain_into (c : C) (max : Z) (out : Batch T) : outcome (Z * C * Batch T) :=
  '(fl, c', out') ← drain_in_place (Batch T) c max (fun o v => (push_back o v, false)) out;
  match fl with
  | Returned n => OK (n, c', out')
  | Unwound => PANIC
  end.
End defaults.

(** ** The contract *)

(** Run a callback over a list until it ends or the callback panics: the final
    caller state, how many values were handed over, whether it panicked. *)
Fixpoint feed {S T} (f : callback S T) (s : S) (l : list T) : S * nat * bool :=
  match l with
  | [] => (s, O, false)
  | v :: l' =>
      let '(s1, p) := f s v in
      if p then (s1, 1%nat, true)
      else let '(s2, k, p2) := feed f s1 l' in (s2, Datatypes.S k, p2)
  end.


(** A callback that logs its values and panics on call number [stop]. *)
Definition logger {T} (stop : nat) : callback (list T) T :=
  fun log v => (log ++ [v], bool_decide (length log = stop)).

Class SpscLaws (T C : Type) `{SpscBackend T C} := {
  (** [bk_repr c q pg cg]: [c] is well formed and holds [q], oldest first. *)
  bk_repr : C -> list T -> bool -> bool -> Prop;
  bk_channel_law : forall n c, bk_channel n = OK c -> bk_repr c [] false false;
  bk_try_push_law : forall c q cg v, bk_repr c q false cg ->
    exists r c', bk_try_push c v = OK (r, c') /\
      ((r = Ok tt /\ bk_repr c' (q ++ [v]) false cg) \/ (r = Err v /\ bk_repr c' q false cg));
  bk_push_from_law : forall c q cg max b s, bk_repr c q false cg -> batch_repr b s -> 0 <= max ->
    exists n c' b', bk_push_from c max b = OK (Z.of_nat n, c', b') /\
      (n <= length s)%nat /\ Z.of_nat n <= max /\
      bk_repr c' (q ++ take n s) false cg /\ batch_repr b' (drop n s);
  bk_consumer_gone_law : forall c q pg cg, bk_repr c q pg cg -> bk_is_consumer_gone c = cg;
  bk_drop_tx_law : forall c q cg, bk_repr c q false cg -> bk_repr (bk_drop_tx c) q true cg;
  bk_drop_rx_law : forall c q pg, bk_repr c q pg false ->
    exists c' q', bk_drop_rx c = OK c' /\ bk_repr c' q' pg true;
  bk_try_pop_nil_law : forall c pg, bk_repr c [] pg false ->
    exists c', bk_try_pop c = OK (None, c') /\ bk_repr c' [] pg false;
  bk_try_pop_cons_law : forall c v q pg, bk_repr c (v :: q) pg false ->
    exists c', bk_try_pop c = OK (Some v, c') /\ bk_repr c' q pg false;
  bk_drain_in_place_law : forall S c q pg max (f : callback S T) s,
    bk_repr c q pg false -> 0 <= max ->
    exists n c' s' k p, (n <= length q)%nat /\ Z.of_nat n <= max /\
      (q <> [] -> 0 < max -> (0 < n)%nat) /\
      feed f s (take n q) = (s', k, p) /\
      bk_drain_in_place c max f s =
        OK (if p then Unwound else Returned (Z.of_nat n), c', s') /\
      bk_repr c' (drop k q) pg false;
  bk_drain_into_law : forall c q pg max b s, bk_repr c q pg false -> batch_repr b s -> 0 <= max ->
    exists n c' b', bk_drain_into c max b = OK (Z.of_nat n, c', b') /\
      (n <= length q)%nat /\ Z.of_nat n <= max /\
      (q <> [] -> 0 < max -> (0 < n)%nat) /\
      bk_repr c' (drop n q) pg false /\ batch_repr b' (s ++ take n q);
  bk_is_empty_law : forall c q pg, bk_repr c q pg false ->
    bk_is_empty c = OK (bool_decide (q = []));
  bk_is_finished_law : forall c q pg, bk_repr c q pg false ->
    bk_is_finished c = OK (pg && bool_decide (q = []))
}.

(** Bounded storage: a transport of capacity [bk_cap c] takes a value whenever it
    holds fewer, and no call changes the capacity. *)
Class SpscBounded (T C : Type) `{SpscLaws T C} := {
  bk_cap : C -> Z;
  bk_cap_channel : forall n c, bk_channel n = OK c -> n <= bk_cap c;
  bk_room_law : forall c q cg v, bk_repr c q false cg -> Z.of_nat (length q) < bk_cap c ->
    exists c', bk_try_push c v = OK (Ok tt, c');
  bk_cap_push : forall c q cg v r c', bk_repr c q false cg ->
    bk_try_push c v = OK (r, c') -> bk_cap c' = bk_cap c;
  bk_cap_push_from : forall c q cg max b s n c' b', bk_repr c q false cg -> batch_repr b s -> 0 <= max ->
    bk_push_from c max b = OK (n, c', b') -> bk_cap c' = bk_cap c;
  bk_cap_drop_tx : forall c, bk_cap (bk_drop_tx c) = bk_cap c;
  bk_cap_pop : forall c q pg o c', bk_repr c q pg false ->
    bk_try_pop c = OK (o, c') -> bk_cap c' = bk_cap c;
  bk_cap_drain_in_place : forall S c q pg max (f : callback S T) s fl c' s',
    bk_repr c q pg false -> 0 <= max ->
    bk_drain_in_place c max f s = OK (fl, c', s') -> bk_cap c' = bk_cap c;
  bk_cap_drain_into : forall c q pg max b s n c' b',
    bk_repr c q pg false -> batch_repr b s -> 0 <= max ->
    bk_drain_into c max b = OK (n, c', b') -> bk_cap c' = bk_cap c
}.

(** ** Lemmas about [feed] *)

Lemma feed_count {S T} (f : callback S T) s l :
  let '(_, k, p) := feed f s l in (k <= length l)%nat /\ (p = false -> k = length l).
Proof.
  revert s. induction l as [|v l IH]; intros s; simpl; [done|].
  destruct (f s v) as [s1 [|]]; simpl; [split; [lia|done]|].
  specialize (IH s1). destruct (feed f s1 l) as [[s2 k] p]. destruct IH as [H1 H2].
  split; [lia|]. intros Hp. specialize (H2 Hp). lia.
Qed.

Lemma feed_app {S T} (f : callback S T) s l l' :
  feed f s (l ++ l') =
    let '(s1, k1, p1) := feed f s l in
    if p1 then (s1, k1, true)
    else let '(s2, k2, p2) := feed f s1 l' in (s2, (k1 + k2)%nat, p2).
Proof.
  revert s. induction l as [|v l IH]; intros s; simpl.
  - by destruct (feed f s l') as [[? ?] ?].
  - destruct (f s v) as [s1 [|]]; [done|]. rewrite IH.
    destruct (feed f s1 l) as [[s2 k2] [|]]; [done|]. by destruct (feed f s2 l') as [[? ?] ?].
Qed.

Lemma feed_logger {T} stop (log l : list T) :
  (length log <= stop)%nat ->
  let '(log', k, p) := feed (logger stop) log l in
  log' = log ++ take k l /\ (length log + k <= S stop)%nat /\ (l <> [] -> (0 < k)%nat).
Proof.
  revert log. induction l as [|v l IH]; intros log Hl; cbn [feed].
  - rewrite app_nil_r. splits.
  - cbn [logger]. destruct (bool_decide_reflect (length log = stop)) as [He|He].
    + splits.
    + specialize (IH (log ++ [v])). rewrite length_app in IH. simpl in IH.
      specialize (IH ltac:(lia)). destruct (feed (logger stop) (log ++ [v]) l) as [[log' k] p].
      destruct IH as (-> & H2 & _). rewrite <- app_assoc. splits.
Qed.

(** The log is the prefix up to the panic. *)
Lemma feed_logger_prefix {T} stop (log l : list T) :
  (length log <= stop)%nat ->
  exists p, feed (logger stop) log l =
    (log ++ take (S stop - length log) l, length (take (S stop - length log) l), p).
Proof.
  revert log. induction l as [|v l IH]; intros log Hl; cbn [feed].
  - exists false. by rewrite take_nil, app_nil_r.
  - cbn [logger]. destruct (bool_decide_reflect (length log = stop)) as [He|He].
    + exists true. replace (S stop - length log)%nat with 1%nat by lia. simpl. by rewrite take_0.
    + destruct (IH (log ++ [v])) as [p ->]; [rewrite length_app; simpl; lia|]. exists p.
      rewrite length_app. simpl. replace (S stop - length log)%nat with (S (S stop - (length log + 1)))%nat by lia.
      simpl. by rewrite <- app_assoc.
Qed.

Lemma feed_push_back {T} (b : Batch T) s l :
  batch_repr b s ->
  exists b', feed (fun o v => (push_back o v, false)) b l = (b', length l, false) /\
    batch_repr b' (s ++ l).
Proof.
  revert b s. induction l as [|v l IH]; intros b s Hb; simpl.
  - eexists. rewrite app_nil_r. done.
  - destruct (IH (push_back b v) (s ++ [v])) as (b' & -> & Hb'); [by apply push_back_repr|].
    eexists. split; [done|]. by rewrite <- app_assoc in Hb'.
Qed.

(** ** The provided methods satisfy the laws *)

Section default_laws.
Context {T C : Type} (try_push : C -> T -> outcome (result unit T * C)).
Context (repr : C -> list T -> Prop).
Context (push_law : forall c q v, repr c q ->
  exists r c', try_push c v = OK (r, c') /\
    ((r = Ok tt /\ repr c' (q ++ [v])) \/ (r = Err v /\ repr c' q))).

Lemma push_from_loop_spec fuel accepted max c q b s :
  repr c q -> batch_repr b s -> (length s < fuel)%nat -> 0 <= accepted <= max ->
  exists n c' b', push_from_loop try_push fuel accepted max c b = OK (accepted + Z.of_nat n, c', b') /\
    (n <= length s)%nat /\ accepted + Z.of_nat n <= max /\
    repr c' (q ++ take n s) /\ batch_repr b' (drop n s).
Proof.
  revert accepted c q b s.
  induction fuel as [|fuel IH]; intros accepted c q b s Hc Hb Hf Ha; [lia|].
  assert (exists n : nat, n = O /\ q ++ take n s = q /\ drop n s = s) as (n0 & Hn0 & Ht & Hd)
    by (exists O; rewrite take_0, app_nil_r, drop_0; done).
  simpl. zbool; cycle 1.
  { exists n0, c, b. rewrite Ht, Hd, Hn0, Z.add_0_r. splits. }
  destruct s as [|v s].
  { rewrite (pop_front_nil b Hb). simpl. exists n0, c, b.
    rewrite Ht, Hd, Hn0, Z.add_0_r. splits. }
  destruct (pop_front_cons b v s Hb) as (b1 & -> & Hb1 & Hr1 & _). simpl.
  destruct (push_law c q v Hc) as (r & c1 & -> & [[-> Hc1]|[-> Hc1]]); simpl.
  - destruct (IH (accepted + 1) c1 (q ++ [v]) b1 s) as (n & c' & b' & -> & H1 & H2 & H3 & H4);
      [done|done|simpl in Hf; lia|lia|].
    exists (S n), c', b'. simpl. rewrite <- app_assoc in H3.
    split; [do 3 f_equal; lia|]. splits.
  - assert (0 < read b1) as Hpos by (destruct Hb; lia).
    destruct (restore_front_repr b1 v s Hb1 Hpos) as (b2 & -> & Hb2 & _). simpl.
    exists n0, c1, b2. rewrite Ht, Hd, Hn0, Z.add_0_r. splits.
Qed.

Lemma default_push_from_spec c q max b s :
  repr c q -> batch_repr b s -> 0 <= max ->
  exists n c' b', default_push_from try_push c max b = OK (Z.of_nat n, c', b') /\
    (n <= length s)%nat /\ Z.of_nat n <= max /\
    repr c' (q ++ take n s) /\ batch_repr b' (drop n s).
Proof.
  intros Hc Hb Hm. unfold default_push_from. rewrite (batch_len_repr b s Hb), Nat2Z.id.
  destruct (push_from_loop_spec (S (length s)) 0 max c q b s) as (n & c' & b' & -> & H);
    [done|done|lia|lia|]. by exists n, c', b'.
Qed.

Context (drain_in_place : forall S : Type, C -> Z -> callback S T -> S -> outcome (flow Z * C * S)).
Context (drain_law : forall S c q max (f : callback S T) s, repr c q -> 0 <= max ->
  exists n c' s' k p, (n <= length q)%nat /\ Z.of_nat n <= max /\
    (q <> [] -> 0 < max -> (0 < n)%nat) /\
    feed f s (take n q) = (s', k, p) /\
    drain_in_place S c max f s = OK (if p then Unwound else Returned (Z.of_nat n), c', s') /\
    repr c' (drop k q)).

Lemma default_drain_into_spec c q max b s :
  repr c q -> batch_repr b s -> 0 <= max ->
  exists n c' b', default_drain_into drain_in_place c max b = OK (Z.of_nat n, c', b') /\
    (n <= length q)%nat /\ Z.of_nat n <= max /\ (q <> [] -> 0 < max -> (0 < n)%nat) /\
    repr c' (drop n q) /\ batch_repr b' (s ++ take n q).
Proof.
  intros Hc Hb Hm. unfold default_drain_into.
  destruct (drain_law _ c q max (fun o v => (push_back o v, false)) b Hc Hm)
    as (n & c' & b' & k & p & H1 & H2 & H3 & H4 & -> & H5).
  destruct (feed_push_back b s (take n q) Hb) as (b2 & H6 & Hb2). rewrite H6 in H4.
  injection H4 as <- <- <-. rewrite length_take_le in H5 by done. simpl.
  exists n, c', b2. splits.
Qed.
End default_laws.
