(* ===== verification/TaskWaker.v ===== *)
(** * Task notification: [src/src/task_waker.rs]

    [TaskWaiter] arms a task slot, notifies it and clears it. The waker cell is
    the [atomic-waker] crate's [AtomicWaker]; it is a parameter here
    ([AtomicWaker]), with the documented behaviour the code relies on as
    [AtomicWakerLaws]. The second part is the register / recheck protocol as an
    interleaving of single atomic accesses, one registering endpoint against any
    number of publishers, in sequentially consistent memory (the two SeqCst
    fences of the code are what makes that reading of the flag and the published
    state sound; weaker interleavings are not modelled). *)

From stdpp Require Import prelude.
From S2P Require Import Prelude.
Local Open Scope Z_scope.

(** ** The external waker cell *)

Class AtomicWaker (A W : Type) := {
  aw_new : A;
  aw_register : A -> W -> A;
  aw_take : A -> option W * A;
  aw_wake : A -> option W * A
}.

(** Documented behaviour: [take] and [wake] consume the last registered waker,
    [wake] notifies it, and both do nothing when none is registered. *)
Class AtomicWakerLaws (A W : Type) `{AtomicWaker A W} := {
  aw_stored : A -> option W;
  aw_stored_new : aw_stored aw_new = None;
  aw_stored_register : forall a w, aw_stored (aw_register a w) = Some w;
  aw_take_spec : forall a, (aw_take a).1 = aw_stored a /\ aw_stored (aw_take a).2 = None;
  aw_wake_spec : forall a, (aw_wake a).1 = aw_stored a /\ aw_stored (aw_wake a).2 = None
}.

(** A cell that holds the waker itself satisfies the laws. *)
#[export] Instance option_waker (W : Type) : AtomicWaker (option W) W := {
  aw_new := None;
  aw_register := fun _ w => Some w;
  aw_take := fun a => (a, None);
  aw_wake := fun a => (a, None)
}.
#[export] Instance option_waker_laws (W : Type) : AtomicWakerLaws (option W) W.
Proof. refine {| aw_stored := fun a : option W => a |}; by intros. Defined.

(** ** [TaskWaiter] *)

Section task_waiter.
Context {A W : Type} `{AtomicWaker A W}.

Record TaskWaiter := mkWaiter { waker : A; waiting : bool; needs_clear : bool }.

Definition TaskWaiter_new : TaskWaiter := mkWaiter aw_new false false.

Definition arm (t : TaskWaiter) (w : W) : TaskWaiter :=
  mkWaiter (aw_register (waker t) w) true true.

Definition waiter_clear (t : TaskWaiter) : TaskWaiter :=
  if needs_clear t then mkWaiter (aw_take (waker t)).2 false false else t.

(** Returns the waker that was woken, if any. *)
Definition notify (t : TaskWaiter) : option W * TaskWaiter :=
  if waiting t then
    let '(woken, a) := aw_wake (waker t) in (woken, mkWaiter a false (needs_clear t))
  else (None, t).

(** A registration survives in the cell only while [needs_clear] says so, and
    an armed slot has a registered waker. *)
Definition waiter_wf `{!AtomicWakerLaws A W} (t : TaskWaiter) : Prop :=
  (needs_clear t = false -> waiting t = false /\ aw_stored (waker t) = None) /\
  (waiting t = true -> is_Some (aw_stored (waker t))).
End task_waiter.
Arguments TaskWaiter A : clear implicits.

(** ** The protocol, one atomic access at a time

    The recheck between [arm] and [Pending] is a call the slot knows nothing
    about ([try_recv], a capacity test, a lifecycle test), and it may overlook an
    event that is there: here it answers either way whatever was published.
    [pr_published] counts the events published, [pr_armed] how many of them the
    flag store of the latest [arm] came after. A publisher may publish several
    times before it notifies, as a batch does. *)

Inductive waiter_pc : Type :=
| WIdle        (* no poll in progress, nothing armed *)
| WRegister    (* needs_clear stored; about to register the waker *)
| WArm         (* registered; about to store waiting := true *)
| WRecheck     (* armed; about to re-read the channel state *)
| WPending     (* returned Poll::Pending *)
| WDisarm      (* found work; needs_clear reset; about to store waiting := false *)
| WTake.       (* about to take the waker out of the cell *)

Inductive pub_pc : Type :=
| PStart       (* nothing published yet *)
| PLoad        (* published; may publish more; about to load waiting *)
| PSwap        (* loaded true; about to swap waiting to false *)
| PWake        (* swap returned true; about to wake the cell *)
| PDone.       (* notified since its last publication *)

Record proto := mkProto {
  pr_published : nat;
  pr_armed : nat;        (* events published when waiting was last stored true *)
  pr_waiting : bool;
  pr_slot : bool;        (* a waker is registered in the cell *)
  pr_woken : bool;       (* the executor was woken since the last poll began *)
  pr_w : waiter_pc;
  pr_pubs : list pub_pc
}.

Definition proto_init (n : nat) : proto :=
  mkProto 0 0 false false false WIdle (replicate n PStart).

Inductive proto_step : proto -> proto -> Prop :=
| step_poll p s wt sl wk pcs pc :
    (pc = WIdle \/ pc = WPending) ->
    proto_step (mkProto p s wt sl wk pc pcs) (mkProto p s wt sl wk WRegister pcs)
| step_register p s wt sl wk pcs :
    proto_step (mkProto p s wt sl wk WRegister pcs) (mkProto p s wt true false WArm pcs)
| step_arm p s wt sl wk pcs :
    proto_step (mkProto p s wt sl wk WArm pcs) (mkProto p p true sl wk WRecheck pcs)
| step_recheck_empty p s wt sl wk pcs :
    proto_step (mkProto p s wt sl wk WRecheck pcs) (mkProto p s wt sl wk WPending pcs)
| step_recheck_ready p s wt sl wk pcs :
    proto_step (mkProto p s wt sl wk WRecheck pcs) (mkProto p s wt sl wk WDisarm pcs)
| step_cancel p s wt sl wk pcs :
    proto_step (mkProto p s wt sl wk WPending pcs) (mkProto p s wt sl wk WDisarm pcs)
| step_disarm p s wt sl wk pcs :
    proto_step (mkProto p s wt sl wk WDisarm pcs) (mkProto p s false sl wk WTake pcs)
| step_take p s wt sl wk pcs :
    proto_step (mkProto p s wt sl wk WTake pcs) (mkProto p s wt false wk WIdle pcs)
| step_publish p s wt sl wk w pcs i :
    pcs !! i = Some PStart \/ pcs !! i = Some PDone \/ pcs !! i = Some PLoad ->
    proto_step (mkProto p s wt sl wk w pcs) (mkProto (S p) s wt sl wk w (<[i := PLoad]> pcs))
| step_load p s wt sl wk w pcs i :
    pcs !! i = Some PLoad ->
    proto_step (mkProto p s wt sl wk w pcs)
      (mkProto p s wt sl wk w (<[i := if wt then PSwap else PDone]> pcs))
| step_swap p s wt sl wk w pcs i :
    pcs !! i = Some PSwap ->
    proto_step (mkProto p s wt sl wk w pcs)
      (mkProto p s false sl wk w (<[i := if wt then PWake else PDone]> pcs))
| step_wake p s wt sl wk w pcs i :
    pcs !! i = Some PWake ->
    proto_step (mkProto p s wt sl wk w pcs)
      (mkProto p s wt false (wk || sl) w (<[i := PDone]> pcs)).

Definition proto_reachable (n : nat) : proto -> Prop := rtc proto_step (proto_init n).

(** Some publisher is past its publication and has not yet read the flag, or is
    about to swap it. *)
Definition about_to_see (pcs : list pub_pc) : Prop :=
  exists i, pcs !! i = Some PLoad \/ pcs !! i = Some PSwap.
Definition about_to_wake (pcs : list pub_pc) : Prop :=
  exists i, pcs !! i = Some PWake.

(** A wake is on its way to the pending task. *)
Definition wake_coming (c : proto) : Prop :=
  pr_woken c = true \/ about_to_wake (pr_pubs c) \/
  (pr_waiting c = true /\ about_to_see (pr_pubs c)).

Record proto_inv (c : proto) : Prop := {
  pi_count : (pr_armed c <= pr_published c)%nat;
  (* a registered endpoint still has its waker in the cell, or was woken *)
  pi_slot : (pr_w c = WArm \/ pr_w c = WRecheck \/ pr_w c = WPending) ->
            pr_slot c = true \/ pr_woken c = true;
  (* once armed, the flag is still up, or a publisher took it and will wake *)
  pi_armed : (pr_w c = WRecheck \/ pr_w c = WPending) ->
             pr_waiting c = true \/ pr_woken c = true \/ about_to_wake (pr_pubs c);
  (* an event published after the flag went up has a wake on its way *)
  pi_pending : (pr_w c = WRecheck \/ pr_w c = WPending) ->
               (pr_armed c < pr_published c)%nat -> wake_coming c
}.

(** Updating publisher [i] keeps every other publisher's position. *)
Lemma about_to_wake_update pcs i x y :
  pcs !! i = Some x -> x <> PWake -> about_to_wake pcs -> about_to_wake (<[i := y]> pcs).
Proof.
  intros Hi Hx [j Hj]. exists j. rewrite list_lookup_insert_ne; [done|]. congruence.
Qed.

Lemma about_to_wake_here pcs i x : pcs !! i = Some x -> about_to_wake (<[i := PWake]> pcs).
Proof. intros Hi. exists i. apply list_lookup_insert_eq. by eapply lookup_lt_Some. Qed.

Lemma about_to_see_here pcs i x y :
  pcs !! i = Some x -> y = PLoad \/ y = PSwap -> about_to_see (<[i := y]> pcs).
Proof.
  intros Hi Hy. exists i. rewrite list_lookup_insert_eq by (by eapply lookup_lt_Some).
  destruct Hy as [->| ->]; auto.
Qed.

Lemma about_to_see_update pcs i x y :
  pcs !! i = Some x -> x <> PLoad -> x <> PSwap -> about_to_see pcs ->
  about_to_see (<[i := y]> pcs).
Proof.
  intros Hi H1 H2 [j Hj]. exists j. rewrite list_lookup_insert_ne; [done|].
  intros ->. destruct Hj as [Hj|Hj]; congruence.
Qed.

#[export] Hint Resolve about_to_wake_update about_to_wake_here
  about_to_see_here about_to_see_update : prescient.

Lemma proto_inv_init n : proto_inv (proto_init n).
Proof. split; simpl; try lia; intuition discriminate. Qed.

Lemma proto_inv_step c c' : proto_step c c' -> proto_inv c -> proto_inv c'.
Proof.
  intros Hs [I1 I2 I3 I4]. destruct Hs; simpl in *;
    split; unfold wake_coming in *; simpl in *; try lia; try (intuition (discriminate || lia)).
  (* publish *)
  - intros Hw. destruct (I3 Hw) as [?|[?|?]]; [auto..|].
    right; right. destruct H as [?|[?|?]]; eapply about_to_wake_update; eauto.
  - intros Hw _. destruct (I3 Hw) as [?|[?|?]]; [|auto|].
    + right; right. split; [done|]. destruct H as [?|[?|?]]; eauto with prescient.
    + right; left. destruct H as [?|[?|?]]; eapply about_to_wake_update; eauto.
  (* load *)
  - intros Hw. destruct (I3 Hw) as [?|[?|?]]; [auto..|].
    right; right. eapply about_to_wake_update; eauto.
  - intros Hw Hlt. destruct (I4 Hw Hlt) as [?|[?|[-> ?]]]; [auto| |].
    + right; left. eapply about_to_wake_update; eauto.
    + right; right. eauto with prescient.
  (* swap *)
  - intros Hw. destruct wt; [right; right; eauto with prescient|].
    destruct (I3 Hw) as [?|[?|?]]; [done|auto|]. right; right. eapply about_to_wake_update; eauto.
  - intros Hw Hlt. destruct wt; [right; left; eauto with prescient|].
    destruct (I4 Hw Hlt) as [?|[?|[? _]]]; [auto| |done].
    right; left. eapply about_to_wake_update; eauto.
  (* wake *)
  - intros Hw. destruct (I2 Hw) as [->| ->]; right; [by rewrite orb_true_r|done].
  - intros Hw. destruct (I2 (or_intror Hw)) as [->| ->]; right; left; [by rewrite orb_true_r|done].
  - intros Hw Hlt. left. destruct (I2 (or_intror Hw)) as [->| ->]; [by rewrite orb_true_r|done].
Qed.

Lemma proto_inv_reachable n c : proto_reachable n c -> proto_inv c.
Proof.
  intros Hr. remember (proto_init n) as c0 eqn:E. unfold proto_reachable in Hr.
  assert (proto_inv c0) as Hi by (subst; apply proto_inv_init).
  rewrite <- E in Hr. clear E. induction Hr; eauto using proto_inv_step.
Qed.

(** ** Properties *)

Section waiter_laws.
Context {A W : Type} `{AtomicWakerLaws A W}.
Implicit Types t : TaskWaiter A.

Inductive waiter_op : Type :=
| OpArm (w : W)
| OpClear
| OpNotify.

Definition waiter_step t (o : waiter_op) : option W * TaskWaiter A :=
  match o with
  | OpArm w => (None, arm t w)
  | OpClear => (None, waiter_clear t)
  | OpNotify => notify t
  end.

(** What the slot promises: an armed waker, consumed by the next notification. *)
Definition slot_step (s : option W) (o : waiter_op) : option W * option W :=
  match o with
  | OpArm w => (None, Some w)
  | OpClear => (None, None)
  | OpNotify => (s, None)
  end.

Definition waiter_repr t (s : option W) : Prop :=
  waiter_wf t /\ waiting t = bool_decide (is_Some s) /\
  (is_Some s -> aw_stored (waker t) = s).

Lemma waiter_repr_new : waiter_repr TaskWaiter_new None.
Proof.
  split; [|split; [done|by intros [? ?]]].
  split; simpl; [|done]. intros _. split; [done|apply aw_stored_new].
Qed.

Lemma arm_repr t w s : waiter_repr t s -> waiter_repr (arm t w) (Some w).
Proof.
  intros _. unfold waiter_repr, waiter_wf, arm; simpl. rewrite aw_stored_register.
  splits; by intros.
Qed.

Lemma clear_waiter_repr t s : waiter_repr t s -> waiter_repr (waiter_clear t) None.
Proof.
  intros ([W1 W2] & Hw & Hs). unfold waiter_clear.
  destruct (needs_clear t) eqn:En.
  - destruct (aw_take_spec (waker t)) as [_ Ht].
    unfold waiter_repr, waiter_wf; simpl. rewrite Ht. splits; by intros.
  - destruct (W1 eq_refl) as [Hf Hn]. unfold waiter_repr, waiter_wf.
    rewrite Hf, Hn, En. splits; by intros.
Qed.

Lemma notify_repr t s :
  waiter_repr t s -> (notify t).1 = s /\ waiter_repr (notify t).2 None.
Proof.
  intros ([W1 W2] & Hw & Hs). unfold notify. destruct (waiting t) eqn:Ew.
  - destruct (aw_wake_spec (waker t)) as [Hk Hn].
    destruct (aw_wake (waker t)) as [o a]. simpl in *.
    symmetry in Hw. apply bool_decide_eq_true in Hw. split; [rewrite Hk; auto|].
    unfold waiter_repr, waiter_wf; simpl. rewrite Hn. splits; by intros.
  - symmetry in Hw. apply bool_decide_eq_false in Hw.
    split; [by destruct s; [destruct Hw; eauto|]|].
    unfold waiter_repr, waiter_wf; simpl. rewrite Ew. splits.
Qed.

(** The wakers a sequence of operations notifies. *)
Fixpoint waiter_run t (os : list waiter_op) : list (option W) * TaskWaiter A :=
  match os with
  | [] => ([], t)
  | o :: os' =>
      let '(w, t1) := waiter_step t o in
      let '(ws, t2) := waiter_run t1 os' in (w :: ws, t2)
  end.

Fixpoint slot_run (s : option W) (os : list waiter_op) : list (option W) * option W :=
  match os with
  | [] => ([], s)
  | o :: os' =>
      let '(w, s1) := slot_step s o in
      let '(ws, s2) := slot_run s1 os' in (w :: ws, s2)
  end.

Lemma waiter_step_repr t s o :
  waiter_repr t s ->
  (waiter_step t o).1 = (slot_step s o).1 /\
  waiter_repr (waiter_step t o).2 (slot_step s o).2.
Proof.
  intros Hr. destruct o as [w| |]; simpl.
  - split; [done|by eapply arm_repr].
  - split; [done|by eapply clear_waiter_repr].
  - by apply notify_repr.
Qed.

Lemma waiter_run_repr t s os :
  waiter_repr t s -> (waiter_run t os).1 = (slot_run s os).1 /\
  waiter_repr (waiter_run t os).2 (slot_run s os).2.
Proof.
  revert t s. induction os as [|o os IH]; intros t s Hr; simpl; [done|].
  destruct (waiter_step_repr t s o Hr) as [H1 H2].
  destruct (waiter_step t o) as [w t1], (slot_step s o) as [w' s1]; simpl in *.
  destruct (IH t1 s1 H2) as [H3 H4].
  destruct (waiter_run t1 os), (slot_run s1 os); simpl in *. by subst.
Qed.
End waiter_laws.

(** For every sequence of [arm], [clear] and [notify], each [notify]
    wakes exactly the waker of the latest [arm] that no earlier [notify] or
    [clear] consumed, and wakes nothing otherwise: no double wake, no wake of a
    cancelled registration. *)
Theorem waiter_refines_slot {A W} `{AtomicWakerLaws A W} (os : list (@waiter_op W)) :
  (waiter_run TaskWaiter_new os).1 = (slot_run None os).1.
Proof. apply (waiter_run_repr TaskWaiter_new None os waiter_repr_new). Qed.

(** The laws hold of a concrete cell, and the run is the expected one. *)
Lemma waiter_refines_slot_witness :
  (waiter_run (TaskWaiter_new : TaskWaiter (option nat))
     [OpArm 1; OpArm 2; OpNotify; OpNotify; OpArm 3; OpClear; OpNotify]%nat).1
  = [None; None; Some 2; None; None; None; None]%nat.
Proof.
  exact (waiter_refines_slot (A := option nat)
     [OpArm 1; OpArm 2; OpNotify; OpNotify; OpArm 3; OpClear; OpNotify]%nat).
Defined.

(** C5: no wakeup is lost once the task is registered. In every reachable
    interleaving of one waiter and any number of publishers, whatever the recheck
    answered: if the waiter's poll returned [Pending], an event was published
    after [arm] raised the flag, and every publisher has finished a [notify] since
    its last publication, then the task has been woken since it registered.
    (Events published before the flag was raised are the recheck's to find; it may
    overlook one.) *)
Theorem no_lost_wakeup (n : nat) (c : proto) :
  proto_reachable n c ->
  pr_w c = WPending ->
  (pr_armed c < pr_published c)%nat ->
  Forall (fun pc => pc = PStart \/ pc = PDone) (pr_pubs c) ->
  pr_woken c = true.
Proof.
  intros Hr Hw Hlt Hq. rewrite Forall_lookup in Hq.
  destruct (pi_pending c (proto_inv_reachable n c Hr) (or_intror Hw) Hlt) as [?|[[i Hi]|[_ [i Hi]]]];
    [done|apply Hq in Hi; destruct Hi; done|].
  destruct Hi as [Hi|Hi]; apply Hq in Hi; destruct Hi; done.
Qed.

(** One event before the flag goes up, overlooked by the recheck, one after it
    that the recheck overlooks too: the second one wakes the task. *)
Lemma no_lost_wakeup_witness :
  exists c, proto_reachable 1 c /\ pr_w c = WPending /\ pr_armed c = 1%nat /\ pr_published c = 2%nat /\
    pr_woken c = true.
Proof.
  assert (proto_reachable 1 (mkProto 2 1 false false true WPending [PDone])) as Hr.
  { eapply rtc_l; [apply step_poll; by left|].
    eapply rtc_l; [apply step_register|].
    eapply rtc_l; [by apply (step_publish _ _ _ _ _ _ _ 0%nat); left|].
    eapply rtc_l; [by apply (step_load _ _ _ _ _ _ _ 0%nat)|].
    eapply rtc_l; [apply step_arm|].
    eapply rtc_l; [by apply (step_publish _ _ _ _ _ _ _ 0%nat); right; left|].
    eapply rtc_l; [apply step_recheck_empty|].
    eapply rtc_l; [by apply (step_load _ _ _ _ _ _ _ 0%nat)|].
    eapply rtc_l; [by apply (step_swap _ _ _ _ _ _ _ 0%nat)|].
    eapply rtc_l; [by apply (step_wake _ _ _ _ _ _ _ 0%nat)|]. apply rtc_refl. }
  eexists. split; [exact Hr|]. split; [done|]. split; [done|]. split; [done|].
  apply (no_lost_wakeup 1 _ Hr); [reflexivity|simpl; lia|].
  apply Forall_singleton. by right.
Defined.
