(* ===== verification/BackendRing.v ===== *)
(** * The bounded SPSC ring: [src/src/backend/ring.rs]

    [ring.Inner] is the shared allocation, [Sender] and [Receiver] the two
    endpoints with their cached peer cursors. Cursors are machine words that
    wrap at [2^64]; the invariant [ring_inv] relates them to unbounded ghost
    counters. A slot that owns no value is [None], so that reading an
    unpublished or already moved-out slot is [UB]. Every operation here runs
    without interference; [RingConc.v] interleaves the two endpoints. *)

From stdpp Require Import prelude.
From S2P Require Import Prelude Batch Backend TaskWaker.
Local Open Scope Z_scope.

Module ring.

Record Inner (T : Type) := mkInner {
  buf : list (cell T);
  mask : Z;
  cap : Z;
  head : Z;
  tail : Z;
  inbox_next : option nat;
  producer_gone : bool;
  consumer_gone : bool
}.
Arguments mkInner {T} buf mask cap head tail inbox_next producer_gone consumer_gone.
Arguments buf {T} i.
Arguments mask {T} i.
Arguments cap {T} i.
Arguments head {T} i.
Arguments tail {T} i.
Arguments inbox_next {T} i.
Arguments producer_gone {T} i.
Arguments consumer_gone {T} i.

Record Sender := mkSender { head_cache : Z }.
Record Receiver := mkReceiver { tail_cache : Z }.

Section operations.
Context {T : Type}.
Implicit Types i : Inner T.

(** ** Stores *)

Definition set_buf i b : Inner T :=
  mkInner b (mask i) (cap i) (head i) (tail i) (inbox_next i) (producer_gone i) (consumer_gone i).
Definition store_head i x : Inner T :=
  mkInner (buf i) (mask i) (cap i) x (tail i) (inbox_next i) (producer_gone i) (consumer_gone i).
Definition store_tail i x : Inner T :=
  mkInner (buf i) (mask i) (cap i) (head i) x (inbox_next i) (producer_gone i) (consumer_gone i).
Definition store_inbox_next i x : Inner T :=
  mkInner (buf i) (mask i) (cap i) (head i) (tail i) x (producer_gone i) (consumer_gone i).
Definition store_producer_gone i x : Inner T :=
  mkInner (buf i) (mask i) (cap i) (head i) (tail i) (inbox_next i) x (consumer_gone i).
Definition store_consumer_gone i x : Inner T :=
  mkInner (buf i) (mask i) (cap i) (head i) (tail i) (inbox_next i) (producer_gone i) x.

(** ** Construction *)

(** [size_T] is [size_of::<T>()]: [Vec::with_capacity] panics when the
    allocation would exceed [isize::MAX] bytes. *)
Definition build (size_T capacity : Z) : outcome (Inner T) :=
  match checked_next_power_of_two (Z.max capacity 1) with
  | None => PANIC
  | Some c =>
      if ISIZE_MAX <? c * size_T then PANIC else
      OK (mkInner (replicate (Z.to_nat c) None) (c - 1) c 0 0 None false false)
  end.

Definition halves : Sender * Receiver := (mkSender 0, mkReceiver 0).

Definition ring (size_T capacity : Z) : outcome (Inner T * Sender * Receiver) :=
  i ← build size_T capacity; OK (i, halves.1, halves.2).

(** ** Slots *)

Definition slot i (cursor : Z) : outcome (cell T) :=
  get_unchecked (buf i) (Z.land cursor (mask i)).

Definition slot_write i (cursor : Z) (v : T) : outcome (Inner T) :=
  b ← set_unchecked (buf i) (Z.land cursor (mask i)) (Some v);
  OK (set_buf i b).

Definition slot_take i (cursor : Z) : outcome (T * Inner T) :=
  c ← slot i cursor;
  v ← assume_init_read c;
  b ← set_unchecked (buf i) (Z.land cursor (mask i)) None;
  OK (v, set_buf i b).

(** ** [Sender] *)

(** The producer's cached view says full. *)
Definition cached_full i (s : Sender) : bool :=
  cap i <=? wrapping_sub (tail i) (head_cache s).

(** Refresh the cache from the shared cursor when the cached view says full. *)
Definition refresh_head i (s : Sender) : Sender :=
  if cached_full i s then mkSender (head i) else s.

Definition try_push i (s : Sender) (item : T) : outcome (result unit T * Inner T * Sender) :=
  let t := tail i in
  let s1 := refresh_head i s in
  if cached_full i s && cached_full i s1 then OK (Err item, i, s1) else
  i1 ← slot_write i t item;
  OK (Ok tt, store_tail i1 (wrapping_add t 1), s1).

(** The raw moves of [push_from]: at most two spans, the second from slot 0. *)
Definition copy_in i (t n : Z) (source : Batch T) : outcome (list (cell T)) :=
  let start := Z.land t (mask i) in
  rest ← sub_usize (cap i) start;
  let first := Z.min n rest in
  src1 ← span (values source) (read source) first;
  b1 ← write_span (buf i) start src1;
  if first =? n then OK b1 else
  src2 ← span (values source) (read source + first) (n - first);
  write_span b1 0 src2.

Definition push_from i (s : Sender) (max : Z) (source : Batch T)
    : outcome (Z * Inner T * Sender * Batch T) :=
  let limit := Z.min (batch_len source) max in
  if limit =? 0 then OK (0, i, s, source) else
  let t := tail i in
  let s1 := refresh_head i s in
  let used := wrapping_sub t (head_cache s1) in
  room ← sub_usize (cap i) used;
  let n := Z.min limit room in
  if n =? 0 then OK (0, i, s1, source) else
  if n =? 1 then
    let rd := read source in
    c ← get_unchecked (values source) rd;
    value ← assume_init_read c;
    let source1 := mkBatch (moved_out (values source) rd 1) (rd + 1) in
    i1 ← slot_write i t value;
    OK (n, store_tail i1 (wrapping_add t n), s1, source1)
  else
    b ← copy_in i t n source;
    let source1 := mkBatch (moved_out (values source) (read source) n) (read source + n) in
    OK (n, store_tail (set_buf i b) (wrapping_add t n), s1, source1).

(** The [cfg(loom)] body of the bulk branch: one tracked write per value. *)
Fixpoint copy_in_tracked (n : nat) i (t offset : Z) (source : Batch T)
    : outcome (Inner T * Batch T) :=
  match n with
  | O => OK (i, source)
  | S n' =>
      '(o, source1) ← pop_front source;
      match o with
      | None => PANIC
      | Some value =>
          i1 ← slot_write i (wrapping_add t offset) value;
          copy_in_tracked n' i1 t (offset + 1) source1
      end
  end.

Definition is_consumer_gone i : bool := consumer_gone i.

(** ** [Receiver] *)

Definition refresh_tail i (r : Receiver) : Receiver :=
  if wrapping_sub (tail_cache r) (head i) =? 0 then mkReceiver (tail i) else r.

Definition try_pop i (r : Receiver) : outcome (option T * Inner T * Receiver) :=
  let h := head i in
  let r1 := if h =? tail_cache r then mkReceiver (tail i) else r in
  if (h =? tail_cache r) && (h =? tail_cache r1) then OK (None, i, r1) else
  '(v, i1) ← slot_take i h;
  OK (Some v, store_head i1 (wrapping_add h 1), r1).

(** The raw moves of [drain_into]: the cells read and the slots left behind. *)
Definition copy_out i (h n : Z) : outcome (list (cell T) * list (cell T)) :=
  let start := Z.land h (mask i) in
  rest ← sub_usize (cap i) start;
  let first := Z.min n rest in
  cs1 ← span (buf i) start first;
  cs2 ← (if first =? n then OK [] else span (buf i) 0 (n - first));
  OK (cs1 ++ cs2, moved_out (moved_out (buf i) start first) 0 (n - first)).

Definition drain_into i (r : Receiver) (max : Z) (out : Batch T)
    : outcome (Z * Inner T * Receiver * Batch T) :=
  let h := head i in
  let r1 := refresh_tail i r in
  let available := wrapping_sub (tail_cache r1) h in
  let n := Z.min available max in
  if n =? 0 then OK (0, i, r1, out) else
  if n =? 1 then
    '(v, i1) ← slot_take i h;
    OK (1, store_head i1 (wrapping_add h 1), r1, mkBatch (values out ++ [Some v]) (read out))
  else
    '(cs, b) ← copy_out i h n;
    OK (n, store_head (set_buf i b) (wrapping_add h n), r1,
        mkBatch (values out ++ cs) (read out)).

(** The body of the drain loops, with [done] slots moved out so far: stops after
    a panicking callback, and reports how many slots are moved out. *)
Fixpoint drain_slots {S} (n : nat) i (h k : Z) (f : callback S T) (st : S)
    : outcome (Inner T * S * Z * bool) :=
  match n with
  | O => OK (i, st, k, false)
  | Datatypes.S n' =>
      '(v, i1) ← slot_take i (wrapping_add h k);
      let '(st1, panicked) := f st v in
      if panicked then OK (i1, st1, k + 1, true)
      else drain_slots n' i1 h (k + 1) f st1
  end.

(** The commit guard stores [head := base + done] on both exits. *)
Definition drain_in_place {S} i (r : Receiver) (max : Z) (f : callback S T) (st : S)
    : outcome (flow Z * Inner T * Receiver * S) :=
  let h := head i in
  let r1 := refresh_tail i r in
  let avail := wrapping_sub (tail_cache r1) h in
  if avail =? 0 then OK (Returned 0, i, r1, st) else
  let n := Z.min avail max in
  '(i1, st1, done, panicked) ← drain_slots (Z.to_nat n) i h 0 f st;
  OK (if (panicked : bool) then Unwound else Returned n,
      store_head i1 (wrapping_add h done), r1, st1).

(** As [drain_in_place]; the guard also notifies the capacity waiter. The last
    component is the waker it woke. *)
Definition drain_in_place_async {A W} `{AtomicWaker A W} {S}
    i (r : Receiver) (max : Z) (waiter : TaskWaiter A) (f : callback S T) (st : S)
    : outcome (flow Z * Inner T * Receiver * TaskWaiter A * S * option W) :=
  if max =? 0 then OK (Returned 0, i, r, waiter, st, None) else
  let h := head i in
  let r1 := refresh_tail i r in
  let avail := wrapping_sub (tail_cache r1) h in
  if avail =? 0 then OK (Returned 0, i, r1, waiter, st, None) else
  let n := Z.min avail max in
  '(i1, st1, done, panicked) ← drain_slots (Z.to_nat n) i h 0 f st;
  let i2 := store_head i1 (wrapping_add h done) in
  let '(woken, waiter1) := notify waiter in
  OK (if (panicked : bool) then Unwound else Returned n, i2, r1, waiter1, st1, woken).

Definition is_empty i : bool := head i =? tail i.

Definition is_finished i : bool := producer_gone i && is_empty i.

Definition close i : Inner T := store_consumer_gone i true.

(** [Drop for Inner]: destroys [[head, tail)] in order. The walk visits
    [tail - head] slots; a walk that has not met [tail] by then is [UB]. The
    indexing is bounds checked and panics out of range. *)
Fixpoint inner_drop_walk (fuel : nat) i (j : Z) : outcome (list T) :=
  if j =? tail i then OK [] else
  match fuel with
  | O => UB
  | S fuel' =>
      match buf i !! Z.to_nat (Z.land j (mask i)) with
      | None => PANIC
      | Some c =>
          v ← assume_init_read c;
          vs ← inner_drop_walk fuel' i (wrapping_add j 1);
          OK (v :: vs)
      end
  end.

Definition inner_drop i : outcome (list T) :=
  inner_drop_walk (Z.to_nat (wrapping_sub (tail i) (head i))) i (head i).

(** [Drop for Receiver]: [while self.try_pop().is_some() {}]. *)
Fixpoint pop_all (fuel : nat) i (r : Receiver) : outcome (list T * Inner T * Receiver) :=
  match fuel with
  | O => UB
  | S fuel' =>
      '(o, i1, r1) ← try_pop i r;
      match o with
      | None => OK ([], i1, r1)
      | Some v =>
          '(vs, i2, r2) ← pop_all fuel' i1 r1;
          OK (v :: vs, i2, r2)
      end
  end.

(** ** Ownership of the allocation

    [Arc]'s strong count is the number of live halves; [Inner] is dropped with
    the last of them. [None] for the allocation means it was freed. *)
Record Pair := mkPair { p_inner : option (Inner T); p_tx : option Sender; p_rx : option Receiver }.

Definition release (p : Pair) : outcome (list T * Pair) :=
  match p_inner p, p_tx p, p_rx p with
  | Some i, None, None => vs ← inner_drop i; OK (vs, mkPair None None None)
  | _, _, _ => OK ([], p)
  end.

(** Each drop returns the values whose destructors it runs, in order. *)
Definition drop_sender (p : Pair) : outcome (list T * Pair) :=
  match p_inner p, p_tx p with
  | Some i, Some _ => release (mkPair (Some (store_producer_gone i true)) None (p_rx p))
  | _, _ => UB
  end.

Definition drop_receiver (p : Pair) : outcome (list T * Pair) :=
  match p_inner p, p_rx p with
  | Some i, Some r =>
      let i1 := store_consumer_gone i true in
      '(vs, i2, _) ← pop_all (S (Z.to_nat (wrapping_sub (tail i) (head i)))) i1 r;
      '(ws, p') ← release (mkPair (Some i2) (p_tx p) None);
      OK (vs ++ ws, p')
  | _, _ => UB
  end.

(** [Arc::get_mut] succeeds exactly when the sender is gone. *)
Definition recycle (p : Pair) : outcome (option Sender * Pair) :=
  match p_inner p, p_rx p with
  | Some i, Some _ =>
      match p_tx p with
      | Some _ => OK (None, p)
      | None =>
          let i1 := store_producer_gone (store_tail (store_head i 0) 0) false in
          OK (Some (mkSender 0), mkPair (Some i1) (Some (mkSender 0)) (Some (mkReceiver 0)))
      end
  | _, _ => UB
  end.
End operations.
Arguments Pair T : clear implicits.

(** ** Slot contents

    [content c h q]: the cells of a ring of [c] slots that holds [q] from
    cursor [h] on, and owns nothing elsewhere. *)
Definition content {T} (c h : Z) (q : list T) : list (cell T) :=
  (fun x => q !! Z.to_nat ((x - h) mod c)) <$> seqZ 0 c.

Section content.
Context {T : Type} (c : Z) (Hc : 0 < c).
Implicit Types q s : list T.

Lemma content_length h q : length (content c h q) = Z.to_nat c.
Proof. unfold content. by rewrite length_fmap, length_seqZ. Qed.

Lemma content_lookup h q x :
  0 <= x < c -> content c h q !! Z.to_nat x = Some (q !! Z.to_nat ((x - h) mod c)).
Proof.
  intros Hx. unfold content. rewrite list_lookup_fmap, lookup_seqZ_lt by lia. simpl.
  by rewrite Z2Nat.id by lia.
Qed.

Lemma content_eq (b : list (cell T)) h q :
  length b = Z.to_nat c ->
  (forall x, 0 <= x < c -> b !! Z.to_nat x = Some (q !! Z.to_nat ((x - h) mod c))) ->
  b = content c h q.
Proof.
  intros Hl Hb. apply list_eq. intros n.
  destruct (decide (n < Z.to_nat c)%nat) as [Hn|Hn].
  - rewrite <- (Nat2Z.id n), Hb, content_lookup by lia. done.
  - rewrite !lookup_ge_None_2; [done| |]; rewrite ?content_length; lia.
Qed.

(** Position [j] past [h] is slot [(h + j) mod c]. *)
Lemma slot_position h x j :
  0 <= x < c -> 0 <= j < c -> ((x - h) mod c = j <-> x = (h + j) mod c).
Proof.
  intros Hx Hj. split.
  - intros <-. rewrite Zplus_mod_idemp_r. replace (h + (x - h)) with x by lia.
    by rewrite Z.mod_small.
  - intros ->. rewrite Zminus_mod_idemp_l. replace (h + j - h) with j by lia.
    by apply Z.mod_small.
Qed.

Lemma position_bound h x : 0 <= (x - h) mod c < c.
Proof. by apply Z.mod_pos_bound. Qed.

Lemma slot_bound t : 0 <= t mod c < c.
Proof. by apply Z.mod_pos_bound. Qed.

Lemma content_nil h h' : content c h ([] : list T) = content c h' [].
Proof.
  apply content_eq; [apply content_length|]. intros x Hx. by rewrite content_lookup.
Qed.

Lemma content_replicate h : replicate (Z.to_nat c) None = content c h ([] : list T).
Proof.
  apply content_eq; [apply length_replicate|]. intros x Hx.
  rewrite lookup_replicate_2 by lia. done.
Qed.

Lemma content_head h v q : content c h (v :: q) !! Z.to_nat (h mod c) = Some (Some v).
Proof.
  rewrite content_lookup by apply slot_bound.
  rewrite Zminus_mod_idemp_l, Z.sub_diag, Z.mod_0_l by lia. done.
Qed.

Lemma content_free h q t :
  t = h + Z.of_nat (length q) -> Z.of_nat (length q) < c ->
  content c h q !! Z.to_nat (t mod c) = Some None.
Proof.
  intros -> Hq. rewrite content_lookup by apply slot_bound.
  rewrite Zminus_mod_idemp_l. replace (h + Z.of_nat (length q) - h) with (Z.of_nat (length q)) by lia.
  rewrite Z.mod_small, Nat2Z.id, lookup_ge_None_2 by lia. done.
Qed.

Lemma content_snoc h q t v :
  t = h + Z.of_nat (length q) -> Z.of_nat (length q) < c ->
  <[Z.to_nat (t mod c) := Some v]> (content c h q) = content c h (q ++ [v]).
Proof.
  intros -> Hq. apply content_eq; [by rewrite length_insert, content_length|].
  intros x Hx. pose proof (position_bound h x). pose proof (slot_bound (h + Z.of_nat (length q))).
  destruct (decide ((x - h) mod c = Z.of_nat (length q))) as [He|He].
  - rewrite He, Nat2Z.id, list_lookup_middle by done.
    apply slot_position in He; [|lia|lia]. rewrite He.
    apply list_lookup_insert_eq. rewrite content_length. lia.
  - rewrite list_lookup_insert_ne, content_lookup; [|done|].
    2:{ rewrite slot_position in He by lia. lia. }
    f_equal. destruct (decide ((x - h) mod c < Z.of_nat (length q))).
    + rewrite lookup_app_l by lia. done.
    + rewrite !lookup_ge_None_2; rewrite ?length_app; simpl; lia || done.
Qed.

Lemma content_uncons h v q :
  Z.of_nat (length (v :: q)) <= c ->
  <[Z.to_nat (h mod c) := None]> (content c h (v :: q)) = content c (h + 1) q.
Proof.
  intros Hq. simpl in Hq. apply content_eq; [by rewrite length_insert, content_length|].
  intros x Hx. pose proof (position_bound h x). pose proof (slot_bound h).
  pose proof (position_bound (h + 1) x).
  destruct (decide ((x - h) mod c = 0)) as [He|He].
  - apply slot_position in He; [|lia|lia]. rewrite Z.add_0_r in He.
    rewrite He, list_lookup_insert_eq by (rewrite content_length; lia).
    f_equal. symmetry. apply lookup_ge_None_2.
    rewrite Zminus_mod_idemp_l. replace (h - (h + 1)) with (-1) by lia.
    rewrite <- (Z.mod_unique (-1) c (-1) (c - 1)); lia.
  - rewrite list_lookup_insert_ne, content_lookup; [|done|].
    2:{ rewrite slot_position, Z.add_0_r in He by lia. lia. }
    f_equal. replace ((x - (h + 1)) mod c) with ((x - h) mod c - 1).
    2:{ symmetry. apply slot_position; [lia|lia|].
        replace (h + 1 + ((x - h) mod c - 1)) with (h + (x - h) mod c) by lia.
        by apply slot_position. }
    replace (Z.to_nat ((x - h) mod c)) with (S (Z.to_nat ((x - h) mod c - 1))) by lia. done.
Qed.

(** ** Two-span moves *)

Lemma position_from_start t x :
  0 <= x < c ->
  (x - t) mod c = if t mod c <=? x then x - t mod c else x - t mod c + c.
Proof.
  intros Hx. pose proof (slot_bound t). pose proof (Z.div_mod t c ltac:(lia)) as Ht.
  apply slot_position; [lia|zbool; lia|].
  zbool.
  - replace (t + (x - t mod c)) with (x + (t / c) * c) by lia.
    by rewrite Z.mod_add, Z.mod_small by lia.
  - replace (t + (x - t mod c + c)) with (x + (t / c + 1) * c) by lia.
    by rewrite Z.mod_add, Z.mod_small by lia.
Qed.

(** Writing [k] from cursor [t] in at most two spans puts cell [d] of [k] in
    the slot at position [d] past [t] and leaves the others. *)
Lemma two_spans_lookup (b k : list (cell T)) t first x :
  length b = Z.to_nat c -> Z.of_nat (length k) <= c ->
  first = Z.min (Z.of_nat (length k)) (c - t mod c) -> 0 <= x < c ->
  list_inserts 0 (drop (Z.to_nat first) k)
    (list_inserts (Z.to_nat (t mod c)) (take (Z.to_nat first) k) b) !! Z.to_nat x =
  if decide ((x - t) mod c < Z.of_nat (length k))
  then k !! Z.to_nat ((x - t) mod c) else b !! Z.to_nat x.
Proof.
  intros Hb Hk Hf Hx. pose proof (slot_bound t) as Hs. rewrite (position_from_start t x Hx).
  rewrite inserts_lookup by (rewrite length_inserts; lia).
  rewrite inserts_lookup by lia. rewrite length_drop, length_take.
  destruct (Z.leb_spec (t mod c) x);
    repeat case_decide; try lia; try done; rewrite ?lookup_drop, ?lookup_take_lt by lia;
    f_equal; lia.
Qed.

Lemma two_spans_length (b k : list (cell T)) t first :
  length (list_inserts 0 (drop first k) (list_inserts t (take first k) b)) = length b.
Proof. by rewrite !length_inserts. Qed.

(** Positions relative to the tail and to the head. *)
Lemma position_shift h t x :
  0 <= t - h <= c ->
  (x - h) mod c =
    if (x - t) mod c + (t - h) <? c then (x - t) mod c + (t - h)
    else (x - t) mod c + (t - h) - c.
Proof.
  intros Ht. pose proof (position_bound t x). symmetry.
  replace (x - h) with ((x - t) + (t - h)) by lia. rewrite <- Zplus_mod_idemp_l.
  zbool.
  - symmetry. apply Z.mod_small. lia.
  - apply (Z.mod_unique _ c 1); lia.
Qed.

Lemma content_append h q t s first :
  t = h + Z.of_nat (length q) -> Z.of_nat (length q + length s) <= c ->
  first = Z.min (Z.of_nat (length s)) (c - t mod c) ->
  list_inserts 0 (drop (Z.to_nat first) (Some <$> s))
    (list_inserts (Z.to_nat (t mod c)) (take (Z.to_nat first) (Some <$> s)) (content c h q))
  = content c h (q ++ s).
Proof.
  intros Ht Hl Hf. apply content_eq; [by rewrite two_spans_length, content_length|].
  intros x Hx. rewrite two_spans_lookup by (rewrite ?length_fmap, ?content_length; lia || done).
  rewrite length_fmap, content_lookup by lia. pose proof (position_bound t x).
  rewrite (position_shift h t x) by lia. case_decide as Hd.
  - zbool; [|lia]. rewrite list_lookup_fmap, lookup_app_r by lia.
    replace (Z.to_nat ((x - t) mod c + (t - h)) - length q)%nat
      with (Z.to_nat ((x - t) mod c)) by lia.
    destruct (lookup_lt_is_Some_2 s (Z.to_nat ((x - t) mod c))) as [v ->]; [lia|done].
  - f_equal. zbool.
    + rewrite !lookup_ge_None_2; rewrite ?length_app; lia || done.
    + rewrite lookup_app_l by lia. done.
Qed.

Lemma content_drop h q n first :
  (n <= length q)%nat -> Z.of_nat (length q) <= c ->
  first = Z.min (Z.of_nat n) (c - h mod c) ->
  moved_out (moved_out (content c h q) (h mod c) first) 0 (Z.of_nat n - first)
  = content c (h + Z.of_nat n) (drop n q).
Proof.
  intros Hn Hl Hf. pose proof (slot_bound h). unfold moved_out.
  replace (replicate (Z.to_nat first) None) with (take (Z.to_nat first) (replicate n (@None T)))
    by (rewrite take_replicate; f_equal; lia).
  replace (replicate (Z.to_nat (Z.of_nat n - first)) None)
    with (drop (Z.to_nat first) (replicate n (@None T)))
    by (rewrite drop_replicate; f_equal; lia).
  apply content_eq; [by rewrite two_spans_length, content_length|].
  intros x Hx.
  rewrite two_spans_lookup by (rewrite ?length_replicate, ?content_length; lia || done).
  rewrite length_replicate, content_lookup by lia.
  pose proof (position_bound h x). pose proof (position_bound (h + Z.of_nat n) x).
  rewrite (position_shift h (h + Z.of_nat n) x) by lia.
  rewrite lookup_drop. case_decide as Hd.
  - zbool_in Hd; [lia|]. rewrite lookup_replicate_2 by (zbool; lia).
    rewrite lookup_ge_None_2 by lia. done.
  - zbool_in Hd; [|lia]. do 2 f_equal. lia.
Qed.

(** The cells read in two spans are the first [n] values. *)
Lemma content_spans h q n first :
  (n <= length q)%nat -> Z.of_nat (length q) <= c ->
  first = Z.min (Z.of_nat n) (c - h mod c) ->
  take (Z.to_nat first) (drop (Z.to_nat (h mod c)) (content c h q)) ++
  take (Z.to_nat (Z.of_nat n - first)) (content c h q) = Some <$> take n q.
Proof.
  intros Hn Hl Hf. pose proof (slot_bound h).
  assert (length (take (Z.to_nat first) (drop (Z.to_nat (h mod c)) (content c h q))) = Z.to_nat first)
    as Hlen by (rewrite length_take, length_drop, content_length; lia).
  apply list_eq_same_length with (n := n).
  { by rewrite length_fmap, length_take_le. }
  { rewrite length_app, Hlen, length_take, content_length. lia. }
  intros j y1 y2 Hj H1 H2. rewrite list_lookup_fmap, lookup_take_lt in H2 by lia.
  destruct (lookup_lt_is_Some_2 q j) as [v Hv]; [lia|]. rewrite Hv in H2. injection H2 as <-.
  assert (exists x, 0 <= x < c /\ (x - h) mod c = Z.of_nat j /\ content c h q !! Z.to_nat x = Some y1)
    as (x & Hx & Hp & Hb).
  { destruct (decide (j < Z.to_nat first)%nat).
    - rewrite lookup_app_l, lookup_take_lt, lookup_drop in H1 by lia.
      exists (h mod c + Z.of_nat j). split; [lia|]. split.
      + rewrite position_from_start by lia. zbool; lia.
      + rewrite <- H1. f_equal. lia.
    - rewrite lookup_app_r, lookup_take_lt in H1 by lia. rewrite Hlen in H1.
      exists (Z.of_nat j - first). split; [lia|]. split.
      + rewrite position_from_start by lia. zbool; lia.
      + rewrite <- H1. f_equal. lia. }
  rewrite content_lookup, Hp, Nat2Z.id, Hv in Hb by lia. by simplify_eq.
Qed.
End content.

(** ** The invariant

    [k] is the logarithm of the capacity; [h], [hc] and [tc] are the unbounded
    counters behind [head], [head_cache] and [tail_cache]; the counter behind
    [tail] is [h + length q]. *)
Record ring_ghost {T} (i : Inner T) (s : Sender) (r : Receiver) (q : list T)
    (k h hc tc : Z) : Prop := {
  rg_k : 0 <= k < 64;
  rg_cap : cap i = 2 ^ k;
  rg_mask : mask i = cap i - 1;
  rg_buf : buf i = content (cap i) h q;
  rg_head : head i = h mod USIZE;
  rg_tail : tail i = (h + Z.of_nat (length q)) mod USIZE;
  rg_hc : head_cache s = hc mod USIZE;
  rg_tc : tail_cache r = tc mod USIZE;
  rg_order : hc <= h <= tc /\ tc <= h + Z.of_nat (length q) <= hc + cap i
}.

Definition ring_repr {T} (i : Inner T) (s : Sender) (r : Receiver) (q : list T) : Prop :=
  exists k h hc tc, ring_ghost i s r q k h hc tc.

(** What no endpoint operation changes. *)
Definition frame {T} (i i' : Inner T) : Prop :=
  cap i' = cap i /\ inbox_next i' = inbox_next i /\
  producer_gone i' = producer_gone i /\ consumer_gone i' = consumer_gone i.

Section specs.
Context {T : Type}.
Implicit Types (i : Inner T) (s : Sender) (r : Receiver) (q : list T).

Lemma cap_range k : 0 <= k < 64 -> 0 < 2 ^ k < USIZE.
Proof.
  intros Hk. split; [apply pow2_pos; lia|]. change USIZE with (2 ^ 64).
  apply Z.pow_lt_mono_r; lia.
Qed.

Lemma rg_cap_pos i s r q k h hc tc : ring_ghost i s r q k h hc tc -> 0 < cap i < USIZE.
Proof. intros H. rewrite (rg_cap _ _ _ _ _ _ _ _ H). apply cap_range, H. Qed.

(** A masked cursor is the counter modulo the capacity. *)
Lemma masked i s r q k h hc tc x :
  ring_ghost i s r q k h hc tc -> Z.land (x mod USIZE) (mask i) = x mod cap i.
Proof.
  intros H. pose proof (rg_k _ _ _ _ _ _ _ _ H).
  rewrite (rg_mask _ _ _ _ _ _ _ _ H), (rg_cap _ _ _ _ _ _ _ _ H).
  rewrite land_mask, mod_usize_pow2 by lia. done.
Qed.

Lemma cached_full_spec i s r q k h hc tc :
  ring_ghost i s r q k h hc tc ->
  cached_full i s = (cap i <=? h + Z.of_nat (length q) - hc).
Proof.
  intros H. pose proof (rg_cap_pos _ _ _ _ _ _ _ _ H). unfold cached_full.
  destruct H. rewrite rg_tail0, rg_hc0, wrapping_sub_cursor by lia. done.
Qed.

(** After the refresh the cached view says full exactly when the ring is. *)
Lemma refresh_head_spec i s r q k h hc tc :
  ring_ghost i s r q k h hc tc ->
  exists hc', ring_ghost i (refresh_head i s) r q k h hc' tc /\
    (cached_full i s = true -> hc' = h) /\
    (h + Z.of_nat (length q) - hc' < cap i \/ hc' = h).
Proof.
  intros H. pose proof (cached_full_spec _ _ _ _ _ _ _ _ H) as Hf.
  unfold refresh_head. destruct (cached_full i s) eqn:E.
  - exists h. destruct H. splits. split; simpl; try done. lia.
  - exists hc. symmetry in Hf. apply Z.leb_gt in Hf. splits.
Qed.

Lemma slot_write_spec i s r q k h hc tc v :
  ring_ghost i s r q k h hc tc -> Z.of_nat (length q) < cap i ->
  slot_write i (tail i) v = OK (set_buf i (content (cap i) h (q ++ [v]))).
Proof.
  intros H Hq. pose proof (rg_cap_pos _ _ _ _ _ _ _ _ H).
  unfold slot_write. rewrite (rg_tail _ _ _ _ _ _ _ _ H), (masked _ _ _ _ _ _ _ _ _ H).
  rewrite (rg_buf _ _ _ _ _ _ _ _ H), set_unchecked_in.
  2:{ rewrite content_length. pose proof (slot_bound (cap i) ltac:(lia) (h + Z.of_nat (length q))). lia. }
  simpl. by rewrite content_snoc by lia.
Qed.

Lemma slot_take_spec (b : list (cell T)) i (c h x : Z) v q :
  0 < c -> buf i = content c h (v :: q) -> Z.of_nat (length (v :: q)) <= c ->
  Z.land x (mask i) = h mod c ->
  slot_take i x = OK (v, set_buf i (content c (h + 1) q)).
Proof.
  intros Hc Hb Hl Hx. pose proof (slot_bound c Hc h).
  unfold slot_take, slot. rewrite Hx, Hb.
  rewrite (get_unchecked_lookup _ _ (Some v)); [|lia|by apply content_head].
  simpl. rewrite set_unchecked_in by (rewrite content_length; lia).
  simpl. by rewrite content_uncons.
Qed.

Lemma try_push_spec i s r q v :
  ring_repr i s r q ->
  if Z.of_nat (length q) <? cap i
  then exists i' s', try_push i s v = OK (Ok tt, i', s') /\ ring_repr i' s' r (q ++ [v]) /\ frame i i'
  else exists s', try_push i s v = OK (Err v, i, s') /\ ring_repr i s' r q.
Proof.
  intros (k & h & hc & tc & H). pose proof (rg_cap_pos _ _ _ _ _ _ _ _ H) as Hc.
  destruct (refresh_head_spec _ _ _ _ _ _ _ _ H) as (hc' & H' & Hr1 & Hr2).
  pose proof (cached_full_spec _ _ _ _ _ _ _ _ H) as Hf.
  pose proof (cached_full_spec _ _ _ _ _ _ _ _ H') as Hf'.
  pose proof (rg_order _ _ _ _ _ _ _ _ H) as Ho. unfold try_push.
  destruct (Z.ltb_spec (Z.of_nat (length q)) (cap i)) as [Hq|Hq].
  - assert (cached_full i s && cached_full i (refresh_head i s) = false) as ->.
    { apply andb_false_iff. destruct (cached_full i s) eqn:E; [right|by left].
      rewrite Hf', (Hr1 eq_refl). zbool; [lia|done]. }
    rewrite (slot_write_spec _ _ _ _ _ _ _ _ v H Hq). simpl.
    eexists _, _. split; [done|]. split; [|by repeat split].
    exists k, h, hc', tc.
    assert (h + Z.of_nat (length q) - hc' < cap i) by lia.
    destruct H'. split; simpl; try done.
    + by rewrite rg_tail0, wrapping_add_cursor, length_app, Nat2Z.inj_add, Z.add_assoc.
    + rewrite length_app. simpl. lia.
  - assert (cached_full i s = true) as E by (rewrite Hf; zbool; [done|lia]).
    assert (cached_full i (refresh_head i s) = true) as -> by (rewrite Hf', (Hr1 E); zbool; [done|lia]).
    rewrite E. simpl. eexists. split; [done|]. by exists k, h, hc', tc.
Qed.

Lemma try_pop_spec i s r q :
  ring_repr i s r q ->
  match q with
  | [] => exists r', try_pop i r = OK (None, i, r') /\ ring_repr i s r' []
  | v :: q' => exists i' r', try_pop i r = OK (Some v, i', r') /\ ring_repr i' s r' q' /\ frame i i'
  end.
Proof.
  intros (k & h & hc & tc & H). pose proof (rg_cap_pos _ _ _ _ _ _ _ _ H) as Hc.
  pose proof H as H0. destruct H.
  assert ((head i =? tail_cache r) = (h =? tc)) as He
    by (rewrite rg_head0, rg_tc0; apply cursor_eqb; lia).
  assert ((head i =? tail i) = (h =? h + Z.of_nat (length q))) as He2
    by (rewrite rg_head0, rg_tail0; apply cursor_eqb; lia).
  unfold try_pop. destruct q as [|v q'].
  - simpl in *. assert (tc = h) as -> by lia. rewrite He, Z.eqb_refl. simpl.
    rewrite He2, Z.add_0_r, Z.eqb_refl. eexists. split; [done|].
    exists k, h, hc, h. split; simpl; try done; by rewrite rg_tail0, Z.add_0_r.
  - set (r1 := if head i =? tail_cache r then mkReceiver (tail i) else r).
    assert ((head i =? tail_cache r) && (head i =? tail_cache r1) = false) as ->.
    { apply andb_false_iff. unfold r1. rewrite He. destruct (Z.eqb_spec h tc); [right|by left].
      simpl. rewrite He2. simpl. apply Z.eqb_neq. lia. }
    rewrite (slot_take_spec (buf i) i (cap i) h (head i) v q'); [|lia|done|lia|].
    2:{ rewrite rg_head0. by eapply masked. }
    simpl. eexists _, _. split; [done|]. split; [|by repeat split].
    exists k, (h + 1), hc, (if h =? tc then h + Z.of_nat (length (v :: q')) else tc).
    split; simpl; try done.
    + by rewrite rg_head0, wrapping_add_cursor.
    + rewrite rg_tail0. f_equal. simpl. lia.
    + unfold r1. rewrite He. by destruct (h =? tc).
    + simpl in *. zbool; lia.
Qed.

(** A larger queue behind the same head: what [push] leaves. *)
Lemma ghost_push i s r q k h hc tc l :
  ring_ghost i s r q k h hc tc -> h + Z.of_nat (length q + length l) <= hc + cap i ->
  ring_ghost (store_tail (set_buf i (content (cap i) h (q ++ l)))
    (wrapping_add (tail i) (Z.of_nat (length l)))) s r (q ++ l) k h hc tc.
Proof.
  intros H Hl. destruct H. split; simpl; try done.
  - by rewrite rg_tail0, wrapping_add_cursor, length_app, Nat2Z.inj_add, Z.add_assoc.
  - rewrite length_app. lia.
Qed.

(** A shorter queue behind an advanced head: what [pop] leaves. *)
Lemma ghost_pop i s r q k h hc tc n :
  ring_ghost i s r q k h hc tc -> h + Z.of_nat n <= tc ->
  ring_ghost (store_head (set_buf i (content (cap i) (h + Z.of_nat n) (drop n q)))
    (wrapping_add (head i) (Z.of_nat n))) s r (drop n q) k (h + Z.of_nat n) hc tc.
Proof.
  intros H Hn. destruct H. split; simpl; try done.
  - by rewrite rg_head0, wrapping_add_cursor.
  - rewrite rg_tail0, length_drop. f_equal. lia.
  - rewrite length_drop. lia.
Qed.

Lemma copy_in_spec i s r q k h hc tc b l n :
  ring_ghost i s r q k h hc tc -> batch_repr b l -> (n <= length l)%nat ->
  Z.of_nat (length q + n) <= cap i ->
  copy_in i (tail i) (Z.of_nat n) b = OK (content (cap i) h (q ++ take n l)).
Proof.
  intros H Hb Hn Hfit. pose proof (rg_cap_pos _ _ _ _ _ _ _ _ H) as Hc. unfold copy_in.
  rewrite (rg_tail _ _ _ _ _ _ _ _ H), (masked _ _ _ _ _ _ _ _ _ H), (rg_buf _ _ _ _ _ _ _ _ H).
  set (t := h + Z.of_nat (length q)).
  pose proof (slot_bound (cap i) ltac:(lia) t) as Hsb. rewrite sub_usize_le by lia. simpl.
  remember (Z.to_nat (Z.min (Z.of_nat n) (cap i - t mod cap i))) as f eqn:Hf.
  replace (Z.min (Z.of_nat n) _) with (Z.of_nat f) by lia.
  pose proof (batch_span b l 0 f Hb ltac:(lia)) as Hs1. rewrite Z.add_0_r, drop_0 in Hs1.
  rewrite Hs1. simpl. rewrite write_span_in; rewrite ?content_length, ?length_take, ?length_fmap; [|lia..].
  simpl. pose proof (content_append (cap i) ltac:(lia) h q t (take n l) (Z.of_nat f)) as Ha.
  rewrite length_take_le, Nat2Z.id in Ha by lia. rewrite <- Ha; [|done|lia|lia].
  rewrite fmap_take, take_take, Nat.min_l by lia.
  destruct (Z.eqb_spec (Z.of_nat f) (Z.of_nat n)) as [He|He].
  - rewrite drop_ge; [done|]. rewrite length_take, length_fmap. lia.
  - replace (Z.of_nat n - Z.of_nat f) with (Z.of_nat (n - f)) by lia.
    rewrite (batch_span b l f (n - f) Hb) by lia. simpl.
    rewrite write_span_in; rewrite ?length_inserts, ?content_length, ?length_take, ?length_drop, ?length_fmap; [|lia..].
    f_equal. rewrite <- skipn_firstn_comm. simpl. done.
Qed.

Lemma push_from_spec i s r q max b l :
  ring_repr i s r q -> batch_repr b l -> 0 <= max ->
  exists n i' s' b', push_from i s max b = OK (Z.of_nat n, i', s', b') /\
    (n <= length l)%nat /\ Z.of_nat n <= max /\ Z.of_nat (length q + n) <= cap i /\
    (n = O -> l = [] \/ max = 0 \/ Z.of_nat (length q) = cap i) /\
    ring_repr i' s' r (q ++ take n l) /\ batch_repr b' (drop n l) /\ frame i i'.
Proof.
  intros (k & h & hc & tc & H) Hb Hm. pose proof (rg_cap_pos _ _ _ _ _ _ _ _ H) as Hc.
  destruct (refresh_head_spec _ _ _ _ _ _ _ _ H) as (hc' & H' & _ & Hr2).
  pose proof (rg_order _ _ _ _ _ _ _ _ H) as Ho. pose proof (rg_order _ _ _ _ _ _ _ _ H') as Ho'.
  unfold push_from. rewrite (batch_len_repr b l Hb).
  destruct (Z.eqb_spec (Z.min (Z.of_nat (length l)) max) 0) as [Hz|Hz].
  { exists O, i, s, b. rewrite take_0, drop_0, app_nil_r.
    splits; [by destruct l; [left|right; left; simpl in *; lia]|by exists k, h, hc, tc]. }
  assert (wrapping_sub (tail i) (head_cache (refresh_head i s)) = h + Z.of_nat (length q) - hc') as ->.
  { destruct H'. rewrite rg_tail0, rg_hc0. apply wrapping_sub_cursor. lia. }
  rewrite sub_usize_le by lia. simpl.
  set (room := cap i - _). remember (Z.to_nat (Z.min (Z.min (Z.of_nat (length l)) max) room)) as n eqn:Hn.
  replace (Z.min (Z.min _ _) _) with (Z.of_nat n) by lia.
  pose proof (ghost_push _ _ _ _ _ _ _ _ (take n l) H') as Hg.
  rewrite length_take_le in Hg by lia. specialize (Hg ltac:(lia)).
  pose proof (batch_moved_out b l n Hb ltac:(lia)) as Hb'.
  assert (Z.of_nat (length q + n) <= cap i) as Hfit by lia.
  destruct (Z.eqb_spec (Z.of_nat n) 0) as [Hn0|Hn0].
  { exists O, i, (refresh_head i s), b. rewrite take_0, drop_0, app_nil_r.
    splits. by exists k, h, hc', tc. }
  destruct (Z.eqb_spec (Z.of_nat n) 1) as [Hn1|Hn1].
  - destruct l as [|v l]; [simpl in *; lia|]. assert (n = 1%nat) as E by lia. clear Hn.
    rewrite E in *. rewrite (batch_front b v l Hb). simpl.
    rewrite (slot_write_spec _ _ _ _ _ _ _ _ v H) by lia. simpl.
    exists 1%nat. eexists _, _, _. split; [done|]. simpl.
    splits. by exists k, h, hc', tc.
  - rewrite (copy_in_spec _ _ _ _ _ _ _ _ b l n H Hb) by lia. simpl.
    exists n. eexists _, _, _. split; [done|].
    splits. by exists k, h, hc', tc.
Qed.

Lemma refresh_tail_spec i s r q k h hc tc :
  ring_ghost i s r q k h hc tc ->
  exists tc', ring_ghost i s (refresh_tail i r) q k h hc tc' /\
    wrapping_sub (tail_cache (refresh_tail i r)) (head i) = tc' - h /\ (tc' = h -> q = []).
Proof.
  intros H. pose proof (rg_cap_pos _ _ _ _ _ _ _ _ H) as Hc.
  assert (forall x, h <= x <= h + Z.of_nat (length q) ->
    wrapping_sub (x mod USIZE) (head i) = x - h) as Hw.
  { intros x Hx. destruct H. rewrite rg_head0. apply wrapping_sub_cursor. lia. }
  unfold refresh_tail. destruct H. rewrite rg_tc0, Hw by lia.
  destruct (Z.eqb_spec (tc - h) 0) as [He|He].
  - exists (h + Z.of_nat (length q)). simpl. rewrite rg_tail0, Hw by lia.
    splits; [|intros; apply length_zero_iff_nil; lia]. split; simpl; try done. lia.
  - exists tc. rewrite rg_tc0, Hw by lia. splits.
Qed.

Lemma copy_out_spec i s r q k h hc tc n :
  ring_ghost i s r q k h hc tc -> (n <= length q)%nat ->
  copy_out i (head i) (Z.of_nat n) =
    OK (Some <$> take n q, content (cap i) (h + Z.of_nat n) (drop n q)).
Proof.
  intros H Hn. pose proof (rg_cap_pos _ _ _ _ _ _ _ _ H) as Hc.
  pose proof (rg_order _ _ _ _ _ _ _ _ H) as Ho. unfold copy_out.
  rewrite (rg_head _ _ _ _ _ _ _ _ H), (masked _ _ _ _ _ _ _ _ _ H), (rg_buf _ _ _ _ _ _ _ _ H).
  pose proof (slot_bound (cap i) ltac:(lia) h) as Hsb. rewrite sub_usize_le by lia. simpl.
  set (first := Z.min (Z.of_nat n) (cap i - h mod cap i)).
  rewrite (span_in _ (h mod cap i) first) by (rewrite ?content_length; lia). simpl.
  rewrite <- (content_spans (cap i) ltac:(lia) h q n first) by lia.
  rewrite <- (content_drop (cap i) ltac:(lia) h q n first) by lia.
  destruct (Z.eqb_spec first (Z.of_nat n)) as [He|He].
  - replace (Z.of_nat n - first) with 0 by lia. done.
  - rewrite span_in by (rewrite ?content_length; lia). simpl. by rewrite drop_0.
Qed.

Lemma drain_into_spec i s r q max b l :
  ring_repr i s r q -> batch_repr b l -> 0 <= max ->
  exists n i' r' b', drain_into i r max b = OK (Z.of_nat n, i', r', b') /\
    (n <= length q)%nat /\ Z.of_nat n <= max /\ (q <> [] -> 0 < max -> (0 < n)%nat) /\
    ring_repr i' s r' (drop n q) /\ batch_repr b' (l ++ take n q) /\ frame i i'.
Proof.
  intros (k & h & hc & tc & H) Hb Hm. pose proof (rg_cap_pos _ _ _ _ _ _ _ _ H) as Hc.
  destruct (refresh_tail_spec _ _ _ _ _ _ _ _ H) as (tc' & H' & Hw & He).
  pose proof (rg_order _ _ _ _ _ _ _ _ H') as Ho. unfold drain_into. rewrite Hw.
  remember (Z.to_nat (Z.min (tc' - h) max)) as n eqn:Hn.
  replace (Z.min (tc' - h) max) with (Z.of_nat n) by lia.
  assert (q <> [] -> 0 < max -> (0 < n)%nat) as Hprog.
  { intros Hq Hmx. destruct (decide (tc' = h)); [by destruct (Hq (He ltac:(done)))|]. lia. }
  pose proof (ghost_pop _ _ _ _ _ _ _ _ n H' ltac:(lia)) as Hg.
  destruct (Z.eqb_spec (Z.of_nat n) 0) as [Hn0|Hn0].
  { assert (n = O) as E by lia. exists O, i, (refresh_tail i r), b.
    rewrite E in Hprog. rewrite take_0, drop_0, app_nil_r. splits. by exists k, h, hc, tc'. }
  destruct (Z.eqb_spec (Z.of_nat n) 1) as [Hn1|Hn1].
  - assert (n = 1%nat) as E by lia. destruct q as [|v q]; [simpl in *; lia|].
    rewrite (slot_take_spec (buf i) i (cap i) h (head i) v q); [|lia|apply H|simpl in *; lia|].
    2:{ rewrite (rg_head _ _ _ _ _ _ _ _ H). by eapply masked. }
    simpl. exists 1%nat. eexists _, _, _. split; [done|]. rewrite E in *.
    splits; [by exists k, (h + 1), hc, tc'|by apply (batch_append b l [v])].
  - rewrite (copy_out_spec _ _ _ _ _ _ _ _ n H) by lia. simpl.
    exists n. eexists _, _, _. split; [done|].
    splits; [by exists k, (h + Z.of_nat n), hc, tc'|by apply batch_append].
Qed.

Lemma drain_slots_spec {S} (kk c : Z) n i h k q (f : callback S T) st :
  0 <= kk < 64 -> c = 2 ^ kk -> mask i = c - 1 ->
  buf i = content c (h + k) q -> (n <= length q)%nat -> Z.of_nat (length q) <= c ->
  let '(st', m, p) := feed f st (take n q) in
  drain_slots n i (h mod USIZE) k f st =
    OK (set_buf i (content c (h + k + Z.of_nat m) (drop m q)), st', k + Z.of_nat m, p).
Proof.
  intros Hk Hc Hmask. revert i k q st Hmask.
  induction n as [|n IH]; intros i k q st Hmask Hb Hn Hl.
  - simpl. rewrite drop_0, !Z.add_0_r, <- Hb. by destruct i.
  - destruct q as [|v q]; [simpl in Hn; lia|]. cbn [take feed drain_slots].
    rewrite length_cons in Hn. rewrite length_cons, Nat2Z.inj_succ in Hl.
    assert (0 < c) by (subst c; apply pow2_pos; lia).
    rewrite (slot_take_spec (buf i) i c (h + k) _ v q); [|done|done|rewrite length_cons; lia|].
    2:{ rewrite wrapping_add_cursor, Hmask, Hc, land_mask, mod_usize_pow2 by lia. done. }
    simpl. destruct (f st v) as [st1 [|]].
    { simpl. rewrite drop_0. done. }
    specialize (IH (set_buf i (content c (h + k + 1) q)) (k + 1) q st1 Hmask).
    simpl. rewrite Z.add_assoc in IH. specialize (IH eq_refl ltac:(lia) ltac:(lia)).
    destruct (feed f st1 (take n q)) as [[st2 m] p]. rewrite IH. simpl.
    replace (h + k + 1 + Z.of_nat m) with (h + k + Z.of_nat (Datatypes.S m)) by lia.
    by replace (k + 1 + Z.of_nat m) with (k + Z.of_nat (Datatypes.S m)) by lia.
Qed.

Lemma drain_in_place_spec {S} i s r q max (f : callback S T) st :
  ring_repr i s r q -> 0 <= max ->
  exists n i' r' st' m p, (n <= length q)%nat /\ Z.of_nat n <= max /\
    (q <> [] -> 0 < max -> (0 < n)%nat) /\
    feed f st (take n q) = (st', m, p) /\
    drain_in_place i r max f st =
      OK (if p then Unwound else Returned (Z.of_nat n), i', r', st') /\
    ring_repr i' s r' (drop m q) /\ frame i i'.
Proof.
  intros (k & h & hc & tc & H) Hm.
  destruct (refresh_tail_spec _ _ _ _ _ _ _ _ H) as (tc' & H' & Hw & He).
  pose proof (rg_order _ _ _ _ _ _ _ _ H') as Ho. unfold drain_in_place. rewrite Hw.
  destruct (Z.eqb_spec (tc' - h) 0) as [Hz|Hz].
  { assert (q = []) as -> by (apply He; lia). exists O, i, (refresh_tail i r), st, O, false.
    splits. by exists k, h, hc, tc'. }
  remember (Z.to_nat (Z.min (tc' - h) max)) as n eqn:Hn.
  pose proof (drain_slots_spec k (cap i) n i h 0 q f st) as Hd.
  pose proof (feed_count f st (take n q)) as Hfc.
  destruct (feed f st (take n q)) as [[st' m] p] eqn:Hfeed. rewrite length_take_le in Hfc by lia.
  rewrite <- (rg_head _ _ _ _ _ _ _ _ H), Z.add_0_r in Hd. rewrite Hd; clear Hd.
  2-7: try apply H; lia.
  pose proof (ghost_pop _ _ _ _ _ _ _ _ m H' ltac:(lia)) as Hg.
  simpl. replace (Z.min (tc' - h) max) with (Z.of_nat n) by lia.
  exists n. eexists _, _, st', m, p. split; [lia|]. split; [lia|]. split; [lia|]. split; [done|].
  split; [done|]. split; [by exists k, (h + Z.of_nat m), hc, tc'|done].
Qed.

Lemma drain_in_place_async_spec {A W} `{AtomicWaker A W} {S} i s r q max (w : TaskWaiter A)
    (f : callback S T) st :
  ring_repr i s r q -> 0 <= max ->
  exists n i' r' st' m p, (n <= length q)%nat /\ Z.of_nat n <= max /\
    (q <> [] -> 0 < max -> (0 < n)%nat) /\
    feed f st (take n q) = (st', m, p) /\
    drain_in_place_async i r max w f st =
      OK (if p then Unwound else Returned (Z.of_nat n), i', r',
          if bool_decide (n = O) then w else (notify w).2, st',
          if bool_decide (n = O) then None else (notify w).1) /\
    ring_repr i' s r' (drop m q) /\ frame i i'.
Proof.
  intros Hr Hm. unfold drain_in_place_async.
  destruct (Z.eqb_spec max 0) as [Hz|Hz].
  { exists O, i, r, st, O, false. splits. }
  destruct (drain_in_place_spec i s r q max f st Hr Hm)
    as (n & i' & r' & st' & m & p & Hn & Hnm & Hp & Hf & Hd & Hr' & Hfr).
  unfold drain_in_place in Hd. exists n, i', r', st', m, p. splits.
  destruct (Z.eqb_spec (wrapping_sub (tail_cache (refresh_tail i r)) (head i)) 0) as [Ha|Ha].
  - destruct p; [by simplify_eq|]. assert (n = O) as -> by (simplify_eq; lia).
    by simplify_eq.
  - assert (n <> O) as Hn0.
    { destruct q as [|v q]; [|specialize (Hp ltac:(done) ltac:(lia)); lia].
      exfalso. destruct Hr as (k & h & hc & tc & Hg).
      destruct (refresh_tail_spec _ _ _ _ _ _ _ _ Hg) as (tc' & Hg' & Hw & _).
      pose proof (rg_order _ _ _ _ _ _ _ _ Hg'). simpl in *. lia. }
    rewrite bool_decide_false by done.
    destruct (drain_slots _ _ _ _ _ _) as [[[[i1 st1] d] pn]| |]; [|done..].
    simpl in *. destruct (notify w) as [wk w']. injection Hd as Hfl <- <- <-.
    simpl. by rewrite Hfl.
Qed.

Lemma build_spec size_T capacity i :
  build size_T capacity = OK i ->
  ring_repr i (mkSender 0) (mkReceiver 0) [] /\ Z.max capacity 1 <= cap i /\
  producer_gone i = false /\ consumer_gone i = false /\ inbox_next i = None.
Proof.
  unfold build. destruct (checked_next_power_of_two _) as [c|] eqn:E; [|done].
  zbool; [done|]. intros [= <-].
  destruct (next_power_of_two_spec _ _ E) as (k & -> & Hk & Hn). splits.
  exists k, 0, 0, 0. pose proof (cap_range k Hk). split; simpl; try done; [|lia].
  apply content_replicate; lia.
Qed.

Lemma is_empty_spec i s r q : ring_repr i s r q -> is_empty i = bool_decide (q = []).
Proof.
  intros (k & h & hc & tc & H). pose proof (rg_cap_pos _ _ _ _ _ _ _ _ H) as Hc. destruct H.
  unfold is_empty. rewrite rg_head0, rg_tail0, cursor_eqb by lia.
  destruct q; [by apply Z.eqb_eq; simpl; lia|]. by apply Z.eqb_neq; simpl; lia.
Qed.

Lemma used_spec i s r q :
  ring_repr i s r q -> wrapping_sub (tail i) (head i) = Z.of_nat (length q).
Proof.
  intros (k & h & hc & tc & H). pose proof (rg_cap_pos _ _ _ _ _ _ _ _ H) as Hc. destruct H.
  rewrite rg_head0, rg_tail0, wrapping_sub_cursor by lia. lia.
Qed.

(** Flag stores do not touch the queue. *)
Lemma repr_producer_gone i s r q x : ring_repr i s r q -> ring_repr (store_producer_gone i x) s r q.
Proof. intros (k & h & hc & tc & H). exists k, h, hc, tc. by destruct H. Qed.
Lemma repr_consumer_gone i s r q x : ring_repr i s r q -> ring_repr (store_consumer_gone i x) s r q.
Proof. intros (k & h & hc & tc & H). exists k, h, hc, tc. by destruct H. Qed.
Lemma repr_inbox_next i s r q x : ring_repr i s r q -> ring_repr (store_inbox_next i x) s r q.
Proof. intros (k & h & hc & tc & H). exists k, h, hc, tc. by destruct H. Qed.

(** A fresh cache at the published cursor is always sound. *)
Lemma repr_reset_tail_cache i s r q : ring_repr i s r q -> ring_repr i s (mkReceiver (head i)) q.
Proof. intros (k & h & hc & tc & H). exists k, h, hc, h. destruct H. split; simpl; try done. lia. Qed.
Lemma repr_reset_head_cache i s r q : ring_repr i s r q -> ring_repr i (mkSender (head i)) r q.
Proof. intros (k & h & hc & tc & H). exists k, h, h, tc. destruct H. split; simpl; try done. lia. Qed.

Lemma pop_all_S fuel i r :
  pop_all (S fuel) i r =
    ('(o, i1, r1) ← try_pop i r;
     match o with
     | None => OK ([], i1, r1)
     | Some v => '(vs, i2, r2) ← pop_all fuel i1 r1; OK (v :: vs, i2, r2)
     end).
Proof. done. Qed.

(** The receiver's drop loop drains the ring and ends. *)
Lemma pop_all_spec i s r q :
  ring_repr i s r q ->
  exists i' r', pop_all (S (length q)) i r = OK (q, i', r') /\ ring_repr i' s r' [] /\ frame i i'.
Proof.
  revert i r. induction q as [|v q IH]; intros i r Hr; pose proof (try_pop_spec i s r _ Hr) as Hp.
  - destruct Hp as (r' & Hp & Hr'). rewrite pop_all_S, Hp. simpl. eexists _, _. splits.
  - destruct Hp as (i1 & r1 & Hp & Hr1 & Hf1). destruct (IH i1 r1 Hr1) as (i2 & r2 & H2 & Hr2 & Hf2).
    rewrite pop_all_S, Hp. cbn [mbind outcome_bind length]. rewrite H2.
    simpl. eexists _, _. split; [done|]. split; [done|].
    unfold frame in *. intuition congruence.
Qed.

(** The walk of [Inner]'s drop destroys exactly the queue, in order. *)
Lemma inner_drop_walk_spec i (kk h t : Z) q :
  0 <= kk < 64 -> cap i = 2 ^ kk -> mask i = cap i - 1 ->
  t = h + Z.of_nat (length q) -> tail i = t mod USIZE -> Z.of_nat (length q) <= cap i ->
  (forall j v, q !! j = Some v ->
     buf i !! Z.to_nat ((h + Z.of_nat j) mod cap i) = Some (Some v)) ->
  inner_drop_walk (length q) i (h mod USIZE) = OK q.
Proof.
  intros Hk Hcap Hmask. pose proof (cap_range kk Hk) as Hcr. revert h.
  induction q as [|v q IH]; intros h Ht Htl Hl Hb; cbn [length] in *.
  - simpl. rewrite Htl, Ht, Z.add_0_r, Z.eqb_refl. done.
  - simpl. rewrite Htl, cursor_eqb by lia. destruct (Z.eqb_spec h t); [lia|].
    rewrite Hmask, Hcap, land_mask, mod_usize_pow2 by lia.
    pose proof (Hb 0%nat v eq_refl) as H0. rewrite Z.add_0_r, Hcap in H0. rewrite H0. simpl.
    rewrite wrapping_add_cursor, IH; [done|lia|done|lia|].
    intros j w Hj. rewrite <- (Hb (S j) w Hj). do 3 f_equal. lia.
Qed.

Lemma inner_drop_spec i s r q : ring_repr i s r q -> inner_drop i = OK q.
Proof.
  intros Hr. pose proof (used_spec i s r q Hr) as Hu. destruct Hr as (k & h & hc & tc & H).
  pose proof (rg_cap_pos _ _ _ _ _ _ _ _ H) as Hc. unfold inner_drop. rewrite Hu, Nat2Z.id.
  destruct H. rewrite rg_head0.
  apply (inner_drop_walk_spec i k h (h + Z.of_nat (length q))); [done..|lia|].
  intros j v Hj. rewrite rg_buf0, content_lookup by (try apply slot_bound; lia).
  pose proof (lookup_lt_Some _ _ _ Hj). rewrite Zminus_mod_idemp_l.
  replace (h + Z.of_nat j - h) with (Z.of_nat j) by lia.
  rewrite Z.mod_small, Nat2Z.id by lia. by rewrite Hj.
Qed.

(** ** The two bulk paths against their slot-by-slot forms *)

Lemma copy_in_tracked_spec (kk c : Z) n i h t offset q b l :
  0 <= kk < 64 -> c = 2 ^ kk -> mask i = c - 1 -> buf i = content c h q -> batch_repr b l ->
  t + offset = h + Z.of_nat (length q) -> (n <= length l)%nat ->
  Z.of_nat (length q + n) <= c ->
  exists b', copy_in_tracked n i (t mod USIZE) offset b =
    OK (set_buf i (content c h (q ++ take n l)), b') /\
    b' = mkBatch (moved_out (values b) (read b) (Z.of_nat n)) (read b + Z.of_nat n).
Proof.
  intros Hk Hc. pose proof (cap_range kk Hk). revert i offset q b l.
  induction n as [|n IH]; intros i offset q b l Hmask Hb Hbat Ht Hn Hfit.
  - eexists. split; [|done]. simpl. rewrite app_nil_r, <- Hb, Z.add_0_r.
    destruct i, b. unfold moved_out. done.
  - destruct l as [|v l]; [simpl in Hn; lia|]. simpl in Hn.
    destruct (pop_front_cons b v l Hbat) as (b1 & Hp & Hb1 & Hrd & Hvs).
    cbn [copy_in_tracked]. rewrite Hp. simpl. unfold slot_write.
    rewrite wrapping_add_cursor, Hmask, Hc, land_mask, mod_usize_pow2, <- Hc, Hb by lia.
    rewrite set_unchecked_in.
    2:{ rewrite content_length. pose proof (slot_bound c ltac:(lia) (t + offset)). lia. }
    simpl. rewrite content_snoc by lia.
    destruct (IH (set_buf i (content c h (q ++ [v]))) (offset + 1) (q ++ [v]) b1 l) as (b' & He & Hb');
      [done|done|done|rewrite length_app; simpl; lia|lia|rewrite length_app; simpl; lia|].
    rewrite He. rewrite <- app_assoc. eexists. split; [done|].
    rewrite Hb', Hrd, Hvs. destruct Hbat as [Hr _]. f_equal; [|lia]. unfold moved_out.
    rewrite !Nat2Z.id. simpl. rewrite list_insert_inserts_lt by lia.
    f_equal. lia.
Qed.

Lemma ring_ghost_copy i s r q k h hc tc b l n :
  ring_ghost i s r q k h hc tc -> batch_repr b l -> (n <= length l)%nat ->
  Z.of_nat (length q + n) <= cap i ->
  copy_in_tracked n i (tail i) 0 b =
    (bf ← copy_in i (tail i) (Z.of_nat n) b;
     OK (set_buf i bf, mkBatch (moved_out (values b) (read b) (Z.of_nat n)) (read b + Z.of_nat n))).
Proof.
  intros H Hb Hn Hfit. rewrite (copy_in_spec _ _ _ _ _ _ _ _ b l n H Hb Hn Hfit). simpl.
  destruct H. rewrite rg_tail0.
  destruct (copy_in_tracked_spec k (cap i) n i h (h + Z.of_nat (length q)) 0 q b l)
    as (b' & -> & ->); [done..|lia|done|done|done].
Qed.
End specs.

(** ** The storage interface *)

Record Chan (T : Type) := mkChan { ch_inner : Inner T; ch_tx : Sender; ch_rx : Receiver }.
Arguments mkChan {T} ch_inner ch_tx ch_rx.
Arguments ch_inner {T} c.
Arguments ch_tx {T} c.
Arguments ch_rx {T} c.

Definition chan_repr {T} (c : Chan T) (q : list T) (pg cg : bool) : Prop :=
  ring_repr (ch_inner c) (ch_tx c) (ch_rx c) q /\
  producer_gone (ch_inner c) = pg /\ consumer_gone (ch_inner c) = cg.

Section backend.
Context {T : Type} (size_T : Z).

#[export] Instance ring_backend : SpscBackend T (Chan T) := {
  bk_channel n := '(i, s, r) ← ring size_T n; OK (mkChan i s r);
  bk_try_push c v :=
    '(x, i, s) ← try_push (ch_inner c) (ch_tx c) v; OK (x, mkChan i s (ch_rx c));
  bk_push_from c max b :=
    '(n, i, s, b') ← push_from (ch_inner c) (ch_tx c) max b; OK (n, mkChan i s (ch_rx c), b');
  bk_is_consumer_gone c := is_consumer_gone (ch_inner c);
  bk_drop_tx c := mkChan (store_producer_gone (ch_inner c) true) (ch_tx c) (ch_rx c);
  bk_drop_rx c :=
    '(_, i, r) ← pop_all (S (Z.to_nat (wrapping_sub (tail (ch_inner c)) (head (ch_inner c)))))
                   (store_consumer_gone (ch_inner c) true) (ch_rx c);
    OK (mkChan i (ch_tx c) r);
  bk_try_pop c :=
    '(o, i, r) ← try_pop (ch_inner c) (ch_rx c); OK (o, mkChan i (ch_tx c) r);
  bk_drain_in_place S c max f st :=
    '(n, i, r, st') ← drain_in_place (ch_inner c) (ch_rx c) max f st;
    OK (n, mkChan i (ch_tx c) r, st');
  bk_drain_into c max b :=
    '(n, i, r, b') ← drain_into (ch_inner c) (ch_rx c) max b; OK (n, mkChan i (ch_tx c) r, b');
  bk_is_empty c := OK (is_empty (ch_inner c));
  bk_is_finished c := OK (is_finished (ch_inner c))
}.

#[export] Instance ring_laws : SpscLaws T (Chan T).
Proof.
  refine {| bk_repr := chan_repr |}.
  - intros n c. simpl. unfold ring. destruct (build size_T n) as [i| |] eqn:E; [|done..].
    simpl. intros [= <-]. destruct (build_spec _ _ _ E) as (H1 & _ & H2 & H3 & _). by split.
  - intros [i s r] q cg v (Hr & Hp & Hg). simpl in *.
    pose proof (try_push_spec i s r q v Hr) as H. destruct (Z.ltb_spec (Z.of_nat (length q)) (cap i)).
    + destruct H as (i' & s' & -> & H' & Hf). simpl. eexists _, _. split; [done|].
      left. unfold frame in Hf. split; [done|]. split; [done|]. simpl. intuition congruence.
    + destruct H as (s' & -> & H'). simpl. eexists _, _. split; [done|]. by right.
  - intros [i s r] q cg max b l (Hr & Hp & Hg) Hb Hm. simpl in *.
    destruct (push_from_spec i s r q max b l Hr Hb Hm)
      as (n & i' & s' & b' & -> & H1 & H2 & _ & _ & H3 & H4 & Hf).
    simpl. exists n. eexists _, _. split; [done|]. unfold frame in Hf.
    splits. split; [done|]. simpl. intuition congruence.
  - by intros c q pg cg (_ & _ & ?).
  - intros [i s r] q cg (Hr & Hp & Hg). simpl in *. split; [by apply repr_producer_gone|done].
  - intros [i s r] q pg (Hr & Hp & Hg).
    cbn [ch_inner ch_tx ch_rx bk_drop_rx ring_backend] in *. rewrite (used_spec _ _ _ _ Hr), Nat2Z.id.
    destruct (pop_all_spec _ _ _ _ (repr_consumer_gone _ _ _ _ true Hr)) as (i1 & r1 & -> & Hr2 & Hf).
    eexists _, []. split; [done|]. unfold frame in Hf. split; [done|]. simpl in *. intuition congruence.
  - intros [i s r] pg (Hr & Hp & Hg). simpl in *.
    destruct (try_pop_spec i s r [] Hr) as (r' & -> & H'). simpl. by eexists.
  - intros [i s r] v q pg (Hr & Hp & Hg). simpl in *.
    destruct (try_pop_spec i s r (v :: q) Hr) as (i' & r' & -> & H' & Hf). simpl.
    eexists. split; [done|]. unfold frame in Hf. split; [done|]. simpl. intuition congruence.
  - intros S [i s r] q pg max f st (Hr & Hp & Hg) Hm. simpl in *.
    destruct (drain_in_place_spec i s r q max f st Hr Hm)
      as (n & i' & r' & st' & m & p & H1 & H2 & H3 & H4 & -> & H5 & Hf).
    simpl. exists n. eexists _, st', m, p. splits. unfold frame in Hf.
    split; [done|]. simpl. intuition congruence.
  - intros [i s r] q pg max b l (Hr & Hp & Hg) Hb Hm. simpl in *.
    destruct (drain_into_spec i s r q max b l Hr Hb Hm)
      as (n & i' & r' & b' & -> & H1 & H2 & H3 & H4 & H5 & Hf).
    simpl. exists n. eexists _, _. split; [done|]. unfold frame in Hf.
    splits. split; [done|]. simpl. intuition congruence.
  - intros [i s r] q pg (Hr & Hp & Hg). simpl in *. f_equal. by eapply is_empty_spec.
  - intros [i s r] q pg (Hr & Hp & Hg). simpl in *. unfold is_finished.
    by rewrite Hp, (is_empty_spec i s r q Hr).
Defined.

#[export] Instance ring_bounded : SpscBounded T (Chan T).
Proof.
  refine {| bk_cap c := cap (ch_inner c) |}; cbn [bk_repr ring_laws bk_channel bk_try_push bk_push_from
    bk_drop_tx bk_try_pop bk_drain_in_place bk_drain_into ring_backend].
  - intros n c. unfold ring. destruct (build size_T n) as [i| |] eqn:E; [|done..].
    simpl. intros [= <-]. destruct (build_spec _ _ _ E) as (_ & ? & _). simpl. lia.
  - intros [i s r] q cg v (Hr & _) Hl. simpl in *. pose proof (try_push_spec i s r q v Hr) as H.
    destruct (Z.ltb_spec (Z.of_nat (length q)) (cap i)); [|lia]. destruct H as (i' & s' & -> & _). by eexists.
  - intros [i s r] q cg v x c' (Hr & _). simpl in *. pose proof (try_push_spec i s r q v Hr) as H.
    destruct (Z.of_nat (length q) <? cap i);
      [destruct H as (i' & s' & -> & _ & Hf)|destruct H as (s' & -> & _)]; intros [= <- <-]; [apply Hf|done].
  - intros [i s r] q cg max b l n c' b' (Hr & _) Hb Hm. simpl in *.
    destruct (push_from_spec i s r q max b l Hr Hb Hm) as (k & i' & s' & b2 & -> & _ & _ & _ & _ & _ & _ & Hf).
    intros [= <- <- <-]. apply Hf.
  - done.
  - intros [i s r] q pg o c' (Hr & _). simpl in *. pose proof (try_pop_spec i s r q Hr) as H.
    destruct q; [destruct H as (r' & -> & _)|destruct H as (i' & r' & -> & _ & Hf)];
      intros [= <- <-]; [done|apply Hf].
  - intros S [i s r] q pg max f st fl c' st' (Hr & _) Hm. simpl in *.
    destruct (drain_in_place_spec i s r q max f st Hr Hm) as (n & i' & r' & st2 & m & p & _ & _ & _ & _ & -> & _ & Hf).
    intros [= <- <- <-]. apply Hf.
  - intros [i s r] q pg max b l n c' b' (Hr & _) Hb Hm. simpl in *.
    destruct (drain_into_spec i s r q max b l Hr Hb Hm) as (k & i' & r' & b2 & -> & _ & _ & _ & _ & _ & Hf).
    intros [= <- <- <-]. apply Hf.
Defined.
End backend.

(** ** Clients: arbitrary sequences of calls *)

Section client.
Context {T : Type}.
Implicit Types (c : Chan T) (q : list T).

(** [RDrain max stop] drains in place with a callback that logs its values and
    panics on its [stop]-th call. *)
Inductive ring_op : Type :=
| RPush (v : T)
| RPushFrom (max : Z) (l : list T)
| RPop
| RDrainInto (max : Z)
| RDrain (max : Z) (stop : nat).

(** Values taken in from the client, handed out to it, and given back. *)
Inductive ring_obs : Type :=
| Accepted (n : Z) (left : list T)
| Received (l : list T).

Definition ring_step c (o : ring_op) : outcome (ring_obs * Chan T) :=
  let '(mkChan i s r) := c in
  match o with
  | RPush v =>
      '(x, i', s') ← try_push i s v;
      OK (match x with Ok _ => Accepted 1 [] | Err w => Accepted 0 [w] end, mkChan i' s' r)
  | RPushFrom max l =>
      '(n, i', s', b) ← push_from i s max (mkBatch (Some <$> l) 0);
      rest ← as_slice b;
      OK (Accepted n rest, mkChan i' s' r)
  | RPop => '(x, i', r') ← try_pop i r; OK (Received (option_list x), mkChan i' s r')
  | RDrainInto max =>
      '(_, i', r', b) ← drain_into i r max Batch_new;
      l ← as_slice b;
      OK (Received l, mkChan i' s r')
  | RDrain max stop =>
      '(_, i', r', log) ← drain_in_place i r max (logger stop) [];
      OK (Received log, mkChan i' s r')
  end.

Fixpoint ring_run c (os : list ring_op) : outcome (list ring_obs * Chan T) :=
  match os with
  | [] => OK ([], c)
  | o :: os' =>
      '(x, c1) ← ring_step c o;
      '(xs, c2) ← ring_run c1 os';
      OK (x :: xs, c2)
  end.

(** The specification: a FIFO queue of at most [n] values. A bulk call may move
    fewer values than would fit, but moves at least one when it can. *)
Inductive fifo_spec (n : Z) : list T -> ring_op -> ring_obs -> list T -> Prop :=
| spec_push q v : Z.of_nat (length q) < n -> fifo_spec n q (RPush v) (Accepted 1 []) (q ++ [v])
| spec_full q v : Z.of_nat (length q) = n -> fifo_spec n q (RPush v) (Accepted 0 [v]) q
| spec_push_from q max l k :
    (k <= length l)%nat -> Z.of_nat k <= max -> Z.of_nat (length q + k) <= n ->
    (k = O -> l = [] \/ max = 0 \/ Z.of_nat (length q) = n) ->
    fifo_spec n q (RPushFrom max l) (Accepted (Z.of_nat k) (drop k l)) (q ++ take k l)
| spec_pop q : fifo_spec n q RPop (Received (take 1 q)) (drop 1 q)
| spec_drain_into q max k :
    (k <= length q)%nat -> Z.of_nat k <= max -> (q <> [] -> 0 < max -> (0 < k)%nat) ->
    fifo_spec n q (RDrainInto max) (Received (take k q)) (drop k q)
| spec_drain q max stop k :
    (k <= length q)%nat -> Z.of_nat k <= max -> (k <= S stop)%nat ->
    (q <> [] -> 0 < max -> (0 < k)%nat) ->
    fifo_spec n q (RDrain max stop) (Received (take k q)) (drop k q).

Inductive fifo_spec_run (n : Z) : list T -> list ring_op -> list ring_obs -> list T -> Prop :=
| run_nil q : fifo_spec_run n q [] [] q
| run_cons q o x q1 os xs q2 :
    fifo_spec n q o x q1 -> fifo_spec_run n q1 os xs q2 ->
    fifo_spec_run n q (o :: os) (x :: xs) q2.

(** Bulk limits are [usize] values. *)
Definition op_ok (o : ring_op) : bool :=
  match o with
  | RPushFrom max _ | RDrainInto max | RDrain max _ => 0 <=? max
  | _ => true
  end.

Lemma ring_step_spec c q o :
  ring_repr (ch_inner c) (ch_tx c) (ch_rx c) q -> op_ok o ->
  exists x c' q', ring_step c o = OK (x, c') /\ fifo_spec (cap (ch_inner c)) q o x q' /\
    ring_repr (ch_inner c') (ch_tx c') (ch_rx c') q' /\
    cap (ch_inner c') = cap (ch_inner c).
Proof.
  destruct c as [i s r]. intros Hr Ho. simpl in *. destruct o as [v|max l| |max|max stop]; simpl in *.
  - pose proof (try_push_spec i s r q v Hr) as H.
    destruct (Z.ltb_spec (Z.of_nat (length q)) (cap i)).
    + destruct H as (i' & s' & -> & H' & Hf & _). simpl. eexists _, _, _. split; [done|].
      split; [by apply spec_push|]. done.
    + destruct H as (s' & -> & H'). simpl. eexists _, _, _. split; [done|].
      split; [apply spec_full|done]. destruct Hr as (k & h & hc & tc & Hg).
      pose proof (rg_order _ _ _ _ _ _ _ _ Hg). lia.
  - apply Is_true_true, Z.leb_le in Ho.
    destruct (push_from_spec i s r q max (mkBatch (Some <$> l) 0) l Hr ltac:(by split) Ho)
      as (n & i' & s' & b' & -> & H1 & H2 & H3 & H4 & H5 & H6 & Hf & _).
    simpl. rewrite (as_slice_repr b' _ H6). simpl. eexists _, _, _. split; [done|].
    split; [by apply spec_push_from|done].
  - pose proof (try_pop_spec i s r q Hr) as H. destruct q as [|v q].
    + destruct H as (r' & -> & H'). simpl. eexists _, _, _. split; [done|]. split; [apply spec_pop|done].
    + destruct H as (i' & r' & -> & H' & Hf & _). simpl. eexists _, _, _. split; [done|].
      split; [apply (spec_pop _ (v :: q))|]. simpl. by rewrite drop_0.
  - apply Is_true_true, Z.leb_le in Ho.
    destruct (drain_into_spec i s r q max Batch_new [] Hr batch_repr_new Ho)
      as (n & i' & r' & b' & -> & H1 & H2 & H3 & H4 & H5 & Hf & _).
    simpl. rewrite (as_slice_repr b' _ H5). simpl. eexists _, _, _. split; [done|].
    split; [by apply spec_drain_into|done].
  - apply Is_true_true, Z.leb_le in Ho.
    destruct (drain_in_place_spec i s r q max (logger stop) [] Hr Ho)
      as (n & i' & r' & log & m & p & H1 & H2 & H3 & H4 & -> & H5 & Hf & _).
    pose proof (feed_logger stop [] (take n q) ltac:(simpl; lia)) as Hl. rewrite H4 in Hl.
    pose proof (feed_count (logger stop) [] (take n q)) as Hc. rewrite H4 in Hc.
    rewrite length_take_le in Hc by done. destruct Hl as (-> & Hl1 & Hl2). simpl in *.
    rewrite take_take, Nat.min_l by lia. eexists _, _, _. split; [done|].
    split; [|done]. apply spec_drain; [lia..|]. intros Hq Hmx. apply Hl2.
    specialize (H3 Hq Hmx). destruct q, n; simpl; (done || lia).
Qed.

Lemma ring_run_spec c q os :
  ring_repr (ch_inner c) (ch_tx c) (ch_rx c) q -> forallb op_ok os ->
  exists xs c' q', ring_run c os = OK (xs, c') /\ fifo_spec_run (cap (ch_inner c)) q os xs q' /\
    ring_repr (ch_inner c') (ch_tx c') (ch_rx c') q'.
Proof.
  revert c q. induction os as [|o os IH]; intros c q Hr Ho; simpl in *.
  - eexists _, _, _. split; [done|]. split; [constructor|done].
  - apply andb_prop_elim in Ho as [Ho Hos].
    destruct (ring_step_spec c q o Hr Ho) as (x & c1 & q1 & -> & Hs & Hr1 & Hcap). simpl.
    destruct (IH c1 q1 Hr1 Hos) as (xs & c2 & q2 & -> & Hs2 & Hr2). simpl.
    eexists _, _, _. split; [done|]. split; [|done]. rewrite Hcap in Hs2. by econstructor.
Qed.

(** Values offered by a producer, one [try_push] each. *)
Definition push_each (vs : list T) : list ring_op := map RPush vs.
End client.
Arguments ring_op T : clear implicits.
Arguments ring_obs T : clear implicits.

(** ** Properties *)

(** C1: a ring built by [build] implements a bounded FIFO queue for every
    sequence of calls of any length (cursor wrap-around included): no call
    panics or touches a slot it does not own, [try_push] is refused exactly
    when the queue holds [cap] values, bulk calls move a prefix in order, and a
    panicking drain callback loses nothing but the values it was handed. *)
Theorem ring_refines_bounded_fifo {T} (size_T capacity : Z) (i : Inner T) (os : list (ring_op T)) :
  build size_T capacity = OK i -> forallb op_ok os ->
  exists xs c' q', ring_run (mkChan i (mkSender 0) (mkReceiver 0)) os = OK (xs, c') /\
    fifo_spec_run (cap i) [] os xs q'.
Proof.
  intros Hb Ho. destruct (build_spec _ _ _ Hb) as (Hr & _).
  destruct (ring_run_spec (mkChan i (mkSender 0) (mkReceiver 0)) [] os Hr Ho)
    as (xs & c' & q' & H1 & H2 & _). by exists xs, c', q'.
Qed.

Lemma ring_refines_bounded_fifo_witness :
  exists xs c' q',
    ring_run (mkChan (mkInner (replicate 4 None) 3 4 0 0 None false false) (mkSender 0) (mkReceiver 0))
      [RPushFrom 9 [1; 2; 3; 4; 5]; RPush 6; RPop; RPush 7; RDrain 3 1; RDrainInto 9]%Z = OK (xs, c') /\
    fifo_spec_run 4 [] [RPushFrom 9 [1; 2; 3; 4; 5]; RPush 6; RPop; RPush 7; RDrain 3 1; RDrainInto 9]%Z xs q'.
Proof.
  apply (ring_refines_bounded_fifo 8 3 (mkInner (replicate 4 None) 3 4 0 0 None false false));
    [vm_compute; reflexivity|exact I].
Defined.

(** The sender leaves first. *)
Lemma drop_sender_first {T} (i : Inner T) (s : Sender) (r : Receiver) (q : list T) :
  ring_repr i s r q ->
  exists i2, drop_sender (mkPair (Some i) (Some s) (Some r)) = OK ([], mkPair (Some i2) None (Some r)) /\
    producer_gone i2 = true /\
    drop_receiver (mkPair (Some i2) None (Some r)) = OK (q, mkPair None None None).
Proof.
  intros Hr. pose proof (repr_producer_gone _ _ _ _ true Hr) as Hr0. eexists. split; [done|]. split; [done|].
  unfold drop_receiver. cbn [p_inner p_rx p_tx]. rewrite (used_spec _ _ _ _ Hr0), Nat2Z.id.
  destruct (pop_all_spec _ _ _ _ (repr_consumer_gone _ _ _ _ true Hr0)) as (i1 & r1 & -> & Hr2 & _).
  cbn [mbind outcome_bind]. unfold release. cbn [p_inner p_rx p_tx]. rewrite (inner_drop_spec _ _ _ _ Hr2).
  cbn [mbind outcome_bind]. by rewrite app_nil_r.
Qed.

(** C30: teardown destroys every resident value exactly once, in either order.
    Dropping the receiver first destroys the unread queue in order; values a
    racing producer still gets accepted afterwards ([push_each vs]) are destroyed
    by the final drop of the allocation, which happens with the sender, and
    nothing else is. Dropping the sender first destroys nothing, and the receiver
    then destroys the queue and the allocation goes with it. *)
Theorem teardown_drops_every_value {T} (i : Inner T) (s : Sender) (r : Receiver) (q vs : list T) :
  ring_repr i s r q -> Z.of_nat (length vs) <= cap i ->
  exists i1 xs c2,
    drop_receiver (mkPair (Some i) (Some s) (Some r)) = OK (q, mkPair (Some i1) (Some s) None) /\
    is_consumer_gone i1 = true /\
    ring_run (mkChan i1 s r) (push_each vs) = OK (xs, c2) /\
    Forall (fun x => x = Accepted 1 []) xs /\
    drop_sender (mkPair (Some (ch_inner c2)) (Some (ch_tx c2)) None) =
      OK (vs, mkPair None None None) /\
    exists i2, drop_sender (mkPair (Some i) (Some s) (Some r)) = OK ([], mkPair (Some i2) None (Some r)) /\
      producer_gone i2 = true /\
      drop_receiver (mkPair (Some i2) None (Some r)) = OK (q, mkPair None None None).
Proof.
  intros Hr Hv. pose proof (drop_sender_first i s r q Hr) as Hfirst. unfold drop_receiver. cbn [p_inner p_rx p_tx]. rewrite (used_spec _ _ _ _ Hr), Nat2Z.id.
  pose proof (repr_consumer_gone _ _ _ _ true Hr) as Hr1.
  destruct (pop_all_spec _ _ _ _ Hr1) as (i1 & r1 & -> & Hr2 & Hf). simpl.
  unfold release. simpl. rewrite app_nil_r.
  assert (forall (l : list T) c p, ring_repr (ch_inner c) (ch_tx c) r1 p ->
    Z.of_nat (length p + length l) <= cap (ch_inner c) ->
    exists xs c2, ring_run c (push_each l) = OK (xs, c2) /\ Forall (fun x => x = Accepted 1 []) xs /\
      ring_repr (ch_inner c2) (ch_tx c2) r1 (p ++ l)) as Hpush.
  { induction l as [|v l IH]; intros [i0 s0 r0] p Hp Hl; simpl in *.
    - eexists _, _. rewrite app_nil_r. done.
    - pose proof (try_push_spec i0 s0 r1 p v Hp) as Ht.
      destruct (Z.ltb_spec (Z.of_nat (length p)) (cap i0)); [|lia].
      destruct Ht as (i' & s' & -> & Hp' & Hcap & _). simpl.
      destruct (IH (mkChan i' s' r0) (p ++ [v]) Hp') as (xs & c2 & Hrun & Hx & Hp2);
        [rewrite length_app; simpl; lia|].
      rewrite Hrun. simpl. eexists _, _. split; [done|].
      split; [by constructor|]. by rewrite <- app_assoc in Hp2. }
  destruct Hf as (Hcap & _ & _ & Hcg). simpl in *.
  destruct (Hpush vs (mkChan i1 s r) [] Hr2 ltac:(simpl; lia)) as (xs & c2 & Hrun & Hx & Hp2).
  exists i1, xs, c2. splits. unfold drop_sender. simpl. unfold release. simpl.
  by rewrite (inner_drop_spec _ _ _ _ (repr_producer_gone _ _ _ _ true Hp2)).
Qed.

Definition ring_example : Inner Z :=
  mkInner [Some 5; None; None; Some 4] 3 4 7 9 None false false.

Lemma ring_example_repr : ring_repr ring_example (mkSender 6) (mkReceiver 8) [4; 5].
Proof. exists 2, 7, 6, 8. by split. Defined.

Lemma teardown_drops_every_value_witness :
  exists i1 xs c2,
    drop_receiver (mkPair (Some ring_example) (Some (mkSender 6)) (Some (mkReceiver 8))) =
      OK ([4; 5], mkPair (Some i1) (Some (mkSender 6)) None) /\
    is_consumer_gone i1 = true /\
    ring_run (mkChan i1 (mkSender 6) (mkReceiver 8)) (push_each [1; 2; 3]) = OK (xs, c2) /\
    Forall (fun x => x = Accepted 1 []) xs /\
    drop_sender (mkPair (Some (ch_inner c2)) (Some (ch_tx c2)) None) =
      OK ([1; 2; 3], mkPair None None None) /\
    exists i2, drop_sender (mkPair (Some ring_example) (Some (mkSender 6)) (Some (mkReceiver 8))) =
        OK ([], mkPair (Some i2) None (Some (mkReceiver 8))) /\
      producer_gone i2 = true /\
      drop_receiver (mkPair (Some i2) None (Some (mkReceiver 8))) = OK ([4; 5], mkPair None None None).
Proof.
  apply (teardown_drops_every_value ring_example (mkSender 6) (mkReceiver 8) [4; 5] [1; 2; 3]);
    [exact ring_example_repr|simpl; lia].
Defined.

(** Recycling a finished ring gives back a pristine ring on the same
    buffer, whatever its cursors were; while a producer is alive it is refused
    and changes nothing. *)
Theorem recycle_pristine {T} (i : Inner T) (s : Sender) (r : Receiver) (q : list T) :
  ring_repr i s r q ->
  recycle (mkPair (Some i) (Some s) (Some r)) = OK (None, mkPair (Some i) (Some s) (Some r)) /\
  (is_finished i = true ->
   exists i', recycle (mkPair (Some i) None (Some r)) =
       OK (Some (mkSender 0), mkPair (Some i') (Some (mkSender 0)) (Some (mkReceiver 0))) /\
     ring_repr i' (mkSender 0) (mkReceiver 0) [] /\ cap i' = cap i /\
     producer_gone i' = false /\ consumer_gone i' = consumer_gone i).
Proof.
  intros Hr. split; [done|]. intros Hf. unfold is_finished in Hf.
  apply andb_prop in Hf as [_ He]. rewrite (is_empty_spec _ _ _ _ Hr) in He.
  apply bool_decide_eq_true in He. subst q. destruct Hr as (k & h & hc & tc & H).
  pose proof (rg_cap_pos _ _ _ _ _ _ _ _ H). eexists. split; [done|]. split; [|done].
  exists k, 0, 0, 0. destruct H. split; simpl; try done.
  lia.
Qed.

Definition finished_example : Inner Z :=
  mkInner [None; None; None; None] 3 4 9 9 None true false.

Lemma recycle_pristine_witness :
  exists i', recycle (mkPair (Some finished_example) None (Some (mkReceiver 9))) =
      OK (Some (mkSender 0), mkPair (Some i') (Some (mkSender 0)) (Some (mkReceiver 0))) /\
    ring_repr i' (mkSender 0) (mkReceiver 0) [] /\ cap i' = 4.
Proof.
  assert (ring_repr finished_example (mkSender 9) (mkReceiver 9) []) as Hr
    by (exists 2, 9, 9, 9; by split).
  destruct (proj2 (recycle_pristine finished_example (mkSender 9) (mkReceiver 9) [] Hr) eq_refl)
    as (i' & H1 & H2 & H3 & _). by exists i'.
Defined.

(** The production bulk drain (one reservation, at most two raw spans)
    is the same function as the callback drain it replaces under the model
    checker: same count, same ring, same destination. *)
Lemma drain_into_is_callback_drain {T} (i : Inner T) (s : Sender) (r : Receiver) (q l : list T)
    (max : Z) (out : Batch T) :
  ring_repr i s r q -> batch_repr out l -> 0 <= max ->
  drain_into i r max out =
    ('(fl, i', r', out') ← drain_in_place i r max (fun o v => (push_back o v, false)) out;
     match fl with Returned n => OK (n, i', r', out') | Unwound => PANIC end).
Proof.
  intros (k & h & hc & tc & H) Hb Hm. pose proof (rg_cap_pos _ _ _ _ _ _ _ _ H) as Hc.
  destruct (refresh_tail_spec _ _ _ _ _ _ _ _ H) as (tc' & H' & Hw & He).
  pose proof (rg_order _ _ _ _ _ _ _ _ H') as Ho. unfold drain_into, drain_in_place. rewrite Hw.
  destruct (Z.eqb_spec (tc' - h) 0) as [Hz|Hz].
  { rewrite Hz, Z.min_l by lia. done. }
  remember (Z.to_nat (Z.min (tc' - h) max)) as n eqn:Hn.
  replace (Z.min (tc' - h) max) with (Z.of_nat n) by lia.
  pose proof (drain_slots_spec k (cap i) n i h 0 q (fun o v => (push_back o v, false)) out) as Hd.
  destruct (feed_push_back out l (take n q) Hb) as (out' & Hf & Hb'). rewrite Hf in Hd.
  rewrite <- (rg_head _ _ _ _ _ _ _ _ H), Z.add_0_r, length_take_le in Hd by lia.
  rewrite Hd; clear Hd; [|try apply H; lia..]. simpl.
  assert (out' = mkBatch (values out ++ (Some <$> take n q)) (read out)) as ->.
  { clear -Hf. revert out Hf. induction (take n q) as [|v p IH]; intros o Hf; simpl in *.
    - simplify_eq. rewrite app_nil_r. by destruct out'.
    - destruct (feed _ _ p) as [[o2 kk] pp] eqn:E. simplify_eq.
      rewrite (IH _ E). simpl. by rewrite <- app_assoc. }
  destruct (Z.eqb_spec (Z.of_nat n) 0) as [Hn0|Hn0].
  - replace n with O by lia. simpl. rewrite app_nil_r, drop_0, Z.add_0_r.
    destruct H. rewrite <- rg_buf0. unfold wrapping_add.
    rewrite Z.add_0_r, rg_head0, Z.mod_mod, <- rg_head0 by done. by destruct i, out.
  - destruct (Z.eqb_spec (Z.of_nat n) 1) as [Hn1|Hn1].
    + destruct q as [|v q]; [simpl in *; lia|]. assert (n = 1%nat) as -> by lia.
      rewrite (slot_take_spec (buf i) i (cap i) h (head i) v q); [done|lia|apply H|simpl in *; lia|].
      rewrite (rg_head _ _ _ _ _ _ _ _ H). by eapply masked.
    + by rewrite (copy_out_spec _ _ _ _ _ _ _ _ n H) by lia.
Qed.

Lemma drain_into_is_callback_drain_witness :
  drain_into ring_example (mkReceiver 8) 2 Batch_new =
    ('(fl, i', r', out') ← drain_in_place ring_example (mkReceiver 8) 2
        (fun o v => (push_back o v, false)) Batch_new;
     match fl with Returned n => OK (n, i', r', out') | Unwound => PANIC end).
Proof.
  apply (drain_into_is_callback_drain ring_example (mkSender 6) (mkReceiver 8) [4; 5] []);
    [exact ring_example_repr|exact batch_repr_new|lia].
Defined.

(** The production bulk push (at most two raw spans) writes the same
    slots and consumes the same source cells as the tracked loop that pops and
    writes one value at a time, for every number of values that fits. *)
Theorem copy_in_is_tracked_loop {T} (i : Inner T) (s : Sender) (r : Receiver) (q l : list T)
    (n : nat) (b : Batch T) :
  ring_repr i s r q -> batch_repr b l -> (n <= length l)%nat ->
  Z.of_nat (length q + n) <= cap i ->
  copy_in_tracked n i (tail i) 0 b =
    (bf ← copy_in i (tail i) (Z.of_nat n) b;
     OK (set_buf i bf, mkBatch (moved_out (values b) (read b) (Z.of_nat n)) (read b + Z.of_nat n))).
Proof.
  intros (k & h & hc & tc & H) Hb Hn Hfit. by eapply ring_ghost_copy.
Qed.

Lemma copy_in_is_tracked_loop_witness :
  copy_in_tracked 2 ring_example 9 0 (mkBatch [None; Some 6; Some 7] 1) =
    OK (mkInner [Some 5; Some 6; Some 7; Some 4] 3 4 7 9 None false false, mkBatch [None; None; None] 3).
Proof.
  exact (copy_in_is_tracked_loop ring_example (mkSender 6) (mkReceiver 8) [4; 5] [6; 7] 2
    (mkBatch [None; Some 6; Some 7] 1) ring_example_repr ltac:(by split)
    ltac:(simpl; lia) ltac:(simpl; lia)).
Defined.

End ring.
