(* ===== verification/RingConc.v ===== *)
(** * The ring under interleaving: [src/src/backend/ring.rs]

    The producer and the consumer of one ring as two programs that take turns
    at single shared accesses: the cursor check (at most one load of the peer's
    cursor), each slot write or read, the publishing store of [tail], the
    releasing store of [head], and the two loads of [is_finished]. The slot
    accesses of [try_push] are the one-value case of [push_from], and those of
    [try_pop] the [max = 1] case of the drains. [ERelease] before the reads are
    done is the commit guard running on a panicking callback.

    Memory is sequentially consistent here: the acquire loads and release
    stores of the code are what lets each endpoint treat the other's slot
    accesses as finished before the cursor it has seen. *)

From stdpp Require Import prelude.
From S2P Require Import Prelude BackendRing.
Import ring.
Local Open Scope Z_scope.

Module ring_conc.

Inductive ppc (T : Type) : Type :=
| PIdle
| PWrite (todo written : list T)
| PGone.
Arguments PIdle {T}.
Arguments PWrite {T} todo written.
Arguments PGone {T}.

Inductive cpc (T : Type) : Type :=
| CIdle
| CRead (left : nat) (got : list T)
| CSawGone
| CFinished.
Arguments CIdle {T}.
Arguments CRead {T} left got.
Arguments CSawGone {T}.
Arguments CFinished {T}.

Record state (T : Type) := mkState {
  inner : Inner T;
  tx : Sender;
  rx : Receiver;
  producer : ppc T;
  consumer : cpc T;
  sent : list T;   (* every value published so far *)
  recvd : list T   (* every value handed to the consumer and released *)
}.
Arguments mkState {T} inner tx rx producer consumer sent recvd.
Arguments inner {T} s.
Arguments tx {T} s.
Arguments rx {T} s.
Arguments producer {T} s.
Arguments consumer {T} s.
Arguments sent {T} s.
Arguments recvd {T} s.

Inductive event (T : Type) : Type :=
| ESubmit (items : list T)    (* push_from / try_push up to the cursor check *)
| EWrite
| EPublish
| EDropSender
| EDrain (max : Z)            (* a drain up to the cursor check *)
| ERead
| ERelease
| ELoadGone                   (* is_finished: load of producer_gone *)
| ELoadTail.                  (* is_finished: the is_empty test *)
Arguments ESubmit {T} items.
Arguments EWrite {T}.
Arguments EPublish {T}.
Arguments EDropSender {T}.
Arguments EDrain {T} max.
Arguments ERead {T}.
Arguments ERelease {T}.
Arguments ELoadGone {T}.
Arguments ELoadTail {T}.

Section machine.
Context {T : Type}.
Implicit Types s : state T.

(** [None]: the event is not enabled in this state. *)
Definition step s (e : event T) : option (outcome (state T)) :=
  let '(mkState i t r p c sn rc) := s in
  match e, p, c with
  | ESubmit items, PIdle, _ =>
      let t1 := refresh_head i t in
      Some (room ← sub_usize (cap i) (wrapping_sub (tail i) (head_cache t1));
            let n := Z.min (Z.of_nat (length items)) room in
            OK (mkState i t1 r (if n =? 0 then PIdle else PWrite (take (Z.to_nat n) items) []) c sn rc))
  | EWrite, PWrite (v :: todo) w, _ =>
      Some (i1 ← slot_write i (wrapping_add (tail i) (Z.of_nat (length w))) v;
            OK (mkState i1 t r (PWrite todo (w ++ [v])) c sn rc))
  | EPublish, PWrite [] w, _ =>
      Some (OK (mkState (store_tail i (wrapping_add (tail i) (Z.of_nat (length w))))
                        t r PIdle c (sn ++ w) rc))
  | EDropSender, PIdle, _ =>
      Some (OK (mkState (store_producer_gone i true) t r PGone c sn rc))
  | EDrain max, _, CIdle =>
      let r1 := refresh_tail i r in
      let n := Z.min (wrapping_sub (tail_cache r1) (head i)) max in
      Some (OK (mkState i t r1 p (if n <=? 0 then CIdle else CRead (Z.to_nat n) []) sn rc))
  | ERead, _, CRead (S n) got =>
      Some ('(v, i1) ← slot_take i (wrapping_add (head i) (Z.of_nat (length got)));
            OK (mkState i1 t r p (CRead n (got ++ [v])) sn rc))
  | ERelease, _, CRead _ got =>
      Some (OK (mkState (store_head i (wrapping_add (head i) (Z.of_nat (length got))))
                        t r p CIdle sn (rc ++ got)))
  | ELoadGone, _, CIdle =>
      Some (OK (mkState i t r p (if producer_gone i then CSawGone else CIdle) sn rc))
  | ELoadTail, _, CSawGone =>
      Some (OK (mkState i t r p (if is_empty i then CFinished else CIdle) sn rc))
  | _, _, _ => None
  end.

Definition init (i : Inner T) : state T :=
  mkState i (mkSender 0) (mkReceiver 0) PIdle CIdle [] [].

Inductive reachable (i : Inner T) : state T -> Prop :=
| reach_init : reachable i (init i)
| reach_step s e s' : reachable i s -> step s e = Some (OK s') -> reachable i s'.

(** ** The invariant *)

Definition writing s : list T := match producer s with PWrite _ w => w | _ => [] end.
Definition to_write s : list T := match producer s with PWrite todo _ => todo | _ => [] end.
Definition reading s : list T := match consumer s with CRead _ got => got | _ => [] end.
Definition to_read s : nat := match consumer s with CRead n _ => n | _ => O end.

(** [h] counts released slots, [m = length (reading s)] slots are read and not
    released, [q] is published and unread, [writing s] is written and not
    published. *)
Record inv_at s (q : list T) (k h hc tc : Z) : Prop := {
  ci_k : 0 <= k < 64;
  ci_cap : cap (inner s) = 2 ^ k;
  ci_mask : mask (inner s) = cap (inner s) - 1;
  ci_buf : buf (inner s) =
    content (cap (inner s)) (h + Z.of_nat (length (reading s))) (q ++ writing s);
  ci_head : head (inner s) = h mod USIZE;
  ci_tail : tail (inner s) = (h + Z.of_nat (length (reading s) + length q)) mod USIZE;
  ci_hc : head_cache (tx s) = hc mod USIZE;
  ci_tc : tail_cache (rx s) = tc mod USIZE;
  ci_order1 : hc <= h /\ h + Z.of_nat (length (reading s) + to_read s) <= tc;
  ci_order2 : tc <= h + Z.of_nat (length (reading s) + length q);
  ci_room : h + Z.of_nat (length (reading s) + length q + length (writing s) + length (to_write s))
            <= hc + cap (inner s);
  ci_hist : sent s = recvd s ++ reading s ++ q;
  ci_gone : producer_gone (inner s) = true -> producer s = PGone;
  ci_saw : consumer s = CSawGone -> producer s = PGone;
  ci_fin : consumer s = CFinished -> producer s = PGone /\ q = []
}.

Definition inv s : Prop := exists q k h hc tc, inv_at s q k h hc tc.

Lemma inv_init size_T capacity i : build size_T capacity = OK i -> inv (init i).
Proof.
  intros Hb. destruct (build_spec _ _ _ Hb) as ((k & h & hc & tc & H) & _ & Hp & _).
  exists [], k, h, hc, tc. destruct H. simpl in *. rewrite Z.add_0_r in *.
  split; simpl; rewrite ?Z.add_0_r; try done; lia || congruence.
Qed.

Lemma masked_cursor i (k x : Z) :
  0 <= k < 64 -> cap i = 2 ^ k -> mask i = cap i - 1 ->
  Z.land (x mod USIZE) (mask (i : Inner T)) = x mod cap i.
Proof. intros Hk Hc ->. rewrite Hc, land_mask, mod_usize_pow2 by lia. done. Qed.

(** Expose the windows of a concrete state. *)
Ltac windows := unfold reading, writing, to_write, to_read in *; simpl in *.

(** Close a lifecycle clause that the invariant already excludes. *)
Ltac excluded :=
  intros E; exfalso; match goal with G : _ -> _ |- _ => apply G in E; by destruct_and? E end.

Lemma inv_submit i t r c sn rc items :
  inv (mkState i t r PIdle c sn rc) ->
  exists s', step (mkState i t r PIdle c sn rc) (ESubmit items) = Some (OK s') /\ inv s'.
Proof.
  intros (q & k & h & hc & tc & H). pose proof (cap_range k (ci_k _ _ _ _ _ _ H)) as Hcr.
  destruct H. windows.
  set (m := match c with CRead _ got => got | _ => [] end) in *.
  set (tl := h + Z.of_nat (length m + length q)) in *. assert (hc <= tl <= hc + cap i) as Hu by lia.
  assert (forall x, x <= tl <= x + cap i -> wrapping_sub (tail i) (x mod USIZE) = tl - x) as Hw.
  { intros x Hx. rewrite ci_tail0. apply wrapping_sub_cursor. lia. }
  assert (exists hc', head_cache (refresh_head i t) = hc' mod USIZE /\ hc <= hc' <= h) as (hc' & Hc' & Hle).
  { unfold refresh_head. destruct (cached_full i t); [exists h|exists hc]; splits. }
  rewrite Hc', Hw, sub_usize_le by lia. simpl. eexists. split; [done|].
  set (n := Z.min _ _). exists q, k, h, hc', tc.
  destruct (Z.eqb_spec n 0); split; windows; try done; rewrite ?length_take; fold m; try lia.
  all: excluded.
Qed.

Lemma inv_write i t r v todo w c sn rc :
  inv (mkState i t r (PWrite (v :: todo) w) c sn rc) ->
  exists s', step (mkState i t r (PWrite (v :: todo) w) c sn rc) EWrite = Some (OK s') /\ inv s'.
Proof.
  intros (q & k & h & hc & tc & H). pose proof (cap_range k (ci_k _ _ _ _ _ _ H)) as Hcr.
  destruct H. windows.
  unfold slot_write. rewrite ci_tail0, wrapping_add_cursor, (masked_cursor i k), ci_buf0 by done.
  set (m := match c with CRead _ got => got | _ => [] end) in *.
  rewrite set_unchecked_in.
  2:{ rewrite content_length. match goal with |- _ <= ?x mod _ < _ => pose proof (slot_bound (cap i) ltac:(lia) x) end. lia. }
  rewrite content_snoc; [|lia|rewrite length_app; lia|rewrite length_app; lia].
  simpl. eexists. split; [done|]. exists q, k, h, hc, tc.
  split; windows; try done; try excluded; [by rewrite <- app_assoc|]. rewrite length_app. simpl. fold m. lia.
Qed.

Lemma inv_publish i t r w c sn rc :
  inv (mkState i t r (PWrite [] w) c sn rc) ->
  exists s', step (mkState i t r (PWrite [] w) c sn rc) EPublish = Some (OK s') /\ inv s'.
Proof.
  intros (q & k & h & hc & tc & H). destruct H.
  windows.
  set (m := match c with CRead _ got => got | _ => [] end) in *.
  eexists. split; [done|]. exists (q ++ w), k, h, hc, tc.
  split; windows; fold m; rewrite ?length_app, ?app_nil_r; try done; try lia; try excluded.
  - rewrite ci_tail0, wrapping_add_cursor. f_equal. lia.
  - by rewrite ci_hist0, <- !app_assoc.
Qed.

Lemma inv_drop_sender i t r c sn rc :
  inv (mkState i t r PIdle c sn rc) ->
  exists s', step (mkState i t r PIdle c sn rc) EDropSender = Some (OK s') /\ inv s'.
Proof.
  intros (q & k & h & hc & tc & H). destruct H. eexists. split; [done|].
  exists q, k, h, hc, tc. split; windows; try done; excluded.
Qed.

Lemma inv_drain i t r p sn rc max :
  inv (mkState i t r p CIdle sn rc) ->
  exists s', step (mkState i t r p CIdle sn rc) (EDrain max) = Some (OK s') /\ inv s'.
Proof.
  intros (q & k & h & hc & tc & H). pose proof (cap_range k (ci_k _ _ _ _ _ _ H)) as Hcr.
  destruct H. windows.
  assert (forall x, h <= x <= h + Z.of_nat (length q) ->
    wrapping_sub (x mod USIZE) (head i) = x - h) as Hw.
  { intros x Hx. rewrite ci_head0. apply wrapping_sub_cursor. destruct p; simpl in *; lia. }
  assert (exists tc', tail_cache (refresh_tail i r) = tc' mod USIZE /\ tc <= tc' <= h + Z.of_nat (length q))
    as (tc' & Hc' & Hle).
  { unfold refresh_tail. destruct (wrapping_sub _ _ =? 0); [exists (h + Z.of_nat (length q))|exists tc]; splits. }
  rewrite Hc', Hw by lia. eexists. split; [done|]. set (n := Z.min _ _).
  exists q, k, h, hc, tc'. destruct (Z.leb_spec n 0); split; windows; try done; lia.
Qed.

Lemma inv_read i t r p n got sn rc :
  inv (mkState i t r p (CRead (S n) got) sn rc) ->
  exists s', step (mkState i t r p (CRead (S n) got) sn rc) ERead = Some (OK s') /\ inv s'.
Proof.
  intros (q & k & h & hc & tc & H). pose proof (cap_range k (ci_k _ _ _ _ _ _ H)) as Hcr.
  destruct H. windows.
  set (w := match p with PWrite _ w => w | _ => [] end) in *.
  destruct q as [|v q]; [simpl in *; lia|].
  rewrite (slot_take_spec (buf i) i (cap i) (h + Z.of_nat (length got)) _ v (q ++ w));
    [|lia|done|simpl in *; rewrite length_app; lia|].
  2:{ rewrite ci_head0, wrapping_add_cursor. by apply (masked_cursor i k). }
  simpl. eexists. split; [done|]. exists q, k, h, hc, tc.
  split; windows;
    rewrite ?length_app; simpl; try done; try lia.
  - f_equal. lia.
  - rewrite ci_tail0. f_equal. lia.
  - fold w. lia.
  - by rewrite ci_hist0, <- !app_assoc.
Qed.

Lemma inv_release i t r p n got sn rc :
  inv (mkState i t r p (CRead n got) sn rc) ->
  exists s', step (mkState i t r p (CRead n got) sn rc) ERelease = Some (OK s') /\ inv s'.
Proof.
  intros (q & k & h & hc & tc & H). destruct H.
  windows.
  eexists. split; [by destruct n|].
  exists q, k, (h + Z.of_nat (length got)), hc, tc.
  split; windows; try done; try lia.
  - by rewrite Z.add_0_r.
  - by rewrite ci_head0, wrapping_add_cursor.
  - rewrite ci_tail0. f_equal. lia.
  - by rewrite ci_hist0, <- app_assoc.
Qed.

Lemma inv_load_gone i t r p sn rc :
  inv (mkState i t r p CIdle sn rc) ->
  exists s', step (mkState i t r p CIdle sn rc) ELoadGone = Some (OK s') /\ inv s'.
Proof.
  intros (q & k & h & hc & tc & H). destruct H. simpl in *. eexists. split; [done|].
  exists q, k, h, hc, tc. destruct (producer_gone i) eqn:E; split; windows; rewrite ?E; try done; auto.
Qed.

Lemma inv_load_tail i t r p sn rc :
  inv (mkState i t r p CSawGone sn rc) ->
  exists s', step (mkState i t r p CSawGone sn rc) ELoadTail = Some (OK s') /\ inv s'.
Proof.
  intros (q & k & h & hc & tc & H). pose proof (cap_range k (ci_k _ _ _ _ _ _ H)) as Hcr.
  destruct H. windows.
  pose proof (ci_saw0 eq_refl) as ->.
  assert (is_empty i = true -> q = []) as He.
  { unfold is_empty. rewrite ci_head0, ci_tail0, cursor_eqb by lia. intros Hz%Z.eqb_eq.
    apply nil_length_inv. lia. }
  eexists. split; [done|]. exists q, k, h, hc, tc.
  destruct (is_empty i); split; simpl; try done. auto.
Qed.

(** No enabled event panics or touches a slot it does not own, and every event
    keeps the invariant. *)
Lemma inv_step s e o : inv s -> step s e = Some o -> exists s', o = OK s' /\ inv s'.
Proof.
  destruct s as [i t r p c sn rc]. intros Hi Hs.
  assert (forall s', step (mkState i t r p c sn rc) e = Some (OK s') -> inv s' ->
    exists s'', o = OK s'' /\ inv s'') as Hk by (intros s' E ?; exists s'; split; [congruence|done]).
  destruct e, p as [|[|v todo] w|], c as [|[|n] got| |]; try done;
    first [ edestruct inv_submit as (s' & E & ?); [exact Hi|by eapply Hk]
          | edestruct inv_write as (s' & E & ?); [exact Hi|by eapply Hk]
          | edestruct inv_publish as (s' & E & ?); [exact Hi|by eapply Hk]
          | edestruct inv_drop_sender as (s' & E & ?); [exact Hi|by eapply Hk]
          | edestruct inv_drain as (s' & E & ?); [exact Hi|by eapply Hk]
          | edestruct inv_read as (s' & E & ?); [exact Hi|by eapply Hk]
          | edestruct inv_release as (s' & E & ?); [exact Hi|by eapply Hk]
          | edestruct inv_load_gone as (s' & E & ?); [exact Hi|by eapply Hk]
          | edestruct inv_load_tail as (s' & E & ?); [exact Hi|by eapply Hk] ].
Qed.

Lemma inv_reachable size_T capacity i s :
  build size_T capacity = OK i -> reachable i s -> inv s.
Proof.
  intros Hb Hr. induction Hr as [|s e s' Hr IH Hs]; [by eapply inv_init|].
  destruct (inv_step s e _ IH Hs) as (s'' & [= <-] & ?). done.
Qed.

(** A run of events, for concrete schedules. *)
Fixpoint run s (es : list (event T)) : option (state T) :=
  match es with
  | [] => Some s
  | e :: es' => match step s e with Some (OK s') => run s' es' | _ => None end
  end.

Lemma run_reachable i s es s' : reachable i s -> run s es = Some s' -> reachable i s'.
Proof.
  revert s. induction es as [|e es IH]; intros s Hr Hs; simpl in Hs; [by simplify_eq|].
  destruct (step s e) as [[s1| |]|] eqn:E; try done. eapply IH; [|done]. by econstructor.
Qed.
End machine.

(** ** Properties *)

(** C3: in every interleaving of the two endpoints of a built ring, no
    enabled access panics or is undefined behaviour (no read of a slot that is
    not published, no unchecked index out of range), and when a slot write and
    a slot read are both enabled they address different slots. *)
Theorem conc_no_race {T} (size_T capacity : Z) (i : Inner T) (s : state T) :
  build size_T capacity = OK i -> reachable i s ->
  (forall e o, step s e = Some o -> exists s', o = OK s') /\
  (forall v todo w n got, producer s = PWrite (v :: todo) w -> consumer s = CRead (S n) got ->
     Z.land (wrapping_add (tail (inner s)) (Z.of_nat (length w))) (mask (inner s)) <>
     Z.land (wrapping_add (head (inner s)) (Z.of_nat (length got))) (mask (inner s))).
Proof.
  intros Hb Hr. pose proof (inv_reachable _ _ _ _ Hb Hr) as Hi. split.
  - intros e o Hs. destruct (inv_step s e o Hi Hs) as (s' & ? & _). by exists s'.
  - intros v todo w n got Hp Hc. destruct Hi as (q & k & h & hc & tc & H).
    pose proof (cap_range k (ci_k _ _ _ _ _ _ H)) as Hcr.
    destruct H. unfold reading, writing, to_write, to_read in *. rewrite Hp, Hc in *. simpl in *.
    rewrite ci_tail0, ci_head0, !wrapping_add_cursor, !(masked_cursor (inner s) k) by done.
    intros E. apply mod_inj in E; lia.
Qed.

Definition conc_schedule : list (event Z) :=
  [ESubmit [1; 2]; EWrite; EWrite; EPublish; EDrain 1; ESubmit [3]; ERead; ERelease;
   ESubmit [4]; EDrain 9].

Definition conc_ring : Inner Z := mkInner [None; None] 1 2 0 0 None false false.

Definition conc_state : state Z :=
  mkState (mkInner [None; Some 2] 1 2 1 2 None false false) (mkSender 1) (mkReceiver 2)
    (PWrite [4] []) (CRead 1 []) [1; 2] [1].

Lemma conc_state_reachable : reachable conc_ring conc_state.
Proof. apply (run_reachable conc_ring (init conc_ring) conc_schedule); [constructor|reflexivity]. Defined.

Lemma conc_no_race_witness :
  Z.land (wrapping_add (tail (inner conc_state)) 0) (mask (inner conc_state)) <>
  Z.land (wrapping_add (head (inner conc_state)) 0) (mask (inner conc_state)).
Proof.
  exact (proj2 (conc_no_race 8 2 conc_ring conc_state eq_refl conc_state_reachable)
    4 [] [] O [] eq_refl eq_refl).
Defined.

(** C2: in every interleaving the consumer has received exactly a prefix of
    what the producer published, in order and without loss or duplication
    (values read and not yet released included), and at most [cap] values are
    outstanding. *)
Theorem conc_fifo {T} (size_T capacity : Z) (i : Inner T) (s : state T) :
  build size_T capacity = OK i -> reachable i s ->
  (exists q, sent s = recvd s ++ reading s ++ q) /\
  Z.of_nat (length (sent s)) <= Z.of_nat (length (recvd s)) + cap (inner s).
Proof.
  intros Hb Hr. destruct (inv_reachable _ _ _ _ Hb Hr) as (q & k & h & hc & tc & H).
  destruct H. split; [by exists q|]. rewrite ci_hist0, !length_app. lia.
Qed.

Lemma conc_fifo_witness :
  (exists q, sent conc_state = recvd conc_state ++ reading conc_state ++ q) /\ 2 <= 1 + 2.
Proof. exact (conc_fifo 8 2 conc_ring conc_state eq_refl conc_state_reachable). Defined.

(** When [is_finished] has answered true, the producer is gone and every
    value it ever published has been received: no value can still arrive. *)
Lemma conc_finished_drained {T} (size_T capacity : Z) (i : Inner T) (s : state T) :
  build size_T capacity = OK i -> reachable i s -> consumer s = CFinished ->
  sent s = recvd s /\ producer s = PGone /\
  (forall items, step s (ESubmit items) = None) /\ step s EWrite = None /\ step s EPublish = None.
Proof.
  intros Hb Hr Hc. destruct (inv_reachable _ _ _ _ Hb Hr) as (q & k & h & hc & tc & H).
  destruct H. destruct (ci_fin0 Hc) as [Hp ->]. unfold reading in ci_hist0. rewrite Hc in ci_hist0.
  simpl in ci_hist0. rewrite app_nil_r in ci_hist0.
  destruct s; simpl in *; subst. splits.
Qed.
End ring_conc.
