(* ===== verification/BackendSeg.v ===== *)
(** * The unbounded segmented backend: [src/src/backend/seg.rs]

    Segments live in a heap of addresses, so that following a dangling pointer,
    freeing twice and leaking are visible: an access to an address that is not
    allocated is [UB], and the content lemmas account for every live segment.
    Addresses are never reused ([fresh] counts allocations), which only makes
    dangling accesses easier to notice. *)

From stdpp Require Import prelude gmap.
From S2P Require Import Prelude Batch Backend.
Local Open Scope Z_scope.
#[local] Set Warnings "-clear-no-such-hyp".

Module seg.

Record Segment (T : Type) := mkSegment {
  buf : list (cell T);
  published : Z;
  consumed : Z;
  next : option nat
}.
Arguments mkSegment {T} buf published consumed next.
Arguments buf {T} s.
Arguments published {T} s.
Arguments consumed {T} s.
Arguments next {T} s.

Record Shared := mkShared { sh_head : option nat; producer_gone : bool; consumer_gone : bool }.
Record SegTx := mkTx { tx_seg : nat; tx_idx : Z; tx_size : Z }.
Record SegRx := mkRx { rx_seg : nat; rx_idx : Z; rx_size : Z }.

Record Chan (T : Type) := mkChan {
  heap : gmap nat (Segment T);
  fresh : nat;
  shared : Shared;
  tx : SegTx;
  rx : SegRx
}.
Arguments mkChan {T} heap fresh shared tx rx.
Arguments heap {T} c.
Arguments fresh {T} c.
Arguments shared {T} c.
Arguments tx {T} c.
Arguments rx {T} c.

Section operations.
Context {T : Type} (size_T : Z).
Implicit Types (c : Chan T) (s : Segment T).

Definition deref (h : gmap nat (Segment T)) (a : nat) : outcome (Segment T) :=
  match h !! a with Some s => OK s | None => UB end.

(** Bounds-checked indexing. *)
Definition index (b : list (cell T)) (i : Z) : outcome (cell T) :=
  if i <? 0 then PANIC else
  match b !! Z.to_nat i with Some x => OK x | None => PANIC end.

Definition boxed (size : Z) : outcome (Segment T) :=
  if ISIZE_MAX <? size * size_T then PANIC
  else OK (mkSegment (replicate (Z.to_nat size) None) 0 0 None).

Definition channel (capacity : Z) : outcome (Chan T) :=
  let size := Z.max capacity 2 in
  s ← boxed size;
  OK (mkChan {[ O := s ]} 1 (mkShared (Some O) false false) (mkTx 0 0 size) (mkRx 0 0 size)).

(** [SegTx::try_push]: link a fresh segment behind a full one, write, publish. *)
Definition grow c : outcome (Chan T) :=
  if tx_idx (tx c) =? tx_size (tx c) then
    new ← boxed (tx_size (tx c));
    let h1 := <[fresh c := new]> (heap c) in
    s ← deref h1 (tx_seg (tx c));
    let h2 := <[tx_seg (tx c) := mkSegment (buf s) (published s) (consumed s) (Some (fresh c))]> h1 in
    OK (mkChan h2 (S (fresh c)) (shared c) (mkTx (fresh c) 0 (tx_size (tx c))) (rx c))
  else OK c.

Definition try_push c (v : T) : outcome (result unit T * Chan T) :=
  if consumer_gone (shared c) then OK (Err v, c) else
  c1 ← grow c;
  let t := tx c1 in
  s ← deref (heap c1) (tx_seg t);
  _ ← index (buf s) (tx_idx t);
  let s1 := mkSegment (<[Z.to_nat (tx_idx t) := Some v]> (buf s)) (tx_idx t + 1) (consumed s) (next s) in
  OK (Ok tt, mkChan (<[tx_seg t := s1]> (heap c1)) (fresh c1) (shared c1)
               (mkTx (tx_seg t) (tx_idx t + 1) (tx_size t)) (rx c1)).

Definition is_consumer_gone c : bool := consumer_gone (shared c).

Definition drop_tx c : Chan T :=
  mkChan (heap c) (fresh c) (mkShared (sh_head (shared c)) true (consumer_gone (shared c)))
    (tx c) (rx c).

(** [SegRx::advance]: retire the current segment when a next one is linked. *)
Definition advance c : outcome (bool * Chan T) :=
  let r := rx c in
  s ← deref (heap c) (rx_seg r);
  match next s with
  | None => OK (false, c)
  | Some n =>
      OK (true, mkChan (delete (rx_seg r) (heap c)) (fresh c)
                  (mkShared (Some n) (producer_gone (shared c)) (consumer_gone (shared c)))
                  (tx c) (mkRx n 0 (rx_size r)))
  end.

(** Move the value at the read position out of the current segment. *)
Definition take_current c : outcome (T * Chan T) :=
  let r := rx c in
  s ← deref (heap c) (rx_seg r);
  x ← index (buf s) (rx_idx r);
  v ← assume_init_read x;
  let s1 := mkSegment (<[Z.to_nat (rx_idx r) := None]> (buf s)) (published s) (consumed s) (next s) in
  OK (v, mkChan (<[rx_seg r := s1]> (heap c)) (fresh c) (shared c) (tx c)
            (mkRx (rx_seg r) (rx_idx r + 1) (rx_size r))).

(** The loop body runs at most twice: it [continue]s only after an advance, and
    a fresh segment is not at its end. *)
Fixpoint try_pop_loop (fuel : nat) c : outcome (option T * Chan T) :=
  match fuel with
  | O => UB
  | S fuel' =>
      if rx_idx (rx c) =? rx_size (rx c) then
        '(moved, c1) ← advance c;
        if (moved : bool) then try_pop_loop fuel' c1 else OK (None, c1)
      else
        s ← deref (heap c) (rx_seg (rx c));
        if rx_idx (rx c) <? published s then
          '(v, c1) ← take_current c; OK (Some v, c1)
        else OK (None, c)
  end.
Definition try_pop c : outcome (option T * Chan T) := try_pop_loop 2 c.

(** The inner [for] of [drain_in_place]: the position moves before the callback
    runs, so a panic leaves the handed-over slot behind. *)
Fixpoint drain_segment {S} (n : nat) c (f : callback S T) (st : S) (done : Z)
    : outcome (Chan T * S * Z * bool) :=
  match n with
  | O => OK (c, st, done, false)
  | Datatypes.S n' =>
      '(v, c1) ← take_current c;
      let '(st1, panicked) := f st v in
      if panicked then OK (c1, st1, done + 1, true)
      else drain_segment n' c1 f st1 (done + 1)
  end.

(** Each turn of the outer loop empties one segment or ends it, so the number of
    live segments bounds it. *)
Fixpoint drain_loop {S} (fuel : nat) c (max : Z) (f : callback S T) (st : S) (done : Z)
    : outcome (flow Z * Chan T * S) :=
  match fuel with
  | O => UB
  | Datatypes.S fuel' =>
      if done <? max then
        '(stop, c1) ← (if rx_idx (rx c) =? rx_size (rx c)
                       then '(moved, c1) ← advance c; OK (negb moved, c1)
                       else OK (false, c));
        if (stop : bool) then OK (Returned done, c1, st) else
        s ← deref (heap c1) (rx_seg (rx c1));
        if published s <=? rx_idx (rx c1) then OK (Returned done, c1, st) else
        let n := Z.min (published s - rx_idx (rx c1)) (max - done) in
        '(c2, st1, done1, panicked) ← drain_segment (Z.to_nat n) c1 f st done;
        if (panicked : bool) then OK (Unwound, c2, st1)
        else drain_loop fuel' c2 max f st1 done1
      else OK (Returned done, c, st)
  end.
Definition drain_in_place {S} c (max : Z) (f : callback S T) (st : S)
    : outcome (flow Z * Chan T * S) :=
  drain_loop (Datatypes.S (Datatypes.S (size (heap c)))) c max f st 0.

Definition is_empty c : outcome bool :=
  let r := rx c in
  s ← deref (heap c) (rx_seg r);
  if rx_idx r <? published s then OK false else
  if rx_idx r =? rx_size r then
    match next s with
    | Some n => s1 ← deref (heap c) n; OK (published s1 =? 0)
    | None => OK true
    end
  else OK true.

Definition is_finished c : outcome bool :=
  if producer_gone (shared c) then is_empty c else OK false.

Definition drop_rx c : outcome (Chan T) :=
  let r := rx c in
  s ← deref (heap c) (rx_seg r);
  OK (mkChan (<[rx_seg r := mkSegment (buf s) (published s) (rx_idx r) (next s)]> (heap c))
        (fresh c) (mkShared (sh_head (shared c)) (producer_gone (shared c)) true) (tx c) r).

(** [for i in start..end]: destroy the unconsumed span of one segment. *)
Fixpoint drop_span (n : nat) (b : list (cell T)) (i : Z) : outcome (list T) :=
  match n with
  | O => OK []
  | S n' => x ← index b i; v ← assume_init_read x; vs ← drop_span n' b (i + 1); OK (v :: vs)
  end.

(** [Drop for Shared]: the destroyed values and the heap that is left. *)
Fixpoint shared_drop (fuel : nat) (h : gmap nat (Segment T)) (p : option nat)
    : outcome (list T * gmap nat (Segment T)) :=
  match p with
  | None => OK ([], h)
  | Some a =>
      match fuel with
      | O => UB
      | S fuel' =>
          s ← deref h a;
          vs ← drop_span (Z.to_nat (published s - consumed s)) (buf s) (consumed s);
          '(ws, h') ← shared_drop fuel' (delete a h) (next s);
          OK (vs ++ ws, h')
      end
  end.

(** The last endpoint to go releases [Shared]. *)
Definition teardown c : outcome (list T * gmap nat (Segment T)) :=
  shared_drop (S (size (heap c))) (heap c) (sh_head (shared c)).
End operations.

(** ** Representation *)

(** The cells of a segment of [n] slots that holds [q] from slot [start] on. *)
Definition cells {T} (n start : nat) (q : list T) : list (cell T) :=
  replicate start None ++ (Some <$> q) ++ replicate (n - start - length q) None.

(** [chain h n a start co q l]: from address [a] on the heap holds segments of
    [n] slots: the first with [q] from slot [start] on, then those of [l]. All
    but the last are full, and all but the first are non-empty. *)
Fixpoint chain {T} (h : gmap nat (Segment T)) (n : nat) (a start : nat) (co : Z) (q : list T)
    (l : list (nat * list T)) : Prop :=
  (start + length q <= n)%nat /\
  h !! a = Some (mkSegment (cells n start q) (Z.of_nat (start + length q)) co (fst <$> list.head l)) /\
  match l with
  | [] => True
  | (b, q') :: l' => (start + length q = n)%nat /\ q' <> [] /\ chain h n b 0 0 q' l'
  end.

Definition contents {T} (q : list T) (l : list (nat * list T)) : list T := q ++ concat (snd <$> l).

(** Address and fill level of the last segment. *)
Definition last_addr {T} (a : nat) (l : list (nat * list T)) : nat := default a (fst <$> last l).
Definition last_fill {T} (start : nat) (q : list T) (l : list (nat * list T)) : nat :=
  match last l with Some (_, q') => length q' | None => start + length q end.

Record seg_at {T} (size_T : Z) (c : Chan T) (n start : nat) (co : Z) (q : list T)
    (l : list (nat * list T)) : Prop := {
  sa_n : (2 <= n)%nat;
  sa_size : Z.of_nat n * size_T <= ISIZE_MAX;
  sa_tx : tx c = mkTx (last_addr (rx_seg (rx c)) l) (Z.of_nat (last_fill start q l)) (Z.of_nat n);
  sa_rx : rx c = mkRx (rx_seg (rx c)) (Z.of_nat start) (Z.of_nat n);
  sa_head : sh_head (shared c) = Some (rx_seg (rx c));
  sa_chain : chain (heap c) n (rx_seg (rx c)) start co q l;
  sa_nodup : NoDup (rx_seg (rx c) :: l.*1);
  sa_dom : dom (heap c) = list_to_set (rx_seg (rx c) :: l.*1);
  sa_fresh : Forall (fun a => (a < fresh c)%nat) (rx_seg (rx c) :: l.*1)
}.

Definition seg_repr {T} (size_T : Z) (c : Chan T) (p : list T) (pg cg : bool) : Prop :=
  producer_gone (shared c) = pg /\ consumer_gone (shared c) = cg /\
  exists n start q l, p = contents q l /\
    seg_at size_T c n start (if cg then Z.of_nat start else 0) q l.

(** ** Lemmas on cells *)

Section lemmas.
Context {T : Type}.
Implicit Types (q : list T) (l : list (nat * list T)) (h : gmap nat (Segment T)).

Lemma cells_length n start q : (start + length q <= n)%nat -> length (cells n start q) = n.
Proof. intros. unfold cells. rewrite !length_app, !length_replicate, length_fmap. lia. Qed.

Lemma index_lookup (b : list (cell T)) (i : nat) x : b !! i = Some x -> index b (Z.of_nat i) = OK x.
Proof. intros Hb. unfold index. zbool; [lia|]. by rewrite Nat2Z.id, Hb. Qed.

Lemma cells_front n start v q : cells n start (v :: q) !! start = Some (Some v).
Proof.
  unfold cells. rewrite lookup_app_r; rewrite length_replicate; [|done]. by rewrite Nat.sub_diag.
Qed.

Lemma cells_take n start v q :
  <[start := None]> (cells n start (v :: q)) = cells n (S start) q.
Proof.
  unfold cells. rewrite insert_app_r_alt; rewrite length_replicate; [|done].
  rewrite Nat.sub_diag, replicate_S_end, <- app_assoc. csimpl.
  do 3 f_equal. f_equal. lia.
Qed.

Lemma cells_push n start v q :
  (start + length q < n)%nat ->
  <[(start + length q)%nat := Some v]> (cells n start q) = cells n start (q ++ [v]).
Proof.
  intros Hn. unfold cells. rewrite insert_app_r_alt; rewrite length_replicate; [|lia].
  rewrite insert_app_r_alt; rewrite length_fmap; [|lia].
  replace (start + length q - start - length q)%nat with O by lia.
  destruct (n - start - length q)%nat as [|m] eqn:E; [lia|]. simpl.
  rewrite fmap_app, length_app, <- app_assoc. simpl. do 3 f_equal.
  replace (n - start - (length q + 1))%nat with m by lia. done.
Qed.

Lemma cells_free n start q :
  (start + length q < n)%nat -> cells n start q !! (start + length q)%nat = Some None.
Proof.
  intros Hn. unfold cells. rewrite lookup_app_r; rewrite length_replicate; [|lia].
  rewrite lookup_app_r; rewrite length_fmap; [|lia]. apply lookup_replicate_2. lia.
Qed.

(** ** Lemmas on chains *)

Lemma last_addr_cons a b q l : last_addr a ((b, q) :: l) = last_addr b l.
Proof. unfold last_addr. rewrite last_cons. by destruct (last l) as [[? ?]|]. Qed.

Lemma last_fill_cons start q b q' l : last_fill start q ((b, q') :: l) = last_fill 0 q' l.
Proof. unfold last_fill. rewrite last_cons. by destruct (last l) as [[? ?]|]. Qed.

Lemma contents_cons q b q' l : contents q ((b, q') :: l) = q ++ contents q' l.
Proof. done. Qed.

Lemma last_addr_in a l : last_addr a l ∈ a :: l.*1.
Proof.
  revert a. induction l as [|[b q] l IH]; intros a; [by left|].
  rewrite last_addr_cons. right. apply IH.
Qed.

Lemma chain_frame h h' n a start co q l :
  (forall b, b ∈ a :: l.*1 -> h' !! b = h !! b) ->
  chain h n a start co q l -> chain h' n a start co q l.
Proof.
  revert a start co q. induction l as [|[b q'] l IH]; intros a start co q Hh; simpl.
  - intros (H1 & H2 & _). rewrite Hh by (by left). done.
  - intros (H1 & H2 & H3 & H4 & H5). rewrite (Hh a) by (by left). splits.
    apply IH; [|done]. intros b' Hb. apply Hh. by right.
Qed.

Lemma chain_last h n a start co q l :
  chain h n a start co q l ->
  exists st qb co', h !! last_addr a l =
      Some (mkSegment (cells n st qb) (Z.of_nat (last_fill start q l)) co' None) /\
    last_fill start q l = (st + length qb)%nat /\ (st + length qb <= n)%nat.
Proof.
  revert a start co q. induction l as [|[b q'] l IH]; intros a start co q; simpl.
  - intros (H1 & H2 & _). exists start, q, co. done.
  - intros (H1 & H2 & H3 & H4 & H5). rewrite last_addr_cons, last_fill_cons. eauto.
Qed.

(** Writing and publishing one value behind the last one. *)
Lemma chain_push h n a start co q l v s :
  chain h n a start co q l -> NoDup (a :: l.*1) -> (last_fill start q l < n)%nat ->
  h !! last_addr a l = Some s ->
  exists q' l',
    chain (<[last_addr a l := mkSegment (<[last_fill start q l := Some v]> (buf s))
       (Z.of_nat (last_fill start q l) + 1) (consumed s) (next s)]> h) n a start co q' l' /\
    contents q' l' = contents q l ++ [v] /\ l'.*1 = l.*1 /\
    last_fill start q' l' = S (last_fill start q l) /\ (l = [] -> l' = [] /\ q' = q ++ [v]) /\
    (l <> [] -> q' = q).
Proof.
  revert a start co q. induction l as [|[b qb] l IH]; intros a start co q.
  - simpl. intros (H1 & H2 & _) _ Hf. unfold last_addr, last_fill in *. simpl in *.
    rewrite H2. intros [= <-]. exists (q ++ [v]), []. simpl.
    rewrite cells_push by done. rewrite lookup_insert_eq, length_app. simpl.
    unfold contents. simpl. rewrite !app_nil_r. splits. do 3 f_equal; lia.
  - rewrite last_addr_cons, !last_fill_cons, contents_cons.
    intros (H1 & H2 & H3 & H4 & H5) Hnd Hf Hs. apply NoDup_cons in Hnd as [Hni Hnd].
    destruct (IH b 0%nat 0 qb H5 Hnd Hf Hs) as (q' & l' & Hc & Hct & Ha & Hlf & Hl1 & Hl2).
    exists q, ((b, q') :: l'). rewrite last_fill_cons, contents_cons, Hct, app_assoc. csimpl.
    rewrite Ha. splits. rewrite lookup_insert_ne; [|intros E; apply Hni; rewrite <- E; apply last_addr_in].
    splits. destruct l; [by destruct (Hl1 eq_refl) as [_ ->]; destruct qb|by rewrite Hl2].
Qed.

(** Linking a fresh segment that holds one value behind a full last one. *)
Lemma chain_grow h n a start co q l v s fr :
  (1 <= n)%nat -> chain h n a start co q l -> NoDup (a :: l.*1) -> fr ∉ a :: l.*1 ->
  last_fill start q l = n -> h !! last_addr a l = Some s ->
  chain (<[fr := mkSegment (cells n 0 [v]) 1 0 None]>
    (<[last_addr a l := mkSegment (buf s) (published s) (consumed s) (Some fr)]> h))
    n a start co q (l ++ [(fr, [v])]).
Proof.
  intros Hn. revert a start co q. induction l as [|[b qb] l IH]; intros a start co q.
  - simpl. intros (H1 & H2 & _) _ Hfr Hf. unfold last_addr, last_fill in *. simpl in *.
    rewrite H2. intros [= <-]. assert (fr <> a) by set_solver.
    rewrite lookup_insert_ne, lookup_insert_eq, lookup_insert_eq by done. simpl. splits.
  - rewrite last_addr_cons, !last_fill_cons.
    intros (H1 & H2 & H3 & H4 & H5) Hnd Hfr Hf Hs. apply NoDup_cons in Hnd as [Hni Hnd].
    assert (fr <> a /\ fr ∉ b :: l.*1) as [Hne Hfr'] by (csimpl in Hfr; set_solver).
    rewrite <- app_comm_cons. cbn [chain]. split; [done|].
    rewrite lookup_insert_ne by done.
    rewrite lookup_insert_ne; [|intros E; apply Hni; csimpl; rewrite <- E; apply last_addr_in].
    split; [done|]. splits. by apply IH.
Qed.
End lemmas.

(** ** Operation specifications *)

Section specs.
Context {T : Type} (size_T : Z).
Implicit Types (c : Chan T) (q p : list T) (l : list (nat * list T)).

Lemma seg_at_fresh c n start co q l :
  seg_at size_T c n start co q l -> fresh c ∉ rx_seg (rx c) :: l.*1.
Proof.
  intros H Hin. pose proof (sa_fresh _ _ _ _ _ _ _ H) as Hf.
  rewrite Forall_forall in Hf. specialize (Hf _ Hin). lia.
Qed.

Lemma channel_spec capacity c :
  channel size_T capacity = OK c -> seg_repr size_T c [] false false.
Proof.
  unfold channel, boxed. zbool; [done|]. intros [= <-].
  split; [done|]. split; [done|]. exists (Z.to_nat (Z.max capacity 2)), O, [], [].
  split; [done|]. split; cbn [heap rx tx shared rx_seg sh_head fresh]; try done; try lia.
  - unfold last_addr, last_fill. simpl. f_equal. lia.
  - f_equal. lia.
  - cbn [chain]. rewrite lookup_singleton_eq. split; [simpl; lia|]. split; [|done].
    do 2 f_equal. unfold cells. simpl. f_equal. lia.
  - apply NoDup_singleton.
  - apply Forall_singleton. lia.
Qed.

(** The consumer's current segment. *)
Lemma seg_at_current c n start co q l :
  seg_at size_T c n start co q l ->
  deref (heap c) (rx_seg (rx c)) =
    OK (mkSegment (cells n start q) (Z.of_nat (start + length q)) co (fst <$> list.head l)) /\
  (start + length q <= n)%nat.
Proof.
  intros H. pose proof (sa_chain _ _ _ _ _ _ _ H) as Hc. unfold deref.
  destruct l as [|[b qb] l]; destruct Hc as (H1 & -> & _); done.
Qed.

Lemma seg_try_push_spec c p pg v :
  seg_repr size_T c p pg false ->
  exists c', try_push size_T c v = OK (Ok tt, c') /\ seg_repr size_T c' (p ++ [v]) pg false.
Proof.
  intros (Hpg & Hcg & n & start & q & l & -> & H). unfold try_push. rewrite Hcg.
  pose proof (seg_at_fresh _ _ _ _ _ _ H) as Hfr.
  destruct (chain_last _ _ _ _ _ _ _ (sa_chain _ _ _ _ _ _ _ H)) as (st & qb & co' & Hl & Hfill & Hle).
  unfold grow. rewrite (sa_tx _ _ _ _ _ _ _ H). cbn [tx_idx tx_size tx_seg].
  destruct (Z.eqb_spec (Z.of_nat (last_fill start q l)) (Z.of_nat n)) as [He|He].
  - unfold boxed. pose proof (sa_size _ _ _ _ _ _ _ H). zbool; [lia|]. cbn [mbind outcome_bind].
    assert (fresh c <> last_addr (rx_seg (rx c)) l) as Hne
      by (intros E; apply Hfr; rewrite E; apply last_addr_in).
    unfold deref. rewrite lookup_insert_ne, Hl by done. cbn [mbind outcome_bind heap tx tx_seg tx_idx buf next consumed published shared fresh rx tx_size].
    rewrite lookup_insert_ne, lookup_insert_eq by done. cbn [mbind outcome_bind buf].
    pose proof (sa_n _ _ _ _ _ _ _ H) as Hn2.
    rewrite (index_lookup _ 0 None) by (apply lookup_replicate_2; lia). cbn [mbind outcome_bind].
    eexists. split; [done|]. split; [done|]. split; [done|].
    exists n, start, q, (l ++ [(fresh c, [v])]). split.
    { unfold contents. rewrite fmap_app, concat_app, app_assoc. done. }
    assert (1 <= n)%nat as Hn1 by lia. apply Nat2Z.inj in He.
    pose proof (chain_grow _ _ _ _ _ _ _ v _ (fresh c) Hn1
      (sa_chain _ _ _ _ _ _ _ H) (sa_nodup _ _ _ _ _ _ _ H) Hfr He Hl) as Hch.
    destruct H. split; simpl; try done.
    + unfold last_addr, last_fill. rewrite last_snoc. simpl. done.
    + rewrite insert_insert_ne, insert_insert_eq by done.
      replace (<[0%nat := Some v]> (replicate (Z.to_nat (Z.of_nat n)) None)) with (cells n 0 [v]); [rewrite insert_insert_ne by done; exact Hch|].
      unfold cells. simpl. rewrite Nat2Z.id. destruct n as [|n]; [lia|]. simpl. by rewrite Nat.sub_0_r.
    + rewrite fmap_app, app_comm_cons. apply NoDup_app. csimpl. splits.
      * intros x Hx Hx'. apply list_elem_of_singleton in Hx'. by subst.
      * apply NoDup_singleton.
    + rewrite !dom_insert_L, sa_dom0, fmap_app. csimpl. pose proof (last_addr_in (rx_seg (rx c)) l).
      rewrite !list_to_set_app_L. set_solver.
    + rewrite fmap_app, app_comm_cons. apply Forall_app. split.
      * eapply Forall_impl; [done|]. simpl. intros. lia.
      * apply Forall_singleton. simpl. lia.
  - cbn [mbind outcome_bind]. rewrite (sa_tx _ _ _ _ _ _ _ H). cbn [tx_idx tx_size tx_seg].
    unfold deref. rewrite Hl. cbn [mbind outcome_bind buf next consumed].
    rewrite (index_lookup _ _ None) by (rewrite Hfill; apply cells_free; lia).
    cbn [mbind outcome_bind]. rewrite Nat2Z.id.
    assert (last_fill start q l < n)%nat as Hlt by lia.
    destruct (chain_push _ _ _ _ _ _ _ v _ (sa_chain _ _ _ _ _ _ _ H) (sa_nodup _ _ _ _ _ _ _ H) Hlt Hl)
      as (q' & l' & Hch & Hct & Ha & Hlf & _).
    eexists. split; [done|]. split; [done|]. split; [done|].
    exists n, start, q', l'. split; [done|].
    assert (forall a, last_addr a l' = last_addr a l) as Hla.
    { intros a. unfold last_addr. by rewrite <- !fmap_last, Ha. }
    destruct H. split; simpl; rewrite ?Ha; try done.
    + rewrite Hlf, Hla. f_equal. lia.
    + rewrite dom_insert_L, sa_dom0. pose proof (last_addr_in (rx_seg (rx c)) l). set_solver.
Qed.

Lemma take_current_spec c n start q l v :
  seg_at size_T c n start 0 (v :: q) l ->
  exists c', take_current c = OK (v, c') /\ seg_at size_T c' n (S start) 0 q l /\
    shared c' = shared c.
Proof.
  intros H. destruct (seg_at_current _ _ _ _ _ _ H) as [Hd Hle]. simpl in Hle.
  unfold take_current. rewrite Hd. cbn [mbind outcome_bind buf next consumed published].
  rewrite (sa_rx _ _ _ _ _ _ _ H). cbn [rx_idx rx_seg rx_size].
  rewrite (index_lookup _ _ (Some v)) by apply cells_front.
  cbn [mbind outcome_bind assume_init_read]. rewrite Nat2Z.id, cells_take.
  eexists. split; [done|]. split; [|done].
  assert (last_fill (S start) q l = last_fill start (v :: q) l) as Hlf.
  { unfold last_fill. destruct (last l) as [[? ?]|]; simpl; lia. }
  destruct H. split; cbn [rx heap tx shared fresh rx_seg]; try done.
  - by rewrite Hlf.
  - f_equal. lia.
  - destruct l as [|[b qb] l]; cbn [chain] in *; rewrite lookup_insert_eq;
      destruct sa_chain0 as (H1 & H2 & H3); simpl in *.
    + splits. do 2 f_equal. lia.
    + destruct H3 as (H3 & H4 & H5). splits; [do 2 f_equal; lia|].
      apply NoDup_cons in sa_nodup0 as [Hni _].
      eapply chain_frame; [|done]. intros x Hx. rewrite lookup_insert_ne; [done|].
      intros <-. by apply Hni.
  - rewrite dom_insert_L, sa_dom0. csimpl. set_solver.
Qed.

Lemma advance_none c n q :
  seg_at size_T c n n 0 q [] -> advance c = OK (false, c).
Proof.
  intros H. destruct (seg_at_current _ _ _ _ _ _ H) as [Hd Hle].
  unfold advance. by rewrite Hd.
Qed.

Lemma advance_some c n q b qb l :
  seg_at size_T c n n 0 q ((b, qb) :: l) ->
  exists c', advance c = OK (true, c') /\ seg_at size_T c' n 0 0 qb l /\
    producer_gone (shared c') = producer_gone (shared c) /\
    consumer_gone (shared c') = consumer_gone (shared c).
Proof.
  intros H. destruct (seg_at_current _ _ _ _ _ _ H) as [Hd Hle].
  unfold advance. rewrite Hd. simpl. eexists. split; [done|]. split; [|done].
  destruct H. csimpl in *. apply NoDup_cons in sa_nodup0 as [Hni Hnd].
  destruct sa_chain0 as (_ & _ & _ & _ & Hc). rewrite last_addr_cons, last_fill_cons in sa_tx0.
  split; cbn [rx heap tx shared fresh rx_seg sh_head]; try done.
  - rewrite sa_rx0. done.
  - eapply chain_frame; [|done]. intros x Hx. rewrite lookup_delete_ne; [done|].
    intros <-. by apply Hni.
  - rewrite dom_delete_L, sa_dom0. csimpl. set_solver.
  - by apply Forall_cons in sa_fresh0 as [_ ?].
Qed.

(** A consumer at the end of its segment has read all of it. *)
Lemma seg_at_end c n start co q l :
  seg_at size_T c n start co q l -> start = n -> q = [].
Proof. intros H ->. destruct (seg_at_current _ _ _ _ _ _ H) as [_ ?]. apply nil_length_inv. lia. Qed.

(** A consumer before its end with nothing published ahead is at the last segment. *)
Lemma seg_at_caught_up c n start co l :
  seg_at size_T c n start co [] l -> start <> n -> l = [].
Proof.
  intros H Hne. pose proof (sa_chain _ _ _ _ _ _ _ H) as Hc.
  destruct l as [|[b qb] l]; [done|]. destruct Hc as (_ & _ & H3 & _). simpl in H3. lia.
Qed.

Lemma try_pop_inside fuel c n start q l :
  seg_at size_T c n start 0 q l -> start <> n ->
  try_pop_loop (S fuel) c =
    match q with
    | [] => OK (None, c)
    | _ => '(v, c1) ← take_current c; OK (Some v, c1)
    end.
Proof.
  intros H Hne. destruct (seg_at_current _ _ _ _ _ _ H) as [Hd Hle].
  cbn [try_pop_loop]. rewrite (sa_rx _ _ _ _ _ _ _ H). cbn [rx_idx rx_size rx_seg].
  destruct (Z.eqb_spec (Z.of_nat start) (Z.of_nat n)); [lia|]. rewrite Hd.
  cbn [mbind outcome_bind published]. destruct q; simpl; zbool; done || lia.
Qed.

Lemma seg_try_pop_spec c p pg :
  seg_repr size_T c p pg false ->
  match p with
  | [] => exists c', try_pop c = OK (None, c') /\ seg_repr size_T c' [] pg false
  | v :: p' => exists c', try_pop c = OK (Some v, c') /\ seg_repr size_T c' p' pg false
  end.
Proof.
  intros (Hpg & Hcg & n & start & q & l & -> & H).
  assert (forall c1 st q1 l1, seg_at size_T c1 n st 0 q1 l1 -> st <> n ->
    producer_gone (shared c1) = pg -> consumer_gone (shared c1) = false ->
    forall fuel, match contents q1 l1 with
    | [] => exists c', try_pop_loop (S fuel) c1 = OK (None, c') /\ seg_repr size_T c' [] pg false
    | v :: p' => exists c', try_pop_loop (S fuel) c1 = OK (Some v, c') /\ seg_repr size_T c' p' pg false
    end) as Hin.
  { intros c1 st q1 l1 H1 Hne Hp1 Hc1 fuel. rewrite (try_pop_inside _ _ _ _ _ _ H1 Hne).
    destruct q1 as [|v q1].
    - pose proof (seg_at_caught_up _ _ _ _ _ H1 Hne); subst l1. simpl.
      exists c1. split; [done|]. split; [done|]. split; [done|]. by exists n, st, [], [].
    - destruct (take_current_spec _ _ _ _ _ _ H1) as (c' & -> & H' & Hs). simpl.
      exists c'. split; [done|]. rewrite <- Hs in Hp1, Hc1.
      split; [done|]. split; [done|]. by exists n, (S st), q1, l1. }
  destruct (decide (start = n)) as [->|Hne]; [|exact (Hin c start q l H Hne Hpg Hcg 1%nat)].
  pose proof (seg_at_end _ _ _ _ _ _ H eq_refl) as ->. unfold try_pop.
  change (try_pop_loop 2 c) with
    (if rx_idx (rx c) =? rx_size (rx c)
     then '(moved, c1) ← advance c; if (moved : bool) then try_pop_loop 1 c1 else OK (None, c1)
     else s ← deref (heap c) (rx_seg (rx c));
          if rx_idx (rx c) <? published s then '(v, c1) ← take_current c; OK (Some v, c1)
          else OK (None, c)).
  assert ((rx_idx (rx c) =? rx_size (rx c)) = true) as -> by (rewrite (sa_rx _ _ _ _ _ _ _ H); apply Z.eqb_refl).
  destruct l as [|[b qb] l].
  - rewrite (advance_none _ _ _ H). simpl. exists c. split; [done|].
    split; [done|]. split; [done|]. by exists n, n, [], [].
  - destruct (advance_some _ _ _ _ _ _ H) as (c1 & -> & H1 & Hp1 & Hc1).
    cbn [mbind outcome_bind]. rewrite contents_cons, app_nil_l.
    refine (Hin c1 0%nat qb l H1 _ _ _ 0%nat); [|congruence..].
    pose proof (sa_n _ _ _ _ _ _ _ H). lia.
Qed.

Lemma seg_is_empty_spec c p pg :
  seg_repr size_T c p pg false -> is_empty c = OK (bool_decide (p = [])).
Proof.
  intros (Hpg & Hcg & n & start & q & l & -> & H).
  destruct (seg_at_current _ _ _ _ _ _ H) as [Hd Hle].
  unfold is_empty. rewrite Hd. rewrite (sa_rx _ _ _ _ _ _ _ H).
  cbn [mbind outcome_bind published rx_idx rx_size next].
  destruct q as [|v q]; [|simpl; destruct (Z.ltb_spec (Z.of_nat start) (Z.of_nat (start + S (length q)))); [done|lia]].
  rewrite Nat.add_0_r. destruct (Z.ltb_spec (Z.of_nat start) (Z.of_nat start)); [lia|].
  destruct (Z.eqb_spec (Z.of_nat start) (Z.of_nat n)) as [He|He].
  - destruct l as [|[b qb] l]; [done|]. simpl.
    destruct (sa_chain _ _ _ _ _ _ _ H) as (_ & _ & _ & Hq & Hc).
    destruct l as [|[b' qb'] l]; destruct Hc as (_ & Hb & _); unfold deref; rewrite Hb; simpl;
      unfold contents; csimpl; destruct qb; done.
  - rewrite (seg_at_caught_up _ _ _ _ _ H) by lia. done.
Qed.

Lemma drain_segment_spec {S} m c n start q l (f : callback S T) st done :
  seg_at size_T c n start 0 q l -> (m <= length q)%nat ->
  let '(st', k, p) := feed f st (take m q) in
  exists c', drain_segment m c f st done = OK (c', st', done + Z.of_nat k, p) /\
    seg_at size_T c' n (start + k) 0 (drop k q) l /\ shared c' = shared c.
Proof.
  revert c start q st done. induction m as [|m IH]; intros c start q st done H Hm.
  - simpl. exists c. rewrite Z.add_0_r, Nat.add_0_r, drop_0. done.
  - destruct q as [|v q]; [simpl in Hm; lia|]. cbn [take feed drain_segment].
    destruct (take_current_spec _ _ _ _ _ _ H) as (c1 & -> & H1 & Hs1). simpl in *.
    destruct (f st v) as [st1 [|]].
    { exists c1. rewrite Nat.add_1_r. done. }
    specialize (IH c1 (Datatypes.S start) q st1 (done + 1) H1 ltac:(lia)).
    destruct (feed f st1 (take m q)) as [[st2 k] p]. destruct IH as (c' & -> & H' & Hs').
    exists c'. split; [do 3 f_equal; lia|]. rewrite Nat.add_succ_comm in H'. split; [done|congruence].
Qed.

(** What one turn of the outer loop sees once it stands inside a segment. *)
Lemma seg_at_step c n start q l k :
  seg_at size_T c n (start + k) 0 (drop k q) l -> (k <= length q)%nat ->
  contents (drop k q) l = drop k (contents q l).
Proof. intros _ Hk. unfold contents. by rewrite drop_app_le. Qed.

Definition drained {S} (c : Chan T) (p : list T) (max done : Z) (f : callback S T) (st : S)
    (res : outcome (flow Z * Chan T * S)) : Prop :=
  exists m c' st' k pn, (m <= length p)%nat /\ done + Z.of_nat m <= max /\
    (p <> [] -> done < max -> (0 < m)%nat) /\
    feed f st (take m p) = (st', k, pn) /\
    res = OK (if pn then Unwound else Returned (done + Z.of_nat m), c', st') /\
    seg_repr size_T c' (drop k p) (producer_gone (shared c)) false.

Lemma drained_none {S} c p max done (f : callback S T) st :
  seg_repr size_T c p (producer_gone (shared c)) false -> done <= max ->
  (p = [] \/ done = max) -> drained c p max done f st (OK (Returned done, c, st)).
Proof.
  intros Hr Hd Hp. exists O, c, st, O, false. rewrite Z.add_0_r, drop_0. splits.
  intros Hne Hlt. destruct Hp; [done|lia].
Qed.

(** One turn inside a segment, followed by the rest of the loop. *)
Lemma drain_inside {S} c n start q l max (f : callback S T) st done
    (rest : Chan T -> S -> Z -> outcome (flow Z * Chan T * S)) :
  seg_at size_T c n start 0 q l -> consumer_gone (shared c) = false ->
  done < max -> (q = [] -> l = []) ->
  (forall c2 st2 k, seg_at size_T c2 n (start + k) 0 (drop k q) l -> (k <= length q)%nat ->
     shared c2 = shared c -> (k = length q \/ done + Z.of_nat k = max) -> (0 < k)%nat ->
     done + Z.of_nat k <= max ->
     drained c2 (contents (drop k q) l) max (done + Z.of_nat k) f st2 (rest c2 st2 (done + Z.of_nat k))) ->
  drained c (contents q l) max done f st
    (s ← deref (heap c) (rx_seg (rx c));
     if published s <=? rx_idx (rx c) then OK (Returned done, c, st) else
     let n := Z.min (published s - rx_idx (rx c)) (max - done) in
     '(c2, st1, done1, panicked) ← drain_segment (Z.to_nat n) c f st done;
     if (panicked : bool) then OK (Unwound, c2, st1) else rest c2 st1 done1).
Proof.
  intros H Hcg Hlt Hql Hrest. destruct (seg_at_current _ _ _ _ _ _ H) as [-> Hle].
  cbn [mbind outcome_bind published]. rewrite (sa_rx _ _ _ _ _ _ _ H). cbn [rx_idx].
  destruct (Z.leb_spec (Z.of_nat (start + length q)) (Z.of_nat start)) as [Hz|Hz].
  { assert (q = []) as -> by (apply nil_length_inv; lia). rewrite (Hql eq_refl) in *.
    apply drained_none; [|lia|by left]. split; [done|]. split; [done|]. by exists n, start, [], []. }
  cbv zeta. set (m := Z.to_nat _). assert (m <= length q)%nat as Hm by lia.
  pose proof (drain_segment_spec m c n start q l f st done H Hm) as Hd.
  pose proof (feed_count f st (take m q)) as Hfc. rewrite length_take_le in Hfc by done.
  destruct (feed f st (take m q)) as [[st1 k] p] eqn:Hf.
  destruct Hd as (c2 & -> & H2 & Hs2). destruct Hfc as [Hk Hkp]. cbn [mbind outcome_bind].
  pose proof (seg_at_step _ _ _ _ _ _ H2 ltac:(lia)) as Hct.
  assert (take m (contents q l) = take m q) as Htk by (unfold contents; by rewrite take_app_le).
  destruct p.
  - exists m, c2, st1, k, true. rewrite Htk, <- Hct, <- Hs2. splits.
    + unfold contents. rewrite length_app. lia.
    + split; [done|]. split; [congruence|]. by exists n, (start + k)%nat, (drop k q), l.
  - specialize (Hkp eq_refl). subst k.
    destruct (Hrest c2 st1 m H2 Hm Hs2 ltac:(lia) ltac:(lia) ltac:(lia))
      as (m2 & c' & st' & k & pn & G1 & G2 & G3 & G4 & -> & G5).
    rewrite Hct in *. exists (m + m2)%nat, c', st', (m + k)%nat, pn.
    assert (length q <= length (contents q l))%nat by (unfold contents; rewrite length_app; lia).
    rewrite length_drop in G1. rewrite <- take_take_drop, Htk, feed_app, Hf, G4.
    rewrite drop_drop in G5. rewrite <- Hs2. splits.
    by replace (done + Z.of_nat (m + m2)) with (done + Z.of_nat m + Z.of_nat m2) by lia.
Qed.

Lemma drain_loop_S {S} fuel c max (f : callback S T) st done :
  drain_loop (Datatypes.S fuel) c max f st done =
    (if done <? max then
       '(stop, c1) ← (if rx_idx (rx c) =? rx_size (rx c)
                      then '(moved, c1) ← advance c; OK (negb moved, c1)
                      else OK (false, c));
       if (stop : bool) then OK (Returned done, c1, st) else
       s ← deref (heap c1) (rx_seg (rx c1));
       if published s <=? rx_idx (rx c1) then OK (Returned done, c1, st) else
       let n := Z.min (published s - rx_idx (rx c1)) (max - done) in
       '(c2, st1, done1, panicked) ← drain_segment (Z.to_nat n) c1 f st done;
       if (panicked : bool) then OK (Unwound, c2, st1) else drain_loop fuel c2 max f st1 done1
     else OK (Returned done, c, st)).
Proof. done. Qed.

Lemma drained_shared {S} c c1 p max done (f : callback S T) st res :
  producer_gone (shared c1) = producer_gone (shared c) ->
  drained c1 p max done f st res -> drained c p max done f st res.
Proof. unfold drained. by intros ->. Qed.

(** The loop ends within one turn per live segment, plus one. *)
Lemma drain_loop_spec {S} fuel c n start q l max (f : callback S T) st done :
  seg_at size_T c n start 0 q l -> consumer_gone (shared c) = false -> done <= max ->
  (done = max /\ (0 < fuel)%nat) \/ (length l + (if bool_decide (q = []) then 1 else 2) <= fuel)%nat ->
  drained c (contents q l) max done f st (drain_loop fuel c max f st done).
Proof.
  revert c start q l st done. induction fuel as [|fuel IH]; intros c start q l st done H Hcg Hd Hf.
  { destruct (bool_decide (q = [])); lia. }
  assert (seg_repr size_T c (contents q l) (producer_gone (shared c)) false) as Hrep
    by (split; [done|]; split; [done|]; by exists n, start, q, l).
  rewrite drain_loop_S. destruct (Z.ltb_spec done max) as [Hlt|Hge].
  2:{ apply drained_none; [done|done|right; lia]. }
  assert (forall c1 st1 q1 l1 (k : nat) st2, seg_at size_T c1 n (st1 + k) 0 (drop k q1) l1 ->
    consumer_gone (shared c1) = false -> (k = length q1 \/ done + Z.of_nat k = max) ->
    done + Z.of_nat k <= max -> (length l1 < fuel)%nat ->
    drained c1 (contents (drop k q1) l1) max (done + Z.of_nat k) f st2
      (drain_loop fuel c1 max f st2 (done + Z.of_nat k))) as Hrest.
  { intros c1 st1 q1 l1 k st2 H1 Hc1 Hk Hkm Hl. apply (IH _ (st1 + k)%nat); [done|done|done|].
    destruct Hk as [->|Hk]; [right|left; lia]. rewrite drop_all, bool_decide_true by done. lia. }
  rewrite (sa_rx _ _ _ _ _ _ _ H). cbn [rx_idx rx_size].
  destruct (Z.eqb_spec (Z.of_nat start) (Z.of_nat n)) as [He|He].
  - apply Nat2Z.inj in He. subst start. pose proof (seg_at_end _ _ _ _ _ _ H eq_refl). subst q.
    destruct l as [|[b qb] l].
    + rewrite (advance_none _ _ _ H). cbn [mbind outcome_bind negb].
      apply drained_none; [done|done|by left].
    + destruct (advance_some _ _ _ _ _ _ H) as (c1 & -> & H1 & Hp1 & Hc1).
      cbn [mbind outcome_bind negb]. rewrite contents_cons, app_nil_l.
      apply (drained_shared c c1); [done|].
      apply (drain_inside c1 n 0 qb l max f st done (fun c2 st1 done1 => drain_loop fuel c2 max f st1 done1));
        [done|congruence|done| |].
      * intros ->. destruct (sa_chain _ _ _ _ _ _ _ H) as (_ & _ & _ & ? & _). done.
      * intros c2 st2 k H2 Hkl Hs2 Hk _ Hkm. apply (Hrest c2 0%nat); [done|congruence|done|done|].
        rewrite bool_decide_true in Hf by done. simpl in Hf. lia.
  - cbn [mbind outcome_bind].
    apply (drain_inside c n start q l max f st done (fun c2 st1 done1 => drain_loop fuel c2 max f st1 done1));
      [done|done|done| |].
    + intros ->. by apply (seg_at_caught_up _ _ _ _ _ H); lia.
    + intros c2 st2 k H2 Hkl Hs2 Hk Hk0 Hkm. apply (Hrest c2 start); [done|congruence|done|done|].
      rewrite bool_decide_false in Hf by (intros ->; simpl in *; lia). lia.
Qed.

Lemma seg_at_size c n start co q l :
  seg_at size_T c n start co q l -> size (heap c) = S (length l).
Proof.
  intros H. rewrite <- size_dom, (sa_dom _ _ _ _ _ _ _ H).
  rewrite size_list_to_set by apply H. simpl. by rewrite length_fmap.
Qed.

Lemma seg_drain_in_place_spec {S} c p pg max (f : callback S T) st :
  seg_repr size_T c p pg false -> 0 <= max ->
  exists n c' st' k pn, (n <= length p)%nat /\ Z.of_nat n <= max /\
    (p <> [] -> 0 < max -> (0 < n)%nat) /\
    feed f st (take n p) = (st', k, pn) /\
    drain_in_place c max f st = OK (if pn then Unwound else Returned (Z.of_nat n), c', st') /\
    seg_repr size_T c' (drop k p) pg false.
Proof.
  intros (<- & Hcg & n & start & q & l & -> & H) Hm. unfold drain_in_place.
  rewrite (seg_at_size _ _ _ _ _ _ H).
  edestruct (drain_loop_spec (Datatypes.S (Datatypes.S (Datatypes.S (length l)))) c n start q l max f st 0 H Hcg Hm)
    as (m & c' & st' & k & pn & H1 & H2 & H3 & H4 & H5 & H6);
    [right; case_bool_decide; lia|].
  rewrite Z.add_0_l in *. by exists m, c', st', k, pn.
Qed.

(** ** Teardown *)

Lemma drop_span_spec n start q : drop_span (length q) (cells n start q) (Z.of_nat start) = OK q.
Proof.
  assert (forall (m : nat) (b : list (cell T)) (q' : list T) i, m = length q' ->
    (forall j v, q' !! j = Some v -> b !! (i + j)%nat = Some (Some v)) ->
    drop_span m b (Z.of_nat i) = OK q') as Hgen.
  { induction m as [|m IH]; intros b q' i Hm Hb; destruct q' as [|v q']; try done. simpl in Hm.
    cbn [drop_span]. rewrite (index_lookup b i (Some v)) by (rewrite <- (Nat.add_0_r i); by apply Hb).
    cbn [mbind outcome_bind assume_init_read].
    replace (Z.of_nat i + 1) with (Z.of_nat (S i)) by lia.
    rewrite (IH b q' (S i)); [done|lia|]. intros j w Hj. rewrite <- (Hb (S j) w Hj). f_equal. lia. }
  apply Hgen; [done|]. intros j v Hj. unfold cells. rewrite lookup_app_r; rewrite length_replicate; [|lia].
  replace (start + j - start)%nat with j by lia.
  rewrite lookup_app_l by (rewrite length_fmap; by eapply lookup_lt_Some).
  by rewrite list_lookup_fmap, Hj.
Qed.

(** The walk of [Shared]'s drop destroys the contents in order and frees every
    segment of the chain. *)
Lemma shared_drop_spec h n a start q l fuel :
  chain h n a start (Z.of_nat start) q l -> NoDup (a :: l.*1) ->
  dom h = list_to_set (a :: l.*1) -> (length l < fuel)%nat ->
  shared_drop fuel h (Some a) = OK (contents q l, ∅).
Proof.
  revert h a start q fuel. induction l as [|[b qb] l IH]; intros h a start q fuel Hc Hnd Hdom Hf;
    destruct fuel as [|fuel]; try (simpl in Hf; lia); cbn [shared_drop]; unfold deref.
  - destruct Hc as (H1 & -> & _). cbn [mbind outcome_bind published consumed buf next fmap option_fmap option_map list.head].
    replace (Z.to_nat _) with (length q) by lia. rewrite drop_span_spec.
    cbn [mbind outcome_bind]. destruct fuel; simpl; unfold contents; csimpl; rewrite !app_nil_r;
      do 2 f_equal; apply map_empty; intros x; apply not_elem_of_dom; rewrite dom_delete_L, Hdom; csimpl; set_solver.
  - destruct Hc as (H1 & -> & H3 & H4 & H5).
    cbn [mbind outcome_bind published consumed buf next fmap option_fmap option_map list.head fst].
    replace (Z.to_nat _) with (length q) by lia. rewrite drop_span_spec.
    cbn [mbind outcome_bind]. csimpl in *. apply NoDup_cons in Hnd as [Hni Hnd].
    rewrite (IH (delete a h) b 0%nat qb fuel).
    + cbn [mbind outcome_bind]. by rewrite contents_cons.
    + eapply chain_frame; [|done]. intros x Hx. rewrite lookup_delete_ne; [done|]. intros <-. by apply Hni.
    + done.
    + rewrite dom_delete_L, Hdom. set_solver.
    + simpl in Hf. lia.
Qed.

Lemma drop_rx_spec c p pg :
  seg_repr size_T c p pg false ->
  exists c', drop_rx c = OK c' /\ seg_repr size_T c' p pg true.
Proof.
  intros (Hpg & Hcg & n & start & q & l & -> & H).
  destruct (seg_at_current _ _ _ _ _ _ H) as [Hd Hle]. unfold drop_rx. rewrite Hd.
  cbn [mbind outcome_bind buf published next]. eexists. split; [done|]. split; [done|]. split; [done|].
  exists n, start, q, l. split; [done|]. pose proof (sa_rx _ _ _ _ _ _ _ H) as Hrx.
  destruct H. split; cbn [rx heap tx shared fresh sh_head]; try done.
  - assert (rx_idx (rx c) = Z.of_nat start) as -> by (by rewrite Hrx).
    destruct l as [|[b qb] l]; cbn [chain] in *; rewrite lookup_insert_eq.
    + splits.
    + destruct sa_chain0 as (H1 & H2 & H3 & H4 & H5). splits.
      apply NoDup_cons in sa_nodup0 as [Hni _].
      eapply chain_frame; [|done]. intros x Hx. rewrite lookup_insert_ne; [done|].
      intros <-. by apply Hni.
  - rewrite dom_insert_L, sa_dom0. csimpl. set_solver.
Qed.
End specs.

(** ** The storage interface *)

Section backend.
Context {T : Type} (size_T : Z).

#[export] Instance seg_backend : SpscBackend T (Chan T) := {
  bk_channel := channel size_T;
  bk_try_push := try_push size_T;
  bk_push_from := default_push_from (try_push size_T);
  bk_is_consumer_gone := is_consumer_gone;
  bk_drop_tx := drop_tx;
  bk_drop_rx := drop_rx;
  bk_try_pop := try_pop;
  bk_drain_in_place S := @drain_in_place T S;
  bk_drain_into := default_drain_into (fun S => @drain_in_place T S);
  bk_is_empty := is_empty;
  bk_is_finished := is_finished
}.

(** A departed consumer refuses everything. *)
Lemma try_push_gone (c : Chan T) p pg v :
  seg_repr size_T c p pg true -> try_push size_T c v = OK (Err v, c).
Proof. intros (_ & Hcg & _). unfold try_push. by rewrite Hcg. Qed.

Lemma try_push_law (c : Chan T) p pg cg v :
  seg_repr size_T c p pg cg ->
  exists r c', try_push size_T c v = OK (r, c') /\
    ((r = Ok tt /\ seg_repr size_T c' (p ++ [v]) pg cg) \/ (r = Err v /\ seg_repr size_T c' p pg cg)).
Proof.
  intros Hc. destruct cg.
  - rewrite (try_push_gone c p pg v Hc). eexists _, _. split; [done|]. by right.
  - destruct (seg_try_push_spec size_T c p pg v Hc) as (c' & -> & Hc'). eexists _, _. split; [done|]. by left.
Qed.

#[export] Instance seg_laws : SpscLaws T (Chan T).
Proof.
  refine {| bk_repr := seg_repr size_T |}; simpl.
  - apply channel_spec.
  - intros c q cg v Hc. by apply try_push_law.
  - intros c q cg max b s Hc Hb Hm.
    apply (default_push_from_spec (try_push size_T) (fun c q => seg_repr size_T c q false cg)); [|done..].
    intros. by apply try_push_law.
  - by intros c q pg cg (_ & ? & _).
  - intros c q cg (Hp & Hg & n & start & q' & l & -> & H). split; [done|]. split; [done|].
    exists n, start, q', l. split; [done|]. by destruct H.
  - intros c q pg Hc. destruct (drop_rx_spec size_T c q pg Hc) as (c' & ? & ?). by exists c', q.
  - intros c pg Hc. by apply (seg_try_pop_spec size_T c [] pg).
  - intros c v q pg Hc. by apply (seg_try_pop_spec size_T c (v :: q) pg).
  - intros S c q pg max f st Hc Hm. by apply seg_drain_in_place_spec.
  - intros c q pg max b s Hc Hb Hm.
    apply (default_drain_into_spec (fun c q => seg_repr size_T c q pg false)); [|done..].
    intros. by apply seg_drain_in_place_spec.
  - intros c q pg Hc. by eapply seg_is_empty_spec.
  - intros c q pg Hc. unfold is_finished. destruct Hc as (-> & Hc). destruct pg; [|done].
    apply (seg_is_empty_spec size_T c q (producer_gone (shared c))). by split.
Defined.
End backend.

(** ** Clients *)

Section client.
Context {T : Type} (size_T : Z).
Implicit Types (c : Chan T) (p : list T).

(** [SDrain max stop] logs its values and panics on call number [stop]. *)
Inductive seg_op : Type :=
| SPush (v : T)
| SPop
| SDrain (max : Z) (stop : nat)
| SEmpty.

Inductive seg_obs : Type :=
| Pushed (accepted : bool)
| Got (l : list T)
| Empty (b : bool).

Definition seg_step c (o : seg_op) : outcome (seg_obs * Chan T) :=
  match o with
  | SPush v =>
      '(r, c') ← try_push size_T c v;
      OK (Pushed (match r with Ok _ => true | Err _ => false end), c')
  | SPop => '(x, c') ← try_pop c; OK (Got (option_list x), c')
  | SDrain max stop => '(_, c', log) ← drain_in_place c max (logger stop) []; OK (Got log, c')
  | SEmpty => b ← is_empty c; OK (Empty b, c)
  end.

Fixpoint seg_run c (os : list seg_op) : outcome (list seg_obs * Chan T) :=
  match os with
  | [] => OK ([], c)
  | o :: os' => '(x, c1) ← seg_step c o; '(xs, c2) ← seg_run c1 os'; OK (x :: xs, c2)
  end.

(** An unbounded FIFO queue. *)
Inductive queue_spec : list T -> seg_op -> seg_obs -> list T -> Prop :=
| qs_push p v : queue_spec p (SPush v) (Pushed true) (p ++ [v])
| qs_pop p : queue_spec p SPop (Got (take 1 p)) (drop 1 p)
| qs_drain p max stop k :
    (k <= length p)%nat -> Z.of_nat k <= max -> (k <= S stop)%nat ->
    (p <> [] -> 0 < max -> (0 < k)%nat) ->
    queue_spec p (SDrain max stop) (Got (take k p)) (drop k p)
| qs_empty p : queue_spec p SEmpty (Empty (bool_decide (p = []))) p.

Inductive queue_run : list T -> list seg_op -> list seg_obs -> list T -> Prop :=
| qr_nil p : queue_run p [] [] p
| qr_cons p o x p1 os xs p2 :
    queue_spec p o x p1 -> queue_run p1 os xs p2 -> queue_run p (o :: os) (x :: xs) p2.

Definition op_ok (o : seg_op) : bool :=
  match o with SDrain max _ => 0 <=? max | _ => true end.

Lemma seg_step_spec c p pg o :
  seg_repr size_T c p pg false -> op_ok o ->
  exists x c' p', seg_step c o = OK (x, c') /\ queue_spec p o x p' /\ seg_repr size_T c' p' pg false.
Proof.
  intros Hr Ho. destruct o as [v| |max stop|]; simpl in *.
  - destruct (seg_try_push_spec size_T c p pg v Hr) as (c' & -> & Hc'). simpl.
    eexists _, _, _. split; [done|]. split; [constructor|done].
  - pose proof (seg_try_pop_spec size_T c p pg Hr) as H.
    destruct p as [|v p]; destruct H as (c' & -> & Hc'); simpl; eexists _, _, _; (split; [done|]).
    + split; [apply qs_pop|done].
    + split; [apply (qs_pop (v :: p))|]. simpl. by rewrite drop_0.
  - apply Is_true_true, Z.leb_le in Ho.
    destruct (seg_drain_in_place_spec size_T c p pg max (logger stop) [] Hr Ho)
      as (n & c' & log & k & pn & H1 & H2 & H3 & H4 & -> & H5). simpl.
    pose proof (feed_logger stop [] (take n p) ltac:(simpl; lia)) as Hl. rewrite H4 in Hl.
    pose proof (feed_count (logger stop) [] (take n p)) as Hc. rewrite H4 in Hc.
    rewrite length_take_le in Hc by done. destruct Hl as (-> & Hl1 & Hl2). simpl in *.
    rewrite take_take, Nat.min_l by lia. eexists _, _, _. split; [done|].
    split; [|done]. apply qs_drain; [lia..|]. intros Hq Hmx. apply Hl2.
    specialize (H3 Hq Hmx). destruct p, n; simpl; (done || lia).
  - rewrite (seg_is_empty_spec size_T c p pg Hr). simpl. eexists _, _, _. split; [done|].
    split; [constructor|done].
Qed.

Lemma seg_run_spec c p pg os :
  seg_repr size_T c p pg false -> forallb op_ok os ->
  exists xs c' p', seg_run c os = OK (xs, c') /\ queue_run p os xs p' /\ seg_repr size_T c' p' pg false.
Proof.
  revert c p. induction os as [|o os IH]; intros c p Hr Ho; simpl in *.
  - eexists _, _, _. split; [done|]. split; [constructor|done].
  - apply andb_prop_elim in Ho as [Ho Hos].
    destruct (seg_step_spec c p pg o Hr Ho) as (x & c1 & p1 & -> & Hs & Hr1). simpl.
    destruct (IH c1 p1 Hr1 Hos) as (xs & c2 & p2 & -> & Hs2 & Hr2). simpl.
    eexists _, _, _. split; [done|]. split; [by econstructor|done].
Qed.

(** Every linked segment but the last one is full. *)
Lemma chain_full (h : gmap nat (Segment T)) n a start co q l :
  chain h n a start co q l -> l <> [] ->
  (n * (length l - 1) <= length (concat (snd <$> l)))%nat.
Proof.
  revert a start co q. induction l as [|[b qb] l IH]; intros a start co q Hc Hl; [done|].
  destruct Hc as (_ & _ & _ & Hq & Hc). csimpl. rewrite length_app.
  destruct l as [|[b' qb'] l]; [simpl; lia|].
  specialize (IH _ _ _ _ Hc ltac:(done)). destruct Hc as (_ & _ & Hf & _).
  csimpl in *. rewrite Nat.sub_0_r in *. nia.
Qed.
End client.
Arguments seg_op T : clear implicits.
Arguments seg_obs T : clear implicits.

(** ** Properties *)

(** C4: a segmented channel implements an unbounded FIFO queue for every
    sequence of calls while both endpoints are alive: a push is never refused,
    no call panics, reads an unpublished slot or touches a retired segment, and
    a panicking drain callback loses only the values it was handed. *)
Theorem seg_refines_unbounded_fifo {T} (size_T capacity : Z) (c : Chan T) (os : list (seg_op T)) :
  channel size_T capacity = OK c -> forallb op_ok os ->
  exists xs c' p', seg_run size_T c os = OK (xs, c') /\ queue_run [] os xs p'.
Proof.
  intros Hc Ho. destruct (seg_run_spec size_T c [] false os (channel_spec _ _ _ Hc) Ho)
    as (xs & c' & p' & H1 & H2 & _). by exists xs, c', p'.
Qed.

Definition seg_example : Chan Z :=
  mkChan {[ O := mkSegment [None; None] 0 0 None ]} 1 (mkShared (Some O) false false)
    (mkTx 0 0 2) (mkRx 0 0 2).

Definition seg_example_ops : list (seg_op Z) :=
  [SPush 1; SPush 2; SPush 3; SPop; SPush 4; SPush 5; SDrain 9 2; SEmpty; SPop; SPop].

Lemma seg_refines_unbounded_fifo_witness :
  exists xs c' p', seg_run 8 seg_example seg_example_ops = OK (xs, c') /\
    queue_run [] seg_example_ops xs p'.
Proof.
  apply (seg_refines_unbounded_fifo 8 0 seg_example seg_example_ops);
    [vm_compute; reflexivity|exact I].
Defined.

(** After any sequence of calls, dropping the receiver makes every later
    push come back to the caller, and the final teardown destroys exactly the
    values still queued, in order, and frees every segment: nothing is leaked,
    freed twice or destroyed twice. *)
Lemma seg_teardown_exact {T} (size_T capacity : Z) (c c1 : Chan T) (os : list (seg_op T)) xs :
  channel size_T capacity = OK c -> forallb op_ok os -> seg_run size_T c os = OK (xs, c1) ->
  exists p c2, queue_run [] os xs p /\ drop_rx c1 = OK c2 /\
    (forall v, try_push size_T c2 v = OK (Err v, c2)) /\
    teardown (drop_tx c2) = OK (p, ∅).
Proof.
  intros Hc Ho Hrun. destruct (seg_run_spec size_T c [] false os (channel_spec _ _ _ Hc) Ho)
    as (xs' & c' & p & H1 & H2 & H3). rewrite Hrun in H1. injection H1 as <- <-.
  destruct (drop_rx_spec size_T c1 p false H3) as (c2 & Hd & Hr2).
  exists p, c2. splits; [intros v; by eapply try_push_gone|].
  destruct Hr2 as (_ & _ & n & start & q & l & -> & H). unfold teardown, drop_tx.
  cbn [heap shared sh_head]. rewrite (sa_head _ _ _ _ _ _ _ H), (seg_at_size _ _ _ _ _ _ _ H).
  apply (shared_drop_spec _ n _ start); [apply H..|lia].
Qed.

(** Memory follows the backlog: a channel that holds [p] values has at
    most [length p / n + 2] live segments of [n] slots, because the consumer
    frees each segment as it moves past it. *)
Lemma seg_memory_bound {T} (size_T capacity : Z) (c c1 : Chan T) (os : list (seg_op T)) xs :
  channel size_T capacity = OK c -> forallb op_ok os -> seg_run size_T c os = OK (xs, c1) ->
  exists p n, queue_run [] os xs p /\ Z.of_nat n = tx_size (tx c1) /\ (2 <= n)%nat /\
    (n * size (heap c1) <= length p + 2 * n)%nat.
Proof.
  intros Hc Ho Hrun. destruct (seg_run_spec size_T c [] false os (channel_spec _ _ _ Hc) Ho)
    as (xs' & c' & p & H1 & H2 & H3). rewrite Hrun in H1. injection H1 as <- <-.
  destruct H3 as (_ & _ & n & start & q & l & -> & H). exists (contents q l), n.
  split; [done|]. split; [by rewrite (sa_tx _ _ _ _ _ _ _ H)|]. split; [apply H|].
  rewrite (seg_at_size _ _ _ _ _ _ _ H). unfold contents. rewrite length_app.
  destruct (decide (l = [])) as [->|Hl]; [simpl; lia|].
  pose proof (chain_full _ _ _ _ _ _ _ (sa_chain _ _ _ _ _ _ _ H) Hl) as Hf.
  destruct l as [|x l]; [done|]. simpl in *. rewrite Nat.sub_0_r in Hf. lia.
Qed.

End seg.
