(* ===== verification/MpscPool.v ===== *)
(** * The producer pool's slot bitmap: [PoolSlots] of [src/src/mpsc/chan.rs]

    [PoolSlots] is the lock-free store behind [PoolHandle::claim] and the
    receiver's recycling: bit [i] of [free] is set exactly while [slots[i]] may
    be claimed. The first part is the code of each method; the second part runs
    any number of claimers against the single recycling consumer, one shared
    access at a time, with spurious failures of the weak compare-exchange. *)

From stdpp Require Import prelude.
From S2P Require Import Prelude.
Local Open Scope Z_scope.

Module pool.

(** ** Bits *)

(** [cur & !mask] and [cur | mask] for a one-bit mask. *)
Definition clear_bit (x : Z) (b : Z) : Z := Z.ldiff x (Z.shiftl 1 b).
Definition set_bit (x : Z) (b : Z) : Z := Z.lor x (Z.shiftl 1 b).

Lemma clear_bit_spec x b i : 0 <= b -> 0 <= i -> Z.testbit (clear_bit x b) i = Z.testbit x i && negb (b =? i).
Proof. intros. unfold clear_bit. by rewrite Z.ldiff_spec, one_bit. Qed.

Lemma set_bit_spec x b i : 0 <= b -> 0 <= i -> Z.testbit (set_bit x b) i = Z.testbit x i || (b =? i).
Proof. intros. unfold set_bit. by rewrite Z.lor_spec, one_bit. Qed.

Lemma bits_range x : 0 <= x -> (forall i, 64 <= i -> Z.testbit x i = false) -> x < USIZE.
Proof.
  intros Hx Hb. destruct (decide (x = 0)) as [->|Hne]; [lia|].
  change USIZE with (2 ^ 64). apply Z.log2_lt_pow2; [lia|].
  destruct (Z.lt_ge_cases (Z.log2 x) 64) as [|Hge]; [done|].
  specialize (Hb (Z.log2 x) Hge). by rewrite Z.bit_log2 in Hb by lia.
Qed.

(** ** [PoolSlots] *)

Section slots.
Context {X : Type}.

Record PoolSlots := mkSlots { free : Z; slots : list (option X) }.

Definition PoolSlots_new (senders : list X) : PoolSlots :=
  let n_max := Z.of_nat (length senders) in
  mkSlots (if 64 <=? n_max then USIZE - 1 else Z.shiftl 1 n_max - 1) (Some <$> senders).

(** One successful pass of [claim]; the retry loop is in the machine below. *)
Definition claim (s : PoolSlots) : outcome (option X * PoolSlots) :=
  let cur := free s in
  if cur =? 0 then OK (None, s) else
  let bit := trailing_zeros cur in
  match slots s !! Z.to_nat bit with
  | None => PANIC
  | Some None => PANIC
  | Some (Some tx) => OK (Some tx, mkSlots (clear_bit cur bit) (<[Z.to_nat bit := None]> (slots s)))
  end.

Definition recycle_slot (s : PoolSlots) (slot : nat) (tx : X) : outcome PoolSlots :=
  if decide (slot < length (slots s))%nat
  then OK (mkSlots (set_bit (free s) (Z.of_nat slot)) (<[slot := Some tx]> (slots s)))
  else PANIC.

(** A set bit is a claimable slot; there are at most 64 of them. *)
Record pool_ok (s : PoolSlots) : Prop := {
  po_len : (length (slots s) <= 64)%nat;
  po_pos : 0 <= free s;
  po_bits : forall i, 0 <= i -> Z.testbit (free s) i = true ->
            exists x, slots s !! Z.to_nat i = Some (Some x)
}.

Lemma pool_ok_range s : pool_ok s -> 0 <= free s < USIZE.
Proof.
  intros [H1 H2 H3]. split; [done|]. apply bits_range; [done|]. intros i Hi.
  destruct (Z.testbit (free s) i) eqn:E; [|done]. destruct (H3 i ltac:(lia) E) as [x Hx].
  apply lookup_lt_Some in Hx. lia.
Qed.

Lemma pool_ok_new senders : (length senders <= 64)%nat -> pool_ok (PoolSlots_new senders).
Proof.
  intros Hn. unfold PoolSlots_new.
  assert ((if 64 <=? Z.of_nat (length senders) then USIZE - 1
           else Z.shiftl 1 (Z.of_nat (length senders)) - 1) = Z.ones (Z.of_nat (length senders))) as ->.
  { destruct (Z.leb_spec 64 (Z.of_nat (length senders))).
    - replace (Z.of_nat (length senders)) with 64 by lia. done.
    - rewrite Z.ones_equiv, Z.shiftl_1_l. lia. }
  split; simpl.
  - by rewrite length_fmap.
  - rewrite Z.ones_equiv. pose proof (pow2_pos (Z.of_nat (length senders)) ltac:(lia)). lia.
  - intros i Hi Hb. rewrite Z.testbit_ones_nonneg in Hb by lia. apply Z.ltb_lt in Hb.
    rewrite list_lookup_fmap. destruct (lookup_lt_is_Some_2 senders (Z.to_nat i)) as [x ->]; [lia|].
    by exists x.
Qed.
End slots.
Arguments PoolSlots X : clear implicits.

(** ** The claim / recycle race *)

Section race.
Context {X : Type}.

(** [CCas cur]: loaded [cur <> 0], about to compare-exchange. [CTake b]: won bit
    [b], about to take the sender. [CGot b x]: the producer owns the shard. *)
Inductive cpc : Type :=
| CLoad
| CCas (cur : Z)
| CTake (b : nat)
| CGot (b : nat) (x : X)
| CNone.

(** The receiver: idle, about to write a reset sender into slot [b], or about
    to publish bit [b]. *)
Inductive rpc : Type :=
| RIdle
| RWrite (b : nat) (x : X)
| ROr (b : nat).

Record world := mkWorld { pw : PoolSlots X; claimers : list cpc; recycler : rpc }.

Definition held (c : cpc) : option nat :=
  match c with CTake b => Some b | CGot b _ => Some b | _ => None end.
Definition rheld (r : rpc) : option nat :=
  match r with RIdle => None | RWrite b _ => Some b | ROr b => Some b end.

Inductive event : Type :=
| ELoad (j : nat)
| ECas (j : nat) (spurious : bool)
| ETake (j : nat)
| EReset (j : nat) (x : X)   (* the shard is drained and released; reset it *)
| EStore
| EPublish.

Definition step (w : world) (e : event) : option (outcome world) :=
  let '(mkWorld s cl r) := w in
  match e with
  | ELoad j =>
      match cl !! j with
      | Some CLoad => Some (OK (mkWorld s (<[j := if free s =? 0 then CNone else CCas (free s)]> cl) r))
      | Some CNone => Some (OK (mkWorld s (<[j := CLoad]> cl) r))
      | _ => None
      end
  | ECas j spurious =>
      match cl !! j with
      | Some (CCas cur) =>
          if (free s =? cur) && negb spurious then
            let bit := trailing_zeros cur in
            Some (OK (mkWorld (mkSlots (clear_bit cur bit) (slots s)) (<[j := CTake (Z.to_nat bit)]> cl) r))
          else Some (OK (mkWorld s (<[j := CLoad]> cl) r))
      | _ => None
      end
  | ETake j =>
      match cl !! j with
      | Some (CTake b) =>
          match slots s !! b with
          | Some (Some x) =>
              Some (OK (mkWorld (mkSlots (free s) (<[b := None]> (slots s))) (<[j := CGot b x]> cl) r))
          | _ => Some PANIC
          end
      | _ => None
      end
  | EReset j x =>
      match cl !! j, r with
      | Some (CGot b _), RIdle => Some (OK (mkWorld s (<[j := CLoad]> cl) (RWrite b x)))
      | _, _ => None
      end
  | EStore =>
      match r with
      | RWrite b x =>
          if decide (b < length (slots s))%nat
          then Some (OK (mkWorld (mkSlots (free s) (<[b := Some x]> (slots s))) cl (ROr b)))
          else Some PANIC
      | _ => None
      end
  | EPublish =>
      match r with
      | ROr b => Some (OK (mkWorld (mkSlots (set_bit (free s) (Z.of_nat b)) (slots s)) cl RIdle))
      | _ => None
      end
  end.

Inductive reachable (senders : list X) (n : nat) : world -> Prop :=
| reach_init : reachable senders n (mkWorld (PoolSlots_new senders) (replicate n CLoad) RIdle)
| reach_step w e w' : reachable senders n w -> step w e = Some (OK w') -> reachable senders n w'.

Record race_inv (w : world) : Prop := {
  ri_ok : pool_ok (pw w);
  ri_claim_bit : forall j c b, claimers w !! j = Some c -> held c = Some b ->
    (b < length (slots (pw w)))%nat /\ Z.testbit (free (pw w)) (Z.of_nat b) = false;
  ri_take : forall j b, claimers w !! j = Some (CTake b) ->
    exists x, slots (pw w) !! b = Some (Some x);
  ri_excl : forall j k c d b, claimers w !! j = Some c -> claimers w !! k = Some d ->
    held c = Some b -> held d = Some b -> j = k;
  ri_rec : forall b, rheld (recycler w) = Some b ->
    (b < length (slots (pw w)))%nat /\ Z.testbit (free (pw w)) (Z.of_nat b) = false /\
    forall j c, claimers w !! j = Some c -> held c <> Some b;
  ri_or : forall b, recycler w = ROr b -> exists x, slots (pw w) !! b = Some (Some x);
  ri_cas : forall j cur, claimers w !! j = Some (CCas cur) -> 0 < cur < USIZE
}.

Lemma race_inv_init senders n :
  (length senders <= 64)%nat -> race_inv (mkWorld (PoolSlots_new senders) (replicate n CLoad) RIdle).
Proof.
  intros Hn. split; simpl; try done; [by apply pool_ok_new|..]; intros *;
    intros Hl%lookup_replicate; try (by destruct Hl as [? ?]); destruct Hl as [-> _]; done.
Qed.

(** A claimer's move that holds no more than before keeps the invariant. *)
Lemma race_inv_update s cl r j c c' :
  race_inv (mkWorld s cl r) -> cl !! j = Some c ->
  (held c' = None \/ held c' = held c) -> (forall b, c' = CTake b -> c = CTake b) ->
  (forall cur, c' = CCas cur -> 0 < cur < USIZE) ->
  race_inv (mkWorld s (<[j := c']> cl) r).
Proof.
  intros [H1 H2 H3 H4 H5 H6 H7] Hj Hh Ht Hc. simpl in *.
  assert (forall k d b, <[j := c']> cl !! k = Some d -> held d = Some b ->
    exists d', cl !! k = Some d' /\ held d' = Some b) as Hold.
  { intros k d b Hk Hd. updated Hk; [|by exists d]. exists c. split; [done|]. destruct Hh; congruence. }
  split; simpl; try done.
  - intros k d b Hk Hd. destruct (Hold k d b Hk Hd) as (d' & ? & ?). by eapply H2.
  - intros k b Hk. updated Hk; [|by eapply H3]. apply (H3 k). rewrite Hj. f_equal. by apply Ht.
  - intros k k' d d' b Hk Hk' Hd Hd'.
    destruct (Hold k d b Hk Hd) as (e & ? & ?), (Hold k' d' b Hk' Hd') as (e' & ? & ?). by eapply H4.
  - intros b Hb. destruct (H5 b Hb) as (? & ? & Hex). splits. intros k d Hk Hd.
    destruct (Hold k d b Hk Hd) as (d' & ? & ?). by eapply Hex.
  - intros k cur Hk. updated Hk; [by apply Hc|by eapply H7].
Qed.

Lemma race_inv_cas s cl r j cur :
  race_inv (mkWorld s cl r) -> cl !! j = Some (CCas cur) -> free s = cur ->
  race_inv (mkWorld (mkSlots (clear_bit cur (trailing_zeros cur)) (slots s))
              (<[j := CTake (Z.to_nat (trailing_zeros cur))]> cl) r).
Proof.
  intros [H1 H2 H3 H4 H5 H6 H7] Hj Hf. simpl in *.
  destruct (trailing_zeros_spec cur (H7 j cur Hj)) as [Hbit Hrange].
  set (b := trailing_zeros cur) in *. destruct H1 as [O1 O2 O3]. rewrite Hf in *.
  destruct (O3 b ltac:(lia) Hbit) as [x Hx].
  assert (forall i : nat, Z.testbit (clear_bit cur b) (Z.of_nat i) = true -> Z.testbit cur (Z.of_nat i) = true) as Hsub.
  { intros i. rewrite clear_bit_spec by lia. by intros [? _]%andb_prop. }
  assert (forall i : nat, Z.testbit cur (Z.of_nat i) = false -> Z.testbit (clear_bit cur b) (Z.of_nat i) = false) as Hmono.
  { intros i Hi. destruct (Z.testbit (clear_bit cur b) (Z.of_nat i)) eqn:E; [|done]. apply Hsub in E. congruence. }
  assert (Z.testbit (clear_bit cur b) b = false) as Hclr
    by (rewrite clear_bit_spec, Z.eqb_refl by lia; apply andb_false_r).
  assert (forall k d, cl !! k = Some d -> held d <> Some (Z.to_nat b)) as Hnh.
  { intros k d Hk Hd. destruct (H2 k d _ Hk Hd) as [_ Hz]. rewrite Z2Nat.id in Hz by lia. congruence. }
  split; simpl.
  - split; simpl; [done| |].
    + unfold clear_bit. apply Z.ldiff_nonneg. by left.
    + intros i Hi Hb. apply O3; [done|]. rewrite clear_bit_spec in Hb by lia. by apply andb_prop in Hb as [? _].
  - intros k d b' Hk Hd. updated Hk.
    + injection Hd as <-. split; [by eapply lookup_lt_Some|]. by rewrite Z2Nat.id by lia.
    + destruct (H2 k d b' Hk Hd). split; [done|by apply Hmono].
  - intros k b' Hk. updated Hk; [by exists x|by eapply H3].
  - intros k k' d d' b' Hk Hk' Hd Hd'. updated Hk; updated Hk'; [done|..|by eapply H4].
    + injection Hd as <-. by destruct (Hnh _ _ Hk').
    + injection Hd' as <-. by destruct (Hnh _ _ Hk).
  - intros b' Hb. destruct (H5 b' Hb) as (? & Hz & Hex). splits; [by apply Hmono|].
    intros k d Hk Hd. updated Hk; [|by eapply Hex].
    injection Hd as <-. rewrite Z2Nat.id in Hz by lia. congruence.
  - done.
  - intros k cur' Hk. updated Hk. by eapply H7.
Qed.

Lemma race_inv_take s cl r j b x :
  race_inv (mkWorld s cl r) -> cl !! j = Some (CTake b) -> slots s !! b = Some (Some x) ->
  race_inv (mkWorld (mkSlots (free s) (<[b := None]> (slots s))) (<[j := CGot b x]> cl) r).
Proof.
  intros Hi Hj Hb. pose proof Hi as Hi0.
  apply (race_inv_update s cl r j (CTake b) (CGot b x)) in Hi; [|done|by right|done|done].
  destruct Hi as [H1 H2 H3 H4 H5 H6 H7]. simpl in *.
  destruct (ri_claim_bit _ Hi0 j _ b Hj eq_refl) as [Hlt Hz]. simpl in *.
  assert (<[j := CGot b x]> cl !! j = Some (CGot b x)) as Hj'
    by (apply list_lookup_insert_eq; by eapply lookup_lt_Some).
  split; simpl; rewrite ?length_insert; try done.
  - destruct H1 as [O1 O2 O3]. split; simpl; rewrite ?length_insert; try done.
    intros i Hi Hbit. rewrite list_lookup_insert_ne; [by apply O3|]. intros E. subst b.
    rewrite Z2Nat.id in Hz by done. congruence.
  - intros k b' Hk. destruct (H3 k b' Hk) as [y Hy]. exists y.
    rewrite list_lookup_insert_ne; [done|]. intros ->.
    assert (j = k) as -> by (by eapply H4). rewrite Hj' in Hk. done.
  - intros b' Hb'. destruct (H6 b' Hb') as [y Hy]. exists y. rewrite list_lookup_insert_ne; [done|].
    intros ->. destruct (H5 b') as (_ & _ & Hex); [by rewrite Hb'|]. by apply (Hex j _ Hj').
Qed.

Lemma race_inv_reset s cl j b y x :
  race_inv (mkWorld s cl RIdle) -> cl !! j = Some (CGot b y) ->
  race_inv (mkWorld s (<[j := CLoad]> cl) (RWrite b x)).
Proof.
  intros Hi Hj. destruct (ri_claim_bit _ Hi j _ b Hj eq_refl) as [Hlt Hz]. simpl in *.
  pose proof (ri_excl _ Hi) as Hex. simpl in Hex.
  apply (race_inv_update s cl RIdle j (CGot b y) CLoad) in Hi; [|done|by left|done|done].
  destruct Hi as [H1 H2 H3 H4 H5 H6 H7]. split; simpl in *; try done.
  intros b' [= <-]. splits. intros k d Hk Hd. updated Hk. by specialize (Hex j k _ _ b Hj Hk eq_refl Hd).
Qed.

Lemma race_inv_store s cl b x :
  race_inv (mkWorld s cl (RWrite b x)) ->
  race_inv (mkWorld (mkSlots (free s) (<[b := Some x]> (slots s))) cl (ROr b)).
Proof.
  intros [H1 H2 H3 H4 H5 H6 H7]. simpl in *. destruct (H5 b eq_refl) as (Hlt & Hz & Hex).
  split; simpl; rewrite ?length_insert; try done.
  - destruct H1 as [O1 O2 O3]. split; simpl; rewrite ?length_insert; try done.
    intros i Hi Hbit. rewrite list_lookup_insert_ne; [by apply O3|]. intros E. subst b.
    rewrite Z2Nat.id in Hz by done. congruence.
  - intros k b' Hk. destruct (H3 k b' Hk) as [y Hy]. exists y.
    rewrite list_lookup_insert_ne; [done|]. intros ->. by apply (Hex k _ Hk).
  - intros b' [= <-]. exists x. by apply list_lookup_insert_eq.
Qed.

Lemma race_inv_publish s cl b :
  race_inv (mkWorld s cl (ROr b)) ->
  race_inv (mkWorld (mkSlots (set_bit (free s) (Z.of_nat b)) (slots s)) cl RIdle).
Proof.
  intros [H1 H2 H3 H4 H5 H6 H7]. simpl in *. destruct (H5 b eq_refl) as (Hlt & Hz & Hex).
  destruct (H6 b eq_refl) as [x Hx].
  split; simpl; try done.
  - destruct H1 as [O1 O2 O3]. split; simpl; try done.
    + unfold set_bit. rewrite Z.lor_nonneg, Z.shiftl_nonneg. lia.
    + intros i Hi Hbit. rewrite set_bit_spec in Hbit by lia. apply orb_prop in Hbit as [?|E]; [by apply O3|].
      apply Z.eqb_eq in E. exists x. by rewrite <- E, Nat2Z.id.
  - intros k d b' Hk Hd. destruct (H2 k d b' Hk Hd) as [? Hz']. split; [done|].
    rewrite set_bit_spec, Hz' by lia. simpl. apply Z.eqb_neq. intros E%Nat2Z.inj. subst b'.
    by apply (Hex k d Hk).
Qed.

Lemma race_inv_step w e o : race_inv w -> step w e = Some o -> exists w', o = OK w' /\ race_inv w'.
Proof.
  destruct w as [s cl r]. intros Hi Hs. pose proof (pool_ok_range _ (ri_ok _ Hi)) as Hr. simpl in Hr.
  destruct e as [j|j sp|j|j x| |]; simpl in Hs.
  - destruct (cl !! j) as [[| | | |]|] eqn:E; try done; injection Hs as <-; eexists; (split; [done|]);
      eapply race_inv_update; try done; try (by left).
    + destruct (free s =? 0); by left.
    + by destruct (free s =? 0).
    + intros cur. destruct (Z.eqb_spec (free s) 0); [done|]. intros [= <-]. lia.
  - destruct (cl !! j) as [[|cur| | |]|] eqn:E; try done.
    destruct (Z.eqb_spec (free s) cur) as [Hf|Hf], sp; simpl in Hs; injection Hs as <-;
      eexists; (split; [done|]).
    2: by apply race_inv_cas.
    all: eapply race_inv_update; try done; by left.
  - destruct (cl !! j) as [[| |b| |]|] eqn:E; try done.
    destruct (ri_take _ Hi j b E) as [x Hx]. simpl in Hx. rewrite Hx in Hs. injection Hs as <-.
    eexists. split; [done|]. by apply race_inv_take.
  - destruct (cl !! j) as [[| | |b y|]|] eqn:E; try done. destruct r; try done. injection Hs as <-.
    eexists. split; [done|]. by eapply race_inv_reset.
  - destruct r as [|b x|]; try done. destruct (ri_rec _ Hi b eq_refl) as (Hlt & _). simpl in Hlt.
    rewrite decide_True in Hs by done. injection Hs as <-. eexists. split; [done|]. by apply race_inv_store.
  - destruct r as [| |b]; try done. injection Hs as <-. eexists. split; [done|]. by apply race_inv_publish.
Qed.

Lemma race_inv_reachable senders n w :
  (length senders <= 64)%nat -> reachable senders n w -> race_inv w.
Proof.
  intros Hn Hr. induction Hr as [|w e w' Hr IH Hs]; [by apply race_inv_init|].
  destruct (race_inv_step w e _ IH Hs) as (w'' & [= <-] & ?). done.
Qed.

Fixpoint run (w : world) (es : list event) : option world :=
  match es with
  | [] => Some w
  | e :: es' => match step w e with Some (OK w') => run w' es' | _ => None end
  end.

Lemma run_reach senders n w es w' :
  reachable senders n w -> run w es = Some w' -> reachable senders n w'.
Proof.
  revert w. induction es as [|e es IH]; intros w Hr Hs; simpl in Hs; [by simplify_eq|].
  destruct (step w e) as [[w1| |]|] eqn:E; try done. eapply IH; [|done]. by econstructor.
Qed.
End race.
Arguments world X : clear implicits.
Arguments event X : clear implicits.
Arguments cpc X : clear implicits.

(** ** Properties *)

(** C29: in every interleaving of any number of claimers with the recycling
    receiver, no access panics (a won bit always has a sender in its slot), no
    two claimers hold the same slot, and the slot being recycled is held by no
    claimer: each slot cell is only ever accessed by its single holder. *)
Theorem pool_claims_exclusive {X} (senders : list X) (n : nat) (w : world X) :
  (length senders <= 64)%nat -> reachable senders n w ->
  (forall e o, step w e = Some o -> exists w', o = OK w') /\
  (forall j k c d b, claimers w !! j = Some c -> claimers w !! k = Some d ->
     held c = Some b -> held d = Some b -> j = k) /\
  (forall b j c, rheld (recycler w) = Some b -> claimers w !! j = Some c -> held c <> Some b) /\
  (forall b j c, claimers w !! j = Some c -> held c = Some b ->
     Z.testbit (free (pw w)) (Z.of_nat b) = false).
Proof.
  intros Hn Hr. pose proof (race_inv_reachable _ _ _ Hn Hr) as Hi. splits.
  - intros e o Hs. destruct (race_inv_step w e o Hi Hs) as (w' & ? & _). by exists w'.
  - apply Hi.
  - intros b j c Hb Hj. destruct (ri_rec _ Hi b Hb) as (_ & _ & Hex). by eapply Hex.
  - intros b j c Hj Hh. by apply (ri_claim_bit _ Hi j c b).
Qed.

Definition race_schedule : list (event nat) :=
  [ELoad 0; ELoad 1; ECas 0 false; ECas 1 false; ELoad 1; ECas 1 true; ELoad 1; ECas 1 false; ETake 1;
   ETake 0; EReset 0 7%nat; EStore].

Definition race_state : world nat :=
  mkWorld (mkSlots 0 [Some 7%nat; None]) [CLoad; CGot 1 6%nat] (ROr 0).

Lemma race_state_reachable : reachable [5; 6]%nat 2 race_state.
Proof. apply (run_reach [5; 6]%nat 2 _ race_schedule _ (reach_init _ _)). reflexivity. Defined.

Lemma pool_claims_exclusive_witness :
  length (claimers race_state) = 2%nat /\
  (forall b j c, rheld (recycler race_state) = Some b -> claimers race_state !! j = Some c -> held c <> Some b).
Proof.
  split; [vm_compute; reflexivity|].
  exact (proj1 (proj2 (proj2 (pool_claims_exclusive [5; 6]%nat 2 race_state
    ltac:(simpl; lia) race_state_reachable)))).
Defined.

(** Without interference, a claim succeeds exactly when a bit is set; it
    returns the sender of the lowest free slot, clears that bit only, and
    recycling the slot makes the pool claimable again with the new sender. *)
Theorem claim_lowest_free {X} (s : PoolSlots X) (tx : X) :
  pool_ok s ->
  if free s =? 0 then claim s = OK (None, s)
  else exists (b : nat) x s', claim s = OK (Some x, s') /\ slots s !! b = Some (Some x) /\
    Z.testbit (free s) (Z.of_nat b) = true /\
    (forall i, 0 <= i < Z.of_nat b -> Z.testbit (free s) i = false) /\
    (forall i, 0 <= i -> Z.testbit (free s') i = (Z.testbit (free s) i && negb (Z.of_nat b =? i))) /\
    exists s'', recycle_slot s' b tx = OK s'' /\ free s'' = free s /\
      slots s'' = <[b := Some tx]> (slots s).
Proof.
  intros Hok. pose proof (pool_ok_range s Hok) as Hr. unfold claim.
  destruct (Z.eqb_spec (free s) 0) as [|Hne]; [done|].
  destruct (trailing_zeros_spec (free s) ltac:(lia)) as [Hbit Hb].
  destruct (po_bits _ Hok _ (proj1 Hb) Hbit) as [x Hx]. rewrite Hx.
  exists (Z.to_nat (trailing_zeros (free s))), x. eexists. split; [done|]. split; [done|].
  rewrite Z2Nat.id by lia. split; [done|].
  split; [intros i Hi; apply trailing_zeros_lowest; lia|]. simpl. split; [intros i Hi; apply clear_bit_spec; lia|].
  unfold recycle_slot. simpl. rewrite length_insert, decide_True by (by eapply lookup_lt_Some).
  eexists. split; [done|]. simpl. rewrite list_insert_insert_eq, Z2Nat.id by lia. split; [|done].
  apply Z.bits_inj'. intros i Hi. rewrite set_bit_spec, clear_bit_spec by lia.
  destruct (Z.eqb_spec (trailing_zeros (free s)) i) as [<-|]; [by rewrite Hbit|].
  rewrite andb_true_r, orb_false_r. done.
Qed.

Lemma claim_lowest_free_witness :
  exists (b : nat) x s', claim (PoolSlots_new [5; 6; 7]%nat) = OK (Some x, s') /\
    Z.testbit (free (PoolSlots_new [5; 6; 7]%nat)) (Z.of_nat b) = true /\
    exists s'', recycle_slot s' b 9%nat = OK s'' /\ free s'' = free (PoolSlots_new [5; 6; 7]%nat).
Proof.
  destruct (claim_lowest_free (PoolSlots_new [5; 6; 7]%nat) 9%nat
    (pool_ok_new [5; 6; 7]%nat ltac:(simpl; lia))) as (b & x & s' & H1 & _ & H3 & _ & _ & s'' & H5 & H6 & _).
  exists b, x, s'. split; [exact H1|]. split; [exact H3|]. exists s''. split; [exact H5|exact H6].
Defined.

End pool.
