(* ===== verification/Rings.v ===== *)
(** * Ring membership of the brokerless engines

    [src/src/mpmc/brokerless/dynamic.rs] calls the structure that consumers scan
    for rings the runtime; its trait [Rings] is the class [Rings] here. A ring is
    the number of its [Slot] in the channel's store. [FixedRings] is the boxed
    slice of [brokerless/mod.rs] under the same interface, [LockedRings] the
    mutex-protected vector with one private snapshot per consumer, [ArrayRings]
    the bounded array of atomic cells. [Rings::push] makes two shared accesses in
    both dynamic runtimes, and another registrar or a consumer can run between
    them: they are the two operations [rg_reserve] and [rg_publish].

    [RingsLaws] is what the scanning consumers rely on; the three instances
    discharge it, and [Brokerless.v] uses nothing else. *)

From stdpp Require Import prelude.
From S2P Require Import Prelude RoundRobin.
Local Open Scope Z_scope.

(** ** The trait *)

Class Rings (M K : Type) := {
  (** A membership as it is opened, with the number of rings it starts with and
      whether it has a registrar. *)
  rg_open : Z -> M;
  rg_initial : Z -> nat;
  rg_registrars : nat;
  rg_cursor : Z -> K;
  rg_prefer : K -> K;
  (** The two accesses of [push]: nothing when the bounded array is full; the
      token is the reserved index. *)
  rg_reserve : M -> nat -> option (M * Z);
  rg_publish : M -> Z -> nat -> M;
  rg_count : M -> Z;
  (** [None]: no ring yet; [Some None]: the null pointer of a reserved cell. *)
  rg_next : M -> K -> outcome (option (option nat) * K)
}.

(** The rings that a pass of [k] selections reaches while the membership does
    not change. *)
Fixpoint scan {M K} `{Rings M K} (k : nat) (m : M) (cur : K) : list nat :=
  match k with
  | O => []
  | S k' =>
      match rg_next m cur with
      | OK (Some (Some id), cur') => id :: scan k' m cur'
      | OK (Some None, cur') => scan k' m cur'
      | _ => []
      end
  end.

(** ** The contract *)

Class RingsLaws (M K : Type) `{Rings M K} := {
  (** [rg_repr m ids pend]: the rings [ids] are members, and the pushes [pend]
      (token and ring) are between their two accesses. *)
  rg_repr : M -> list nat -> list (Z * nat) -> Prop;
  (** Cursors at rest, and cursors that have just selected a ring. *)
  rg_cur : M -> K -> Prop;
  rg_sel : M -> K -> Prop;
  rg_open_law : forall n, 0 <= n -> rg_repr (rg_open n) (seq 0 (rg_initial n)) [];
  rg_cursor_law : forall m seed, 0 <= seed -> rg_cur m (rg_cursor seed);
  rg_sel_law : forall m cur, rg_sel m cur -> rg_cur m cur /\ rg_cur m (rg_prefer cur);
  rg_reserve_law : forall m ids pend id m' tok,
    rg_repr m ids pend -> rg_reserve m id = Some (m', tok) ->
    rg_repr m' ids ((tok, id) :: pend) /\
    (forall cur, rg_cur m cur -> rg_cur m' cur) /\ (forall cur, rg_sel m cur -> rg_sel m' cur);
  rg_publish_law : forall m ids pend id tok,
    rg_repr m ids ((tok, id) :: pend) ->
    rg_repr (rg_publish m tok id) (id :: ids) pend /\
    (forall cur, rg_cur m cur -> rg_cur (rg_publish m tok id) cur) /\
    (forall cur, rg_sel m cur -> rg_sel (rg_publish m tok id) cur);
  rg_pend_law : forall m ids pend pend', pend ≡ₚ pend' -> rg_repr m ids pend -> rg_repr m ids pend';
  rg_next_law : forall m ids pend cur, rg_repr m ids pend -> rg_cur m cur ->
    exists o cur', rg_next m cur = OK (o, cur') /\ rg_cur m cur' /\
      (o <> None -> rg_sel m cur') /\
      (forall id, o = Some (Some id) -> id ∈ ids \/ id ∈ pend.*2);
  (** With no push under way, a pass of [rg_count] selections reaches every
      member. *)
  rg_cover_law : forall m ids cur id, rg_repr m ids [] -> rg_cur m cur -> id ∈ ids ->
    id ∈ scan (Z.to_nat (rg_count m)) m cur
}.

(** ** Fixed membership: the boxed slice of [n] slots *)

Record FixedRings := mkFixed { n_slots : Z }.

#[export] Instance fixed_rings : Rings FixedRings Cursor := {
  rg_open n := mkFixed n;
  rg_initial n := Z.to_nat n;
  rg_registrars := 0;
  rg_cursor := Cursor_new;
  rg_prefer := prefer;
  rg_reserve _ _ := None;
  rg_publish m _ _ := m;
  rg_count := n_slots;
  rg_next m cur :=
    if n_slots m =? 0 then OK (None, cur)
    else let '(i, cur') := Cursor_next cur (n_slots m) in OK (Some (Some (Z.to_nat i)), cur')
}.

(** ** Unbounded membership: [LockedRings] *)

Record LockedRings := mkLocked { lk_slots : list nat; lk_count : Z }.

Record LockedCursor := mkLockedCursor { lc_scan : Cursor; snap : list nat }.

(** The snapshot is refreshed when it is shorter than the published count. *)
Definition locked_snapshot (m : LockedRings) (cur : LockedCursor) : list nat :=
  if Z.of_nat (length (snap cur)) <? lk_count m then lk_slots m else snap cur.

Definition locked_next (m : LockedRings) (cur : LockedCursor)
    : outcome (option (option nat) * LockedCursor) :=
  if lk_count m =? 0 then OK (None, cur) else
  let sn := locked_snapshot m cur in
  let '(i, sc) := Cursor_next (lc_scan cur) (Z.of_nat (length sn)) in
  match sn !! Z.to_nat i with
  | Some id => OK (Some (Some id), mkLockedCursor sc sn)
  | None => PANIC
  end.

#[export] Instance locked_rings : Rings LockedRings LockedCursor := {
  rg_open _ := mkLocked [] 0;
  rg_initial _ := 0%nat;
  rg_registrars := 1%nat;
  rg_cursor seed := mkLockedCursor (Cursor_new seed) [];
  rg_prefer cur := mkLockedCursor (prefer (lc_scan cur)) (snap cur);
  rg_reserve m id := Some (mkLocked (lk_slots m ++ [id]) (lk_count m), 0);
  rg_publish m _ _ := mkLocked (lk_slots m) (lk_count m + 1);
  rg_count := lk_count;
  rg_next := locked_next
}.

(** ** Bounded membership: [ArrayRings] *)

Record ArrayRings := mkArray { cells : list (option nat); ar_len : Z }.

Definition array_next (m : ArrayRings) (cur : Cursor) : outcome (option (option nat) * Cursor) :=
  if ar_len m =? 0 then OK (None, cur) else
  let '(i, cur') := Cursor_next cur (ar_len m) in
  match cells m !! Z.to_nat i with
  | Some o => OK (Some o, cur')
  | None => PANIC
  end.

#[export] Instance array_rings : Rings ArrayRings Cursor := {
  rg_open max := mkArray (replicate (Z.to_nat (Z.max max 1)) None) 0;
  rg_initial _ := 0%nat;
  rg_registrars := 1%nat;
  rg_cursor := Cursor_new;
  rg_prefer := prefer;
  rg_reserve m _ :=
    if ar_len m <? Z.of_nat (length (cells m))
    then Some (mkArray (cells m) (ar_len m + 1), ar_len m) else None;
  rg_publish m i id := mkArray (<[Z.to_nat i := Some id]> (cells m)) (ar_len m);
  rg_count := ar_len;
  rg_next := array_next
}.

(** ** Scans as round-robin visits *)

(** A membership whose selections index a table of [len] rings scans them in
    the order of [visits]. *)
Lemma scan_visits {M K} `{Rings M K} (m : M) (P : K -> Prop) (pos : K -> Z) (len : Z) (ring : Z -> nat) :
  (forall cur, P cur -> exists cur',
    rg_next m cur = OK (Some (Some (ring (index (pos cur) len))), cur') /\
    P cur' /\ pos cur' = index (pos cur) len + 1) ->
  forall k cur, P cur -> scan k m cur = ring <$> (visits k (pos cur) len).1.
Proof.
  intros Hn k. induction k as [|k IH]; intros cur Hc; [done|].
  destruct (Hn cur Hc) as (cur' & Hr & Hc' & Hp). cbn [scan visits]. rewrite Hr, (IH cur' Hc'), Hp.
  unfold next. by destruct (visits k _ len).
Qed.

Lemma scan_cover {M K} `{Rings M K} (m : M) (P : K -> Prop) (pos : K -> Z) (len : Z) (ring : Z -> nat) cur i :
  (forall cur, P cur -> exists cur',
    rg_next m cur = OK (Some (Some (ring (index (pos cur) len))), cur') /\
    P cur' /\ pos cur' = index (pos cur) len + 1) ->
  P cur -> 0 <= pos cur -> 0 <= i < len -> ring i ∈ scan (Z.to_nat len) m cur.
Proof.
  intros Hn Hc Hp Hi. rewrite (scan_visits m P pos len ring Hn) by done.
  apply list_elem_of_fmap. exists i. split; [done|]. by apply visits_cover.
Qed.

(** ** The cursor of a scan *)

Definition at_rest (c : Cursor) : Prop := 0 <= cur_next c.
Definition selected (c : Cursor) : Prop := 1 <= cur_next c.

Lemma cursor_new_rest seed : 0 <= seed -> at_rest (Cursor_new seed).
Proof. done. Qed.

Lemma selected_rest c : selected c -> at_rest c /\ at_rest (prefer c).
Proof. unfold selected, at_rest, prefer. simpl. zbool; lia. Qed.

(** One selection from a cursor at rest. *)
Lemma cursor_select c len :
  at_rest c -> 0 < len ->
  exists c', Cursor_next c len = (index (cur_next c) len, c') /\ selected c' /\ at_rest c' /\
    cur_next c' = index (cur_next c) len + 1 /\ 0 <= index (cur_next c) len < len.
Proof.
  intros Hc Hl. pose proof (index_bounds (cur_next c) len Hc Hl). eexists. split; [reflexivity|].
  unfold selected, at_rest. simpl. splits.
Qed.

#[export] Hint Resolve cursor_new_rest selected_rest : prescient.

(** ** The three memberships satisfy the laws *)

Definition fixed_repr (m : FixedRings) (ids : list nat) (pend : list (Z * nat)) : Prop :=
  pend = [] /\ 0 <= n_slots m /\ (forall id, id ∈ ids <-> (id < Z.to_nat (n_slots m))%nat).

Lemma fixed_select (m : FixedRings) cur :
  0 < n_slots m -> at_rest cur ->
  exists cur', rg_next m cur = OK (Some (Some (Z.to_nat (index (cur_next cur) (n_slots m)))), cur') /\
    at_rest cur' /\ selected cur' /\ cur_next cur' = index (cur_next cur) (n_slots m) + 1 /\
    0 <= index (cur_next cur) (n_slots m) < n_slots m.
Proof.
  intros Hn Hc. destruct (cursor_select cur (n_slots m) Hc Hn) as (c' & Hs & H1 & H2 & H3 & H4).
  exists c'. cbn [rg_next fixed_rings]. destruct (Z.eqb_spec (n_slots m) 0); [lia|]. rewrite Hs. splits.
Qed.

#[export] Instance fixed_laws : RingsLaws FixedRings Cursor.
Proof.
  refine (Build_RingsLaws _ _ _ fixed_repr (fun _ => at_rest) (fun _ => selected)
    _ _ _ _ _ _ _ _).
  - intros n Hn. split; [done|]. split; [done|]. intros id. rewrite elem_of_seq. simpl. lia.
  - auto with prescient.
  - auto with prescient.
  - done.
  - intros m ids pend id tok [? _]. done.
  - intros m ids pend pend' Hp (-> & H). apply Permutation_nil in Hp as ->. by split.
  - intros m ids pend cur (-> & Hn & Hids) Hc. destruct (Z.eq_dec (n_slots m) 0) as [E|E].
    + exists None, cur. cbn [rg_next fixed_rings]. rewrite E. simpl. splits.
    + destruct (fixed_select m cur ltac:(lia) Hc) as (c' & Hs & H1 & H2 & H3 & H4).
      eexists _, c'. split; [exact Hs|]. splits. intros id [= <-]. left. apply Hids. lia.
  - intros m ids cur id (_ & Hn & Hids) Hc Hid%Hids. rewrite <- (Nat2Z.id id).
    eapply (scan_cover m at_rest cur_next (n_slots m) Z.to_nat); [|done|done|lia].
    intros c Hc1. destruct (fixed_select m c ltac:(lia) Hc1) as (c' & Hs & H1 & H2 & H3 & H4). by exists c'.
Defined.

Definition locked_repr (m : LockedRings) (ids : list nat) (pend : list (Z * nat)) : Prop :=
  lk_slots m ≡ₚ ids ++ pend.*2 /\ lk_count m = Z.of_nat (length ids).

Definition locked_cur (P : Cursor -> Prop) (m : LockedRings) (cur : LockedCursor) : Prop :=
  P (lc_scan cur) /\ snap cur `prefix_of` lk_slots m.

(** The snapshot a selection uses. *)
Lemma locked_snapshot_ok m ids pend P cur :
  locked_repr m ids pend -> locked_cur P m cur ->
  locked_snapshot m cur `prefix_of` lk_slots m /\ lk_count m <= Z.of_nat (length (locked_snapshot m cur)).
Proof.
  intros [Hs Hn] [_ Hp]. unfold locked_snapshot. apply Permutation_length in Hs.
  rewrite length_app in Hs. zbool; [split; [done|lia]|by split].
Qed.

Lemma locked_select m ids pend cur :
  locked_repr m ids pend -> locked_cur at_rest m cur -> ids <> [] ->
  exists id cur', locked_next m cur = OK (Some (Some id), cur') /\
    locked_snapshot m cur !! Z.to_nat (index (cur_next (lc_scan cur)) (Z.of_nat (length (locked_snapshot m cur)))) = Some id /\
    locked_cur selected m cur' /\ locked_cur at_rest m cur' /\ snap cur' = locked_snapshot m cur /\
    cur_next (lc_scan cur') = index (cur_next (lc_scan cur)) (Z.of_nat (length (locked_snapshot m cur))) + 1.
Proof.
  intros Hr Hc Hids. destruct (locked_snapshot_ok m ids pend _ cur Hr Hc) as [Hp Hl].
  destruct Hr as [_ Hn]. assert (0 < lk_count m) as Hpos by (destruct ids; simpl in *; [done|lia]).
  destruct (cursor_select (lc_scan cur) (Z.of_nat (length (locked_snapshot m cur))) (proj1 Hc) ltac:(lia))
    as (c' & Hs & H1 & H2 & H3 & H4).
  destruct (lookup_lt_is_Some_2 (locked_snapshot m cur)
    (Z.to_nat (index (cur_next (lc_scan cur)) (Z.of_nat (length (locked_snapshot m cur)))))) as [id Hid]; [lia|].
  exists id, (mkLockedCursor c' (locked_snapshot m cur)). unfold locked_next. zbool; [lia|].
  rewrite Hs, Hid. splits.
Qed.

(** With no push under way a refreshed snapshot holds every ring. *)
Lemma locked_count_all m ids : locked_repr m ids [] -> lk_count m = Z.of_nat (length (lk_slots m)).
Proof. intros [Hs ->]. by rewrite Hs, app_nil_r. Qed.

Lemma locked_snapshot_all m ids cur :
  locked_repr m ids [] -> locked_cur at_rest m cur -> locked_snapshot m cur = lk_slots m.
Proof.
  intros Hr Hc. destruct (locked_snapshot_ok m ids [] _ cur Hr Hc) as [Hp Hl].
  rewrite (locked_count_all m ids Hr) in Hl. apply prefix_length_eq; [done|lia].
Qed.

(** Growing the vector keeps every cursor. *)
Lemma locked_cur_app P m cur l n :
  locked_cur P m cur -> locked_cur P (mkLocked (lk_slots m ++ l) n) cur.
Proof. intros [H1 H2]. split; [done|]. simpl. by apply prefix_app_r. Qed.

#[export] Instance locked_laws : RingsLaws LockedRings LockedCursor.
Proof.
  refine (Build_RingsLaws _ _ _ locked_repr (locked_cur at_rest) (locked_cur selected)
    _ _ _ _ _ _ _ _).
  - done.
  - intros m seed Hs. split; [by apply cursor_new_rest|apply prefix_nil].
  - intros m cur [Hs Hp]. apply selected_rest in Hs as [??]. by split.
  - intros m ids pend id m' tok [Hs Hn] [= <- <-]. split; [|split; intros cur; apply locked_cur_app].
    split; [|done]. simpl. rewrite Hs. by rewrite <- app_assoc, (Permutation_app_comm (pend.*2)).
  - intros m ids pend id tok [Hs Hn]. split; [|done]. split; [|simpl; lia]. simpl in *.
    rewrite Hs. by rewrite Permutation_middle.
  - intros m ids pend pend' Hp [Hs Hn]. split; [|done]. by rewrite Hs, Hp.
  - intros m ids pend cur Hr Hc. destruct (decide (ids = [])) as [->|Hids].
    + exists None, cur. destruct Hr as [_ Hn]. cbn [rg_next locked_rings]. unfold locked_next.
      rewrite Hn. simpl. splits.
    + destruct (locked_select m ids pend cur Hr Hc Hids) as (id & c' & Hs & Hl & H1 & H2 & _).
      exists (Some (Some id)), c'. splits. intros ? [= <-].
      destruct (locked_snapshot_ok m ids pend _ cur Hr Hc) as [Hp _].
      apply elem_of_app. rewrite <- (proj1 Hr).
      eapply elem_of_prefix; [by eapply list_elem_of_lookup_2|done].
  - intros m ids cur id Hr Hc Hid. destruct (proj1 (list_elem_of_lookup (lk_slots m) id)) as [i Hi].
    { rewrite (proj1 Hr), app_nil_r. done. }
    pose proof (lookup_lt_Some _ _ _ Hi) as Hlt.
    cbn [rg_count locked_rings]. rewrite (locked_count_all m ids Hr).
    replace id with (default O (lk_slots m !! Z.to_nat (Z.of_nat i))) by (by rewrite Nat2Z.id, Hi).
    eapply (scan_cover m (locked_cur at_rest m) (fun c => cur_next (lc_scan c)) (Z.of_nat (length (lk_slots m)))
      (fun z => default O (lk_slots m !! Z.to_nat z))); [|done|apply Hc|lia].
    intros c Hc1. destruct (locked_select m ids [] c Hr Hc1) as (id1 & c' & Hs & Hl & _ & H2 & _ & H3).
    { by intros ->; apply not_elem_of_nil in Hid. }
    rewrite (locked_snapshot_all m ids c Hr Hc1) in Hl, H3.
    exists c'. rewrite Hl. done.
Defined.

Definition array_repr (m : ArrayRings) (ids : list nat) (pend : list (Z * nat)) : Prop :=
  0 <= ar_len m <= Z.of_nat (length (cells m)) /\ NoDup (pend.*1) /\
  (forall tok id, (tok, id) ∈ pend -> 0 <= tok < ar_len m /\ cells m !! Z.to_nat tok = Some None) /\
  (forall i o, cells m !! i = Some o -> Z.of_nat i < ar_len m -> o = None -> Z.of_nat i ∈ pend.*1) /\
  (forall i id, cells m !! i = Some (Some id) -> id ∈ ids /\ Z.of_nat i < ar_len m) /\
  (forall id, id ∈ ids -> exists i, cells m !! i = Some (Some id)).

Lemma array_reserve_ok m ids pend id :
  array_repr m ids pend -> ar_len m < Z.of_nat (length (cells m)) ->
  array_repr (mkArray (cells m) (ar_len m + 1)) ids ((ar_len m, id) :: pend).
Proof.
  intros (Hl & Hnd & Hp & Hh & Hc & Hi) Hlt. unfold array_repr. simpl. splits.
  - apply NoDup_cons. split; [|done]. intros Hin. apply list_elem_of_fmap in Hin as ([t i] & E & Hin).
    apply Hp in Hin. simpl in *. lia.
  - intros t i [[= -> ->]|Hin]%elem_of_cons; [|apply Hp in Hin; lia || (destruct Hin; split; [lia|done])].
    split; [lia|]. destruct (lookup_lt_is_Some_2 (cells m) (Z.to_nat (ar_len m))) as [[i'|] Hs]; [lia| |done].
    apply Hc in Hs. lia.
  - intros i o Ho Hi1 ->. destruct (Z.eq_dec (Z.of_nat i) (ar_len m)) as [->|]; [by left|].
    right. by apply (Hh i None Ho); [lia|].
  - intros i j Hj. apply Hc in Hj as [??]. split; [done|lia].
Qed.

Lemma array_publish_ok m ids pend tok id :
  array_repr m ids ((tok, id) :: pend) ->
  array_repr (mkArray (<[Z.to_nat tok := Some id]> (cells m)) (ar_len m)) (id :: ids) pend.
Proof.
  intros (Hl & Hnd & Hp & Hh & Hc & Hi). unfold array_repr. simpl in *.
  apply NoDup_cons in Hnd as [Hnin Hnd]. destruct (Hp tok id ltac:(by left)) as [Ht Hct].
  rewrite length_insert. splits.
  - intros t i Hin. destruct (Hp t i ltac:(by right)) as [Ht1 Hc1]. split; [done|].
    rewrite list_lookup_insert_ne; [done|]. intros E. apply Hnin. apply list_elem_of_fmap.
    exists (t, i). split; [simpl; lia|done].
  - intros i o Ho Hi1 ->. updated Ho. destruct (proj1 (elem_of_cons _ _ _) (Hh i None Ho Hi1 eq_refl)) as [E|]; [|done].
    simpl in E. lia.
  - intros i j Hj. updated Hj; [split; [by left|lia]|]. apply Hc in Hj as [??]. split; [by right|done].
  - intros j [->|Hj]%elem_of_cons.
    + exists (Z.to_nat tok). apply list_lookup_insert_eq. by eapply lookup_lt_Some.
    + destruct (Hi j Hj) as [i Hij]. exists i. rewrite list_lookup_insert_ne; [done|]. intros E. rewrite E in Hct. congruence.
Qed.

Lemma array_select m ids pend cur :
  array_repr m ids pend -> at_rest cur -> 0 < ar_len m ->
  exists o cur', array_next m cur = OK (Some o, cur') /\
    cells m !! Z.to_nat (index (cur_next cur) (ar_len m)) = Some o /\
    at_rest cur' /\ selected cur' /\ cur_next cur' = index (cur_next cur) (ar_len m) + 1 /\
    0 <= index (cur_next cur) (ar_len m) < ar_len m.
Proof.
  intros (Hl & _) Hc Hn. destruct (cursor_select cur (ar_len m) Hc Hn) as (c' & Hs & H1 & H2 & H3 & H4).
  destruct (lookup_lt_is_Some_2 (cells m) (Z.to_nat (index (cur_next cur) (ar_len m)))) as [o Ho]; [lia|].
  exists o, c'. unfold array_next. destruct (Z.eqb_spec (ar_len m) 0); [lia|]. rewrite Hs, Ho. splits.
Qed.

#[export] Instance array_laws : RingsLaws ArrayRings Cursor.
Proof.
  refine (Build_RingsLaws _ _ _ array_repr (fun _ => at_rest) (fun _ => selected)
    _ _ _ _ _ _ _ _).
  - intros n Hn. unfold array_repr. simpl. rewrite length_replicate. splits.
    + apply NoDup_nil_2.
    + by intros ? ? ?%not_elem_of_nil.
    + intros i id [? _]%lookup_replicate. done.
    + by intros ? ?%not_elem_of_nil.
  - auto with prescient.
  - auto with prescient.
  - intros m ids pend id m' tok Hr. cbn [rg_reserve array_rings]. zbool; [|done]. intros [= <- <-].
    split; [by apply array_reserve_ok|done].
  - intros m ids pend id tok Hr. split; [by apply array_publish_ok|done].
  - intros m ids pend pend' Hp (Hl & Hnd & H1 & H2 & H3). unfold array_repr. splits.
    + by rewrite <- Hp.
    + intros t i Hin. rewrite <- Hp in Hin. by apply (H1 t i).
    + intros i o Ho Hi E. rewrite <- Hp. by apply (H2 i o).
    + apply H3.
    + apply H3.
  - intros m ids pend cur Hr Hc. destruct (Z.eq_dec (ar_len m) 0) as [E|E].
    + exists None, cur. cbn [rg_next array_rings]. unfold array_next. rewrite E. simpl. splits.
    + destruct (array_select m ids pend cur Hr Hc) as (o & c' & Hs & Ho & H1 & H2 & _); [destruct Hr; lia|].
      exists (Some o), c'. splits. intros id [= ->]. left. destruct Hr as (_ & _ & _ & _ & H5 & _). by eapply H5.
  - intros m ids cur id Hr Hc Hid. pose proof Hr as (Hl & _ & _ & Hh & Hcs & Hi).
    destruct (Hi id Hid) as [i Hci]. destruct (Hcs i id Hci) as [_ Hlt].
    cbn [rg_count array_rings].
    replace id with (default O (mjoin (cells m !! Z.to_nat (Z.of_nat i)))) by (by rewrite Nat2Z.id, Hci).
    eapply (scan_cover m at_rest cur_next (ar_len m) (fun z => default O (mjoin (cells m !! Z.to_nat z))));
      [|done|done|lia].
    intros c Hc1. destruct (array_select m ids [] c Hr Hc1 ltac:(lia)) as ([j|] & c' & Hs & Ho & H1 & H2 & H3 & H4).
    + exists c'. rewrite Ho. done.
    + specialize (Hh _ _ Ho ltac:(lia) eq_refl). by apply not_elem_of_nil in Hh.
Defined.
