(* ===== verification/Staged.v ===== *)
(** * What the competing-consumer engines share

    The consumers of [src/src/mpmc/brokerless/mod.rs], [dynamic.rs] and
    [src/src/mpmc/lanes.rs] have the same receiving calls over a staging
    [Batch]: this file holds the calls, the staged prefix that [drain] hands over
    first, the log of drained values with its readings, and the counting lemmas
    of the interleaved models. *)

From stdpp Require Import prelude.
From S2P Require Import Prelude Batch Backend.
Local Open Scope Z_scope.

(** ** Calls *)

(** The public receiving calls. *)
Inductive call : Type :=
| TryRecv
| Recv
| TryRecvBatch
| RecvBatch
| Drain (max : Z)
| ForEach (batch : Z).

#[export] Instance call_eq_dec : EqDecision call.
Proof. solve_decision. Defined.

(** A call under way: whether it is the pass after the last producer was seen
    gone, and how many staged values a drain has already handed over. *)
Record job := mkJob { j_call : call; j_final : bool; j_done : Z }.

(** The calls that refill the staging buffer; the others drain in place. *)
Definition is_refill (a : call) : bool :=
  match a with Drain _ | ForEach _ => false | _ => true end.

(** The [max] of the [drain] under way. *)
Definition drain_max (a : call) : Z :=
  match a with Drain max => max | ForEach b => Z.max b 1 | _ => 0 end.

(** A drain under way still has room; the batch calls lend the caller's batch. *)
Definition job_ok (j : job) : Prop :=
  is_refill (j_call j) = false -> 0 <= j_done j < drain_max (j_call j).
Definition lends (j : job) : bool :=
  match j_call j with TryRecvBatch | RecvBatch => true | _ => false end.

(** ** Staged values *)

Section staged.
Context {T : Type}.
(** The values on which a user callback panics. *)
Context (boom : T -> bool).

(** The closure passed to [drain] and [for_each]: it logs its value. *)
Definition user_callback : callback (list T) T := fun log v => (log ++ [v], boom v).

(** The staged prefix that [drain] hands over first. *)
Fixpoint flush (fuel : nat) (max done : Z) (s : Batch T) (log : list T)
    : outcome (flow Z * Batch T * list T) :=
  match fuel with
  | O => OK (Returned done, s, log)
  | S fuel' =>
      if done <? max then
        '(o, s1) ← pop_front s;
        match o with
        | None => OK (Returned done, s1, log)
        | Some v =>
            let '(log1, p) := user_callback log v in
            if p then OK (Unwound, s1, log1) else flush fuel' max (done + 1) s1 log1
        end
      else OK (Returned done, s, log)
  end.

Lemma feed_callback (log l : list T) :
  exists k p, feed (user_callback) log l = (log ++ take k l, k, p) /\
    (k <= length l)%nat /\ (p = false -> k = length l).
Proof.
  revert log. induction l as [|v l IH]; intros log; cbn [feed].
  - exists O, false. rewrite app_nil_r. done.
  - cbn [user_callback]. destruct (boom v).
    + exists 1%nat, true. simpl. rewrite take_0. splits.
    + destruct (IH (log ++ [v])) as (k & p & -> & H1 & H2). exists (S k), p.
      rewrite <- app_assoc. simpl. splits. intros Hp. by rewrite (H2 Hp).
Qed.

Lemma flush_ok fuel max done b l log :
  batch_repr b l -> (length l < fuel)%nat -> 0 <= done <= Z.max max 0 ->
  exists n fl b', flush fuel max done b log = OK (fl, b', log ++ take n l) /\
    batch_repr b' (drop n l) /\
    match fl with
    | Unwound => True
    | Returned d => 0 <= d /\ (max <= d \/ (d < max /\ drop n l = []))
    end.
Proof.
  revert done b l log. induction fuel as [|fuel IH]; intros done b l log Hb Hf Hd; [lia|].
  cbn [flush]. zbool; cycle 1.
  { exists O, (Returned done), b. rewrite take_0, app_nil_r, drop_0. splits. }
  destruct l as [|v l].
  { rewrite (pop_front_nil b Hb). simpl. exists O, (Returned done), b. rewrite app_nil_r. splits.
    right. splits. }
  destruct (pop_front_cons b v l Hb) as (b1 & -> & Hb1 & _). cbn [mbind outcome_bind user_callback].
  destruct (boom v).
  - exists 1%nat, Unwound, b1. simpl. rewrite take_0, drop_0. splits.
  - destruct (IH (done + 1) b1 l (log ++ [v])) as (n & fl & b' & -> & H1 & H2);
      [done|simpl in Hf; lia|lia|].
    exists (S n), fl, b'. rewrite <- app_assoc. done.
Qed.

End staged.

(** ** The log of drained values

    An entry is the ring or lane a value was drained from, the consumer that
    drained it, and the value. *)

(** The values drained from one ring, and those drained by one consumer. *)
Definition from {T} (id : nat) (l : list (nat * nat * T)) : list T :=
  omap (fun x => if decide (x.1.1 = id) then Some x.2 else None) l.
Definition by_consumer {T} (i : nat) (l : list (nat * nat * T)) : list T :=
  omap (fun x => if decide (x.1.2 = i) then Some x.2 else None) l.

Section log.
Context {T : Type}.

Lemma from_app id (l l' : list (nat * nat * T)) : from id (l ++ l') = from id l ++ from id l'.
Proof. apply omap_app. Qed.

Lemma by_consumer_app i (l l' : list (nat * nat * T)) :
  by_consumer i (l ++ l') = by_consumer i l ++ by_consumer i l'.
Proof. apply omap_app. Qed.

Lemma from_tag id id' i (l : list T) :
  from id ((fun v => (id', i, v)) <$> l) = if decide (id' = id) then l else [].
Proof.
  unfold from. induction l as [|v l IH]; csimpl; [by case_decide|]. rewrite IH. by case_decide.
Qed.

Lemma by_consumer_tag i i' id (l : list T) :
  by_consumer i ((fun v => (id, i', v)) <$> l) = if decide (i' = i) then l else [].
Proof.
  unfold by_consumer. induction l as [|v l IH]; csimpl; [by case_decide|]. rewrite IH. by case_decide.
Qed.

(** A number that the log does not mention yet. *)
Lemma from_fresh id (l : list (nat * nat * T)) :
  (forall i v, (id, i, v) ∈ l -> False) -> from id l = [].
Proof.
  intros Hl. unfold from. induction l as [|[[id' i] v] l IH]; [done|]. csimpl. case_decide as E.
  - subst. destruct (Hl i v). by left.
  - apply IH. intros i' v' Hin. apply (Hl i' v'). by right.
Qed.

Lemma by_consumer_fresh i (l : list (nat * nat * T)) :
  (forall id v, (id, i, v) ∈ l -> False) -> by_consumer i l = [].
Proof.
  intros Hl. unfold by_consumer. induction l as [|[[id i'] v] l IH]; [done|]. csimpl. case_decide as E.
  - subst. destruct (Hl id v). by left.
  - apply IH. intros i2 v' Hin. apply (Hl i2 v'). by right.
Qed.
End log.

(** ** Counting *)

Definition tally {A} (f : A -> bool) (l : list A) : nat := length (filter (fun x => f x = true) l).

Lemma tally_insert {A} (f : A -> bool) (l : list A) i x y :
  l !! i = Some x ->
  (tally f (<[i := y]> l) + Nat.b2n (f x) = tally f l + Nat.b2n (f y))%nat.
Proof.
  intros Hl. unfold tally. rewrite <- (take_drop_middle l i x Hl) at 2.
  rewrite insert_take_drop by (by eapply lookup_lt_Some).
  rewrite !filter_app, !length_app, !filter_cons. destruct (f x), (f y); simpl; lia.
Qed.

Lemma tally_same {A} (f : A -> bool) (l : list A) i x y :
  l !! i = Some x -> f y = f x -> tally f (<[i := y]> l) = tally f l.
Proof. intros Hl E. pose proof (tally_insert f l i x y Hl) as H. rewrite E in H. lia. Qed.

Lemma tally_full {A} (f : A -> bool) (l : list A) : tally f l = length l <-> Forall (fun x => f x = true) l.
Proof.
  induction l as [|x l IH]; [by split|]. unfold tally in *. rewrite filter_cons, Forall_cons.
  pose proof (length_filter (fun x => f x = true) l). destruct (f x) eqn:E.
  - rewrite decide_True by done. simpl. rewrite <- IH. split; [intros; split; [done|lia]|intros [_ ?]; lia].
  - rewrite decide_False by congruence. simpl. split; [lia|by intros [? _]].
Qed.

Lemma tally_snoc {A} (f : A -> bool) (l : list A) x :
  tally f (l ++ [x]) = (tally f l + Nat.b2n (f x))%nat.
Proof. unfold tally. rewrite filter_app, length_app. f_equal. rewrite filter_cons. by destruct (f x). Qed.

Lemma tally_zero {A} (f : A -> bool) (l : list A) i x :
  tally f l = O -> l !! i = Some x -> f x = false.
Proof.
  intros H0 Hl. destruct (f x) eqn:E; [|done]. exfalso.
  assert (x ∈ filter (fun y => f y = true) l) as Hin
    by (apply list_elem_of_filter; split; [done|by eapply list_elem_of_lookup_2]).
  unfold tally in H0. destruct (filter _ l); [by apply not_elem_of_nil in Hin|done].
Qed.

(** Replacing one element of a list that is mapped partially. *)
Lemma omap_insert_perm {A B} (f : A -> option B) (l : list A) i x y :
  l !! i = Some x ->
  exists rest, omap f l ≡ₚ option_list (f x) ++ rest /\
    omap f (<[i := y]> l) ≡ₚ option_list (f y) ++ rest.
Proof.
  intros Hl. exists (omap f (take i l) ++ omap f (drop (S i) l)). split.
  - rewrite <- (take_drop_middle l i x Hl) at 1. rewrite omap_app. csimpl.
    destruct (f x); simpl; [by rewrite Permutation_middle|done].
  - rewrite insert_take_drop by (by eapply lookup_lt_Some). rewrite omap_app. csimpl.
    destruct (f y); simpl; [by rewrite Permutation_middle|done].
Qed.

Lemma insert_nonempty {A} (l : list A) i x : l <> [] -> <[i := x]> l <> [].
Proof. intros Hl E. apply Hl, length_zero_iff_nil. by rewrite <- (length_insert l i x), E. Qed.

Lemma tally_some {A} (f : A -> bool) (l : list A) i x :
  l !! i = Some x -> f x = true -> (0 < tally f l)%nat.
Proof. intros Hl Hf. destruct (tally f l) eqn:E; [|lia]. by rewrite (tally_zero f l i x E Hl) in Hf. Qed.

Lemma tally_exists {A} (f : A -> bool) (l : list A) :
  (0 < tally f l)%nat -> exists i x, l !! i = Some x /\ f x = true.
Proof.
  unfold tally. destruct (filter _ l) as [|x k] eqn:E; simpl; [lia|]. intros _.
  assert (x ∈ filter (fun y => f y = true) l) as [Hf Hin]%list_elem_of_filter by (rewrite E; by left).
  apply list_elem_of_lookup in Hin as [i Hi]. by exists i, x.
Qed.

Lemma tally_all {A} (f : A -> bool) (l : list A) :
  (forall i x, l !! i = Some x -> f x = true) -> tally f l = length l.
Proof.
  unfold tally. induction l as [|x l IH]; intros Hf; [done|]. rewrite filter_cons_True by (by apply (Hf O)).
  simpl. rewrite IH; [done|]. intros i. apply (Hf (S i)).
Qed.

Lemma tally_replicate {A} (f : A -> bool) n x : f x = true -> tally f (replicate n x) = n.
Proof. intros Hx. rewrite tally_all, length_replicate; [done|]. by intros i y [-> _]%lookup_replicate. Qed.

(** Changing the elements at distinct positions. *)
Lemma foldr_alter_lookup {A} (f : A -> A) (ls : list A) ids id :
  NoDup ids ->
  foldr (alter f) ls ids !! id = if decide (id ∈ ids) then f <$> ls !! id else ls !! id.
Proof.
  induction ids as [|x ids IH]; intros Hn; [done|]. cbn [foldr].
  apply NoDup_cons in Hn as [Hx Hn]. specialize (IH Hn). destruct (decide (id = x)) as [->|Hne].
  - rewrite list_lookup_alter_eq, IH, decide_False by done. rewrite decide_True by (by left). done.
  - rewrite list_lookup_alter_ne, IH by done.
    destruct (decide (id ∈ ids)); [rewrite decide_True by (by right)|rewrite decide_False]; try done.
    by intros [?|?]%elem_of_cons.
Qed.

Lemma foldr_alter_length {A} (f : A -> A) (ls : list A) ids : length (foldr (alter f) ls ids) = length ls.
Proof. induction ids as [|x ids IH]; simpl; [done|]. by rewrite length_alter. Qed.

(** Sorting a log by a bounded key loses nothing. *)
Lemma buckets_insert {A} (f f' : nat -> list A) k (v : A) (a n : nat) :
  (a <= k < a + n)%nat -> f' k = v :: f k -> (forall i, i <> k -> f' i = f i) ->
  mjoin (f' <$> seq a n) ≡ₚ v :: mjoin (f <$> seq a n).
Proof.
  revert a. induction n as [|n IH]; intros a Hk Hv Ho; [lia|]. cbn [seq fmap list_fmap].
  change (mjoin (f' a :: (f' <$> seq (S a) n))) with (f' a ++ mjoin (f' <$> seq (S a) n)).
  change (mjoin (f a :: (f <$> seq (S a) n))) with (f a ++ mjoin (f <$> seq (S a) n)).
  destruct (decide (a = k)) as [->|Hne].
  - rewrite Hv. simpl. do 2 f_equiv.
    replace (f' <$> seq (S k) n) with (f <$> seq (S k) n); [done|].
    apply list_fmap_ext. intros i x Hx. apply lookup_seq in Hx as [-> _]. symmetry. apply Ho. lia.
  - rewrite Ho, IH by (done || lia). by rewrite Permutation_middle.
Qed.

Lemma buckets {A B} (key : A -> nat) (val : A -> B) n (l : list A) :
  (forall x, x ∈ l -> (key x < n)%nat) ->
  mjoin ((fun i => omap (fun x => if decide (key x = i) then Some (val x) else None) l) <$> seq 0 n) ≡ₚ
    val <$> l.
Proof.
  induction l as [|x l IH]; intros Hk.
  - clear. generalize O. induction n as [|n IH]; intros a; [done|]. apply (IH (S a)).
  - cbn [fmap list_fmap]. rewrite <- IH by (intros y Hy; apply Hk; by right).
    apply (buckets_insert _ _ (key x)); csimpl.
    + specialize (Hk x ltac:(by left)). lia.
    + by rewrite decide_True.
    + intros i Hi. by rewrite decide_False.
Qed.

Lemma fmap_seq_lookup {A B} (f : nat -> B) (g : A -> B) (l : list A) :
  (forall i x, l !! i = Some x -> f i = g x) -> f <$> seq 0 (length l) = g <$> l.
Proof.
  intros Hf. apply list_eq. intros i. rewrite !list_lookup_fmap.
  destruct (l !! i) as [x|] eqn:Hx.
  - rewrite lookup_seq_lt by (by eapply lookup_lt_Some). simpl. by rewrite (Hf i x Hx).
  - rewrite lookup_seq_ge by (by apply lookup_ge_None). done.
Qed.


(** ** Lists of lists *)

Lemma join_insert_perm {A} (L : list (list A)) i l l' :
  L !! i = Some l ->
  exists rest, mjoin L ≡ₚ l ++ rest /\ mjoin (<[i := l']> L) ≡ₚ l' ++ rest.
Proof.
  revert i. induction L as [|x L IH]; intros [|i] Hi; [done|done| |]; simpl in Hi.
  - injection Hi as ->. by exists (mjoin L).
  - destruct (IH i Hi) as (rest & H1 & H2). exists (x ++ rest).
    change (mjoin (x :: L)) with (x ++ mjoin L).
    change (mjoin (<[S i := l']> (x :: L))) with (x ++ mjoin (<[i := l']> L)).
    rewrite H1, H2. split; rewrite !app_assoc; f_equiv; apply Permutation_app_comm.
Qed.

Lemma join_disjoint {A} (L : list (list A)) i j l l' x :
  NoDup (mjoin L) -> L !! i = Some l -> L !! j = Some l' -> x ∈ l -> x ∈ l' -> i = j.
Proof.
  revert i j. induction L as [|y L IH]; intros [|i] [|j] Hn Hi Hj Hx Hx'; try done;
    simpl in Hi, Hj; change (mjoin (y :: L)) with (y ++ mjoin L) in Hn;
    apply NoDup_app in Hn as (_ & Hd & Hn).
  - injection Hi as ->. destruct (Hd x Hx). apply list_elem_of_join. exists l'. split; [done|].
    by eapply list_elem_of_lookup_2.
  - injection Hj as ->. destruct (Hd x Hx'). apply list_elem_of_join. exists l. split; [done|].
    by eapply list_elem_of_lookup_2.
  - f_equal. by apply IH.
Qed.

(** ** Sums over a list *)

Definition total {A} (g : A -> nat) (l : list A) : nat := sum_list (g <$> l).

Lemma total_update {A} (g : A -> nat) (l : list A) i x y :
  l !! i = Some x -> (total g (<[i := y]> l) + g x = total g l + g y)%nat.
Proof.
  unfold total. revert i. induction l as [|a l IH]; intros [|i] Hl; [done|done| |]; csimpl; simpl in Hl; simplify_eq; [lia|].
  specialize (IH i Hl). lia.
Qed.

Lemma total_ext {A B} (g : A -> nat) (h : B -> nat) (l : list A) (k : list B) :
  length l = length k -> (forall i x y, l !! i = Some x -> k !! i = Some y -> g x = h y) -> total g l = total h k.
Proof.
  unfold total. revert k. induction l as [|x l IH]; intros [|y k] Hl He; try done. csimpl.
  rewrite (He O x y), (IH k); try done; [by injection Hl|]. intros i. apply (He (S i)).
Qed.

Lemma total_bound {A} (g : A -> nat) (l : list A) i x : l !! i = Some x -> (g x <= total g l)%nat.
Proof.
  unfold total. revert i. induction l as [|a l IH]; intros [|i] Hl; [done|done| |]; csimpl; simpl in Hl; simplify_eq; [lia|].
  specialize (IH i Hl). lia.
Qed.

Lemma total_change {A} (g h : A -> nat) (l : list A) i x y :
  l !! i = Some x -> (forall k z, k <> i -> l !! k = Some z -> g z = h z) ->
  (total h (<[i := y]> l) + g x = total g l + h y)%nat.
Proof.
  intros Hx Hk. pose proof (lookup_lt_Some _ _ _ Hx) as Hlt.
  unfold total. revert i Hx Hk Hlt. induction l as [|a l IH]; intros [|i] Hx Hk Hlt; try done; csimpl; simpl in Hx; simplify_eq.
  - assert (g <$> l = h <$> l) as ->; [|lia]. apply list_fmap_ext. intros k z Hz. by apply (Hk (S k)).
  - pose proof (Hk O a ltac:(done) eq_refl) as Ha. simpl in Hlt.
    assert (forall k z, k <> i -> l !! k = Some z -> g z = h z) as Hk'
      by (intros k z Hne Hz; apply (Hk (S k)); [lia|done]).
    specialize (IH i Hx Hk' ltac:(lia)). lia.
Qed.

Lemma total_app {A} (g : A -> nat) (l k : list A) : total g (l ++ k) = (total g l + total g k)%nat.
Proof. unfold total. induction l as [|a l IH]; [done|]. csimpl. lia. Qed.

Lemma total_zero {A} (g : A -> nat) (l : list A) : (forall i a, l !! i = Some a -> g a = O) -> total g l = O.
Proof.
  unfold total. induction l as [|a l IH]; intros Hl; [done|]. csimpl. rewrite (Hl O a eq_refl), IH; [done|].
  intros i b Hb. by apply (Hl (S i)).
Qed.
