(* ===== verification/Brokerless.v ===== *)
(** * Brokerless MPMC: [src/src/mpmc/brokerless/mod.rs] and [dynamic.rs]

    One SPSC transport per producer, and competing consumers that win a ring's
    [claimed] flag before they drain it. The two source files have the same
    producers and consumers over different ring memberships; this file is their
    common code over the interfaces of [Backend.v] (storage) and [Rings.v]
    (membership), so that fixed, locked and array membership are instances.

    The threads of the channel interleave: [step] runs one shared access of one
    registrar, producer or consumer, with the local computation that follows it.
    A transport call on a ring is one such access: the producer is the only one
    that pushes, the claim makes its holder the only one that drains, and
    [RingConc.v] treats the interleaving inside one transport. Blocking calls
    spin through the same steps again; the spin and yield hints have no effect.
    A user callback panics on the values for which [boom] holds.

    Ghost state: [accepted] holds what a producer's transport took, [taken]
    every value drained from a ring with the consumer that drained it, and
    [received] what a consumer handed to its caller. *)

From stdpp Require Import prelude.
From S2P Require Import Prelude Batch RoundRobin Backend Rings BackendRing Staged.
Local Open Scope Z_scope.

Module brokerless.

(** ** State *)

(** [Slot]: the claim flag and the receiving endpoint. *)
Record Slot C := mkSlot { claimed : bool; rx : C }.
Arguments mkSlot {C} claimed rx.
Arguments claimed {C} s.
Arguments rx {C} s.

(** Where a consumer is. [Idle true]: its last call was a blocking one that
    answered the end of the channel. [k] counts the selections left. *)
Inductive cpc : Type :=
| Idle (ended : bool)
| Start (j : job)
| Count (j : job)
| Select (j : job) (k : nat)
| Claim (j : job) (k : nat) (id : nat)
| Access (j : job) (k : nat) (id : nat)
| Release (j : job) (k : nat) (id : nat) (got : flow Z)
| LoadLive (j : job)
| Gone (ended : bool).

(** [Consumer], with the batch its caller lends to the batch calls. *)
Record Consumer T K := mkConsumer {
  cursor : K;
  staging : Batch T;
  batch : Z;
  out : Batch T;
  received : list T;
  pc : cpc
}.
Arguments mkConsumer {T K} cursor staging batch out received pc.
Arguments cursor {T K} c.
Arguments staging {T K} c.
Arguments batch {T K} c.
Arguments out {T K} c.
Arguments received {T K} c.
Arguments pc {T K} c.

(** Where a producer is; [PNew] is one whose registration is not complete. *)
Inductive ppc T : Type :=
| PNew
| PIdle
| PSend (v : T)
| PFull (v : T)
| PBatch (source : Batch T)
| PBatchFull (source : Batch T)
| PDead.
Arguments PNew {T}.
Arguments PIdle {T}.
Arguments PSend {T} v.
Arguments PFull {T} v.
Arguments PBatch {T} source.
Arguments PBatchFull {T} source.
Arguments PDead {T}.

(** [Producer]: the transport is that of the slot with the same number. *)
Record Producer T := mkProducer { p_pc : ppc T; accepted : list T }.
Arguments mkProducer {T} p_pc accepted.
Arguments p_pc {T} p.
Arguments accepted {T} p.

(** Where a registrar is in [register]. *)
Inductive rpc : Type :=
| RIdle
| RReserve (id : nat)
| RPublish (tok : Z) (id : nat)
| RCount (id : nat)
| RPanicked                      (* [register] panicked: the membership is full *)
| RGone.

(** [Shared] with its endpoints. *)
Record World T C M K := mkWorld {
  slots : list (Slot C);
  rings : M;
  live : Z;
  live_consumers : Z;
  capacity : Z;
  registrars : list rpc;
  producers : list (Producer T);
  consumers : list (Consumer T K);
  taken : list (nat * nat * T)
}.
Arguments mkWorld {T C M K} slots rings live live_consumers capacity registrars producers consumers taken.
Arguments slots {T C M K} w.
Arguments rings {T C M K} w.
Arguments live {T C M K} w.
Arguments live_consumers {T C M K} w.
Arguments capacity {T C M K} w.
Arguments registrars {T C M K} w.
Arguments producers {T C M K} w.
Arguments consumers {T C M K} w.
Arguments taken {T C M K} w.

(** What a thread may do next: an idle thread begins a call, any other one
    continues its own. *)
Inductive reg_op : Type := RRegister | RClone | RDrop | RStep.
Inductive prod_op T : Type :=
| PTrySend (v : T) | PBeginSend (v : T) | PBeginBatch (moved : nat) (l : list T) | PDrop | PStep.
Arguments PTrySend {T} v.
Arguments PBeginSend {T} v.
Arguments PBeginBatch {T} moved l.
Arguments PDrop {T}.
Arguments PStep {T}.
Inductive cons_op : Type := CCall (a : call) | CSetBatch (b : Z) | CClone | CDrop | CStep.

Inductive event T : Type :=
| EReg (r : nat) (op : reg_op)
| EProd (p : nat) (op : prod_op T)
| ECons (c : nat) (op : cons_op).
Arguments EReg {T} r op.
Arguments EProd {T} p op.
Arguments ECons {T} c op.

Section machine.
Context {T C M K : Type} `{!SpscBackend T C} `{!Rings M K}.
(** The values on which a user callback panics. *)
Context (boom : T -> bool).

Implicit Types c : Consumer T K.
Implicit Types w : World T C M K.

(** ** Consumer: the local parts of a call *)

Definition set_pc c p : Consumer T K :=
  mkConsumer (cursor c) (staging c) (batch c) (out c) (received c) p.

(** The end of a pass that found nothing: a blocking call returns after its
    final pass and otherwise looks at the live count. *)
Definition nothing (j : job) : cpc :=
  match j_call j with
  | Recv | RecvBatch | ForEach _ => if j_final j then Idle true else LoadLive j
  | _ => Idle false
  end.

(** [drain] returns [total]; [for_each] goes on unless it is zero. *)
Definition drain_returns (j : job) (total : Z) : cpc :=
  match j_call j with
  | ForEach _ => if 0 <? total then Start (mkJob (j_call j) false 0) else nothing j
  | _ => Idle false
  end.

(** [try_recv] pops a staged value before it scans. *)
Definition recv_start c (j : job) : outcome (Consumer T K) :=
  '(o, s) ← pop_front (staging c);
  match o with
  | Some v => OK (mkConsumer (cursor c) s (batch c) (out c) (received c ++ [v]) (Idle false))
  | None => OK (set_pc c (Count j))
  end.

(** [try_recv_batch] clears the caller's batch; it hands over what is staged, or
    lends the cleared batch to the refill. *)
Definition batch_start c (j : job) : outcome (Consumer T K) :=
  '(_, o) ← clear (out c);
  if batch_is_empty (staging c)
  then OK (mkConsumer (cursor c) o (batch c) (staging c) (received c) (Count j))
  else l ← as_slice (staging c);
       OK (mkConsumer (cursor c) o (batch c) (staging c) (received c ++ l) (Idle false)).

(** [drain] flushes and returns when that was enough. *)
Definition drain_start c (j : job) : outcome (Consumer T K) :=
  '(fl, s, log) ← flush boom (S (Z.to_nat (batch_len (staging c)))) (drain_max (j_call j)) 0
                    (staging c) (received c);
  OK (mkConsumer (cursor c) s (batch c) (out c) log
       match fl with
       | Unwound => Idle false
       | Returned done =>
           if drain_max (j_call j) <=? done then drain_returns j done
           else Count (mkJob (j_call j) (j_final j) done)
       end).

Definition start c (j : job) : outcome (Consumer T K) :=
  match j_call j with
  | TryRecv | Recv => recv_start c j
  | TryRecvBatch | RecvBatch => batch_start c j
  | Drain _ | ForEach _ => drain_start c j
  end.

(** After the scan: [try_recv] pops again, [try_recv_batch] swaps the batches
    back, a drain returns what it handed over. *)
Definition recv_finish c (j : job) : outcome (Consumer T K) :=
  '(o, s) ← pop_front (staging c);
  OK (match o with
      | Some v => mkConsumer (cursor c) s (batch c) (out c) (received c ++ [v]) (Idle false)
      | None => mkConsumer (cursor c) s (batch c) (out c) (received c) (nothing j)
      end).

Definition batch_finish c (j : job) : outcome (Consumer T K) :=
  l ← as_slice (staging c);
  OK (mkConsumer (cursor c) (out c) (batch c) (staging c) (received c ++ l)
        (if batch_len (staging c) =? 0 then nothing j else Idle false)).

Definition finish c (j : job) (got : Z) : outcome (Consumer T K) :=
  match j_call j with
  | TryRecv | Recv => recv_finish c j
  | TryRecvBatch | RecvBatch => batch_finish c j
  | Drain _ | ForEach _ => OK (set_pc c (drain_returns j (j_done j + got)))
  end.

(** Whether the ring just drained gave something: the staging buffer for a
    refill, the reported count for a drain in place. *)
Definition gave c (j : job) (got : Z) : bool :=
  if is_refill (j_call j) then negb (batch_is_empty (staging c)) else 0 <? got.

(** ** One step of each thread *)

Definition set_consumer w i c : World T C M K :=
  mkWorld (slots w) (rings w) (live w) (live_consumers w) (capacity w) (registrars w)
    (producers w) (<[i := c]> (consumers w)) (taken w).

Definition set_slot w id (s : Slot C) : World T C M K :=
  mkWorld (<[id := s]> (slots w)) (rings w) (live w) (live_consumers w) (capacity w)
    (registrars w) (producers w) (consumers w) (taken w).

Definition add_taken w id i (l : list T) : World T C M K :=
  mkWorld (slots w) (rings w) (live w) (live_consumers w) (capacity w) (registrars w)
    (producers w) (consumers w) (taken w ++ ((fun v => (id, i, v)) <$> l)).

(** A raw slot pointer is dereferenced. *)
Definition deref_slot w (id : nat) : outcome (Slot C) :=
  match slots w !! id with Some s => OK s | None => UB end.

(** The continuation of a call under way. *)
Definition cons_continue w (i : nat) c : option (outcome (World T C M K)) :=
  match pc c with
  | Idle _ | Gone _ => None
  | Start j => Some (c1 ← start c j; OK (set_consumer w i c1))
  | Count j =>
      Some (let k := Z.to_nat (rg_count (rings w)) in
            if is_refill (j_call j) then
              '(_, s) ← clear (staging c);
              OK (set_consumer w i
                   (mkConsumer (cursor c) s (batch c) (out c) (received c) (Select j k)))
            else OK (set_consumer w i (set_pc c (Select j k))))
  | Select j O => Some (c1 ← finish c j 0; OK (set_consumer w i c1))
  | Select j (S k) =>
      Some ('(o, cur) ← rg_next (rings w) (cursor c);
            let c1 := mkConsumer cur (staging c) (batch c) (out c) (received c) (pc c) in
            match o with
            | None => c2 ← finish c1 j 0; OK (set_consumer w i c2)
            | Some None => OK (set_consumer w i (set_pc c1 (Select j k)))
            | Some (Some id) => OK (set_consumer w i (set_pc c1 (Claim j k id)))
            end)
  | Claim j k id =>
      Some (s ← deref_slot w id;
            if claimed s then OK (set_consumer w i (set_pc c (Select j k)))
            else OK (set_slot (set_consumer w i (set_pc c (Access j k id))) id (mkSlot true (rx s))))
  | Access j k id =>
      Some (s ← deref_slot w id;
            if is_refill (j_call j) then
              '(n, r, st) ← bk_drain_into (rx s) (batch c) (staging c);
              l ← as_slice st;
              OK (add_taken
                   (set_slot (set_consumer w i
                      (mkConsumer (cursor c) st (batch c) (out c) (received c)
                         (Release j k id (Returned n)))) id (mkSlot (claimed s) r)) id i l)
            else
              '(fl, r, log) ← bk_drain_in_place (rx s) (drain_max (j_call j) - j_done j)
                                (user_callback boom) (received c);
              OK (add_taken
                   (set_slot (set_consumer w i
                      (mkConsumer (cursor c) (staging c) (batch c) (out c) log
                         (Release j k id fl))) id (mkSlot (claimed s) r)) id i
                   (drop (length (received c)) log)))
  | Release j k id fl =>
      Some (s ← deref_slot w id;
            c1 ← match fl with
                 | Unwound => OK (set_pc c (Idle false))
                 | Returned got =>
                     if gave c j got then
                       finish (mkConsumer (rg_prefer (cursor c)) (staging c) (batch c) (out c)
                                 (received c) (pc c)) j got
                     else OK (set_pc c (Select j k))
                 end;
            OK (set_slot (set_consumer w i c1) id (mkSlot false (rx s))))
  | LoadLive j => Some (OK (set_consumer w i (set_pc c (Start (mkJob (j_call j) (live w =? 0) 0)))))
  end.

Definition is_idle c : bool := match pc c with Idle _ => true | _ => false end.

Definition cons_step w (i : nat) (op : cons_op) : option (outcome (World T C M K)) :=
  match consumers w !! i with
  | None => None
  | Some c =>
      match op with
      | CStep => cons_continue w i c
      | CCall a => if is_idle c then Some (OK (set_consumer w i (set_pc c (Start (mkJob a false 0))))) else None
      | CSetBatch b =>
          if is_idle c then
            Some (OK (set_consumer w i
              (mkConsumer (cursor c) (staging c) (Z.max b 1) (out c) (received c) (pc c))))
          else None
      | CClone =>
          if is_idle c then
            Some (OK (mkWorld (slots w) (rings w) (live w) (live_consumers w + 1) (capacity w)
              (registrars w) (producers w)
              (consumers w ++ [mkConsumer (rg_cursor (live_consumers w)) Batch_new (batch c)
                                 Batch_new [] (Idle false)]) (taken w)))
          else None
      | CDrop =>
          match pc c with
          | Idle e =>
              Some (OK (mkWorld (slots w) (rings w) (live w) (live_consumers w - 1) (capacity w)
                (registrars w) (producers w) (<[i := set_pc c (Gone e)]> (consumers w)) (taken w)))
          | _ => None
          end
      end
  end.

(** A producer at [st], its transport replaced by [ch]. *)
Definition pushed w (p : nat) (s : Slot C) (ch : C) (st : ppc T) (acc : list T) : World T C M K :=
  mkWorld (<[p := mkSlot (claimed s) ch]> (slots w)) (rings w) (live w) (live_consumers w)
    (capacity w) (registrars w) (<[p := mkProducer st acc]> (producers w)) (consumers w) (taken w).

Definition prod_pc w (p : nat) (st : ppc T) (acc : list T) : World T C M K :=
  mkWorld (slots w) (rings w) (live w) (live_consumers w)
    (capacity w) (registrars w) (<[p := mkProducer st acc]> (producers w)) (consumers w) (taken w).

(** [try_push]: where the producer is when it was accepted and when refused. *)
Definition push_value w p (acc : list T) (v : T) (ok full : ppc T) : outcome (World T C M K) :=
  s ← deref_slot w p;
  '(r, ch) ← bk_try_push (rx s) v;
  OK match r with
     | Ok _ => pushed w p s ch ok (acc ++ [v])
     | Err _ => pushed w p s ch full acc
     end.

(** One turn of [send_batch]: the source's own length tells the progress. *)
Definition push_batch w p (acc : list T) (source : Batch T) : outcome (World T C M K) :=
  if batch_is_empty source then OK (prod_pc w p PIdle acc) else
  s ← deref_slot w p;
  before ← as_slice source;
  '(_, ch, source') ← bk_push_from (rx s) (USIZE - 1) source;
  let sent := batch_len source - batch_len source' in
  OK (pushed w p s ch (if batch_len source' <? batch_len source then PBatch source' else PBatchFull source')
        (acc ++ take (Z.to_nat sent) before)).

(** The end of a producer: its transport learns of it and the live count drops. *)
Definition drop_producer w p (acc : list T) : outcome (World T C M K) :=
  s ← deref_slot w p;
  let w1 := pushed w p s (bk_drop_tx (rx s)) PDead acc in
  OK (mkWorld (slots w1) (rings w1) (live w1 - 1) (live_consumers w1) (capacity w1) (registrars w1)
        (producers w1) (consumers w1) (taken w1)).

(** The batch of a caller: [moved] cells consumed earlier, then the values. *)
Definition caller_batch (moved : nat) (l : list T) : Batch T :=
  mkBatch (replicate moved None ++ (Some <$> l)) (Z.of_nat moved).

Definition prod_step w (p : nat) (op : prod_op T) : option (outcome (World T C M K)) :=
  match producers w !! p with
  | None => None
  | Some (mkProducer st acc) =>
      match op, st with
      | PTrySend v, PIdle => Some (push_value w p acc v PIdle PIdle)
      | PBeginSend v, PIdle => Some (OK (prod_pc w p (PSend v) acc))
      | PStep, PSend v => Some (push_value w p acc v PIdle (PFull v))
      | PStep, PFull v => Some (OK (prod_pc w p (if live_consumers w =? 0 then PIdle else PSend v) acc))
      | PBeginBatch n l, PIdle => Some (OK (prod_pc w p (PBatch (caller_batch n l)) acc))
      | PStep, PBatch b => Some (push_batch w p acc b)
      | PStep, PBatchFull b =>
          Some (OK (prod_pc w p (if live_consumers w =? 0 then PIdle else PBatch b) acc))
      | PDrop, PIdle => Some (drop_producer w p acc)
      | _, _ => None
      end
  end.

Definition set_registrar w (i : nat) (r : rpc) (m : M) (lv : Z) (ps : list (Producer T)) : World T C M K :=
  mkWorld (slots w) m lv (live_consumers w) (capacity w) (<[i := r]> (registrars w)) ps
    (consumers w) (taken w).

(** [register]: a new transport, the two accesses of [Rings::push], the live
    count. A refused reservation panics: the new transport is dropped, and whoever
    holds the registrar catches the panic or drops the registrar too. *)
Definition reg_step w (i : nat) (op : reg_op) : option (outcome (World T C M K)) :=
  match registrars w !! i with
  | None => None
  | Some r =>
      match op, r with
      | RRegister, RIdle =>
          Some (ch ← bk_channel (capacity w);
                let w1 := set_registrar w i (RReserve (length (slots w))) (rings w) (live w)
                            (producers w ++ [mkProducer PNew []]) in
                OK (mkWorld (slots w1 ++ [mkSlot false ch]) (rings w1) (live w1) (live_consumers w1)
                      (capacity w1) (registrars w1) (producers w1) (consumers w1) (taken w1)))
      | RStep, RReserve id =>
          Some (OK match rg_reserve (rings w) id with
                   | Some (m, tok) => set_registrar w i (RPublish tok id) m (live w) (producers w)
                   | None => set_registrar w i RPanicked (rings w) (live w) (producers w)
                   end)
      | RStep, RPanicked => Some (OK (set_registrar w i RIdle (rings w) (live w) (producers w)))
      | RStep, RPublish tok id =>
          Some (OK (set_registrar w i (RCount id) (rg_publish (rings w) tok id) (live w) (producers w)))
      | RStep, RCount id =>
          Some (OK (set_registrar w i RIdle (rings w) (live w + 1)
                      (<[id := mkProducer PIdle []]> (producers w))))
      | RClone, RIdle =>
          Some (OK (mkWorld (slots w) (rings w) (live w + 1) (live_consumers w) (capacity w)
                      (registrars w ++ [RIdle]) (producers w) (consumers w) (taken w)))
      | RDrop, RIdle | RDrop, RPanicked =>
          Some (OK (set_registrar w i RGone (rings w) (live w - 1) (producers w)))
      | _, _ => None
      end
  end.

Definition step w (e : event T) : option (outcome (World T C M K)) :=
  match e with
  | EReg r op => reg_step w r op
  | EProd p op => prod_step w p op
  | ECons i op => cons_step w i op
  end.

(** ** Opening a channel *)

Fixpoint open_slots (n : nat) (cap : Z) : outcome (list (Slot C)) :=
  match n with
  | O => OK []
  | S n' =>
      ch ← bk_channel cap;
      l ← open_slots n' cap;
      OK (mkSlot false ch :: l)
  end.

(** [open] and [channel_with_rings]: [n] is the number of producers of a fixed
    channel, or the bound of an array membership. *)
Definition open (n cap : Z) : outcome (World T C M K) :=
  sl ← open_slots (rg_initial n) cap;
  OK (mkWorld sl (rg_open n) (Z.of_nat (rg_initial n + rg_registrars)) 1 (Z.max cap 1)
        (replicate rg_registrars RIdle) (replicate (rg_initial n) (mkProducer PIdle []))
        [mkConsumer (rg_cursor 0) Batch_new 64 Batch_new [] (Idle false)] []).

(** What the threads can reach. *)
Inductive reachable (w0 : World T C M K) : World T C M K -> Prop :=
| reach_refl : reachable w0 w0
| reach_step w e w' : reachable w0 w -> step w e = Some (OK w') -> reachable w0 w'.

Fixpoint run w (es : list (event T)) : option (World T C M K) :=
  match es with
  | [] => Some w
  | e :: es' => match step w e with Some (OK w') => run w' es' | _ => None end
  end.
End machine.

(** ** What a consumer holds *)

(** The ring whose claim a consumer holds. *)
Definition holds {T K} (c : Consumer T K) (id : nat) : Prop :=
  match pc c with
  | Access _ _ id' | Release _ _ id' _ => id = id'
  | _ => False
  end.

(** Whether the pass under way is the final one, or has already ended. *)
Definition final {T K} (c : Consumer T K) : bool :=
  match pc c with
  | Idle e | Gone e => e
  | Start j | Count j | Select j _ | Claim j _ _ | Access j _ _ | Release j _ _ _ | LoadLive j => j_final j
  end.

(** ** The invariant *)

Section invariant.
Context {T C M K : Type} `{!SpscBackend T C} `{!SpscLaws T C} `{!Rings M K} `{!RingsLaws M K}.
Context (boom : T -> bool).
Implicit Types c : Consumer T K.
Implicit Types w : World T C M K.

Definition reg_alive (r : rpc) : bool := match r with RGone => false | _ => true end.
Definition prod_alive (p : Producer T) : bool :=
  match p_pc p with PNew | PDead => false | _ => true end.
Definition prod_dead (p : Producer T) : bool := match p_pc p with PDead => true | _ => false end.
Definition cons_alive c : bool := match pc c with Gone _ => false | _ => true end.

Definition reg_id (r : rpc) : option nat :=
  match r with RReserve id | RPublish _ id | RCount id => Some id | _ => None end.
Definition reg_pending (r : rpc) : option (Z * nat) :=
  match r with RPublish tok id => Some (tok, id) | _ => None end.

(** The ring a consumer points at. *)
Definition cons_id c : option nat :=
  match pc c with Claim _ _ id | Access _ _ id | Release _ _ id _ => Some id | _ => None end.

(** A consumer that still has to look at ring [id]: one that is not on its
    final pass, or whose final pass has not yet passed by the ring, or has just
    been given values and will come back. *)
Definition obliged (m : M) c (id : nat) : Prop :=
  final c = false \/
  match pc c with
  | Start _ | Count _ | LoadLive _ => True
  | Select _ k => id ∈ scan k m (cursor c)
  | Claim _ k id' | Access _ k id' => id = id' \/ id ∈ scan k m (cursor c)
  | Release j k id' fl =>
      match fl with Unwound => True | Returned n => gave c j n = true end \/ id ∈ scan k m (cursor c)
  | Idle _ | Gone _ => False
  end.

(** What a consumer's staging [s] and lent batch [o] hold at each point. *)
Definition pc_ok (qs : list (list T)) c (s o : list T) : Prop :=
  match pc c with
  | Idle e | Gone e => e = true -> s = []
  | Start _ | LoadLive _ => True
  | Count j | Select j _ | Claim j _ _ | Access j _ _ =>
      s = [] /\ job_ok j /\ (lends j = true -> o = [])
  | Release j _ id fl =>
      job_ok j /\ (lends j = true -> o = []) /\
      match fl with
      | Unwound => is_refill (j_call j) = false /\ s = []
      | Returned n =>
          (if is_refill (j_call j) then True else s = [] /\ 0 <= n) /\
          (j_final j = true -> gave c j n = false -> qs !! id = Some [])
      end
  end.

Definition cursor_ok (m : M) c : Prop :=
  match pc c with
  | Claim _ _ _ | Access _ _ _ | Release _ _ _ _ => rg_sel m (cursor c)
  | _ => rg_cur m (cursor c)
  end.

Definition cons_ok (m : M) (qs : list (list T)) (log : list (nat * nat * T)) (i : nat) c : Prop :=
  exists s o, batch_repr (staging c) s /\ batch_repr (out c) o /\ 1 <= batch c /\
    by_consumer i log = received c ++ s /\ cursor_ok m c /\ pc_ok qs c s o /\
    (forall id, cons_id c = Some id -> (id < length qs)%nat).

Definition prod_ok (log : list (nat * nat * T)) (i : nat) (s : Slot C) (p : Producer T) (q : list T) : Prop :=
  bk_repr (rx s) q (prod_dead p) false /\ accepted p = from i log ++ q /\
  match p_pc p with
  | PNew => accepted p = []
  | PBatch b | PBatchFull b => exists l, batch_repr b l
  | _ => True
  end.

Record inv (w : World T C M K) (qs : list (list T)) (ids : list nat) : Prop := {
  i_len_q : length qs = length (slots w);
  i_len_p : length (producers w) = length (slots w);
  i_slot i s p q : slots w !! i = Some s -> producers w !! i = Some p -> qs !! i = Some q ->
    prod_ok (taken w) i s p q;
  i_log id i v : (id, i, v) ∈ taken w -> (id < length (slots w))%nat /\ (i < length (consumers w))%nat;
  i_cons i c : consumers w !! i = Some c -> cons_ok (rings w) qs (taken w) i c;
  i_held i c id : consumers w !! i = Some c -> holds c id ->
    exists s, slots w !! id = Some s /\ claimed s = true;
  i_excl i i' c c' id : consumers w !! i = Some c -> consumers w !! i' = Some c' ->
    holds c id -> holds c' id -> i = i';
  i_claim id s : slots w !! id = Some s -> claimed s = true ->
    exists i c, consumers w !! i = Some c /\ holds c id;
  i_live : live w = Z.of_nat (tally reg_alive (registrars w) + tally prod_alive (producers w));
  i_live_c : live_consumers w = Z.of_nat (tally cons_alive (consumers w));
  i_rings : rg_repr (rings w) ids (omap reg_pending (registrars w));
  i_ids id : id ∈ ids -> (id < length (slots w))%nat;
  i_reg r x id : registrars w !! r = Some x -> reg_id x = Some id ->
    exists p, producers w !! id = Some p /\ p_pc p = PNew;
  i_reg_inj r r' x x' id : registrars w !! r = Some x -> registrars w !! r' = Some x' ->
    reg_id x = Some id -> reg_id x' = Some id -> r = r';
  i_member id p : producers w !! id = Some p -> p_pc p <> PNew -> id ∈ ids;
  i_counted r id : registrars w !! r = Some (RCount id) -> id ∈ ids;
  i_final i c : consumers w !! i = Some c -> final c = true -> live w = 0;
  i_obliged id q : qs !! id = Some q -> q <> [] ->
    exists i c, consumers w !! i = Some c /\ obliged (rings w) c id;
  i_channel : exists ch, bk_channel (capacity w) = OK ch;
  i_some : consumers w <> []
}.

(** ** The local parts of a call *)

(** What a step may assume of a consumer that is between two calls or passes,
    and what the local parts give back: [ended] says the call answered the end
    of the channel. *)
Definition settled (m : M) (qs : list (list T)) log i c : Prop :=
  cons_ok m qs log i c /\ (forall id, ~ holds c id) /\ cons_alive c = true.

Definition local_pc (p : cpc) (s l : list T) : Prop :=
  match p with
  | Idle e => e = true -> s = []
  | Start _ | LoadLive _ => True
  | Count j | Select j _ => s = [] /\ job_ok j /\ (lends j = true -> l = [])
  | _ => False
  end.

Lemma settled_intro m qs log i cur st b o r p s l :
  batch_repr st s -> batch_repr o l -> 1 <= b -> by_consumer i log = r ++ s -> rg_cur m cur ->
  local_pc p s l -> settled m qs log i (mkConsumer cur st b o r p).
Proof.
  intros Hs Ho Hb Hl Hc Hp. split; [|destruct p; simpl in Hp; try done; (split; [by intros id []|done])].
  exists s, l. unfold cursor_ok, pc_ok, cons_id. destruct p; try done; simpl in *; splits.
Qed.

(** What [start] promises. *)
Definition started m qs log i (j : job) (r : outcome (Consumer T K)) : Prop :=
  exists c', r = OK c' /\ settled m qs log i c' /\
    (final c' = true -> j_final j = true) /\ forall id, obliged m c' id.

Lemma recv_start_ok m qs log i c j s o :
  batch_repr (staging c) s -> batch_repr (out c) o -> 1 <= batch c ->
  by_consumer i log = received c ++ s -> rg_cur m (cursor c) ->
  is_refill (j_call j) = true -> lends j = false ->
  started m qs log i j (recv_start c j).
Proof.
  intros Hs Ho Hb Hl Hc Ha Hle. unfold recv_start. destruct s as [|v s].
  - rewrite (pop_front_nil _ Hs). eexists. split; [reflexivity|]. split; [|split; [done|by right]].
    eapply settled_intro; [done..|]. unfold local_pc, job_ok. rewrite Ha, Hle. splits.
  - destruct (pop_front_cons _ v s Hs) as (b1 & -> & Hb1 & _). eexists. split; [reflexivity|].
    split; [|split; [done|by left]]. eapply settled_intro; [done|done|done| |done|done].
    by rewrite Hl, <- app_assoc.
Qed.

Lemma batch_start_ok m qs log i c j s o :
  batch_repr (staging c) s -> batch_repr (out c) o -> 1 <= batch c ->
  by_consumer i log = received c ++ s -> rg_cur m (cursor c) ->
  is_refill (j_call j) = true ->
  started m qs log i j (batch_start c j).
Proof.
  intros Hs Ho Hb Hl Hc Ha. unfold batch_start. rewrite (clear_repr _ _ Ho). cbn [mbind outcome_bind].
  rewrite (batch_is_empty_repr _ _ Hs). case_bool_decide as E.
  - subst s. eexists. split; [reflexivity|]. split; [|split; [done|by right]].
    eapply settled_intro; [apply batch_repr_new|done..|]. unfold local_pc, job_ok. rewrite Ha. splits.
  - rewrite (as_slice_repr _ _ Hs). eexists. split; [reflexivity|]. split; [|split; [done|by left]].
    eapply settled_intro; [apply batch_repr_new|done|done| |done|done]. by rewrite app_nil_r.
Qed.

(** A drain that returns: it goes on, or ends a final [for_each]. *)
Lemma drain_returns_ok j total s l :
  is_refill (j_call j) = false -> (drain_max (j_call j) <= total \/ s = []) ->
  local_pc (drain_returns j total) s l /\
  forall m c, pc c = drain_returns j total ->
    (final c = true -> j_final j = true /\ total <= 0) /\ (0 < total -> forall id, obliged m c id).
Proof.
  intros Ha Hor. unfold drain_returns, nothing, final, obliged, final.
  destruct (j_call j); try done; [split; [done|]; intros m c ->; by split; [|left]|].
  destruct (Z.ltb_spec 0 total); [split; [done|]; intros m c ->; by split; [|left]|].
  simpl in Hor. destruct (j_final j) eqn:E; (split; [simpl; destruct Hor; (done || lia)|]); intros m c ->;
    rewrite ?E; (split; [done|lia]).
Qed.

Lemma drain_start_ok m qs log i c j s o :
  batch_repr (staging c) s -> batch_repr (out c) o -> 1 <= batch c ->
  by_consumer i log = received c ++ s -> rg_cur m (cursor c) ->
  is_refill (j_call j) = false ->
  started m qs log i j (drain_start boom c j).
Proof.
  intros Hs Ho Hb Hl Hc Ha. unfold drain_start. rewrite (batch_len_repr _ _ Hs), Nat2Z.id.
  destruct (flush_ok boom (S (length s)) (drain_max (j_call j)) 0 (staging c) s (received c))
    as (n & fl & b' & -> & Hb' & Hfl); [done|lia|lia|]. cbn [mbind outcome_bind].
  assert (by_consumer i log = (received c ++ take n s) ++ drop n s) as Hl'
    by (by rewrite <- app_assoc, take_drop).
  eexists. split; [reflexivity|]. destruct fl as [d|].
  2:{ split; [by eapply settled_intro|]. split; [done|by left]. }
  destruct Hfl as [Hd Hor]. destruct (Z.leb_spec (drain_max (j_call j)) d) as [Hm|Hm].
  - destruct (drain_returns_ok j d (drop n s) o Ha (or_introl Hm)) as [Hlp Hpc]. split; [by eapply settled_intro|].
    destruct (Hpc m (mkConsumer (cursor c) b' (batch c) (out c) (received c ++ take n s) (drain_returns j d)) eq_refl)
      as [Hf Hob]. split; [intros E; apply (Hf E)|].
    intros id. unfold drain_returns in *. destruct (j_call j); try done; [by left|]. apply Hob. simpl in Hm. lia.
  - destruct Hor as [Hor|[Hlt Hnil]]; [lia|]. split; [|split; [done|by right]].
    eapply settled_intro; [done..|]. unfold local_pc, job_ok, lends. simpl. rewrite Hnil. splits.
    by destruct (j_call j).
Qed.

Lemma start_ok m qs log i c j :
  cons_ok m qs log i c -> pc c = Start j -> started m qs log i j (start boom c j).
Proof.
  intros (s & o & Hs & Ho & Hb & Hl & Hc & _) Hpc. unfold cursor_ok in Hc. rewrite Hpc in Hc.
  unfold start. destruct (j_call j) eqn:E.
  1,2: eapply recv_start_ok; try done; unfold lends; by rewrite E.
  1,2: eapply batch_start_ok; try done; by rewrite E.
  all: eapply drain_start_ok; try done; by rewrite E.
Qed.

(** What [finish] promises: a pass that was given something ([given]) does not
    end the call as disconnected. *)
Definition finished m qs log i (j : job) (given : Prop) (r : outcome (Consumer T K)) : Prop :=
  exists c', r = OK c' /\ settled m qs log i c' /\
    (final c' = true -> j_final j = true) /\ (given -> forall id, obliged m c' id).

Lemma nothing_ok j l :
  local_pc (nothing j) [] l /\ forall c, pc c = nothing j -> final c = true -> j_final j = true.
Proof.
  unfold nothing, final. destruct (j_call j), (j_final j) eqn:E; split; try done;
    intros c ->; rewrite ?E; done.
Qed.

Lemma recv_finish_ok m qs log i c j s o :
  batch_repr (staging c) s -> batch_repr (out c) o -> 1 <= batch c ->
  by_consumer i log = received c ++ s -> rg_cur m (cursor c) ->
  finished m qs log i j (s <> []) (recv_finish c j).
Proof.
  intros Hs Ho Hb Hl Hc. unfold recv_finish. destruct s as [|v s].
  - rewrite (pop_front_nil _ Hs). eexists. split; [reflexivity|].
    destruct (nothing_ok j o) as [Hp Hf]. split; [by eapply settled_intro|]. split; [by apply Hf|done].
  - destruct (pop_front_cons _ v s Hs) as (b1 & -> & Hb1 & _). eexists. split; [reflexivity|].
    split; [|split; [done|by left]]. eapply settled_intro; [done|done|done| |done|done].
    by rewrite Hl, <- app_assoc.
Qed.

Lemma batch_finish_ok m qs log i c j s :
  batch_repr (staging c) s -> batch_repr (out c) [] -> 1 <= batch c ->
  by_consumer i log = received c ++ s -> rg_cur m (cursor c) ->
  finished m qs log i j (s <> []) (batch_finish c j).
Proof.
  intros Hs Ho Hb Hl Hc. unfold batch_finish. rewrite (as_slice_repr _ _ Hs), (batch_len_repr _ _ Hs).
  eexists. split; [reflexivity|]. destruct (nothing_ok j s) as [Hp Hf].
  destruct (Z.eqb_spec (Z.of_nat (length s)) 0) as [E|E].
  - split; [eapply settled_intro; [done..| |done|done]; by rewrite app_nil_r|].
    split; [by apply Hf|]. destruct s; simpl in E; [done|lia].
  - split; [eapply settled_intro; [done..| |done|done]; by rewrite app_nil_r|]. split; [done|by left].
Qed.

Lemma finish_ok m qs log i c j got s o :
  batch_repr (staging c) s -> batch_repr (out c) o -> 1 <= batch c ->
  by_consumer i log = received c ++ s -> rg_cur m (cursor c) ->
  (lends j = true -> o = []) -> job_ok j -> (is_refill (j_call j) = false -> s = []) ->
  finished m qs log i j (if is_refill (j_call j) then s <> [] else 0 < got) (finish c j got).
Proof.
  intros Hs Ho Hb Hl Hc Hle Hj Hnil. unfold finish, lends, job_ok in *. destruct (j_call j) eqn:E.
  1,2: by eapply recv_finish_ok.
  1,2: rewrite (Hle eq_refl) in Ho; by eapply batch_finish_ok.
  all: destruct (drain_returns_ok j (j_done j + got) s o ltac:(by rewrite E) (or_intror (Hnil eq_refl))) as [Hp Hpc];
    eexists; (split; [reflexivity|]); (split; [by eapply settled_intro|]);
    destruct (Hpc m (set_pc c (drain_returns j (j_done j + got))) eq_refl) as [Hf Hob];
    (split; [by intros H; apply Hf|]); intros Hg; apply Hob; specialize (Hj eq_refl); simpl in Hg, Hj; lia.
Qed.

(** ** Preservation: consumers *)

Lemma obliged_open m c id : final c = false -> obliged m c id.
Proof. by left. Qed.

Lemma cons_ok_other m qs qs' log log' i c :
  cons_ok m qs log i c -> length qs' = length qs -> by_consumer i log' = by_consumer i log ->
  (forall id, qs !! id = Some [] -> qs' !! id = Some []) ->
  cons_ok m qs' log' i c.
Proof.
  intros (s & o & H1 & H2 & H3 & H4 & H5 & H6 & H7) Hl Hb Hq. exists s, o. rewrite Hb, Hl. splits.
  unfold pc_ok in *. destruct (pc c) as [| | | | | |j k id [n|] | |]; try done.
  destruct H6 as (? & ? & ? & H8). splits. auto.
Qed.

(** One consumer changes, and with it at most the number of live ones. *)
Lemma inv_consumer_live w qs ids i c c' lc :
  inv w qs ids -> consumers w !! i = Some c ->
  cons_ok (rings w) qs (taken w) i c' ->
  (forall id, holds c' id <-> holds c id) -> lc + Z.b2z (cons_alive c) = live_consumers w + Z.b2z (cons_alive c') ->
  (final c' = true -> live w = 0) ->
  (forall id q, qs !! id = Some q -> q <> [] -> obliged (rings w) c id ->
    obliged (rings w) c' id \/
    exists i' d, i' <> i /\ consumers w !! i' = Some d /\ obliged (rings w) d id) ->
  inv (mkWorld (slots w) (rings w) (live w) lc (capacity w) (registrars w) (producers w)
        (<[i := c']> (consumers w)) (taken w)) qs ids.
Proof.
  intros Hi Hc Hok Hh Ha Hf Hob. pose proof (lookup_lt_Some _ _ _ Hc) as Hlt.
  constructor; simpl; try apply Hi.
  - intros id x v Hin. rewrite length_insert. by apply (i_log _ _ _ Hi id x v).
  - intros x d Hx. updated Hx; [done|]. by apply (i_cons _ _ _ Hi).
  - intros x d id Hx Hd. updated Hx; [|by apply (i_held _ _ _ Hi x d)].
    eapply (i_held _ _ _ Hi _ c); [exact Hc|by apply Hh].
  - intros x x' d d' id Hx Hx' Hd Hd'. updated Hx; updated Hx'; try done.
    + apply Hh in Hd. eapply (i_excl _ _ _ Hi _ _ c d'); done.
    + apply Hh in Hd'. eapply (i_excl _ _ _ Hi _ _ d c); done.
    + by eapply (i_excl _ _ _ Hi).
  - intros id s Hs Hcl. destruct (i_claim _ _ _ Hi id s Hs Hcl) as (x & d & Hx & Hd).
    destruct (decide (x = i)) as [->|Hne].
    + exists i, c'. rewrite list_lookup_insert_eq by done. split; [done|]. apply Hh. congruence.
    + exists x, d. by rewrite list_lookup_insert_ne.
  - pose proof (tally_insert cons_alive (consumers w) i c c' Hc) as Ht. rewrite (i_live_c _ _ _ Hi) in Ha.
    destruct (cons_alive c), (cons_alive c'); simpl in *; lia.
  - intros x d Hx Hd. updated Hx; [by apply Hf|]. by eapply (i_final _ _ _ Hi).
  - intros id q Hq Hn. destruct (i_obliged _ _ _ Hi id q Hq Hn) as (x & d & Hx & Hd).
    destruct (decide (x = i)) as [->|Hne].
    + replace d with c in Hd by congruence. destruct (Hob id q Hq Hn Hd) as [?|(x & e & ? & ? & ?)].
      * exists i, c'. by rewrite list_lookup_insert_eq.
      * exists x, e. by rewrite list_lookup_insert_ne.
    + exists x, d. by rewrite list_lookup_insert_ne.
  - apply insert_nonempty, Hi.
Qed.

Lemma inv_consumer w qs ids i c c' :
  inv w qs ids -> consumers w !! i = Some c ->
  cons_ok (rings w) qs (taken w) i c' ->
  (forall id, holds c' id <-> holds c id) -> cons_alive c' = cons_alive c ->
  (final c' = true -> live w = 0) ->
  (forall id q, qs !! id = Some q -> q <> [] -> obliged (rings w) c id ->
    obliged (rings w) c' id \/
    exists i' d, i' <> i /\ consumers w !! i' = Some d /\ obliged (rings w) d id) ->
  inv (set_consumer w i c') qs ids.
Proof. intros. eapply inv_consumer_live; try done. congruence. Qed.

(** One consumer takes [k] values from the ring [id], or claims or releases it. *)
Lemma inv_visit w qs ids i c c' id s q cl r k :
  inv w qs ids -> consumers w !! i = Some c -> slots w !! id = Some s -> qs !! id = Some q ->
  (forall p, producers w !! id = Some p -> bk_repr r (drop k q) (prod_dead p) false) ->
  cons_ok (rings w) (<[id := drop k q]> qs)
    (taken w ++ ((fun v => (id, i, v)) <$> take k q)) i c' ->
  (holds c id \/ claimed s = false) ->
  (forall id', id' <> id -> ~ holds c id' /\ ~ holds c' id') ->
  (holds c' id <-> cl = true) ->
  cons_alive c' = cons_alive c -> (final c' = true -> live w = 0) ->
  (forall id' q', qs !! id' = Some q' -> q' <> [] -> (id' = id -> drop k q <> []) ->
    obliged (rings w) c id' -> obliged (rings w) c' id') ->
  inv (mkWorld (<[id := mkSlot cl r]> (slots w)) (rings w) (live w) (live_consumers w) (capacity w)
        (registrars w) (producers w) (<[i := c']> (consumers w))
        (taken w ++ ((fun v => (id, i, v)) <$> take k q))) (<[id := drop k q]> qs) ids.
Proof.
  intros Hi Hc Hs Hq Hr Hok Hhold Hother Hcl Ha Hf Hob.
  pose proof (lookup_lt_Some _ _ _ Hc) as Hlt. pose proof (lookup_lt_Some _ _ _ Hs) as Hlts.
  assert (forall x d id', x <> i -> consumers w !! x = Some d -> holds d id' -> id' <> id) as Hnot.
  { intros x d id' Hne Hx Hd ->. destruct Hhold as [Hh|Hh].
    - by apply Hne, (i_excl _ _ _ Hi x i d c id).
    - destruct (i_held _ _ _ Hi x d id Hx Hd) as (s' & ? & ?). congruence. }
  constructor; simpl; try apply Hi.
  - rewrite !length_insert. apply Hi.
  - rewrite length_insert. apply Hi.
  - intros x s' p q' Hx Hp Hx'.
    destruct (decide (id = x)) as [<-|Hne].
    + rewrite list_lookup_insert_eq in Hx by done. rewrite list_lookup_insert_eq in Hx' by (by eapply lookup_lt_Some).
      simplify_eq.
      destruct (i_slot _ _ _ Hi id s p q Hs Hp Hq) as (H1 & H2 & H3). unfold prod_ok. simpl.
      rewrite from_app, from_tag, decide_True by done. split; [by apply Hr|]. split; [|done].
      by rewrite H2, <- app_assoc, take_drop.
    + rewrite list_lookup_insert_ne in Hx by done. rewrite list_lookup_insert_ne in Hx' by done.
      destruct (i_slot _ _ _ Hi x s' p q' Hx Hp Hx') as (H1 & H2 & H3). unfold prod_ok.
      rewrite from_app, from_tag, decide_False, app_nil_r by done. done.
  - intros x y v. rewrite !length_insert. intros [Hin|Hin]%elem_of_app; [by apply (i_log _ _ _ Hi x y v)|].
    apply list_elem_of_fmap in Hin as (u & [= -> -> ->] & _). done.
  - intros x d Hx. updated Hx; [done|]. eapply cons_ok_other; [by apply (i_cons _ _ _ Hi)|..].
    + by rewrite length_insert.
    + by rewrite by_consumer_app, by_consumer_tag, decide_False, app_nil_r.
    + intros y Hy. destruct (decide (id = y)) as [<-|Hne]; [|by rewrite list_lookup_insert_ne].
      rewrite Hq in Hy. injection Hy as ->. rewrite drop_nil.
      apply list_lookup_insert_eq. by eapply lookup_lt_Some.
  - intros x d y Hx Hd. updated Hx.
    + destruct (decide (y = id)) as [->|Hne]; [|by destruct (Hother y Hne)].
      eexists. rewrite list_lookup_insert_eq by done. split; [done|]. by apply Hcl.
    + pose proof (Hnot x d y ltac:(done) Hx Hd). rewrite list_lookup_insert_ne by done.
      by eapply (i_held _ _ _ Hi).
  - intros x x' d d' y Hx Hx' Hd Hd'. updated Hx; updated Hx'; try done.
    + destruct (decide (y = id)) as [->|Hne]; [|by destruct (Hother y Hne)]. by destruct (Hnot x' d' id).
    + destruct (decide (y = id)) as [->|Hne]; [|by destruct (Hother y Hne)]. by destruct (Hnot x d id).
    + by eapply (i_excl _ _ _ Hi).
  - intros y t Hy Hct. destruct (decide (id = y)) as [<-|Hne].
    + rewrite list_lookup_insert_eq in Hy by done. simplify_eq. exists i, c'.
      rewrite list_lookup_insert_eq by done. split; [done|]. by apply Hcl.
    + rewrite list_lookup_insert_ne in Hy by done.
      destruct (i_claim _ _ _ Hi y t Hy Hct) as (x & d & Hx & Hd).
      destruct (decide (i = x)) as [<-|Hnx].
      * replace d with c in Hd by congruence. by destruct (Hother y ltac:(done)).
      * exists x, d. by rewrite list_lookup_insert_ne.
  - rewrite (i_live_c _ _ _ Hi). by rewrite (tally_same _ _ i c).
  - intros y Hy. rewrite length_insert. by apply (i_ids _ _ _ Hi).
  - intros x d Hx Hd. updated Hx; [by apply Hf|]. by eapply (i_final _ _ _ Hi).
  - intros y qy Hy Hn.
    assert (exists q', qs !! y = Some q' /\ q' <> [] /\ (y = id -> drop k q <> [])) as (q' & Hq' & Hn' & Hd').
    { updated Hy; [|by exists qy]. exists q. splits. intros ->. by rewrite drop_nil in Hn. }
    destruct (i_obliged _ _ _ Hi y q' Hq' Hn') as (x & d & Hx & Hd).
    destruct (decide (i = x)) as [<-|Hnx].
    + exists i, c'. rewrite list_lookup_insert_eq by done. split; [done|].
      replace d with c in Hd by congruence. by apply (Hob y q').
    + exists x, d. by rewrite list_lookup_insert_ne.
  - apply insert_nonempty, Hi.
Qed.

(** Read a goal about a consumer at the program point [H] says. *)
#[local] Ltac at_pc H := unfold holds, cons_alive, final; rewrite ?H; try done; try (by intros ? []); try (intros ?; simpl in *; congruence).

(** One consumer claims or releases the ring [id]. *)
Lemma inv_flag w qs ids i c c' id s cl :
  inv w qs ids -> consumers w !! i = Some c -> slots w !! id = Some s ->
  cons_ok (rings w) qs (taken w) i c' ->
  (holds c id \/ claimed s = false) ->
  (forall id', id' <> id -> ~ holds c id' /\ ~ holds c' id') ->
  (holds c' id <-> cl = true) ->
  cons_alive c' = cons_alive c -> (final c' = true -> live w = 0) ->
  (forall id' q', qs !! id' = Some q' -> q' <> [] ->
    obliged (rings w) c id' -> obliged (rings w) c' id') ->
  inv (set_slot (set_consumer w i c') id (mkSlot cl (rx s))) qs ids.
Proof.
  intros Hi Hc Hs Hok Hhold Hother Hcl Ha Hf Hob.
  pose proof (lookup_lt_Some _ _ _ Hs) as Hlt.
  destruct (lookup_lt_is_Some_2 qs id ltac:(by rewrite (i_len_q _ _ _ Hi))) as [q Hq].
  assert (<[id := drop 0 q]> qs = qs) as Hqs by (by rewrite drop_0, list_insert_id).
  assert (taken w ++ ((fun v => (id, i, v)) <$> take 0 q) = taken w) as Hlog by (by rewrite take_0, app_nil_r).
  pose proof (inv_visit w qs ids i c c' id s q cl (rx s) 0) as Hv. rewrite Hqs, Hlog in Hv.
  apply Hv; clear Hv; try done.
  - intros p Hp. rewrite drop_0. apply (i_slot _ _ _ Hi id s p q Hs Hp Hq).
  - intros id' q' Hq' Hn _. by apply (Hob id' q').
Qed.

(** A step of a thread that the invariant holds for. *)
Definition steps_ok (ids : list nat) (o : option (outcome (World T C M K))) : Prop :=
  forall r, o = Some r -> exists w' qs', r = OK w' /\ inv w' qs' ids.

(** With every endpoint gone no registration is under way, and every ring that
    holds a value is a member. *)
Lemma inv_quiet w qs ids :
  inv w qs ids -> live w = 0 -> omap reg_pending (registrars w) = [].
Proof.
  intros Hi H0. pose proof (i_live _ _ _ Hi) as Hl.
  apply elem_of_nil_inv. intros x (r & Hr & Hp)%list_elem_of_omap.
  apply list_elem_of_lookup in Hr as [k Hk].
  pose proof (tally_zero reg_alive (registrars w) k r ltac:(lia) Hk). by destruct r.
Qed.

Lemma inv_member w qs ids id q :
  inv w qs ids -> qs !! id = Some q -> q <> [] -> id ∈ ids.
Proof.
  intros Hi Hq Hn. pose proof (lookup_lt_Some _ _ _ Hq) as Hlt. rewrite (i_len_q _ _ _ Hi) in Hlt.
  destruct (lookup_lt_is_Some_2 (slots w) id Hlt) as [s Hs].
  destruct (lookup_lt_is_Some_2 (producers w) id ltac:(rewrite (i_len_p _ _ _ Hi); done)) as [p Hp].
  apply (i_member _ _ _ Hi id p Hp). intros E.
  destruct (i_slot _ _ _ Hi id s p q Hs Hp Hq) as (_ & H2 & H3). rewrite E in H3. rewrite H3 in H2.
  symmetry in H2. by apply app_eq_nil in H2 as [_ ->].
Qed.

(** The holder of a claim on a ring with values will come back to it. *)
Lemma holder_obliged w qs ids i c id q :
  inv w qs ids -> consumers w !! i = Some c -> holds c id -> qs !! id = Some q -> q <> [] ->
  obliged (rings w) c id.
Proof.
  intros Hi Hc Hh Hq Hn. destruct (i_cons _ _ _ Hi i c Hc) as (s & o & _ & _ & _ & _ & _ & Hp & _).
  unfold holds, pc_ok, obliged, final in *.
  destruct (pc c) as [| | | | |j k id'|j k id' [n|]| |]; try done; subst.
  - right. by left.
  - destruct (j_final j) eqn:Ef; [|by left]. destruct Hp as (_ & _ & _ & Hz).
    destruct (gave c j n) eqn:Eg; [by right; left|]. specialize (Hz eq_refl eq_refl). congruence.
  - right. by left.
Qed.

(** A settled consumer replaces one that held nothing. *)
Lemma inv_settled w qs ids i c c' :
  inv w qs ids -> consumers w !! i = Some c -> settled (rings w) qs (taken w) i c' ->
  (forall id, ~ holds c id) -> cons_alive c = true -> (final c' = true -> final c = true) ->
  (forall id q, qs !! id = Some q -> q <> [] -> final c = true -> obliged (rings w) c id ->
    obliged (rings w) c' id) ->
  inv (set_consumer w i c') qs ids.
Proof.
  intros Hi Hc (Hok & Hh & Ha) Hn Hac Hf Hob. eapply inv_consumer; try done.
  - intros id. split; intros H; [by apply Hh in H|by apply Hn in H].
  - congruence.
  - intros E. by eapply (i_final _ _ _ Hi), Hf.
  - intros id q Hq Hne Ho. left. destruct (final c) eqn:E; [by eapply Hob|].
    apply obliged_open. destruct (final c'); [|done]. by specialize (Hf eq_refl).
Qed.

Lemma step_start w qs ids i c j :
  inv w qs ids -> consumers w !! i = Some c -> pc c = Start j ->
  steps_ok ids (cons_continue boom w i c).
Proof.
  intros Hi Hc Hpc r. unfold cons_continue. rewrite Hpc. intros [= <-].
  destruct (start_ok _ _ _ _ _ j (i_cons _ _ _ Hi i c Hc) Hpc) as (c' & -> & Hs & Hf & Hob).
  eexists _, qs. split; [reflexivity|]. apply (inv_settled w qs ids i c); try done; at_pc Hpc; auto.
Qed.

Lemma step_count w qs ids i c j :
  inv w qs ids -> consumers w !! i = Some c -> pc c = Count j ->
  steps_ok ids (cons_continue boom w i c).
Proof.
  intros Hi Hc Hpc r. unfold cons_continue. rewrite Hpc. intros [= <-].
  destruct (i_cons _ _ _ Hi i c Hc) as (s & o & Hs & Ho & Hb & Hl & Hcu & Hp & _).
  unfold cursor_ok, pc_ok in Hcu, Hp. rewrite Hpc in Hcu, Hp. destruct Hp as (-> & Hj & Hle).
  assert (forall st, batch_repr st [] ->
    inv (set_consumer w i (mkConsumer (cursor c) st (batch c) (out c) (received c)
          (Select j (Z.to_nat (rg_count (rings w)))))) qs ids) as Hinv.
  { intros st Hst. apply (inv_settled w qs ids i c); try done; at_pc Hpc.
    - by eapply settled_intro.
    - intros id q Hq Hn Hf _. right. simpl. eapply rg_cover_law; [|done|by eapply inv_member].
      rewrite <- (inv_quiet w qs ids Hi); [apply Hi|]. eapply (i_final _ _ _ Hi); [done|].
      unfold final. by rewrite Hpc. }
  destruct (is_refill (j_call j)).
  - rewrite (clear_repr _ _ Hs). eexists _, qs. split; [reflexivity|]. apply Hinv, batch_repr_new.
  - eexists _, qs. split; [reflexivity|]. by apply Hinv.
Qed.

(** The pass ends without a productive ring. *)
Lemma inv_finish_pass w qs ids i c j k cur s o :
  inv w qs ids -> consumers w !! i = Some c -> pc c = Select j k ->
  batch_repr (staging c) s -> batch_repr (out c) o -> 1 <= batch c ->
  by_consumer i (taken w) = received c ++ s -> rg_cur (rings w) cur ->
  (lends j = true -> o = []) -> job_ok j -> s = [] -> scan k (rings w) (cursor c) = [] ->
  exists c', finish (mkConsumer cur (staging c) (batch c) (out c) (received c) (pc c)) j 0 = OK c' /\
    inv (set_consumer w i c') qs ids.
Proof.
  intros Hi Hc Hpc Hs Ho Hb Hl Hcu Hle Hj Hnil Hsc.
  destruct (finish_ok (rings w) qs (taken w) i
    (mkConsumer cur (staging c) (batch c) (out c) (received c) (pc c)) j 0 s o) as (c' & -> & Hset & Hf & _);
    [done..|]. exists c'. split; [done|]. apply (inv_settled w qs ids i c); try done; unfold obliged; at_pc Hpc.
  intros id q Hq Hn Hfi [Hfo|Hin]; [congruence|]. rewrite Hsc in Hin. by apply not_elem_of_nil in Hin.
Qed.

Lemma step_select w qs ids i c j k :
  inv w qs ids -> consumers w !! i = Some c -> pc c = Select j k ->
  steps_ok ids (cons_continue boom w i c).
Proof.
  intros Hi Hc Hpc r. unfold cons_continue. rewrite Hpc.
  destruct (i_cons _ _ _ Hi i c Hc) as (s & o & Hs & Ho & Hb & Hl & Hcu & Hp & _).
  unfold cursor_ok, pc_ok in Hcu, Hp. rewrite Hpc in Hcu, Hp. destruct Hp as (Hnil & Hj & Hle).
  destruct k as [|k]; intros [= <-].
  { destruct (inv_finish_pass w qs ids i c j 0 (cursor c) s o) as (c' & Hfin & Hinv); try done.
    assert (finish c j 0 = OK c') as -> by (destruct c; exact Hfin). by exists (set_consumer w i c'), qs. }
  destruct (rg_next_law _ _ _ (cursor c) (i_rings _ _ _ Hi) Hcu) as (x & cur & Hnx & Hcu' & Hsel & Hin).
  rewrite Hnx. cbn [mbind outcome_bind].
  destruct x as [[id|]|].
  - eexists _, qs. split; [reflexivity|].
    apply (inv_consumer w qs ids i c); try done; unfold obliged; at_pc Hpc.
    + exists s, o. unfold cursor_ok, pc_ok, cons_id. simpl. splits; [by apply Hsel|]. intros ? [= <-].
      rewrite (i_len_q _ _ _ Hi). destruct (Hin id eq_refl) as [Hid|Hid]; [by apply (i_ids _ _ _ Hi)|].
      apply list_elem_of_fmap in Hid as ([tok id'] & -> & (x & Hr & Hx)%list_elem_of_omap).
      apply list_elem_of_lookup in Hr as [n Hr]. destruct x; try done. injection Hx as -> ->.
      destruct (i_reg _ _ _ Hi n _ id' Hr eq_refl) as (p & Hp & _).
      rewrite <- (i_len_p _ _ _ Hi). by eapply lookup_lt_Some.
    + intros E. eapply (i_final _ _ _ Hi); [done|]. unfold final. by rewrite Hpc.
    + intros id' q _ _ [?|Hsc]; left; [by left|right]. cbn [scan] in Hsc. rewrite Hnx in Hsc. simpl.
      by apply elem_of_cons in Hsc.
  - eexists _, qs. split; [reflexivity|].
    apply (inv_consumer w qs ids i c); try done; unfold obliged; at_pc Hpc.
    + exists s, o. unfold cursor_ok, pc_ok, cons_id. simpl. splits.
    + intros E. eapply (i_final _ _ _ Hi); [done|]. unfold final. by rewrite Hpc.
    + intros id' q _ _ [?|Hsc]; left; [by left|right]. cbn [scan] in Hsc. by rewrite Hnx in Hsc.
  - destruct (inv_finish_pass w qs ids i c j (S k) cur s o) as (c' & Hfin & Hinv); try done.
    { cbn [scan]. by rewrite Hnx. }
    rewrite Hpc in Hfin. rewrite Hfin. by exists (set_consumer w i c'), qs.
Qed.

Lemma step_claim w qs ids i c j k id :
  inv w qs ids -> consumers w !! i = Some c -> pc c = Claim j k id ->
  steps_ok ids (cons_continue boom w i c).
Proof.
  intros Hi Hc Hpc r. unfold cons_continue. rewrite Hpc. intros [= <-].
  destruct (i_cons _ _ _ Hi i c Hc) as (s & o & Hs & Ho & Hb & Hl & Hcu & Hp & Hid).
  unfold cursor_ok, pc_ok, cons_id in Hcu, Hp, Hid. rewrite Hpc in Hcu, Hp, Hid.
  destruct Hp as (Hnil & Hj & Hle). specialize (Hid id eq_refl).
  destruct (lookup_lt_is_Some_2 qs id Hid) as [q Hq]. rewrite (i_len_q _ _ _ Hi) in Hid.
  destruct (lookup_lt_is_Some_2 (slots w) id Hid) as [t Ht].
  unfold deref_slot. rewrite Ht. cbn [mbind outcome_bind].
  assert (j_final j = true -> live w = 0) as Hfin.
  { intros E. eapply (i_final _ _ _ Hi); [done|]. unfold final. by rewrite Hpc. }
  destruct (claimed t) eqn:Ecl.
  - eexists _, qs. split; [reflexivity|].
    apply (inv_consumer w qs ids i c); try done; unfold obliged; at_pc Hpc.
    + exists s, o. unfold cursor_ok, pc_ok, cons_id. simpl. splits. by apply (rg_sel_law (rings w)).
    + intros id' q' Hq' Hn [?|[->|Hsc]]; [left; by left| |left; by right].
      right. destruct (i_claim _ _ _ Hi id t Ht Ecl) as (x & d & Hx & Hd). exists x, d. splits.
      * intros ->. replace d with c in Hd by congruence. unfold holds in Hd. by rewrite Hpc in Hd.
      * by eapply (holder_obliged w qs ids x d id q').
  - eexists _, qs. split; [reflexivity|].
    apply (inv_flag w qs ids i c _ id t); try done; at_pc Hpc.
    + exists s, o. unfold cursor_ok, pc_ok, cons_id. simpl. splits. intros ? [= <-]. by rewrite (i_len_q _ _ _ Hi).
    + by right.
    + intros id' Hne. simpl. naive_solver.
    + intros id' q' _ _. unfold obliged, final. by rewrite Hpc.
Qed.

(** What the ring under a claim holds. *)
Lemma claimed_ring w qs ids i c id :
  inv w qs ids -> consumers w !! i = Some c -> cons_id c = Some id ->
  exists t p q, slots w !! id = Some t /\ producers w !! id = Some p /\ qs !! id = Some q /\
    bk_repr (rx t) q (prod_dead p) false.
Proof.
  intros Hi Hc Hid. destruct (i_cons _ _ _ Hi i c Hc) as (_ & _ & _ & _ & _ & _ & _ & _ & Hlt).
  specialize (Hlt id Hid). destruct (lookup_lt_is_Some_2 qs id Hlt) as [q Hq].
  rewrite (i_len_q _ _ _ Hi) in Hlt. destruct (lookup_lt_is_Some_2 (slots w) id Hlt) as [t Ht].
  rewrite <- (i_len_p _ _ _ Hi) in Hlt. destruct (lookup_lt_is_Some_2 (producers w) id Hlt) as [p Hp].
  exists t, p, q. splits. apply (i_slot _ _ _ Hi id t p q Ht Hp Hq).
Qed.

Lemma step_access_refill w qs ids i c j k id :
  inv w qs ids -> consumers w !! i = Some c -> pc c = Access j k id -> is_refill (j_call j) = true ->
  steps_ok ids (cons_continue boom w i c).
Proof.
  intros Hi Hc Hpc Hre r. unfold cons_continue. rewrite Hpc, Hre. intros [= <-].
  destruct (claimed_ring w qs ids i c id Hi Hc) as (t & p & q & Ht & Hp & Hq & Hr);
    [unfold cons_id; by rewrite Hpc|].
  destruct (i_cons _ _ _ Hi i c Hc) as (s & o & Hs & Ho & Hb & Hl & Hcu & Hpo & Hid).
  unfold cursor_ok, pc_ok, cons_id in Hcu, Hpo, Hid. rewrite Hpc in Hcu, Hpo, Hid.
  destruct Hpo as (-> & Hj & Hle). unfold deref_slot. rewrite Ht. cbn [mbind outcome_bind].
  destruct (bk_drain_into_law (rx t) q (prod_dead p) (batch c) (staging c) [] Hr Hs ltac:(lia))
    as (n & r' & st & -> & Hn & _ & Hpos & Hr' & Hst). cbn [mbind outcome_bind].
  rewrite (as_slice_repr _ _ Hst). cbn [mbind outcome_bind].
  assert (n = O -> q = []) as Hzero by (intros ->; destruct q; [done|]; specialize (Hpos ltac:(done) ltac:(lia)); lia).
  set (c' := mkConsumer (cursor c) st (batch c) (out c) (received c) (Release j k id (Returned (Z.of_nat n)))).
  assert (gave c' j (Z.of_nat n) = bool_decide (q <> [])) as Hgave.
  { unfold gave. rewrite Hre. cbn [staging c']. rewrite (batch_is_empty_repr _ _ Hst). simpl. destruct q as [|v q].
    - by rewrite take_nil.
    - destruct n; [by discriminate Hzero|done]. }
  eexists _, (<[id := drop n q]> qs). split; [reflexivity|].
  apply (inv_visit w qs ids i c c' id t q (claimed t) r' n); try done; at_pc Hpc.
  - exists (take n q), o. unfold cursor_ok, pc_ok, cons_id. simpl. splits.
    + by rewrite by_consumer_app, by_consumer_tag, decide_True, Hl, app_nil_r.
    + by rewrite Hre.
    + intros _. fold c'. rewrite Hgave. case_bool_decide as Eq; [done|].
      intros _. rewrite list_lookup_insert_eq by (by eapply lookup_lt_Some).
      destruct q; [by rewrite drop_nil|done].
    + intros ? [= <-]. rewrite length_insert. by apply Hid.
  - by left.
  - simpl. destruct (i_held _ _ _ Hi i c id Hc) as (t' & ? & ?); [unfold holds; by rewrite Hpc|]. by simplify_eq.
  - intros E. eapply (i_final _ _ _ Hi); [done|]. unfold final. by rewrite Hpc.
  - intros id' q' Hq' Hn' Hd. unfold obliged, final. rewrite Hpc. intros [?|[->|?]]; [by left| |by right; right].
    right; left. fold c'. rewrite Hgave. apply bool_decide_eq_true. intros ->. by apply (Hd eq_refl), drop_nil.
Qed.

Lemma step_access_in_place w qs ids i c j k id :
  inv w qs ids -> consumers w !! i = Some c -> pc c = Access j k id -> is_refill (j_call j) = false ->
  steps_ok ids (cons_continue boom w i c).
Proof.
  intros Hi Hc Hpc Hre r. unfold cons_continue. rewrite Hpc, Hre. intros [= <-].
  destruct (claimed_ring w qs ids i c id Hi Hc) as (t & p & q & Ht & Hp & Hq & Hr);
    [unfold cons_id; by rewrite Hpc|].
  destruct (i_cons _ _ _ Hi i c Hc) as (s & o & Hs & Ho & Hb & Hl & Hcu & Hpo & Hid).
  unfold cursor_ok, pc_ok, cons_id in Hcu, Hpo, Hid. rewrite Hpc in Hcu, Hpo, Hid.
  destruct Hpo as (-> & Hj & Hle). specialize (Hj Hre) as Hmax. unfold deref_slot. rewrite Ht. cbn [mbind outcome_bind].
  destruct (bk_drain_in_place_law _ (rx t) q (prod_dead p) (drain_max (j_call j) - j_done j)
    (user_callback boom) (received c) Hr ltac:(lia)) as (n & r' & log & k' & pn & Hn & _ & Hpos & Hfeed & -> & Hr').
  cbn [mbind outcome_bind].
  destruct (feed_callback boom (received c) (take n q)) as (k2 & p2 & Hfeed2 & Hk & Hpf).
  rewrite Hfeed in Hfeed2. injection Hfeed2 as -> -> ->.
  rewrite take_take, Nat.min_l, drop_app_length by (rewrite length_take in Hk; lia).
  set (fl := if p2 then Unwound else Returned (Z.of_nat n)).
  set (c' := mkConsumer (cursor c) (staging c) (batch c) (out c) (received c ++ take k2 q) (Release j k id fl)).
  assert (forall m, fl = Returned m -> gave c' j m = false -> q = []) as Hzero.
  { intros m Hm. destruct p2; [done|]. injection Hm as <-. unfold gave. rewrite Hre.
    destruct q; [done|]. specialize (Hpos ltac:(done) ltac:(lia)). zbool; [done|lia]. }
  eexists _, (<[id := drop k2 q]> qs). split; [reflexivity|].
  apply (inv_visit w qs ids i c c' id t q (claimed t) r' k2); try done; at_pc Hpc.
  - exists [], o. unfold cursor_ok, pc_ok, cons_id. simpl. splits.
    + by rewrite by_consumer_app, by_consumer_tag, decide_True, Hl, !app_nil_r.
    + rewrite Hre. destruct fl as [m|] eqn:Efl; [|done]. split.
      * destruct p2; [done|]. injection Efl as <-. splits.
      * intros _ Hg. rewrite (Hzero m eq_refl Hg), drop_nil. apply list_lookup_insert_eq. by eapply lookup_lt_Some.
    + intros ? [= <-]. rewrite length_insert. by apply Hid.
  - by left.
  - simpl. destruct (i_held _ _ _ Hi i c id Hc) as (t' & ? & ?); [unfold holds; by rewrite Hpc|]. by simplify_eq.
  - intros E. eapply (i_final _ _ _ Hi); [done|]. unfold final. by rewrite Hpc.
  - intros id' q' Hq' Hn' Hd. unfold obliged, final. rewrite Hpc. intros [?|[->|?]]; [by left| |by right; right].
    right; left. destruct fl as [m|] eqn:Efl; [|done]. destruct (gave c' j m) eqn:Eg; [done|].
    destruct (Hd eq_refl). by rewrite (Hzero m eq_refl Eg), drop_nil.
Qed.

Lemma step_release w qs ids i c j k id fl :
  inv w qs ids -> consumers w !! i = Some c -> pc c = Release j k id fl ->
  steps_ok ids (cons_continue boom w i c).
Proof.
  intros Hi Hc Hpc r. unfold cons_continue. rewrite Hpc. intros [= <-].
  destruct (claimed_ring w qs ids i c id Hi Hc) as (t & p & q & Ht & _);
    [unfold cons_id; by rewrite Hpc|].
  destruct (i_cons _ _ _ Hi i c Hc) as (s & o & Hs & Ho & Hb & Hl & Hcu & Hpo & Hid).
  unfold cursor_ok, pc_ok, cons_id in Hcu, Hpo, Hid. rewrite Hpc in Hcu, Hpo, Hid.
  destruct Hpo as (Hj & Hle & Hfl). destruct (rg_sel_law _ _ Hcu) as [Hcr Hcp].
  unfold deref_slot. rewrite Ht. cbn [mbind outcome_bind].
  assert (j_final j = true -> live w = 0) as Hfin.
  { intros E. eapply (i_final _ _ _ Hi); [done|]. unfold final. by rewrite Hpc. }
  (* it is enough that the consumer settles and keeps its obligations *)
  assert (forall c', settled (rings w) qs (taken w) i c' -> (final c' = true -> j_final j = true) ->
    (forall id' q', qs !! id' = Some q' -> q' <> [] -> obliged (rings w) c id' -> obliged (rings w) c' id') ->
    inv (set_slot (set_consumer w i c') id (mkSlot false (rx t))) qs ids) as Hgoal.
  { intros c' (Hok & Hh & Ha) Hf Hob. apply (inv_flag w qs ids i c c' id t); try done.
    - left. unfold holds. by rewrite Hpc.
    - intros id' Hne. split; [unfold holds; by rewrite Hpc|apply Hh].
    - split; [by intros ?%Hh|done].
    - unfold cons_alive at 2. by rewrite Hpc.
    - auto. }
  destruct fl as [n|].
  - destruct (gave c j n) eqn:Eg.
    + destruct (finish_ok (rings w) qs (taken w) i (mkConsumer (rg_prefer (cursor c)) (staging c) (batch c)
        (out c) (received c) (Release j k id (Returned n))) j n s o) as (c' & -> & Hset & Hf & Hob); try done.
      { intros E. rewrite E in Hfl. apply Hfl. }
      eexists _, qs. split; [reflexivity|]. apply Hgoal; [done|done|]. intros id' q' _ _ _. apply Hob.
      unfold gave in Eg. destruct (is_refill (j_call j)); [|lia].
      rewrite (batch_is_empty_repr _ _ Hs) in Eg. by case_bool_decide.
    + eexists _, qs. split; [reflexivity|]. apply Hgoal; [|done|].
      * eapply settled_intro; [done..|]. simpl. splits. unfold gave in Eg.
        destruct (is_refill (j_call j)); [|apply Hfl].
        rewrite (batch_is_empty_repr _ _ Hs) in Eg. by case_bool_decide.
      * intros id' q' _ _. unfold obliged, final. rewrite Hpc. intros [?|[?|?]]; [by left|congruence|by right].
  - eexists _, qs. split; [reflexivity|]. apply Hgoal; [|done|].
    + by eapply settled_intro.
    + intros. by left.
Qed.

Lemma step_load w qs ids i c j :
  inv w qs ids -> consumers w !! i = Some c -> pc c = LoadLive j ->
  steps_ok ids (cons_continue boom w i c).
Proof.
  intros Hi Hc Hpc r. unfold cons_continue. rewrite Hpc. intros [= <-].
  destruct (i_cons _ _ _ Hi i c Hc) as (s & o & Hs & Ho & Hb & Hl & Hcu & Hpo & Hid).
  unfold cursor_ok in Hcu. rewrite Hpc in Hcu.
  eexists _, qs. split; [reflexivity|]. apply (inv_consumer w qs ids i c); try done; at_pc Hpc.
  - by eapply settled_intro.
  - simpl. lia.
  - intros. left. by right.
Qed.

Lemma cons_continue_ok w qs ids i c :
  inv w qs ids -> consumers w !! i = Some c -> steps_ok ids (cons_continue boom w i c).
Proof.
  intros Hi Hc. destruct (pc c) as [| | | |j k id|j k id| | |] eqn:Hpc.
  1,9: unfold cons_continue; by rewrite Hpc.
  - by eapply step_start.
  - by eapply step_count.
  - by eapply step_select.
  - by eapply step_claim.
  - destruct (is_refill (j_call j)) eqn:E; [by eapply step_access_refill|by eapply step_access_in_place].
  - by eapply step_release.
  - by eapply step_load.
Qed.

Lemma inv_drop_consumer w qs ids i c e :
  inv w qs ids -> consumers w !! i = Some c -> pc c = Idle e ->
  inv (mkWorld (slots w) (rings w) (live w) (live_consumers w - 1) (capacity w) (registrars w)
        (producers w) (<[i := set_pc c (Gone e)]> (consumers w)) (taken w)) qs ids.
Proof.
  intros Hi Hc Hpc.
  destruct (i_cons _ _ _ Hi i c Hc) as (s & o & Hs & Ho & Hb & Hl & Hcu & Hpo & _).
  unfold cursor_ok, pc_ok in Hcu, Hpo. rewrite Hpc in Hcu, Hpo.
  apply (inv_consumer_live w qs ids i c); try done; at_pc Hpc.
  - exists s, o. unfold cursor_ok, pc_ok, cons_id. simpl. splits.
  - simpl. lia.
  - intros E. eapply (i_final _ _ _ Hi); [done|]. unfold final. by rewrite Hpc.
  - intros id q _ _. unfold obliged, final. rewrite Hpc. simpl. by left.
Qed.

Lemma inv_clone_consumer w qs ids b :
  inv w qs ids -> 1 <= b ->
  inv (mkWorld (slots w) (rings w) (live w) (live_consumers w + 1) (capacity w) (registrars w)
        (producers w) (consumers w ++ [mkConsumer (rg_cursor (live_consumers w)) Batch_new b
                                         Batch_new [] (Idle false)]) (taken w)) qs ids.
Proof.
  intros Hi Hb.
  assert (forall i c, (consumers w ++ [mkConsumer (rg_cursor (live_consumers w)) Batch_new b
    Batch_new [] (Idle false)]) !! i = Some c ->
    consumers w !! i = Some c \/ i = length (consumers w) /\
      c = mkConsumer (rg_cursor (live_consumers w)) Batch_new b Batch_new [] (Idle false)) as Hcase.
  { intros i c [?|[? Hc]]%lookup_app_Some; [by left|]. right.
    destruct (i - length (consumers w))%nat eqn:E; simpl in Hc; [|done]. split; [lia|congruence]. }
  constructor; simpl; try apply Hi.
  - intros id i v Hin. apply (i_log _ _ _ Hi) in Hin. rewrite length_app. simpl. lia.
  - intros i c [Hc|[-> ->]]%Hcase; [by apply (i_cons _ _ _ Hi)|].
    exists [], []. splits; try apply batch_repr_new; try done; [|].
    + simpl. apply by_consumer_fresh. intros id v Hin%(i_log _ _ _ Hi). lia.
    + apply rg_cursor_law. rewrite (i_live_c _ _ _ Hi). lia.
  - intros i c id [Hc|[-> ->]]%Hcase; [by apply (i_held _ _ _ Hi i)|done].
  - intros i i' c c' id [Hc|[-> ->]]%Hcase [Hc'|[-> ->]]%Hcase; try done. by apply (i_excl _ _ _ Hi i i' c c' id).
  - intros id s Hs Hcl. destruct (i_claim _ _ _ Hi id s Hs Hcl) as (i & c & Hc & Hh).
    exists i, c. split; [by apply lookup_app_l_Some|done].
  - rewrite tally_snoc, (i_live_c _ _ _ Hi). simpl. lia.
  - intros i c [Hc|[-> ->]]%Hcase; [by apply (i_final _ _ _ Hi i)|done].
  - intros id q Hq Hn. destruct (i_obliged _ _ _ Hi id q Hq Hn) as (i & c & Hc & Ho).
    exists i, c. split; [by apply lookup_app_l_Some|done].
  - intros E. apply app_eq_nil in E as [_ ?]. done.
Qed.

Lemma cons_step_inv w qs ids i op :
  inv w qs ids -> steps_ok ids (cons_step boom w i op).
Proof.
  intros Hi r. unfold cons_step. destruct (consumers w !! i) as [c|] eqn:Hc; [|done].
  destruct op as [a|b| | |].
  - unfold is_idle. destruct (pc c) eqn:Hpc; try done. intros [= <-]. eexists _, qs. split; [reflexivity|].
    destruct (i_cons _ _ _ Hi i c Hc) as (s & o & Hs & Ho & Hb & Hl & Hcu & _).
    unfold cursor_ok in Hcu. rewrite Hpc in Hcu.
    apply (inv_consumer w qs ids i c); try done; at_pc Hpc.
    + by eapply settled_intro.
    + intros. left. by left.
  - unfold is_idle. destruct (pc c) eqn:Hpc; try done. intros [= <-]. eexists _, qs. split; [reflexivity|].
    destruct (i_cons _ _ _ Hi i c Hc) as (s & o & Hs & Ho & Hb & Hl & Hcu & Hpo & _).
    unfold cursor_ok, pc_ok in Hcu, Hpo. rewrite Hpc in Hcu, Hpo.
    apply (inv_consumer w qs ids i c); try done; at_pc Hpc.
    + eapply settled_intro; try done. lia.
    + intros E. eapply (i_final _ _ _ Hi); [done|]. unfold final. by rewrite Hpc.
    + intros id q _ _. unfold obliged, final. rewrite Hpc. simpl. by left.
  - destruct (is_idle c); [|done]. intros [= <-]. eexists _, qs. split; [reflexivity|].
    apply inv_clone_consumer; [done|]. by destruct (i_cons _ _ _ Hi i c Hc) as (s & o & Hs & Ho & Hb & _).
  - destruct (pc c) eqn:Hpc; try done. intros [= <-]. eexists _, qs. split; [reflexivity|].
    by eapply inv_drop_consumer.
  - by apply (cons_continue_ok w qs ids i c).
Qed.

(** ** Preservation: producers *)

(** While an endpoint that can publish is alive, no consumer is on its final
    pass. *)
Lemma all_open w qs ids i c :
  inv w qs ids -> live w <> 0 -> consumers w !! i = Some c -> final c = false.
Proof.
  intros Hi Hl Hc. destruct (final c) eqn:E; [|done]. by destruct Hl; eapply (i_final _ _ _ Hi).
Qed.

Lemma producer_live w qs ids p pr :
  inv w qs ids -> producers w !! p = Some pr -> prod_alive pr = true -> live w <> 0.
Proof.
  intros Hi Hp Ha H0. pose proof (i_live _ _ _ Hi) as Hl.
  pose proof (tally_zero prod_alive (producers w) p pr ltac:(lia) Hp). congruence.
Qed.

Lemma registrar_live w qs ids r x :
  inv w qs ids -> registrars w !! r = Some x -> reg_alive x = true -> live w <> 0.
Proof.
  intros Hi Hr Ha H0. pose proof (i_live _ _ _ Hi) as Hl.
  pose proof (tally_zero reg_alive (registrars w) r x ltac:(lia) Hr). congruence.
Qed.

(** A consumer that is not on its final pass does not depend on what the rings
    hold. *)
Lemma cons_ok_open m m' qs qs' log i c :
  cons_ok m qs log i c -> final c = false -> (length qs <= length qs')%nat ->
  (rg_cur m (cursor c) -> rg_cur m' (cursor c)) -> (rg_sel m (cursor c) -> rg_sel m' (cursor c)) ->
  cons_ok m' qs' log i c.
Proof.
  intros (s & o & H1 & H2 & H3 & H4 & H5 & H6 & H7) Hf Hl Hcur Hsel. exists s, o.
  unfold cursor_ok, pc_ok, final in *. splits.
  - destruct (pc c); auto.
  - destruct (pc c) as [| | | | | |j k id [n|] | |]; try done. destruct H6 as (? & ? & ? & _). splits. congruence.
  - intros id Hid. specialize (H7 id Hid). lia.
Qed.

(** With every consumer open, any one of them is obliged to look everywhere. *)
Lemma someone_obliged w qs ids (m : M) id :
  inv w qs ids -> live w <> 0 ->
  exists i c, consumers w !! i = Some c /\ obliged m c id.
Proof.
  intros Hi Hl. pose proof (i_some _ _ _ Hi) as Hn. destruct (consumers w) as [|c cs] eqn:E; [done|].
  exists O, c. split; [done|]. left. eapply (all_open w qs ids 0); [done|done|by rewrite E].
Qed.

Definition source_ok (st : ppc T) : Prop :=
  match st with PNew => False | PBatch b | PBatchFull b => exists l, batch_repr b l | _ => True end.

Lemma inv_producer w qs ids p pr s q ch st l lv :
  inv w qs ids -> producers w !! p = Some pr -> prod_alive pr = true ->
  slots w !! p = Some s -> qs !! p = Some q ->
  bk_repr ch (q ++ l) (prod_dead (mkProducer st [])) false -> source_ok st ->
  lv = live w - 1 + Z.b2z (prod_alive (mkProducer st [])) ->
  inv (mkWorld (<[p := mkSlot (claimed s) ch]> (slots w)) (rings w) lv (live_consumers w) (capacity w)
        (registrars w) (<[p := mkProducer st (accepted pr ++ l)]> (producers w)) (consumers w) (taken w))
    (<[p := q ++ l]> qs) ids.
Proof.
  intros Hi Hp Ha Hs Hq Hr Hst Hlv.
  pose proof (producer_live w qs ids p pr Hi Hp Ha) as Hlive.
  pose proof (lookup_lt_Some _ _ _ Hs) as Hlts. pose proof (lookup_lt_Some _ _ _ Hq) as Hltq.
  pose proof (lookup_lt_Some _ _ _ Hp) as Hltp.
  constructor; simpl; rewrite ?length_insert; try apply Hi.
  - intros x s' p' q' Hx Hx' Hx''. destruct (decide (p = x)) as [<-|Hne].
    + rewrite list_lookup_insert_eq in Hx by done. rewrite list_lookup_insert_eq in Hx' by done.
      rewrite list_lookup_insert_eq in Hx'' by done. simplify_eq.
      destruct (i_slot _ _ _ Hi p s pr q Hs Hp Hq) as (H1 & H2 & H3). unfold prod_ok. simpl.
      split; [done|]. split; [by rewrite H2, <- app_assoc|]. by destruct st.
    + rewrite list_lookup_insert_ne in Hx by done. rewrite list_lookup_insert_ne in Hx' by done.
      rewrite list_lookup_insert_ne in Hx'' by done. by apply (i_slot _ _ _ Hi).
  - intros x c Hx. eapply cons_ok_open; [by apply (i_cons _ _ _ Hi)|by eapply all_open| |done|done].
    by rewrite length_insert.
  - intros x c id Hx Hh. destruct (i_held _ _ _ Hi x c id Hx Hh) as (s' & Hs' & Hc').
    destruct (decide (p = id)) as [<-|Hne].
    + rewrite list_lookup_insert_eq by done. eexists. split; [done|]. simpl. congruence.
    + rewrite list_lookup_insert_ne by done. by exists s'.
  - intros id s' Hs' Hc'. updated Hs'; by eapply (i_claim _ _ _ Hi).
  - pose proof (tally_insert prod_alive (producers w) p pr (mkProducer st (accepted pr ++ l)) Hp) as Ht.
    rewrite Ha in Ht. change (prod_alive (mkProducer st (accepted pr ++ l))) with (prod_alive (mkProducer st [])) in Ht.
    pose proof (i_live _ _ _ Hi). destruct (prod_alive (mkProducer st [])); simpl in *; lia.
  - intros r x id Hr' Hid. destruct (i_reg _ _ _ Hi r x id Hr' Hid) as (p' & Hp' & Hn).
    exists p'. rewrite list_lookup_insert_ne; [done|]. intros ->. simplify_eq. unfold prod_alive in Ha. by rewrite Hn in Ha.
  - intros id p' Hp' Hn. updated Hp'; [|by eapply (i_member _ _ _ Hi)].
    apply (i_member _ _ _ Hi _ pr Hp). intros E. unfold prod_alive in Ha. by rewrite E in Ha.
  - intros x c Hx Hf. pose proof (all_open w qs ids x c Hi Hlive Hx). congruence.
  - intros id q' _ _. by apply (someone_obliged w qs ids).
Qed.

(** The producer's ring. *)
Lemma producer_ring w qs ids p pr :
  inv w qs ids -> producers w !! p = Some pr ->
  exists s q, slots w !! p = Some s /\ qs !! p = Some q /\ prod_ok (taken w) p s pr q.
Proof.
  intros Hi Hp. pose proof (lookup_lt_Some _ _ _ Hp) as Hlt. rewrite (i_len_p _ _ _ Hi) in Hlt.
  destruct (lookup_lt_is_Some_2 (slots w) p Hlt) as [s Hs].
  destruct (lookup_lt_is_Some_2 qs p ltac:(by rewrite (i_len_q _ _ _ Hi))) as [q Hq].
  exists s, q. splits. by apply (i_slot _ _ _ Hi).
Qed.

(** A producer moves on without touching its ring. *)
Lemma inv_prod_pc w qs ids p st st' acc :
  inv w qs ids -> producers w !! p = Some (mkProducer st acc) ->
  prod_alive (mkProducer st acc) = true -> prod_alive (mkProducer st' []) = true -> source_ok st' ->
  inv (prod_pc w p st' acc) qs ids.
Proof.
  intros Hi Hp Ha Ha' Hs'. destruct (producer_ring w qs ids p _ Hi Hp) as (s & q & Hs & Hq & Hr & _).
  pose proof (inv_producer w qs ids p _ s q (rx s) st' [] (live w) Hi Hp Ha Hs Hq) as Hv.
  rewrite !app_nil_r, (list_insert_id qs p q Hq) in Hv.
  rewrite (list_insert_id (slots w) p (mkSlot (claimed s) (rx s))) in Hv by (by rewrite Hs; destruct s).
  apply Hv; [|done|rewrite Ha'; simpl; lia].
  unfold prod_dead, prod_alive in *. simpl in *. by destruct st, st'.
Qed.

Lemma push_value_ok w qs ids p st acc v ok full :
  inv w qs ids -> producers w !! p = Some (mkProducer st acc) ->
  prod_alive (mkProducer st acc) = true ->
  prod_alive (mkProducer ok []) = true -> prod_alive (mkProducer full []) = true ->
  source_ok ok -> source_ok full ->
  exists w' qs', push_value w p acc v ok full = OK w' /\ inv w' qs' ids.
Proof.
  intros Hi Hp Ha Hok Hfull Hso Hsf. destruct (producer_ring w qs ids p _ Hi Hp) as (s & q & Hs & Hq & Hr & _).
  unfold push_value, deref_slot. rewrite Hs. cbn [mbind outcome_bind].
  replace (prod_dead (mkProducer st acc)) with false in Hr by (by destruct st).
  assert (forall x, prod_alive (mkProducer x []) = true -> prod_dead (mkProducer x []) = false) as Hd
    by (by intros []).
  destruct (bk_try_push_law (rx s) q false v Hr) as (r & ch & -> & [[-> Hc]|[-> Hc]]); cbn [mbind outcome_bind].
  - eexists _, _. split; [reflexivity|].
    eapply (inv_producer w qs ids p _ s q ch ok [v] (live w) Hi Hp Ha Hs Hq); [by rewrite (Hd ok)|done|].
    rewrite Hok. simpl. lia.
  - eexists _, _. split; [reflexivity|].
    pose proof (inv_producer w qs ids p _ s q ch full [] (live w) Hi Hp Ha Hs Hq) as Hv.
    rewrite app_nil_r in Hv. simpl in Hv. rewrite app_nil_r in Hv. apply Hv; [by rewrite (Hd full)|done|].
    rewrite Hfull. simpl. lia.
Qed.

Lemma push_batch_ok w qs ids p acc b l :
  inv w qs ids -> producers w !! p = Some (mkProducer (PBatch b) acc) -> batch_repr b l ->
  exists w' qs', push_batch w p acc b = OK w' /\ inv w' qs' ids.
Proof.
  intros Hi Hp Hb. destruct (producer_ring w qs ids p _ Hi Hp) as (s & q & Hs & Hq & Hr & _).
  unfold push_batch. rewrite (batch_is_empty_repr _ _ Hb). case_bool_decide as E.
  { eexists _, qs. split; [reflexivity|]. by eapply inv_prod_pc. }
  unfold deref_slot. rewrite Hs, (as_slice_repr _ _ Hb). cbn [mbind outcome_bind].
  destruct (bk_push_from_law (rx s) q false (USIZE - 1) b l Hr Hb ltac:(lia))
    as (n & ch & b' & -> & Hn & _ & Hch & Hb'). cbn [mbind outcome_bind].
  rewrite (batch_len_repr _ _ Hb), (batch_len_repr _ _ Hb'), length_drop.
  replace (Z.to_nat (Z.of_nat (length l) - Z.of_nat (length l - n))) with n by lia.
  eexists _, _. split; [reflexivity|].
  eapply (inv_producer w qs ids p _ s q ch _ (take n l) (live w) Hi Hp eq_refl Hs Hq).
  - by destruct (_ <? _).
  - destruct (_ <? _); by exists (drop n l).
  - destruct (_ <? _); simpl; lia.
Qed.

Lemma drop_producer_ok w qs ids p acc :
  inv w qs ids -> producers w !! p = Some (mkProducer PIdle acc) ->
  exists w' qs', drop_producer w p acc = OK w' /\ inv w' qs' ids.
Proof.
  intros Hi Hp. destruct (producer_ring w qs ids p _ Hi Hp) as (s & q & Hs & Hq & Hr & _).
  unfold drop_producer, deref_slot. rewrite Hs. cbn [mbind outcome_bind].
  eexists _, _. split; [reflexivity|].
  pose proof (inv_producer w qs ids p _ s q (bk_drop_tx (rx s)) PDead [] (live w - 1) Hi Hp eq_refl Hs Hq) as Hv.
  rewrite app_nil_r in Hv. simpl in Hv. rewrite app_nil_r in Hv. apply Hv; [by apply bk_drop_tx_law|done|lia].
Qed.

Lemma prod_step_inv w qs ids p op :
  inv w qs ids -> steps_ok ids (prod_step w p op).
Proof.
  intros Hi r. unfold prod_step. destruct (producers w !! p) as [[st acc]|] eqn:Hp; [|done].
  destruct (producer_ring w qs ids p _ Hi Hp) as (s & q & _ & _ & _ & _ & Hsrc). simpl in Hsrc.
  destruct op as [v|v|n l| |], st as [| |u|u|b|b|]; try done; intros [= <-].
  - by eapply push_value_ok.
  - eexists _, qs. split; [reflexivity|]. by eapply inv_prod_pc.
  - eexists _, qs. split; [reflexivity|]. eapply inv_prod_pc; try done.
    exists l. split; simpl; [lia|]. by rewrite Nat2Z.id.
  - by eapply drop_producer_ok.
  - by eapply push_value_ok.
  - eexists _, qs. split; [reflexivity|]. destruct (_ =? _); by eapply inv_prod_pc.
  - destruct Hsrc as [l Hl]. by eapply push_batch_ok.
  - eexists _, qs. split; [reflexivity|]. destruct (_ =? _); by eapply inv_prod_pc.
Qed.

(** ** Preservation: registrars *)

Lemma inv_registrar w qs ids i x y m ids' lv :
  inv w qs ids -> registrars w !! i = Some x -> reg_alive x = true ->
  rg_repr m ids' (omap reg_pending (<[i := y]> (registrars w))) ->
  (forall cur, rg_cur (rings w) cur -> rg_cur m cur) ->
  (forall cur, rg_sel (rings w) cur -> rg_sel m cur) ->
  (forall id, id ∈ ids -> id ∈ ids') -> (forall id, id ∈ ids' -> (id < length (slots w))%nat) ->
  (reg_id y = None \/ reg_id y = reg_id x) -> (forall id, y = RCount id -> id ∈ ids') ->
  lv = live w - 1 + Z.b2z (reg_alive y) ->
  inv (set_registrar w i y m lv (producers w)) qs ids'.
Proof.
  intros Hi Hx Ha Hm Hcur Hsel Hsub Hlt Hid Hcnt Hlv.
  pose proof (registrar_live w qs ids i x Hi Hx Ha) as Hlive.
  assert (forall r x' id, <[i := y]> (registrars w) !! r = Some x' -> reg_id x' = Some id ->
    exists x2, registrars w !! r = Some x2 /\ reg_id x2 = Some id) as Hold.
  { intros r x' id Hr Hr'. updated Hr; [|by exists x']. exists x. split; [done|]. destruct Hid; congruence. }
  constructor; simpl; try apply Hi; try done.
  - intros j c Hc. eapply cons_ok_open; [by apply (i_cons _ _ _ Hi)|by eapply all_open|done|auto|auto].
  - pose proof (tally_insert reg_alive (registrars w) i x y Hx) as Ht. rewrite Ha in Ht.
    pose proof (i_live _ _ _ Hi). destruct (reg_alive y); simpl in *; lia.
  - intros r x' id Hr Hr'. destruct (Hold r x' id Hr Hr') as (x2 & H1 & H2). by apply (i_reg _ _ _ Hi r x2).
  - intros r r' x1 x2 id Hr Hr' E1 E2. destruct (Hold r x1 id Hr E1) as (y1 & ? & ?).
    destruct (Hold r' x2 id Hr' E2) as (y2 & ? & ?). by apply (i_reg_inj _ _ _ Hi r r' y1 y2 id).
  - intros id p Hp Hn. by eapply Hsub, (i_member _ _ _ Hi).
  - intros r id Hr. updated Hr; [by apply Hcnt|]. by eapply Hsub, (i_counted _ _ _ Hi).
  - intros j c Hc Hf. pose proof (all_open w qs ids j c Hi Hlive Hc). congruence.
  - intros id q _ _. by apply (someone_obliged w qs ids).
Qed.

(** A registrar stops inside or outside [register] without a ring to publish. *)
Lemma inv_quiet_registrar w qs ids i x y lv :
  inv w qs ids -> registrars w !! i = Some x -> reg_alive x = true -> reg_pending x = None ->
  reg_pending y = None -> reg_id y = None -> (forall id, y <> RCount id) -> lv = live w - 1 + Z.b2z (reg_alive y) ->
  inv (set_registrar w i y (rings w) lv (producers w)) qs ids.
Proof.
  intros Hi Hx Ha Hpx Hpy Hid Hcnt Hlv.
  eapply inv_registrar; try done; [|apply Hi|by left|intros id E; by destruct (Hcnt id)].
  destruct (omap_insert_perm reg_pending (registrars w) i x y Hx) as (rest & H1 & H2).
  rewrite Hpx in H1. rewrite Hpy in H2. eapply rg_pend_law; [|apply Hi]. by rewrite H1, H2.
Qed.

(** A registered ring gets its producer. *)
Lemma inv_new_producer w qs ids i id p :
  inv w qs ids -> registrars w !! i = Some RIdle -> producers w !! id = Some p -> p_pc p = PNew -> id ∈ ids ->
  (forall r x, registrars w !! r = Some x -> reg_id x <> Some id) ->
  inv (mkWorld (slots w) (rings w) (live w + 1) (live_consumers w) (capacity w) (registrars w)
        (<[id := mkProducer PIdle []]> (producers w)) (consumers w) (taken w)) qs ids.
Proof.
  intros Hi Hr Hp Hn Hid Hno. pose proof (registrar_live w qs ids i _ Hi Hr eq_refl) as Hlive.
  pose proof (lookup_lt_Some _ _ _ Hp) as Hlt.
  constructor; simpl; rewrite ?length_insert; try apply Hi.
  - intros x s p' q Hs Hp' Hq. updated Hp'; [|by apply (i_slot _ _ _ Hi)].
    destruct (i_slot _ _ _ Hi _ s p q Hs Hp Hq) as (H1 & H2 & H3). unfold prod_ok, prod_dead in *. simpl.
    rewrite Hn in H1, H3. by rewrite H3 in H2.
  - pose proof (tally_insert prod_alive (producers w) id p (mkProducer PIdle []) Hp) as Ht.
    replace (prod_alive p) with false in Ht by (unfold prod_alive; by rewrite Hn).
    pose proof (i_live _ _ _ Hi). simpl in *. lia.
  - intros r x id' Hx Hid'. destruct (i_reg _ _ _ Hi r x id' Hx Hid') as (p' & Hp' & Hn').
    exists p'. rewrite list_lookup_insert_ne; [done|]. intros ->. by destruct (Hno r x Hx).
  - intros id' p' Hp' Hn'. updated Hp'; [done|]. by eapply (i_member _ _ _ Hi).
  - intros j c Hc Hf. pose proof (all_open w qs ids j c Hi Hlive Hc). congruence.
Qed.

(** [register] begins: a new transport in the store. *)
Lemma inv_register w qs ids i ch :
  inv w qs ids -> registrars w !! i = Some RIdle -> bk_channel (capacity w) = OK ch ->
  inv (mkWorld (slots w ++ [mkSlot false ch]) (rings w) (live w) (live_consumers w) (capacity w)
        (<[i := RReserve (length (slots w))]> (registrars w)) (producers w ++ [mkProducer PNew []])
        (consumers w) (taken w)) (qs ++ [[]]) ids.
Proof.
  intros Hi Hr Hch. pose proof (registrar_live w qs ids i _ Hi Hr eq_refl) as Hlive.
  assert (forall A (l : list A) k x y, (l ++ [x]) !! k = Some y ->
    l !! k = Some y \/ k = length l /\ y = x) as Hcase.
  { intros A l k x y [?|[? Hc]]%lookup_app_Some; [by left|]. right.
    destruct (k - length l)%nat eqn:E; simpl in Hc; [|done]. split; [lia|congruence]. }
  assert (omap reg_pending (<[i := RReserve (length (slots w))]> (registrars w)) ≡ₚ
    omap reg_pending (registrars w)) as Hpend.
  { destruct (omap_insert_perm reg_pending (registrars w) i RIdle (RReserve (length (slots w))) Hr)
      as (rest & H1 & H2). rewrite H1. done. }
  constructor; simpl; rewrite ?length_app; simpl.
  - by rewrite (i_len_q _ _ _ Hi).
  - by rewrite (i_len_p _ _ _ Hi).
  - intros x s p q Hs Hp Hq. apply Hcase in Hs as [Hs|[-> ->]].
    + pose proof (lookup_lt_Some _ _ _ Hs). apply Hcase in Hp as [Hp|[-> _]]; [|rewrite (i_len_p _ _ _ Hi) in *; lia].
      apply Hcase in Hq as [Hq|[-> _]]; [|rewrite (i_len_q _ _ _ Hi) in *; lia]. by apply (i_slot _ _ _ Hi).
    + apply Hcase in Hp as [Hp%lookup_lt_Some|[_ ->]]; [rewrite (i_len_p _ _ _ Hi) in Hp; lia|].
      apply Hcase in Hq as [Hq%lookup_lt_Some|[_ ->]]; [rewrite (i_len_q _ _ _ Hi) in Hq; lia|].
      unfold prod_ok. simpl. splits; [by eapply bk_channel_law|]. rewrite from_fresh; [done|].
      intros j v Hin%(i_log _ _ _ Hi). lia.
  - intros id j v Hin%(i_log _ _ _ Hi). lia.
  - intros j c Hc. eapply cons_ok_open; [by apply (i_cons _ _ _ Hi)|by eapply all_open| |done|done].
    rewrite length_app. lia.
  - intros j c id Hc Hh. destruct (i_held _ _ _ Hi j c id Hc Hh) as (s & Hs & Hcl). exists s.
    split; [by apply lookup_app_l_Some|done].
  - apply Hi.
  - intros id s Hs Hcl. apply Hcase in Hs as [Hs|[_ ->]]; [|done]. by eapply (i_claim _ _ _ Hi).
  - rewrite (tally_same _ _ i RIdle), tally_snoc by done. rewrite (i_live _ _ _ Hi). simpl. lia.
  - apply Hi.
  - by eapply rg_pend_law; [symmetry|apply Hi].
  - intros id Hid%(i_ids _ _ _ Hi). lia.
  - intros r x id Hx Hid. updated Hx.
    + injection Hid as <-. exists (mkProducer PNew []). split; [|done].
      rewrite <- (i_len_p _ _ _ Hi). by apply list_lookup_middle.
    + destruct (i_reg _ _ _ Hi r x id Hx Hid) as (p & Hp & Hn). exists p. split; [by apply lookup_app_l_Some|done].
  - assert (forall r x, registrars w !! r = Some x -> reg_id x = Some (length (slots w)) -> False) as Hfresh.
    { intros r x Hx Hid. destruct (i_reg _ _ _ Hi r x _ Hx Hid) as (p & Hp%lookup_lt_Some & _).
      rewrite (i_len_p _ _ _ Hi) in Hp. lia. }
    intros r r' x x' id Hx Hx' Hid Hid'. updated Hx; updated Hx'; try done.
    + injection Hid as <-. by destruct (Hfresh r' x').
    + injection Hid' as <-. by destruct (Hfresh r x).
    + by apply (i_reg_inj _ _ _ Hi r r' x x' id).
  - intros id p Hp Hn. apply Hcase in Hp as [Hp|[_ ->]]; [by eapply (i_member _ _ _ Hi)|done].
  - intros r id Hx. updated Hx. by eapply (i_counted _ _ _ Hi).
  - apply Hi.
  - intros id q _ _. by apply (someone_obliged w qs ids).
  - by exists ch.
  - apply Hi.
Qed.

Lemma inv_clone_registrar w qs ids i :
  inv w qs ids -> registrars w !! i = Some RIdle ->
  inv (mkWorld (slots w) (rings w) (live w + 1) (live_consumers w) (capacity w)
        (registrars w ++ [RIdle]) (producers w) (consumers w) (taken w)) qs ids.
Proof.
  intros Hi Hr. pose proof (registrar_live w qs ids i _ Hi Hr eq_refl) as Hlive.
  assert (forall r x, (registrars w ++ [RIdle]) !! r = Some x -> registrars w !! r = Some x \/ x = RIdle) as Hcase.
  { intros r x [?|[_ Hx]]%lookup_app_Some; [by left|]. right. by apply list_lookup_singleton_Some in Hx as [_ <-]. }
  constructor; simpl; try apply Hi.
  - rewrite tally_snoc, (i_live _ _ _ Hi). simpl. lia.
  - rewrite omap_app. simpl. rewrite app_nil_r. apply Hi.
  - intros r x id [Hx| ->]%Hcase; [by apply (i_reg _ _ _ Hi r)|done].
  - intros r r' x x' id [Hx| ->]%Hcase [Hx'| ->]%Hcase; try done. by apply (i_reg_inj _ _ _ Hi r r' x x' id).
  - intros r id [Hx|?]%Hcase; [by apply (i_counted _ _ _ Hi r)|done].
  - intros j c Hc Hf. pose proof (all_open w qs ids j c Hi Hlive Hc). congruence.
Qed.

Lemma reg_step_inv w qs ids i op r :
  inv w qs ids -> reg_step w i op = Some r ->
  exists w' qs' ids', r = OK w' /\ inv w' qs' ids'.
Proof.
  intros Hi. unfold reg_step. destruct (registrars w !! i) as [x|] eqn:Hx; [|done].
  destruct op, x as [|id|tok id|id| |]; try done; intros [= <-].
  - destruct (i_channel _ _ _ Hi) as [ch Hch]. rewrite Hch. eexists _, _, ids. split; [reflexivity|].
    by apply inv_register.
  - eexists _, qs, ids. split; [reflexivity|]. by eapply inv_clone_registrar.
  - eexists _, qs, ids. split; [reflexivity|]. by eapply inv_quiet_registrar; [..|simpl; lia].
  - eexists _, qs, ids. split; [reflexivity|]. by eapply inv_quiet_registrar; [..|simpl; lia].
  - destruct (rg_reserve (rings w) id) as [[m tok]|] eqn:Er; eexists _, qs, ids; (split; [reflexivity|]).
    + destruct (omap_insert_perm reg_pending (registrars w) i (RReserve id) (RPublish tok id) Hx) as (rest & H1 & H2).
      destruct (rg_reserve_law _ _ _ _ _ _ (i_rings _ _ _ Hi) Er) as (Hm & Hcu & Hse).
      eapply inv_registrar; try done; [|apply Hi|by right|simpl; lia].
      eapply rg_pend_law; [|exact Hm]. by rewrite H1, H2.
    + by eapply inv_quiet_registrar; [..|simpl; lia].
  - destruct (omap_insert_perm reg_pending (registrars w) i (RPublish tok id) (RCount id) Hx) as (rest & H1 & H2).
    simpl in H1, H2.
    destruct (rg_publish_law (rings w) ids rest id tok) as (Hm & Hcu & Hse).
    { eapply rg_pend_law; [exact H1|apply Hi]. }
    eexists _, qs, (id :: ids). split; [reflexivity|].
    eapply inv_registrar; try done; [by eapply rg_pend_law|by right| |by right| |simpl; lia].
    + intros id' [->|Hin]%elem_of_cons; [|by apply (i_ids _ _ _ Hi)].
      destruct (i_reg _ _ _ Hi i _ id Hx eq_refl) as (p & Hp & _).
      rewrite <- (i_len_p _ _ _ Hi). by eapply lookup_lt_Some.
    + intros id' [= <-]. by left.
  - destruct (i_reg _ _ _ Hi i _ id Hx eq_refl) as (p & Hp & Hn).
    pose proof (i_counted _ _ _ Hi i id Hx) as Hid.
    assert (inv (set_registrar w i RIdle (rings w) (live w) (producers w)) qs ids) as Hi'.
    { by eapply inv_quiet_registrar; [..|simpl; lia]. }
    eexists _, qs, ids. split; [reflexivity|].
    eapply (inv_new_producer _ qs ids i id p Hi'); simpl; try done.
    + apply list_lookup_insert_eq. by eapply lookup_lt_Some.
    + intros r' x' Hx' Hid'. updated Hx'. by assert (i = r') by (by eapply (i_reg_inj _ _ _ Hi i r')).
  - eexists _, qs, ids. split; [reflexivity|]. by eapply inv_quiet_registrar; [..|simpl; lia].
Qed.

Lemma channel_step_ok w qs ids e r :
  inv w qs ids -> step boom w e = Some r -> exists w' qs' ids', r = OK w' /\ inv w' qs' ids'.
Proof.
  intros Hi Hs. destruct e as [i op|p op|i op]; simpl in Hs.
  - by eapply reg_step_inv.
  - destruct (prod_step_inv w qs ids p op Hi r Hs) as (w' & qs' & ? & ?). by exists w', qs', ids.
  - destruct (cons_step_inv w qs ids i op Hi r Hs) as (w' & qs' & ? & ?). by exists w', qs', ids.
Qed.

(** ** Reachable worlds *)

Lemma open_slots_ok n cap (sl : list (Slot C)) :
  open_slots n cap = OK sl ->
  length sl = n /\ forall i s, sl !! i = Some s -> claimed s = false /\ bk_repr (rx s) [] false false.
Proof.
  revert sl. induction n as [|n IH]; intros sl; simpl; [by intros [= <-]|].
  destruct (bk_channel cap) as [ch| |] eqn:Hch; try done. simpl.
  destruct (open_slots n cap) as [l| |]; try done. simpl. intros [= <-].
  destruct (IH l eq_refl) as [Hl Hs]. split; [simpl; lia|]. intros [|i] s Hi; simpl in Hi; [|by eapply Hs].
  injection Hi as <-. simpl. split; [done|by eapply bk_channel_law].
Qed.

Lemma inv_opened n cap ch (w : World T C M K) :
  0 <= n -> bk_channel (Z.max cap 1) = OK ch -> open n cap = OK w ->
  inv w (replicate (rg_initial n) []) (seq 0 (rg_initial n)).
Proof.
  intros Hn Hch. unfold open. destruct (open_slots (rg_initial n) cap) as [sl| |] eqn:Hsl; try done.
  simpl. intros [= <-]. destruct (open_slots_ok _ _ _ Hsl) as [Hl Hs].
  assert (forall r x, replicate rg_registrars RIdle !! r = Some x -> x = RIdle) as Hregs
    by (by intros r x [-> _]%lookup_replicate).
  assert (forall k, omap reg_pending (replicate k RIdle) = []) as Hpend by (intros k; induction k; done).
  constructor; simpl; rewrite ?length_replicate; try done.
  - intros i s p q Hi [-> _]%lookup_replicate [-> _]%lookup_replicate. unfold prod_ok. simpl.
    destruct (Hs i s Hi). splits.
  - by intros ? ? ? ?%not_elem_of_nil.
  - intros [|i] c Hc; [|done]. injection Hc as <-. exists [], []. splits.
    by apply rg_cursor_law.
  - intros [|i] c id Hc Hh; [|done]. by injection Hc as <-.
  - intros [|i] [|i'] c c' id Hc Hc' Hh; try done.
  - intros id s Hi Hc. destruct (Hs id s Hi). congruence.
  - rewrite !tally_replicate by done. lia.
  - rewrite Hpend. by apply rg_open_law.
  - intros id Hid%elem_of_seq. lia.
  - intros r x id Hx%Hregs. by subst.
  - intros r r' x x' id Hx%Hregs. by subst.
  - intros id p [_ Hlt]%lookup_replicate _. apply elem_of_seq. lia.
  - intros r id Hx%Hregs. done.
  - intros [|i] c Hc Hf; [|done]. by injection Hc as <-.
  - intros id q [-> _]%lookup_replicate. done.
  - by exists ch.
Qed.

Lemma world_inv w0 w qs ids :
  inv w0 qs ids -> reachable boom w0 w -> exists qs' ids', inv w qs' ids'.
Proof.
  intros Hi. induction 1 as [|w e w' _ (qs1 & ids1 & IH) Hs]; [by exists qs, ids|].
  destruct (channel_step_ok w qs1 ids1 e _ IH Hs) as (w2 & qs2 & ids2 & [= <-] & ?). by exists qs2, ids2.
Qed.

(** ** What a step leaves alone *)

(** A consumer drains for itself and touches neither producers nor other
    consumers. *)
Lemma cons_step_frame w i op w' :
  step boom w (ECons i op) = Some (OK w') -> op <> CClone ->
  producers w' = producers w /\ live w' = live w /\ length (consumers w') = length (consumers w) /\
  (forall k, k <> i -> consumers w' !! k = consumers w !! k) /\
  exists new, taken w' = taken w ++ new /\ forall x, x ∈ new -> x.1.2 = i.
Proof.
  cbn [step]. unfold cons_step. destruct (consumers w !! i) as [c|] eqn:Hc; [|done].
  assert (forall c', length (<[i := c']> (consumers w)) = length (consumers w) /\
    forall k, k <> i -> <[i := c']> (consumers w) !! k = consumers w !! k) as Hset
    by (intros c'; split; [apply length_insert|intros k Hk; by apply list_lookup_insert_ne]).
  assert (exists new : list (nat * nat * T), taken w = taken w ++ new /\ forall x, x ∈ new -> x.1.2 = i) as Hnil
    by (exists []; rewrite app_nil_r; split; [done|]; by intros x ?%not_elem_of_nil).
  assert (forall id l, exists new : list (nat * nat * T), taken w ++ ((fun v : T => (id, i, v)) <$> l) = taken w ++ new /\
    forall x, x ∈ new -> x.1.2 = i) as Htag.
  { intros id l. eexists. split; [done|]. by intros x (v & -> & _)%list_elem_of_fmap. }
  intros Hs Hop. destruct op; try done; try (destruct (is_idle c); [|done]); try injection Hs as <-;
    try (destruct (pc c); try done; injection Hs as <-); try (simpl; destruct (Hset (set_pc c (Gone ended0))); splits);
    try (simpl; splits; by apply Hset).
  unfold cons_continue in Hs. destruct (pc c) as [| | |j [|k]|j k id|j k id|j k id fl| |]; try done; injection Hs as Hs;
    try (destruct (is_refill (j_call j))); repeat open_bind Hs;
    repeat (case_match; simplify_eq; repeat open_bind Hs); simplify_eq; simpl; splits; try (by apply Hset); by apply Htag.
Qed.

(** Only a registrar's own steps move it. *)
Lemma registrars_frame w e w' :
  step boom w e = Some (OK w') -> (forall i op, e <> EReg i op) -> registrars w' = registrars w.
Proof.
  intros Hs He. destruct e as [i op|p op|i op]; [by destruct (He i op)|..]; cbn [step] in Hs.
  - unfold prod_step in Hs. destruct (producers w !! p) as [[st acc]|]; [|done].
    destruct op, st; try done; injection Hs as Hs; unfold push_value, push_batch, drop_producer in Hs;
      repeat open_bind Hs; repeat (case_match; simplify_eq; repeat open_bind Hs); by simplify_eq.
  - unfold cons_step in Hs. destruct (consumers w !! i) as [c|] eqn:Hc; [|done].
    destruct op; try (destruct (is_idle c); [|done]); try (by injection Hs as <-);
      try (destruct (pc c); try done; by injection Hs as <-).
    unfold cons_continue in Hs. destruct (pc c) as [| | |j [|k]|j k id|j k id|j k id fl| |]; try done; injection Hs as Hs;
      try (destruct (is_refill (j_call j))); repeat open_bind Hs;
      repeat (case_match; simplify_eq; repeat open_bind Hs); by simplify_eq.
Qed.

(** A [register] panics only when its reservation is refused. *)
Lemma register_panics w e w' i :
  step boom w e = Some (OK w') -> registrars w' !! i = Some RPanicked ->
  registrars w !! i = Some RPanicked \/
  exists id, e = EReg i RStep /\ registrars w !! i = Some (RReserve id) /\ rg_reserve (rings w) id = None.
Proof.
  intros Hs Hp. destruct e as [r op|p op|k op].
  2,3: left; by rewrite <- (registrars_frame _ _ _ Hs).
  cbn [step] in Hs. unfold reg_step in Hs. destruct (registrars w !! r) as [x|] eqn:Hx; [|done].
  assert (forall y, <[r := y]> (registrars w) !! i = Some RPanicked -> y <> RPanicked -> registrars w !! i = Some RPanicked)
    as Hother by (intros y Hy Hne; by updated Hy).
  destruct op, x as [|id|tok id|id| |]; try done; injection Hs as Hs; repeat open_bind Hs.
  - simplify_eq. left. eapply Hother; [exact Hp|done].
  - simplify_eq. apply lookup_app_Some in Hp as [?|[_ Hp]]; [by left|].
    by apply list_lookup_singleton_Some in Hp as [_ ?].
  - simplify_eq. left. eapply Hother; [exact Hp|done].
  - simplify_eq. left. eapply Hother; [exact Hp|done].
  - destruct (rg_reserve (rings w) id) as [[m tok]|] eqn:Er; simplify_eq; simpl in Hp.
    + left. eapply Hother; [exact Hp|done].
    + updated Hp; [right; by exists id|by left].
  - simplify_eq. left. eapply Hother; [exact Hp|done].
  - simplify_eq. left. eapply Hother; [exact Hp|done].
  - simplify_eq. left. eapply Hother; [exact Hp|done].
Qed.

(** ** Every value reaches exactly one consumer *)

(** The consumer's last blocking call answered the end of the channel. *)
Definition ended c : Prop := pc c = Idle true \/ pc c = Gone true.

Lemma ended_final c : ended c -> final c = true /\ forall m id, ~ obliged m c id.
Proof. unfold ended, obliged, final. intros [-> | ->]; (split; [done|]); by intros m id [|[]]. Qed.

Lemma inv_ended w qs ids :
  inv w qs ids -> (forall i c, consumers w !! i = Some c -> ended c) ->
  live w = 0 /\
  (forall id p, producers w !! id = Some p -> accepted p = from id (taken w)) /\
  (forall i c, consumers w !! i = Some c -> by_consumer i (taken w) = received c).
Proof.
  intros Hi He. split; [|split].
  - pose proof (i_some _ _ _ Hi) as Hs. destruct (consumers w) as [|c cs] eqn:E; [done|].
    eapply (i_final _ _ _ Hi O c); [by rewrite E|]. by apply ended_final, (He O).
  - intros id p Hp. destruct (producer_ring w qs ids id p Hi Hp) as (s & q & _ & Hq & _ & -> & _).
    destruct q as [|v q]; [by rewrite app_nil_r|].
    destruct (i_obliged _ _ _ Hi id _ Hq ltac:(done)) as (i & c & Hc & Ho).
    by destruct (proj2 (ended_final c (He i c Hc)) (rings w) id).
  - intros i c Hc. destruct (i_cons _ _ _ Hi i c Hc) as (s & o & _ & _ & _ & -> & _ & Hp & _).
    unfold pc_ok in Hp. destruct (He i c Hc) as [E|E]; rewrite E in Hp; by rewrite (Hp eq_refl), app_nil_r.
Qed.

Lemma inv_partition w qs ids :
  inv w qs ids -> (forall i c, consumers w !! i = Some c -> ended c) ->
  mjoin (received <$> consumers w) ≡ₚ mjoin (accepted <$> producers w).
Proof.
  intros Hi He. destruct (inv_ended w qs ids Hi He) as (_ & Ha & Hr).
  rewrite <- (fmap_seq_lookup (fun i => by_consumer i (taken w)) received) by apply Hr.
  rewrite <- (fmap_seq_lookup (fun i => from i (taken w)) accepted) by (intros i p Hp; symmetry; by apply Ha).
  unfold by_consumer, from. rewrite (buckets (fun x : nat * nat * T => x.1.2) snd).
  - rewrite (buckets (fun x : nat * nat * T => x.1.1) snd); [done|].
    intros [[id i] v] Hin%(i_log _ _ _ Hi). simpl. rewrite (i_len_p _ _ _ Hi). lia.
  - intros [[id i] v] Hin%(i_log _ _ _ Hi). simpl. lia.
Qed.

(** C9: on a brokerless channel over any storage and any ring membership that
    keep their contracts, in every interleaving of registrars, producers and
    competing consumers: no access is undefined behaviour, the only panic of the
    channel's own is that of a [register] whose reservation the membership refuses
    (an array at its bound), two consumers never hold the same ring, and a ring
    that a consumer drains is flagged as claimed, so that each ring keeps a single
    consumer at a time, after such a panic too. *)
Theorem brokerless_claims_exclusive n cap (w0 w : World T C M K) :
  0 <= n -> (exists ch : C, bk_channel (Z.max cap 1) = OK ch) -> open n cap = OK w0 -> reachable boom w0 w ->
  (forall e r, step boom w e = Some r -> exists w', r = OK w' /\
    forall i, registrars w' !! i = Some RPanicked ->
      registrars w !! i = Some RPanicked \/
      exists id, e = EReg i RStep /\ registrars w !! i = Some (RReserve id) /\ rg_reserve (rings w) id = None) /\
  (forall i i' c c' id, consumers w !! i = Some c -> consumers w !! i' = Some c' ->
    holds c id -> holds c' id -> i = i') /\
  (forall i c id, consumers w !! i = Some c -> holds c id ->
    exists s, slots w !! id = Some s /\ claimed s = true).
Proof.
  intros Hn [ch Hch] Ho Hr. destruct (world_inv _ _ _ _ (inv_opened n cap ch w0 Hn Hch Ho) Hr) as (qs & ids & Hi).
  split; [|split; [apply Hi|apply Hi]].
  intros e r Hs. destruct (channel_step_ok w qs ids e r Hi Hs) as (w' & _ & _ & -> & _). exists w'. split; [done|].
  intros i. by eapply register_panics.
Qed.

(** C8: on a brokerless channel every accepted value is handed to exactly one
    consumer. In every interleaving what a ring accepted is what was drained from
    it, in order, followed by what it still holds, and what a consumer drained is
    what it handed to its caller followed by what it has staged. When every
    consumer has been told the end of the channel, all senders are gone, and
    together the consumers have received exactly the accepted values: a consumer
    that skips a ring claimed by another one never strands its values. *)
Theorem brokerless_exactly_once n cap (w0 w : World T C M K) :
  0 <= n -> (exists ch : C, bk_channel (Z.max cap 1) = OK ch) -> open n cap = OK w0 -> reachable boom w0 w ->
  (forall id p, producers w !! id = Some p -> exists s q, slots w !! id = Some s /\
    bk_repr (rx s) q (prod_dead p) false /\ accepted p = from id (taken w) ++ q) /\
  (forall i c, consumers w !! i = Some c -> exists l, batch_repr (staging c) l /\
    by_consumer i (taken w) = received c ++ l) /\
  ((forall i c, consumers w !! i = Some c -> ended c) ->
    live w = 0 /\ mjoin (received <$> consumers w) ≡ₚ mjoin (accepted <$> producers w)).
Proof.
  intros Hn [ch Hch] Ho Hr. destruct (world_inv _ _ _ _ (inv_opened n cap ch w0 Hn Hch Ho) Hr) as (qs & ids & Hi).
  split; [|split].
  - intros id p Hp. destruct (producer_ring w qs ids id p Hi Hp) as (s & q & ? & _ & ? & ? & _). by exists s, q.
  - intros i c Hc. destruct (i_cons _ _ _ Hi i c Hc) as (l & _ & ? & _ & _ & ? & _). by exists l.
  - intros He. split; [by apply (inv_ended w qs ids)|by eapply inv_partition].
Qed.
End invariant.

(** ** Room

    Over bounded storage the capacity of every ring stays what it was. *)

Section room.
Context {T C M K : Type} `{!SpscBackend T C} `{!SpscLaws T C} `{!SpscBounded T C} `{!Rings M K} `{!RingsLaws M K}.
Context (boom : T -> bool).
Implicit Types w : World T C M K.

(** Every ring of the second world has the capacity it had in the first. *)
Definition same_room w w' : Prop :=
  forall id s', slots w' !! id = Some s' -> exists s, slots w !! id = Some s /\ bk_cap (rx s') = bk_cap (rx s).

Lemma same_room_refl w w' : slots w' = slots w -> same_room w w'.
Proof. intros E id s'. rewrite E. intros Hs. by exists s'. Qed.

Lemma same_room_insert w w' id s s' :
  slots w !! id = Some s -> slots w' = <[id := s']> (slots w) -> bk_cap (rx s') = bk_cap (rx s) -> same_room w w'.
Proof.
  intros Hs E Hc id' x. rewrite E. intros Hx. apply insert_other_or_same in Hx as [[<- <-]|[_ Hx]]; [by exists s|by exists x].
Qed.

Lemma cons_step_room w qs ids i op w' :
  inv w qs ids -> step boom w (ECons i op) = Some (OK w') -> same_room w w'.
Proof.
  intros Hi. cbn [step]. unfold cons_step. destruct (consumers w !! i) as [c|] eqn:Hc; [|done].
  intros Hs. destruct op; try (destruct (is_idle c); [|done]); try (injection Hs as <-; by apply same_room_refl);
    try (destruct (pc c); try done; injection Hs as <-; by apply same_room_refl).
  assert (forall id, cons_id c = Some id -> exists t q pg, slots w !! id = Some t /\ bk_repr (rx t) q pg false) as Hring.
  { intros id Hid. destruct (claimed_ring w qs ids i c id Hi Hc Hid) as (t & p & q & Ht & _ & _ & Hr).
    by exists t, q, (prod_dead p). }
  destruct (i_cons _ _ _ Hi i c Hc) as (s & o & Hst & _ & Hb & _ & _ & Hp & _). unfold pc_ok in Hp.
  unfold cons_continue in Hs. unfold cons_id in Hring.
  destruct (pc c) as [| | |j [|k]|j k id|j k id|j k id fl| |] eqn:Hpc; try done; injection Hs as Hs;
    try (destruct (is_refill (j_call j)) eqn:Hre); repeat open_bind Hs;
    repeat (case_match; simplify_eq; repeat open_bind Hs); simplify_eq; try (by apply same_room_refl);
    destruct (Hring id eq_refl) as (t & q & pg & Ht & Hr); unfold deref_slot in E; rewrite Ht in E; injection E as <-;
    (eapply same_room_insert; [exact Ht|reflexivity|]); try done; simpl.
  - eapply bk_cap_drain_into; [exact Hr|exact Hst| |exact E0]. lia.
  - eapply bk_cap_drain_in_place; [exact Hr| |exact E0]. destruct Hp as (_ & Hj & _). specialize (Hj Hre). lia.
Qed.

(** What a producer's non-blocking send does: it appends the value, and it does
    so whenever the ring has room. *)
Lemma try_send_room w qs ids p acc q v w' :
  inv w qs ids -> producers w !! p = Some (mkProducer PIdle acc) -> qs !! p = Some q ->
  step boom w (EProd p (PTrySend v)) = Some (OK w') ->
  same_room w w' /\ consumers w' = consumers w /\ taken w' = taken w /\ live w' = live w /\
  live_consumers w' = live_consumers w /\
  exists ok : bool, producers w' = <[p := mkProducer PIdle (if ok then acc ++ [v] else acc)]> (producers w) /\
    forall s, slots w !! p = Some s -> Z.of_nat (length q) < bk_cap (rx s) -> ok = true.
Proof.
  intros Hi Hp Hq. cbn [step]. unfold prod_step. rewrite Hp. intros Hs. injection Hs as Hs.
  destruct (producer_ring w qs ids p _ Hi Hp) as (s & q' & Hsl & Hq' & Hr & _). simplify_eq.
  unfold push_value, deref_slot in Hs. rewrite Hsl in Hs. cbn [mbind outcome_bind] in Hs. open_bind Hs.
  simplify_eq. pose proof (bk_cap_push _ _ _ _ _ _ Hr E) as Hcap.
  assert (forall w1, slots w1 = <[p := mkSlot (claimed s) r0]> (slots w) -> same_room w w1) as Hroom
    by (intros w1 E1; eapply same_room_insert; [exact Hsl|exact E1|exact Hcap]).
  destruct (bk_try_push_law (rx s) q false v Hr) as (r1 & ch & E1 & Hcase). rewrite E in E1. injection E1 as -> ->.
  destruct Hcase as [[-> _]|[-> _]]; (split; [by apply Hroom|]); simpl; splits.
  - exists true. splits.
  - exists false. splits. intros s0 Hs0 Hl. rewrite Hsl in Hs0. injection Hs0 as <-.
    destruct (bk_room_law (rx s) q false v Hr Hl) as [c' Hc']. congruence.
Qed.

Lemma drop_room w qs ids p acc w' :
  inv w qs ids -> producers w !! p = Some (mkProducer PIdle acc) ->
  step boom w (EProd p PDrop) = Some (OK w') ->
  same_room w w' /\ consumers w' = consumers w /\ taken w' = taken w /\
  producers w' = <[p := mkProducer PDead acc]> (producers w).
Proof.
  intros Hi Hp. cbn [step]. unfold prod_step. rewrite Hp. intros Hs. injection Hs as Hs.
  destruct (producer_ring w qs ids p _ Hi Hp) as (s & q & Hsl & _).
  unfold drop_producer, deref_slot in Hs. rewrite Hsl in Hs. injection Hs as <-. simpl. splits.
  eapply same_room_insert; [exact Hsl|reflexivity|]. simpl. apply bk_cap_drop_tx.
Qed.

(** ** A drain of one value *)

(** The state of a consumer that began [drain(1, ..)] when its log had [seen]
    values and that has no staged ones. *)
Definition taking (seen : nat) (c : Consumer T K) : Prop :=
  batch_repr (staging c) [] /\
  match pc c with
  | Idle e => e = false /\ (seen <= length (received c) <= S seen)%nat
  | Start j | Count j | Select j _ | Claim j _ _ | Access j _ _ =>
      j = mkJob (Drain 1) false 0 /\ length (received c) = seen
  | Release j _ _ fl =>
      j = mkJob (Drain 1) false 0 /\
      exists n, fl = Returned (Z.of_nat n) /\ (n <= 1)%nat /\ length (received c) = (seen + n)%nat
  | LoadLive _ | Gone _ => False
  end.

Lemma feed_silent (log l : list T) : feed (user_callback (fun _ => false)) log l = (log ++ l, length l, false).
Proof.
  revert log. induction l as [|v l IH]; intros log; simpl; [by rewrite app_nil_r|].
  by rewrite IH, <- app_assoc.
Qed.

Lemma taking_step w qs ids i c seen w' :
  inv w qs ids -> consumers w !! i = Some c -> taking seen c ->
  step (fun _ => false) w (ECons i CStep) = Some (OK w') ->
  exists c', consumers w' !! i = Some c' /\ taking seen c'.
Proof.
  intros Hi Hc [Hst Ht]. cbn [step]. unfold cons_step. rewrite Hc. unfold cons_continue.
  pose proof (lookup_lt_Some _ _ _ Hc) as Hlt.
  assert (forall c' (l : list (Consumer T K)), length l = length (consumers w) -> taking seen c' ->
    exists c2, <[i := c']> l !! i = Some c2 /\ taking seen c2) as Hput.
  { intros c' l Hl Hc'. exists c'. split; [|done]. apply list_lookup_insert_eq. lia. }
  destruct (pc c) as [| | |j [|k]|j k id|j k id|j k id fl| |] eqn:Hpc; try done; intros Hs; injection Hs as Hs.
  - destruct Ht as [-> Hl]. unfold start, drain_start in Hs. simpl in Hs.
    rewrite (pop_front_nil _ Hst) in Hs. simpl in Hs. injection Hs as <-. apply Hput; [done|]. by split.
  - destruct Ht as [-> Hl]. simpl in Hs. injection Hs as <-. apply Hput; [done|]. by split.
  - destruct Ht as [-> Hl]. simpl in Hs. injection Hs as <-. apply Hput; [done|]. split; [done|]. simpl. splits.
  - destruct Ht as [-> Hl]. open_bind Hs. destruct r as [[id|]|]; simpl in Hs; injection Hs as <-;
      (apply Hput; [done|]); split; try done; simpl; splits.
  - destruct Ht as [-> Hl]. open_bind Hs. destruct (claimed r); injection Hs as <-; simpl;
      (apply Hput; [done|]); by split.
  - destruct Ht as [-> Hl]. destruct (claimed_ring w qs ids i c id Hi Hc) as (t & p & q & Hsl & _ & _ & Hr);
      [unfold cons_id; by rewrite Hpc|]. unfold deref_slot in Hs. rewrite Hsl in Hs. simpl in Hs.
    destruct (bk_drain_in_place_law _ (rx t) q (prod_dead p) 1 (user_callback (fun _ => false)) (received c) Hr ltac:(lia))
      as (n & r' & log & m & pn & Hn & Hmax & _ & Hfeed & Hd & _).
    rewrite feed_silent in Hfeed. injection Hfeed as <- <- <-. rewrite Z.sub_0_r, Hd in Hs. simpl in Hs. injection Hs as <-.
    simpl. apply Hput; [done|]. split; [done|]. simpl. split; [done|]. exists n. rewrite length_app, length_take. splits.
  - destruct Ht as [-> (n & -> & Hn & Hl)]. open_bind Hs. unfold gave in Hs. simpl in Hs.
    destruct (Z.ltb_spec 0 (Z.of_nat n)); simpl in Hs; injection Hs as <-; simpl; (apply Hput; [done|]);
      (split; [done|]); simpl; splits.
Qed.
End room.

(** ** An execution

    Ring storage, array membership of one ring, two consumers. The second
    consumer claims the ring and drains one of two values; the producer and the
    registrar leave; the first consumer finds the ring claimed on its final pass
    and is told the end of the channel; the second one then receives the rest. *)

Definition steps (i n : nat) : list (event nat) := replicate n (ECons i CStep).

Definition stolen_schedule : list (event nat) :=
  [EReg 0 RRegister; EReg 0 RStep; EReg 0 RStep; EReg 0 RStep;
   EProd 0 (PTrySend 7%nat); EProd 0 (PTrySend 8%nat);
   ECons 0 CClone; ECons 1 (CSetBatch 1); ECons 1 (CCall Recv)] ++ steps 1 5 ++
  [EProd 0 PDrop; EReg 0 RDrop; ECons 0 (CCall Recv)] ++ steps 0 11.

Definition stolen_rest : list (event nat) :=
  steps 1 1 ++ [ECons 1 (CCall Recv)] ++ steps 1 6 ++ [ECons 1 (CCall Recv)] ++ steps 1 15 ++
  [ECons 1 CDrop].

Abbreviation ring_world := (World nat (ring.Chan nat) ArrayRings Cursor).

Definition sample_open : outcome ring_world :=
  open (SpscBackend0 := ring.ring_backend 8) 1 2.

Definition sample_run (es : list (event nat)) : option ring_world :=
  match sample_open with
  | OK w => run (SpscBackend0 := ring.ring_backend 8) (fun _ => false) w es
  | _ => None
  end.

Lemma run_reaches {T C M K} `{!SpscBackend T C} `{!Rings M K} boom (w0 w w' : World T C M K) es :
  reachable boom w0 w -> run boom w es = Some w' -> reachable boom w0 w'.
Proof.
  revert w. induction es as [|e es IH]; intros w Hr; simpl; [by intros [= <-]|].
  destruct (step boom w e) as [[w1| |]|] eqn:E; try done. apply IH. by econstructor.
Qed.

Lemma sample_reachable es (f : ring_world -> Prop) :
  match sample_run es with Some w => f w | None => False end ->
  exists w0 w, sample_open = OK w0 /\
    reachable (SpscBackend0 := ring.ring_backend 8) (fun _ => false) w0 w /\ f w.
Proof.
  unfold sample_run. destruct sample_open as [w0| |]; try done.
  destruct (run _ w0 es) as [w|] eqn:E; [|done]. intros Hf. exists w0, w. splits.
  eapply run_reaches; [constructor|exact E].
Qed.

(** A second [register] on the array of one ring panics. *)
Lemma register_refused :
  match sample_run [EReg 0 RRegister; EReg 0 RStep; EReg 0 RStep; EReg 0 RStep; EReg 0 RRegister; EReg 0 RStep] with
  | Some w => registrars w = [RPanicked]
  | None => False
  end.
Proof. vm_compute. reflexivity. Qed.

(** The ring is held by the second consumer while the first has been told the
    end; nobody else can hold it. *)
Lemma brokerless_claims_exclusive_witness :
  exists w : ring_world, pc <$> consumers w =
      [Idle true; Release (mkJob Recv false 0) 0 0 (Returned 1)] /\
    forall i c, consumers w !! i = Some c -> holds c 0 -> i = 1%nat.
Proof.
  destruct (sample_reachable stolen_schedule (fun w => pc <$> consumers w =
      [Idle true; Release (mkJob Recv false 0) 0 0 (Returned 1)])) as (w0 & w & Ho & Hr & Hpc);
    [vm_compute; reflexivity|].
  exists w. split; [exact Hpc|]. intros i c Hc Hh.
  destruct (brokerless_claims_exclusive (SpscLaws0 := ring.ring_laws 8) (fun _ => false) 1 2
    w0 w ltac:(lia) ltac:(eexists; vm_compute; reflexivity) Ho Hr) as (_ & Hex & _).
  destruct (consumers w) as [|c0 [|c1 l]]; try discriminate Hpc. injection Hpc as _ Hc1 _.
  apply (Hex i 1%nat c c1 0%nat Hc eq_refl Hh). unfold holds. rewrite Hc1. reflexivity.
Defined.

(** At the end of the execution the first consumer has nothing and the second
    one everything the ring accepted. *)
Lemma brokerless_exactly_once_witness :
  exists w : ring_world, received <$> consumers w = [[]; [7; 8]]%nat /\
    mjoin (received <$> consumers w) ≡ₚ mjoin (accepted <$> producers w) /\ live w = 0.
Proof.
  destruct (sample_reachable (stolen_schedule ++ stolen_rest) (fun w =>
      received <$> consumers w = [[]; [7; 8]]%nat /\ pc <$> consumers w = [Idle true; Gone true]))
    as (w0 & w & Ho & Hr & Hrc & Hpc); [vm_compute; split; reflexivity|].
  exists w. split; [exact Hrc|].
  destruct (brokerless_exactly_once (SpscLaws0 := ring.ring_laws 8) (fun _ => false) 1 2
    w0 w ltac:(lia) ltac:(eexists; vm_compute; reflexivity) Ho Hr) as (_ & _ & Hend).
  destruct Hend as [Hl Hp]; [|split; [exact Hp|exact Hl]].
  destruct (consumers w) as [|c0 [|c1 [|c2 l]]]; try discriminate Hpc. injection Hpc as Hc0 Hc1.
  intros [|[|i]] c Hc; simpl in Hc; [| |discriminate Hc]; injection Hc as <-; [by left|by right].
Defined.
End brokerless.
