(* ===== verification/Lanes.v ===== *)
(** * Lane-grid MPMC: [src/src/mpmc/lanes.rs]

    One SPSC lane per producer and consumer. A producer routes its values over
    its own lanes; a consumer scans its own lanes without any claim, and when a
    scan finds nothing it adopts the lanes that dropped consumers abandoned. The
    model interleaves the endpoints: [step] runs one transport call, one load or
    one critical section of the [abandoned] mutex, with the local computation
    that follows it. Lanes are numbered in the order [open] creates them.

    Ghost state: [accepted] is what each lane took, [taken] every drained value
    with its lane and consumer, [received] what a consumer handed to its caller,
    and [late] whether a consumer was dropped before its end of the channel while
    another one had already made its last look at the abandoned lanes. *)

From stdpp Require Import prelude.
From S2P Require Import Prelude Batch RoundRobin Backend BackendRing Staged.
Local Open Scope Z_scope.

Module lanes.

(** ** State *)

(** Where a consumer is; [second] tells the scan that follows an adoption. *)
Inductive cpc : Type :=
| Idle (ended : bool)
| Start (j : job)
| Scan (j : job) (k : nat) (second : bool)
| Adopt (j : job)
| LoadLive (j : job)
| Dropping (ended : bool)
| Gone (ended : bool).

Record Consumer T := mkConsumer {
  c_lanes : list nat;
  cursor : Z;
  staging : Batch T;
  batch : Z;
  out : Batch T;
  received : list T;
  pc : cpc
}.
Arguments mkConsumer {T} c_lanes cursor staging batch out received pc.
Arguments c_lanes {T} c.
Arguments cursor {T} c.
Arguments staging {T} c.
Arguments batch {T} c.
Arguments out {T} c.
Arguments received {T} c.
Arguments pc {T} c.

(** Where a producer is: [k] counts the lanes still to be tried by this pass;
    [block] tells [send] from [try_send]. *)
Inductive ppc T : Type :=
| PIdle
| PTry (v : T) (k : nat) (block : bool)
| PFull (v : T)
| PBatch (source : Batch T) (k : nat)
| PBatchFull (source : Batch T)
| PDead.
Arguments PIdle {T}.
Arguments PTry {T} v k block.
Arguments PFull {T} v.
Arguments PBatch {T} source k.
Arguments PBatchFull {T} source.
Arguments PDead {T}.

Record Producer T := mkProducer { p_lanes : list nat; p_cursor : Z; p_pc : ppc T }.
Arguments mkProducer {T} p_lanes p_cursor p_pc.
Arguments p_lanes {T} p.
Arguments p_cursor {T} p.
Arguments p_pc {T} p.

(** A lane: its transport and what it accepted. *)
Record Lane T C := mkLane { transport : C; accepted : list T }.
Arguments mkLane {T C} transport accepted.
Arguments transport {T C} l.
Arguments accepted {T C} l.

(** [Shared] with its endpoints. *)
Record World T C := mkWorld {
  lanes : list (Lane T C);
  live_producers : Z;
  live_consumers : Z;
  abandoned : list nat;
  producers : list (Producer T);
  consumers : list (Consumer T);
  taken : list (nat * nat * T);
  late : bool
}.
Arguments mkWorld {T C} lanes live_producers live_consumers abandoned producers consumers taken late.
Arguments lanes {T C} w.
Arguments live_producers {T C} w.
Arguments live_consumers {T C} w.
Arguments abandoned {T C} w.
Arguments producers {T C} w.
Arguments consumers {T C} w.
Arguments taken {T C} w.
Arguments late {T C} w.

Inductive prod_op T : Type :=
| PTrySend (v : T) | PBeginSend (v : T) | PBeginBatch (moved : nat) (l : list T) | PDrop | PStep.
Arguments PTrySend {T} v.
Arguments PBeginSend {T} v.
Arguments PBeginBatch {T} moved l.
Arguments PDrop {T}.
Arguments PStep {T}.
Inductive cons_op : Type := CCall (a : call) | CSetBatch (b : Z) | CDrop | CStep.
Inductive event T : Type :=
| EProd (p : nat) (op : prod_op T)
| ECons (c : nat) (op : cons_op).
Arguments EProd {T} p op.
Arguments ECons {T} c op.

Section machine.
Context {T C : Type} `{!SpscBackend T C}.
Context (boom : T -> bool).
Implicit Types c : Consumer T.
Implicit Types w : World T C.

(** ** Consumer: the local parts of a call *)

Definition set_pc c p : Consumer T :=
  mkConsumer (c_lanes c) (cursor c) (staging c) (batch c) (out c) (received c) p.

(** A consumer with new values staged or handed over. *)
Definition with_values c (s o : Batch T) (r : list T) p : Consumer T :=
  mkConsumer (c_lanes c) (cursor c) s (batch c) o r p.

(** The end of a call that found nothing. *)
Definition nothing (j : job) : cpc :=
  match j_call j with
  | Recv | RecvBatch | ForEach _ => if j_final j then Idle true else LoadLive j
  | _ => Idle false
  end.

(** [drain] returns [total]; [for_each] goes on unless it is zero. *)
Definition drain_returns (j : job) (total : Z) : cpc :=
  match j_call j with
  | ForEach _ => if 0 <? total then Start (mkJob (j_call j) false 0) else nothing j
  | _ => Idle false
  end.

(** The first scan of a refill or drain goes over the consumer's own lanes. *)
Definition first_scan c (j : job) : cpc := Scan j (length (c_lanes c)) false.

(** [try_recv] pops a staged value before it refills; [refill] clears the empty
    staging buffer. *)
Definition recv_start c (j : job) : outcome (Consumer T) :=
  '(o, s) ← pop_front (staging c);
  match o with
  | Some v => OK (with_values c s (out c) (received c ++ [v]) (Idle false))
  | None => '(_, s1) ← clear s; OK (with_values c s1 (out c) (received c) (first_scan c j))
  end.

(** [try_recv_batch] clears the caller's batch; it hands over what is staged, or
    lends the cleared batch to the refill. *)
Definition batch_start c (j : job) : outcome (Consumer T) :=
  '(_, o) ← clear (out c);
  if batch_is_empty (staging c)
  then '(_, s1) ← clear o; OK (with_values c s1 (staging c) (received c) (first_scan c j))
  else l ← as_slice (staging c); OK (with_values c o (staging c) (received c ++ l) (Idle false)).

(** [drain] hands over the staged prefix and returns when that was enough. *)
Definition drain_start c (j : job) : outcome (Consumer T) :=
  '(fl, s, log) ← flush boom (S (Z.to_nat (batch_len (staging c)))) (drain_max (j_call j)) 0
                    (staging c) (received c);
  OK (with_values c s (out c) log
       match fl with
       | Unwound => Idle false
       | Returned done =>
           if drain_max (j_call j) <=? done then drain_returns j done
           else first_scan c (mkJob (j_call j) (j_final j) done)
       end).

Definition start c (j : job) : outcome (Consumer T) :=
  match j_call j with
  | TryRecv | Recv => recv_start c j
  | TryRecvBatch | RecvBatch => batch_start c j
  | Drain _ | ForEach _ => drain_start c j
  end.

(** After the scans. *)
Definition recv_finish c (j : job) : outcome (Consumer T) :=
  '(o, s) ← pop_front (staging c);
  OK (match o with
      | Some v => with_values c s (out c) (received c ++ [v]) (Idle false)
      | None => with_values c s (out c) (received c) (nothing j)
      end).

Definition batch_finish c (j : job) : outcome (Consumer T) :=
  l ← as_slice (staging c);
  OK (with_values c (out c) (staging c) (received c ++ l)
        (if batch_len (staging c) =? 0 then nothing j else Idle false)).

Definition finish c (j : job) (got : Z) : outcome (Consumer T) :=
  match j_call j with
  | TryRecv | Recv => recv_finish c j
  | TryRecvBatch | RecvBatch => batch_finish c j
  | Drain _ | ForEach _ => OK (set_pc c (drain_returns j (j_done j + got)))
  end.

(** ** One step of a consumer *)

Definition set_consumer w i c : World T C :=
  mkWorld (lanes w) (live_producers w) (live_consumers w) (abandoned w) (producers w)
    (<[i := c]> (consumers w)) (taken w) (late w).

(** Consumer [i] becomes [c] after draining [l] from the lane [id]. *)
Definition drained w i c id (ch : C) (acc l : list T) : World T C :=
  mkWorld (<[id := mkLane ch acc]> (lanes w)) (live_producers w) (live_consumers w) (abandoned w)
    (producers w) (<[i := c]> (consumers w)) (taken w ++ ((fun v => (id, i, v)) <$> l)) (late w).

Definition index_lane w (ls : list nat) (i : Z) : outcome (nat * Lane T C) :=
  match ls !! Z.to_nat i with
  | None => PANIC
  | Some id => match lanes w !! id with Some l => OK (id, l) | None => UB end
  end.

(** The body of [scan_into_staging]: drain one lane, stop when it gave something. *)
Definition scan_refill w i c (j : job) (k : nat) (second : bool) : outcome (World T C) :=
  let '(x, cur) := next (cursor c) (Z.of_nat (length (c_lanes c))) in
  '(id, l) ← index_lane w (c_lanes c) x;
  '(_, ch, st) ← bk_drain_into (transport l) (batch c) (staging c);
  vs ← as_slice st;
  let c1 := mkConsumer (c_lanes c) cur st (batch c) (out c) (received c) (Scan j k second) in
  c2 ← (if batch_is_empty st then OK c1 else finish c1 j 0);
  OK (drained w i c2 id ch (accepted l) vs).

(** The body of [scan_in_place]. *)
Definition scan_in_place w i c (j : job) (k : nat) (second : bool) : outcome (World T C) :=
  let '(x, cur) := next (cursor c) (Z.of_nat (length (c_lanes c))) in
  '(id, l) ← index_lane w (c_lanes c) x;
  '(fl, ch, log) ← bk_drain_in_place (transport l) (drain_max (j_call j) - j_done j)
                     (user_callback boom) (received c);
  let c1 := mkConsumer (c_lanes c) cur (staging c) (batch c) (out c) log (Scan j k second) in
  c2 ← (match fl with
        | Unwound => OK (set_pc c1 (Idle false))
        | Returned got => if got =? 0 then OK c1 else finish c1 j got
        end);
  OK (drained w i c2 id ch (accepted l) (drop (length (received c)) log)).

(** [adopt_abandoned], and the second scan when it adopted something. *)
Definition adopt w i c (j : job) : outcome (World T C) :=
  match abandoned w with
  | [] => c1 ← finish c j 0; OK (set_consumer w i c1)
  | ls =>
      let own := c_lanes c ++ ls in
      OK (mkWorld (lanes w) (live_producers w) (live_consumers w) [] (producers w)
            (<[i := mkConsumer own (cursor c) (staging c) (batch c) (out c) (received c)
                      (Scan j (length own) true)]> (consumers w)) (taken w) (late w))
  end.

Definition cons_continue w (i : nat) c : option (outcome (World T C)) :=
  match pc c with
  | Idle _ | Gone _ => None
  | Start j => Some (c1 ← start c j; OK (set_consumer w i c1))
  | Scan j O false => Some (OK (set_consumer w i (set_pc c (Adopt j))))
  | Scan j O true => Some (c1 ← finish c j 0; OK (set_consumer w i c1))
  | Scan j (S k) second =>
      Some (if is_refill (j_call j) then scan_refill w i c j k second
            else scan_in_place w i c j k second)
  | Adopt j => Some (adopt w i c j)
  | LoadLive j =>
      Some (OK (set_consumer w i (set_pc c (Start (mkJob (j_call j) (live_producers w =? 0) 0)))))
  | Dropping e =>
      Some (OK (mkWorld (lanes w) (live_producers w) (live_consumers w - 1) (abandoned w)
                  (producers w) (<[i := set_pc c (Gone e)]> (consumers w)) (taken w) (late w)))
  end.

(** A consumer that will not look at the abandoned lanes again. *)
Definition past c : bool :=
  match pc c with
  | Idle e | Dropping e | Gone e => e
  | Scan j _ true => j_final j
  | _ => false
  end.

(** [Drop for Consumer], up to the release of the mutex. *)
Definition drop_consumer w i c (e : bool) : World T C :=
  mkWorld (lanes w) (live_producers w) (live_consumers w) (abandoned w ++ c_lanes c) (producers w)
    (<[i := mkConsumer [] (cursor c) (staging c) (batch c) (out c) (received c) (Dropping e)]>
       (consumers w)) (taken w)
    (late w || (negb e && existsb past (consumers w))).

Definition is_idle c : bool := match pc c with Idle _ => true | _ => false end.

Definition cons_step w (i : nat) (op : cons_op) : option (outcome (World T C)) :=
  match consumers w !! i with
  | None => None
  | Some c =>
      match op with
      | CStep => cons_continue w i c
      | CCall a =>
          if is_idle c then Some (OK (set_consumer w i (set_pc c (Start (mkJob a false 0))))) else None
      | CSetBatch b =>
          if is_idle c then
            Some (OK (set_consumer w i
              (mkConsumer (c_lanes c) (cursor c) (staging c) (Z.max b 1) (out c) (received c) (pc c))))
          else None
      | CDrop =>
          match pc c with
          | Idle e => Some (OK (drop_consumer w i c e))
          | _ => None
          end
      end
  end.

(** ** One step of a producer *)

Definition set_producer w i (p : Producer T) : World T C :=
  mkWorld (lanes w) (live_producers w) (live_consumers w) (abandoned w) (<[i := p]> (producers w))
    (consumers w) (taken w) (late w).

Definition pushed w i (p : Producer T) id (ch : C) (acc : list T) : World T C :=
  mkWorld (<[id := mkLane ch acc]> (lanes w)) (live_producers w) (live_consumers w) (abandoned w)
    (<[i := p]> (producers w)) (consumers w) (taken w) (late w).

(** One lane of [try_send]: the next lane takes the value or hands it back. *)
Definition try_lane w i (p : Producer T) (v : T) (k : nat) (block : bool) : outcome (World T C) :=
  let '(x, cur) := next (p_cursor p) (Z.of_nat (length (p_lanes p))) in
  '(id, l) ← index_lane w (p_lanes p) x;
  '(r, ch) ← bk_try_push (transport l) v;
  OK match r with
     | Ok _ => pushed w i (mkProducer (p_lanes p) cur PIdle) id ch (accepted l ++ [v])
     | Err back => pushed w i (mkProducer (p_lanes p) cur (PTry back k block)) id ch (accepted l)
     end.

(** One lane of [send_batch]: it takes as much of the rest as it can. *)
Definition batch_lane w i (p : Producer T) (source : Batch T) (k : nat) : outcome (World T C) :=
  let '(x, cur) := next (p_cursor p) (Z.of_nat (length (p_lanes p))) in
  '(id, l) ← index_lane w (p_lanes p) x;
  before ← as_slice source;
  '(_, ch, source') ← bk_push_from (transport l) (USIZE - 1) source;
  let st := if batch_len source' =? batch_len source then PBatch source' k
            else PBatch source' (length (p_lanes p)) in
  OK (pushed w i (mkProducer (p_lanes p) cur st) id ch
        (accepted l ++ take (Z.to_nat (batch_len source - batch_len source')) before)).

(** Every lane learns that its sender is gone. *)
Definition drop_lanes w (ids : list nat) : list (Lane T C) :=
  foldr (alter (fun l => mkLane (bk_drop_tx (transport l)) (accepted l))) (lanes w) ids.

Definition caller_batch (moved : nat) (l : list T) : Batch T :=
  mkBatch (replicate moved None ++ (Some <$> l)) (Z.of_nat moved).

Definition prod_step w (i : nat) (op : prod_op T) : option (outcome (World T C)) :=
  match producers w !! i with
  | None => None
  | Some p =>
      let goto st := Some (OK (set_producer w i (mkProducer (p_lanes p) (p_cursor p) st))) in
      let n := length (p_lanes p) in
      match op, p_pc p with
      | PTrySend v, PIdle => goto (PTry v n false)
      | PBeginSend v, PIdle => goto (PTry v n true)
      | PBeginBatch m l, PIdle => goto (PBatch (caller_batch m l) n)
      | PStep, PTry v (S k) block => Some (try_lane w i p v k block)
      | PStep, PTry v O block => goto (if block then PFull v else PIdle)
      | PStep, PFull v => goto (if live_consumers w =? 0 then PIdle else PTry v n true)
      | PStep, PBatch b k =>
          if batch_is_empty b then goto PIdle else
          match k with
          | O => goto (PBatchFull b)
          | S k' => Some (batch_lane w i p b k')
          end
      | PStep, PBatchFull b => goto (if live_consumers w =? 0 then PIdle else PBatch b n)
      | PDrop, PIdle =>
          Some (OK (mkWorld (drop_lanes w (p_lanes p)) (live_producers w - 1) (live_consumers w)
                      (abandoned w) (<[i := mkProducer [] (p_cursor p) PDead]> (producers w))
                      (consumers w) (taken w) (late w)))
      | _, _ => None
      end
  end.

Definition step w (e : event T) : option (outcome (World T C)) :=
  match e with
  | EProd p op => prod_step w p op
  | ECons i op => cons_step w i op
  end.

(** ** Opening a channel *)

Fixpoint open_lanes (n : nat) (cap : Z) : outcome (list (Lane T C)) :=
  match n with
  | O => OK []
  | S n' => ch ← bk_channel cap; l ← open_lanes n' cap; OK (mkLane ch [] :: l)
  end.

(** The nested loops of [open]: lane [p * nc + k] goes from producer [p] to
    consumer [k]. *)
Definition producer_lanes (nc p : nat) : list nat := (fun k => (p * nc + k)%nat) <$> seq 0 nc.
Definition consumer_lanes (np nc k : nat) : list nat := (fun p => (p * nc + k)%nat) <$> seq 0 np.

Definition open (np nc : nat) (cap : Z) : outcome (World T C) :=
  ls ← open_lanes (np * nc) cap;
  OK (mkWorld ls (Z.of_nat np) (Z.of_nat nc) []
        ((fun p => mkProducer (producer_lanes nc p) (Z.of_nat (p mod nc)) PIdle) <$> seq 0 np)
        ((fun k => mkConsumer (consumer_lanes np nc k) (Z.of_nat (k mod np))
                     Batch_new 64 Batch_new [] (Idle false)) <$> seq 0 nc) [] false).

Inductive reachable (w0 : World T C) : World T C -> Prop :=
| reach_refl : reachable w0 w0
| reach_step w e w' : reachable w0 w -> step w e = Some (OK w') -> reachable w0 w'.

Fixpoint run w (es : list (event T)) : option (World T C) :=
  match es with
  | [] => Some w
  | e :: es' => match step w e with Some (OK w') => run w' es' | _ => None end
  end.
End machine.

(** ** The invariant *)

(** Whether the pass under way is the final one, or has already ended. *)
Definition final {T} (c : Consumer T) : bool :=
  match pc c with
  | Idle e | Dropping e | Gone e => e
  | Start j | Scan j _ _ | Adopt j | LoadLive j => j_final j
  end.

(** The lanes that the scan under way still reaches. *)
Definition upcoming {T} (c : Consumer T) (k : nat) : list nat :=
  omap (fun x => c_lanes c !! Z.to_nat x) (visits k (cursor c) (Z.of_nat (length (c_lanes c)))).1.

(** The final pass has found the lane [id] empty. *)
Definition looked {T} (c : Consumer T) (id : nat) : Prop :=
  match pc c with
  | Start _ | LoadLive _ => False
  | Scan _ k _ => id ∉ upcoming c k
  | _ => True
  end.

(** What the consumer has staged and not handed over. *)
Definition unread {T} (c : Consumer T) : list T :=
  match as_slice (staging c) with OK l => l | _ => [] end.

Section invariant.
Context {T C : Type} `{!SpscBackend T C} `{!SpscLaws T C}.
Context (boom : T -> bool).
Implicit Types c : Consumer T.
Implicit Types w : World T C.

Definition prod_alive (p : Producer T) : bool := match p_pc p with PDead => false | _ => true end.

Definition pc_ok c (s o : list T) : Prop :=
  match pc c with
  | Idle e => e = true -> s = []
  | Dropping e | Gone e => (e = true -> s = []) /\ c_lanes c = []
  | Start _ | LoadLive _ => True
  | Scan j k _ => s = [] /\ job_ok j /\ (lends j = true -> o = []) /\ (k <= length (c_lanes c))%nat
  | Adopt j => s = [] /\ job_ok j /\ (lends j = true -> o = [])
  end.

Definition local_ok (log : list (nat * nat * T)) (i : nat) c : Prop :=
  exists s o, batch_repr (staging c) s /\ batch_repr (out c) o /\ 1 <= batch c /\
    by_consumer i log = received c ++ s /\ 0 <= cursor c /\ pc_ok c s o.

Definition prod_ok (n : nat) (p : Producer T) : Prop :=
  0 <= p_cursor p /\ NoDup (p_lanes p) /\ (forall id, id ∈ p_lanes p -> (id < n)%nat) /\
  match p_pc p with
  | PTry _ k _ => (k <= length (p_lanes p))%nat
  | PBatch b k => (k <= length (p_lanes p))%nat /\ exists l, batch_repr b l
  | PBatchFull b => exists l, batch_repr b l
  | PDead => p_lanes p = []
  | _ => True
  end.

Record inv w (qs : list (list T)) : Prop := {
  i_len : length qs = length (lanes w);
  i_lane id l q : lanes w !! id = Some l -> qs !! id = Some q ->
    accepted l = from id (taken w) ++ q /\
    exists pg, bk_repr (transport l) q pg false /\
      (pg = true -> forall i p, producers w !! i = Some p -> id ∉ p_lanes p);
  i_log id i v : (id, i, v) ∈ taken w -> (id < length (lanes w))%nat /\ (i < length (consumers w))%nat;
  i_prod i p : producers w !! i = Some p -> prod_ok (length (lanes w)) p;
  i_prods i i' p p' id : producers w !! i = Some p -> producers w !! i' = Some p' ->
    id ∈ p_lanes p -> id ∈ p_lanes p' -> i = i';
  i_cons i c : consumers w !! i = Some c -> local_ok (taken w) i c;
  i_own : mjoin (c_lanes <$> consumers w) ++ abandoned w ≡ₚ seq 0 (length (lanes w));
  i_live : live_producers w = Z.of_nat (tally prod_alive (producers w));
  i_final i c : consumers w !! i = Some c -> final c = true -> live_producers w = 0;
  i_looked i c id : consumers w !! i = Some c -> final c = true -> id ∈ c_lanes c -> looked c id ->
    qs !! id = Some [];
  i_left i c id : consumers w !! i = Some c -> past c = true -> id ∈ abandoned w -> late w = false ->
    qs !! id = Some []
}.

Lemma past_final c : past c = true -> final c = true.
Proof. unfold past, final. by destruct (pc c) as [| |j k []| | | |]. Qed.

(** ** The local parts of a call *)

(** What the local parts keep. *)
Definition kept log i c (r : outcome (Consumer T)) (P : Consumer T -> Prop) : Prop :=
  exists c', r = OK c' /\ local_ok log i c' /\ c_lanes c' = c_lanes c /\ cursor c' = cursor c /\ P c'.

Lemma local_intro log i ls cur st b o r p s l :
  batch_repr st s -> batch_repr o l -> 1 <= b -> by_consumer i log = r ++ s -> 0 <= cur ->
  pc_ok (mkConsumer ls cur st b o r p) s l -> local_ok log i (mkConsumer ls cur st b o r p).
Proof. intros. by exists s, l. Qed.

(** [start] ends the call, or begins a scan of all lanes. *)
Definition begun (j : job) c : Prop :=
  final c = false \/ exists j', pc c = Scan j' (length (c_lanes c)) false /\ j_final j' = j_final j.

Lemma lane_recv_start_ok log i c j s o :
  batch_repr (staging c) s -> batch_repr (out c) o -> 1 <= batch c ->
  by_consumer i log = received c ++ s -> 0 <= cursor c ->
  is_refill (j_call j) = true -> lends j = false ->
  kept log i c (recv_start c j) (begun j).
Proof.
  intros Hs Ho Hb Hl Hc Ha Hle. unfold recv_start. destruct s as [|v s].
  - rewrite (pop_front_nil _ Hs). cbn [mbind outcome_bind]. rewrite (clear_repr _ _ Hs).
    eexists. split; [reflexivity|]. splits; [|right; by eexists].
    eapply local_intro; [apply batch_repr_new|done..|].
    unfold pc_ok, first_scan, job_ok. simpl. rewrite Ha, Hle. splits.
  - destruct (pop_front_cons _ v s Hs) as (b1 & -> & Hb1 & _). eexists. split; [reflexivity|].
    splits; [|by left]. eapply local_intro; [done..| |done|done]. by rewrite Hl, <- app_assoc.
Qed.

Lemma lane_batch_start_ok log i c j s o :
  batch_repr (staging c) s -> batch_repr (out c) o -> 1 <= batch c ->
  by_consumer i log = received c ++ s -> 0 <= cursor c -> is_refill (j_call j) = true ->
  kept log i c (batch_start c j) (begun j).
Proof.
  intros Hs Ho Hb Hl Hc Ha. unfold batch_start. rewrite (clear_repr _ _ Ho). cbn [mbind outcome_bind].
  rewrite (batch_is_empty_repr _ _ Hs). case_bool_decide as E.
  - subst s. rewrite (clear_repr Batch_new []) by apply batch_repr_new.
    eexists. split; [reflexivity|]. splits; [|right; by eexists].
    eapply local_intro; [apply batch_repr_new|done..|].
    unfold pc_ok, first_scan, job_ok. simpl. rewrite Ha. splits.
  - rewrite (as_slice_repr _ _ Hs). eexists. split; [reflexivity|]. splits; [|by left].
    eapply local_intro; [apply batch_repr_new|done|done| |done|done]. by rewrite app_nil_r.
Qed.

(** A drain that returns: the call goes on, or a final [for_each] ends. *)
Lemma lane_drain_returns_ok j total :
  is_refill (j_call j) = false ->
  (drain_returns j total = Idle true /\ j_final j = true /\ total <= 0) \/
  drain_returns j total = Idle false \/ (exists j', drain_returns j total = Start j' /\ j_final j' = false) \/
  (exists j', drain_returns j total = LoadLive j' /\ j_final j' = false).
Proof.
  intros Ha. unfold drain_returns, nothing. destruct (j_call j) eqn:Ec; try done; [by right; left|].
  destruct (Z.ltb_spec 0 total); [right; right; left; by eexists|].
  destruct (j_final j) eqn:E; [left; splits|]. right; right; right. by exists j.
Qed.

Lemma lane_drain_start_ok log i c j s o :
  batch_repr (staging c) s -> batch_repr (out c) o -> 1 <= batch c ->
  by_consumer i log = received c ++ s -> 0 <= cursor c -> is_refill (j_call j) = false ->
  kept log i c (drain_start boom c j) (begun j).
Proof.
  intros Hs Ho Hb Hl Hc Ha. unfold drain_start. rewrite (batch_len_repr _ _ Hs), Nat2Z.id.
  destruct (flush_ok boom (S (length s)) (drain_max (j_call j)) 0 (staging c) s (received c))
    as (n & fl & b' & -> & Hb' & Hfl); [done|lia|lia|]. cbn [mbind outcome_bind].
  assert (by_consumer i log = (received c ++ take n s) ++ drop n s) as Hl'
    by (by rewrite <- app_assoc, take_drop).
  eexists. split; [reflexivity|]. unfold begun, final. destruct fl as [d|].
  2:{ splits; [by eapply local_intro|by left]. }
  destruct Hfl as [Hd Hor]. destruct (Z.leb_spec (drain_max (j_call j)) d) as [Hm|Hm].
  - destruct (lane_drain_returns_ok j d Ha) as [(E & _ & Hz)|[E|[(j' & E & Ej)|(j' & E & Ej)]]]; rewrite E.
    + exfalso. unfold drain_returns in E. destruct (j_call j); try done. simpl in Hm. lia.
    + splits; [by eapply local_intro|by left].
    + splits; [by eapply local_intro|by left].
    + splits; [by eapply local_intro|by left].
  - destruct Hor as [Hor|[Hlt Hnil]]; [lia|]. splits; [|right; by eexists].
    eapply local_intro; [done..|]. unfold pc_ok, first_scan, job_ok, lends. simpl. rewrite Hnil. splits.
    by destruct (j_call j).
Qed.

Lemma lane_start_ok log i c j :
  local_ok log i c -> pc c = Start j -> kept log i c (start boom c j) (begun j).
Proof.
  intros (s & o & Hs & Ho & Hb & Hl & Hc & _) Hpc. unfold start. destruct (j_call j) eqn:E.
  1,2: eapply lane_recv_start_ok; try done; unfold lends; by rewrite E.
  1,2: eapply lane_batch_start_ok; try done; by rewrite E.
  all: eapply lane_drain_start_ok; try done; by rewrite E.
Qed.

(** [finish] ends the call; it tells the end of the channel only after a final
    pass that was given nothing. *)
Definition closes (j : job) (given : Prop) c : Prop :=
  final c = true -> pc c = Idle true /\ j_final j = true /\ ~ given.

Lemma lane_nothing_ok j :
  (nothing j = Idle true /\ j_final j = true) \/ nothing j = Idle false \/
  (nothing j = LoadLive j /\ j_final j = false).
Proof. unfold nothing. destruct (j_call j), (j_final j); auto. Qed.

Lemma lane_recv_finish_ok log i c j s o :
  batch_repr (staging c) s -> batch_repr (out c) o -> 1 <= batch c ->
  by_consumer i log = received c ++ s -> 0 <= cursor c ->
  kept log i c (recv_finish c j) (closes j (s <> [])).
Proof.
  intros Hs Ho Hb Hl Hc. unfold recv_finish. destruct s as [|v s].
  - rewrite (pop_front_nil _ Hs). eexists. split; [reflexivity|]. unfold closes, final. simpl.
    destruct (lane_nothing_ok j) as [[-> Hj]|[-> |[-> Hj]]]; splits; try (by eapply local_intro); try congruence;
      intros _; splits; intros Hn; by apply Hn.
  - destruct (pop_front_cons _ v s Hs) as (b1 & -> & Hb1 & _). eexists. split; [reflexivity|].
    splits. eapply local_intro; [done..| |done|done]. by rewrite Hl, <- app_assoc.
Qed.

Lemma lane_batch_finish_ok log i c j s :
  batch_repr (staging c) s -> batch_repr (out c) [] -> 1 <= batch c ->
  by_consumer i log = received c ++ s -> 0 <= cursor c ->
  kept log i c (batch_finish c j) (closes j (s <> [])).
Proof.
  intros Hs Ho Hb Hl Hc. unfold batch_finish. rewrite (as_slice_repr _ _ Hs), (batch_len_repr _ _ Hs).
  eexists. split; [reflexivity|]. unfold closes, final. simpl.
  assert (by_consumer i log = (received c ++ s) ++ []) as Hl' by (by rewrite app_nil_r).
  destruct (Z.eqb_spec (Z.of_nat (length s)) 0) as [E|E].
  - destruct s; [|simpl in E; lia].
    destruct (lane_nothing_ok j) as [[-> Hj]|[-> |[-> Hj]]]; splits; try (by eapply local_intro); try congruence;
      intros _; splits; intros Hn; by apply Hn.
  - splits. by eapply local_intro.
Qed.

Lemma lane_finish_ok log i c j got s o :
  batch_repr (staging c) s -> batch_repr (out c) o -> 1 <= batch c ->
  by_consumer i log = received c ++ s -> 0 <= cursor c ->
  (lends j = true -> o = []) -> job_ok j -> (is_refill (j_call j) = false -> s = []) ->
  kept log i c (finish c j got) (closes j (if is_refill (j_call j) then s <> [] else 0 < got)).
Proof.
  intros Hs Ho Hb Hl Hc Hle Hj Hnil. unfold finish, lends, job_ok in *. destruct (j_call j) eqn:E.
  1,2: by eapply lane_recv_finish_ok.
  1,2: rewrite (Hle eq_refl) in Ho; by eapply lane_batch_finish_ok.
  all: eexists; (split; [reflexivity|]); specialize (Hj eq_refl); specialize (Hnil eq_refl); subst s;
    unfold closes, final; simpl;
    destruct (lane_drain_returns_ok j (j_done j + got)) as [(Er & Hf & Hz)|[Er|[(j' & Er & Ej)|(j' & Er & Ej)]]];
    try (by rewrite E); rewrite Er; splits; try (by eapply local_intro); try congruence; intros _; splits.
Qed.

(** ** Ownership of the lanes *)

Lemma owned_lane w qs i c id :
  inv w qs -> consumers w !! i = Some c -> id ∈ c_lanes c -> (id < length (lanes w))%nat.
Proof.
  intros Hi Hc Hid. cut (id ∈ seq 0 (length (lanes w))); [intros ?%elem_of_seq; lia|].
  rewrite <- (i_own _ _ Hi). apply elem_of_app. left. apply list_elem_of_join.
  exists (c_lanes c). split; [done|]. apply list_elem_of_fmap. exists c. split; [done|].
  by eapply list_elem_of_lookup_2.
Qed.

(** A consumer that keeps its lanes leaves the ownership as it is. *)
Lemma own_same (cs : list (Consumer T)) i c c' :
  cs !! i = Some c -> c_lanes c' = c_lanes c -> c_lanes <$> <[i := c']> cs = c_lanes <$> cs.
Proof.
  intros Hc E. rewrite list_fmap_insert, E. apply list_insert_id. by rewrite list_lookup_fmap, Hc.
Qed.

(** Replacing one lane's ids in the ownership. *)
Lemma own_change (cs : list (Consumer T)) i c c' (a a' : list nat) :
  cs !! i = Some c -> c_lanes c' ++ a' ≡ₚ c_lanes c ++ a ->
  mjoin (c_lanes <$> <[i := c']> cs) ++ a' ≡ₚ mjoin (c_lanes <$> cs) ++ a.
Proof.
  intros Hc Hp. rewrite list_fmap_insert.
  destruct (join_insert_perm (c_lanes <$> cs) i (c_lanes c) (c_lanes c')) as (rest & H1 & H2);
    [by rewrite list_lookup_fmap, Hc|].
  rewrite H1, H2, (Permutation_app_comm (c_lanes c')), (Permutation_app_comm (c_lanes c)), <- !app_assoc.
  by rewrite Hp.
Qed.

(** ** Preservation: consumers *)

(** What a changed consumer has to bring: its own state, and that a final pass
    only leaves empty lanes behind. *)
Definition cons_step_spec w (qs : list (list T)) c' : Prop :=
  (final c' = true -> live_producers w = 0) /\
  (forall id, final c' = true -> id ∈ c_lanes c' -> looked c' id -> qs !! id = Some []) .

(** Consumer [i] changes, with at most the abandoned lanes and the live count. *)
Lemma lane_inv_consumer w qs i c c' lc ab lt :
  inv w qs -> consumers w !! i = Some c -> local_ok (taken w) i c' ->
  c_lanes c' ++ ab ≡ₚ c_lanes c ++ abandoned w -> cons_step_spec w qs c' ->
  (lt = false -> late w = false) ->
  (forall j d id, <[i := c']> (consumers w) !! j = Some d -> past d = true -> id ∈ ab -> lt = false ->
    qs !! id = Some []) ->
  inv (mkWorld (lanes w) (live_producers w) lc ab (producers w) (<[i := c']> (consumers w)) (taken w) lt) qs.
Proof.
  intros Hi Hc Hok Hown [Hf Hlook] Hlt Hleft.
  constructor; simpl; rewrite ?length_insert; try apply Hi.
  - intros j d Hj. updated Hj; [done|]. by apply (i_cons _ _ Hi).
  - rewrite (own_change _ i c _ (abandoned w)) by done. apply Hi.
  - intros j d Hj Hd. updated Hj; [by apply Hf|]. by eapply (i_final _ _ Hi).
  - intros j d id Hj Hd. updated Hj; [by apply Hlook|]. by eapply (i_looked _ _ Hi).
  - done.
Qed.

(** Consumer [i] changes and keeps its lanes. *)
Lemma lane_inv_local w qs i c c' :
  inv w qs -> consumers w !! i = Some c -> local_ok (taken w) i c' -> c_lanes c' = c_lanes c ->
  cons_step_spec w qs c' ->
  (past c' = true -> past c = true \/ (forall id, id ∈ abandoned w -> late w = false -> qs !! id = Some [])) ->
  inv (set_consumer w i c') qs.
Proof.
  intros Hi Hc Hok Hl Hs Hp. apply (lane_inv_consumer w qs i c); try done; [by rewrite Hl|].
  intros j d id Hj Hd Hin Hlt. updated Hj; [|by eapply (i_left _ _ Hi)].
  destruct (Hp Hd) as [Hpc|Hall]; [by eapply (i_left _ _ Hi)|by apply Hall].
Qed.

(** Consumer [i] drains [n] values from one of its lanes. *)
Lemma inv_drained w qs i c c' id l q n ch :
  inv w qs -> consumers w !! i = Some c -> lanes w !! id = Some l -> qs !! id = Some q ->
  (exists pg, bk_repr ch (drop n q) pg false /\
    (pg = true -> forall i p, producers w !! i = Some p -> id ∉ p_lanes p)) ->
  local_ok (taken w ++ ((fun v => (id, i, v)) <$> take n q)) i c' -> c_lanes c' = c_lanes c ->
  cons_step_spec w (<[id := drop n q]> qs) c' ->
  (past c' = true -> past c = true) ->
  inv (drained w i c' id ch (accepted l) (take n q)) (<[id := drop n q]> qs).
Proof.
  intros Hi Hc Hl Hq Hr Hok Hown [Hf Hlook] Hp.
  pose proof (lookup_lt_Some _ _ _ Hc) as Hlt. pose proof (lookup_lt_Some _ _ _ Hl) as Hltl.
  assert (forall y, qs !! y = Some [] -> <[id := drop n q]> qs !! y = Some []) as Hempty.
  { intros y Hy. destruct (decide (id = y)) as [<-|Hne]; [|by rewrite list_lookup_insert_ne].
    rewrite Hq in Hy. injection Hy as ->. rewrite drop_nil. apply list_lookup_insert_eq. by eapply lookup_lt_Some. }
  constructor; simpl; rewrite ?length_insert; try apply Hi.
  - intros y l' q' Hy Hy'. rewrite from_app, from_tag. destruct (decide (id = y)) as [<-|Hne].
    + rewrite list_lookup_insert_eq in Hy by done. rewrite list_lookup_insert_eq in Hy' by (by eapply lookup_lt_Some).
      simplify_eq. simpl. destruct (i_lane _ _ Hi id l q Hl Hq) as (-> & _).
      split; [by rewrite <- app_assoc, take_drop|done].
    + rewrite list_lookup_insert_ne in Hy by done. rewrite list_lookup_insert_ne in Hy' by done.
      rewrite app_nil_r. by apply (i_lane _ _ Hi).
  - intros x y v [Hin|Hin]%elem_of_app; [by apply (i_log _ _ Hi x y v)|].
    apply list_elem_of_fmap in Hin as (u & [= -> -> ->] & _). done.
  - intros j d Hj. updated Hj; [done|]. destruct (i_cons _ _ Hi j d Hj) as (s & o & Hd).
    exists s, o. by rewrite by_consumer_app, by_consumer_tag, decide_False, app_nil_r.
  - rewrite (own_same _ i c) by done. apply Hi.
  - intros j d Hj Hd. updated Hj; [by apply Hf|]. by eapply (i_final _ _ Hi).
  - intros j d y Hj Hd Hin Hlo. updated Hj; [by apply Hlook|]. by eapply Hempty, (i_looked _ _ Hi).
  - intros j d y Hj Hd Hin Hla. apply Hempty. updated Hj; by eapply (i_left _ _ Hi); eauto.
Qed.

(** A scan of all lanes reaches every one of them. *)
Lemma upcoming_all c id :
  0 <= cursor c -> id ∈ c_lanes c -> id ∈ upcoming c (length (c_lanes c)).
Proof.
  intros Hc Hid. apply list_elem_of_lookup in Hid as [x Hx].
  apply list_elem_of_omap. exists (Z.of_nat x). split; [|by rewrite Nat2Z.id].
  pose proof (lookup_lt_Some _ _ _ Hx).
  pose proof (visits_cover (cursor c) (Z.of_nat (length (c_lanes c))) (Z.of_nat x) Hc ltac:(lia)) as Hv.
  by rewrite Nat2Z.id in Hv.
Qed.

(** One selection of a scan. *)
Lemma scan_select w qs i c k :
  inv w qs -> consumers w !! i = Some c -> 0 <= cursor c -> (S k <= length (c_lanes c))%nat ->
  exists x cur id l q, next (cursor c) (Z.of_nat (length (c_lanes c))) = (x, cur) /\ 0 <= cur /\
    index_lane w (c_lanes c) x = OK (id, l) /\ id ∈ c_lanes c /\
    lanes w !! id = Some l /\ qs !! id = Some q /\
    forall c', c_lanes c' = c_lanes c -> cursor c' = cur -> upcoming c (S k) = id :: upcoming c' k.
Proof.
  intros Hi Hc Hcu Hk.
  destruct (next (cursor c) (Z.of_nat (length (c_lanes c)))) as [x cur] eqn:Hn.
  assert (0 < Z.of_nat (length (c_lanes c))) as Hpos by lia.
  destruct (next_bounds _ _ _ _ Hcu Hpos Hn) as (Hx & Hcur & _).
  destruct (lookup_lt_is_Some_2 (c_lanes c) (Z.to_nat x) ltac:(lia)) as [id Hid].
  assert (id ∈ c_lanes c) as Hin by (by eapply list_elem_of_lookup_2).
  pose proof (owned_lane w qs i c id Hi Hc Hin) as Hlt.
  destruct (lookup_lt_is_Some_2 (lanes w) id Hlt) as [l Hl].
  destruct (lookup_lt_is_Some_2 qs id ltac:(by rewrite (i_len _ _ Hi))) as [q Hq].
  exists x, cur, id, l, q. splits.
  - unfold index_lane. by rewrite Hid, Hl.
  - intros c' Hl' Hcu'. unfold upcoming. rewrite Hl', Hcu'. cbn [visits]. rewrite Hn.
    destruct (visits k cur _) as [vs cu]. csimpl. by rewrite Hid.
Qed.

(** The invariant holds after every outcome of a step. *)
Definition steps_ok (o : option (outcome (World T C))) : Prop :=
  forall r, o = Some r -> exists w' qs', r = OK w' /\ inv w' qs'.

Lemma spec_open w qs c' : final c' = false -> cons_step_spec w qs c'.
Proof. intros Hf. split; [|intros id]; congruence. Qed.

Lemma lane_step_start w qs i c j :
  inv w qs -> consumers w !! i = Some c -> pc c = Start j -> steps_ok (cons_continue boom w i c).
Proof.
  intros Hi Hc Hpc r. unfold cons_continue. rewrite Hpc. intros [= <-].
  destruct (lane_start_ok _ i c j (i_cons _ _ Hi i c Hc) Hpc) as (c' & -> & Hok & Hl & Hcu & Hb).
  eexists _, qs. split; [reflexivity|].
  destruct (i_cons _ _ Hi i c Hc) as (_ & _ & _ & _ & _ & _ & Hcur & _).
  destruct Hb as [Hf|(j' & Hp & Hj)].
  - apply (lane_inv_local w qs i c); try done; [by apply spec_open|].
    intros Hpa%past_final. congruence.
  - apply (lane_inv_local w qs i c); try done; [split|unfold past; by rewrite Hp].
    + unfold final. rewrite Hp, Hj. intros E. eapply (i_final _ _ Hi i c Hc). unfold final. by rewrite Hpc.
    + intros id _ Hid. unfold looked. rewrite Hp. intros Hn. destruct Hn. apply upcoming_all; [congruence|done].
Qed.

Lemma step_scan_end w qs i c j second :
  inv w qs -> consumers w !! i = Some c -> pc c = Scan j 0 second -> steps_ok (cons_continue boom w i c).
Proof.
  intros Hi Hc Hpc r. unfold cons_continue. rewrite Hpc.
  destruct (i_cons _ _ Hi i c Hc) as (s & o & Hs & Ho & Hb & Hl & Hcu & Hp). unfold pc_ok in Hp.
  rewrite Hpc in Hp. destruct Hp as (-> & Hj & Hle & _).
  assert (forall id, j_final j = true -> id ∈ c_lanes c -> qs !! id = Some []) as Hall.
  { intros id Hf Hid. eapply (i_looked _ _ Hi i c); try done; unfold final, looked; rewrite Hpc; [done|].
    apply not_elem_of_nil. }
  destruct second; intros [= <-].
  - destruct (lane_finish_ok (taken w) i c j 0 [] o) as (c' & -> & Hok & Hl' & Hcu' & Hcl); try done.
    eexists _, qs. split; [reflexivity|]. apply (lane_inv_local w qs i c); try done; [split|].
    + intros Hf. destruct (Hcl Hf) as (_ & Hjf & _). eapply (i_final _ _ Hi i c Hc). unfold final. by rewrite Hpc.
    + intros id Hf Hid _. destruct (Hcl Hf) as (_ & Hjf & _). rewrite Hl' in Hid. by apply Hall.
    + intros Hpa. left. destruct (Hcl (past_final _ Hpa)) as (_ & Hjf & _). unfold past. by rewrite Hpc.
  - eexists _, qs. split; [reflexivity|]. apply (lane_inv_local w qs i c); try done; [|split].
    + exists [], o. splits.
    + unfold final. simpl. intros E. eapply (i_final _ _ Hi i c Hc). unfold final. by rewrite Hpc.
    + intros id Hf Hid _. by apply Hall.
Qed.

(** A selected lane that gave nothing: the scan goes on. *)
Lemma scan_on_spec w qs i c c1 j k second id q n :
  inv w qs -> consumers w !! i = Some c -> pc c = Scan j (S k) second -> pc c1 = Scan j k second ->
  c_lanes c1 = c_lanes c -> upcoming c (S k) = id :: upcoming c1 k -> qs !! id = Some q -> q = [] ->
  cons_step_spec w (<[id := drop n q]> qs) c1.
Proof.
  intros Hi Hc Hpc Hpc1 Hl Hup Hq ->. rewrite drop_nil, (list_insert_id qs id []) by done. split.
  - unfold final. rewrite Hpc1. intros E. eapply (i_final _ _ Hi i c Hc). unfold final. by rewrite Hpc.
  - intros y Hf Hy Hlo. destruct (decide (y = id)) as [->|Hne]; [done|].
    eapply (i_looked _ _ Hi i c); try done.
    + unfold final in *. by rewrite Hpc1 in Hf; rewrite Hpc.
    + by rewrite <- Hl.
    + unfold looked in *. rewrite Hpc1 in Hlo. rewrite Hpc, Hup. by intros [?|?]%elem_of_cons.
Qed.

Lemma step_scan_refill w qs i c j k second :
  inv w qs -> consumers w !! i = Some c -> pc c = Scan j (S k) second -> is_refill (j_call j) = true ->
  steps_ok (cons_continue boom w i c).
Proof.
  intros Hi Hc Hpc Hre r. unfold cons_continue. rewrite Hpc, Hre. intros [= <-].
  destruct (i_cons _ _ Hi i c Hc) as (s & o & Hs & Ho & Hb & Hl & Hcu & Hp). unfold pc_ok in Hp.
  rewrite Hpc in Hp. destruct Hp as (-> & Hj & Hle & Hk). unfold scan_refill.
  destruct (scan_select w qs i c k Hi Hc Hcu Hk) as (x & cur & id & l & q & -> & Hcur & Hix & Hin & Hla & Hq & Hup).
  rewrite Hix. cbn [mbind outcome_bind].
  destruct (i_lane _ _ Hi id l q Hla Hq) as (_ & pg & Hr & Hpg).
  destruct (bk_drain_into_law (transport l) q pg (batch c) (staging c) [] Hr Hs ltac:(lia))
    as (n & ch & st & -> & Hn & _ & Hpos & Hr' & Hst). cbn [mbind outcome_bind].
  rewrite (as_slice_repr _ _ Hst). cbn [mbind outcome_bind]. simpl in Hst.
  rewrite (batch_is_empty_repr _ _ Hst).
  set (c1 := mkConsumer (c_lanes c) cur st (batch c) (out c) (received c) (Scan j k second)).
  assert (by_consumer i (taken w ++ ((fun v => (id, i, v)) <$> take n q)) = received c ++ take n q) as Hl'
    by (by rewrite by_consumer_app, by_consumer_tag, decide_True, Hl, app_nil_r).
  assert (exists pg0, bk_repr ch (drop n q) pg0 false /\
    (pg0 = true -> forall i p, producers w !! i = Some p -> id ∉ p_lanes p)) as Hch by (by exists pg).
  case_bool_decide as Ev; cbn [mbind outcome_bind].
  - eexists _, _. split; [reflexivity|]. apply (inv_drained w qs i c c1 id l q n ch); try done.
    + exists (take n q), o. unfold pc_ok. simpl. splits.
    + eapply scan_on_spec; [done..|by apply Hup|done|]. destruct q; [done|].
      specialize (Hpos ltac:(done) ltac:(lia)). destruct n; [lia|done].
    + unfold past. by rewrite Hpc.
  - destruct (lane_finish_ok (taken w ++ ((fun v => (id, i, v)) <$> take n q)) i c1 j 0 (take n q) o)
      as (c' & -> & Hok & Hl2 & Hcu2 & Hcl); try done; [by rewrite Hre|].
    rewrite Hre in Hcl. assert (final c' = false) as Hf.
    { destruct (final c') eqn:E; [|done]. by destruct (Hcl E) as (_ & _ & []). }
    eexists _, _. split; [reflexivity|]. apply (inv_drained w qs i c c' id l q n ch); try done.
    + by apply spec_open.
    + intros Hpa%past_final. congruence.
Qed.

Lemma step_scan_in_place w qs i c j k second :
  inv w qs -> consumers w !! i = Some c -> pc c = Scan j (S k) second -> is_refill (j_call j) = false ->
  steps_ok (cons_continue boom w i c).
Proof.
  intros Hi Hc Hpc Hre r. unfold cons_continue. rewrite Hpc, Hre. intros [= <-].
  destruct (i_cons _ _ Hi i c Hc) as (s & o & Hs & Ho & Hb & Hl & Hcu & Hp). unfold pc_ok in Hp.
  rewrite Hpc in Hp. destruct Hp as (-> & Hj & Hle & Hk). specialize (Hj Hre) as Hmax. unfold scan_in_place.
  destruct (scan_select w qs i c k Hi Hc Hcu Hk) as (x & cur & id & l & q & -> & Hcur & Hix & Hin & Hla & Hq & Hup).
  rewrite Hix. cbn [mbind outcome_bind].
  destruct (i_lane _ _ Hi id l q Hla Hq) as (_ & pg & Hr & Hpg).
  destruct (bk_drain_in_place_law _ (transport l) q pg (drain_max (j_call j) - j_done j)
    (user_callback boom) (received c) Hr ltac:(lia)) as (n & ch & log & n' & pn & Hn & _ & Hpos & Hfeed & -> & Hr').
  cbn [mbind outcome_bind].
  destruct (feed_callback boom (received c) (take n q)) as (m & p2 & Hfeed2 & Hm & Hpf).
  rewrite Hfeed in Hfeed2. injection Hfeed2 as -> -> ->.
  rewrite take_take, Nat.min_l, drop_app_length by (rewrite length_take in Hm; lia).
  set (c1 := mkConsumer (c_lanes c) cur (staging c) (batch c) (out c) (received c ++ take m q) (Scan j k second)).
  assert (by_consumer i (taken w ++ ((fun v => (id, i, v)) <$> take m q)) = (received c ++ take m q) ++ []) as Hl'
    by (by rewrite by_consumer_app, by_consumer_tag, decide_True, Hl, !app_nil_r).
  assert (exists pg0, bk_repr ch (drop m q) pg0 false /\
    (pg0 = true -> forall i p, producers w !! i = Some p -> id ∉ p_lanes p)) as Hch by (by exists pg).
  destruct p2; [|destruct (Z.eqb_spec (Z.of_nat n) 0) as [Ez|Ez]]; cbn [mbind outcome_bind].
  - eexists _, _. split; [reflexivity|]. apply (inv_drained w qs i c _ id l q m ch); try done.
    exists [], o. unfold pc_ok. simpl. splits.
  - eexists _, _. split; [reflexivity|]. apply (inv_drained w qs i c c1 id l q m ch); try done.
    + exists [], o. unfold pc_ok. simpl. splits.
    + eapply scan_on_spec; [done..|by apply Hup|done|]. destruct q; [done|].
      specialize (Hpos ltac:(done) ltac:(lia)). lia.
    + unfold past. by rewrite Hpc.
  - destruct (lane_finish_ok (taken w ++ ((fun v => (id, i, v)) <$> take m q)) i c1 j (Z.of_nat n) [] o)
      as (c' & -> & Hok & Hl2 & Hcu2 & Hcl); try done.
    rewrite Hre in Hcl. assert (final c' = false) as Hf.
    { destruct (final c') eqn:E; [|done]. destruct (Hcl E) as (_ & _ & []). lia. }
    eexists _, _. split; [reflexivity|]. apply (inv_drained w qs i c c' id l q m ch); try done.
    + by apply spec_open.
    + intros Hpa%past_final. congruence.
Qed.

Lemma step_adopt w qs i c j :
  inv w qs -> consumers w !! i = Some c -> pc c = Adopt j -> steps_ok (cons_continue boom w i c).
Proof.
  intros Hi Hc Hpc r. unfold cons_continue. rewrite Hpc. intros [= <-]. unfold adopt.
  destruct (i_cons _ _ Hi i c Hc) as (s & o & Hs & Ho & Hb & Hl & Hcu & Hp). unfold pc_ok in Hp.
  rewrite Hpc in Hp. destruct Hp as (-> & Hj & Hle).
  assert (j_final j = true -> live_producers w = 0) as Hlive.
  { intros E. eapply (i_final _ _ Hi i c Hc). unfold final. by rewrite Hpc. }
  destruct (abandoned w) as [|a ls] eqn:Ea.
  - destruct (lane_finish_ok (taken w) i c j 0 [] o) as (c' & -> & Hok & Hl' & Hcu' & Hcl); try done.
    eexists _, qs. split; [reflexivity|]. apply (lane_inv_local w qs i c); try done; [split|].
    + intros Hf. destruct (Hcl Hf) as (_ & Hjf & _). auto.
    + intros id Hf Hid _. destruct (Hcl Hf) as (_ & Hjf & _). rewrite Hl' in Hid.
      eapply (i_looked _ _ Hi i c); try done; unfold final, looked; by rewrite Hpc.
    + intros _. right. intros id Hin. rewrite Ea in Hin. by apply not_elem_of_nil in Hin.
  - eexists _, qs. split; [reflexivity|]. apply (lane_inv_consumer w qs i c); try done.
    + exists [], o. unfold pc_ok. simpl. splits.
    + simpl. rewrite app_nil_r. by rewrite Ea.
    + split; [done|]. intros id _ Hid. unfold looked. simpl. intros Hn. destruct Hn.
      by apply (upcoming_all (mkConsumer (c_lanes c ++ a :: ls) (cursor c) (staging c) (batch c) (out c)
        (received c) (Scan j (length (c_lanes c ++ a :: ls)) true))).
    + by intros j' d id _ _ Hin%not_elem_of_nil.
Qed.

Lemma drop_consumer_ok w qs i c e :
  inv w qs -> consumers w !! i = Some c -> pc c = Idle e -> inv (drop_consumer w i c e) qs.
Proof.
  intros Hi Hc Hpc. destruct (i_cons _ _ Hi i c Hc) as (s & o & Hs & Ho & Hb & Hl & Hcu & Hp).
  unfold pc_ok in Hp. rewrite Hpc in Hp.
  assert (final c = e) as Hfin by (unfold final; by rewrite Hpc).
  apply (lane_inv_consumer w qs i c); try done.
  - exists s, o. unfold pc_ok. simpl. splits.
  - simpl. apply Permutation_app_comm.
  - split; [|intros id _ Hid; by apply not_elem_of_nil in Hid].
    unfold final. simpl. intros ->. by apply (i_final _ _ Hi i c).
  - intros [? _]%orb_false_iff. done.
  - intros j d id Hj Hd Hin [Hlt Hex]%orb_false_iff.
    assert (e = true -> past c = true) as Hpe by (unfold past; by rewrite Hpc).
    updated Hj; simpl in Hd.
    + (* the dropped consumer itself *)
      unfold past in Hd. simpl in Hd. apply elem_of_app in Hin as [Hin|Hin].
      * eapply (i_left _ _ Hi _ c); try done. by apply Hpe.
      * eapply (i_looked _ _ Hi _ c); try done. unfold looked. by rewrite Hpc.
    + apply elem_of_app in Hin as [Hin|Hin]; [by eapply (i_left _ _ Hi j d)|].
      destruct (final c) eqn:Ee.
      * eapply (i_looked _ _ Hi i c); try done. unfold looked. by rewrite Hpc.
      * exfalso. simpl in Hex. apply not_true_iff_false in Hex. apply Hex, existsb_exists.
        exists d. split; [|done]. apply list_elem_of_In. by eapply list_elem_of_lookup_2.
Qed.

Lemma lane_cons_continue_ok w qs i c :
  inv w qs -> consumers w !! i = Some c -> steps_ok (cons_continue boom w i c).
Proof.
  intros Hi Hc. destruct (i_cons _ _ Hi i c Hc) as (s & o & Hs & Ho & Hb & Hl & Hcu & Hp).
  destruct (pc c) as [|j|j [|k] second| |j|e|] eqn:Hpc.
  1,8: unfold cons_continue; by rewrite Hpc.
  - by eapply lane_step_start.
  - by eapply step_scan_end.
  - destruct (is_refill (j_call j)) eqn:E; [by eapply step_scan_refill|by eapply step_scan_in_place].
  - by eapply step_adopt.
  - intros r. unfold cons_continue. rewrite Hpc. intros [= <-]. eexists _, qs. split; [reflexivity|].
    apply (lane_inv_local w qs i c); try done; [by exists s, o|split].
    + unfold final. simpl. lia.
    + intros id _ _ Hlo. by destruct Hlo.
  - intros r. unfold cons_continue. rewrite Hpc. intros [= <-]. eexists _, qs. split; [reflexivity|].
    unfold pc_ok in Hp. rewrite Hpc in Hp. destruct Hp as [Hp1 Hp2].
    apply (lane_inv_consumer w qs i c); try done.
    + exists s, o. unfold pc_ok. simpl. splits.
    + split; [unfold final; simpl; intros ->; eapply (i_final _ _ Hi i c Hc); unfold final; by rewrite Hpc|].
      intros id _ Hid. simpl in Hid. rewrite Hp2 in Hid. by apply not_elem_of_nil in Hid.
    + intros j d id Hj Hd Hin Hlt. updated Hj; [|by eapply (i_left _ _ Hi j d)].
      eapply (i_left _ _ Hi _ c); try done. unfold past in *. by rewrite Hpc.
Qed.

Lemma lane_cons_step_ok w qs i op : inv w qs -> steps_ok (cons_step boom w i op).
Proof.
  intros Hi r. unfold cons_step. destruct (consumers w !! i) as [c|] eqn:Hc; [|done].
  destruct (i_cons _ _ Hi i c Hc) as (s & o & Hs & Ho & Hb & Hl & Hcu & Hp).
  destruct op as [a|b| |].
  - unfold is_idle. destruct (pc c) as [e| | | | | |] eqn:Hpc; try done. intros [= <-].
    eexists _, qs. split; [reflexivity|]. apply (lane_inv_local w qs i c); try done. by exists s, o.
  - unfold is_idle. destruct (pc c) as [e| | | | | |] eqn:Hpc; try done. intros [= <-].
    eexists _, qs. split; [reflexivity|]. unfold pc_ok in Hp. rewrite Hpc in Hp.
    assert (final c = e /\ past c = e) as [Hf Hpa] by (unfold final, past; by rewrite Hpc).
    apply (lane_inv_local w qs i c); try done; [|split|by left; rewrite Hpa].
    + exists s, o. unfold pc_ok. simpl. splits.
    + unfold final. simpl. intros ->. by apply (i_final _ _ Hi i c).
    + unfold final. simpl. intros id -> Hid _. eapply (i_looked _ _ Hi i c); try done. unfold looked. by rewrite Hpc.
  - destruct (pc c) as [e| | | | | |] eqn:Hpc; try done. intros [= <-]. eexists _, qs. split; [reflexivity|].
    by apply drop_consumer_ok.
  - by apply (lane_cons_continue_ok w qs i c).
Qed.

(** ** Preservation: producers *)

Lemma lane_all_open w qs i p j c :
  inv w qs -> producers w !! i = Some p -> prod_alive p = true -> consumers w !! j = Some c -> final c = false.
Proof.
  intros Hi Hp Ha Hc. destruct (final c) eqn:E; [|done]. pose proof (i_final _ _ Hi j c Hc E) as Hl.
  rewrite (i_live _ _ Hi) in Hl.
  pose proof (tally_zero prod_alive (producers w) i p ltac:(lia) Hp). congruence.
Qed.

(** Producer [i] changes, with one of its lanes when it pushed. *)
Lemma inv_pushed w qs i p p' id l q ch vs :
  inv w qs -> producers w !! i = Some p -> prod_alive p = true -> id ∈ p_lanes p ->
  lanes w !! id = Some l -> qs !! id = Some q -> bk_repr ch (q ++ vs) false false ->
  p_lanes p' = p_lanes p -> prod_ok (length (lanes w)) p' -> prod_alive p' = true ->
  inv (pushed w i p' id ch (accepted l ++ vs)) (<[id := q ++ vs]> qs).
Proof.
  intros Hi Hp Ha Hin Hl Hq Hr Hlan Hok Ha'.
  pose proof (lookup_lt_Some _ _ _ Hl) as Hltl. pose proof (lookup_lt_Some _ _ _ Hq) as Hltq.
  assert (forall x y z, <[i := p']> (producers w) !! x = Some y -> z ∈ p_lanes y ->
    exists y', producers w !! x = Some y' /\ z ∈ p_lanes y') as Hold.
  { intros x y z Hx Hz. updated Hx; [|by exists y]. exists p. split; [done|]. by rewrite <- Hlan. }
  constructor; simpl; rewrite ?length_insert; try apply Hi.
  - intros y l' q' Hy Hy'. destruct (decide (id = y)) as [<-|Hne].
    + rewrite list_lookup_insert_eq in Hy by done. rewrite list_lookup_insert_eq in Hy' by done. simplify_eq. simpl.
      destruct (i_lane _ _ Hi id l q Hl Hq) as (-> & _). rewrite <- app_assoc. split; [done|]. by exists false.
    + rewrite list_lookup_insert_ne in Hy by done. rewrite list_lookup_insert_ne in Hy' by done.
      destruct (i_lane _ _ Hi y l' q' Hy Hy') as (H1 & pg & H2 & H3). split; [done|]. exists pg. split; [done|].
      intros Hpg x z Hx Hz. destruct (Hold x z y Hx Hz) as (z' & Hx' & Hz'). by apply (H3 Hpg x z').
  - intros x y Hx. updated Hx; [done|]. by eapply (i_prod _ _ Hi).
  - intros x x' y y' z Hx Hx' Hz Hz'. destruct (Hold x y z Hx Hz) as (u & ? & ?).
    destruct (Hold x' y' z Hx' Hz') as (u' & ? & ?). by apply (i_prods _ _ Hi x x' u u' z).
  - rewrite (i_live _ _ Hi). by rewrite (tally_same _ _ i p) by congruence.
  - intros j c y Hc Hf. pose proof (lane_all_open w qs i p j c Hi Hp Ha Hc). congruence.
  - intros j c y Hc Hf%past_final. pose proof (lane_all_open w qs i p j c Hi Hp Ha Hc). congruence.
Qed.

Lemma lane_inv_producer w qs i p p' :
  inv w qs -> producers w !! i = Some p -> p_lanes p' = p_lanes p ->
  prod_ok (length (lanes w)) p' -> prod_alive p' = prod_alive p -> inv (set_producer w i p') qs.
Proof.
  intros Hi Hp Hlan Hok Ha.
  assert (forall x y z, <[i := p']> (producers w) !! x = Some y -> z ∈ p_lanes y ->
    exists y', producers w !! x = Some y' /\ z ∈ p_lanes y') as Hold.
  { intros x y z Hx Hz. updated Hx; [|by exists y]. exists p. split; [done|]. by rewrite <- Hlan. }
  constructor; simpl; try apply Hi.
  - intros y l' q' Hy Hy'. destruct (i_lane _ _ Hi y l' q' Hy Hy') as (H1 & pg & H2 & H3).
    split; [done|]. exists pg. split; [done|]. intros Hpg x z Hx Hz.
    destruct (Hold x z y Hx Hz) as (z' & Hx' & Hz'). by apply (H3 Hpg x z').
  - intros x y Hx. updated Hx; [done|]. by eapply (i_prod _ _ Hi).
  - intros x x' y y' z Hx Hx' Hz Hz'. destruct (Hold x y z Hx Hz) as (u & ? & ?).
    destruct (Hold x' y' z Hx' Hz') as (u' & ? & ?). by apply (i_prods _ _ Hi x x' u u' z).
  - rewrite (i_live _ _ Hi). by rewrite (tally_same _ _ i p).
Qed.

(** The lane a producer selects accepts pushes. *)
Lemma push_select w qs i p k :
  inv w qs -> producers w !! i = Some p -> (S k <= length (p_lanes p))%nat ->
  exists x cur id l q, next (p_cursor p) (Z.of_nat (length (p_lanes p))) = (x, cur) /\ 0 <= cur /\
    index_lane w (p_lanes p) x = OK (id, l) /\ id ∈ p_lanes p /\
    lanes w !! id = Some l /\ qs !! id = Some q /\ bk_repr (transport l) q false false.
Proof.
  intros Hi Hp Hk. destruct (i_prod _ _ Hi i p Hp) as (Hcu & _ & Hlt & _).
  destruct (next (p_cursor p) (Z.of_nat (length (p_lanes p)))) as [x cur] eqn:Hn.
  assert (0 < Z.of_nat (length (p_lanes p))) as Hpos by lia.
  destruct (next_bounds _ _ _ _ Hcu Hpos Hn) as (Hx & Hcur & _).
  destruct (lookup_lt_is_Some_2 (p_lanes p) (Z.to_nat x) ltac:(lia)) as [id Hid].
  assert (id ∈ p_lanes p) as Hin by (by eapply list_elem_of_lookup_2).
  destruct (lookup_lt_is_Some_2 (lanes w) id (Hlt id Hin)) as [l Hl].
  destruct (lookup_lt_is_Some_2 qs id) as [q Hq]; [rewrite (i_len _ _ Hi); by apply Hlt|].
  exists x, cur, id, l, q. splits.
  - unfold index_lane. by rewrite Hid, Hl.
  - destruct (i_lane _ _ Hi id l q Hl Hq) as (_ & [] & Hr & Hno); [|done]. by destruct (Hno eq_refl i p Hp).
Qed.

Lemma try_lane_ok w qs i p v k block :
  inv w qs -> producers w !! i = Some p -> p_pc p = PTry v (S k) block ->
  exists w' qs', try_lane w i p v k block = OK w' /\ inv w' qs'.
Proof.
  intros Hi Hp Hpc. pose proof (i_prod _ _ Hi i p Hp) as Hok. unfold prod_ok in Hok. rewrite Hpc in Hok.
  destruct Hok as (Hcu & Hnd & Hlt & Hk).
  destruct (push_select w qs i p k Hi Hp Hk) as (x & cur & id & l & q & Hn & Hcur & Hix & Hin & Hl & Hq & Hr).
  unfold try_lane. rewrite Hn, Hix. cbn [mbind outcome_bind].
  assert (prod_alive p = true) as Ha by (unfold prod_alive; by rewrite Hpc).
  destruct (bk_try_push_law (transport l) q false v Hr) as (r & ch & -> & [[-> Hc]|[-> Hc]]); cbn [mbind outcome_bind].
  - eexists _, _. split; [reflexivity|]. eapply (inv_pushed w qs i p _ id l q ch [v]); try done.
  - eexists _, _. split; [reflexivity|].
    pose proof (inv_pushed w qs i p (mkProducer (p_lanes p) cur (PTry v k block)) id l q ch []) as Hv.
    rewrite !app_nil_r in Hv. apply Hv; try done. unfold prod_ok. simpl. splits.
Qed.

Lemma batch_lane_ok w qs i p b k :
  inv w qs -> producers w !! i = Some p -> p_pc p = PBatch b (S k) ->
  exists w' qs', batch_lane w i p b k = OK w' /\ inv w' qs'.
Proof.
  intros Hi Hp Hpc. pose proof (i_prod _ _ Hi i p Hp) as Hok. unfold prod_ok in Hok. rewrite Hpc in Hok.
  destruct Hok as (Hcu & Hnd & Hlt & Hk & vs & Hb).
  destruct (push_select w qs i p k Hi Hp Hk) as (x & cur & id & l & q & Hn & Hcur & Hix & Hin & Hl & Hq & Hr).
  unfold batch_lane. rewrite Hn, Hix. cbn [mbind outcome_bind].
  assert (prod_alive p = true) as Ha by (unfold prod_alive; by rewrite Hpc).
  rewrite (as_slice_repr _ _ Hb). cbn [mbind outcome_bind].
  destruct (bk_push_from_law (transport l) q false (USIZE - 1) b vs Hr Hb ltac:(lia))
    as (n & ch & b' & -> & Hn' & _ & Hch & Hb'). cbn [mbind outcome_bind].
  rewrite (batch_len_repr _ _ Hb), (batch_len_repr _ _ Hb'), length_drop.
  replace (Z.to_nat (Z.of_nat (length vs) - Z.of_nat (length vs - n))) with n by lia.
  eexists _, _. split; [reflexivity|]. eapply (inv_pushed w qs i p _ id l q ch (take n vs)); try done.
  - unfold prod_ok. simpl. splits. destruct (_ =? _); (split; [lia|by exists (drop n vs)]).
  - unfold prod_alive. simpl. by destruct (_ =? _).
Qed.

Lemma lane_drop_producer_ok w qs i p :
  inv w qs -> producers w !! i = Some p -> p_pc p = PIdle ->
  inv (mkWorld (drop_lanes w (p_lanes p)) (live_producers w - 1) (live_consumers w) (abandoned w)
        (<[i := mkProducer [] (p_cursor p) PDead]> (producers w)) (consumers w) (taken w) (late w)) qs.
Proof.
  intros Hi Hp Hpc. pose proof (i_prod _ _ Hi i p Hp) as (Hcu & Hnd & Hlt & _).
  assert (prod_alive p = true) as Ha by (unfold prod_alive; by rewrite Hpc).
  assert (forall x y z, <[i := mkProducer [] (p_cursor p) PDead]> (producers w) !! x = Some y -> z ∈ p_lanes y ->
    x <> i /\ producers w !! x = Some y) as Hold.
  { intros x y z Hx Hz. updated Hx; [by apply not_elem_of_nil in Hz|done]. }
  unfold drop_lanes. constructor; simpl; rewrite ?foldr_alter_length; try apply Hi.
  - intros id l q Hl Hq. rewrite foldr_alter_lookup in Hl by done. case_decide as Hin.
    + destruct (lanes w !! id) as [l0|] eqn:Hl0; [|done]. injection Hl as <-. simpl.
      destruct (i_lane _ _ Hi id l0 q Hl0 Hq) as (H1 & [] & H2 & H3); [by destruct (H3 eq_refl i p Hp)|].
      split; [done|]. exists true. split; [by apply bk_drop_tx_law|]. intros _ x y Hx Hz.
      destruct (Hold x y id Hx Hz) as [Hne Hx']. by apply Hne, (i_prods _ _ Hi x i y p id).
    + destruct (i_lane _ _ Hi id l q Hl Hq) as (H1 & pg & H2 & H3). split; [done|]. exists pg. split; [done|].
      intros Hpg x y Hx Hz. destruct (Hold x y id Hx Hz) as [_ Hx']. by apply (H3 Hpg x y).
  - intros x y Hx. updated Hx; [|by eapply (i_prod _ _ Hi)]. unfold prod_ok. simpl. splits; [apply NoDup_nil_2|].
    by intros id Hid%not_elem_of_nil.
  - intros x x' y y' z Hx Hx' Hz Hz'. destruct (Hold x y z Hx Hz) as [_ ?].
    destruct (Hold x' y' z Hx' Hz') as [_ ?]. by apply (i_prods _ _ Hi x x' y y' z).
  - pose proof (tally_insert prod_alive (producers w) i p (mkProducer [] (p_cursor p) PDead) Hp) as Ht.
    rewrite Ha in Ht. rewrite (i_live _ _ Hi). simpl in Ht. lia.
  - intros j c Hc Hf. pose proof (lane_all_open w qs i p j c Hi Hp Ha Hc). congruence.
Qed.

Lemma lane_prod_step_ok w qs i op : inv w qs -> steps_ok (prod_step w i op).
Proof.
  intros Hi r. unfold prod_step. destruct (producers w !! i) as [p|] eqn:Hp; [|done].
  pose proof (i_prod _ _ Hi i p Hp) as Hok. unfold prod_ok in Hok. destruct Hok as (Hcu & Hnd & Hlt & Hst).
  assert (forall st, prod_ok (length (lanes w)) (mkProducer (p_lanes p) (p_cursor p) st) -> st <> PDead ->
    p_pc p <> PDead -> exists w' qs',
      OK (set_producer w i (mkProducer (p_lanes p) (p_cursor p) st)) = OK w' /\ inv w' qs') as Hgo.
  { intros st Hst' Hd Hd'. eexists _, qs. split; [reflexivity|]. apply (lane_inv_producer w qs i p); try done.
    unfold prod_alive. simpl. by destruct st, (p_pc p). }
  destruct op as [v|v|m l| |], (p_pc p) as [|u [|k] block|u|b k|b|] eqn:Hpc; try done; cycle 3.
  - intros [= <-]. eexists _, qs. split; [reflexivity|]. by apply lane_drop_producer_ok.
  - intros [= <-]. apply Hgo; [unfold prod_ok; simpl; splits; by destruct block|by destruct block|done].
  - intros [= <-]. by eapply try_lane_ok.
  - intros [= <-]. apply Hgo; [|by destruct (_ =? _)|done]. unfold prod_ok. simpl. splits. by destruct (_ =? _).
  - destruct Hst as [Hk [l Hl]]. rewrite (batch_is_empty_repr _ _ Hl). case_bool_decide.
    + intros [= <-]. apply Hgo; [unfold prod_ok; simpl; splits|done|done].
    + destruct k; intros [= <-]; [|by eapply batch_lane_ok].
      apply Hgo; [unfold prod_ok; simpl; splits; by exists l|done|done].
  - intros [= <-]. apply Hgo; [|by destruct (_ =? _)|done]. unfold prod_ok. simpl. splits. by destruct (_ =? _).
  - intros [= <-]. apply Hgo; [unfold prod_ok; simpl; splits|done|done].
  - intros [= <-]. apply Hgo; [unfold prod_ok; simpl; splits|done|done].
  - intros [= <-]. apply Hgo; [unfold prod_ok; simpl; splits|done|done].
    exists l. split; simpl; [lia|]. by rewrite Nat2Z.id.
Qed.
Lemma lane_step_ok w qs e : inv w qs -> steps_ok (step boom w e).
Proof. intros Hi. destruct e; simpl; [by eapply lane_prod_step_ok|by eapply lane_cons_step_ok]. Qed.

(** ** Opening *)

Lemma open_lanes_ok n cap (ls : list (Lane T C)) :
  open_lanes n cap = OK ls ->
  length ls = n /\ forall i l, ls !! i = Some l -> accepted l = [] /\ bk_repr (transport l) [] false false.
Proof.
  revert ls. induction n as [|n IH]; intros ls; simpl; [by intros [= <-]|].
  destruct (bk_channel cap) as [ch| |] eqn:Hch; try done. simpl.
  destruct (open_lanes n cap) as [l| |]; try done. simpl. intros [= <-].
  destruct (IH l eq_refl) as [Hl Hs]. split; [simpl; lia|]. intros [|i] x Hi; simpl in Hi; [|by eapply Hs].
  injection Hi as <-. simpl. split; [done|by eapply bk_channel_law].
Qed.

(** The grid gives every lane to one consumer. *)
Lemma grid_columns np nc : mjoin (consumer_lanes np nc <$> seq 0 nc) ≡ₚ seq 0 (np * nc).
Proof.
  induction np as [|np IH].
  - unfold consumer_lanes. simpl. generalize 0%nat at 1. induction nc as [|nc IHn]; intros a; [done|].
    apply (IHn (S a)).
  - assert (forall l, mjoin (consumer_lanes (S np) nc <$> l) ≡ₚ
      mjoin (consumer_lanes np nc <$> l) ++ ((fun k => (np * nc + k)%nat) <$> l)) as Hl.
    { intros l. induction l as [|k l IHl]; [done|]. cbn [fmap list_fmap].
      change (mjoin (?x :: ?y)) with (x ++ mjoin y). rewrite IHl. unfold consumer_lanes at 1.
      rewrite seq_S, fmap_app. fold (consumer_lanes np nc k). simpl.
      rewrite <- !app_assoc. f_equiv. simpl. by rewrite Permutation_middle. }
    rewrite Hl, IH, Nat.mul_succ_l, seq_app. f_equiv.
    replace (0 + np * nc)%nat with (np * nc + 0)%nat by lia. by rewrite <- fmap_add_seq.
Qed.

Lemma producer_lanes_elem nc p id : id ∈ producer_lanes nc p <-> (p * nc <= id < p * nc + nc)%nat.
Proof.
  unfold producer_lanes. rewrite list_elem_of_fmap. split.
  - intros (k & -> & Hk%elem_of_seq). lia.
  - intros Hid. exists (id - p * nc)%nat. rewrite elem_of_seq. lia.
Qed.

Lemma inv_opened_grid np nc cap w :
  (1 <= np)%nat -> (1 <= nc)%nat -> open np nc cap = OK w -> inv w (replicate (np * nc) []).
Proof.
  intros Hnp Hnc. unfold open. destruct (open_lanes (np * nc) cap) as [ls| |] eqn:Hls; try done.
  simpl. intros [= <-]. destruct (open_lanes_ok _ _ _ Hls) as [Hl Hs].
  assert (forall {A} (f : nat -> A) n i x, (f <$> seq 0 n) !! i = Some x -> x = f i /\ (i < n)%nat) as Hf.
  { intros A f n i x Hx. rewrite list_lookup_fmap in Hx. apply fmap_Some in Hx as (k & Hk & ->).
    apply lookup_seq in Hk as [-> ?]. done. }
  constructor; simpl; rewrite ?length_replicate; try done.
  - intros id l q Hi [-> _]%lookup_replicate. destruct (Hs id l Hi) as [-> ?]. split; [done|]. by exists false.
  - by intros ? ? ? ?%not_elem_of_nil.
  - intros i p [-> Hi]%Hf. unfold prod_ok. simpl. splits.
    + apply NoDup_fmap_2; [intros ? ?; lia|apply NoDup_seq].
    + intros id Hid%producer_lanes_elem. nia.
  - intros i i' p p' id [-> Hi]%Hf [-> Hi']%Hf Hid%producer_lanes_elem Hid'%producer_lanes_elem. nia.
  - intros i c [-> Hi]%Hf. eapply local_intro; try apply batch_repr_new; try done; lia.
  - rewrite app_nil_r, <- list_fmap_compose, Hl. apply grid_columns.
  - rewrite tally_all, length_fmap, length_seq; [done|]. by intros i p [-> _]%Hf.
  - intros i c [-> Hi]%Hf. done.
  - intros i c id [-> Hi]%Hf. done.
  - intros i c id [-> Hi]%Hf. done.
Qed.
Lemma grid_inv w0 w qs : inv w0 qs -> reachable boom w0 w -> exists qs', inv w qs'.
Proof.
  intros Hi. induction 1 as [|w e w' _ (qs1 & IH) Hs]; [by exists qs|].
  destruct (lane_step_ok w qs1 e IH _ Hs) as (w2 & qs2 & [= <-] & ?). by exists qs2.
Qed.

(** ** Every value reaches one consumer *)

(** The consumer was told the end of the channel, or was dropped. *)
Definition settled c : Prop := pc c = Idle true \/ exists e, pc c = Gone e.

Lemma settled_lanes_empty w qs id q :
  inv w qs -> late w = false -> (exists i c, consumers w !! i = Some c /\ past c = true) ->
  (forall i c, consumers w !! i = Some c -> settled c) -> qs !! id = Some q -> q = [].
Proof.
  intros Hi Hlate (i0 & c0 & Hc0 & Hp0) Hall Hq.
  pose proof (lookup_lt_Some _ _ _ Hq) as Hlt. rewrite (i_len _ _ Hi) in Hlt.
  assert (id ∈ mjoin (c_lanes <$> consumers w) ++ abandoned w) as Hin
    by (rewrite (i_own _ _ Hi); apply elem_of_seq; lia).
  cut (qs !! id = Some []); [congruence|]. apply elem_of_app in Hin as [Hin|Hin].
  - apply list_elem_of_join in Hin as (ls & Hid & Hin). apply list_elem_of_fmap in Hin as (c & -> & Hin).
    apply list_elem_of_lookup in Hin as [i Hc]. destruct (Hall i c Hc) as [E|[e E]].
    + eapply (i_looked _ _ Hi i c); try done; unfold final, looked; by rewrite E.
    + destruct (i_cons _ _ Hi i c Hc) as (s & o & _ & _ & _ & _ & _ & Hp). unfold pc_ok in Hp. rewrite E in Hp.
      destruct Hp as [_ Hnil]. rewrite Hnil in Hid. by apply not_elem_of_nil in Hid.
  - by eapply (i_left _ _ Hi i0 c0).
Qed.

Lemma grid_partition w qs :
  inv w qs -> (forall id q, qs !! id = Some q -> q = []) ->
  mjoin ((fun c => received c ++ unread c) <$> consumers w) ≡ₚ mjoin (accepted <$> lanes w).
Proof.
  intros Hi He.
  rewrite <- (fmap_seq_lookup (fun i => by_consumer i (taken w)) (fun c => received c ++ unread c)).
  2:{ intros i c Hc. destruct (i_cons _ _ Hi i c Hc) as (s & o & Hs & _ & _ & -> & _).
      unfold unread. by rewrite (as_slice_repr _ _ Hs). }
  rewrite <- (fmap_seq_lookup (fun i => from i (taken w)) accepted).
  2:{ intros id l Hl. destruct (lookup_lt_is_Some_2 qs id) as [q Hq];
        [rewrite (i_len _ _ Hi); by eapply lookup_lt_Some|].
      destruct (i_lane _ _ Hi id l q Hl Hq) as [-> _]. by rewrite (He id q Hq), app_nil_r. }
  unfold by_consumer, from. rewrite (buckets (fun x : nat * nat * T => x.1.2) snd).
  - rewrite (buckets (fun x : nat * nat * T => x.1.1) snd); [done|].
    intros [[id i] v] Hin%(i_log _ _ Hi). simpl. lia.
  - intros [[id i] v] Hin%(i_log _ _ Hi). simpl. lia.
Qed.

(** C16: on a lane grid over any storage that keeps its contract, in every
    interleaving of producers, consumers and dropped endpoints: no access panics
    or is undefined behaviour; every lane belongs to one consumer or to the
    abandoned list, so two consumers never drain the same lane; and what a lane
    accepted is what was drained from it, in order, followed by what it holds. *)
Theorem lanes_single_reader np nc cap w0 w :
  (1 <= np)%nat -> (1 <= nc)%nat -> open np nc cap = OK w0 -> reachable boom w0 w ->
  (forall e r, step boom w e = Some r -> exists w', r = OK w') /\
  mjoin (c_lanes <$> consumers w) ++ abandoned w ≡ₚ seq 0 (length (lanes w)) /\
  (forall i i' c c' id, consumers w !! i = Some c -> consumers w !! i' = Some c' ->
    id ∈ c_lanes c -> id ∈ c_lanes c' -> i = i') /\
  (forall id l, lanes w !! id = Some l -> exists q pg, bk_repr (transport l) q pg false /\
    accepted l = from id (taken w) ++ q).
Proof.
  intros Hnp Hnc Ho Hr. destruct (grid_inv _ _ _ (inv_opened_grid np nc cap w0 Hnp Hnc Ho) Hr) as (qs & Hi).
  splits.
  - intros e r Hs. destruct (lane_step_ok w qs e Hi r Hs) as (w' & _ & ? & _). by exists w'.
  - apply Hi.
  - intros i i' c c' id Hc Hc' Hid Hid'.
    assert (NoDup (mjoin (c_lanes <$> consumers w))) as Hn
      by (apply (NoDup_app _ (abandoned w)); rewrite (i_own _ _ Hi); apply NoDup_seq).
    apply (join_disjoint (c_lanes <$> consumers w) i i' (c_lanes c) (c_lanes c') id); try done;
      rewrite list_lookup_fmap; [by rewrite Hc|by rewrite Hc'].
  - intros id l Hl. destruct (lookup_lt_is_Some_2 qs id) as [q Hq];
      [rewrite (i_len _ _ Hi); by eapply lookup_lt_Some|].
    destruct (i_lane _ _ Hi id l q Hl Hq) as (? & pg & ? & _). by exists q, pg.
Qed.

(** C15: on a lane grid the lanes of a dropped consumer are adopted by another
    one before it is told the end. When some consumer was told the end, every
    other one was told it too or was dropped, and none was dropped early after
    another one's last look at the abandoned lanes, then all producers are gone,
    no lane holds a value, and the values the consumers received, with those
    staged in dropped consumers, are exactly the values the lanes accepted. *)
Theorem lanes_exactly_once np nc cap w0 w :
  (1 <= np)%nat -> (1 <= nc)%nat -> open np nc cap = OK w0 -> reachable boom w0 w ->
  (exists i c, consumers w !! i = Some c /\ past c = true) ->
  (forall i c, consumers w !! i = Some c -> settled c) -> late w = false ->
  live_producers w = 0 /\
  (forall id l, lanes w !! id = Some l -> accepted l = from id (taken w)) /\
  (forall i c, consumers w !! i = Some c -> past c = true -> unread c = []) /\
  mjoin ((fun c => received c ++ unread c) <$> consumers w) ≡ₚ mjoin (accepted <$> lanes w).
Proof.
  intros Hnp Hnc Ho Hr Hsome Hall Hlate.
  destruct (grid_inv _ _ _ (inv_opened_grid np nc cap w0 Hnp Hnc Ho) Hr) as (qs & Hi).
  assert (forall id q, qs !! id = Some q -> q = []) as He
    by (intros id q; by apply settled_lanes_empty with (1 := Hi)).
  splits.
  - destruct Hsome as (i & c & Hc & Hp). by eapply (i_final _ _ Hi i c), past_final.
  - intros id l Hl. destruct (lookup_lt_is_Some_2 qs id) as [q Hq];
      [rewrite (i_len _ _ Hi); by eapply lookup_lt_Some|].
    destruct (i_lane _ _ Hi id l q Hl Hq) as [-> _]. by rewrite (He id q Hq), app_nil_r.
  - intros i c Hc Hp. destruct (i_cons _ _ Hi i c Hc) as (s & o & Hs & _ & _ & _ & _ & Hpc).
    unfold unread. rewrite (as_slice_repr _ _ Hs). unfold pc_ok, past in *.
    destruct (Hall i c Hc) as [E|[e E]]; rewrite E in Hpc, Hp; [by apply Hpc|by apply Hpc].
  - by eapply grid_partition.
Qed.
End invariant.

(** ** An execution

    Ring storage, one producer, two consumers. The second consumer stages both
    values of its lane, hands over one and is dropped; the producer leaves; the
    first consumer adopts the abandoned lane, receives the value that arrived
    there later and is told the end. *)

Definition go (i n : nat) : list (event nat) := replicate n (ECons i CStep).

Definition adoption_schedule : list (event nat) :=
  [EProd 0 (PTrySend 1%nat); EProd 0 PStep; EProd 0 (PTrySend 2%nat); EProd 0 PStep;
   EProd 0 (PTrySend 3%nat); EProd 0 PStep; EProd 0 (PTrySend 4%nat); EProd 0 PStep;
   ECons 1 (CCall Recv)] ++ go 1 2 ++ [ECons 1 CDrop] ++ go 1 1 ++
  [EProd 0 (PTrySend 5%nat); EProd 0 PStep; EProd 0 (PTrySend 6%nat); EProd 0 PStep; EProd 0 PDrop].

Abbreviation grid_world := (World nat (ring.Chan nat)).

Definition grid_open : outcome grid_world := open (SpscBackend0 := ring.ring_backend 8) 1 2 4.

Definition grid_run (es : list (event nat)) : option grid_world :=
  match grid_open with
  | OK w => run (SpscBackend0 := ring.ring_backend 8) (fun _ => false) w es
  | _ => None
  end.

Definition adoption_rest : list (event nat) :=
  [ECons 0 (CCall Recv)] ++ go 0 2 ++ [ECons 0 (CCall Recv)] ++ go 0 1 ++ [ECons 0 (CCall Recv)] ++ go 0 1 ++
  [ECons 0 (CCall Recv)] ++ go 0 5 ++ [ECons 0 (CCall Recv)] ++ go 0 11.

Lemma grid_run_reaches {T C} `{!SpscBackend T C} boom (w0 w w' : World T C) es :
  reachable boom w0 w -> run boom w es = Some w' -> reachable boom w0 w'.
Proof.
  revert w. induction es as [|e es IH]; intros w Hr; simpl; [by intros [= <-]|].
  destruct (step boom w e) as [[w1| |]|] eqn:E; try done. apply IH. by econstructor.
Qed.

Lemma grid_reachable es (f : grid_world -> Prop) :
  match grid_run es with Some w => f w | None => False end ->
  exists w0 w, grid_open = OK w0 /\
    reachable (SpscBackend0 := ring.ring_backend 8) (fun _ => false) w0 w /\ f w.
Proof.
  unfold grid_run. destruct grid_open as [w0| |]; try done.
  destruct (run _ w0 es) as [w|] eqn:E; [|done]. intros Hf. exists w0, w. splits.
  eapply grid_run_reaches; [constructor|exact E].
Qed.

(** After the drop the second lane belongs to nobody. *)
Lemma lanes_single_reader_witness :
  exists w : grid_world, abandoned w = [1%nat] /\
    mjoin (c_lanes <$> consumers w) ++ abandoned w ≡ₚ [0; 1]%nat.
Proof.
  destruct (grid_reachable adoption_schedule (fun w => abandoned w = [1%nat] /\ length (lanes w) = 2%nat))
    as (w0 & w & Ho & Hr & Ha & Hl); [vm_compute; split; reflexivity|].
  exists w. split; [exact Ha|].
  destruct (lanes_single_reader (SpscLaws0 := ring.ring_laws 8) (fun _ => false) 1 2 4
    w0 w ltac:(lia) ltac:(lia) Ho Hr) as (_ & Hown & _).
  rewrite Hl in Hown. exact Hown.
Defined.

(** The first consumer adopts the lane and receives its value; the dropped one
    keeps the value it had staged. *)
Lemma lanes_exactly_once_witness :
  exists w : grid_world, received <$> consumers w = [[1; 3; 5; 6]; [2]]%nat /\
    unread <$> consumers w = [[]; [4]]%nat /\
    mjoin ((fun c => received c ++ unread c) <$> consumers w) ≡ₚ mjoin (accepted <$> lanes w).
Proof.
  destruct (grid_reachable (adoption_schedule ++ adoption_rest) (fun w =>
      (received <$> consumers w = [[1; 3; 5; 6]; [2]]%nat /\ unread <$> consumers w = [[]; [4]]%nat) /\
      pc <$> consumers w = [Idle true; Gone false] /\ late w = false))
    as (w0 & w & Ho & Hr & [Hrc Hu] & Hpc & Hlt); [vm_compute; repeat split; reflexivity|].
  exists w. split; [exact Hrc|]. split; [exact Hu|].
  assert (exists c0 c1, consumers w = [c0; c1] /\ pc c0 = Idle true /\ pc c1 = Gone false) as (c0 & c1 & Hc & H0 & H1).
  { destruct (consumers w) as [|c0 [|c1 [|c2 l]]]; try discriminate Hpc. injection Hpc as H0 H1.
    exists c0, c1. split; [reflexivity|split; assumption]. }
  apply (lanes_exactly_once (SpscLaws0 := ring.ring_laws 8) (fun _ => false) 1 2 4
    w0 w ltac:(lia) ltac:(lia) Ho Hr); [| |exact Hlt].
  - exists 0%nat, c0. rewrite Hc. split; [reflexivity|]. unfold past. rewrite H0. reflexivity.
  - rewrite Hc. intros [|[|i]] c Hi; simpl in Hi; [| |discriminate Hi]; injection Hi as <-;
      [left; exact H0|right; exists false; exact H1].
Defined.
End lanes.
