(* ===== verification/Targets.v ===== *)
(** * Target sets of pub-sub delivery: [Targets] of [src/src/mpmc/brokered/mod.rs]

    [Targets] is a 64-bit mask over consumer indices. The first part is the code
    of the constructors; the second part reads a mask as the ascending list of its
    members and shows that the loop of [PubSub::deliver], which takes the lowest
    set bit and clears it, visits exactly that list. *)

From Stdlib Require Import Sorted.
From stdpp Require Import prelude.
From S2P Require Import Prelude.
Local Open Scope Z_scope.

Module targets.

(** ** Constructors *)

(** [1u64.checked_shl(i as u32).unwrap_or(0)]: the index is cut to 32 bits
    before the shift is checked. *)
Definition bit (i : Z) : Z :=
  let s := i mod 2 ^ 32 in if s <? 64 then Z.shiftl 1 s else 0.

Definition none : Z := 0.
Definition all (n : Z) : Z := if 64 <=? n then USIZE - 1 else Z.shiftl 1 n - 1.
Definition one (i : Z) : Z := bit i.
Definition with_ (t i : Z) : Z := Z.lor t (bit i).
Definition of_ (indices : list Z) : Z := fold_left with_ indices 0.

(** ** Members *)

Definition members (m : Z) : list nat := filter (fun i => Z.testbit m (Z.of_nat i) = true) (seq 0 64).

(** One turn of the loop [while mask != 0]: the index and the rest of the mask. *)
Definition take_lowest (m : Z) : nat * Z := (Z.to_nat (trailing_zeros m), Z.land m (m - 1)).

Lemma members_elem m i : i ∈ members m <-> (i < 64)%nat /\ Z.testbit m (Z.of_nat i) = true.
Proof. unfold members. rewrite list_elem_of_filter, elem_of_seq. split; intros []; splits. Qed.

Lemma members_zero : members 0 = [].
Proof. reflexivity. Qed.

Lemma filter_agree (f g : nat -> bool) (l : list nat) :
  (forall j, j ∈ l -> f j = g j) -> filter (fun j => f j = true) l = filter (fun j => g j = true) l.
Proof.
  induction l as [|x l IH]; intros Hl; [done|]. rewrite !filter_cons, (Hl x) by (by left).
  by rewrite IH by (intros j Hj; apply Hl; by right).
Qed.

(** Taking the first element out of a filtered interval. *)
Lemma filter_seq_first (f g : nat -> bool) n i :
  (i < n)%nat -> f i = true -> (forall j, (j < i)%nat -> f j = false) ->
  (forall j, g j = f j && negb (bool_decide (j = i))) ->
  filter (fun j => f j = true) (seq 0 n) = i :: filter (fun j => g j = true) (seq 0 n).
Proof.
  intros Hi Hf Hlow Hg.
  assert (forall h k, (forall j, (j < k)%nat -> h j = false) -> filter (fun j => h j = true) (seq 0 k) = []) as Hnone.
  { intros h k Hh. destruct (filter _ (seq 0 k)) as [|x l] eqn:E; [done|]. exfalso.
    assert (x ∈ filter (fun j => h j = true) (seq 0 k)) as [H1 H2]%list_elem_of_filter by (rewrite E; by left).
    apply elem_of_seq in H2. rewrite Hh in H1; [done|lia]. }
  replace n with (i + S (n - S i))%nat by lia. rewrite seq_app, !filter_app. simpl.
  rewrite (Hnone f), (Hnone g) by (try done; intros j Hj; rewrite Hg, (Hlow j Hj); done). simpl.
  rewrite filter_cons_True by done. rewrite filter_cons_False.
  2:{ rewrite Hg, bool_decide_true by done. by rewrite andb_false_r. }
  f_equal. apply filter_agree. intros j Hj%elem_of_seq. rewrite Hg, bool_decide_false by lia.
  by rewrite andb_true_r.
Qed.

Lemma take_lowest_spec m k rest :
  0 < m < USIZE -> take_lowest m = (k, rest) ->
  members m = k :: members rest /\ 0 <= rest < USIZE.
Proof.
  intros Hm [= <- <-]. destruct m as [|p|p]; try lia.
  pose proof (trailing_zeros_spec (Zpos p) Hm) as [Hb Hr].
  split.
  - unfold members.
    apply (filter_seq_first (fun i => Z.testbit (Zpos p) (Z.of_nat i))
             (fun i => Z.testbit (Z.land (Zpos p) (Zpos p - 1)) (Z.of_nat i))).
    + lia.
    + by rewrite Z2Nat.id by lia.
    + intros j Hj. apply trailing_zeros_lowest; lia.
    + intros j. rewrite clear_lowest by lia. do 2 f_equal. cbn [trailing_zeros] in *.
      destruct (Z.eqb_spec (Z.of_nat j) (pos_trailing_zeros p)); case_bool_decide; lia.
  - assert (0 <= Z.land (Zpos p) (Zpos p - 1)) by (apply Z.land_nonneg; lia). split; [done|].
    cut (0 <= Z.land (Zpos p) (Zpos p - 1) <= Zpos p); [lia|].
    apply Z.ldiff_le; [lia|]. apply Z.bits_inj'. intros i Hi.
    rewrite Z.ldiff_spec, Z.land_spec, Z.bits_0. by destruct (Z.testbit (Zpos p) i), (Z.testbit (Zpos p - 1) i).
Qed.

(** ** The constructors as sets *)

Lemma bit_spec i k : 0 <= k -> Z.testbit (bit i) k = (i mod 2 ^ 32 =? k) && (k <? 64).
Proof.
  intros Hk. pose proof (Z.mod_pos_bound i (2 ^ 32) ltac:(lia)) as Hi. unfold bit.
  destruct (Z.ltb_spec (i mod 2 ^ 32) 64) as [H|H].
  - rewrite one_bit by lia. destruct (Z.eqb_spec (i mod 2 ^ 32) k), (Z.ltb_spec k 64); try done; lia.
  - rewrite Z.bits_0. destruct (Z.eqb_spec (i mod 2 ^ 32) k), (Z.ltb_spec k 64); try done; lia.
Qed.

Lemma all_spec n k : 0 <= n -> 0 <= k -> Z.testbit (all n) k = (k <? n) && (k <? 64).
Proof.
  intros Hn Hk. assert (forall m, 0 <= m -> Z.testbit (2 ^ m - 1) k = (k <? m)) as Hones.
  { intros m Hm. replace (2 ^ m - 1) with (Z.ones m) by (rewrite Z.ones_equiv; lia). rewrite Z.testbit_ones by done.
    destruct (Z.leb_spec 0 k); [done|lia]. }
  unfold all. destruct (Z.leb_spec 64 n).
  - change (USIZE - 1) with (2 ^ 64 - 1). rewrite Hones by lia.
    destruct (Z.ltb_spec k 64), (Z.ltb_spec k n); try done; lia.
  - rewrite Z.shiftl_1_l, Hones by done. destruct (Z.ltb_spec k 64), (Z.ltb_spec k n); try done; lia.
Qed.

Lemma of_spec l k : 0 <= k ->
  Z.testbit (of_ l) k = true <-> k < 64 /\ exists i, i ∈ l /\ i mod 2 ^ 32 = k.
Proof.
  intros Hk. unfold of_. cut (forall t, Z.testbit (fold_left with_ l t) k = true <->
    Z.testbit t k = true \/ (k < 64 /\ exists i, i ∈ l /\ i mod 2 ^ 32 = k)).
  { intros ->. rewrite Z.bits_0. split; [by intros [?|?]|by right]. }
  induction l as [|i l IH]; intros t; simpl.
  - split; [by left|]. intros [?|(_ & j & Hj & _)]; [done|]. by apply not_elem_of_nil in Hj.
  - rewrite IH. unfold with_. rewrite Z.lor_spec, orb_true_iff, bit_spec, andb_true_iff by done.
    rewrite Z.eqb_eq, Z.ltb_lt. split.
    + intros [[?|[? ?]]|(? & j & ? & ?)]; [by left|right; split; [done|]; exists i; split; [by left|done]|].
      right. split; [done|]. exists j. split; [by right|done].
    + intros [?|(? & j & [->|?]%elem_of_cons & ?)]; [by left; left|by left; right|].
      right. split; [done|]. by exists j.
Qed.

(** The members of a mask are distinct and ascending. *)
Lemma members_sorted m : StronglySorted lt (members m).
Proof.
  unfold members. assert (forall a n, StronglySorted lt (seq a n)) as Hs.
  { intros a n. revert a. induction n as [|n IH]; intros a; constructor; [done|].
    apply Forall_forall. intros j Hj%elem_of_seq. lia. }
  specialize (Hs 0%nat 64%nat). induction Hs as [|x l Hl IH Hx]; [constructor|].
  rewrite filter_cons. case_decide; [|done]. constructor; [done|].
  apply Forall_forall. intros j [_ Hj]%list_elem_of_filter. by eapply Forall_forall in Hx.
Qed.

(** An index of [2 ^ 32] or more selects the consumer of its low 32 bits. *)
Lemma bit_index_wraps : bit (2 ^ 32) = bit 0 /\ members (of_ [2 ^ 32; 70]) = [0%nat].
Proof. by vm_compute. Qed.
End targets.
