(* ===== verification/Brokered.v ===== *)
(** * Brokered MPMC: [src/src/mpmc/brokered/mod.rs]

    Every producer has one SPSC ring into a broker and every consumer one ring
    out of each broker; a broker drains its producer rings and places each value
    on consumer rings by its policy. The model interleaves all endpoints: [step]
    runs one load or one transport call with the local computation that follows
    it. A sweep's [drain_in_place] is one step that takes the values it hands
    over, and their delivery is one step per load and push; dropping a struct
    drops its fields in one step.

    The closures of [Route] and [PubSub] and the payload's [Clone] are parameters:
    a closure takes its own state and may panic ([None]). Ghost state: [accepted]
    is what a ring took; [routed] every value that entered [deliver] with its ring
    and broker; [fates] what a broker decided for it, target by target; [tries] the
    turns of [forward_rr] with what each came to; [got] every received value with
    its ring and consumer. *)

From stdpp Require Import prelude.
From S2P Require Import Prelude RoundRobin Backend BackendRing Staged Targets.
Import targets.
Local Open Scope Z_scope.

Module brokered.

(** ** State *)

(** The three policies with their state: the cursor of [RoundRobin], the closure
    of [Route], the consumer mask and the closure of [PubSub]. *)
Inductive Policy St : Type :=
| RoundRobin (cursor : Z)
| Route (st : St)
| PubSub (consumer_mask : Z) (st : St).
Arguments RoundRobin {St} cursor.
Arguments Route {St} st.
Arguments PubSub {St} consumer_mask st.

(** A delivery under way. [Forward] is [forward_to] for consumer [k], [more] the
    rest of the mask with the original value; [ForwardRR] is [forward_rr] with
    the turns left in the pass and its count of departed consumers. [checked] and
    [chosen] tell a push whose consumer was just seen alive. *)
Inductive delivery T : Type :=
| Forward (k : nat) (v : T) (checked : bool) (more : option (Z * T))
| ForwardRR (v : T) (turns : nat) (gone : Z) (chosen : option nat).
Arguments Forward {T} k v checked more.
Arguments ForwardRR {T} v turns gone chosen.

(** Where a broker is: [final] tells [sweep(usize::MAX)] from [sweep(batch)], and
    [idx] is the ring of the sweep. *)
Inductive bpc T : Type :=
| Ready
| Sweep (final : bool) (idx : nat) (moved : Z)
| Items (final : bool) (idx : nat) (moved : Z) (rest : list T)
| Deliver (final : bool) (idx : nat) (moved : Z) (rest : list T) (d : delivery T)
| LoadLive
| Exited (clean : bool).
Arguments Ready {T}.
Arguments Sweep {T} final idx moved.
Arguments Items {T} final idx moved rest.
Arguments Deliver {T} final idx moved rest d.
Arguments LoadLive {T}.
Arguments Exited {T} clean.

(** A decision for one target: the consumer, if any, the value, and whether it
    was pushed. *)
Abbreviation fate T := (option nat * T * bool)%type.

(** What a turn of [forward_rr] came to. *)
Inductive turn : Type := Departed | Full | Took.
#[export] Instance turn_eq_dec : EqDecision turn.
Proof. solve_decision. Defined.

Record Broker T St := mkBroker {
  producer_rxs : list nat;
  consumer_txs : list nat;
  batch : Z;
  policy : Policy St;
  b_pc : bpc T;
  fates : list (fate T);
  tries : list (nat * turn)
}.
Arguments mkBroker {T St} producer_rxs consumer_txs batch policy b_pc fates tries.
Arguments producer_rxs {T St} b.
Arguments consumer_txs {T St} b.
Arguments batch {T St} b.
Arguments policy {T St} b.
Arguments b_pc {T St} b.
Arguments fates {T St} b.
Arguments tries {T St} b.

Inductive cpc : Type :=
| CIdle (ended : bool)
| CScan (k : nat) (block : bool)
| CCheck (j : nat) (block : bool)
| CGone.

Record Consumer T := mkConsumer { rxs : list nat; c_cursor : Z; received : list T; c_pc : cpc }.
Arguments mkConsumer {T} rxs c_cursor received c_pc.
Arguments rxs {T} c.
Arguments c_cursor {T} c.
Arguments received {T} c.
Arguments c_pc {T} c.

Inductive ppc T : Type := PIdle | PSend (v : T) (checked : bool) | PDead.
Arguments PIdle {T}.
Arguments PSend {T} v checked.
Arguments PDead {T}.

(** One ring: its transport and what it accepted. *)
Record Link T C := mkLink { transport : C; accepted : list T }.
Arguments mkLink {T C} transport accepted.
Arguments transport {T C} l.
Arguments accepted {T C} l.

Record World T C St := mkWorld {
  ins : list (Link T C);
  outs : list (Link T C);
  live_producers : Z;
  producers : list (ppc T);
  brokers : list (Broker T St);
  consumers : list (Consumer T);
  routed : list (nat * nat * T);
  got : list (nat * nat * T)
}.
Arguments mkWorld {T C St} ins outs live_producers producers brokers consumers routed got.
Arguments ins {T C St} w.
Arguments outs {T C St} w.
Arguments live_producers {T C St} w.
Arguments producers {T C St} w.
Arguments brokers {T C St} w.
Arguments consumers {T C St} w.
Arguments routed {T C St} w.
Arguments got {T C St} w.

Inductive prod_op T : Type := PTrySend (v : T) | PBeginSend (v : T) | PStep | PDrop.
Arguments PTrySend {T} v.
Arguments PBeginSend {T} v.
Arguments PStep {T}.
Arguments PDrop {T}.
Inductive broker_op : Type := BSetBatch (b : Z) | BRun | BStep | BDrop.
Inductive cons_op : Type := CTryRecv | CRecv | CIsDisconnected | CStep | CDrop.
Inductive event T : Type :=
| EProd (p : nat) (op : prod_op T)
| EBroker (b : nat) (op : broker_op)
| ECons (c : nat) (op : cons_op).
Arguments EProd {T} p op.
Arguments EBroker {T} b op.
Arguments ECons {T} c op.

Section machine.
Context {T C St : Type} `{!SpscBackend T C}.
Context (route subscribe : St -> T -> Z -> option (Z * St)) (clone : T -> T).
Implicit Types w : World T C St.
Implicit Types b : Broker T St.

Definition link (ls : list (Link T C)) (id : nat) : outcome (Link T C) :=
  match ls !! id with Some l => OK l | None => UB end.

(** ** Producers *)

Definition set_producer w i (p : ppc T) : World T C St :=
  mkWorld (ins w) (outs w) (live_producers w) (<[i := p]> (producers w)) (brokers w) (consumers w)
    (routed w) (got w).

(** [try_push] on the producer's ring; [retry] is what a refused value becomes. *)
Definition push_in w i (v : T) (retry : T -> ppc T) : outcome (World T C St) :=
  l ← link (ins w) i;
  '(r, ch) ← bk_try_push (transport l) v;
  let '(acc, p) := match r with
                   | Ok _ => (accepted l ++ [v], PIdle)
                   | Err back => (accepted l, retry back)
                   end in
  OK (mkWorld (<[i := mkLink ch acc]> (ins w)) (outs w) (live_producers w) (<[i := p]> (producers w))
        (brokers w) (consumers w) (routed w) (got w)).

Definition prod_step w (i : nat) (op : prod_op T) : option (outcome (World T C St)) :=
  match producers w !! i with
  | None => None
  | Some p =>
      match op, p with
      | PTrySend v, PIdle => Some (push_in w i v (fun _ => PIdle))
      | PBeginSend v, PIdle => Some (OK (set_producer w i (PSend v false)))
      | PStep, PSend v false =>
          Some (l ← link (ins w) i;
                OK (set_producer w i (if bk_is_consumer_gone (transport l) then PIdle else PSend v true)))
      | PStep, PSend v true => Some (push_in w i v (fun back => PSend back false))
      | PDrop, PIdle =>
          Some (l ← link (ins w) i;
                OK (mkWorld (<[i := mkLink (bk_drop_tx (transport l)) (accepted l)]> (ins w)) (outs w)
                      (live_producers w - 1) (<[i := PDead]> (producers w)) (brokers w) (consumers w)
                      (routed w) (got w)))
      | _, _ => None
      end
  end.

(** ** Consumers *)

Definition set_consumer w i (c : Consumer T) : World T C St :=
  mkWorld (ins w) (outs w) (live_producers w) (producers w) (brokers w) (<[i := c]> (consumers w))
    (routed w) (got w).

Definition set_c_pc (c : Consumer T) p : Consumer T := mkConsumer (rxs c) (c_cursor c) (received c) p.

(** One turn of [try_recv]'s loop. *)
Definition pop_turn w i (c : Consumer T) (k : nat) (block : bool) : outcome (World T C St) :=
  let '(x, cur) := next (c_cursor c) (Z.of_nat (length (rxs c))) in
  match rxs c !! Z.to_nat x with
  | None => PANIC
  | Some id =>
      l ← link (outs w) id;
      '(o, ch) ← bk_try_pop (transport l);
      let vs := option_list o in
      let p := match o with Some _ => CIdle false | None => CScan k block end in
      OK (mkWorld (ins w) (<[id := mkLink ch (accepted l)]> (outs w)) (live_producers w) (producers w)
            (brokers w) (<[i := mkConsumer (rxs c) cur (received c ++ vs) p]> (consumers w)) (routed w)
            (got w ++ ((fun v => (id, i, v)) <$> vs)))
  end.

(** One turn of [rxs.iter().all(|rx| rx.is_finished())]. *)
Definition check_turn w i (c : Consumer T) (j : nat) (block : bool) : outcome (World T C St) :=
  match rxs c !! j with
  | None => OK (set_consumer w i (set_c_pc c (CIdle true)))
  | Some id =>
      l ← link (outs w) id;
      f ← bk_is_finished (transport l);
      OK (set_consumer w i (set_c_pc c
        (if (f : bool) then CCheck (S j) block
         else if block then CScan (length (rxs c)) true else CIdle false)))
  end.

(** Dropping receiving endpoints. *)
Fixpoint drop_rxs (ids : list nat) (ls : list (Link T C)) : outcome (list (Link T C)) :=
  match ids with
  | [] => OK ls
  | id :: ids' =>
      l ← link ls id;
      ch ← bk_drop_rx (transport l);
      drop_rxs ids' (<[id := mkLink ch (accepted l)]> ls)
  end.

Definition cons_step w (i : nat) (op : cons_op) : option (outcome (World T C St)) :=
  match consumers w !! i with
  | None => None
  | Some c =>
      let goto p := Some (OK (set_consumer w i (set_c_pc c p))) in
      match op, c_pc c with
      | CTryRecv, CIdle _ => goto (CScan (length (rxs c)) false)
      | CRecv, CIdle _ => goto (CScan (length (rxs c)) true)
      | CIsDisconnected, CIdle _ => goto (CCheck 0 false)
      | CStep, CScan (S k) block => Some (pop_turn w i c k block)
      | CStep, CScan O block => goto (if block then CCheck 0 true else CIdle false)
      | CStep, CCheck j block => Some (check_turn w i c j block)
      | CDrop, CIdle _ =>
          Some (o ← drop_rxs (rxs c) (outs w);
                OK (mkWorld (ins w) o (live_producers w) (producers w) (brokers w)
                      (<[i := set_c_pc c CGone]> (consumers w)) (routed w) (got w)))
      | _, _ => None
      end
  end.

(** ** Brokers *)

Definition set_broker w i b : World T C St :=
  mkWorld (ins w) (outs w) (live_producers w) (producers w) (<[i := b]> (brokers w)) (consumers w)
    (routed w) (got w).

Definition set_b_pc b p : Broker T St :=
  mkBroker (producer_rxs b) (consumer_txs b) (batch b) (policy b) p (fates b) (tries b).

(** The loop of [PubSub::deliver] for a mask that is not empty: every selected
    consumer but the last gets a clone. *)
Definition fan_step (mask : Z) (v : T) : delivery T :=
  let '(k, mask') := take_lowest mask in
  if mask' =? 0 then Forward k v false None else Forward k (clone v) false (Some (mask', v)).

(** The beginning of [Delivery::deliver]: the closure's answer and the policy's
    new state; [None] when the closure panics, [Some (None, _)] when the value
    has no target. *)
Definition begin_deliver (p : Policy St) (n : nat) (v : T) : option (option (delivery T) * Policy St) :=
  match p with
  | RoundRobin cur => Some (Some (ForwardRR v n 0 None), p)
  | Route st =>
      match route st v (Z.of_nat n) with
      | None => None
      | Some (t, st') => Some (Some (Forward (Z.to_nat (t mod Z.of_nat n)) v false None), Route st')
      end
  | PubSub mask st =>
      match subscribe st v (Z.of_nat n) with
      | None => None
      | Some (t, st') =>
          let m := Z.land t mask in
          Some (if m =? 0 then None else Some (fan_step m v), PubSub mask st')
      end
  end.

(** Dropping the broker: its receivers of the producer rings and its senders. *)
Definition exit_broker w i b (clean : bool) : outcome (World T C St) :=
  l ← drop_rxs (producer_rxs b) (ins w);
  OK (mkWorld l
        (foldr (alter (fun x => mkLink (bk_drop_tx (transport x)) (accepted x))) (outs w) (consumer_txs b))
        (live_producers w) (producers w) (<[i := set_b_pc b (Exited clean)]> (brokers w)) (consumers w)
        (routed w) (got w)).

(** The callback of the sweep's [drain_in_place] takes each value. *)
Definition collect : callback (list T) T := fun log v => (log ++ [v], false).

(** [sweep] at ring [idx]. *)
Definition sweep_ring w i b (final : bool) (idx : nat) (moved : Z) : outcome (World T C St) :=
  match producer_rxs b !! idx with
  | None =>
      if moved =? 0 then
        if final then exit_broker w i b true else OK (set_broker w i (set_b_pc b LoadLive))
      else OK (set_broker w i (set_b_pc b (Sweep false 0 0)))
  | Some id =>
      l ← link (ins w) id;
      '(fl, ch, vs) ← bk_drain_in_place (transport l) (if final then USIZE - 1 else batch b) collect [];
      match fl with
      | Unwound => PANIC
      | Returned n =>
          OK (mkWorld (<[id := mkLink ch (accepted l)]> (ins w)) (outs w) (live_producers w) (producers w)
                (<[i := set_b_pc b (Items final idx (moved + n) vs)]> (brokers w)) (consumers w)
                (routed w) (got w))
      end
  end.

(** The next drained value enters [deliver]. *)
Definition next_item w i b (final : bool) (idx : nat) (moved : Z) (rest : list T) : outcome (World T C St) :=
  match rest with
  | [] => OK (set_broker w i (set_b_pc b (Sweep final (S idx) moved)))
  | v :: rest' =>
      match begin_deliver (policy b) (length (consumer_txs b)) v with
      | None => exit_broker w i b false
      | Some (d, p) =>
          let pc := match d with
                    | None => Items final idx moved rest'
                    | Some d => Deliver final idx moved rest' d
                    end in
          let tag := match producer_rxs b !! idx with Some id => [(id, i, v)] | None => [] end in
          OK (mkWorld (ins w) (outs w) (live_producers w) (producers w)
                (<[i := mkBroker (producer_rxs b) (consumer_txs b) (batch b) p pc (fates b) (tries b)]> (brokers w))
                (consumers w) (routed w ++ tag) (got w))
      end
  end.

(** A target has been decided: the rest of the mask, or the next value. *)
Definition decided b (final : bool) (idx : nat) (moved : Z) (rest : list T) (more : option (Z * T))
    (f : fate T) (p : Policy St) : Broker T St :=
  mkBroker (producer_rxs b) (consumer_txs b) (batch b) p
    match more with
    | None => Items final idx moved rest
    | Some (mask, v) => Deliver final idx moved rest (fan_step mask v)
    end (fates b ++ [f]) (tries b).

Definition set_policy b (p : Policy St) : Broker T St :=
  mkBroker (producer_rxs b) (consumer_txs b) (batch b) p (b_pc b) (fates b) (tries b).

(** A turn of [forward_rr] at consumer [k] came to [t]. *)
Definition tried b (k : nat) (t : turn) : Broker T St :=
  mkBroker (producer_rxs b) (consumer_txs b) (batch b) (policy b) (b_pc b) (fates b) (tries b ++ [(k, t)]).

(** The ring to consumer [k]. *)
Definition consumer_link w b (k : nat) : outcome (nat * Link T C) :=
  match consumer_txs b !! k with
  | None => PANIC
  | Some id => l ← link (outs w) id; OK (id, l)
  end.

(** [try_push] of [v] to consumer [k]: decided when taken, else [retry]. *)
Definition push_out w i b (k : nat) (v : T) (ok : Broker T St) (retry : T -> Broker T St) : outcome (World T C St) :=
  '(id, l) ← consumer_link w b k;
  '(r, ch) ← bk_try_push (transport l) v;
  let '(acc, b') := match r with
                    | Ok _ => (accepted l ++ [v], ok)
                    | Err back => (accepted l, retry back)
                    end in
  OK (mkWorld (ins w) (<[id := mkLink ch acc]> (outs w)) (live_producers w) (producers w)
        (<[i := b']> (brokers w)) (consumers w) (routed w) (got w)).

(** One step of a delivery. *)
Definition deliver_step w i b (final : bool) (idx : nat) (moved : Z) (rest : list T) (d : delivery T)
    : outcome (World T C St) :=
  let goto d' := Deliver final idx moved rest d' in
  match d with
  | Forward k v false more =>
      '(_, l) ← consumer_link w b k;
      OK (set_broker w i
        (if bk_is_consumer_gone (transport l)
         then decided b final idx moved rest more (Some k, v, false) (policy b)
         else set_b_pc b (goto (Forward k v true more))))
  | Forward k v true more =>
      push_out w i b k v (decided b final idx moved rest more (Some k, v, true) (policy b))
        (fun back => set_b_pc b (goto (Forward k back false more)))
  | ForwardRR v turns gone (Some k) =>
      push_out w i b k v (decided (tried b k Took) final idx moved rest None (Some k, v, true) (policy b))
        (fun back => set_b_pc (tried b k Full) (goto (ForwardRR back turns gone None)))
  | ForwardRR v O gone None =>
      OK (set_broker w i
        (if gone =? Z.of_nat (length (consumer_txs b))
         then decided b final idx moved rest None (None, v, false) (policy b)
         else set_b_pc b (goto (ForwardRR v (length (consumer_txs b)) 0 None))))
  | ForwardRR v (S turns) gone None =>
      match policy b with
      | RoundRobin cursor =>
          let '(x, cur) := next cursor (Z.of_nat (length (consumer_txs b))) in
          '(_, l) ← consumer_link w b (Z.to_nat x);
          OK (set_broker w i (set_policy
            (if bk_is_consumer_gone (transport l)
             then set_b_pc (tried b (Z.to_nat x) Departed) (goto (ForwardRR v turns (gone + 1) None))
             else set_b_pc b (goto (ForwardRR v turns gone (Some (Z.to_nat x))))) (RoundRobin cur)))
      | _ => UB
      end
  end.

Definition broker_step w (i : nat) (op : broker_op) : option (outcome (World T C St)) :=
  match brokers w !! i with
  | None => None
  | Some b =>
      let goto p := Some (OK (set_broker w i (set_b_pc b p))) in
      match op, b_pc b with
      | BSetBatch n, Ready =>
          Some (OK (set_broker w i
            (mkBroker (producer_rxs b) (consumer_txs b) (Z.max n 1) (policy b) Ready (fates b) (tries b))))
      | BRun, Ready => goto (Sweep false 0 0)
      | BDrop, Ready => Some (exit_broker w i b false)
      | BStep, Sweep f idx m => Some (sweep_ring w i b f idx m)
      | BStep, Items f idx m rest => Some (next_item w i b f idx m rest)
      | BStep, Deliver f idx m rest d => Some (deliver_step w i b f idx m rest d)
      | BStep, LoadLive => goto (Sweep (live_producers w =? 0) 0 0)
      | _, _ => None
      end
  end.

Definition step w (e : event T) : option (outcome (World T C St)) :=
  match e with
  | EProd p op => prod_step w p op
  | EBroker i op => broker_step w i op
  | ECons i op => cons_step w i op
  end.

(** ** Opening a channel *)

Definition prepare (p : Policy St) (n : nat) : Policy St :=
  match p with PubSub _ st => PubSub (all (Z.of_nat n)) st | _ => p end.

Fixpoint open_links (n : nat) (cap : Z) : outcome (list (Link T C)) :=
  match n with
  | O => OK []
  | S n' => ch ← bk_channel cap; l ← open_links n' cap; OK (mkLink ch [] :: l)
  end.

(** Producer [i] feeds broker [i % n_brokers]; ring [b * n_consumers + k] goes
    from broker [b] to consumer [k]. *)
Definition fed_by (np nb x : nat) : list nat := filter (fun i => (i mod nb)%nat = x) (seq 0 np).
Definition fans_to (nc x : nat) : list nat := (fun k => (x * nc + k)%nat) <$> seq 0 nc.
Definition fed_to (nb nc k : nat) : list nat := (fun x => (x * nc + k)%nat) <$> seq 0 nb.

Definition open (np nc nbrokers : nat) (cap : Z) (p : Policy St) : outcome (World T C St) :=
  if (1 <=? np)%nat && (1 <=? nc)%nat then
    let nb := Nat.min nbrokers np in
    if (nb =? 0)%nat then PANIC else
    i ← open_links np cap;
    o ← open_links (nb * nc) cap;
    OK (mkWorld i o (Z.of_nat np) (replicate np PIdle)
          ((fun x => mkBroker (fed_by np nb x) (fans_to nc x) 64 (prepare p nc) Ready [] []) <$> seq 0 nb)
          ((fun k => mkConsumer (fed_to nb nc k) 0 [] (CIdle false)) <$> seq 0 nc) [] [])
  else PANIC.

Inductive reachable (w0 : World T C St) : World T C St -> Prop :=
| reach_refl : reachable w0 w0
| reach_step w e w' : reachable w0 w -> step w e = Some (OK w') -> reachable w0 w'.

Fixpoint run w (es : list (event T)) : option (World T C St) :=
  match es with
  | [] => Some w
  | e :: es' => match step w e with Some (OK w') => run w' es' | _ => None end
  end.
End machine.

(** ** What the policies promise *)

Section policies.
Context {T St : Type}.
Context (route subscribe : St -> T -> Z -> option (Z * St)) (clone : T -> T).

(** The targets of one value: clones, and the original for the last one. *)
Fixpoint fan (ks : list nat) (v : T) : list (option nat * T) :=
  match ks with
  | [] => []
  | [k] => [(Some k, v)]
  | k :: ks' => (Some k, clone v) :: fan ks' v
  end.

(** The consumers [ks] are the next ones from cursor [cur] in turn. *)
Definition visited (n : nat) (cur : Z) (ks : list nat) (cur' : Z) : Prop :=
  visits (length ks) cur (Z.of_nat n) = (Z.of_nat <$> ks, cur').

(** A pass over all [n] consumers that neither placed the value nor found them
    all gone. *)
Definition waited (n : nat) (pass : list (nat * turn)) : Prop :=
  length pass = n /\ Forall (fun x => x.2 <> Took) pass /\ ~ Forall (fun x => x.2 = Departed) pass.

(** One value for [n] consumers, with the turns of [forward_rr] it took. Round
    robin goes on from its cursor, passes over consumers that are gone or full, pass
    after pass, and stops at the first one that takes the value, or after a pass
    that finds every consumer gone; a route closure picks one consumer by its answer,
    a pub-sub closure the consumers of its mask. *)
Inductive serve (n : nat) : Policy St -> T -> list (nat * turn) -> list (option nat * T) -> Policy St -> Prop :=
| serve_rr_took cur cur' v old pass k :
    Forall (waited n) old -> Forall (fun x => x.2 <> Took) pass -> (length pass < n)%nat ->
    visited n cur (fst <$> mjoin old ++ pass ++ [(k, Took)]) cur' ->
    serve n (RoundRobin cur) v (mjoin old ++ pass ++ [(k, Took)]) [(Some k, v)] (RoundRobin cur')
| serve_rr_dropped cur cur' v old pass :
    Forall (waited n) old -> Forall (fun x => x.2 = Departed) pass -> length pass = n ->
    visited n cur (fst <$> mjoin old ++ pass) cur' ->
    serve n (RoundRobin cur) v (mjoin old ++ pass) [(None, v)] (RoundRobin cur')
| serve_route st st' v t :
    route st v (Z.of_nat n) = Some (t, st') ->
    serve n (Route st) v [] [(Some (Z.to_nat (t mod Z.of_nat n)), v)] (Route st')
| serve_pubsub mask st st' v t :
    subscribe st v (Z.of_nat n) = Some (t, st') ->
    serve n (PubSub mask st) v [] (fan (members (Z.land t mask)) v) (PubSub mask st').

(** A sequence of values, threading the policy's state. *)
Inductive serves (n : nat) (p0 : Policy St) : list T -> list (nat * turn) -> list (option nat * T) -> Policy St -> Prop :=
| serves_nil : serves n p0 [] [] [] p0
| serves_snoc vs ts plan p v t l p' :
    serves n p0 vs ts plan p -> serve n p v t l p' -> serves n p0 (vs ++ [v]) (ts ++ t) (plan ++ l) p'.

(** What is left to do after the target under way. *)
Definition todo (more : option (Z * T)) : list (option nat * T) :=
  match more with None => [] | Some (m, v) => fan (members m) v end.

Definition mask_ok (n : nat) (m : Z) : Prop := 0 < m < USIZE /\ forall k, k ∈ members m -> (k < n)%nat.

Lemma fan_step_ok n m v :
  mask_ok n m -> exists k x more, fan_step clone m v = Forward k x false more /\ (k < n)%nat /\
    (Some k, x) :: todo more = fan (members m) v /\ (forall m' v', more = Some (m', v') -> mask_ok n m').
Proof.
  intros [Hm Hk]. unfold fan_step. destruct (take_lowest m) as [k m'] eqn:E.
  destruct (take_lowest_spec m k m' Hm E) as [Hmem Hm']. rewrite Hmem in Hk |- *.
  destruct (Z.eqb_spec m' 0) as [->|Hne].
  - eexists _, _, _. split; [reflexivity|]. rewrite members_zero. splits. apply Hk. by left.
  - eexists _, _, _. split; [reflexivity|]. destruct (take_lowest m') as [k2 m2] eqn:E2.
    destruct (take_lowest_spec m' k2 m2 ltac:(lia) E2) as [Hmem2 _]. splits.
    + apply Hk. by left.
    + simpl. by rewrite Hmem2.
    + intros ? ? [= <- <-]. split; [lia|]. intros j Hj. apply Hk. by right.
Qed.

Lemma visited_snoc n cur ks c x c' :
  visited n cur ks c -> next c (Z.of_nat n) = (x, c') -> 0 <= x -> visited n cur (ks ++ [Z.to_nat x]) c'.
Proof.
  unfold visited. intros Hv Hn Hx. rewrite length_app, visits_app, Hv. cbn [length visits fst snd]. rewrite Hn.
  simpl. by rewrite fmap_app, list_fmap_singleton, Z2Nat.id by lia.
Qed.

(** A whole pass visits every consumer. *)
Lemma visited_cover n cur ks pass c k :
  0 <= cur -> visited n cur (ks ++ pass) c -> length pass = n -> (k < n)%nat -> k ∈ pass.
Proof.
  unfold visited. intros Hc Hv Hl Hk. rewrite length_app, visits_app in Hv. injection Hv as Hv _.
  rewrite fmap_app in Hv. apply app_inj_1 in Hv as [_ Hv]; [|by rewrite visits_length, length_fmap].
  pose proof (visits_cover (visits (length ks) cur (Z.of_nat n)).2 (Z.of_nat n) (Z.of_nat k)
    ltac:(apply visits_cursor; lia) ltac:(lia)) as Hin.
  rewrite Nat2Z.id, <- Hl in Hin at 1. rewrite Hv in Hin. apply list_elem_of_fmap in Hin as (j & E & Hj).
  by apply Nat2Z.inj in E as ->.
Qed.

Definition policy_ok (n : nat) (p : Policy St) : Prop :=
  match p with
  | RoundRobin cur => 0 <= cur
  | Route _ => True
  | PubSub mask _ => mask = all (Z.of_nat n)
  end.

Lemma masked_ok n t : Z.land t (all (Z.of_nat n)) <> 0 -> mask_ok n (Z.land t (all (Z.of_nat n))).
Proof.
  intros Hne. assert (0 <= all (Z.of_nat n) < USIZE) as Hall.
  { unfold all. destruct (Z.leb_spec 64 (Z.of_nat n)); [lia|].
    rewrite Z.shiftl_1_l. pose proof (Z.pow_pos_nonneg 2 (Z.of_nat n)).
    assert (2 ^ Z.of_nat n < 2 ^ 64) by (apply Z.pow_lt_mono_r; lia). change (2 ^ 64) with USIZE in *. lia. }
  assert (0 <= Z.land t (all (Z.of_nat n)) <= all (Z.of_nat n)) as Hle.
  { split; [apply Z.land_nonneg; lia|]. apply Z.ldiff_le; [lia|]. apply Z.bits_inj'. intros i Hi.
    rewrite Z.ldiff_spec, Z.land_spec, Z.bits_0. by destruct (Z.testbit t i), (Z.testbit (all (Z.of_nat n)) i). }
  split; [lia|]. intros k [Hk Hb]%members_elem. rewrite Z.land_spec, all_spec in Hb by lia.
  apply andb_true_iff in Hb as [_ Hb]. apply andb_true_iff in Hb as [Hb _]. apply Z.ltb_lt in Hb. lia.
Qed.

(** For round robin and route the plan names every value once, in order. *)
Definition single (p : Policy St) : bool := match p with PubSub _ _ => false | _ => true end.

Lemma serves_single n p0 vs ts plan p :
  serves n p0 vs ts plan p -> single p0 = true -> snd <$> plan = vs /\ single p = true.
Proof.
  intros Hs Hp. induction Hs as [|vs ts plan p v t l p' _ [IH Hsp] Hv]; [done|].
  rewrite fmap_app, IH. by destruct Hv.
Qed.
End policies.

(** ** The invariant *)

Section readings.
Context {T St : Type}.
Implicit Types b : Broker T St.

Definition exited b : bool := match b_pc b with Exited _ => true | _ => false end.
Definition gone (c : Consumer T) : bool := match c_pc c with CGone => true | _ => false end.
Definition dead (p : ppc T) : bool := match p with PDead => true | _ => false end.

(** The values of a ring that its broker has drained and not yet routed. *)
Definition pending b (id : nat) : list T :=
  match b_pc b with
  | Items _ idx _ rest | Deliver _ idx _ rest _ =>
      if decide (producer_rxs b !! idx = Some id) then rest else []
  | _ => []
  end.

(** The values pushed to consumer [k]. *)
Definition placed (k : nat) (l : list (fate T)) : list T :=
  omap (fun x => if decide (x.1.1 = Some k /\ x.2 = true) then Some x.1.2 else None) l.

Lemma placed_app k l l' : placed k (l ++ l') = placed k l ++ placed k l'.
Proof. apply omap_app. Qed.
End readings.

Section invariant.
Context {T C St : Type} `{!SpscBackend T C} `{!SpscLaws T C}.
Context (route subscribe : St -> T -> Z -> option (Z * St)) (clone : T -> T).
Context (np nb nc : nat) (p0 : Policy St).
Implicit Types w : World T C St.
Implicit Types b : Broker T St.

Abbreviation serves := (serves route subscribe clone nc p0).
Abbreviation todo := (todo clone).

(** The ring of a producer and its broker; [logged] is what was routed from it. *)
Definition in_ok (p : ppc T) b (logged : list T) (id : nat) (l : Link T C) (q : list T) : Prop :=
  bk_repr (transport l) q (dead p) (exited b) /\
  match b_pc b with
  | Exited true => accepted l = logged
  | Exited false => exists lost, accepted l = logged ++ lost
  | _ => accepted l = logged ++ pending b id ++ q
  end.

(** The ring of a broker and a consumer; [logged] is what was received from it. *)
Definition out_ok b (k : nat) (c : Consumer T) (logged : list T) (l : Link T C) (q : list T) : Prop :=
  bk_repr (transport l) q (exited b) (gone c) /\ accepted l = placed k (fates b) /\
  exists lost, accepted l = logged ++ lost /\ (gone c = false -> lost = q).

(** Round robin is looking for a consumer for [v]: the turns it took so far go on
    from the cursor the value before it left. *)
Definition looking (vs : list T) (f : list (option nat * T)) (ts : list (nat * turn)) (p : Policy St)
    (v : T) (turns : nat) (g : Z) (chosen : option nat) : Prop :=
  exists vs' ts' cur cur' old pass, vs = vs' ++ [v] /\ serves vs' ts' f (RoundRobin cur) /\
    p = RoundRobin cur' /\ 0 <= cur /\ ts = ts' ++ mjoin old ++ pass /\
    Forall (waited nc) old /\ Forall (fun x => x.2 <> Took) pass /\
    visited nc cur ((fst <$> mjoin old ++ pass) ++ option_list chosen) cur' /\
    (length pass + length (option_list chosen) + turns)%nat = nc /\
    g = Z.of_nat (tally (fun x => bool_decide (x.2 = Departed)) pass).

(** What a broker has decided, of the values [vs] that entered [deliver]. *)
Definition serving b (vs : list T) : Prop :=
  let f := fst <$> fates b in
  match b_pc b with
  | Deliver _ _ _ _ (Forward k v _ more) =>
      serves vs (tries b) (f ++ (Some k, v) :: todo more) (policy b) /\ (k < nc)%nat /\
      (forall m v', more = Some (m, v') -> mask_ok nc m)
  | Deliver _ _ _ _ (ForwardRR v turns g chosen) =>
      looking vs f (tries b) (policy b) v turns g chosen /\ (forall k, chosen = Some k -> (k < nc)%nat)
  | _ => serves vs (tries b) f (policy b)
  end.

Definition departed w (k : nat) : Prop := exists c, consumers w !! k = Some c /\ gone c = true.

(** A value was placed, or its consumer had left, or all of them had. *)
Definition fate_ok w (o : option nat) (x : bool) : Prop :=
  match o, x with
  | Some k, true => (k < nc)%nat
  | Some k, false => departed w k
  | None, true => False
  | None, false => forall k, (k < nc)%nat -> departed w k
  end.

Definition fates_ok w b : Prop :=
  (forall o v x, (o, v, x) ∈ fates b -> fate_ok w o x) /\
  (forall k, (k, Departed) ∈ tries b -> departed w k).

(** The final sweep: all producers are gone, and the rings it has passed without
    moving anything are empty. *)
Definition emptied (qi : list (list T)) b (n : nat) : Prop :=
  forall j id, (j < n)%nat -> producer_rxs b !! j = Some id -> qi !! id = Some [].

Definition final_ok w (qi : list (list T)) b : Prop :=
  match b_pc b with
  | Sweep f idx m => 0 <= m /\ (f = true -> live_producers w = 0 /\ (m = 0 -> emptied qi b idx))
  | Items f idx m rest =>
      0 <= m /\ (m = 0 -> rest = []) /\ (idx < length (producer_rxs b))%nat /\
      (f = true -> live_producers w = 0 /\ (m = 0 -> emptied qi b (S idx)))
  | Deliver f idx m _ _ =>
      0 < m /\ (idx < length (producer_rxs b))%nat /\ (f = true -> live_producers w = 0)
  | Exited true => live_producers w = 0
  | _ => True
  end.

(** Nothing more can arrive on the ring [id]. *)
Definition finished w (qo : list (list T)) (id : nat) : Prop :=
  qo !! id = Some [] /\ exists b, brokers w !! (id / nc)%nat = Some b /\ exited b = true.

Definition cons_ok w (qo : list (list T)) (i : nat) (c : Consumer T) : Prop :=
  rxs c = fed_to nb nc i /\ 0 <= c_cursor c /\ received c = by_consumer i (got w) /\
  match c_pc c with
  | CScan k _ => (k <= nb)%nat
  | CCheck j _ => forall x, (x < j)%nat -> (x < nb)%nat -> finished w qo (x * nc + i)
  | CIdle true => forall x, (x < nb)%nat -> finished w qo (x * nc + i)
  | _ => True
  end.

Definition broker_ok w qi (i : nat) b : Prop :=
  producer_rxs b = fed_by np nb i /\ consumer_txs b = fans_to nc i /\ 1 <= batch b /\
  policy_ok nc (policy b) /\ serving b (by_consumer i (routed w)) /\ fates_ok w b /\ final_ok w qi b.

Record inv w (qi qo : list (list T)) : Prop := {
  i_np : length (ins w) = np /\ length qi = np /\ length (producers w) = np;
  i_nb : length (brokers w) = nb /\ (0 < nb)%nat;
  i_nc : length (consumers w) = nc /\ (0 < nc)%nat;
  i_no : length (outs w) = (nb * nc)%nat /\ length qo = (nb * nc)%nat;
  i_in id l q p b : ins w !! id = Some l -> qi !! id = Some q -> producers w !! id = Some p ->
    brokers w !! (id mod nb)%nat = Some b -> in_ok p b (from id (routed w)) id l q;
  i_out id l q b c : outs w !! id = Some l -> qo !! id = Some q -> brokers w !! (id / nc)%nat = Some b ->
    consumers w !! (id mod nc)%nat = Some c -> out_ok b (id mod nc) c (from id (got w)) l q;
  i_broker i b : brokers w !! i = Some b -> broker_ok w qi i b;
  i_cons i c : consumers w !! i = Some c -> cons_ok w qo i c;
  i_routed id i v : (id, i, v) ∈ routed w -> (id < np)%nat /\ (i < nb)%nat;
  i_got id i v : (id, i, v) ∈ got w -> (id < nb * nc)%nat /\ (i < nc)%nat;
  i_live : live_producers w = Z.of_nat (tally (fun p => negb (dead p)) (producers w))
}.

(** ** Numbering *)

Lemma ring_div x k : (k < nc)%nat -> ((x * nc + k) / nc)%nat = x.
Proof. intros Hk. rewrite Nat.div_add_l, Nat.div_small by lia. lia. Qed.

Lemma ring_mod x k : (k < nc)%nat -> ((x * nc + k) mod nc)%nat = k.
Proof. intros Hk. rewrite Nat.add_comm, Nat.Div0.mod_add. by apply Nat.mod_small. Qed.

Lemma fed_by_elem i id : id ∈ fed_by np nb i <-> (id mod nb)%nat = i /\ (id < np)%nat.
Proof. unfold fed_by. rewrite list_elem_of_filter, elem_of_seq. split; intros []; splits. Qed.

Lemma fans_to_lookup i k : (k < nc)%nat -> fans_to nc i !! k = Some (i * nc + k)%nat.
Proof. intros Hk. unfold fans_to. by rewrite list_lookup_fmap, lookup_seq_lt. Qed.

Lemma fed_to_lookup i x id : fed_to nb nc i !! x = Some id <-> (x < nb)%nat /\ id = (x * nc + i)%nat.
Proof.
  unfold fed_to. rewrite list_lookup_fmap. destruct (decide (x < nb)%nat).
  - rewrite lookup_seq_lt by done. simpl. split; [by intros [= <-]|by intros [_ ->]].
  - rewrite lookup_seq_ge by lia. split; [done|lia].
Qed.

Lemma out_index id : (0 < nc)%nat -> (id < nb * nc)%nat -> (id / nc < nb)%nat /\ (id mod nc < nc)%nat.
Proof. intros Hn Hid. split; [apply Nat.Div0.div_lt_upper_bound; lia|by apply Nat.mod_upper_bound; lia]. Qed.

(** ** Frames *)

(** Broker [i] changes, with its own rings and what it routed. *)
Lemma hub_broker w qi qo i b b' is' qi' os' qo' rt' :
  inv w qi qo -> brokers w !! i = Some b -> exited b = false ->
  length is' = np -> length qi' = np -> length os' = (nb * nc)%nat -> length qo' = (nb * nc)%nat ->
  (forall id, (id mod nb)%nat <> i ->
    is' !! id = ins w !! id /\ qi' !! id = qi !! id /\ from id rt' = from id (routed w)) ->
  (forall id l q p, (id mod nb)%nat = i -> is' !! id = Some l -> qi' !! id = Some q ->
    producers w !! id = Some p -> in_ok p b' (from id rt') id l q) ->
  (forall id, (id / nc)%nat <> i -> os' !! id = outs w !! id /\ qo' !! id = qo !! id) ->
  (forall id l q c, (id / nc)%nat = i -> os' !! id = Some l -> qo' !! id = Some q ->
    consumers w !! (id mod nc)%nat = Some c -> out_ok b' (id mod nc) c (from id (got w)) l q) ->
  (forall j, j <> i -> by_consumer j rt' = by_consumer j (routed w)) ->
  (forall id j v, (id, j, v) ∈ rt' -> (id < np)%nat /\ (j < nb)%nat) ->
  let w' := mkWorld is' os' (live_producers w) (producers w) (<[i := b']> (brokers w)) (consumers w) rt' (got w) in
  broker_ok w' qi' i b' -> inv w' qi' qo'.
Proof.
  intros Hi Hb He L1 L2 L3 L4 Hino Hin Houto Hout Hby Hrt w' Hok.
  pose proof (lookup_lt_Some _ _ _ Hb) as Hlt.
  constructor; simpl; rewrite ?length_insert; try apply Hi; try done.
  - split; [done|]. split; [done|apply Hi].
  - intros id l q p x Hl Hq Hp Hx. destruct (decide ((id mod nb)%nat = i)) as [E|E].
    + rewrite E, list_lookup_insert_eq in Hx by done. injection Hx as <-. by apply Hin.
    + rewrite list_lookup_insert_ne in Hx by done. destruct (Hino id E) as (H1 & H2 & ->).
      rewrite H1 in Hl. rewrite H2 in Hq. by apply (i_in _ _ _ Hi).
  - intros id l q x c Hl Hq Hx Hc. destruct (decide ((id / nc)%nat = i)) as [E|E].
    + rewrite E, list_lookup_insert_eq in Hx by done. injection Hx as <-. by apply Hout.
    + rewrite list_lookup_insert_ne in Hx by done. destruct (Houto id E) as (H1 & H2).
      rewrite H1 in Hl. rewrite H2 in Hq. by apply (i_out _ _ _ Hi).
  - intros j x Hx. updated Hx; [done|].
    destruct (i_broker _ _ _ Hi j x Hx) as (H1 & H2 & H3 & H4 & H5 & H6 & H7). repeat split; try done; try apply H6.
    + simpl. by rewrite Hby.
    + assert (forall n, emptied qi x n -> emptied qi' x n) as Hem.
      { intros n Hn j' id Hj Hid. destruct (Hino id) as (_ & -> & _); [|by eapply Hn].
        rewrite H1 in Hid. apply list_elem_of_lookup_2, fed_by_elem in Hid as [-> _]. done. }
      unfold final_ok in *. destruct (b_pc x); try done; simpl.
      * destruct H7 as [? H7]. split; [done|]. intros Hf. destruct (H7 Hf) as [? He0]. split; [done|]. intros Hm. by apply Hem, He0.
      * destruct H7 as (? & ? & ? & H7). split; [done|]. split; [done|]. split; [done|]. intros Hf. destruct (H7 Hf) as [? He0].
        split; [done|]. intros Hm. by apply Hem, He0.
  - intros k c Hc. destruct (i_cons _ _ _ Hi k c Hc) as (H1 & H2 & H3 & H4). repeat split; try done.
    pose proof (lookup_lt_Some _ _ _ Hc) as Hk. rewrite (proj1 (i_nc _ _ _ Hi)) in Hk.
    assert (forall x, finished w qo (x * nc + k) -> finished w' qo' (x * nc + k)) as Hfin.
    { intros x [Hq (y & Hy & Hye)]. unfold finished. rewrite ring_div in * by done.
      assert (x <> i) by congruence. destruct (Houto (x * nc + k)%nat) as [_ ->]; [by rewrite ring_div|].
      split; [done|]. exists y. simpl. by rewrite list_lookup_insert_ne. }
    destruct (c_pc c) as [[]| | |]; try done; intros x Hx; try intros Hx'; by apply Hfin, H4.
Qed.

(** Consumer [i] changes, with its own rings and what it received. *)
Lemma hub_consumer w qi qo i c c' os' qo' gt' :
  inv w qi qo -> consumers w !! i = Some c -> (gone c = true -> gone c' = true) ->
  length os' = (nb * nc)%nat -> length qo' = (nb * nc)%nat ->
  (forall id, (id mod nc)%nat <> i ->
    os' !! id = outs w !! id /\ qo' !! id = qo !! id /\ from id gt' = from id (got w)) ->
  (forall id l q b, (id mod nc)%nat = i -> os' !! id = Some l -> qo' !! id = Some q ->
    brokers w !! (id / nc)%nat = Some b -> out_ok b i c' (from id gt') l q) ->
  (forall j, j <> i -> by_consumer j gt' = by_consumer j (got w)) ->
  (forall id j v, (id, j, v) ∈ gt' -> (id < nb * nc)%nat /\ (j < nc)%nat) ->
  let w' := mkWorld (ins w) os' (live_producers w) (producers w) (brokers w) (<[i := c']> (consumers w))
              (routed w) gt' in
  cons_ok w' qo' i c' -> inv w' qi qo'.
Proof.
  intros Hi Hc Hg L1 L2 Houto Hout Hby Hgt w' Hok. pose proof (lookup_lt_Some _ _ _ Hc) as Hlt.
  assert (forall j, departed w j -> departed w' j) as Hsome.
  { intros j (d & Hd & Hgd). unfold departed. simpl. destruct (decide (i = j)) as [<-|Hne].
    - exists c'. rewrite list_lookup_insert_eq by done. split; [done|]. apply Hg. congruence.
    - exists d. by rewrite list_lookup_insert_ne. }
  constructor; simpl; rewrite ?length_insert; try apply Hi; try done.
  - intros id l q x d Hl Hq Hx Hd. destruct (decide ((id mod nc)%nat = i)) as [E|E].
    + rewrite E, list_lookup_insert_eq in Hd by done. injection Hd as <-. rewrite E. by apply Hout.
    + rewrite list_lookup_insert_ne in Hd by done. destruct (Houto id E) as (H1 & H2 & ->).
      rewrite H1 in Hl. rewrite H2 in Hq. by apply (i_out _ _ _ Hi).
  - intros j x Hx. destruct (i_broker _ _ _ Hi j x Hx) as (H1 & H2 & H3 & H4 & H5 & [H6 H6'] & H7).
    repeat split; try done.
    + intros o v y Hy. specialize (H6 o v y Hy). unfold fate_ok in *. destruct o, y; auto.
    + intros k Hk. by apply Hsome, H6'.
  - intros j d Hd. updated Hd; [done|]. destruct (i_cons _ _ _ Hi j d Hd) as (H1 & H2 & H3 & H4).
    pose proof (lookup_lt_Some _ _ _ Hd) as Hk. rewrite (proj1 (i_nc _ _ _ Hi)) in Hk.
    repeat split; try done; [simpl; by rewrite Hby|].
    assert (forall x, finished w qo (x * nc + j) -> finished w' qo' (x * nc + j)) as Hfin.
    { intros x [Hq Hy]. split; [|done]. destruct (Houto (x * nc + j)%nat) as (_ & -> & _); [|done].
      by rewrite ring_mod. }
    destruct (c_pc d) as [[]| | |]; try done; intros x Hx; try intros Hx'; by apply Hfin, H4.
Qed.

(** Producer [i], still alive, changes with its ring. *)
Lemma hub_producer w qi qo i p p' l' q' lp :
  inv w qi qo -> producers w !! i = Some p -> dead p = false ->
  (forall b, brokers w !! (i mod nb)%nat = Some b -> in_ok p' b (from i (routed w)) i l' q') ->
  lp = (if dead p' then live_producers w - 1 else live_producers w) ->
  inv (mkWorld (<[i := l']> (ins w)) (outs w) lp (<[i := p']> (producers w)) (brokers w) (consumers w)
        (routed w) (got w)) (<[i := q']> qi) qo.
Proof.
  intros Hi Hp Hd Hin ->. pose proof (lookup_lt_Some _ _ _ Hp) as Hlt.
  destruct (i_np _ _ _ Hi) as (L1 & L2 & L3).
  assert (live_producers w <> 0) as Hlive.
  { rewrite (i_live _ _ _ Hi). intros E.
    pose proof (tally_zero (fun p => negb (dead p)) (producers w) i p ltac:(lia) Hp) as H. simpl in H. by rewrite Hd in H. }
  constructor; simpl; rewrite ?length_insert; try apply Hi; try done.
  - intros id l q x b Hl Hq Hx Hb. destruct (decide (i = id)) as [<-|Hne].
    + rewrite list_lookup_insert_eq in Hl by lia. rewrite list_lookup_insert_eq in Hq by lia.
      rewrite list_lookup_insert_eq in Hx by lia. simplify_eq. by apply Hin.
    + rewrite list_lookup_insert_ne in Hl by done. rewrite list_lookup_insert_ne in Hq by done.
      rewrite list_lookup_insert_ne in Hx by done. by apply (i_in _ _ _ Hi).
  - intros j x Hx. destruct (i_broker _ _ _ Hi j x Hx) as (H1 & H2 & H3 & H4 & H5 & H6 & H7).
    repeat split; try done; try apply H6. unfold final_ok in *.
    destruct (b_pc x) as [|f ? ?|f ? ? ?|f ? ? ? ?| |[]]; try done.
    + destruct H7 as [? H7]. split; [done|]. intros Hf. by destruct (H7 Hf).
    + destruct H7 as (? & ? & ? & H7). split; [done|]. split; [done|]. split; [done|]. intros Hf. by destruct (H7 Hf).
    + destruct H7 as (? & ? & H7). split; [done|]. split; [done|]. intros Hf. by destruct (Hlive (H7 Hf)).
  - pose proof (tally_insert (fun p => negb (dead p)) (producers w) i p p' Hp) as Ht.
    rewrite (i_live _ _ _ Hi). cbn beta in Ht. rewrite Hd in Ht. simpl in Ht. destruct (dead p'); simpl in Ht; lia.
Qed.

(** ** Producers *)

Definition preserved (r : outcome (World T C St)) : Prop := exists w' qi qo, r = OK w' /\ inv w' qi qo.

Lemma hub_producer_ring w qi qo i p :
  inv w qi qo -> producers w !! i = Some p ->
  exists l q b, ins w !! i = Some l /\ qi !! i = Some q /\ brokers w !! (i mod nb)%nat = Some b /\
    in_ok p b (from i (routed w)) i l q.
Proof.
  intros Hi Hp. pose proof (lookup_lt_Some _ _ _ Hp) as Hlt. destruct (i_np _ _ _ Hi) as (L1 & L2 & L3).
  destruct (i_nb _ _ _ Hi) as [L4 L5].
  destruct (lookup_lt_is_Some_2 (ins w) i ltac:(lia)) as [l Hl].
  destruct (lookup_lt_is_Some_2 qi i ltac:(lia)) as [q Hq].
  destruct (lookup_lt_is_Some_2 (brokers w) (i mod nb)%nat) as [b Hb].
  { rewrite L4. apply Nat.mod_upper_bound. lia. }
  exists l, q, b. splits. by apply (i_in _ _ _ Hi).
Qed.

(** A clean exit has seen every producer gone. *)
Lemma exited_dirty w qi qo i p b :
  inv w qi qo -> producers w !! i = Some p -> dead p = false -> brokers w !! (i mod nb)%nat = Some b ->
  b_pc b <> Exited true.
Proof.
  intros Hi Hp Hd Hb Hpc. destruct (i_broker _ _ _ Hi _ b Hb) as (_ & _ & _ & _ & _ & _ & H7).
  unfold final_ok in H7. rewrite Hpc, (i_live _ _ _ Hi) in H7.
  pose proof (tally_zero (fun p => negb (dead p)) (producers w) i p ltac:(lia) Hp) as H.
  cbn beta in H. by rewrite Hd in H.
Qed.

(** The ring takes the values [vs]; nothing else about it changes. *)
Lemma in_ok_push p p' b logged id l q ch vs :
  b_pc b <> Exited true -> in_ok p b logged id l q -> bk_repr ch (q ++ vs) (dead p') (exited b) ->
  in_ok p' b logged id (mkLink ch (accepted l ++ vs)) (q ++ vs).
Proof.
  intros Hne [_ Ha] Hr. split; [done|]. simpl. destruct (b_pc b) as [| | | | |[]]; try (rewrite Ha, <- !app_assoc; done).
  - done.
  - destruct Ha as [lost ->]. exists (lost ++ vs). by rewrite app_assoc.
Qed.

Lemma push_in_ok w qi qo i p v retry :
  inv w qi qo -> producers w !! i = Some p -> dead p = false -> (forall x, dead (retry x) = false) ->
  preserved (push_in w i v retry).
Proof.
  intros Hi Hp Hd Hre. destruct (hub_producer_ring w qi qo i p Hi Hp) as (l & q & b & Hl & Hq & Hb & Hok).
  pose proof (exited_dirty w qi qo i p b Hi Hp Hd Hb) as Hne.
  unfold push_in, link. rewrite Hl. cbn [mbind outcome_bind]. pose proof (proj1 Hok) as Hr. rewrite Hd in Hr.
  destruct (bk_try_push_law (transport l) q (exited b) v Hr) as (r & ch & -> & [[-> Hc]|[-> Hc]]);
    cbn [mbind outcome_bind]; eexists _, _, qo; (split; [reflexivity|]).
  - eapply (hub_producer w qi qo i p); try done. intros b' Hb'. simplify_eq. by eapply in_ok_push.
  - eapply (hub_producer w qi qo i p _ _ (q ++ [])); try done; [|by rewrite Hre].
    intros b' Hb'. simplify_eq. rewrite <- (app_nil_r (accepted l)).
    eapply in_ok_push; try done. by rewrite app_nil_r, Hre.
Qed.

Definition steps_ok (o : option (outcome (World T C St))) : Prop := forall r, o = Some r -> preserved r.

Lemma hub_prod_step_ok w qi qo i op : inv w qi qo -> steps_ok (prod_step w i op).
Proof.
  intros Hi r. unfold prod_step. destruct (producers w !! i) as [p|] eqn:Hp; [|done].
  destruct (hub_producer_ring w qi qo i p Hi Hp) as (l & q & b & Hl & Hq & Hb & Hok).
  assert (forall p', dead p = false -> dead p' = false -> preserved (OK (set_producer w i p'))) as Hgo.
  { intros p' Hd Hd'. eexists _, _, qo. split; [reflexivity|]. unfold set_producer.
    rewrite <- (list_insert_id (ins w) i l Hl).
    eapply (hub_producer w qi qo i p); try done; [|by rewrite Hd'].
    intros b' Hb'. simplify_eq. destruct Hok as [Hr Ha]. rewrite Hd in Hr. split; [by rewrite Hd'|done]. }
  destruct op as [v|v| |], p as [|u []|]; try done; intros [= <-].
  - by eapply push_in_ok.
  - by apply Hgo.
  - by eapply push_in_ok.
  - unfold link. rewrite Hl. simpl. apply Hgo; [done|]. by destruct (bk_is_consumer_gone _).
  - unfold link. rewrite Hl. simpl. eexists _, _, qo. split; [reflexivity|].
    eapply (hub_producer w qi qo i PIdle); try done. intros b' Hb'. simplify_eq.
    destruct Hok as [Hr Ha]. split; [by apply bk_drop_tx_law|done].
Qed.

(** ** Consumers *)

Lemma consumer_ring w qi qo i c x :
  inv w qi qo -> consumers w !! i = Some c -> (x < nb)%nat ->
  exists l q b, outs w !! (x * nc + i)%nat = Some l /\ qo !! (x * nc + i)%nat = Some q /\
    brokers w !! x = Some b /\ out_ok b i c (from (x * nc + i) (got w)) l q.
Proof.
  intros Hi Hc Hx. pose proof (lookup_lt_Some _ _ _ Hc) as Hlt. rewrite (proj1 (i_nc _ _ _ Hi)) in Hlt.
  destruct (i_no _ _ _ Hi) as [L1 L2].
  destruct (lookup_lt_is_Some_2 (outs w) (x * nc + i)%nat ltac:(nia)) as [l Hl].
  destruct (lookup_lt_is_Some_2 qo (x * nc + i)%nat ltac:(nia)) as [q Hq].
  destruct (lookup_lt_is_Some_2 (brokers w) x) as [b Hb]; [by rewrite (proj1 (i_nb _ _ _ Hi))|].
  exists l, q, b. splits.
  pose proof (i_out _ _ _ Hi (x * nc + i) l q b c Hl Hq) as Ho. rewrite ring_div, ring_mod in Ho by done.
  by apply Ho.
Qed.

(** Consumer [i] changes its program counter or cursor only. *)
Lemma hub_consumer_local w qi qo i c c' :
  inv w qi qo -> consumers w !! i = Some c -> gone c = gone c' ->
  cons_ok (set_consumer w i c') qo i c' -> inv (set_consumer w i c') qi qo.
Proof.
  intros Hi Hc Hg Hok. destruct (i_no _ _ _ Hi) as [L1 L2].
  apply (hub_consumer w qi qo i c); try done; try apply Hi; [congruence|].
  intros id l q b E Hl Hq Hb. subst i. destruct (i_out _ _ _ Hi id l q b c Hl Hq Hb Hc) as (H1 & H2 & H3).
  unfold out_ok. rewrite <- Hg. done.
Qed.

Lemma pop_turn_ok w qi qo i c k block :
  inv w qi qo -> consumers w !! i = Some c -> c_pc c = CScan (S k) block ->
  preserved (pop_turn w i c k block).
Proof.
  intros Hi Hc Hpc. destruct (i_cons _ _ _ Hi i c Hc) as (Hrx & Hcu & Hre & Hk). rewrite Hpc in Hk. simpl in Hk.
  pose proof (lookup_lt_Some _ _ _ Hc) as Hlt. rewrite (proj1 (i_nc _ _ _ Hi)) in Hlt.
  unfold pop_turn. assert (length (rxs c) = nb) as Hlen by (rewrite Hrx; unfold fed_to; by rewrite length_fmap, length_seq).
  rewrite Hlen. destruct (next (c_cursor c) (Z.of_nat nb)) as [x cur] eqn:Hn.
  assert (0 < Z.of_nat nb) as Hpos by lia.
  destruct (next_bounds _ _ _ _ Hcu Hpos Hn) as (Hx & Hcur & _).
  rewrite Hrx. set (y := Z.to_nat x). assert (y < nb)%nat as Hy by lia.
  rewrite (proj2 (fed_to_lookup i y _) (conj Hy eq_refl)).
  destruct (consumer_ring w qi qo i c y Hi Hc Hy) as (l & q & b & Hl & Hq & Hb & Hr & Ha & lost & Hac & Hlost).
  assert (gone c = false) as Hg by (unfold gone; by rewrite Hpc). rewrite Hg in Hr. specialize (Hlost Hg). subst lost.
  unfold link. rewrite Hl. cbn [mbind outcome_bind]. destruct (i_no _ _ _ Hi) as [L1 L2].
  set (id := (y * nc + i)%nat) in *. assert (id < nb * nc)%nat as Hid by (unfold id; nia).
  assert (exists ch, bk_try_pop (transport l) = OK (head q, ch) /\ bk_repr ch (tail q) (exited b) false) as (ch & -> & Hch).
  { destruct q as [|v q]; [by apply bk_try_pop_nil_law|by apply bk_try_pop_cons_law]. }
  cbn [mbind outcome_bind]. eexists _, qi, (<[id := tail q]> qo). split; [reflexivity|].
  set (vs := option_list (head q)). assert (q = vs ++ tail q) as Eq by (unfold vs; by destruct q).
  set (p := match head q with Some _ => CIdle false | None => CScan k block end).
  assert (gone (mkConsumer (fed_to nb nc i) cur (received c ++ vs) p) = false) as Hg'
    by (unfold gone, p; simpl; by destruct q).
  eapply (hub_consumer w qi qo i c); try done; rewrite ?length_insert; try done; [congruence|..].
  - intros id' Hne. assert (id <> id') by (intros <-; unfold id in Hne; by rewrite ring_mod in Hne).
    rewrite !list_lookup_insert_ne by done. splits. rewrite from_app, from_tag, decide_False by done. by rewrite app_nil_r.
  - intros id' l' q' b' E Hl' Hq' Hb'. unfold out_ok. rewrite Hg', from_app, from_tag.
    destruct (decide (id = id')) as [<-|Hne].
    + rewrite list_lookup_insert_eq in Hl' by lia. rewrite list_lookup_insert_eq in Hq' by lia.
      unfold id in Hb'. rewrite ring_div in Hb' by done. simplify_eq. simpl. split; [done|]. split; [done|].
      exists (tail q). split; [|done]. rewrite Hac, Eq at 1. by rewrite app_assoc.
    + rewrite list_lookup_insert_ne in Hl' by done. rewrite list_lookup_insert_ne in Hq' by done.
      rewrite app_nil_r. subst i. destruct (i_out _ _ _ Hi id' l' q' b' c Hl' Hq' Hb' Hc) as (H1 & H2 & H3).
      by rewrite Hg in H1, H3.
  - intros j Hj. rewrite by_consumer_app, by_consumer_tag, decide_False by done. by rewrite app_nil_r.
  - intros id' j v [Hin|Hin]%elem_of_app; [by eapply (i_got _ _ _ Hi)|].
    apply list_elem_of_fmap in Hin as (u & [= -> -> ->] & _). done.
  - split; [done|]. split; [simpl; lia|]. split.
    + simpl. by rewrite by_consumer_app, by_consumer_tag, decide_True, Hre.
    + cbn [c_pc]. unfold p. destruct (head q); [done|]. lia.
Qed.

Lemma check_turn_ok w qi qo i c j block :
  inv w qi qo -> consumers w !! i = Some c -> c_pc c = CCheck j block ->
  preserved (check_turn w i c j block).
Proof.
  intros Hi Hc Hpc. destruct (i_cons _ _ _ Hi i c Hc) as (Hrx & Hcu & Hre & Hfin). rewrite Hpc in Hfin.
  assert (gone c = false) as Hg by (unfold gone; by rewrite Hpc).
  assert (length (rxs c) = nb) as Hlen by (rewrite Hrx; unfold fed_to; by rewrite length_fmap, length_seq).
  unfold check_turn. destruct (rxs c !! j) as [id|] eqn:Hj.
  - rewrite Hrx in Hj. apply fed_to_lookup in Hj as [Hj ->].
    destruct (consumer_ring w qi qo i c j Hi Hc Hj) as (l & q & b & Hl & Hq & Hb & Hr & _).
    rewrite Hg in Hr. unfold link. rewrite Hl. cbn [mbind outcome_bind].
    rewrite (bk_is_finished_law _ _ _ Hr). cbn [mbind outcome_bind]. eexists _, qi, qo. split; [reflexivity|].
    apply (hub_consumer_local w qi qo i c); try done.
    { rewrite Hg. unfold gone. simpl. by destruct (_ && _), block. }
    split; [done|]. split; [done|]. split; [done|]. cbn [c_pc set_c_pc]. case_bool_decide as Eq.
    + subst q. destruct (exited b) eqn:Eb; simpl.
      * intros x Hx Hx'. destruct (decide (x = j)) as [->|Hne]; [|apply Hfin; lia].
        pose proof (lookup_lt_Some _ _ _ Hc) as Hlt. rewrite (proj1 (i_nc _ _ _ Hi)) in Hlt.
        split; [done|]. exists b. by rewrite ring_div.
      * destruct block; [lia|done].
    + rewrite andb_false_r. destruct block; [lia|done].
  - eexists _, qi, qo. split; [reflexivity|]. apply (hub_consumer_local w qi qo i c); try done.
    split; [done|]. split; [done|]. split; [done|]. cbn [c_pc set_c_pc]. intros x Hx. apply Hfin; [|done].
    apply lookup_ge_None in Hj. lia.
Qed.

(** Dropping the receiving ends of distinct rings. *)
Lemma drop_rxs_ok (pg : nat -> bool) ids (ls : list (Link T C)) (qs : list (list T)) :
  NoDup ids -> length qs = length ls ->
  (forall id, id ∈ ids -> exists l q, ls !! id = Some l /\ qs !! id = Some q /\ bk_repr (transport l) q (pg id) false) ->
  exists ls' qs', drop_rxs ids ls = OK ls' /\ length ls' = length ls /\ length qs' = length qs /\
    (forall id, id ∉ ids -> ls' !! id = ls !! id /\ qs' !! id = qs !! id) /\
    (forall id l' q', id ∈ ids -> ls' !! id = Some l' -> qs' !! id = Some q' ->
      bk_repr (transport l') q' (pg id) true /\ exists l, ls !! id = Some l /\ accepted l' = accepted l).
Proof.
  revert ls qs. induction ids as [|x ids IH]; intros ls qs Hn Hlen Hr.
  { exists ls, qs. splits. by intros ? ? ? ?%not_elem_of_nil. }
  apply NoDup_cons in Hn as [Hx Hn]. destruct (Hr x ltac:(by left)) as (l & q & Hl & Hq & Hrep).
  destruct (bk_drop_rx_law _ _ _ Hrep) as (ch & q' & Hd & Hch).
  pose proof (lookup_lt_Some _ _ _ Hl) as Hlt.
  destruct (IH (<[x := mkLink ch (accepted l)]> ls) (<[x := q']> qs)) as (ls' & qs' & Hdr & L1 & L2 & Ho & Hin);
    [done|by rewrite !length_insert|..].
  { intros id Hid. assert (x <> id) by (by intros ->). rewrite !list_lookup_insert_ne by done. apply Hr. by right. }
  exists ls', qs'. rewrite length_insert in L1. rewrite length_insert in L2. simpl. unfold link. rewrite Hl. simpl. rewrite Hd. simpl.
  splits.
  - intros id [Hne Hni]%not_elem_of_cons. destruct (Ho id Hni) as [-> ->].
    by rewrite !list_lookup_insert_ne.
  - intros id l' q'' Hid Hl' Hq'. destruct (decide (id = x)) as [->|Hne].
    + destruct (Ho x Hx) as [E1 E2]. rewrite E1, list_lookup_insert_eq in Hl' by done.
      rewrite E2, list_lookup_insert_eq in Hq' by lia. simplify_eq. split; [done|]. by exists l.
    + apply elem_of_cons in Hid as [?|Hid]; [done|]. destruct (Hin id l' q'' Hid Hl' Hq') as (H1 & l0 & H2 & H3).
      split; [done|]. exists l0. by rewrite list_lookup_insert_ne in H2.
Qed.

Lemma fed_to_nodup i : (0 < nc)%nat -> NoDup (fed_to nb nc i).
Proof. intros Hn. apply NoDup_fmap_2; [intros ? ? ?; nia|apply NoDup_seq]. Qed.

Lemma fed_to_elem i id : (i < nc)%nat -> (id < nb * nc)%nat -> id ∈ fed_to nb nc i <-> (id mod nc)%nat = i.
Proof.
  intros Hi Hid. unfold fed_to. rewrite list_elem_of_fmap. split.
  - intros (x & -> & _). by apply ring_mod.
  - intros <-. exists (id / nc)%nat. rewrite elem_of_seq. pose proof (out_index id ltac:(lia) Hid).
    pose proof (Nat.div_mod_eq id nc). lia.
Qed.

Lemma consumer_drop_ok w qi qo i c :
  inv w qi qo -> consumers w !! i = Some c -> gone c = false ->
  preserved (o ← drop_rxs (rxs c) (outs w);
             OK (mkWorld (ins w) o (live_producers w) (producers w) (brokers w)
                   (<[i := set_c_pc c CGone]> (consumers w)) (routed w) (got w))).
Proof.
  intros Hi Hc Hg. destruct (i_cons _ _ _ Hi i c Hc) as (Hrx & Hcu & Hre & _).
  pose proof (lookup_lt_Some _ _ _ Hc) as Hlt. rewrite (proj1 (i_nc _ _ _ Hi)) in Hlt.
  destruct (i_no _ _ _ Hi) as [L1 L2].
  destruct (drop_rxs_ok (fun id => match brokers w !! (id / nc)%nat with Some b => exited b | None => false end)
    (rxs c) (outs w) qo) as (o & qo' & -> & L3 & L4 & Hother & Hown).
  { rewrite Hrx. apply fed_to_nodup. lia. }
  { lia. }
  { intros id Hid. rewrite Hrx in Hid. apply list_elem_of_lookup in Hid as [x [Hx ->]%fed_to_lookup].
    destruct (consumer_ring w qi qo i c x Hi Hc Hx) as (l & q & b & Hl & Hq & Hb & Hr & _).
    exists l, q. rewrite ring_div, Hb by done. rewrite Hg in Hr. splits. }
  cbn [mbind outcome_bind]. eexists _, qi, qo'. split; [reflexivity|].
  eapply (hub_consumer w qi qo i c); try done; try lia; try apply Hi.
  - intros id Hne. destruct (decide (id < nb * nc)%nat) as [Hid|Hid].
    + destruct (Hother id) as [-> ->]; [|done]. by rewrite Hrx, fed_to_elem.
    + by rewrite !lookup_ge_None_2 by lia.
  - intros id l q b E Hl Hq Hb. pose proof (lookup_lt_Some _ _ _ Hl) as Hid.
    destruct (Hown id l q) as [Hr (l0 & Hl0 & Ha)]; [rewrite Hrx; apply fed_to_elem; lia|done..|].
    rewrite Hb in Hr. destruct (lookup_lt_is_Some_2 qo id ltac:(lia)) as [q0 Hq0].
    rewrite <- E in Hc. destruct (i_out _ _ _ Hi id l0 q0 b c Hl0 Hq0 Hb Hc) as (_ & H2 & lost & H3 & _).
    subst i. split; [done|]. rewrite Ha. split; [done|]. by exists lost.
Qed.

Lemma hub_cons_step_ok w qi qo i op : inv w qi qo -> steps_ok (cons_step w i op).
Proof.
  intros Hi r. unfold cons_step. destruct (consumers w !! i) as [c|] eqn:Hc; [|done].
  destruct (i_cons _ _ _ Hi i c Hc) as (Hrx & Hcu & Hre & Hpc0).
  assert (length (rxs c) = nb) as Hlen by (rewrite Hrx; unfold fed_to; by rewrite length_fmap, length_seq).
  assert (forall p, gone c = false -> p <> CGone -> cons_ok (set_consumer w i (set_c_pc c p)) qo i (set_c_pc c p) ->
    preserved (OK (set_consumer w i (set_c_pc c p)))) as Hgo.
  { intros p Hg Hp Hok. eexists _, qi, qo. split; [reflexivity|]. apply (hub_consumer_local w qi qo i c); try done.
    rewrite Hg. by destruct p. }
  destruct op, (c_pc c) as [e|[|k] block|j block|] eqn:Hpc; try done; intros [= <-];
    assert (gone c = false) as Hg by (unfold gone; by rewrite Hpc).
  - apply Hgo; [done..|]. repeat split; try done. simpl. lia.
  - apply Hgo; [done..|]. repeat split; try done. simpl. lia.
  - apply Hgo; [done..|]. repeat split; try done; intros; lia.
  - apply Hgo; [done|by destruct block|]. destruct block; repeat split; try done; intros; lia.
  - by eapply pop_turn_ok.
  - by eapply check_turn_ok.
  - by eapply consumer_drop_ok.
Qed.

(** ** Brokers *)

Lemma in_ok_live p b logged id l q :
  exited b = false -> in_ok p b logged id l q <->
    bk_repr (transport l) q (dead p) false /\ accepted l = logged ++ pending b id ++ q.
Proof. unfold in_ok, exited. destruct (b_pc b); done. Qed.

(** Broker [i] changes only itself. *)
Lemma hub_broker_local w qi qo i b b' :
  inv w qi qo -> brokers w !! i = Some b -> exited b = false -> exited b' = false ->
  (forall id, pending b' id = pending b id) -> (forall k, placed k (fates b') = placed k (fates b)) ->
  broker_ok (set_broker w i b') qi i b' -> inv (set_broker w i b') qi qo.
Proof.
  intros Hi Hb He He' Hpe Hpl Hok. destruct (i_np _ _ _ Hi) as (L1 & L2 & L3). destruct (i_no _ _ _ Hi) as [L4 L5].
  apply (hub_broker w qi qo i b); try done; try apply Hi.
  - intros id l q p E Hl Hq Hp. subst i. pose proof (i_in _ _ _ Hi id l q p b Hl Hq Hp Hb) as Hin.
    rewrite in_ok_live in Hin |- * by done. by rewrite Hpe.
  - intros id l q c E Hl Hq Hc. subst i. destruct (i_out _ _ _ Hi id l q b c Hl Hq Hb Hc) as (H1 & H2 & H3).
    unfold out_ok. rewrite He', Hpl. by rewrite He in H1.
Qed.

(** What a broker keeps when only its program counter changes. *)
Lemma broker_ok_pc w qi i b pc :
  broker_ok w qi i b -> serving (set_b_pc b pc) (by_consumer i (routed w)) ->
  final_ok w qi (set_b_pc b pc) -> broker_ok (set_broker w i (set_b_pc b pc)) qi i (set_b_pc b pc).
Proof.
  intros (H1 & H2 & H3 & H4 & H5 & H6 & H7) Hs Hf. split; [done|]. split; [done|]. split; [done|].
  split; [done|]. split; [done|]. by split.
Qed.

Lemma own_rings_nodup i : NoDup (fed_by np nb i).
Proof. apply NoDup_filter, NoDup_seq. Qed.

Lemma fans_to_elem i id : (0 < nc)%nat -> id ∈ fans_to nc i <-> (id / nc)%nat = i.
Proof.
  intros Hn. unfold fans_to. rewrite list_elem_of_fmap. split.
  - intros (k & -> & Hk%elem_of_seq). apply ring_div. lia.
  - intros <-. exists (id mod nc)%nat. rewrite elem_of_seq. pose proof (Nat.mod_upper_bound id nc).
    pose proof (Nat.div_mod_eq id nc). lia.
Qed.

(** A broker that ends: cleanly only when its rings are empty for good. *)
Lemma exit_broker_ok w qi qo i b (clean : bool) :
  inv w qi qo -> brokers w !! i = Some b -> exited b = false ->
  serves (by_consumer i (routed w)) (tries b) (fst <$> fates b) (policy b) ->
  (clean = true -> live_producers w = 0 /\ emptied qi b (length (producer_rxs b)) /\ forall id, pending b id = []) ->
  preserved (exit_broker w i b clean).
Proof.
  intros Hi Hb He Hs Hcl. destruct (i_np _ _ _ Hi) as (L1 & L2 & L3). destruct (i_no _ _ _ Hi) as [L4 L5].
  destruct (i_nc _ _ _ Hi) as [_ Hnc]. pose proof (lookup_lt_Some _ _ _ Hb) as Hlt.
  destruct (i_broker _ _ _ Hi i b Hb) as (H1 & H2 & H3 & H4 & H5 & H6 & H7).
  destruct (drop_rxs_ok (fun id => match producers w !! id with Some p => dead p | None => false end)
    (producer_rxs b) (ins w) qi) as (o & qi' & Hd & L6 & L7 & Hother & Hown).
  { rewrite H1. apply own_rings_nodup. }
  { lia. }
  { intros id Hid. rewrite H1 in Hid. apply fed_by_elem in Hid as [E Hid].
    destruct (lookup_lt_is_Some_2 (producers w) id ltac:(lia)) as [p Hp].
    destruct (hub_producer_ring w qi qo id p Hi Hp) as (l & q & b' & Hl & Hq & Hb' & Hin). rewrite E in Hb'. simplify_eq.
    exists l, q. rewrite Hp. splits. by apply in_ok_live in Hin as [? _]. }
  unfold exit_broker. rewrite Hd. cbn [mbind outcome_bind]. eexists _, qi', qo. split; [reflexivity|].
  apply (hub_broker w qi qo i b); try done; try lia; try apply (i_routed _ _ _ Hi); rewrite ?foldr_alter_length; try done.
  - intros id Hne. destruct (decide (id ∈ producer_rxs b)) as [Hin|Hin].
    + rewrite H1 in Hin. by apply fed_by_elem in Hin as [? _].
    + by destruct (Hother id Hin) as [-> ->].
  - intros id l q p E Hl Hq Hp. pose proof (lookup_lt_Some _ _ _ Hp) as Hid.
    assert (id ∈ producer_rxs b) as Hin by (rewrite H1; apply fed_by_elem; lia).
    destruct (Hown id l q Hin Hl Hq) as [Hr (l0 & Hl0 & Ha)]. rewrite Hp in Hr.
    destruct (lookup_lt_is_Some_2 qi id ltac:(lia)) as [q0 Hq0]. rewrite <- E in Hb.
    pose proof (i_in _ _ _ Hi id l0 q0 p b Hl0 Hq0 Hp Hb) as Hio. apply in_ok_live in Hio as [_ Hacc]; [|done].
    split; [done|]. simpl. destruct clean.
    + destruct (Hcl eq_refl) as (_ & Hem & Hpe). apply list_elem_of_lookup in Hin as [j Hj].
      rewrite (Hem j id) in Hq0 by (try done; by eapply lookup_lt_Some). injection Hq0 as <-.
      by rewrite Ha, Hacc, Hpe, !app_nil_r.
    + rewrite Ha, Hacc. by eexists.
  - intros id Hne. rewrite foldr_alter_lookup by (rewrite H2; apply NoDup_fmap_2; [intros ? ? ?; lia|apply NoDup_seq]).
    rewrite decide_False; [done|]. by rewrite H2, fans_to_elem.
  - intros id l q c E Hl Hq Hc. subst i.
    rewrite foldr_alter_lookup in Hl by (rewrite H2; apply NoDup_fmap_2; [intros ? ? ?; lia|apply NoDup_seq]).
    rewrite decide_True in Hl by (by rewrite H2, fans_to_elem).
    destruct (outs w !! id) as [l0|] eqn:Hl0; [|done]. injection Hl as <-.
    destruct (i_out _ _ _ Hi id l0 q b c Hl0 Hq Hb Hc) as (Hr & Ha & Hlost). rewrite He in Hr.
    split; [by apply bk_drop_tx_law|done].
  - split; [done|]. split; [done|]. split; [done|]. split; [done|]. split; [done|]. split; [done|].
    unfold final_ok. simpl. destruct clean; [|done]. by destruct (Hcl eq_refl).
Qed.

Lemma feed_collect (log l : list T) : feed collect log l = (log ++ l, length l, false).
Proof.
  revert log. induction l as [|v l IH]; intros log; cbn [feed]; [by rewrite app_nil_r|].
  cbn [collect]. by rewrite IH, <- app_assoc.
Qed.

(** The ring of a sweep's turn. *)
Lemma broker_ring w qi qo i b idx id :
  inv w qi qo -> brokers w !! i = Some b -> producer_rxs b !! idx = Some id ->
  exists l q p, ins w !! id = Some l /\ qi !! id = Some q /\ producers w !! id = Some p /\
    (id mod nb)%nat = i /\ (id < np)%nat /\ in_ok p b (from id (routed w)) id l q.
Proof.
  intros Hi Hb Hid. destruct (i_broker _ _ _ Hi i b Hb) as (H1 & _). rewrite H1 in Hid.
  apply list_elem_of_lookup_2, fed_by_elem in Hid as [E Hid].
  destruct (i_np _ _ _ Hi) as (L1 & L2 & L3).
  destruct (lookup_lt_is_Some_2 (producers w) id ltac:(lia)) as [p Hp].
  destruct (hub_producer_ring w qi qo id p Hi Hp) as (l & q & b' & Hl & Hq & Hb' & Hin). rewrite E in Hb'. simplify_eq.
  by exists l, q, p.
Qed.

Lemma sweep_turn_ok w qi qo i b f idx m id :
  inv w qi qo -> brokers w !! i = Some b -> b_pc b = Sweep f idx m -> producer_rxs b !! idx = Some id ->
  preserved (sweep_ring w i b f idx m).
Proof.
  intros Hi Hb Hpc Hid. unfold sweep_ring. rewrite Hid.
  destruct (broker_ring w qi qo i b idx id Hi Hb Hid) as (l & q & p & Hl & Hq & Hp & E & Hlt & Hin).
  assert (exited b = false) as He by (unfold exited; by rewrite Hpc).
  assert (forall x, pending b x = []) as Hpe by (intros x; unfold pending; by rewrite Hpc).
  destruct (i_broker _ _ _ Hi i b Hb) as (H1 & H2 & H3 & H4 & H5 & H6 & H7).
  destruct (i_np _ _ _ Hi) as (L1 & L2 & L3). destruct (i_no _ _ _ Hi) as [L4 L5].
  apply in_ok_live in Hin as [Hr Ha]; [|done]. rewrite Hpe in Ha. simpl in Ha.
  unfold link. rewrite Hl. cbn [mbind outcome_bind]. set (max := if f then USIZE - 1 else batch b).
  assert (0 < max) as Hmax by (unfold max; destruct f; lia).
  destruct (bk_drain_in_place_law _ (transport l) q (dead p) max collect [] Hr ltac:(lia))
    as (n & ch & s' & k & pp & Hn & Hnm & Hpos & Hfeed & -> & Hch).
  rewrite feed_collect in Hfeed. injection Hfeed as <- <- <-. rewrite length_take_le in Hch by done.
  cbn [mbind outcome_bind app]. eexists _, (<[id := drop n q]> qi), qo. split; [reflexivity|].
  set (b' := set_b_pc b (Items f idx (m + Z.of_nat n) (take n q))).
  assert (forall x, pending b' x = if decide (id = x) then take n q else []) as Hpe'.
  { intros x. unfold pending, b'. simpl. rewrite Hid. destruct (decide (Some id = Some x)), (decide (id = x)); congruence. }
  apply (hub_broker w qi qo i b); try done; try apply (i_routed _ _ _ Hi); rewrite ?length_insert; try done.
  - intros x Hne. rewrite !list_lookup_insert_ne by (by intros <-). done.
  - intros x l' q' p' Ex Hl' Hq' Hp'. apply in_ok_live; [done|]. rewrite Hpe'. destruct (decide (id = x)) as [<-|Hne].
    + rewrite list_lookup_insert_eq in Hl' by lia. rewrite list_lookup_insert_eq in Hq' by lia. simplify_eq.
      split; [done|]. simpl. by rewrite take_drop.
    + rewrite list_lookup_insert_ne in Hl' by done. rewrite list_lookup_insert_ne in Hq' by done. rewrite <- Ex in Hb.
      pose proof (i_in _ _ _ Hi x l' q' p' b Hl' Hq' Hp' Hb) as Hx. apply in_ok_live in Hx; [|done]. by rewrite Hpe in Hx.
  - intros x l' q' c Ex Hl' Hq' Hc. rewrite <- Ex in Hb.
    destruct (i_out _ _ _ Hi x l' q' b c Hl' Hq' Hb Hc) as (Hr' & Ha' & Hlost). rewrite He in Hr'. by split.
  - split; [done|]. split; [done|]. split; [done|]. split; [done|]. unfold serving in H5 |- *. rewrite Hpc in H5.
    split; [done|]. split; [done|].
    unfold final_ok in H7 |- *. rewrite Hpc in H7. destruct H7 as [Hm Hf]. simpl. split; [lia|].
    split; [intros Hz; assert (n = 0)%nat as -> by lia; apply take_0|].
    split; [by eapply lookup_lt_Some|]. intros ->. destruct (Hf eq_refl) as [Hlive Hem]. split; [done|].
    intros Hz j x Hj Hx. simpl in Hx. assert (n = 0)%nat as -> by lia. rewrite drop_0.
    assert (q = []) as -> by (destruct q; [done|]; specialize (Hpos ltac:(done) Hmax); lia).
    destruct (decide (id = x)) as [<-|Hne]; [by rewrite list_lookup_insert_eq by lia|].
    rewrite list_lookup_insert_ne by done. apply (Hem ltac:(lia) j x); [|done].
    assert (j <> idx) by (intros ->; congruence). lia.
Qed.

(** After the last ring: exit, look at the live count, or sweep again. *)
Lemma sweep_end_ok w qi qo i b f idx m :
  inv w qi qo -> brokers w !! i = Some b -> b_pc b = Sweep f idx m -> producer_rxs b !! idx = None ->
  preserved (sweep_ring w i b f idx m).
Proof.
  intros Hi Hb Hpc Hid. unfold sweep_ring. rewrite Hid.
  assert (exited b = false) as He by (unfold exited; by rewrite Hpc).
  assert (forall x, pending b x = []) as Hpe by (intros x; unfold pending; by rewrite Hpc).
  pose proof (i_broker _ _ _ Hi i b Hb) as Hok. pose proof Hok as (H1 & H2 & H3 & H4 & H5 & H6 & H7).
  unfold serving in H5. rewrite Hpc in H5. unfold final_ok in H7. rewrite Hpc in H7. destruct H7 as [Hm Hf].
  assert (forall pc, match pc with LoadLive | Sweep false O 0 => True | _ => False end ->
    preserved (OK (set_broker w i (set_b_pc b pc)))) as Hgo.
  { intros pc Hpc'. eexists _, qi, qo. split; [reflexivity|].
    apply (hub_broker_local w qi qo i b); try done; try (by destruct pc).
    apply broker_ok_pc; try done; [by destruct pc|]. unfold final_ok. simpl.
    destruct pc as [|[] [|] []| | | |]; try done. }
  destruct (Z.eqb_spec m 0) as [->|Hne]; [|by apply Hgo]. destruct f; [|by apply Hgo].
  destruct (Hf eq_refl) as [Hlive Hem]. apply (exit_broker_ok w qi qo i b); try done. intros _. splits.
  intros j x Hj. apply (Hem eq_refl). apply lookup_ge_None in Hid. lia.
Qed.

(** [begin_deliver] keeps the policy and plans the value. *)
Lemma begin_deliver_ok b vs v d p rx f idx m rest :
  length (consumer_txs b) = nc -> (0 < nc)%nat -> policy_ok nc (policy b) -> serves vs (tries b) (fst <$> fates b) (policy b) ->
  begin_deliver route subscribe clone (policy b) (length (consumer_txs b)) v = Some (d, p) ->
  policy_ok nc p /\
  serving (mkBroker rx (consumer_txs b) (batch b) p
    match d with None => Items f idx m rest | Some d => Deliver f idx m rest d end (fates b) (tries b)) (vs ++ [v]).
Proof.
  intros Hlen Hn Hp Hs. rewrite Hlen. unfold begin_deliver, serving. destruct (policy b) as [cur|st|mask st].
  - intros [= <- <-]. cbn [b_pc fates policy tries]. splits. exists vs, (tries b), cur, cur, [], []. simpl.
    rewrite app_nil_r. unfold visited. splits.
  - destruct (route st v (Z.of_nat nc)) as [[t st']|] eqn:Er; [|done]. intros [= <- <-]. cbn [b_pc fates policy tries]. splits.
    + rewrite <- (app_nil_r (tries b)). eapply serves_snoc; [exact Hs|by constructor].
    + pose proof (Z.mod_pos_bound t (Z.of_nat nc)). lia.
  - destruct (subscribe st v (Z.of_nat nc)) as [[t st']|] eqn:Er; [|done]. simpl in Hp. subst mask.
    pose proof (serve_pubsub route subscribe clone nc (all (Z.of_nat nc)) st st' v t Er) as Hsv.
    pose proof (serves_snoc _ _ _ _ _ _ _ _ _ _ _ _ _ Hs Hsv) as Hs'. rewrite app_nil_r in Hs'.
    destruct (Z.eqb_spec (Z.land t (all (Z.of_nat nc))) 0) as [Hz|Hz]; intros [= <- <-].
    + cbn [b_pc fates policy tries]. splits. rewrite Hz, members_zero in Hs'. simpl in Hs'. by rewrite app_nil_r in Hs'.
    + destruct (fan_step_ok clone nc _ v (masked_ok nc t Hz)) as (k & x & more & -> & Hk & Hfan & Hmore).
      cbn [b_pc fates policy tries]. splits. by rewrite Hfan.
Qed.

Lemma next_item_ok w qi qo i b f idx m rest :
  inv w qi qo -> brokers w !! i = Some b -> b_pc b = Items f idx m rest ->
  preserved (next_item route subscribe clone w i b f idx m rest).
Proof.
  intros Hi Hb Hpc. assert (exited b = false) as He by (unfold exited; by rewrite Hpc).
  pose proof (i_broker _ _ _ Hi i b Hb) as Hok. pose proof Hok as (H1 & H2 & H3 & H4 & H5 & H6 & H7).
  unfold serving in H5. rewrite Hpc in H5. unfold final_ok in H7. rewrite Hpc in H7.
  destruct H7 as (Hm & Hm0 & Hidx & Hf). unfold next_item. destruct rest as [|v rest].
  - eexists _, qi, qo. split; [reflexivity|]. apply (hub_broker_local w qi qo i b); try done.
    intros x. unfold pending. rewrite Hpc. simpl. by case_decide.
  - destruct (begin_deliver _ _ _ _ _ v) as [[d p]|] eqn:Ed; [|by apply (exit_broker_ok w qi qo i b)].
    destruct (lookup_lt_is_Some_2 (producer_rxs b) idx Hidx) as [id Hid]. rewrite Hid.
    destruct (i_np _ _ _ Hi) as (L1 & L2 & L3). destruct (i_no _ _ _ Hi) as [L4 L5].
    assert (length (consumer_txs b) = nc) as Hlen by (rewrite H2; unfold fans_to; by rewrite length_fmap, length_seq).
    destruct (begin_deliver_ok b _ v d p (producer_rxs b) f idx m rest Hlen (proj2 (i_nc _ _ _ Hi)) H4 H5 Ed)
      as [Hp' Hs'].
    destruct (broker_ring w qi qo i b idx id Hi Hb Hid) as (l0 & q0 & p1 & Hl0 & Hq0 & Hp1 & E & Hlt & Hin0).
    eexists _, qi, qo. split; [reflexivity|].
    set (b' := mkBroker _ _ _ _ _ _ _).
    assert (exited b' = false) as He' by (unfold b', exited; simpl; by destruct d).
    assert (forall x, pending b x = if decide (id = x) then v :: rest else []) as Hpe.
    { intros x. unfold pending. rewrite Hpc, Hid. destruct (decide (Some id = Some x)), (decide (id = x)); congruence. }
    assert (forall x, pending b' x = if decide (id = x) then rest else []) as Hpe'.
    { intros x. unfold pending, b'. destruct d; cbn [b_pc producer_rxs]; rewrite Hid;
        destruct (decide (Some id = Some x)), (decide (id = x)); congruence. }
    apply (hub_broker w qi qo i b); try done.
    + intros x Hne. splits. rewrite from_app. change [(id, i, v)] with ((fun u => (id, i, u)) <$> [v]).
      rewrite from_tag, decide_False by (by intros <-). by rewrite app_nil_r.
    + intros x l q p2 Ex Hl Hq Hp2. rewrite <- Ex in Hb.
      pose proof (i_in _ _ _ Hi x l q p2 b Hl Hq Hp2 Hb) as Hin. rewrite in_ok_live in Hin |- * by done.
      rewrite Hpe in Hin. rewrite Hpe'. destruct Hin as [Hr Ha]. split; [done|]. rewrite Ha, from_app.
      change [(id, i, v)] with ((fun u => (id, i, u)) <$> [v]). rewrite from_tag.
      case_decide; [by rewrite <- app_assoc|]. by rewrite app_nil_r.
    + intros x l q c Ex Hl Hq Hc. rewrite <- Ex in Hb. destruct (i_out _ _ _ Hi x l q b c Hl Hq Hb Hc) as (Hr & Ha).
      split; [|done]. by rewrite He', <- He.
    + intros j Hj. rewrite by_consumer_app. change [(id, i, v)] with ((fun u => (id, i, u)) <$> [v]).
      rewrite by_consumer_tag, decide_False by done. by rewrite app_nil_r.
    + intros x j u [Hin|Hin]%elem_of_app; [by eapply (i_routed _ _ _ Hi)|].
      apply list_elem_of_singleton in Hin as [= -> -> ->]. split; [done|].
      rewrite <- (proj1 (i_nb _ _ _ Hi)). by eapply lookup_lt_Some.
    + split; [done|]. split; [done|]. split; [done|]. split; [done|]. split; [|split].
      * simpl. rewrite by_consumer_app. change [(id, i, v)] with ((fun u => (id, i, u)) <$> [v]).
        by rewrite by_consumer_tag, decide_True.
      * apply H6.
      * unfold final_ok, b'. simpl. assert (m <> 0) by (intros ->; by specialize (Hm0 eq_refl)).
        destruct d; splits; intros Hft; destruct (Hf Hft); splits; intros Hz; lia.
Qed.

(** The ring to consumer [k]. *)
Lemma consumer_link_ok w qi qo i b k :
  inv w qi qo -> brokers w !! i = Some b -> exited b = false -> (k < nc)%nat ->
  exists l q c, consumer_link w b k = OK ((i * nc + k)%nat, l) /\ outs w !! (i * nc + k)%nat = Some l /\
    qo !! (i * nc + k)%nat = Some q /\ consumers w !! k = Some c /\
    bk_repr (transport l) q false (gone c) /\
    out_ok b k c (from (i * nc + k) (got w)) l q.
Proof.
  intros Hi Hb He Hk. destruct (i_broker _ _ _ Hi i b Hb) as (_ & H2 & _).
  pose proof (lookup_lt_Some _ _ _ Hb) as Hlt. rewrite (proj1 (i_nb _ _ _ Hi)) in Hlt.
  destruct (lookup_lt_is_Some_2 (consumers w) k) as [c Hc]; [by rewrite (proj1 (i_nc _ _ _ Hi))|].
  destruct (consumer_ring w qi qo k c i Hi Hc Hlt) as (l & q & b' & Hl & Hq & Hb' & Ho). simplify_eq.
  exists l, q, c. unfold consumer_link, link. rewrite H2, fans_to_lookup by done. rewrite Hl. splits.
  destruct Ho as [Hr _]. by rewrite He in Hr.
Qed.

(** The same broker after other turns. *)
Definition with_tries b (ts : list (nat * turn)) : Broker T St :=
  mkBroker (producer_rxs b) (consumer_txs b) (batch b) (policy b) (b_pc b) (fates b) ts.

(** Deciding a target. *)
Lemma decided_serving b f idx m rest more k v x p vs :
  serves vs (tries b) ((fst <$> fates b) ++ (k, v) :: todo more) p ->
  (forall m v', more = Some (m, v') -> mask_ok nc m) ->
  serving (decided clone b f idx m rest more (k, v, x) p) vs.
Proof.
  intros Hs Hm. unfold serving, decided. cbn [fates policy b_pc tries]. rewrite fmap_app.
  destruct more as [[m' v']|]; cbn [fst fmap list_fmap]; [|done].
  destruct (fan_step_ok clone nc m' v' (Hm m' v' eq_refl)) as (k2 & x2 & more2 & -> & Hk & Hfan & Hmore).
  splits. rewrite <- app_assoc. simpl. by rewrite Hfan.
Qed.

Lemma decided_pc (b : Broker T St) f idx m rest more fa p :
  exists pc, b_pc (decided clone b f idx m rest more fa p) = pc /\
    (pc = Items f idx m rest \/ exists k v mo, pc = Deliver f idx m rest (Forward k v false mo)).
Proof.
  unfold decided. eexists. split; [reflexivity|]. destruct more as [[m' v']|]; [right|by left]. simpl.
  unfold fan_step. destruct (take_lowest m') as [k m2]. destruct (m2 =? 0); by eexists _, _, _.
Qed.

Lemma decided_ok w qi i b ts f idx m rest d more k v (x : bool) :
  broker_ok w qi i b -> b_pc b = Deliver f idx m rest d ->
  let b' := decided clone (with_tries b ts) f idx m rest more (k, v, x) (policy b) in
  serving b' (by_consumer i (routed w)) -> fate_ok w k x -> (forall j, (j, Departed) ∈ ts -> departed w j) ->
  broker_ok w qi i b' /\ exited b' = false /\ (forall id, pending b' id = pending b id).
Proof.
  intros (H1 & H2 & H3 & H4 & H5 & [H6 _] & H7) Hpc b' Hs Hx Hts.
  unfold final_ok in H7. rewrite Hpc in H7. destruct H7 as (Hm & Hidx & Hf).
  destruct (decided_pc (with_tries b ts) f idx m rest more (k, v, x) (policy b)) as (pc & Hpc' & Hcase). fold b' in Hpc'.
  split; [|split].
  - split; [done|]. split; [done|]. split; [done|]. split; [done|]. split; [done|]. split.
    + split; [|done]. intros o u y [Hin|Hin]%elem_of_app; [by eapply H6|].
      apply list_elem_of_singleton in Hin as [= -> -> ->]. done.
    + unfold final_ok. rewrite Hpc'. destruct Hcase as [->|(? & ? & ? & ->)]; splits; try lia.
      intros Hft. split; [by apply Hf|]. lia.
  - unfold exited. rewrite Hpc'. by destruct Hcase as [->|(? & ? & ? & ->)].
  - intros id. unfold pending. rewrite Hpc', Hpc. by destruct Hcase as [->|(? & ? & ? & ->)].
Qed.

(** A push to consumer [k]. *)
Lemma push_out_ok w qi qo i b k v ok retry :
  inv w qi qo -> brokers w !! i = Some b -> exited b = false -> (k < nc)%nat ->
  broker_ok w qi i ok -> exited ok = false -> (forall id, pending ok id = pending b id) ->
  fates ok = fates b ++ [(Some k, v, true)] ->
  broker_ok w qi i (retry v) -> exited (retry v) = false -> (forall id, pending (retry v) id = pending b id) ->
  fates (retry v) = fates b ->
  preserved (push_out w i b k v ok retry).
Proof.
  intros Hi Hb He Hk Hok He' Hpe Hfa Hre Hre' Hpr Hfr.
  destruct (consumer_link_ok w qi qo i b k Hi Hb He Hk) as (l & q & c & Hl & Hlo & Hq & Hc & Hr & Ho).
  unfold push_out. rewrite Hl. cbn [mbind outcome_bind].
  destruct (i_np _ _ _ Hi) as (L1 & L2 & L3). destruct (i_no _ _ _ Hi) as [L4 L5].
  destruct (bk_try_push_law (transport l) q (gone c) v Hr) as (r & ch & -> & [[-> Hch]|[-> Hch]]);
    cbn [mbind outcome_bind]; cycle 1.
  - eexists _, qi, qo. split; [reflexivity|].
    set (id := (i * nc + k)%nat) in *. assert ((id mod nc)%nat = k) as Hmod by (by apply ring_mod).
    apply (hub_broker w qi qo i b); try done; try apply (i_routed _ _ _ Hi); rewrite ?length_insert; try done.
    + intros x l' q' p E Hl' Hq' Hp'. rewrite <- E in Hb.
      pose proof (i_in _ _ _ Hi x l' q' p b Hl' Hq' Hp' Hb) as Hin. rewrite in_ok_live in Hin |- * by done. by rewrite Hpr.
    + intros x Hne. rewrite list_lookup_insert_ne; [done|]. intros <-. by apply Hne, ring_div.
    + intros x l' q' c' E Hl' Hq' Hc'. destruct (decide (id = x)) as [<-|Hne].
      * rewrite list_lookup_insert_eq in Hl' by (by eapply lookup_lt_Some). rewrite Hmod in Hc' |- *. simplify_eq. destruct Ho as (_ & Ha). unfold out_ok. by rewrite Hre', Hfr.
      * rewrite list_lookup_insert_ne in Hl' by done. rewrite <- E in Hb.
        destruct (i_out _ _ _ Hi x l' q' b c' Hl' Hq' Hb Hc') as (Hr2 & Ha). rewrite He in Hr2. unfold out_ok. by rewrite Hre', Hfr.
  - eexists _, qi, (<[(i * nc + k)%nat := q ++ [v]]> qo). split; [reflexivity|].
    set (id := (i * nc + k)%nat) in *. assert ((id mod nc)%nat = k) as Hmod by (by apply ring_mod).
    apply (hub_broker w qi qo i b); try done; try apply (i_routed _ _ _ Hi); rewrite ?length_insert; try done.
    + intros x l' q' p E Hl' Hq' Hp'. rewrite <- E in Hb.
      pose proof (i_in _ _ _ Hi x l' q' p b Hl' Hq' Hp' Hb) as Hin. rewrite in_ok_live in Hin |- * by done. by rewrite Hpe.
    + intros x Hne. rewrite !list_lookup_insert_ne; [done|..]; intros <-; by apply Hne, ring_div.
    + intros x l' q' c' E Hl' Hq' Hc'. unfold out_ok. rewrite Hfa, placed_app, He'. destruct (decide (id = x)) as [<-|Hne].
      * rewrite list_lookup_insert_eq in Hl' by (by eapply lookup_lt_Some).
        rewrite list_lookup_insert_eq in Hq' by (by eapply lookup_lt_Some). rewrite Hmod in Hc' |- *. simplify_eq. destruct Ho as (_ & Ha & lost & Hlo2 & Hlost).
        cbn [transport accepted]. split; [done|]. split.
        -- unfold placed at 2. simpl. rewrite decide_True by done. by rewrite Ha.
        -- exists (lost ++ [v]). rewrite Hlo2, <- app_assoc. split; [done|]. intros Hg. by rewrite (Hlost Hg).
      * rewrite list_lookup_insert_ne in Hl' by done. rewrite list_lookup_insert_ne in Hq' by done. rewrite <- E in Hb.
        destruct (i_out _ _ _ Hi x l' q' b c' Hl' Hq' Hb Hc') as (Hr2 & Ha & Hlost). rewrite He in Hr2.
        unfold placed at 2. simpl. rewrite decide_False; [by rewrite app_nil_r|]. intros [[= Ek] _]. apply Hne.
        unfold id. rewrite Ek, <- E. pose proof (Nat.div_mod_eq x nc). lia.
Qed.

(** Another state of the delivery under way. *)
Lemma redeliver_ok w qi i b f idx m rest d d' p ts :
  broker_ok w qi i b -> b_pc b = Deliver f idx m rest d -> policy_ok nc p ->
  let b' := mkBroker (producer_rxs b) (consumer_txs b) (batch b) p (Deliver f idx m rest d') (fates b) ts in
  serving b' (by_consumer i (routed w)) -> (forall j, (j, Departed) ∈ ts -> departed w j) ->
  broker_ok w qi i b' /\ exited b' = false /\ (forall id, pending b' id = pending b id).
Proof.
  intros (H1 & H2 & H3 & _ & _ & [H6 _] & H7) Hpc Hp b' Hs Hts. split; [|split; [done|]].
  - split; [done|]. split; [done|]. split; [done|]. split; [done|]. split; [done|]. split; [by split|].
    unfold final_ok in *. by rewrite Hpc in H7.
  - intros id. unfold pending. by rewrite Hpc.
Qed.

Lemma set_local w qi qo i b b' :
  inv w qi qo -> brokers w !! i = Some b -> exited b = false ->
  broker_ok w qi i b' /\ exited b' = false /\ (forall id, pending b' id = pending b id) ->
  (forall k, placed k (fates b') = placed k (fates b)) -> preserved (OK (set_broker w i b')).
Proof.
  intros Hi Hb He (Hok & He' & Hpe) Hpl. eexists _, qi, qo. split; [reflexivity|].
  by apply (hub_broker_local w qi qo i b).
Qed.

Lemma placed_dropped b f idx m rest more o v p k :
  placed k (fates (decided clone b f idx m rest more (o, v, false) p)) = placed k (fates b).
Proof.
  unfold decided. cbn [fates]. rewrite placed_app. unfold placed at 2. simpl. rewrite decide_False by (by intros [_ ?]).
  by rewrite app_nil_r.
Qed.

Lemma forward_ok w qi qo i b f idx m rest k v checked more :
  inv w qi qo -> brokers w !! i = Some b -> b_pc b = Deliver f idx m rest (Forward k v checked more) ->
  preserved (deliver_step clone w i b f idx m rest (Forward k v checked more)).
Proof.
  intros Hi Hb Hpc. assert (exited b = false) as He by (unfold exited; by rewrite Hpc).
  pose proof (i_broker _ _ _ Hi i b Hb) as Hok. pose proof Hok as (_ & _ & _ & _ & H5 & _).
  unfold serving in H5. rewrite Hpc in H5. destruct H5 as (Hs & Hk & Hmore).
  pose proof (fun x => decided_serving b f idx m rest more (Some k) v x (policy b) _ Hs Hmore) as Hds.
  assert (policy_ok nc (policy b)) as Hpol by apply Hok. destruct (Hok) as (_ & _ & _ & _ & _ & [_ Hts] & _).
  assert (forall ch, let b' := set_b_pc b (Deliver f idx m rest (Forward k v ch more)) in
    broker_ok w qi i b' /\ exited b' = false /\ (forall id, pending b' id = pending b id)) as Hre
    by (intros ch; by eapply redeliver_ok).
  destruct checked; cbn [deliver_step].
  - destruct (decided_ok w qi i b (tries b) f idx m rest _ more (Some k) v true Hok Hpc (Hds true) Hk Hts) as (H1 & H2 & H3).
    destruct (Hre false) as (H4 & H5' & H6). by apply (push_out_ok w qi qo i b k v).
  - destruct (consumer_link_ok w qi qo i b k Hi Hb He Hk) as (l & q & c & -> & Hl & _ & Hc & Hr & _).
    cbn [mbind outcome_bind]. rewrite (bk_consumer_gone_law _ _ _ _ Hr). destruct (gone c) eqn:Hg.
    + apply (set_local w qi qo i b); try done; [|intros k'; apply placed_dropped].
      apply (decided_ok w qi i b (tries b) f idx m rest _ more (Some k) v false Hok Hpc (Hds false)); [by exists c|done].
    + by apply (set_local w qi qo i b).
Qed.

(** The turns of round robin. *)
Lemma looking_try vs f ts p v turns g k :
  looking vs f ts p v turns g (Some k) -> looking vs f (ts ++ [(k, Full)]) p v turns g None.
Proof.
  intros (vs' & ts' & cur & cur' & old & pass & -> & Hs & Hp & Hc & -> & Hold & Hpass & Hvis & Hlen & Hg).
  exists vs', ts', cur, cur', old, (pass ++ [(k, Full)]). splits.
  - by rewrite <- !app_assoc.
  - by apply Forall_app_2; [|apply Forall_singleton].
  - rewrite app_nil_r, app_assoc, fmap_app. exact Hvis.
  - rewrite length_app. simpl in *. lia.
  - rewrite tally_snoc. simpl. lia.
Qed.

Lemma looking_took vs f ts p v turns g k :
  looking vs f ts p v turns g (Some k) -> serves vs (ts ++ [(k, Took)]) (f ++ [(Some k, v)]) p.
Proof.
  intros (vs' & ts' & cur & cur' & old & pass & -> & Hs & -> & Hc & -> & Hold & Hpass & Hvis & Hlen & Hg).
  rewrite <- !app_assoc. eapply serves_snoc; [exact Hs|]. constructor; try done; [simpl in Hlen; lia|].
  rewrite app_assoc, fmap_app. exact Hvis.
Qed.

(** After a pass: every consumer was gone, or another pass. *)
Lemma looking_pass vs f ts p v g :
  (0 < nc)%nat -> looking vs f ts p v 0 g None ->
  if g =? Z.of_nat nc
  then serves vs ts (f ++ [(None, v)]) p /\ forall k, (k < nc)%nat -> (k, Departed) ∈ ts
  else looking vs f ts p v nc 0 None.
Proof.
  intros Hn (vs' & ts' & cur & cur' & old & pass & -> & Hs & Hp & Hc & -> & Hold & Hpass & Hvis & Hlen & ->).
  simpl in Hlen. rewrite app_nil_r in Hvis.
  assert (Forall (fun x => x.2 = Departed) pass <-> tally (fun x => bool_decide (x.2 = Departed)) pass = length pass) as Hall.
  { rewrite tally_full. split; intros Hd; (eapply Forall_impl; [exact Hd|]); intros x; simpl; by rewrite bool_decide_eq_true. }
  destruct (Z.eqb_spec (Z.of_nat (tally (fun x => bool_decide (x.2 = Departed)) pass)) (Z.of_nat nc)) as [E|E].
  - assert (Forall (fun x : nat * turn => x.2 = Departed) pass) as Hd by (apply Hall; lia). split.
    + subst p. eapply serves_snoc; [exact Hs|]. constructor; try done. lia.
    + intros k Hk. rewrite fmap_app in Hvis.
      pose proof (visited_cover nc cur _ _ cur' k Hc Hvis ltac:(rewrite length_fmap; lia) Hk) as Hin.
      apply list_elem_of_fmap in Hin as ([j t] & -> & Hin). rewrite Forall_forall in Hd.
      pose proof (Hd _ Hin) as Ht. simpl in *. subst t. set_solver.
  - exists vs', ts', cur, cur', (old ++ [pass]), []. rewrite join_app. simpl. rewrite !app_nil_r. splits.
    apply Forall_app_2; [done|]. apply Forall_singleton. split; [lia|]. split; [done|]. intros Hd%Hall. lia.
Qed.

(** The next consumer: gone, or chosen. *)
Lemma looking_next vs f ts cur' v turns g x c2 :
  (0 < nc)%nat -> 0 <= cur' -> looking vs f ts (RoundRobin cur') v (S turns) g None -> next cur' (Z.of_nat nc) = (x, c2) ->
  looking vs f (ts ++ [(Z.to_nat x, Departed)]) (RoundRobin c2) v turns (g + 1) None /\
  looking vs f ts (RoundRobin c2) v turns g (Some (Z.to_nat x)).
Proof.
  intros Hn Hc' (vs' & ts' & cur & c1 & old & pass & -> & Hs & [= <-] & Hc & -> & Hold & Hpass & Hvis & Hlen & Hg) Hnx.
  rewrite app_nil_r in Hvis. pose proof (next_bounds cur' (Z.of_nat nc) x c2 Hc' ltac:(lia) Hnx) as Hb.
  pose proof (visited_snoc nc cur _ cur' x c2 Hvis Hnx ltac:(lia)) as Hvis'. split.
  - exists vs', ts', cur, c2, old, (pass ++ [(Z.to_nat x, Departed)]). splits.
    + by rewrite <- !app_assoc.
    + by apply Forall_app_2; [|apply Forall_singleton].
    + rewrite app_nil_r, app_assoc, fmap_app. exact Hvis'.
    + rewrite length_app. simpl in *. lia.
    + rewrite tally_snoc. simpl. lia.
  - exists vs', ts', cur, c2, old, pass. splits. simpl in *. lia.
Qed.

Lemma forward_rr_ok w qi qo i b f idx m rest v turns g chosen :
  inv w qi qo -> brokers w !! i = Some b -> b_pc b = Deliver f idx m rest (ForwardRR v turns g chosen) ->
  preserved (deliver_step clone w i b f idx m rest (ForwardRR v turns g chosen)).
Proof.
  intros Hi Hb Hpc. assert (exited b = false) as He by (unfold exited; by rewrite Hpc).
  pose proof (i_broker _ _ _ Hi i b Hb) as Hok. pose proof Hok as (_ & H2 & _ & H4 & H5 & [_ Hts] & _).
  unfold serving in H5. rewrite Hpc in H5. destruct H5 as [Hlk Hch].
  assert (length (consumer_txs b) = nc) as Hlen by (rewrite H2; unfold fans_to; by rewrite length_fmap, length_seq).
  pose proof (proj2 (i_nc _ _ _ Hi)) as Hn. cbn [deliver_step]. destruct chosen as [k|].
  - specialize (Hch k eq_refl).
    assert (forall t, t <> Departed -> forall j, (j, Departed) ∈ tries b ++ [(k, t)] -> departed w j) as Hts'.
    { intros t Ht j [Hj|Hj]%elem_of_app; [by apply Hts|]. apply list_elem_of_singleton in Hj as [= -> <-]. done. }
    destruct (decided_ok w qi i b (tries b ++ [(k, Took)]) f idx m rest _ None (Some k) v true Hok Hpc) as (H7 & H8 & H9);
      [apply decided_serving; [|done]; by eapply looking_took|done|by apply Hts'|].
    destruct (redeliver_ok w qi i b f idx m rest _ (ForwardRR v turns g None) (policy b) (tries b ++ [(k, Full)]) Hok Hpc H4)
      as (H10 & H11 & H12); [split; [by apply looking_try|done]|by apply Hts'|].
    assert (preserved (push_out w i b k v (decided clone (tried b k Took) f idx m rest None (Some k, v, true) (policy b))
      (fun back => set_b_pc (tried b k Full) (Deliver f idx m rest (ForwardRR back turns g None))))) as Hpush
      by (by apply (push_out_ok w qi qo i b k v)).
    by destruct turns.
  - destruct turns as [|turns].
    + pose proof (looking_pass _ _ _ _ _ _ Hn Hlk) as Hp. rewrite Hlen. destruct (g =? Z.of_nat nc).
      * destruct Hp as [Hs Hall]. apply (set_local w qi qo i b); try done; [|intros k'; apply placed_dropped].
        apply (decided_ok w qi i b (tries b) f idx m rest _ None None v false Hok Hpc);
          [by apply decided_serving|intros k Hk; by apply Hts, Hall|done].
      * apply (set_local w qi qo i b); try done. by eapply redeliver_ok.
    + destruct (policy b) as [cur'| |] eqn:Hpol; [|by destruct Hlk as (? & ? & ? & ? & ? & ? & _ & _ & ? & _)..].
      rewrite Hlen. destruct (next cur' (Z.of_nat nc)) as [x c2] eqn:Hnx. simpl in H4.
      destruct (next_bounds cur' (Z.of_nat nc) x c2 H4 ltac:(lia) Hnx) as (Hx & Hc2 & _).
      destruct (looking_next _ _ _ _ _ _ _ _ _ Hn H4 Hlk Hnx) as [Hdep Hal].
      assert (Z.to_nat x < nc)%nat as Hxk by lia.
      destruct (consumer_link_ok w qi qo i b (Z.to_nat x) Hi Hb He Hxk) as (l & q & c & -> & Hl & _ & Hc & Hr & _).
      cbn [mbind outcome_bind]. rewrite (bk_consumer_gone_law _ _ _ _ Hr).
      destruct (gone c) eqn:Hgc; (apply (set_local w qi qo i b); try done).
      * apply (redeliver_ok w qi i b f idx m rest _ (ForwardRR v turns (g + 1) None) (RoundRobin c2)
          (tries b ++ [(Z.to_nat x, Departed)]) Hok Hpc); [simpl; lia|done|].
        intros j [Hj|Hj]%elem_of_app; [by apply Hts|]. apply list_elem_of_singleton in Hj as [= ->]. by exists c.
      * apply (redeliver_ok w qi i b f idx m rest _ (ForwardRR v turns g (Some (Z.to_nat x))) (RoundRobin c2)
          (tries b) Hok Hpc); [simpl; lia| |done].
        split; [done|]. by intros k [= <-].
Qed.

Lemma hub_broker_step_ok w qi qo i op : inv w qi qo -> steps_ok (broker_step route subscribe clone w i op).
Proof.
  intros Hi r. unfold broker_step. destruct (brokers w !! i) as [b|] eqn:Hb; [|done].
  pose proof (i_broker _ _ _ Hi i b Hb) as Hok. pose proof Hok as (H1 & H2 & H3 & H4 & H5 & H6 & H7).
  destruct op as [n| | |], (b_pc b) as [|f idx m|f idx m rest|f idx m rest d| |] eqn:Hpc; try done; intros [= <-];
    assert (exited b = false) as He by (unfold exited; by rewrite Hpc);
    unfold serving, final_ok in H5, H7; rewrite Hpc in H5, H7.
  - apply (set_local w qi qo i b); try done. split; [|split; [done|intros id; unfold pending; by rewrite Hpc]].
    split; [done|]. split; [done|]. split; [simpl; lia|]. done.
  - apply (set_local w qi qo i b); try done. split; [|split; [done|intros id; unfold pending; by rewrite Hpc]].
    by apply (broker_ok_pc w).
  - destruct (producer_rxs b !! idx) as [id|] eqn:Hid; [by eapply sweep_turn_ok|by eapply sweep_end_ok].
  - by eapply next_item_ok.
  - destruct d; [by eapply forward_ok|by eapply forward_rr_ok].
  - apply (set_local w qi qo i b); try done. split; [|split; [done|intros id; unfold pending; by rewrite Hpc]].
    apply (broker_ok_pc w); try done. unfold final_ok. simpl. splits. intros Hz%Z.eqb_eq. splits. intros _ j id Hj. lia.
  - by apply (exit_broker_ok w qi qo i b).
Qed.

Lemma hub_step_ok w qi qo e : inv w qi qo -> steps_ok (step route subscribe clone w e).
Proof.
  intros Hi. destruct e; simpl; [by eapply hub_prod_step_ok|by eapply hub_broker_step_ok|by eapply hub_cons_step_ok].
Qed.

Lemma hub_inv w0 w qi qo :
  inv w0 qi qo -> reachable route subscribe clone w0 w -> exists qi' qo', inv w qi' qo'.
Proof.
  intros Hi. induction 1 as [|w e w' _ (qi1 & qo1 & IH) Hs]; [by exists qi, qo|].
  destruct (hub_step_ok w qi1 qo1 e IH _ Hs) as (w2 & qi2 & qo2 & [= <-] & ?). by exists qi2, qo2.
Qed.

(** ** Opening *)

Lemma open_links_ok n cap (ls : list (Link T C)) :
  open_links n cap = OK ls ->
  length ls = n /\ forall i l, ls !! i = Some l -> accepted l = [] /\ bk_repr (transport l) [] false false.
Proof.
  revert ls. induction n as [|n IH]; intros ls; simpl; [by intros [= <-]|].
  destruct (bk_channel cap) as [ch| |] eqn:Hch; try done. simpl.
  destruct (open_links n cap) as [l| |]; try done. simpl. intros [= <-].
  destruct (IH l eq_refl) as [Hl Hs]. split; [simpl; lia|]. intros [|i] x Hi; simpl in Hi; [|by eapply Hs].
  injection Hi as <-. simpl. split; [done|by eapply bk_channel_law].
Qed.

Lemma inv_opened_hub li lo cap :
  (0 < np)%nat -> (0 < nb)%nat -> (0 < nc)%nat -> policy_ok nc p0 ->
  open_links np cap = OK li -> open_links (nb * nc) cap = OK lo ->
  inv (mkWorld li lo (Z.of_nat np) (replicate np PIdle)
          ((fun x => mkBroker (fed_by np nb x) (fans_to nc x) 64 p0 Ready [] []) <$> seq 0 nb)
          ((fun k => mkConsumer (fed_to nb nc k) 0 [] (CIdle false)) <$> seq 0 nc) [] [])
      (replicate np []) (replicate (nb * nc) []).
Proof.
  intros Hnp Hnb Hnc Hp Hli Hlo. destruct (open_links_ok _ _ _ Hli) as [L1 Hs1]. destruct (open_links_ok _ _ _ Hlo) as [L2 Hs2].
  assert (forall {A} (f : nat -> A) n i x, (f <$> seq 0 n) !! i = Some x -> x = f i /\ (i < n)%nat) as Hf.
  { intros A f n i x Hx. rewrite list_lookup_fmap in Hx. apply fmap_Some in Hx as (k & Hk & ->).
    apply lookup_seq in Hk as [-> ?]. done. }
  constructor; simpl; rewrite ?length_replicate, ?length_fmap, ?length_seq; try done.
  - intros id l q p b Hl [-> _]%lookup_replicate [-> _]%lookup_replicate [-> _]%Hf.
    destruct (Hs1 id l Hl) as [Ha Hr]. by split.
  - intros id l q b c Hl [-> _]%lookup_replicate [-> _]%Hf [-> _]%Hf. destruct (Hs2 id l Hl) as [Ha Hr].
    split; [done|]. split; [done|]. by exists [].
  - intros i b [-> Hi]%Hf. split; [done|]. split; [done|]. split; [done|]. split; [done|]. split; [constructor|].
    split; [|done]. split; [by intros ? ? ? ?%not_elem_of_nil|by intros ? ?%not_elem_of_nil].
  - intros i c [-> Hi]%Hf. done.
  - by intros ? ? ? ?%not_elem_of_nil.
  - by intros ? ? ? ?%not_elem_of_nil.
  - by rewrite tally_replicate.
Qed.

(** ** The end of a channel *)

(** The values a plan has for consumer [k]. *)
Definition targeted (k : nat) (plan : list (option nat * T)) : list T :=
  omap (fun x => if decide (x.1 = Some k) then Some x.2 else None) plan.

Lemma placed_all k (l : list (fate T)) :
  (forall o v x, (o, v, x) ∈ l -> x = true) -> placed k l = targeted k (fst <$> l).
Proof.
  intros Hl. unfold placed, targeted. induction l as [|[[o v] x] l IH]; [done|]. csimpl.
  rewrite (Hl o v x) by (by left). rewrite IH by (intros o' v' x' Hin; eapply Hl; by right).
  destruct (decide (o = Some k)) as [->|Hne]; [by rewrite decide_True|].
  rewrite decide_False; [done|]. by intros [? _].
Qed.

(** Rows of the grid. *)
Lemma rows {A} (f : nat -> list A) n :
  mjoin (f <$> seq 0 (n * nc)) = mjoin ((fun i => mjoin ((fun k => f (i * nc + k)%nat) <$> seq 0 nc)) <$> seq 0 n).
Proof.
  induction n as [|n IH]; [done|]. rewrite seq_S, fmap_app, join_app, <- IH, Nat.mul_succ_l, seq_app, fmap_app, join_app.
  f_equal. simpl. rewrite app_nil_r. f_equal.
  replace (n * nc)%nat with (n * nc + 0)%nat by lia. rewrite <- fmap_add_seq, <- list_fmap_compose.
  apply list_fmap_ext. intros. simpl. f_equal. lia.
Qed.

Lemma fates_partition (l : list (fate T)) :
  (forall o v x, (o, v, x) ∈ l -> x = true /\ exists k, o = Some k /\ (k < nc)%nat) ->
  mjoin ((fun k => placed k l) <$> seq 0 nc) ≡ₚ snd <$> (fst <$> l).
Proof.
  intros Hl. rewrite <- list_fmap_compose.
  rewrite <- (buckets (fun x : fate T => default 0%nat x.1.1) (snd ∘ fst) nc l).
  - match goal with |- ?a ≡ₚ ?b => cut (a = b); [by intros ->|] end.
    f_equal. apply list_fmap_ext. intros _ k _. unfold placed.
    clear - Hl. induction l as [|[[o v] x] l IH]; [done|]. csimpl.
    destruct (Hl o v x ltac:(by left)) as [-> (j & -> & _)]. simpl.
    rewrite IH by (intros o' v' x' Hin; eapply Hl; by right).
    destruct (decide (j = k)) as [->|Hne]; [by rewrite decide_True|].
    rewrite decide_False; [done|]. intros [[= ?] _]. done.
  - intros [[o v] x] Hin. simpl. destruct (Hl o v x Hin) as (_ & k & -> & Hk). done.
Qed.

Section ended.
Context (w : World T C St) (qi qo : list (list T)) (Hi : inv w qi qo).
Context (Hclean : forall i b, brokers w !! i = Some b -> b_pc b = Exited true).
Context (Hended : forall i c, consumers w !! i = Some c -> c_pc c = CIdle true).

Lemma ended_fates i b o v x :
  brokers w !! i = Some b -> (o, v, x) ∈ fates b -> x = true /\ exists k, o = Some k /\ (k < nc)%nat.
Proof.
  intros Hb Hin. destruct (i_broker _ _ _ Hi i b Hb) as (_ & _ & _ & _ & _ & [H6 _] & _).
  specialize (H6 o v x Hin). assert (forall k, ~ departed w k) as Hnone.
  { intros k (c & Hc & Hg). unfold gone in Hg. by rewrite (Hended k c Hc) in Hg. }
  destruct o as [k|], x; simpl in H6; try done; [by split; [|exists k]|by destruct (Hnone k)|].
  destruct (Hnone O). apply H6, (i_nc _ _ _ Hi).
Qed.

Lemma ended_in id l : ins w !! id = Some l -> accepted l = from id (routed w).
Proof.
  intros Hl. pose proof (lookup_lt_Some _ _ _ Hl) as Hlt. destruct (i_np _ _ _ Hi) as (L1 & L2 & L3).
  destruct (lookup_lt_is_Some_2 (producers w) id ltac:(lia)) as [p Hp].
  destruct (hub_producer_ring w qi qo id p Hi Hp) as (l' & q & b & Hl' & Hq & Hb & _ & Ha). simplify_eq.
  by rewrite (Hclean _ b Hb) in Ha.
Qed.

Lemma ended_out i k b :
  brokers w !! i = Some b -> (k < nc)%nat -> from (i * nc + k) (got w) = placed k (fates b).
Proof.
  intros Hb Hk. pose proof (lookup_lt_Some _ _ _ Hb) as Hlt. rewrite (proj1 (i_nb _ _ _ Hi)) in Hlt.
  destruct (lookup_lt_is_Some_2 (consumers w) k) as [c Hc]; [by rewrite (proj1 (i_nc _ _ _ Hi))|].
  destruct (consumer_ring w qi qo k c i Hi Hc Hlt) as (l & q & b' & Hl & Hq & Hb' & _ & Ha & lost & Hlo & Hlost).
  simplify_eq. rewrite <- Ha, Hlo. destruct (i_cons _ _ _ Hi k c Hc) as (_ & _ & _ & Hfin).
  pose proof (Hended k c Hc) as Hpc. rewrite Hpc in Hfin. destruct (Hfin i Hlt) as [Hq' _].
  rewrite (Hlost ltac:(unfold gone; by rewrite Hpc)), Hq in *. injection Hq' as ->. by rewrite app_nil_r.
Qed.

Lemma ended_partition :
  single p0 = true -> mjoin (received <$> consumers w) ≡ₚ mjoin (accepted <$> ins w).
Proof.
  intros Hsg. destruct (i_np _ _ _ Hi) as (L1 & L2 & L3).
  rewrite <- (fmap_seq_lookup (fun i => by_consumer i (got w)) received).
  2:{ intros i c Hc. by destruct (i_cons _ _ _ Hi i c Hc) as (_ & _ & -> & _). }
  rewrite <- (fmap_seq_lookup (fun i => from i (routed w)) accepted) by (intros id l Hl; symmetry; by apply ended_in).
  rewrite L1, (proj1 (i_nc _ _ _ Hi)). unfold by_consumer at 1, from at 1.
  rewrite (buckets (fun x : nat * nat * T => x.1.2) snd) by (intros [[id j] v] Hin%(i_got _ _ _ Hi); simpl; lia).
  rewrite (buckets (fun x : nat * nat * T => x.1.1) snd) by (intros [[id j] v] Hin%(i_routed _ _ _ Hi); simpl; lia).
  rewrite <- (buckets (fun x : nat * nat * T => x.1.1) snd (nb * nc)) by (intros [[id j] v] Hin%(i_got _ _ _ Hi); simpl; lia).
  rewrite <- (buckets (fun x : nat * nat * T => x.1.2) snd nb (routed w))
    by (intros [[id j] v] Hin%(i_routed _ _ _ Hi); simpl; lia).
  rewrite (rows _ nb).
  assert (forall l : list nat, (forall i, i ∈ l -> (i < nb)%nat) ->
    mjoin ((fun i => mjoin ((fun k => from (i * nc + k) (got w)) <$> seq 0 nc)) <$> l) ≡ₚ
    mjoin ((fun i => by_consumer i (routed w)) <$> l)) as Hrow.
  { intros l. induction l as [|i l IH]; intros Hl; [done|]. cbn [fmap list_fmap].
    change (mjoin (?x :: ?y)) with (x ++ mjoin y). rewrite IH by (intros j Hj; apply Hl; by right). f_equiv.
    destruct (lookup_lt_is_Some_2 (brokers w) i) as [b Hb]; [rewrite (proj1 (i_nb _ _ _ Hi)); apply Hl; by left|].
    replace ((fun k => from (i * nc + k) (got w)) <$> seq 0 nc) with ((fun k => placed k (fates b)) <$> seq 0 nc).
    2:{ apply list_fmap_ext. intros j k Hk%lookup_seq. symmetry. apply ended_out; [done|lia]. }
    rewrite fates_partition by (intros o v x; by eapply ended_fates).
    destruct (i_broker _ _ _ Hi i b Hb) as (_ & _ & _ & _ & H5 & _). unfold serving in H5. rewrite (Hclean i b Hb) in H5.
    by destruct (serves_single _ _ _ _ _ _ _ _ _ H5 Hsg) as [-> _]. }
  apply Hrow. intros i Hin%elem_of_seq. lia.
Qed.
End ended.

End invariant.

(** ** Correctness *)

Section correct.
Context {T C St : Type} `{!SpscBackend T C} `{!SpscLaws T C}.
Context (route subscribe : St -> T -> Z -> option (Z * St)) (clone : T -> T).

(** A cursor is a [usize]. *)
Definition valid_policy (p : Policy St) : Prop := match p with RoundRobin cur => 0 <= cur | _ => True end.

Lemma hub_reachable np nc nbrokers cap p (w0 w : World T C St) :
  valid_policy p -> open np nc nbrokers cap p = OK w0 -> reachable route subscribe clone w0 w ->
  exists qi qo, inv route subscribe clone np (Nat.min nbrokers np) nc (prepare p nc) w qi qo.
Proof.
  intros Hp. unfold open. destruct (Nat.leb_spec 1 np); [|done]. destruct (Nat.leb_spec 1 nc); [|done]. simpl.
  destruct (Nat.eqb_spec (Nat.min nbrokers np) 0) as [|Hnb]; [done|].
  destruct (open_links np cap) as [li| |] eqn:E1; try done. simpl.
  destruct (open_links (Nat.min nbrokers np * nc) cap) as [lo| |] eqn:E2; try done. simpl. intros [= <-] Hr.
  eapply hub_inv; [|exact Hr]. apply (inv_opened_hub _ _ _ _ _ _ _ li lo cap); try lia; try done.
  by destruct p.
Qed.

(** The values that entered [deliver] and are not decided yet are at most the
    last one. *)
Definition delivering (b : Broker T St) : bool := match b_pc b with Deliver _ _ _ _ _ => true | _ => false end.

(** C10: brokered delivery implements its policy. In every interleaving of
    producers, brokers and consumers, over any storage that keeps its contract and
    for any closures: no access panics or is undefined behaviour (a closure that
    panics unwinds its broker); what a broker has decided is what its policy gives,
    in order, for the values it took, up to the one it is delivering. By round robin
    a value goes to the first consumer from the
    policy's cursor that takes it, the consumers passed over were gone or refused it,
    the cursor ends behind the last one tried, and a value is dropped only after a
    pass that found every consumer gone; by route it goes to the closure's answer
    modulo the consumers; by pub-sub to the members of the closure's mask in ascending
    order, clones first and the original last. A decided value was pushed unless its
    consumer (all of them, for round robin) had left, and a consumer that a turn found
    gone is gone. Every ring to a consumer carries exactly the values placed for it, a
    live consumer has received a prefix of them in order, and every ring of a producer
    is taken in order. *)
Theorem brokered_refines_policy np nc nbrokers cap p (w0 w : World T C St) :
  valid_policy p -> open np nc nbrokers cap p = OK w0 -> reachable route subscribe clone w0 w ->
  (forall e r, step route subscribe clone w e = Some r -> exists w', r = OK w') /\
  (forall i b, brokers w !! i = Some b -> exists vs ts plan p',
    serves route subscribe clone nc (prepare p nc) vs ts plan p' /\
    (fst <$> fates b) `prefix_of` plan /\ (delivering b = false -> plan = fst <$> fates b) /\
    ((by_consumer i (routed w) = vs /\ tries b = ts /\ policy b = p') \/
     (exists v cur cur' old pass next, by_consumer i (routed w) = vs ++ [v] /\ delivering b = true /\
       plan = fst <$> fates b /\ p' = RoundRobin cur /\ policy b = RoundRobin cur' /\
       tries b = ts ++ mjoin old ++ pass /\ Forall (waited nc) old /\
       Forall (fun x => x.2 <> Took) pass /\ (length pass <= nc)%nat /\
       visited nc cur ((fst <$> mjoin old ++ pass) ++ option_list next) cur'))) /\
  (forall i b o v x, brokers w !! i = Some b -> (o, v, x) ∈ fates b ->
    match o, x with
    | Some k, true => (k < nc)%nat
    | Some k, false => departed w k
    | None, true => False
    | None, false => forall k, (k < nc)%nat -> departed w k
    end) /\
  (forall i b k, brokers w !! i = Some b -> (k, Departed) ∈ tries b -> departed w k) /\
  (forall id l b c, outs w !! id = Some l -> brokers w !! (id / nc)%nat = Some b ->
    consumers w !! (id mod nc)%nat = Some c ->
    accepted l = placed (id mod nc) (fates b) /\
    (gone c = false -> exists q, bk_repr (transport l) q (exited b) false /\ accepted l = from id (got w) ++ q)) /\
  (forall i c, consumers w !! i = Some c -> received c = by_consumer i (got w)) /\
  (forall id l b, ins w !! id = Some l -> brokers w !! (id mod Nat.min nbrokers np)%nat = Some b ->
    exists rest, accepted l = from id (routed w) ++ rest).
Proof.
  intros Hp Ho Hr. destruct (hub_reachable np nc nbrokers cap p w0 w Hp Ho Hr) as (qi & qo & Hi). splits.
  - intros e r Hs. destruct (hub_step_ok _ _ _ _ _ _ _ w qi qo e Hi r Hs) as (w' & _ & _ & ? & _). by exists w'.
  - intros i b Hb. destruct (i_broker _ _ _ _ _ _ _ _ _ _ Hi i b Hb) as (_ & _ & _ & _ & H5 & _).
    unfold serving, delivering in *.
    destruct (b_pc b) as [| | |f idx m rest [k v ch more|v t g ch]| |];
      try (eexists _, _, _, _; split; [exact H5|]; split; [done|]; split; [done|]; by left).
    + destruct H5 as [H5 _]. eexists _, _, _, _. split; [exact H5|]. split; [by eexists|]. split; [done|]. by left.
    + destruct H5 as [(vs & ts & cur & cur' & old & pass & E & Hs & Hpol & _ & Ht & Ho1 & Ho2 & Hv & Hl & _) _].
      exists vs, ts, (fst <$> fates b), (RoundRobin cur). split; [done|]. split; [done|]. split; [done|]. right.
      exists v, cur, cur', old, pass, ch. splits.
  - intros i b o v x Hb Hin. destruct (i_broker _ _ _ _ _ _ _ _ _ _ Hi i b Hb) as (_ & _ & _ & _ & _ & [H6 _] & _).
    exact (H6 o v x Hin).
  - intros i b k Hb Hin. destruct (i_broker _ _ _ _ _ _ _ _ _ _ Hi i b Hb) as (_ & _ & _ & _ & _ & [_ H6] & _).
    by apply H6.
  - intros id l b c Hl Hb Hc. pose proof (lookup_lt_Some _ _ _ Hl) as Hlt.
    destruct (i_no _ _ _ _ _ _ _ _ _ _ Hi) as [L1 L2].
    destruct (lookup_lt_is_Some_2 qo id ltac:(lia)) as [q Hq].
    destruct (i_out _ _ _ _ _ _ _ _ _ _ Hi id l q b c Hl Hq Hb Hc) as (H1 & H2 & lost & H3 & H4). split; [done|].
    intros Hg. rewrite Hg in H1. specialize (H4 Hg). subst lost. by exists q.
  - intros i c Hc. by destruct (i_cons _ _ _ _ _ _ _ _ _ _ Hi i c Hc) as (_ & _ & ? & _).
  - intros id l b Hl Hb. pose proof (lookup_lt_Some _ _ _ Hl) as Hlt.
    destruct (i_np _ _ _ _ _ _ _ _ _ _ Hi) as (L1 & L2 & L3).
    destruct (lookup_lt_is_Some_2 qi id ltac:(lia)) as [q Hq].
    destruct (lookup_lt_is_Some_2 (producers w) id ltac:(lia)) as [x Hx].
    destruct (i_in _ _ _ _ _ _ _ _ _ _ Hi id l q x b Hl Hq Hx Hb) as [_ Ha].
    destruct (b_pc b) as [| | | | |[]]; [by eexists..| |done]. exists []. by rewrite app_nil_r.
Qed.

(** C11: a brokered channel delivers everything before it ends. When every
    broker has returned and every consumer was told the end, all producers are
    gone, every accepted value went through its broker in order, and each consumer
    received from each broker exactly the values that the policy planned for it; by
    round robin and route the consumers together received exactly the accepted
    values, each once. *)
Theorem brokered_end_to_end np nc nbrokers cap p (w0 w : World T C St) :
  valid_policy p -> open np nc nbrokers cap p = OK w0 -> reachable route subscribe clone w0 w ->
  (forall i b, brokers w !! i = Some b -> b_pc b = Exited true) ->
  (forall i c, consumers w !! i = Some c -> c_pc c = CIdle true) ->
  live_producers w = 0 /\
  (forall id l, ins w !! id = Some l -> accepted l = from id (routed w)) /\
  (forall i b, brokers w !! i = Some b -> exists plan p',
    serves route subscribe clone nc (prepare p nc) (by_consumer i (routed w)) (tries b) plan p' /\
    forall k, (k < nc)%nat -> from (i * nc + k) (got w) = targeted k plan) /\
  (forall i c, consumers w !! i = Some c -> received c = by_consumer i (got w)) /\
  (single p = true -> mjoin (received <$> consumers w) ≡ₚ mjoin (accepted <$> ins w)).
Proof.
  intros Hp Ho Hr Hcl Hend. destruct (hub_reachable np nc nbrokers cap p w0 w Hp Ho Hr) as (qi & qo & Hi). splits.
  - destruct (i_nb _ _ _ _ _ _ _ _ _ _ Hi) as [L Hpos].
    destruct (lookup_lt_is_Some_2 (brokers w) 0 ltac:(lia)) as [b Hb].
    destruct (i_broker _ _ _ _ _ _ _ _ _ _ Hi 0%nat b Hb) as (_ & _ & _ & _ & _ & _ & H7).
    unfold final_ok in H7. by rewrite (Hcl _ b Hb) in H7.
  - by eapply ended_in.
  - intros i b Hb. destruct (i_broker _ _ _ _ _ _ _ _ _ _ Hi i b Hb) as (_ & _ & _ & _ & H5 & _).
    unfold serving in H5. rewrite (Hcl i b Hb) in H5. eexists _, _. split; [exact H5|]. intros k Hk.
    rewrite (ended_out _ _ _ _ _ _ _ w qi qo Hi Hend i k b Hb Hk). apply placed_all.
    intros o v x Hin. by eapply ended_fates.
  - intros i c Hc. by destruct (i_cons _ _ _ _ _ _ _ _ _ _ Hi i c Hc) as (_ & _ & ? & _).
  - intros Hsg. eapply ended_partition; try done. by destruct p.
Qed.
End correct.

(** ** Executions

    Ring storage, two producers, two brokers, two consumers. *)

Abbreviation hub_world := (World nat (ring.Chan nat) unit).

(** Odd values go to the second consumer, even ones to both. *)
Definition by_parity : unit -> nat -> Z -> option (Z * unit) :=
  fun _ v n => Some (if Nat.even v then all n else one 1, tt).

Definition hub_open (p : Policy unit) : outcome hub_world :=
  open (SpscBackend0 := ring.ring_backend 8) 2 2 3 4 p.

Definition hub_run (p : Policy unit) (es : list (event nat)) : option hub_world :=
  match hub_open p with
  | OK w => run (SpscBackend0 := ring.ring_backend 8) by_parity by_parity (fun v => v) w es
  | _ => None
  end.

Definition broker_steps (i n : nat) : list (event nat) := replicate n (EBroker i BStep).
Definition receive (i n : nat) : list (event nat) := ECons i CRecv :: replicate n (ECons i CStep).

Definition three_values : list (event nat) :=
  [EProd 0 (PTrySend 4%nat); EProd 1 (PTrySend 7%nat); EProd 0 (PTrySend 9%nat);
   EProd 0 PDrop; EProd 1 PDrop; EBroker 0 BRun; EBroker 1 BRun].

Lemma hub_run_reaches (p : Policy unit) es (f : hub_world -> Prop) :
  match hub_run p es with Some w => f w | None => False end ->
  exists w0 w, hub_open p = OK w0 /\
    reachable (SpscBackend0 := ring.ring_backend 8) by_parity by_parity (fun v => v) w0 w /\ f w.
Proof.
  unfold hub_run. destruct (hub_open p) as [w0| |]; try done.
  assert (forall w es w', reachable (SpscBackend0 := ring.ring_backend 8) by_parity by_parity (fun v => v) w0 w ->
    run (SpscBackend0 := ring.ring_backend 8) by_parity by_parity (fun v => v) w es = Some w' ->
    reachable (SpscBackend0 := ring.ring_backend 8) by_parity by_parity (fun v => v) w0 w') as Hrun.
  { intros w es'. revert w. induction es' as [|e es' IH]; intros w w' Hr; cbn [run]; [by intros [= <-]|].
    destruct (step _ _ _ w e) as [[w1| |]|] eqn:E; try done. apply IH. by econstructor. }
  destruct (run _ _ _ w0 es) as [w|] eqn:E; [|done]. intros Hf. exists w0, w. splits.
  eapply Hrun; [constructor|exact E].
Qed.

(** Round robin when the first consumer leaves after the first value: the third
    value finds it gone and goes to the second consumer. *)
Definition one_leaves : list (event nat) :=
  [EProd 0 (PTrySend 4%nat); EProd 0 (PTrySend 9%nat); EProd 0 (PTrySend 5%nat); EBroker 0 BRun] ++
  broker_steps 0 5 ++ [ECons 0 CDrop] ++ broker_steps 0 9.

Lemma brokered_refines_policy_witness :
  exists (w : hub_world) b, brokers w !! 0%nat = Some b /\
    tries b = [(0%nat, Took); (1%nat, Took); (0%nat, Departed); (1%nat, Took)] /\ departed w 0 /\
    serves by_parity by_parity (fun v => v) 2 (RoundRobin 0) [4; 9; 5]%nat (tries b)
      [(Some 0, 4); (Some 1, 9); (Some 1, 5)]%nat (RoundRobin 2).
Proof.
  destruct (hub_run_reaches (RoundRobin 0) one_leaves (fun w =>
      ((fun b => (fates b, tries b, policy b, delivering b)) <$> brokers w !! 0%nat) =
        Some ([(Some 0%nat, 4%nat, true); (Some 1%nat, 9%nat, true); (Some 1%nat, 5%nat, true)],
          [(0%nat, Took); (1%nat, Took); (0%nat, Departed); (1%nat, Took)], RoundRobin 2, false) /\
      by_consumer 0 (routed w) = [4; 9; 5]%nat))
    as (w0 & w & Ho & Hr & Hf & Hby); [vm_compute; split; reflexivity|].
  destruct (brokers w !! 0%nat) as [b|] eqn:Hb; [|discriminate Hf]. injection Hf as Hf Ht Hp Hd.
  exists w, b. split; [exact Hb|]. split; [exact Ht|].
  destruct (brokered_refines_policy (SpscLaws0 := ring.ring_laws 8) by_parity by_parity (fun v => v) 2 2 3 4
    (RoundRobin 0) w0 w ltac:(simpl; lia) Ho Hr) as (_ & Hplan & _ & Hgone & _).
  split; [apply (Hgone 0%nat b 0%nat Hb); rewrite Ht; right; right; left|].
  destruct (Hplan 0%nat b Hb) as (vs & ts & plan & p' & Hs & _ & Hpl & [(Hv & Hts & Hp')|Hlook]).
  - rewrite (Hpl Hd), Hf, <- Hv, <- Hts, <- Hp', Hby, Hp in Hs. exact Hs.
  - destruct Hlook as (? & ? & ? & ? & ? & ? & _ & Hd' & _). rewrite Hd in Hd'. discriminate Hd'.
Defined.

(** A whole round-robin run: both brokers return, both consumers are told the
    end, and between them they have the three values. *)
Lemma brokered_end_to_end_witness :
  exists w : hub_world, received <$> consumers w = [[4; 7]; [9]]%nat /\ live_producers w = 0 /\
    mjoin (received <$> consumers w) ≡ₚ mjoin (accepted <$> ins w).
Proof.
  destruct (hub_run_reaches (RoundRobin 0) (three_values ++ broker_steps 0 16 ++ broker_steps 1 13 ++
      receive 0 1 ++ receive 0 1 ++ receive 0 6 ++ receive 1 1 ++ receive 1 6) (fun w =>
      received <$> consumers w = [[4; 7]; [9]]%nat /\ c_pc <$> consumers w = [CIdle true; CIdle true] /\
      b_pc <$> brokers w = [Exited true; Exited true]))
    as (w0 & w & Ho & Hr & Hrc & Hc & Hb); [vm_compute; repeat split; reflexivity|].
  exists w. split; [exact Hrc|].
  destruct (brokered_end_to_end (SpscLaws0 := ring.ring_laws 8) by_parity by_parity (fun v => v) 2 2 3 4
    (RoundRobin 0) w0 w ltac:(simpl; lia) Ho Hr) as (Hl & _ & _ & _ & Hp).
  - intros i b Hi. destruct (brokers w) as [|b0 [|b1 [|]]]; try discriminate Hb. injection Hb as H0 H1.
    destruct i as [|[|i]]; simpl in Hi; [| |discriminate Hi]; injection Hi as <-; assumption.
  - intros i c Hi. destruct (consumers w) as [|c0 [|c1 [|]]]; try discriminate Hc. injection Hc as H0 H1.
    destruct i as [|[|i]]; simpl in Hi; [| |discriminate Hi]; injection Hi as <-; assumption.
  - split; [exact Hl|]. apply Hp. reflexivity.
Defined.
End brokered.
