(* ===== verification/Park.v ===== *)
(** * Wait kernels: [src/src/park/]

    The four kernels that a blocking receiver can select have one contract: one
    waiter that arms, rechecks and parks, and any number of notifiers that publish
    and wake. [EventCount] is that contract's code, one shared access per step;
    [EventCountLaws] is what the receive loop relies on. The second part runs the
    loop of [Receiver::recv] against any number of senders over any kernel, without
    the 50 microsecond timeouts: one shard read per step of the recheck, which
    looks at the working set only; senders that publish any number of values before
    they wake, each store sitting in the sender's store buffer for as long as it
    likes; producers that leave and new ones that register in the inbox. It shows
    that a sleeping receiver always has a wake on its way when an announced value
    waits in its working set or when the last sender left. A value whose store
    drains after its sender's wake looked at the flag, or whose shard is still in
    the inbox, is not covered: the timeouts are what recovers those. The flag's own
    accesses are in sequentially consistent memory.
    The third part is the kernels: [condvar.rs], [hybrid.rs], [std_thread.rs] and
    [spin.rs]. The mutex and condition variable of the [parking_lot] crate are a
    parameter ([CondLock]); thread parking is the standard library's token. *)

From stdpp Require Import prelude gmap.
From S2P Require Import Prelude Staged.

Module park.

(** ** The contract *)

(** [S] is the shared state, [W] a position inside [park], [N] one inside [wake].
    A step of [park] or [wake] is [None] while it cannot run; [Some (s, None)]
    when the call returns. [ec_park] takes the calling thread. *)
Class EventCount (S W N : Type) := {
  ec_new : S;
  ec_arm : S -> S;
  ec_disarm : S -> S;
  ec_park : nat -> W;
  ec_park_step : S -> W -> option (S * option W);
  ec_asleep : S -> W -> bool;
  ec_wake : N;
  ec_wake_step : S -> N -> option (S * option N)
}.

(** Some notifier is at a position with [P]. *)
Definition busy {N} (P : N -> bool) (ns : list (option N)) : Prop :=
  exists i n, ns !! i = Some (Some n) /\ P n = true.

Class EventCountLaws (S W N : Type) `{EventCount S W N} := {
  (** The armed flag, and the notifiers that have not cleared it yet. *)
  ec_flag : S -> bool;
  ec_uncleared : N -> bool;
  (** The steps a wake still takes at most. *)
  ec_cost : N -> nat;
  (** The kernel's own invariant, over the waiter's position and the notifiers'. *)
  ec_inv : S -> option W -> list (option N) -> Prop;
  ec_new_law : forall n, ec_inv ec_new None (replicate n None);
  ec_arm_law : forall s ns, ec_inv s None ns -> ec_inv (ec_arm s) None ns /\ ec_flag (ec_arm s) = true;
  ec_disarm_law : forall s ns, ec_inv s None ns -> ec_inv (ec_disarm s) None ns;
  ec_enter_law : forall s t ns, ec_inv s None ns -> ec_inv s (Some (ec_park t)) ns;
  ec_park_law : forall s w s' o ns, ec_inv s (Some w) ns -> ec_park_step s w = Some (s', o) ->
    ec_inv s' o ns /\ ec_flag s' = ec_flag s;
  ec_begin_law : forall s ow ns i, ec_inv s ow ns -> ns !! i = Some None ->
    ec_inv s ow (<[i := Some ec_wake]> ns);
  ec_fresh_law : ec_uncleared ec_wake = true;
  ec_wake_law : forall s ow ns i n s' o, ec_inv s ow ns -> ns !! i = Some (Some n) ->
    ec_wake_step s n = Some (s', o) ->
    ec_inv s' ow (<[i := o]> ns) /\
    (ec_flag s' = false \/
     (ec_flag s' = ec_flag s /\ (ec_uncleared n = true -> exists n', o = Some n' /\ ec_uncleared n' = true))) /\
    (forall n', o = Some n' -> (ec_cost n' < ec_cost n)%nat);
  (** A sleeping waiter that nobody is about to wake is still armed. *)
  ec_asleep_law : forall s w ns, ec_inv s (Some w) ns -> ec_asleep s w = true ->
    (forall i o, ns !! i = Some o -> o = None) -> ec_flag s = true;
  (** Nobody waits for ever for a lock: if somebody is inside, somebody can go on;
      a waiter that is not asleep too. *)
  ec_progress_law : forall s ow ns, ec_inv s ow ns ->
    ((exists i n, ns !! i = Some (Some n)) \/ (exists w, ow = Some w /\ ec_asleep s w = false)) ->
    (exists i n, ns !! i = Some (Some n) /\ is_Some (ec_wake_step s n)) \/
    (exists w, ow = Some w /\ ec_asleep s w = false /\ is_Some (ec_park_step s w));
  (** The positions of a wake cost something. *)
  ec_cost_law : forall n, (0 < ec_cost n)%nat
}.

(** ** The receive loop against its senders *)

(** [Polling] is inside [try_recv]; with [true] it is the final sweep of a
    disconnected channel. [Rechecking k] is about to read shard [k]. *)
Inductive mode W : Type :=
| Polling (last : bool)
| Checking
| Arming
| Rechecking (k : nat)
| Parked (w : W)
| Disarming
| Ended.
Arguments Polling {W} last.
Arguments Checking {W}.
Arguments Arming {W}.
Arguments Rechecking {W} k.
Arguments Parked {W} w.
Arguments Disarming {W}.
Arguments Ended {W}.

(** A sender and its shard: the values still in its store buffer, those visible to
    the receiver, those the receiver has taken, and those that were visible when
    the sender last called [wake]; whether the shard is in the receiver's working
    set (or still in the inbox); whether the sender is alive, and its position in
    [wake]. *)
Record sender N := mkSender {
  buffered : nat;
  visible : nat;
  taken : nat;
  announced : nat;
  listed : bool;
  alive : bool;
  waking : option N
}.
Arguments mkSender {N} buffered visible taken announced listed alive waking.
Arguments buffered {N} s.
Arguments visible {N} s.
Arguments taken {N} s.
Arguments announced {N} s.
Arguments listed {N} s.
Arguments alive {N} s.
Arguments waking {N} s.

Record loop S W N := mkLoop {
  shared : S;
  receiver : mode W;
  senders : list (sender N)
}.
Arguments mkLoop {S W N} shared receiver senders.
Arguments shared {S W N} l.
Arguments receiver {S W N} l.
Arguments senders {S W N} l.

(** What a step of [try_recv] does: take a value of shard [k], take shard [k] over
    from the inbox, put a finished shard away, or return without a value. *)
Inductive look : Type := Take (k : nat) | List (k : nat) | Dispose (k : nat) | Miss.

Inductive event : Type :=
| ERecv (thread : nat) (what : look)
| EPush (i : nat)       (* the value enters the store buffer *)
| EFlush (i : nat)      (* it becomes visible *)
| ENotify (i : nat)     (* the sender calls [wake] *)
| EWake (i : nat)       (* one step of that call *)
| ELeave (i : nat)      (* the sender is dropped *)
| ERegister (i : nat).  (* a registrar makes a new sender, its shard in the inbox *)

Section client.
Context {S W N : Type} `{!EventCount S W N}.
Implicit Types (l : loop S W N) (x : sender N).

Definition ready x : bool := listed x && (taken x <? visible x)%nat.
Definition live (xs : list (sender N)) : bool := existsb alive xs.

(** One step of [try_recv] on shard [k]. *)
Definition look_step (xs : list (sender N)) (what : look) : option (list (sender N)) :=
  match what with
  | Take k =>
      match xs !! k with
      | Some x =>
          if ready x then
            Some (<[k := mkSender (buffered x) (visible x) (Datatypes.S (taken x)) (announced x) (listed x) (alive x) (waking x)]> xs)
          else None
      | None => None
      end
  | List k =>
      match xs !! k with
      | Some x => Some (<[k := mkSender (buffered x) (visible x) (taken x) (announced x) true (alive x) (waking x)]> xs)
      | None => None
      end
  | Dispose k =>
      match xs !! k with
      | Some x =>
          if negb (alive x) && (taken x =? visible x)%nat then
            Some (<[k := mkSender (buffered x) (visible x) (taken x) (announced x) false (alive x) (waking x)]> xs)
          else None
      | None => None
      end
  | Miss => Some xs
  end.

(** One step of [recv]: try, check for the end, arm, recheck the working set shard
    by shard, check for the end again, park, disarm. *)
Definition recv_step l (thread : nat) (what : look) : option (loop S W N) :=
  let '(mkLoop sh r xs) := l in
  match r with
  | Polling b =>
      match look_step xs what with
      | None => None
      | Some xs' =>
          Some (mkLoop sh
            match what with
            | Take _ => Polling false
            | List _ | Dispose _ => Polling b
            | Miss => if b then Ended else Checking
            end xs')
      end
  | Checking => Some (mkLoop sh (if live xs then Arming else Polling true) xs)
  | Arming => Some (mkLoop (ec_arm sh) (Rechecking 0) xs)
  | Rechecking k =>
      match xs !! k with
      | Some x => Some (mkLoop sh (if ready x then Disarming else Rechecking (Datatypes.S k)) xs)
      | None => Some (mkLoop sh (if live xs then Parked (ec_park thread) else Disarming) xs)
      end
  | Parked w =>
      match ec_park_step sh w with
      | None => None
      | Some (sh', Some w') => Some (mkLoop sh' (Parked w') xs)
      | Some (sh', None) => Some (mkLoop sh' Disarming xs)
      end
  | Disarming => Some (mkLoop (ec_disarm sh) (Polling false) xs)
  | Ended => Some (mkLoop sh (Polling false) xs)
  end.

(** One step of a sender at rest. The last one to leave calls [wake]; a store is
    ordered before the decrement by which its sender leaves. *)
Definition sender_step (xs : list (sender N)) (i : nat) (e : event) : option (sender N) :=
  match xs !! i with
  | Some (mkSender b v t a ls al None) =>
      match e with
      | EPush _ => if al then Some (mkSender (Datatypes.S b) v t a ls al None) else None
      | ENotify _ => if al then Some (mkSender b v t v ls al (Some ec_wake)) else None
      | ELeave _ =>
          if al && (b =? 0)%nat then
            Some (mkSender b v t a ls false
              (if live (<[i := mkSender b v t a ls false None]> xs) then None else Some ec_wake))
          else None
      | ERegister _ => if live xs && negb al && negb ls then Some (mkSender 0 0 0 0 false true None) else None
      | _ => None
      end
  | _ => None
  end.

Definition step l (e : event) : option (loop S W N) :=
  let '(mkLoop sh r xs) := l in
  match e with
  | ERecv t what => recv_step l t what
  | EFlush i =>
      match xs !! i with
      | Some (mkSender (Datatypes.S b) v t a ls al n) =>
          Some (mkLoop sh r (<[i := mkSender b (Datatypes.S v) t a ls al n]> xs))
      | _ => None
      end
  | EWake i =>
      match xs !! i with
      | Some (mkSender b v t a ls al (Some n)) =>
          match ec_wake_step sh n with
          | None => None
          | Some (sh', o) => Some (mkLoop sh' r (<[i := mkSender b v t a ls al o]> xs))
          end
      | _ => None
      end
  | EPush i | ENotify i | ELeave i | ERegister i =>
      match sender_step xs i e with
      | Some x => Some (mkLoop sh r (<[i := x]> xs))
      | None => None
      end
  end.

(** Any number of senders, each with its shard in the working set or in the inbox. *)
Definition start (ls : list bool) : loop S W N :=
  mkLoop ec_new (Polling false) ((fun b => mkSender 0 0 0 0 b true None) <$> ls).

Inductive reachable (ls : list bool) : loop S W N -> Prop :=
| reach_start : reachable ls (start ls)
| reach_step l e l' : reachable ls l -> step l e = Some l' -> reachable ls l'.

Fixpoint run l (es : list event) : option (loop S W N) :=
  match es with
  | [] => Some l
  | e :: es' => match step l e with Some l' => run l' es' | None => None end
  end.

(** The receiver sleeps inside its kernel's blocking call. *)
Definition sleeping l : bool := match receiver l with Parked w => ec_asleep (shared l) w | _ => false end.

Definition parked_at l : option W := match receiver l with Parked w => Some w | _ => None end.

(** The receiver has something to do: a value of its working set that its sender
    has announced and it has not taken, or the end of the channel. *)
Definition owed x : bool := listed x && (taken x <? announced x)%nat.
Definition called l : bool := existsb owed (senders l) || negb (live (senders l)).

End client.

(** ** No wake is lost *)

Section busy.
Context {N : Type}.
Implicit Types ns : list (option N).

Lemma busy_insert (P : N -> bool) ns i o n :
  ns !! i = Some o -> P n = true -> busy P (<[i := Some n]> ns).
Proof. intros Hi HP. exists i, n. split; [|done]. apply list_lookup_insert_eq. by eapply lookup_lt_Some. Qed.

(** Another notifier moves. *)
Lemma busy_keep (P : N -> bool) ns i n o :
  ns !! i = Some (Some n) -> busy P ns -> (P n = true -> exists n', o = Some n' /\ P n' = true) ->
  busy P (<[i := o]> ns).
Proof.
  intros Hi (j & m & Hj & HP) Hn. destruct (decide (i = j)) as [<-|Hne].
  - simplify_eq. destruct (Hn HP) as (n' & -> & HP'). by eapply busy_insert.
  - exists j, m. by rewrite list_lookup_insert_ne.
Qed.

Lemma busy_begin (P : N -> bool) ns i n : ns !! i = Some None -> busy P ns -> busy P (<[i := Some n]> ns).
Proof.
  intros Hi (j & m & Hj & HP). exists j, m. rewrite list_lookup_insert_ne; [done|]. intros <-. congruence.
Qed.
End busy.

Section correct.
Context {S W N : Type} `{!EventCount S W N} `{!EventCountLaws S W N}.
Implicit Types (l : loop S W N) (xs : list (sender N)) (x : sender N).

(** The wake steps still to be taken. *)
Definition cost (o : option N) : nat := match o with Some n => ec_cost n | None => O end.
Definition total xs : nat := foldr (fun x k => (cost (waking x) + k)%nat) O xs.

(** The flag is down, or a wake that has not cleared it yet is under way. *)
Definition covered l : Prop :=
  ec_flag (shared l) = false \/ busy ec_uncleared (waking <$> senders l).

(** The shards the current recheck has found empty. *)
Definition scanned (r : mode W) (j : nat) : Prop :=
  match r with Rechecking k => (j < k)%nat | Parked _ => True | _ => False end.

Definition counted x : Prop := (announced x <= visible x)%nat.

Record loop_inv l : Prop := {
  l_kernel : ec_inv (shared l) (parked_at l) (waking <$> senders l);
  l_counts : Forall counted (senders l);
  l_scan j x : scanned (receiver l) j -> senders l !! j = Some x -> owed x = true -> covered l;
  l_end w : receiver l = Parked w -> live (senders l) = false -> covered l
}.

Lemma live_insert xs i x x' : xs !! i = Some x -> alive x' = alive x -> live (<[i := x']> xs) = live xs.
Proof.
  revert i. induction xs as [|y xs IH]; intros [|i] Hi Ha; try done; simpl in *; [simplify_eq; by rewrite Ha|].
  by rewrite (IH i).
Qed.

Lemma waking_insert xs i x x' :
  xs !! i = Some x -> waking x' = waking x -> waking <$> <[i := x']> xs = waking <$> xs.
Proof. intros Hi Hw. rewrite list_fmap_insert, Hw. apply list_insert_id. by rewrite list_lookup_fmap, Hi. Qed.

(** A step that calls nobody and owes the receiver nothing new. *)
Lemma loop_update sh r xs i x x' :
  loop_inv (mkLoop sh r xs) -> xs !! i = Some x -> counted x' -> waking x' = waking x ->
  (owed x' = true -> owed x = true) -> (live (<[i := x']> xs) = false -> live xs = false) ->
  loop_inv (mkLoop sh r (<[i := x']> xs)).
Proof.
  intros [Hk Hc Hs He] Hi Hx Hw Ho Hl. constructor; unfold covered, parked_at in *; simpl in *.
  - by rewrite (waking_insert xs i x).
  - by apply Forall_insert.
  - intros j y Hj Hy Hoy. rewrite (waking_insert xs i x) by done.
    apply list_lookup_insert_Some in Hy as [(<- & <- & _)|[_ Hy]]; [apply (Hs i x); auto|by apply (Hs j y)].
  - intros w Hr Hd. rewrite (waking_insert xs i x) by done. by apply (He w), Hl.
Qed.

(** A step that calls [wake]. *)
Lemma loop_call sh r xs i x x' :
  loop_inv (mkLoop sh r xs) -> xs !! i = Some x -> counted x' -> waking x = None -> waking x' = Some ec_wake ->
  loop_inv (mkLoop sh r (<[i := x']> xs)).
Proof.
  intros [Hk Hc Hs He] Hi Hx Hw Hw'.
  assert ((waking <$> xs) !! i = Some None) as Hn by (rewrite list_lookup_fmap, Hi; simpl; by rewrite Hw).
  assert (covered (mkLoop sh r (<[i := x']> xs))) as Hcov.
  { right. simpl. rewrite list_fmap_insert, Hw'. eapply busy_insert; [done|apply ec_fresh_law]. }
  constructor; try done; simpl in *; [|by apply Forall_insert].
  rewrite list_fmap_insert, Hw'. by apply ec_begin_law.
Qed.

Lemma sender_step_ok sh r xs i e x :
  loop_inv (mkLoop sh r xs) -> sender_step xs i e = Some x -> loop_inv (mkLoop sh r (<[i := x]> xs)).
Proof.
  intros Hi. unfold sender_step. destruct (xs !! i) as [[b v t a ls al [n|]]|] eqn:E; try done.
  pose proof (Forall_lookup_1 _ _ _ _ (l_counts _ Hi) E) as Hc. unfold counted in Hc. simpl in Hc.
  destruct e as [t0 w0|j|j|j|j|j|j]; try done.
  - destruct al; intros [= <-]. eapply loop_update; try done. intros Hl. by erewrite <- live_insert.
  - destruct al; intros [= <-]. eapply loop_call; try done. unfold counted. simpl. lia.
  - destruct (al && (b =? 0)%nat); [|done]. destruct (live _) eqn:El; intros [= <-]; [|by eapply loop_call].
    eapply loop_update; try done. congruence.
  - destruct (live xs) eqn:El; [|done]. destruct al, ls; intros [= <-]. eapply loop_update; try done.
    { unfold counted. simpl. lia. }
    intros Hl. exfalso. unfold live in Hl. apply not_true_iff_false in Hl. apply Hl, existsb_exists.
    eexists. split; [apply list_elem_of_In; by eapply list_elem_of_insert, lookup_lt_Some|done].
Qed.

(** While it polls, nothing has been rechecked yet. *)
Lemma loop_mode sh sh' r r' xs :
  loop_inv (mkLoop sh r xs) -> (forall j, ~ scanned r' j) -> (forall w, r' <> Parked w) ->
  ec_inv sh' None (waking <$> xs) -> loop_inv (mkLoop sh' r' xs).
Proof.
  intros [Hk Hc _ _] Hs Hp Hn. constructor; simpl in *; try done.
  - unfold parked_at. simpl. destruct r'; try done. by destruct (Hp w).
  - intros j x Hj. by destruct (Hs j).
  - intros w Hw. by destruct (Hp w).
Qed.

Lemma look_ok sh b xs what xs' :
  loop_inv (mkLoop sh (Polling b) xs) -> look_step xs what = Some xs' -> loop_inv (mkLoop sh (Polling b) xs').
Proof.
  intros [Hk Hc _ _]. unfold look_step.
  assert (forall k x x', xs !! k = Some x -> counted x' -> waking x' = waking x ->
    loop_inv (mkLoop sh (Polling b) (<[k := x']> xs))) as Hup.
  { intros k x x' Hx Hcx Hw. constructor; try done; unfold parked_at in *; simpl in *; [|by apply Forall_insert].
    by rewrite (waking_insert xs k x). }
  destruct what as [k|k|k|]; [| | |by intros [= <-]]; destruct (xs !! k) as [x|] eqn:E; try done;
    pose proof (Forall_lookup_1 _ _ _ _ Hc E) as Hx; unfold counted in Hx.
  - destruct (ready x); [|done]. intros [= <-]. by apply (Hup k x).
  - intros [= <-]. by apply (Hup k x).
  - destruct (_ && _); [|done]. intros [= <-]. by apply (Hup k x).
Qed.

Lemma loop_recv_ok l t what l' : loop_inv l -> recv_step l t what = Some l' -> loop_inv l'.
Proof.
  intros Hi. pose proof Hi as [Hk Hc Hs He]. destruct l as [sh r xs].
  unfold recv_step, parked_at, covered in *. simpl in *. destruct r as [b| | |k|w| |].
  - destruct (look_step xs what) as [xs'|] eqn:E; [|done]. intros [= <-].
    pose proof (look_ok _ _ _ _ _ Hi E) as Hi'. pose proof (l_kernel _ Hi') as Hk'.
    eapply loop_mode; [exact Hi'|..|exact Hk']; destruct what, b; simpl; auto; done.
  - intros [= <-]. eapply loop_mode; [exact Hi|..|exact Hk]; by destruct (live xs); auto.
  - intros [= <-]. eapply loop_mode; [exact Hi|..]; [simpl; lia|done|by apply ec_arm_law].
  - destruct (xs !! k) as [x|] eqn:E.
    + destruct (ready x) eqn:Er; intros [= <-]; [eapply loop_mode; [exact Hi|by simpl; auto|done|exact Hk]|].
      constructor; try done; unfold covered; simpl. intros j y Hj Hy Ho.
      destruct (decide (j = k)) as [->|Hne]; [|apply (Hs j y); [simpl; lia|done..]]. exfalso. simplify_eq.
      pose proof (Forall_lookup_1 _ _ _ _ Hc E) as Hx. unfold counted, ready, owed in *.
      destruct (listed x); [|done]. simpl in *. apply Nat.ltb_lt in Ho. apply Nat.ltb_ge in Er. lia.
    + destruct (live xs) eqn:El; intros [= <-]; [|eapply loop_mode; [exact Hi|by simpl; auto|done|exact Hk]].
      constructor; try done; unfold covered; simpl; [by apply ec_enter_law| |congruence].
      intros j y _ Hy Ho. apply (Hs j y); [simpl|done..]. apply lookup_lt_Some in Hy.
      apply lookup_ge_None in E. lia.
  - destruct (ec_park_step sh w) as [[sh' o]|] eqn:E; [|done].
    destruct (ec_park_law _ _ _ _ _ Hk E) as [Hk' Hfl].
    destruct o as [w'|]; intros [= <-]; [|eapply loop_mode; [exact Hi|by simpl; auto|done|exact Hk']].
    constructor; try done; unfold covered; simpl; rewrite Hfl; [by intros; eapply Hs|]. intros _ _. by apply (He w).
  - intros [= <-]. eapply loop_mode; [exact Hi|by simpl; auto|done|by apply ec_disarm_law].
  - intros [= <-]. eapply loop_mode; [exact Hi|by simpl; auto|done|exact Hk].
Qed.

Lemma loop_wake_ok sh r xs i b v t a ls al n sh' o :
  loop_inv (mkLoop sh r xs) -> xs !! i = Some (mkSender b v t a ls al (Some n)) ->
  ec_wake_step sh n = Some (sh', o) -> loop_inv (mkLoop sh' r (<[i := mkSender b v t a ls al o]> xs)).
Proof.
  intros [Hk Hc Hs He] E Ew. unfold covered in *. simpl in *.
  assert ((waking <$> xs) !! i = Some (Some n)) as Hn by (by rewrite list_lookup_fmap, E).
  destruct (ec_wake_law _ _ _ _ _ _ _ Hk Hn Ew) as (Hk' & Hfl & _).
  assert (ec_flag sh = false \/ busy ec_uncleared (waking <$> xs) ->
    covered (mkLoop sh' r (<[i := mkSender b v t a ls al o]> xs))) as Hcov.
  { intros Hb. unfold covered. simpl. rewrite list_fmap_insert. destruct Hfl as [?|[-> Hun]]; [by left|].
    destruct Hb as [?|Hb]; [by left|right]. by eapply busy_keep. }
  constructor; simpl.
  - by rewrite list_fmap_insert.
  - apply Forall_insert; [done|]. by apply (Forall_lookup_1 _ _ _ _ Hc E).
  - intros j y Hj Hy Ho. apply Hcov. apply list_lookup_insert_Some in Hy as [(<- & <- & _)|[_ Hy]];
      [by apply (Hs i _ Hj E)|by apply (Hs j y)].
  - intros w Hw Hl. apply Hcov, (He w Hw). by erewrite <- live_insert.
Qed.

Lemma loop_step_ok l e l' : loop_inv l -> step l e = Some l' -> loop_inv l'.
Proof.
  intros Hi. destruct l as [sh r xs]. destruct e as [t what|i|i|i|i|i|i]; [by apply loop_recv_ok|..]; simpl.
  1,3,5,6: destruct (sender_step xs i _) as [x|] eqn:E; [|done]; intros [= <-]; by eapply sender_step_ok.
  - destruct (xs !! i) as [[[|b] v t a ls al n]|] eqn:E; try done. intros [= <-].
    pose proof (Forall_lookup_1 _ _ _ _ (l_counts _ Hi) E) as Hc. unfold counted in Hc. simpl in Hc.
    eapply loop_update; try done; [unfold counted; simpl; lia|]. intros Hl. by erewrite <- live_insert.
  - destruct (xs !! i) as [[b v t a ls al [n|]]|] eqn:E; try done.
    destruct (ec_wake_step sh n) as [[sh' o]|] eqn:Ew; [|done]. intros [= <-]. by eapply loop_wake_ok.
Qed.

Lemma loop_reachable_ok ls l : reachable ls l -> loop_inv l.
Proof.
  induction 1 as [|l e l' _ IH Hs]; [|by eapply loop_step_ok].
  constructor; simpl; try done.
  - rewrite <- list_fmap_compose. replace (_ <$> ls) with (replicate (length ls) (@None N)); [apply ec_new_law|].
    induction ls; simpl; [done|]. by f_equal.
  - apply Forall_fmap, Forall_forall. intros b _. by unfold counted; simpl.
Qed.

Lemma called_covered l w : loop_inv l -> receiver l = Parked w -> called l = true -> covered l.
Proof.
  intros [_ _ Hs He] Hw [Ho|Hl%negb_true_iff]%orb_true_iff; [|by eapply He].
  apply existsb_exists in Ho as (x & Hin%list_elem_of_In & Ho). apply list_elem_of_lookup in Hin as [j Hj].
  eapply Hs; [|done..]. by rewrite Hw.
Qed.

(** Some notifier of the list is inside [wake]. *)
Lemma waking_sender xs i n :
  (waking <$> xs) !! i = Some (Some n) -> exists b v t a ls al, xs !! i = Some (mkSender b v t a ls al (Some n)).
Proof.
  rewrite list_lookup_fmap. destruct (xs !! i) as [[b v t a ls al o]|]; [|done]. intros [= ->].
  by exists b, v, t, a, ls, al.
Qed.

Lemma wake_can_run l i n :
  (waking <$> senders l) !! i = Some (Some n) -> is_Some (ec_wake_step (shared l) n) ->
  exists l', step l (EWake i) = Some l'.
Proof.
  intros (b & v & t & a & ls & al & E)%waking_sender [[sh' o] Hw]. destruct l as [sh r xs]. simpl in *.
  rewrite E, Hw. by eexists.
Qed.

(** Somebody awake can always wake a sleeper that has something to do. *)
Lemma sleeper_wakeable l :
  loop_inv l -> sleeping l = true -> called l = true -> exists i l', step l (EWake i) = Some l'.
Proof.
  intros Hi Hsl Hcal. pose proof (l_kernel _ Hi) as Hk. unfold sleeping, parked_at in *.
  destruct (receiver l) as [| | | |w| |] eqn:Er; try done.
  assert (exists i n, (waking <$> senders l) !! i = Some (Some n)) as Hb.
  { destruct (called_covered l w Hi Er Hcal) as [Hfl|(i & n & Hn & _)]; [|by exists i, n].
    destruct (decide (Exists (fun o => o <> None) (waking <$> senders l))) as [He|He].
    - apply Exists_exists in He as (o & Hin & Ho). apply list_elem_of_lookup in Hin as [i Hx].
      destruct o as [n|]; [by exists i, n|done].
    - exfalso. assert (ec_flag (shared l) = true) as Hup; [|congruence]. apply (ec_asleep_law _ w _ Hk Hsl).
      intros i o Hx. destruct o as [n|]; [|done]. destruct He. apply Exists_exists. exists (Some n). split; [|done].
      by eapply list_elem_of_lookup_2. }
  destruct (ec_progress_law _ (Some w) _ Hk (or_introl Hb)) as [(i & n & Hn & Hw)|(w' & [= <-] & Hw & _)];
    [|congruence].
  exists i. by eapply wake_can_run.
Qed.

Lemma total_insert xs i x x' :
  xs !! i = Some x -> (total (<[i := x']> xs) + cost (waking x) = total xs + cost (waking x'))%nat.
Proof.
  revert i. induction xs as [|y xs IH]; intros [|i] Hi; try done; simpl in *; [simplify_eq; lia|].
  specialize (IH i Hi). lia.
Qed.

Lemma owed_insert xs i x x' :
  xs !! i = Some x -> owed x' = owed x -> existsb owed (<[i := x']> xs) = existsb owed xs.
Proof.
  revert i. induction xs as [|y xs IH]; intros [|i] Hi Ho; try done; simpl in *; [simplify_eq; by rewrite Ho|].
  by rewrite (IH i).
Qed.

Lemma wake_decreases l i l' :
  loop_inv l -> step l (EWake i) = Some l' ->
  (total (senders l') < total (senders l))%nat /\ called l' = called l.
Proof.
  intros [Hk _ _ _]. destruct l as [sh r xs]. simpl in *.
  destruct (xs !! i) as [[b v t a ls al [n|]]|] eqn:E; try done.
  destruct (ec_wake_step sh n) as [[sh' o]|] eqn:Ew; [|done].
  assert ((waking <$> xs) !! i = Some (Some n)) as Hn by (by rewrite list_lookup_fmap, E).
  intros [= <-]. destruct (ec_wake_law _ _ _ _ _ _ _ Hk Hn Ew) as (_ & _ & Hc). simpl. split.
  - pose proof (total_insert xs i _ (mkSender b v t a ls al o) E) as Ht. pose proof (ec_cost_law n). simpl in Ht.
    destruct o as [n'|]; simpl in Ht; [specialize (Hc n' eq_refl)|]; lia.
  - unfold called. simpl. by rewrite (owed_insert xs i _ _ E), (live_insert xs i _ _ E).
Qed.

(** C6: no announced value is slept over, whatever kernel a receiver parks on. In
    every interleaving of the receive loop with any number of senders, without any
    timeout, where a sender publishes any number of values before it wakes and its
    stores drain when they like: while the receiver sleeps and a shard of its
    working set holds a value it has not taken that was visible when its sender
    called [wake], or the last sender has left, some sender's wake can take a step;
    each such step brings the wakes under way closer to their end; and after at
    most as many of them as the wakes still have, the receiver is not asleep any
    more. (A shard still in the inbox, and a value that became visible only after
    its sender's wake began, are left to the timeouts.) *)
Theorem park_no_lost_wake ls l :
  reachable ls l -> sleeping l = true -> called l = true ->
  (exists i l', step l (EWake i) = Some l') /\
  (forall i l', step l (EWake i) = Some l' -> (total (senders l') < total (senders l))%nat) /\
  (forall js l', run l (EWake <$> js) = Some l' -> (total (senders l) <= length js)%nat -> sleeping l' = false).
Proof.
  intros Hr%loop_reachable_ok Hsl Hcal. split; [by apply sleeper_wakeable|]. split; [intros i l'; by apply wake_decreases|].
  intros js. clear Hsl ls. revert l Hr Hcal. induction js as [|i js IH]; intros l Hi Hcal l' Hrun Hlen; simpl in *.
  - injection Hrun as <-. destruct (sleeping l) eqn:E; [|done].
    destruct (sleeper_wakeable l Hi E Hcal) as (i & l2 & Hs). pose proof (wake_decreases l i l2 Hi Hs). lia.
  - destruct (step l (EWake i)) as [l1|] eqn:Hs; [|done].
    destruct (wake_decreases l i l1 Hi Hs) as [Hd Hc].
    apply (IH l1); [by eapply loop_step_ok|congruence|done|lia].
Qed.

(** The receive loop and the senders are never stuck: in every interleaving, unless
    the receiver sleeps with nothing to do and no wake is under way, a step of the
    receiver or of a wake is possible. *)
Lemma park_progress ls l :
  reachable ls l -> (sleeping l = true -> called l = true \/ exists i m, (waking <$> senders l) !! i = Some (Some m)) ->
  exists e l', match e with ERecv _ _ | EWake _ => True | _ => False end /\ step l e = Some l'.
Proof.
  intros Hr%loop_reachable_ok Hb. pose proof (l_kernel _ Hr) as Hk. unfold parked_at in *.
  assert (forall i n, (waking <$> senders l) !! i = Some (Some n) -> is_Some (ec_wake_step (shared l) n) ->
    exists e l', match e with ERecv _ _ | EWake _ => True | _ => False end /\ step l e = Some l') as Hwake.
  { intros i n Hn Hw. destruct (wake_can_run l i n Hn Hw) as [l' Hs]. by exists (EWake i), l'. }
  destruct (sleeping l) eqn:Hsl.
  - destruct (Hb eq_refl) as [Hlt|(i & m & Hm)].
    + destruct (sleeper_wakeable l Hr Hsl Hlt) as (i & l' & Hs). by exists (EWake i), l'.
    + unfold sleeping in *. destruct (receiver l) as [| | | |w| |]; try done.
      destruct (ec_progress_law _ (Some w) _ Hk) as [(j & k & Hn & Hw)|(w' & [= <-] & Hw & _)];
        [left; by exists i, m|by eapply Hwake|congruence].
  - destruct l as [sh r xs]. unfold sleeping in *. simpl in *. destruct r as [b| | |k|w| |].
    1,2,3,6,7: exists (ERecv 0 Miss); simpl; by eexists.
    + exists (ERecv 0 Miss). simpl. destruct (xs !! k); by eexists.
    + destruct (ec_progress_law sh (Some w) _ Hk) as [(j & k & Hn & Hw)|(w' & [= <-] & _ & [[sh' o] Hw])];
        [right; by exists w|by eapply Hwake|exists (ERecv 0 Miss)]; simpl.
      rewrite Hw. destruct o; by eexists.
Qed.
End correct.

(** ** The mutex with its condition variable *)

(** [cl_lock] is [None] while somebody holds the lock; [cl_wait] releases it and
    queues the caller in one step; [cl_return] is the end of the wait, [None]
    while the caller is queued or the lock is taken. *)
Class CondLock (L : Type) := {
  cl_new : L;
  cl_lock : L -> option L;
  cl_unlock : L -> L;
  cl_wait : L -> L;
  cl_return : L -> option L;
  cl_notify_one : L -> L
}.

(** Documented behaviour, for one waiting thread. *)
Class CondLockLaws (L : Type) `{CondLock L} := {
  cl_held : L -> bool;
  cl_queued : L -> bool;
  cl_new_law : cl_held cl_new = false /\ cl_queued cl_new = false;
  cl_lock_law : forall l, if cl_held l then cl_lock l = None
    else exists l', cl_lock l = Some l' /\ cl_held l' = true /\ cl_queued l' = cl_queued l;
  cl_unlock_law : forall l, cl_held l = true ->
    cl_held (cl_unlock l) = false /\ cl_queued (cl_unlock l) = cl_queued l;
  cl_wait_law : forall l, cl_held l = true -> cl_held (cl_wait l) = false /\ cl_queued (cl_wait l) = true;
  cl_return_law : forall l, if cl_held l || cl_queued l then cl_return l = None
    else exists l', cl_return l = Some l' /\ cl_held l' = true /\ cl_queued l' = false;
  cl_notify_law : forall l, cl_held (cl_notify_one l) = cl_held l /\ cl_queued (cl_notify_one l) = false
}.

(** A pair of flags satisfies the laws. *)
#[export] Instance flag_lock : CondLock (bool * bool) := {
  cl_new := (false, false);
  cl_lock l := if l.1 then None else Some (true, l.2);
  cl_unlock l := (false, l.2);
  cl_wait l := (false, true);
  cl_return l := if l.1 || l.2 then None else Some (true, false);
  cl_notify_one l := (l.1, false)
}.
#[export] Instance flag_lock_laws : CondLockLaws (bool * bool).
Proof.
  refine {| cl_held := fst; cl_queued := snd |}; simpl; try done; intros [[] []]; simpl; try done; by eexists.
Defined.

(** The number of holders of a lock, from the waiter's and the notifiers' positions. *)
Section holders.
Context {W N : Type} (hw : W -> bool) (hn : N -> bool).
Definition holds_w (ow : option W) : bool := match ow with Some w => hw w | None => false end.
Definition holds_n (o : option N) : bool := match o with Some n => hn n | None => false end.
Definition held_by (held : bool) (ow : option W) (ns : list (option N)) : Prop :=
  Nat.b2n held = (Nat.b2n (holds_w ow) + tally holds_n ns)%nat.

Lemma held_waiter held ow ow' ns held' :
  held_by held ow ns -> (Nat.b2n held' + Nat.b2n (holds_w ow) = Nat.b2n held + Nat.b2n (holds_w ow'))%nat ->
  held_by held' ow' ns.
Proof. unfold held_by. lia. Qed.

Lemma held_notifier held ow ns i o o' held' :
  held_by held ow ns -> ns !! i = Some o ->
  (Nat.b2n held' + Nat.b2n (holds_n o) = Nat.b2n held + Nat.b2n (holds_n o'))%nat ->
  held_by held' ow (<[i := o']> ns).
Proof. unfold held_by. intros Hh Hi. pose proof (tally_insert holds_n ns i o o' Hi). lia. Qed.

Lemma held_true held w ns : held_by held (Some w) ns -> hw w = true -> held = true.
Proof. unfold held_by. simpl. intros Hh Hw. rewrite Hw in Hh. destruct held; [done|]. simpl in Hh. lia. Qed.

Lemma held_true_n held ow ns i n : held_by held ow ns -> ns !! i = Some (Some n) -> hn n = true -> held = true.
Proof.
  unfold held_by. intros Hh Hi Hn. pose proof (tally_some holds_n ns i (Some n) Hi Hn). destruct held; [done|].
  simpl in Hh. lia.
Qed.

(** The waiter and a notifier do not hold the lock together. *)
Lemma held_excl held w ns i n :
  held_by held (Some w) ns -> hw w = true -> ns !! i = Some (Some n) -> hn n = true -> False.
Proof.
  unfold held_by. simpl. intros Hh Hw Hi Hn. rewrite Hw in Hh. pose proof (tally_some holds_n ns i (Some n) Hi Hn).
  destruct held; simpl in Hh; lia.
Qed.

(** A held lock has a holder. *)
Lemma held_owner ow ns :
  held_by true ow ns -> (exists w, ow = Some w /\ hw w = true) \/ (exists i n, ns !! i = Some (Some n) /\ hn n = true).
Proof.
  unfold held_by. intros Hh. destruct ow as [w|]; simpl in Hh.
  - destruct (hw w) eqn:E; [left; by exists w|]. right. destruct (tally_exists holds_n ns) as (i & [n|] & Hi & Hn);
      [simpl in Hh; lia|by exists i, n|done].
  - right. destruct (tally_exists holds_n ns) as (i & [n|] & Hi & Hn); [lia|by exists i, n|done].
Qed.

Lemma held_none n : held_by false None (replicate n None).
Proof.
  unfold held_by. simpl. destruct (tally holds_n (replicate n None)) eqn:E; [done|].
  destruct (tally_exists holds_n (replicate n None)) as (i & o & [-> _]%lookup_replicate & Ho); [lia|done].
Qed.
End holders.

(** ** [condvar.rs] *)

Module condvar.
Record condvar_inner L := mk_condvar { parked : bool; m : L }.
Arguments mk_condvar {L} parked m.
Arguments parked {L} _.
Arguments m {L} _.

(** [VSleep] has seen the flag up and is about to wait; [VWait] is inside. *)
Inductive park_pc : Type := VLock | VCheck | VSleep | VWait | VUnlock.
Inductive wake_pc : Type := XLoad | XLock | XStore | XNotify | XUnlock.

Section code.
Context {L : Type} `{!CondLock L}.
Implicit Types s : condvar_inner L.

Definition condvar_park s (w : park_pc) : option (condvar_inner L * option park_pc) :=
  match w with
  | VLock => match cl_lock (m s) with None => None | Some l => Some (mk_condvar (parked s) l, Some VCheck) end
  | VCheck => Some (s, Some (if parked s then VSleep else VUnlock))
  | VSleep => Some (mk_condvar (parked s) (cl_wait (m s)), Some VWait)
  | VWait => match cl_return (m s) with None => None | Some l => Some (mk_condvar (parked s) l, Some VUnlock) end
  | VUnlock => Some (mk_condvar (parked s) (cl_unlock (m s)), None)
  end.

Definition condvar_wake s (n : wake_pc) : option (condvar_inner L * option wake_pc) :=
  match n with
  | XLoad => Some (s, if parked s then Some XLock else None)
  | XLock => match cl_lock (m s) with None => None | Some l => Some (mk_condvar (parked s) l, Some XStore) end
  | XStore => Some (mk_condvar false (m s), Some XNotify)
  | XNotify => Some (mk_condvar (parked s) (cl_notify_one (m s)), Some XUnlock)
  | XUnlock => Some (mk_condvar (parked s) (cl_unlock (m s)), None)
  end.
End code.

Definition condvar_holding (w : park_pc) : bool := match w with VCheck | VSleep | VUnlock => true | _ => false end.
Definition condvar_wake_holding (n : wake_pc) : bool := match n with XStore | XNotify | XUnlock => true | _ => false end.
Definition notifying (n : wake_pc) : bool := match n with XNotify => true | _ => false end.

#[export] Instance condvar_kernel {L} `{!CondLock L} `{!CondLockLaws L} : EventCount (condvar_inner L) park_pc wake_pc := {
  ec_new := mk_condvar false cl_new;
  ec_arm s := mk_condvar true (m s);
  ec_disarm s := mk_condvar false (m s);
  ec_park _ := VLock;
  ec_park_step := condvar_park;
  ec_asleep s w := match w with VWait => cl_queued (m s) | _ => false end;
  ec_wake := XLoad;
  ec_wake_step := condvar_wake
}.

Section laws.
Context {L : Type} `{!CondLock L} `{!CondLockLaws L}.

Record condvar_inv (s : condvar_inner L) (ow : option park_pc) (ns : list (option wake_pc)) : Prop := {
  k_lock : held_by condvar_holding condvar_wake_holding (cl_held (m s)) ow ns;
  k_sleep : ow = Some VSleep -> parked s = true;
  k_wait : ow = Some VWait -> cl_queued (m s) = true -> parked s = true \/ busy notifying ns
}.

Lemma cv_park_ok s w s' o ns :
  condvar_inv s (Some w) ns -> condvar_park s w = Some (s', o) -> condvar_inv s' o ns /\ parked s' = parked s.
Proof.
  intros [H1 H2 H3]. destruct w; simpl.
  - pose proof (cl_lock_law (m s)) as Hl. destruct (cl_held (m s)) eqn:E; [by rewrite Hl|].
    destruct Hl as (l' & -> & Hh & Hq). intros [= <- <-]. split; [|done]. constructor; simpl; try done.
    rewrite Hh. by eapply held_waiter.
  - intros [= <- <-]. split; [|done]. constructor; destruct (parked s) eqn:E; try done; by eapply held_waiter.
  - intros [= <- <-]. split; [|done]. pose proof (held_true _ _ _ _ _ H1 eq_refl) as Hh.
    destruct (cl_wait_law (m s) Hh) as [Hh' Hq]. constructor; simpl; try done.
    + rewrite Hh'. rewrite Hh in H1. by eapply held_waiter.
    + intros _ _. left. by apply H2.
  - pose proof (cl_return_law (m s)) as Hl. destruct (cl_held (m s) || cl_queued (m s)) eqn:E; [by rewrite Hl|].
    destruct Hl as (l' & -> & Hh & Hq). intros [= <- <-]. split; [|done]. constructor; simpl; try done.
    apply orb_false_iff in E as [E _]. rewrite Hh. rewrite E in H1. by eapply held_waiter.
  - intros [= <- <-]. split; [|done]. pose proof (held_true _ _ _ _ _ H1 eq_refl) as Hh.
    destruct (cl_unlock_law (m s) Hh) as [Hh' Hq]. constructor; simpl; try done.
    rewrite Hh'. rewrite Hh in H1. by eapply held_waiter.
Qed.

Definition condvar_uncleared (n : wake_pc) : bool := match n with XLoad | XLock | XStore => true | _ => false end.
Definition condvar_wake_cost (n : wake_pc) : nat :=
  match n with XLoad => 5 | XLock => 4 | XStore => 3 | XNotify => 2 | XUnlock => 1 end.

Lemma cv_wake_inv s ow ns i n s' o :
  condvar_inv s ow ns -> ns !! i = Some (Some n) -> condvar_wake s n = Some (s', o) -> condvar_inv s' ow (<[i := o]> ns).
Proof.
  intros [H1 H2 H3] Hi. destruct n; simpl.
  - intros [= <- <-]. constructor; try done; [|intros Hw Hq; destruct (H3 Hw Hq) as [?|Hb]; [by left|right]].
    + eapply held_notifier; [done|done|]. by destruct (parked s).
    + by eapply busy_keep.
  - pose proof (cl_lock_law (m s)) as Hl. destruct (cl_held (m s)) eqn:E; [by rewrite Hl|].
    destruct Hl as (l' & -> & Hh & Hq). intros [= <- <-]. constructor; simpl; try done.
    + rewrite Hh. by eapply held_notifier.
    + rewrite Hq. intros Hw Hqq. destruct (H3 Hw Hqq) as [?|Hb]; [by left|right]. by eapply busy_keep.
  - intros [= <- <-]. constructor; simpl.
    + by eapply held_notifier.
    + intros ->. by destruct (held_excl _ _ _ _ _ _ _ H1 eq_refl Hi eq_refl).
    + intros _ _. right. by eapply busy_insert.
  - intros [= <- <-]. destruct (cl_notify_law (m s)) as [Hh Hq]. constructor; simpl; [|done|congruence].
    rewrite Hh. by eapply held_notifier.
  - intros [= <- <-]. pose proof (held_true_n _ _ _ _ _ _ _ H1 Hi eq_refl) as Hh.
    destruct (cl_unlock_law (m s) Hh) as [Hh' Hq]. constructor; simpl; try done.
    + rewrite Hh'. rewrite Hh in H1. by eapply held_notifier.
    + rewrite Hq. intros Hw Hqq. destruct (H3 Hw Hqq) as [?|Hb]; [by left|right]. by eapply busy_keep.
Qed.

Lemma cv_wake_effect s n s' o :
  condvar_wake s n = Some (s', o) ->
  (parked s' = false \/
   (parked s' = parked s /\ (condvar_uncleared n = true -> exists n', o = Some n' /\ condvar_uncleared n' = true))) /\
  (forall n', o = Some n' -> (condvar_wake_cost n' < condvar_wake_cost n)%nat).
Proof.
  destruct n; simpl.
  - intros [= <- <-]. destruct (parked s) eqn:E; simpl.
    + split; [right; split; [done|by eexists]|intros ? [= <-]; simpl; lia].
    + split; [by left|done].
  - destruct (cl_lock (m s)) as [l|]; [|done]. intros [= <- <-]. split; [right; split; [done|by eexists]|].
    intros ? [= <-]. simpl. lia.
  - intros [= <- <-]. split; [by left|]. intros ? [= <-]. simpl. lia.
  - intros [= <- <-]. split; [by right|]. intros ? [= <-]. simpl. lia.
  - intros [= <- <-]. split; [by right|done].
Qed.

Lemma cv_progress s ow ns :
  condvar_inv s ow ns ->
  ((exists i n, ns !! i = Some (Some n)) \/ (exists w, ow = Some w /\ ec_asleep s w = false)) ->
  (exists i n, ns !! i = Some (Some n) /\ is_Some (condvar_wake s n)) \/
  (exists w, ow = Some w /\ ec_asleep s w = false /\ is_Some (condvar_park s w)).
Proof.
  intros [H1 _ _] Hsome. destruct (cl_held (m s)) eqn:E.
  - destruct (held_owner _ _ _ _ H1) as [(w & -> & Hw)|(i & n & Hi & Hn)].
    + right. exists w. destruct w; try done; by eauto.
    + left. exists i, n. destruct n; try done; by eauto.
  - pose proof (cl_lock_law (m s)) as Hl. pose proof (cl_return_law (m s)) as Hr. rewrite E in Hl, Hr. simpl in Hr.
    destruct Hl as (l & Hl & _). destruct Hsome as [(i & n & Hi)|(w & -> & Hw)].
    + left. exists i, n. destruct n; simpl; rewrite ?Hl; by eauto.
    + right. exists w. split; [done|]. split; [done|]. destruct w; simpl in *; rewrite ?Hl; try (by eauto).
      rewrite Hw in Hr. destruct Hr as (l' & -> & _). by eauto.
Qed.

#[export] Instance condvar_kernel_laws : EventCountLaws (condvar_inner L) park_pc wake_pc.
Proof.
  refine {| ec_flag := parked; ec_uncleared := condvar_uncleared; ec_cost := condvar_wake_cost; ec_inv := condvar_inv |}.
  - intros n. destruct cl_new_law as [Hh Hq]. constructor; simpl; try done. rewrite Hh. apply held_none.
  - intros s ns [H1 H2 H3]. split; [|done]. by constructor.
  - intros s ns [H1 H2 H3]. by constructor.
  - intros s t ns [H1 H2 H3]. by constructor.
  - intros s w s' o ns. apply cv_park_ok.
  - intros s ow ns i [H1 H2 H3] Hi. constructor; [by eapply held_notifier|done|].
    intros Hw Hq. destruct (H3 Hw Hq) as [?|Hb]; [by left|right; by apply busy_begin].
  - done.
  - intros s ow ns i n s' o Hk Hi Hs. split; [by eapply cv_wake_inv|by apply cv_wake_effect].
  - intros s w ns [H1 H2 H3] Ha Hn. destruct w; try done. destruct (H3 eq_refl Ha) as [?|(i & n & Hi & _)]; [done|].
    by specialize (Hn i _ Hi).
  - apply cv_progress.
  - intros []; simpl; lia.
Defined.
End laws.
End condvar.

(** ** [hybrid.rs] *)

Module hybrid.
Record hybrid_inner L := mk_hybrid { armed : bool; sleeping : bool; m : L }.
Arguments mk_hybrid {L} armed sleeping m.
Arguments armed {L} _.
Arguments sleeping {L} _.
Arguments m {L} _.

Definition SPIN_BUDGET : nat := 512.

(** [HSpin k] has [k] turns of the spin phase left; [HPublish] is about to store
    [sleeping], [HCheck] to read [armed] again, [HClear] to reset [sleeping]. *)
Inductive park_pc : Type :=
| HSpin (k : nat) | HLock | HPublish | HCheck | HSleep | HWait | HClear | HUnlock.
Inductive wake_pc : Type := YLoad | YStore | YLoadSleeping | YLock | YNotify | YUnlock.

Section code.
Context {L : Type} `{!CondLock L}.
Implicit Types s : hybrid_inner L.

Definition hybrid_park s (w : park_pc) : option (hybrid_inner L * option park_pc) :=
  match w with
  | HSpin O => Some (s, Some HLock)
  | HSpin (S k) => Some (s, if armed s then Some (HSpin k) else None)
  | HLock =>
      match cl_lock (m s) with None => None | Some l => Some (mk_hybrid (armed s) (sleeping s) l, Some HPublish) end
  | HPublish => Some (mk_hybrid (armed s) true (m s), Some HCheck)
  | HCheck => Some (s, Some (if armed s then HSleep else HClear))
  | HSleep => Some (mk_hybrid (armed s) (sleeping s) (cl_wait (m s)), Some HWait)
  | HWait =>
      match cl_return (m s) with None => None | Some l => Some (mk_hybrid (armed s) (sleeping s) l, Some HClear) end
  | HClear => Some (mk_hybrid (armed s) false (m s), Some HUnlock)
  | HUnlock => Some (mk_hybrid (armed s) (sleeping s) (cl_unlock (m s)), None)
  end.

Definition hybrid_wake s (n : wake_pc) : option (hybrid_inner L * option wake_pc) :=
  match n with
  | YLoad => Some (s, if armed s then Some YStore else None)
  | YStore => Some (mk_hybrid false (sleeping s) (m s), Some YLoadSleeping)
  | YLoadSleeping => Some (s, if sleeping s then Some YLock else None)
  | YLock =>
      match cl_lock (m s) with None => None | Some l => Some (mk_hybrid (armed s) (sleeping s) l, Some YNotify) end
  | YNotify => Some (mk_hybrid (armed s) (sleeping s) (cl_notify_one (m s)), Some YUnlock)
  | YUnlock => Some (mk_hybrid (armed s) (sleeping s) (cl_unlock (m s)), None)
  end.
End code.

Definition hybrid_holding (w : park_pc) : bool :=
  match w with HPublish | HCheck | HSleep | HClear | HUnlock => true | _ => false end.
Definition hybrid_wake_holding (n : wake_pc) : bool := match n with YNotify | YUnlock => true | _ => false end.
(** Past the store and still to notify a sleeper. *)
Definition coming (n : wake_pc) : bool := match n with YLoadSleeping | YLock | YNotify => true | _ => false end.

#[export] Instance hybrid_kernel {L} `{!CondLock L} `{!CondLockLaws L} : EventCount (hybrid_inner L) park_pc wake_pc := {
  ec_new := mk_hybrid false false cl_new;
  ec_arm s := mk_hybrid true (sleeping s) (m s);
  ec_disarm s := mk_hybrid false (sleeping s) (m s);
  ec_park _ := HSpin SPIN_BUDGET;
  ec_park_step := hybrid_park;
  ec_asleep s w := match w with HWait => cl_queued (m s) | _ => false end;
  ec_wake := YLoad;
  ec_wake_step := hybrid_wake
}.

Section laws.
Context {L : Type} `{!CondLock L} `{!CondLockLaws L}.

Definition published_sleep (ow : option park_pc) : bool :=
  match ow with Some (HCheck | HSleep | HWait) => true | _ => false end.

Record hybrid_inv (s : hybrid_inner L) (ow : option park_pc) (ns : list (option wake_pc)) : Prop := {
  k_lock : held_by hybrid_holding hybrid_wake_holding (cl_held (m s)) ow ns;
  k_flag : published_sleep ow = true -> sleeping s = true;
  k_sleep : ow = Some HSleep -> armed s = true \/ busy coming ns;
  k_wait : ow = Some HWait -> cl_queued (m s) = true -> armed s = true \/ busy coming ns
}.

Lemma hybrid_park_ok s w s' o ns :
  hybrid_inv s (Some w) ns -> hybrid_park s w = Some (s', o) -> hybrid_inv s' o ns /\ armed s' = armed s.
Proof.
  intros [H1 H2 H3 H4]. destruct w as [[|k]| | | | | | |]; simpl.
  - intros [= <- <-]. split; [|done]. constructor; try done; by eapply held_waiter.
  - intros [= <- <-]. split; [|done]. constructor; destruct (armed s) eqn:E; try done; by eapply held_waiter.
  - pose proof (cl_lock_law (m s)) as Hl. destruct (cl_held (m s)) eqn:E; [by rewrite Hl|].
    destruct Hl as (l' & -> & Hh & Hq). intros [= <- <-]. split; [|done]. constructor; simpl; try done.
    rewrite Hh. by eapply held_waiter.
  - intros [= <- <-]. split; [|done]. constructor; simpl; try done; by eapply held_waiter.
  - intros [= <- <-]. split; [|done]. constructor; destruct (armed s) eqn:E; try done; try (by eapply held_waiter). by left.
  - intros [= <- <-]. split; [|done]. pose proof (held_true _ _ _ _ _ H1 eq_refl) as Hh.
    destruct (cl_wait_law (m s) Hh) as [Hh' Hq]. constructor; simpl; try done.
    + rewrite Hh'. rewrite Hh in H1. by eapply held_waiter.
    + intros _ _. by apply H3.
  - pose proof (cl_return_law (m s)) as Hl. destruct (cl_held (m s) || cl_queued (m s)) eqn:E; [by rewrite Hl|].
    destruct Hl as (l' & -> & Hh & Hq). intros [= <- <-]. split; [|done]. constructor; simpl; try done.
    apply orb_false_iff in E as [E _]. rewrite Hh. rewrite E in H1. by eapply held_waiter.
  - intros [= <- <-]. split; [|done]. constructor; simpl; try done; by eapply held_waiter.
  - intros [= <- <-]. split; [|done]. pose proof (held_true _ _ _ _ _ H1 eq_refl) as Hh.
    destruct (cl_unlock_law (m s) Hh) as [Hh' Hq]. constructor; simpl; try done.
    rewrite Hh'. rewrite Hh in H1. by eapply held_waiter.
Qed.

Definition hybrid_uncleared (n : wake_pc) : bool := match n with YLoad | YStore => true | _ => false end.
Definition hybrid_wake_cost (n : wake_pc) : nat :=
  match n with YLoad => 6 | YStore => 5 | YLoadSleeping => 4 | YLock => 3 | YNotify => 2 | YUnlock => 1 end.

Lemma hybrid_wake_inv s ow ns i n s' o :
  hybrid_inv s ow ns -> ns !! i = Some (Some n) -> hybrid_wake s n = Some (s', o) -> hybrid_inv s' ow (<[i := o]> ns).
Proof.
  intros [H1 H2 H3 H4] Hi.
  assert (forall o', (coming n = true -> published_sleep ow = true -> exists n', o' = Some n' /\ coming n' = true) ->
    published_sleep ow = true -> busy coming ns -> busy coming (<[i := o']> ns)) as Hkeep.
  { intros o' Ho Hp Hb. eapply busy_keep; [done|done|]. intros Hc. by apply Ho. }
  destruct n; simpl.
  - intros [= <- <-]. constructor; try done.
    + eapply held_notifier; [done|done|]. by destruct (armed s).
    + intros Hw. destruct (H3 Hw) as [?|Hb]; [by left|right]. apply Hkeep; [done|by subst|done].
    + intros Hw Hq. destruct (H4 Hw Hq) as [?|Hb]; [by left|right]. apply Hkeep; [done|by subst|done].
  - intros [= <- <-]. constructor; simpl; try done.
    + by eapply held_notifier.
    + intros _. right. by eapply busy_insert.
    + intros _ _. right. by eapply busy_insert.
  - intros [= <- <-]. constructor; try done.
    + eapply held_notifier; [done|done|]. by destruct (sleeping s).
    + intros Hw. destruct (H3 Hw) as [?|Hb]; [by left|right].
      apply Hkeep; [intros _ Hp; rewrite (H2 Hp); by eexists|by subst|done].
    + intros Hw Hq. destruct (H4 Hw Hq) as [?|Hb]; [by left|right].
      apply Hkeep; [intros _ Hp; rewrite (H2 Hp); by eexists|by subst|done].
  - pose proof (cl_lock_law (m s)) as Hl. destruct (cl_held (m s)) eqn:E; [by rewrite Hl|].
    destruct Hl as (l' & -> & Hh & Hq). intros [= <- <-]. constructor; simpl; try done.
    + rewrite Hh. by eapply held_notifier.
    + intros _. right. by eapply busy_insert.
    + intros _ _. right. by eapply busy_insert.
  - intros [= <- <-]. destruct (cl_notify_law (m s)) as [Hh Hq]. constructor; simpl; [|done| |congruence].
    + rewrite Hh. by eapply held_notifier.
    + intros ->. by destruct (held_excl _ _ _ _ _ _ _ H1 eq_refl Hi eq_refl).
  - intros [= <- <-]. pose proof (held_true_n _ _ _ _ _ _ _ H1 Hi eq_refl) as Hh.
    destruct (cl_unlock_law (m s) Hh) as [Hh' Hq]. constructor; simpl; try done.
    + rewrite Hh'. rewrite Hh in H1. by eapply held_notifier.
    + intros Hw. destruct (H3 Hw) as [?|Hb]; [by left|right]. apply Hkeep; [done|by subst|done].
    + rewrite Hq. intros Hw Hqq. destruct (H4 Hw Hqq) as [?|Hb]; [by left|right]. apply Hkeep; [done|by subst|done].
Qed.

Lemma hybrid_wake_effect s n s' o :
  hybrid_wake s n = Some (s', o) ->
  (armed s' = false \/
   (armed s' = armed s /\ (hybrid_uncleared n = true -> exists n', o = Some n' /\ hybrid_uncleared n' = true))) /\
  (forall n', o = Some n' -> (hybrid_wake_cost n' < hybrid_wake_cost n)%nat).
Proof.
  destruct n; simpl.
  - intros [= <- <-]. destruct (armed s) eqn:E; simpl.
    + split; [right; split; [done|by eexists]|intros ? [= <-]; simpl; lia].
    + split; [by left|done].
  - intros [= <- <-]. split; [by left|]. intros ? [= <-]. simpl. lia.
  - intros [= <- <-]. split; [by right|]. destruct (sleeping s); [|done]. intros ? [= <-]. simpl. lia.
  - destruct (cl_lock (m s)) as [l|]; [|done]. intros [= <- <-]. split; [by right|]. intros ? [= <-]. simpl. lia.
  - intros [= <- <-]. split; [by right|]. intros ? [= <-]. simpl. lia.
  - intros [= <- <-]. split; [by right|done].
Qed.

Lemma hybrid_progress s ow ns :
  hybrid_inv s ow ns ->
  ((exists i n, ns !! i = Some (Some n)) \/ (exists w, ow = Some w /\ ec_asleep s w = false)) ->
  (exists i n, ns !! i = Some (Some n) /\ is_Some (hybrid_wake s n)) \/
  (exists w, ow = Some w /\ ec_asleep s w = false /\ is_Some (hybrid_park s w)).
Proof.
  intros [H1 _ _ _] Hsome. destruct (cl_held (m s)) eqn:E.
  - destruct (held_owner _ _ _ _ H1) as [(w & -> & Hw)|(i & n & Hi & Hn)].
    + right. exists w. destruct w; try done; by eauto.
    + left. exists i, n. destruct n; try done; by eauto.
  - pose proof (cl_lock_law (m s)) as Hl. pose proof (cl_return_law (m s)) as Hr. rewrite E in Hl, Hr. simpl in Hr.
    destruct Hl as (l & Hl & _). destruct Hsome as [(i & n & Hi)|(w & -> & Hw)].
    + left. exists i, n. destruct n; simpl; rewrite ?Hl; by eauto.
    + right. exists w. split; [done|]. split; [done|]. destruct w as [[|k]| | | | | | |]; simpl in *; rewrite ?Hl; try (by eauto).
      rewrite Hw in Hr. destruct Hr as (l' & -> & _). by eauto.
Qed.

#[export] Instance hybrid_kernel_laws : EventCountLaws (hybrid_inner L) park_pc wake_pc.
Proof.
  refine {| ec_flag := armed; ec_uncleared := hybrid_uncleared; ec_cost := hybrid_wake_cost; ec_inv := hybrid_inv |}.
  - intros n. destruct cl_new_law as [Hh Hq]. constructor; simpl; try done. rewrite Hh. apply held_none.
  - intros s ns [H1 H2 H3 H4]. split; [|done]. by constructor.
  - intros s ns [H1 H2 H3 H4]. by constructor.
  - intros s t ns [H1 H2 H3 H4]. by constructor.
  - intros s w s' o ns. apply hybrid_park_ok.
  - intros s ow ns i [H1 H2 H3 H4] Hi. constructor; [by eapply held_notifier|done|..].
    + intros Hw. destruct (H3 Hw) as [?|Hb]; [by left|right; by apply busy_begin].
    + intros Hw Hq. destruct (H4 Hw Hq) as [?|Hb]; [by left|right; by apply busy_begin].
  - done.
  - intros s ow ns i n s' o Hk Hi Hs. split; [by eapply hybrid_wake_inv|by apply hybrid_wake_effect].
  - intros s w ns [H1 H2 H3 H4] Ha Hn. destruct w; try done. destruct (H4 eq_refl Ha) as [?|(i & n & Hi & _)]; [done|].
    by specialize (Hn i _ Hi).
  - apply hybrid_progress.
  - intros []; simpl; lia.
Defined.
End laws.
End hybrid.

(** ** [std_thread.rs] *)

Module std_thread.
(** [held] is the handle's mutex; [tokens] are the threads with an unpark token. *)
Record thread_inner := mk_thread { parked : bool; held : bool; handle : option nat; tokens : gset nat }.

(** The waiter runs on thread [t]. [TSet] is about to publish its handle, [TRelease]
    to drop the guard and park, [TUnlock] to leave without parking. *)
Inductive park_pc : Type :=
| TLoad (t : nat) | TLock (t : nat) | TCheck (t : nat) | TSet (t : nat) | TRelease (t : nat)
| TPark (t : nat) | TUnlock.
Inductive wake_pc : Type :=
| ZLoad | ZStore | ZLock | ZClone | ZUnlock (h : option nat) | ZUnpark (t : nat).

Definition thread_park (s : thread_inner) (w : park_pc) : option (thread_inner * option park_pc) :=
  match w with
  | TLoad t => Some (s, if parked s then Some (TLock t) else None)
  | TLock t => if held s then None else Some (mk_thread (parked s) true (handle s) (tokens s), Some (TCheck t))
  | TCheck t => Some (s, Some (if parked s then TSet t else TUnlock))
  | TSet t => Some (mk_thread (parked s) (held s) (Some t) (tokens s), Some (TRelease t))
  | TRelease t => Some (mk_thread (parked s) false (handle s) (tokens s), Some (TPark t))
  | TPark t =>
      if decide (t ∈ tokens s) then Some (mk_thread (parked s) (held s) (handle s) (tokens s ∖ {[t]}), None) else None
  | TUnlock => Some (mk_thread (parked s) false (handle s) (tokens s), None)
  end.

Definition thread_wake (s : thread_inner) (n : wake_pc) : option (thread_inner * option wake_pc) :=
  match n with
  | ZLoad => Some (s, if parked s then Some ZStore else None)
  | ZStore => Some (mk_thread false (held s) (handle s) (tokens s), Some ZLock)
  | ZLock => if held s then None else Some (mk_thread (parked s) true (handle s) (tokens s), Some ZClone)
  | ZClone => Some (s, Some (ZUnlock (handle s)))
  | ZUnlock h =>
      Some (mk_thread (parked s) false (handle s) (tokens s), match h with Some t => Some (ZUnpark t) | None => None end)
  | ZUnpark t => Some (mk_thread (parked s) (held s) (handle s) ({[t]} ∪ tokens s), None)
  end.

Definition asleep (s : thread_inner) (w : park_pc) : bool :=
  match w with TPark t => negb (bool_decide (t ∈ tokens s)) | _ => false end.

Definition thread_holding (w : park_pc) : bool :=
  match w with TCheck _ | TSet _ | TRelease _ | TUnlock => true | _ => false end.
Definition thread_wake_holding (n : wake_pc) : bool := match n with ZClone | ZUnlock _ => true | _ => false end.

(** Past the store and still to unpark thread [t]. *)
Definition coming (t : nat) (n : wake_pc) : bool :=
  match n with
  | ZLock | ZClone => true
  | ZUnlock h => bool_decide (h = Some t)
  | ZUnpark u => bool_decide (u = t)
  | _ => false
  end.
Definition locking (n : wake_pc) : bool := match n with ZLock => true | _ => false end.

#[export] Instance thread_kernel : EventCount thread_inner park_pc wake_pc := {
  ec_new := mk_thread false false None ∅;
  ec_arm s := mk_thread true (held s) (handle s) (tokens s);
  ec_disarm s := mk_thread false (held s) (handle s) (tokens s);
  ec_park := TLoad;
  ec_park_step := thread_park;
  ec_asleep := asleep;
  ec_wake := ZLoad;
  ec_wake_step := thread_wake
}.

Record thread_inv (s : thread_inner) (ow : option park_pc) (ns : list (option wake_pc)) : Prop := {
  k_lock : held_by thread_holding thread_wake_holding (held s) ow ns;
  k_set t : ow = Some (TSet t) -> parked s = true \/ busy locking ns;
  k_park t : ow = Some (TRelease t) \/ ow = Some (TPark t) ->
    handle s = Some t /\ (parked s = true \/ t ∈ tokens s \/ busy (coming t) ns)
}.

Lemma busy_weaken {N} (P Q : N -> bool) ns : (forall n, P n = true -> Q n = true) -> busy P ns -> busy Q ns.
Proof. intros HPQ (i & n & Hi & HP). exists i, n. split; [done|by apply HPQ]. Qed.

Lemma std_park_ok s w s' o ns :
  thread_inv s (Some w) ns -> thread_park s w = Some (s', o) -> thread_inv s' o ns /\ parked s' = parked s.
Proof.
  intros [H1 H2 H3]. destruct w as [t|t|t|t|t|t|]; simpl.
  - intros [= <- <-]. split; [|done]. constructor; destruct (parked s) eqn:E; try done; try (by eapply held_waiter);
      by intros u [?|?].
  - destruct (held s) eqn:E; [done|]. intros [= <- <-]. split; [|done].
    constructor; simpl; try done; try (by eapply held_waiter); by intros u [?|?].
  - intros [= <- <-]. split; [|done]. constructor; destruct (parked s) eqn:E; try done; try (by eapply held_waiter);
      try (by intros u [?|?]). by left.
  - intros [= <- <-]. split; [|done]. constructor; simpl; try done; try (by eapply held_waiter).
    intros u [[= <-]|?]; [|done]. split; [done|]. destruct (H2 t eq_refl) as [?|Hb]; [by left|right; right].
    eapply busy_weaken; [|exact Hb]. by intros [].
  - intros [= <- <-]. split; [|done]. pose proof (held_true _ _ _ _ _ H1 eq_refl) as Hh. rewrite Hh in H1.
    constructor; simpl; try done; try (by eapply held_waiter). intros u [?|[= <-]]; [done|]. apply H3. by left.
  - case_decide as Ht; [|done]. intros [= <- <-]. split; [|done].
    constructor; simpl; try done; try (by eapply held_waiter); by intros u [?|?].
  - intros [= <- <-]. split; [|done]. pose proof (held_true _ _ _ _ _ H1 eq_refl) as Hh. rewrite Hh in H1.
    constructor; simpl; try done; try (by eapply held_waiter); by intros u [?|?].
Qed.

Definition thread_uncleared (n : wake_pc) : bool := match n with ZLoad | ZStore => true | _ => false end.
Definition thread_wake_cost (n : wake_pc) : nat :=
  match n with ZLoad => 6 | ZStore => 5 | ZLock => 4 | ZClone => 3 | ZUnlock _ => 2 | ZUnpark _ => 1 end.

Lemma std_wake_inv s ow ns i n s' o :
  thread_inv s ow ns -> ns !! i = Some (Some n) -> thread_wake s n = Some (s', o) -> thread_inv s' ow (<[i := o]> ns).
Proof.
  intros [H1 H2 H3] Hi.
  assert (forall P o', busy P ns -> (P n = true -> exists n', o' = Some n' /\ P n' = true) ->
    busy P (<[i := o']> ns)) as Hkeep by (intros P o'; by apply busy_keep).
  destruct n as [| | | |h|u]; simpl.
  - intros [= <- <-]. constructor; try done.
    + eapply held_notifier; [done|done|]. by destruct (parked s).
    + intros t Hw. destruct (H2 t Hw) as [?|Hb]; [by left|right]. by apply Hkeep.
    + intros t Hw. destruct (H3 t Hw) as [Hh [?|[?|Hb]]]; split; auto. right; right. by apply Hkeep.
  - intros [= <- <-]. constructor; simpl.
    + by eapply held_notifier.
    + intros t _. right. by eapply busy_insert.
    + intros t Hw. destruct (H3 t Hw) as [Hh _]. split; [done|]. right; right. by eapply busy_insert.
  - destruct (held s) eqn:E; [done|]. intros [= <- <-]. constructor; simpl.
    + by eapply held_notifier.
    + intros t ->. by pose proof (held_true _ _ _ _ _ H1 eq_refl).
    + intros t Hw. destruct (H3 t Hw) as [Hh _]. split; [done|]. right; right. by eapply busy_insert.
  - intros [= <- <-]. constructor.
    + by eapply held_notifier.
    + intros t ->. by destruct (held_excl _ _ _ _ _ _ _ H1 eq_refl Hi eq_refl).
    + intros t Hw. destruct (H3 t Hw) as [Hh _]. split; [done|]. right; right. eapply busy_insert; [done|].
      simpl. by apply bool_decide_true.
  - intros [= <- <-]. pose proof (held_true_n _ _ _ _ _ _ _ H1 Hi eq_refl) as Hh. rewrite Hh in H1. constructor; simpl.
    + eapply held_notifier; [done|done|]. by destruct h.
    + intros t ->. by destruct (held_excl _ _ _ _ _ _ _ H1 eq_refl Hi eq_refl).
    + intros t Hw. destruct (H3 t Hw) as [Hha [?|[?|Hb]]]; split; auto. right; right. apply Hkeep; [done|].
      simpl. intros ->%bool_decide_eq_true. eexists. split; [done|]. simpl. by apply bool_decide_true.
  - intros [= <- <-]. constructor; simpl.
    + by eapply held_notifier.
    + intros t Hw. destruct (H2 t Hw) as [?|Hb]; [by left|right]. by apply Hkeep.
    + intros t Hw. destruct (H3 t Hw) as [Hh Hc]. split; [done|]. destruct (decide (u = t)) as [->|Hne].
      { right; left. by apply elem_of_union_l, elem_of_singleton. }
      destruct Hc as [?|[?|Hb]]; [by left|right; left; by apply elem_of_union_r|]. right; right. apply Hkeep; [done|].
      simpl. by intros ?%bool_decide_eq_true.
Qed.

Lemma std_wake_effect s n s' o :
  thread_wake s n = Some (s', o) ->
  (parked s' = false \/
   (parked s' = parked s /\ (thread_uncleared n = true -> exists n', o = Some n' /\ thread_uncleared n' = true))) /\
  (forall n', o = Some n' -> (thread_wake_cost n' < thread_wake_cost n)%nat).
Proof.
  destruct n as [| | | |h|u]; simpl.
  - intros [= <- <-]. destruct (parked s) eqn:E; simpl.
    + split; [right; split; [done|by eexists]|intros ? [= <-]; simpl; lia].
    + split; [by left|done].
  - intros [= <- <-]. split; [by left|]. intros ? [= <-]. simpl. lia.
  - destruct (held s); [done|]. intros [= <- <-]. split; [by right|]. intros ? [= <-]. simpl. lia.
  - intros [= <- <-]. split; [by right|]. intros ? [= <-]. simpl. lia.
  - intros [= <- <-]. split; [by right|]. destruct h; [|done]. intros ? [= <-]. simpl. lia.
  - intros [= <- <-]. split; [by right|done].
Qed.

Lemma std_progress s ow ns :
  thread_inv s ow ns ->
  ((exists i n, ns !! i = Some (Some n)) \/ (exists w, ow = Some w /\ asleep s w = false)) ->
  (exists i n, ns !! i = Some (Some n) /\ is_Some (thread_wake s n)) \/
  (exists w, ow = Some w /\ asleep s w = false /\ is_Some (thread_park s w)).
Proof.
  intros [H1 _ _] Hsome. destruct (held s) eqn:E.
  - destruct (held_owner _ _ _ _ H1) as [(w & -> & Hw)|(i & n & Hi & Hn)].
    + right. exists w. destruct w; try done; by eauto.
    + left. exists i, n. destruct n; try done; by eauto.
  - destruct Hsome as [(i & n & Hi)|(w & -> & Hw)].
    + left. exists i, n. destruct n; simpl; rewrite ?E; by eauto.
    + right. exists w. split; [done|]. split; [done|]. destruct w; simpl in *; rewrite ?E; try (by eauto).
      apply negb_false_iff, bool_decide_eq_true in Hw. rewrite decide_True by done. by eauto.
Qed.

#[export] Instance thread_kernel_laws : EventCountLaws thread_inner park_pc wake_pc.
Proof.
  refine {| ec_flag := parked; ec_uncleared := thread_uncleared; ec_cost := thread_wake_cost; ec_inv := thread_inv |}.
  - intros n. constructor; [apply held_none|done|by intros t [?|?]].
  - intros s ns [H1 H2 H3]. split; [|done]. constructor; [done|done|by intros t [?|?]].
  - intros s ns [H1 H2 H3]. constructor; [done|done|by intros t [?|?]].
  - intros s t ns [H1 H2 H3]. constructor; [done|done|by intros u [?|?]].
  - intros s w s' o ns. apply std_park_ok.
  - intros s ow ns i [H1 H2 H3] Hi. constructor; [by eapply held_notifier|..].
    + intros t Hw. destruct (H2 t Hw) as [?|Hb]; [by left|right; by apply busy_begin].
    + intros t Hw. destruct (H3 t Hw) as [Hh [?|[?|Hb]]]; split; auto. right; right. by apply busy_begin.
  - done.
  - intros s ow ns i n s' o Hk Hi Hs. split; [by eapply std_wake_inv|by apply std_wake_effect].
  - intros s w ns [H1 H2 H3] Ha Hn. destruct w; try done.
    destruct (H3 t ltac:(by right)) as [_ [?|[Ht|(i & n & Hi & _)]]]; [done| |by specialize (Hn i _ Hi)].
    simpl in Ha. by rewrite bool_decide_true in Ha.
  - apply std_progress.
  - intros []; simpl; lia.
Defined.
End std_thread.

(** ** [spin.rs] *)

Module spin.
Definition MAX_STEPS : nat := 7.

Inductive wake_pc : Type := SStore.

(** The shared state is the [armed] flag, a position the number of spins done. *)
Definition spin_park (s : bool) (k : nat) : option (bool * option nat) :=
  Some (s, if s then if (MAX_STEPS <=? S k)%nat then None else Some (S k) else None).

#[export] Instance spin_kernel : EventCount bool nat wake_pc := {
  ec_new := false;
  ec_arm _ := true;
  ec_disarm _ := false;
  ec_park _ := O;
  ec_park_step := spin_park;
  ec_asleep _ _ := false;
  ec_wake := SStore;
  ec_wake_step _ _ := Some (false, None)
}.

#[export] Instance spin_kernel_laws : EventCountLaws bool nat wake_pc.
Proof.
  refine {| ec_flag s := s; ec_uncleared _ := true; ec_cost _ := 1%nat; ec_inv _ _ _ := True |}; try done.
  - intros s w s' o ns _ [= <- <-]. done.
  - intros s ow ns i n s' o _ _ [= <- <-]. split; [done|]. split; [by left|done].
  - intros s ow ns _ [(i & n & Hi)|(w & -> & _)]; [left; exists i, n|right; exists w]; simpl; by eauto.
  - intros; lia.
Defined.

(** [park] returns after at most [MAX_STEPS] turns, woken or not. *)
Lemma spin_park_bounded (flags : nat -> bool) (k : nat) :
  (k < MAX_STEPS)%nat ->
  exists n, (n < MAX_STEPS - k)%nat /\ spin_park (flags n) (k + n) = Some (flags n, None) /\
    forall j, (j < n)%nat -> spin_park (flags j) (k + j) = Some (flags j, Some (S (k + j))).
Proof.
  intros Hk. remember (MAX_STEPS - k)%nat as d eqn:Hd. revert flags k Hk Hd.
  induction d as [|d IH]; intros flags k Hk Hd; [lia|]. destruct (spin_park (flags O) k) as [[s [k'|]]|] eqn:E; [| |done].
  - unfold spin_park in E. destruct (flags O) eqn:E0; [|done]. destruct (Nat.leb_spec MAX_STEPS (S k)) as [|Hlt]; [done|].
    injection E as <- <-. destruct (IH (fun j => flags (S j)) (S k)) as (n & Hn & H1 & H2); [lia|lia|].
    exists (S n). split; [lia|]. rewrite <- Nat.add_succ_comm. split; [done|]. intros [|j] Hj.
    + rewrite Nat.add_0_r. unfold spin_park. rewrite E0. by rewrite (proj2 (Nat.leb_gt MAX_STEPS (S k))) by lia.
    + rewrite <- Nat.add_succ_comm. apply H2. lia.
  - exists O. rewrite Nat.add_0_r. split; [lia|]. split; [|lia]. rewrite E. f_equal. f_equal.
    unfold spin_park in E. congruence.
Qed.
End spin.

(** ** Executions

    The receiver falls asleep on an empty channel; one of two senders pushes two
    values of a batch, the first becomes visible, it wakes, and the second drains
    after the wake began. On the standard library's kernel the receiver parks on
    thread 3. *)

#[local] Existing Instances condvar.condvar_kernel condvar.condvar_kernel_laws std_thread.thread_kernel std_thread.thread_kernel_laws.

Lemma loop_run_reachable {S W N} `{!EventCount S W N} ls (l l' : loop S W N) es :
  reachable ls l -> run l es = Some l' -> reachable ls l'.
Proof.
  revert l. induction es as [|e es IH]; intros l Hr; simpl; [by intros [= <-]|].
  destruct (step l e) as [l1|] eqn:E; [|done]. apply IH. by econstructor.
Qed.

Definition asleep_then_send (k : nat) : list event :=
  replicate k (ERecv 3 Miss) ++ [EPush 1; EPush 1; EFlush 1; ENotify 1; EFlush 1].

Lemma park_no_lost_wake_witness :
  exists l : loop (condvar.condvar_inner (bool * bool)) condvar.park_pc condvar.wake_pc,
    reachable [true; true] l /\ sleeping l = true /\
    (forall l', run l (EWake <$> [1; 1; 1; 1; 1]%nat) = Some l' -> sleeping l' = false).
Proof.
  destruct (run (start [true; true] : loop (condvar.condvar_inner (bool * bool)) condvar.park_pc condvar.wake_pc) (asleep_then_send 9)) as [l|] eqn:E; [|vm_compute in E; discriminate E].
  assert (reachable [true; true] l) as Hr by (eapply loop_run_reachable; [apply reach_start|exact E]).
  assert (sleeping l = true /\ called l = true /\ total (senders l) = 5%nat) as (H1 & H2 & H3)
    by (vm_compute in E; injection E as <-; repeat split; vm_compute; reflexivity).
  exists l. split; [exact Hr|]. split; [exact H1|].
  destruct (park_no_lost_wake [true; true] l Hr H1 H2) as (_ & _ & Hrun).
  intros l' Hl'. apply (Hrun _ _ Hl'). rewrite H3. apply le_n.
Defined.

Lemma park_progress_witness :
  exists l : loop std_thread.thread_inner std_thread.park_pc std_thread.wake_pc,
    reachable [true; true] l /\ sleeping l = true /\
    exists e l', match e with ERecv _ _ | EWake _ => True | _ => False end /\ step l e = Some l'.
Proof.
  destruct (run (start [true; true] : loop std_thread.thread_inner std_thread.park_pc std_thread.wake_pc) (asleep_then_send 11)) as [l|] eqn:E; [|vm_compute in E; discriminate E].
  assert (reachable [true; true] l) as Hr by (eapply loop_run_reachable; [apply reach_start|exact E]).
  assert (sleeping l = true /\ called l = true) as (H1 & H2)
    by (vm_compute in E; injection E as <-; repeat split; vm_compute; reflexivity).
  exists l. split; [exact Hr|]. split; [exact H1|].
  apply (park_progress [true; true] l Hr). intros _. left. exact H2.
Defined.

(** What the recheck leaves to the timeout: a producer registers in the inbox,
    sends and wakes between the receiver's poll and its [arm], and the receiver
    sleeps with that value ready and no wake under way. *)
Lemma park_sleeps_over_inbox :
  exists l : loop (condvar.condvar_inner (bool * bool)) condvar.park_pc condvar.wake_pc,
    run (start [true; false]) ([ERecv 0 Miss; EPush 1; EFlush 1; ENotify 1; EWake 1] ++ replicate 8 (ERecv 0 Miss)) = Some l /\
    sleeping l = true /\
    (exists x, senders l !! 1%nat = Some x /\ (taken x < announced x)%nat /\ listed x = false) /\
    Forall (fun x => waking x = None) (senders l).
Proof.
  eexists. split; [vm_compute; reflexivity|]. split; [vm_compute; reflexivity|].
  split; [eexists; split; [vm_compute; reflexivity|]; split; [simpl; lia|done]|]. by repeat constructor.
Qed.
End park.
