(* ===== verification/Mpsc.v ===== *)
(** * The MPSC gatherer: [src/src/mpsc/chan.rs], [fixed.rs] and [dynamic.rs]

    Many single-producer transports ("shards") gathered by one receiver. Shards
    are shared objects: the producers and the receiver name them by an index
    into [store], and the receiver's working set [shards] is the vector the code
    permutes with [swap_remove]. The transports are used through the storage
    interface only ([SpscBackend], [SpscLaws]).

    The tier decides membership: [FixedState] removes finished shards,
    [DynamicState] also takes newly registered ones from the locked inbox. The
    synchronous kernels are modelled (their [Space] is the unit type). The
    blocking [recv] is in [MpscRecv.v], waiting in [Park.v] and [TaskWaker.v]. *)

From stdpp Require Import functions prelude gmap.
From S2P Require Import Prelude Batch Backend BackendRing.
Local Open Scope Z_scope.
#[local] Set Warnings "-clear-no-such-hyp".

Module mpsc.

Definition DEFAULT_BATCH : Z := 64.

Inductive TrySendError (T : Type) : Type :=
| Full (v : T)
| Disconnected (v : T).
Arguments Full {T} v.
Arguments Disconnected {T} v.

(** [Vec::swap_remove]: the last element takes the freed position. *)
Definition swap_remove {A} (l : list A) (i : nat) : outcome (A * list A) :=
  match l !! i, last l with
  | Some x, Some y => OK (x, take (length l - 1) (<[i := y]> l))
  | _, _ => PANIC
  end.

(** [LockedInbox]. *)
Record LockedInbox := mkInbox { generation : Z; seen : Z; queue : list nat }.

Inductive ShardState : Type :=
| FixedState
| DynamicState (inbox : LockedInbox).

Section gather.
Context {T C : Type} `{SpscBackend T C}.

Record Receiver := mkRx { shards : list nat; cursor : Z; batch : Z; staging : list T }.

(** [producers] are the shards whose [Producer] handle is alive and
    [registrars] the live registrar handles; [live] is the counter that both
    keep. *)
Record World := mkWorld {
  store : gmap nat C;
  fresh : nat;
  producers : gset nat;
  registrars : nat;
  live : Z;
  state : ShardState;
  rx : Receiver
}.

Definition deref (w : World) (sid : nat) : outcome C :=
  match store w !! sid with Some c => OK c | None => UB end.

Definition set_shard (w : World) (sid : nat) (c : C) : World :=
  mkWorld (<[sid := c]> (store w)) (fresh w) (producers w) (registrars w) (live w) (state w) (rx w).
Definition set_rx (w : World) (r : Receiver) : World :=
  mkWorld (store w) (fresh w) (producers w) (registrars w) (live w) (state w) r.

(** ** Construction: [build_shared], [spawn_ring], [make_producer], [make_receiver] *)

Definition make_receiver (sh : list nat) : Receiver := mkRx sh 0 DEFAULT_BATCH [].

Definition spawn_ring (w : World) (cap : Z) : outcome (nat * World) :=
  c ← bk_channel cap;
  OK (fresh w, mkWorld (<[fresh w := c]> (store w)) (S (fresh w)) (producers w) (registrars w) (live w) (state w) (rx w)).

(** [Shared::inc] and [make_producer]: a producer handle for a spawned shard. *)
Definition make_producer (w : World) (sid : nat) : World :=
  mkWorld (store w) (fresh w) ({[sid]} ∪ producers w) (registrars w) (live w + 1) (state w) (rx w).

Fixpoint open_fixed_loop (n : nat) (capacity : Z) (w : World) : outcome World :=
  match n with
  | O => OK w
  | S n' =>
      '(sid, w1) ← spawn_ring w capacity;
      let w2 := make_producer w1 sid in
      let r := rx w2 in
      open_fixed_loop n' capacity
        (set_rx w2 (mkRx (shards r ++ [sid]) (cursor r) (batch r) (staging r)))
  end.

(** [fixed::open]. *)
Definition open_fixed (n : nat) (capacity : Z) : outcome World :=
  open_fixed_loop n capacity (mkWorld ∅ 0 ∅ 0 0 FixedState (make_receiver [])).

(** [dynamic::open]: the initial registrar is one live sender. *)
Definition open_dynamic : World :=
  mkWorld ∅ 0 ∅ 1 1 (DynamicState (mkInbox 0 0 [])) (make_receiver []).

(** ** Producers *)

Definition try_send (w : World) (sid : nat) (v : T) : outcome (result unit (TrySendError T) * World) :=
  c ← deref w sid;
  if bk_is_consumer_gone c then OK (Err (Disconnected v), w) else
  '(r, c1) ← bk_try_push c v;
  OK (match r with Ok _ => Ok tt | Err x => Err (Full x) end, set_shard w sid c1).

(** Dropping a [Producer]: the ring's sender, then the lease. *)
Definition drop_producer (w : World) (sid : nat) : outcome World :=
  c ← deref w sid;
  let w1 := set_shard w sid (bk_drop_tx c) in
  OK (mkWorld (store w1) (fresh w1) (producers w1 ∖ {[sid]}) (registrars w1) (live w1 - 1) (state w1) (rx w1)).

(** [Registrar::register] with [DropRings]: a fresh ring, deposited. *)
Definition register (w : World) (capacity : Z) : outcome (nat * World) :=
  match state w with
  | FixedState => PANIC
  | DynamicState b =>
      '(sid, w1) ← spawn_ring w capacity;
      let w2 := make_producer w1 sid in
      let b1 := mkInbox (wrapping_add (generation b) 1) (seen b) (queue b ++ [sid]) in
      OK (sid, mkWorld (store w2) (fresh w2) (producers w2) (registrars w2) (live w2) (DynamicState b1) (rx w2))
  end.

(** [Clone] and [Drop] of [Registrar]. *)
Definition clone_registrar (w : World) : World :=
  mkWorld (store w) (fresh w) (producers w) (S (registrars w)) (live w + 1) (state w) (rx w).
Definition drop_registrar (w : World) : World :=
  mkWorld (store w) (fresh w) (producers w) (registrars w - 1) (live w - 1) (state w) (rx w).

(** ** [Receiver] *)

Definition set_batch (w : World) (n : Z) : World :=
  let r := rx w in set_rx w (mkRx (shards r) (cursor r) (Z.max n 1) (staging r)).

(** [LockedInbox::drain_into] through [ShardState::refresh]. *)
Definition refresh_membership (w : World) : World :=
  match state w with
  | FixedState => w
  | DynamicState b =>
      if generation b =? seen b then w else
      let r := rx w in
      mkWorld (store w) (fresh w) (producers w) (registrars w) (live w)
        (DynamicState (mkInbox (generation b) (generation b) []))
        (mkRx (shards r ++ queue b) (cursor r) (batch r) (staging r))
  end.

Definition disconnected (w : World) : bool := live w =? 0.

(** [ShardState::dispose]: the shard leaves the working set and is dropped. *)
Definition dispose_finished (w : World) (i : nat) : outcome (bool * World) :=
  let r := rx w in
  '(sid, sh) ← swap_remove (shards r) i;
  OK (true, mkWorld (delete sid (store w)) (fresh w) (producers w) (registrars w) (live w) (state w)
              (mkRx sh (cursor r) (batch r) (staging r))).

Definition bump (w : World) : World :=
  let r := rx w in
  set_rx w (mkRx (shards r) (wrapping_add (cursor r) 1) (batch r) (staging r)).

(** The step that [try_recv], [try_recv_many] and [drain_once] share: drain the
    shard under the cursor, then advance, or dispose of it when it is finished
    (a removed shard leaves the cursor on the one moved into its place). *)
Definition visit {S} (w : World) (max : Z) (f : callback S T) (st : S)
    : outcome (flow Z * World * S) :=
  let r := rx w in
  let i := Z.to_nat (cursor r mod Z.of_nat (length (shards r))) in
  match shards r !! i with
  | None => PANIC
  | Some sid =>
      c ← deref w sid;
      '(fl, c1, st1) ← bk_drain_in_place c max f st;
      let w1 := set_shard w sid c1 in
      match fl with
      | Unwound => OK (Unwound, w1, st1)
      | Returned got =>
          if 0 <? got then OK (Returned got, bump w1, st1) else
          fin ← bk_is_finished c1;
          if (fin : bool) then
            '(removed, w2) ← dispose_finished w1 i;
            OK (Returned 0, if (removed : bool) then w2 else bump w2, st1)
          else OK (Returned 0, bump w1, st1)
      end
  end.

Definition append : callback (list T) T := fun out v => (out ++ [v], false).

(** [try_recv]: staging is empty here, and holds one shard's batch on success. *)
Fixpoint try_recv_loop (n : nat) (w : World) : outcome World :=
  match n with
  | O => OK w
  | S n' =>
      '(fl, w1, out) ← visit w (batch (rx w)) append (staging (rx w));
      let r1 := rx w1 in
      let w2 := set_rx w1 (mkRx (shards r1) (cursor r1) (batch r1) out) in
      match fl with
      | Unwound => PANIC
      | Returned got =>
          if 0 <? got then OK w2 else
          match shards (rx w2) with
          | [] => OK w2
          | _ => try_recv_loop n' w2
          end
      end
  end.

Definition pop_staging (w : World) : option T * World :=
  let r := rx w in
  match staging r with
  | [] => (None, w)
  | v :: s => (Some v, set_rx w (mkRx (shards r) (cursor r) (batch r) s))
  end.

Definition try_recv (w : World) : outcome (option T * World) :=
  match staging (rx w) with
  | _ :: _ => OK (pop_staging w)
  | [] =>
      let w1 := refresh_membership w in
      match shards (rx w1) with
      | [] => OK (None, w1)
      | _ => w2 ← try_recv_loop (length (shards (rx w1))) w1; OK (pop_staging w2)
      end
  end.

(** [try_recv_many]: [out] is what was appended to the caller's buffer. *)
Fixpoint recv_many_loop (n : nat) (w : World) (max pushed : Z) (out : list T)
    : outcome (Z * World * list T) :=
  match n with
  | O => OK (pushed, w, out)
  | S n' =>
      if pushed <? max then
        match shards (rx w) with
        | [] => OK (pushed, w, out)
        | _ =>
            '(fl, w1, out1) ← visit w (max - pushed) append out;
            match fl with
            | Unwound => PANIC
            | Returned got => recv_many_loop n' w1 max (pushed + got) out1
            end
        end
      else OK (pushed, w, out)
  end.

Definition try_recv_many (w : World) (max : Z) : outcome (Z * World * list T) :=
  if max =? 0 then OK (0, w, []) else
  let r := rx w in
  let k := Nat.min (Z.to_nat max) (length (staging r)) in
  let w1 := set_rx w (mkRx (shards r) (cursor r) (batch r) (drop k (staging r))) in
  let out := take k (staging r) in
  if Z.of_nat k =? max then OK (Z.of_nat k, w1, out) else
  let w2 := refresh_membership w1 in
  recv_many_loop (length (shards (rx w2))) w2 max (Z.of_nat k) out.

(** [drain_once]: [f] is the caller's closure and may panic. *)
Fixpoint drain_once_loop {S} (n : nat) (w : World) (total : Z) (f : callback S T) (st : S)
    : outcome (flow Z * World * S) :=
  match n with
  | O => OK (Returned total, w, st)
  | Datatypes.S n' =>
      match shards (rx w) with
      | [] => OK (Returned total, w, st)
      | _ =>
          '(fl, w1, st1) ← visit w (batch (rx w)) f st;
          match fl with
          | Unwound => OK (Unwound, w1, st1)
          | Returned got => drain_once_loop n' w1 (total + got) f st1
          end
      end
  end.

Definition drain_once {S} (w : World) (f : callback S T) (st : S) : outcome (flow Z * World * S) :=
  let w1 := refresh_membership w in
  drain_once_loop (length (shards (rx w1))) w1 0 f st.

End gather.
Arguments Receiver T : clear implicits.
Arguments World T C : clear implicits.

(** ** Invariant *)

Lemma swap_remove_spec {A} (l : list A) i x :
  l !! i = Some x -> exists l', swap_remove l i = OK (x, l') /\ l ≡ₚ x :: l'.
Proof.
  intros Hi. unfold swap_remove. rewrite Hi.
  destruct l as [|z l0 _] using rev_ind; [done|]. rewrite last_snoc.
  eexists. split; [done|]. rewrite length_app. simpl.
  replace (length l0 + 1 - 1)%nat with (length l0) by lia.
  destruct (decide (i < length l0)%nat) as [Hlt|Hge].
  - rewrite lookup_app_l in Hi by done. rewrite insert_app_l by done.
    rewrite take_app_length' by (by rewrite length_insert).
    destruct (list_elem_of_split_length l0 i x Hi) as (l1 & l2 & -> & ->).
    rewrite insert_app_r_alt, Nat.sub_diag by done. simpl.
    rewrite <- app_assoc. simpl. rewrite <- (Permutation_middle l1 (l2 ++ [z]) x).
    apply perm_skip, Permutation_app_head. by rewrite Permutation_app_comm.
  - assert (i = length l0) as -> by (apply lookup_lt_Some in Hi; rewrite length_app in Hi; simpl in Hi; lia).
    rewrite list_lookup_middle in Hi by done. injection Hi as ->.
    rewrite insert_app_r_alt, Nat.sub_diag by done. simpl. rewrite take_app_length.
    by rewrite Permutation_app_comm.
Qed.

(** Registered shards that the receiver has not taken in yet. *)
Definition pending (s : ShardState) : list nat :=
  match s with FixedState => [] | DynamicState b => queue b end.

(** The shards the receiver owns: its working set and the undrained inbox. *)
Definition members {T C} (w : World T C) : list nat :=
  shards (rx w) ++ pending (state w).

(** The inbox generation counts the deposits since the last drain. *)
Definition inbox_ok (s : ShardState) : Prop :=
  match s with
  | FixedState => True
  | DynamicState b =>
      0 <= seen b < USIZE /\ generation b = (seen b + Z.of_nat (length (queue b))) mod USIZE
  end.

Section invariant.
Context {T C : Type} `{SpscLaws T C}.
Implicit Types (w : World T C) (Q : nat -> list T) (G : nat -> bool).

(** [Q sid] is the content of shard [sid] and [G sid] says its producer is gone. *)
Record world_at w Q G : Prop := {
  wa_shard : forall sid, sid ∈ members w ->
    exists c, store w !! sid = Some c /\ bk_repr c (Q sid) (G sid) false;
  wa_nodup : NoDup (members w);
  wa_dead : forall sid, sid ∉ members w -> Q sid = [];
  wa_fresh : forall sid, sid ∈ members w -> (sid < fresh w)%nat;
  wa_prod : forall sid, sid ∈ producers w <-> sid ∈ members w /\ G sid = false;
  wa_live : live w = Z.of_nat (size (producers w)) + Z.of_nat (registrars w);
  wa_batch : 1 <= batch (rx w);
  wa_cursor : 0 <= cursor (rx w) < USIZE;
  wa_inbox : inbox_ok (state w);
  wa_bound : Z.of_nat (fresh w) < USIZE
}.

(** No more shards than were ever created. *)
Lemma members_bound w Q G : world_at w Q G -> (length (members w) <= fresh w)%nat.
Proof.
  intros Hw. rewrite <- (length_seq (fresh w) 0). apply submseteq_length, NoDup_submseteq; [apply Hw|].
  intros s Hs. apply elem_of_seq. apply (wa_fresh _ _ _ Hw) in Hs. lia.
Qed.

(** An unchanged generation means an empty inbox. *)
Lemma inbox_quiet w Q G b :
  world_at w Q G -> state w = DynamicState b -> generation b = seen b -> queue b = [].
Proof.
  intros Hw Hs Hg. pose proof (wa_inbox _ _ _ Hw) as Hi. pose proof (members_bound _ _ _ Hw) as Hb.
  pose proof (wa_bound _ _ _ Hw). unfold members, pending in Hb. rewrite Hs in *. rewrite length_app in Hb.
  destruct Hi as [Hr Hi]. rewrite Hg in Hi. rewrite <- (usize_small (seen b)) in Hi at 1 by lia.
  apply mod_inj in Hi; [|lia|lia]. apply nil_length_inv. lia.
Qed.

Lemma deref_member w Q G sid :
  world_at w Q G -> sid ∈ members w ->
  exists c, deref w sid = OK c /\ store w !! sid = Some c /\ bk_repr c (Q sid) (G sid) false.
Proof.
  intros Hw Hin. destruct (wa_shard _ _ _ Hw sid Hin) as (c & Hc & Hr). exists c.
  unfold deref. by rewrite Hc.
Qed.

(** Replacing one shard's transport. *)
Lemma world_at_set_shard w Q G sid c q :
  world_at w Q G -> sid ∈ members w -> bk_repr c q (G sid) false ->
  world_at (set_shard w sid c) (<[sid := q]> Q) G.
Proof.
  intros Hw Hin Hc. destruct Hw. split; try done; simpl.
  - intros s Hs. destruct (decide (s = sid)) as [->|Hne].
    + exists c. rewrite lookup_insert_eq, fn_lookup_insert. done.
    + rewrite lookup_insert_ne, fn_lookup_insert_ne by done. by apply wa_shard0.
  - intros s Hs. rewrite fn_lookup_insert_ne; [by apply wa_dead0|]. by intros ->.
Qed.

(** Changing only the receiver's position or staging. *)
Lemma world_at_set_rx w Q G r :
  world_at w Q G -> shards r = shards (rx w) -> 1 <= batch r -> 0 <= cursor r < USIZE ->
  world_at (set_rx w r) Q G.
Proof.
  intros Hw Hs Hb Hc. assert (members (set_rx w r) = members w) as Hm
    by (unfold members; simpl; by rewrite Hs).
  destruct Hw. split; rewrite ?Hm; done.
Qed.

Lemma world_at_bump w Q G : world_at w Q G -> world_at (bump w) Q G.
Proof.
  intros Hw. apply world_at_set_rx; [done|done|apply Hw|].
  simpl. unfold wrapping_add. apply cursor_range.
Qed.

(** A fresh shard is announced: [q] has it in the receiver's set or the inbox. *)
Lemma world_at_refresh w Q G :
  world_at w Q G ->
  world_at (refresh_membership w) Q G /\ members (refresh_membership w) ≡ₚ members w /\
  staging (rx (refresh_membership w)) = staging (rx w) /\
  batch (rx (refresh_membership w)) = batch (rx w) /\
  cursor (rx (refresh_membership w)) = cursor (rx w) /\
  producers (refresh_membership w) = producers w /\ live (refresh_membership w) = live w /\
  shards (rx (refresh_membership w)) = members w.
Proof.
  intros Hw. unfold refresh_membership. destruct (state w) as [|b] eqn:E.
  - splits. unfold members. by rewrite E, app_nil_r.
  - destruct (Z.eqb_spec (generation b) (seen b)) as [Hg|Hg].
    + splits. unfold members, pending. rewrite E, (inbox_quiet w Q G b Hw E Hg), app_nil_r. done.
    + match goal with |- world_at ?w' _ _ /\ _ => assert (members w' = members w) as Hm end.
      { unfold members. simpl. by rewrite E, app_nil_r. }
      splits.
      * pose proof (wa_inbox _ _ _ Hw) as Hi. rewrite E in Hi. destruct Hi as [Hi1 Hi2].
        assert (0 <= generation b < USIZE) by (rewrite Hi2; apply cursor_range).
        destruct Hw. split; rewrite ?Hm; try done. simpl. rewrite Z.add_0_r, usize_small by done. done.
      * by rewrite Hm.
      * unfold members. by rewrite E.
Qed.

(** A finished shard leaves. *)
Lemma world_at_dispose w Q G i sid :
  world_at w Q G -> shards (rx w) !! i = Some sid -> Q sid = [] -> G sid = true ->
  exists sh w', dispose_finished w i = OK (true, w') /\ world_at w' Q G /\
    shards (rx w) ≡ₚ sid :: sh /\
    rx w' = mkRx sh (cursor (rx w)) (batch (rx w)) (staging (rx w)) /\
    producers w' = producers w /\ live w' = live w /\ state w' = state w /\
    registrars w' = registrars w /\ fresh w' = fresh w.
Proof.
  intros Hw Hi Hq Hg. destruct (swap_remove_spec _ _ _ Hi) as (sh & Hsr & Hp).
  unfold dispose_finished. rewrite Hsr. simpl. eexists sh, _. split; [done|]. split; [|done].
  match goal with |- world_at ?w' _ _ => assert (members w ≡ₚ sid :: members w') as Hm end.
  { unfold members. simpl. by rewrite Hp. }
  pose proof (wa_nodup _ _ _ Hw) as Hnd. rewrite Hm in Hnd. apply NoDup_cons in Hnd as [Hni Hnd].
  destruct Hw. split; try done.
  - intros s Hs. simpl. assert (s <> sid) as Hne by (by intros ->).
    rewrite lookup_delete_ne by done. apply wa_shard0. rewrite Hm. by right.
  - intros s Hs. destruct (decide (s = sid)) as [->|Hne]; [done|]. apply wa_dead0.
    rewrite Hm, elem_of_cons. by intros [?|?].
  - intros s Hs. apply wa_fresh0. rewrite Hm. by right.
  - intros s. simpl. rewrite wa_prod0, Hm, elem_of_cons. split.
    + intros [[->|?] ?]; [congruence|done].
    + intros [? ?]. split; [by right|done].
Qed.

(** What a visit leaves alone. *)
Definition same_env w w' : Prop :=
  producers w' = producers w /\ live w' = live w /\ batch (rx w') = batch (rx w) /\
  staging (rx w') = staging (rx w) /\ registrars w' = registrars w /\ state w' = state w /\
  fresh w' = fresh w.

(** One visit drains a prefix of the shard under the cursor. When it finds the
    shard empty, either its producer is gone and the shard leaves, or the cursor
    moves on. *)
Lemma visit_spec {S} w Q G max (f : callback S T) st :
  world_at w Q G -> shards (rx w) <> [] -> 0 < max ->
  exists i sid n w' st' k p,
    i = Z.to_nat (cursor (rx w) mod Z.of_nat (length (shards (rx w)))) /\
    shards (rx w) !! i = Some sid /\
    (n <= length (Q sid))%nat /\ Z.of_nat n <= max /\ (Q sid <> [] -> (0 < n)%nat) /\
    feed f st (take n (Q sid)) = (st', k, p) /\ (k <= n)%nat /\ (p = false -> k = n) /\
    visit w max f st = OK (if p then Unwound else Returned (Z.of_nat n), w', st') /\
    world_at w' (<[sid := drop k (Q sid)]> Q) G /\ same_env w w' /\
    (if bool_decide (p = false /\ Q sid = [] /\ G sid = true)
     then shards (rx w) ≡ₚ sid :: shards (rx w') /\ cursor (rx w') = cursor (rx w)
     else shards (rx w') = shards (rx w) /\
       cursor (rx w') = if p then cursor (rx w) else wrapping_add (cursor (rx w)) 1).
Proof.
  intros Hw Hne Hmax. set (i := Z.to_nat (cursor (rx w) mod Z.of_nat (length (shards (rx w))))).
  assert (i < length (shards (rx w)))%nat as Hi.
  { destruct (shards (rx w)) as [|z l]; [done|]. unfold i. simpl length.
    pose proof (Z.mod_pos_bound (cursor (rx w)) (Z.of_nat (Datatypes.S (length l))) ltac:(lia)). lia. }
  destruct (lookup_lt_is_Some_2 _ _ Hi) as [sid Hsid].
  assert (sid ∈ members w) as Hin
    by (unfold members; apply elem_of_app; left; by eapply list_elem_of_lookup_2).
  destruct (deref_member w Q G sid Hw Hin) as (c & Hd & Hst & Hc).
  destruct (bk_drain_in_place_law S c (Q sid) (G sid) max f st Hc ltac:(lia))
    as (n & c1 & st' & k & p & Hn & Hnm & Hnp & Hf & Hdr & Hc1).
  pose proof (feed_count f st (take n (Q sid))) as Hfc. rewrite Hf, length_take_le in Hfc by done.
  destruct Hfc as [Hk Hkp].
  pose proof (world_at_set_shard w Q G sid c1 _ Hw Hin Hc1) as Hw1.
  exists i, sid, n. unfold visit. fold i. rewrite Hsid, Hd. simpl. rewrite Hdr. simpl.
  destruct p.
  { eexists _, st', k, true. rewrite bool_decide_false by (by intros [? _]). splits. intros ?. by apply Hnp. }
  specialize (Hkp eq_refl). subst k.
  destruct (Z.ltb_spec 0 (Z.of_nat n)) as [Hn0|Hn0].
  { assert (Q sid <> []) as HQ by (intros E; rewrite E in Hn; simpl in Hn; lia).
    eexists _, st', n, false. rewrite bool_decide_false by (intros (_ & ? & _); done).
    splits; [by apply world_at_bump]. }
  assert (n = O) as -> by lia.
  assert (Q sid = []) as HQ by (destruct (Q sid); [done|specialize (Hnp ltac:(done) Hmax); lia]).
  rewrite (bk_is_finished_law c1 _ _ Hc1). 
  replace (G sid && bool_decide (drop 0 (Q sid) = [])) with (G sid)
    by (rewrite HQ, bool_decide_true, andb_true_r; done).
  cbn [mbind outcome_bind]. rewrite HQ in *. simpl in Hw1. destruct (G sid) eqn:HG.
  - destruct (world_at_dispose _ _ G i sid Hw1 Hsid ltac:(apply fn_lookup_insert) HG)
      as (sh & w' & -> & Hw' & Hp & Hrx & Hpr & Hlv & Hste & Hrg & Hfr). simpl.
    exists w', st', O, false. rewrite bool_decide_true by done. rewrite Hrx. simpl.
    splits. unfold same_env. by rewrite Hrx.
  - exists (bump (set_shard w sid c1)), st', O, false.
    rewrite bool_decide_false by (intros (_ & _ & ?); done). splits. by apply world_at_bump.
Qed.

(** [moved Q d Q']: the values [d], in this order, left the shards [Q], each
    time a prefix of one shard, and [Q'] is what remains. *)
Inductive moved : (nat -> list T) -> list T -> (nat -> list T) -> Prop :=
| moved_nil Q : moved Q [] Q
| moved_cons Q sid n d Q' :
    moved (<[sid := drop n (Q sid)]> Q) d Q' -> moved Q (take n (Q sid) ++ d) Q'.

Lemma moved_app Q d Q' e Q'' : moved Q d Q' -> moved Q' e Q'' -> moved Q (d ++ e) Q''.
Proof. induction 1; intros He; [done|]. rewrite <- app_assoc. constructor. auto. Qed.

(** Values carry their shard: [owner v] is the shard [v] was sent on. *)
Definition owned (owner : T -> nat) Q : Prop := forall sid v, v ∈ Q sid -> owner v = sid.

Lemma filter_owner (owner : T -> nat) (sid s : nat) (l : list T) :
  (forall v, v ∈ l -> owner v = sid) ->
  filter (fun v => owner v = s) l = if decide (sid = s) then l else [].
Proof.
  intros Hl. induction l as [|v l IH]; [by case_decide|].
  rewrite filter_cons. rewrite (Hl v) by (by left).
  rewrite IH by (intros; apply Hl; by right). by repeat case_decide.
Qed.

Lemma moved_account owner Q d Q' :
  moved Q d Q' -> owned owner Q ->
  owned owner Q' /\ forall s, filter (fun v => owner v = s) d ++ Q' s = Q s.
Proof.
  induction 1 as [Q|Q sid n d Q' Hm IH]; intros Ho; [done|].
  destruct IH as [Ho' Hs].
  { intros s v Hv. destruct (decide (s = sid)) as [->|Hne].
    - rewrite fn_lookup_insert in Hv. apply Ho. rewrite <- (take_drop n (Q sid)). apply elem_of_app. by right.
    - rewrite fn_lookup_insert_ne in Hv by done. by apply Ho. }
  split; [done|]. intros s. rewrite filter_app, <- app_assoc, Hs.
  rewrite (filter_owner owner sid) by (intros v Hv; apply Ho; rewrite <- (take_drop n (Q sid)); apply elem_of_app; by left).
  case_decide as Hd; [subst s|].
  - rewrite fn_lookup_insert. apply take_drop.
  - by rewrite fn_lookup_insert_ne.
Qed.

Lemma feed_append (st l : list T) : feed append st l = (st ++ l, length l, false).
Proof.
  revert st. induction l as [|v l IH]; intros st; simpl; [by rewrite app_nil_r|].
  rewrite IH. by rewrite <- app_assoc.
Qed.

Lemma visit_append_spec w Q G max out :
  world_at w Q G -> shards (rx w) <> [] -> 0 < max ->
  exists i sid n w',
    i = Z.to_nat (cursor (rx w) mod Z.of_nat (length (shards (rx w)))) /\
    shards (rx w) !! i = Some sid /\ (Q sid <> [] -> (0 < n)%nat) /\
    (n <= length (Q sid))%nat /\ Z.of_nat n <= max /\
    visit w max append out = OK (Returned (Z.of_nat n), w', out ++ take n (Q sid)) /\
    world_at w' (<[sid := drop n (Q sid)]> Q) G /\ same_env w w' /\
    (if bool_decide (Q sid = [] /\ G sid = true)
     then shards (rx w) ≡ₚ sid :: shards (rx w') /\ cursor (rx w') = cursor (rx w)
     else shards (rx w') = shards (rx w) /\ cursor (rx w') = wrapping_add (cursor (rx w)) 1).
Proof.
  intros Hw Hne Hmax.
  destruct (visit_spec w Q G max append out Hw Hne Hmax)
    as (i & sid & n & w' & st' & k & p & H1 & H2 & H3 & H4 & H5 & H6 & H7 & H8 & H9 & H10 & H11 & H12).
  rewrite feed_append in H6. injection H6 as <- <- <-. rewrite (H8 eq_refl) in *.
  exists i, sid, n, w'. splits. by rewrite (bool_decide_ext (Q sid = [] /\ G sid = true)
    (false = false /\ Q sid = [] /\ G sid = true)) by tauto.
Qed.

Lemma world_at_staging w Q G out :
  world_at w Q G ->
  world_at (set_rx w (mkRx (shards (rx w)) (cursor (rx w)) (batch (rx w)) out)) Q G.
Proof. intros Hw. apply world_at_set_rx; [done|done|apply Hw|apply Hw]. Qed.

Definition same_handles w w' : Prop :=
  producers w' = producers w /\ live w' = live w /\ registrars w' = registrars w /\
  batch (rx w') = batch (rx w) /\ fresh w' = fresh w.

Lemma same_env_handles w w' : same_env w w' -> same_handles w w'.
Proof. unfold same_env, same_handles. tauto. Qed.

Lemma same_handles_trans w1 w2 w3 : same_handles w1 w2 -> same_handles w2 w3 -> same_handles w1 w3.
Proof. unfold same_handles. intuition congruence. Qed.

Lemma try_recv_loop_spec m w Q G :
  world_at w Q G -> shards (rx w) <> [] ->
  exists w' Q' d, try_recv_loop m w = OK w' /\ world_at w' Q' G /\ moved Q d Q' /\
    staging (rx w') = staging (rx w) ++ d /\ same_handles w w' /\ state w' = state w.
Proof.
  revert w Q. induction m as [|m IH]; intros w Q Hw Hne; cbn [try_recv_loop].
  { exists w, Q, []. rewrite app_nil_r. splits. constructor. }
  destruct (visit_append_spec w Q G (batch (rx w)) (staging (rx w)) Hw Hne)
    as (i & sid & n & w1 & _ & _ & Hn & Hl & _ & -> & Hw1 & He & Hsh); [destruct Hw; lia|].
  cbn [mbind outcome_bind].
  pose proof (world_at_staging w1 _ G (staging (rx w) ++ take n (Q sid)) Hw1) as Hw2.
  set (w2 := set_rx w1 _) in *.
  assert (same_handles w w2 /\ state w2 = state w) as [Hh Hste]
    by (unfold same_env in He; unfold same_handles; simpl; tauto).
  assert (moved Q (take n (Q sid)) (<[sid := drop n (Q sid)]> Q)) as Hm
    by (rewrite <- (app_nil_r (take n (Q sid))); do 2 constructor).
  destruct (Z.ltb_spec 0 (Z.of_nat n)).
  { exists w2, (<[sid := drop n (Q sid)]> Q), (take n (Q sid)). splits. }
  assert (n = O) as -> by lia. destruct (shards (rx w2)) as [|z l] eqn:E.
  { exists w2, (<[sid := drop 0 (Q sid)]> Q), (take 0 (Q sid)). splits. }
  destruct (IH w2 _ Hw2) as (w' & Q' & d & Hrun & Hw' & Hm' & Hst & Hh' & Hste'); [by rewrite E|].
  exists w', Q', (take 0 (Q sid) ++ d). splits.
  - by eapply moved_app.
  - rewrite Hst. simpl. by rewrite app_nil_r.
  - by eapply same_handles_trans.
  - congruence.
Qed.

Lemma pop_staging_spec w Q G :
  world_at w Q G ->
  world_at (pop_staging w).2 Q G /\
  option_list (pop_staging w).1 ++ staging (rx (pop_staging w).2) = staging (rx w) /\
  same_handles w (pop_staging w).2 /\ shards (rx (pop_staging w).2) = shards (rx w) /\
  ((pop_staging w).1 = None -> staging (rx w) = [] /\ (pop_staging w).2 = w).
Proof.
  intros Hw. unfold pop_staging. destruct (staging (rx w)) as [|v l] eqn:E; [done|].
  splits. by apply world_at_staging.
Qed.

(** [try_recv] hands out the oldest staged value, or one drained just now. *)
Lemma try_recv_spec w Q G :
  world_at w Q G ->
  exists o w' Q' d, try_recv w = OK (o, w') /\ world_at w' Q' G /\ moved Q d Q' /\
    option_list o ++ staging (rx w') = staging (rx w) ++ d /\ same_handles w w'.
Proof.
  intros Hw. unfold try_recv. destruct (staging (rx w)) as [|v l] eqn:E.
  - destruct (world_at_refresh w Q G Hw) as (Hw1 & Hm & Hst & Hb & Hc & Hp & Hl & Hs).
    assert (same_handles w (refresh_membership w)) as Hh.
    { unfold same_handles. rewrite Hb, Hp, Hl. unfold refresh_membership.
      destruct (state w); [done|]. by destruct (generation inbox =? seen inbox). }
    destruct (shards (rx (refresh_membership w))) as [|z sh] eqn:Es.
    + exists None, (refresh_membership w), Q, []. rewrite Hst, E. splits. constructor.
    + destruct (try_recv_loop_spec (length (z :: sh)) (refresh_membership w) Q G Hw1)
        as (w2 & Q' & d & -> & Hw2 & Hmv & Hst2 & Hh2 & _); [by rewrite Es|].
      cbn [mbind outcome_bind]. destruct (pop_staging_spec w2 Q' G Hw2) as (Hw3 & Hst3 & Hh3 & _).
      destruct (pop_staging w2) as [o w3]. simpl in *. exists o, w3, Q', d.
      rewrite Hst3, Hst2, Hst, E. splits. eapply same_handles_trans; [done|]. by eapply same_handles_trans.
  - destruct (pop_staging_spec w Q G Hw) as (Hw3 & Hst3 & Hh3 & _).
    destruct (pop_staging w) as [o w3]. simpl in *. exists o, w3, Q, [].
    rewrite Hst3, E, app_nil_r. splits. constructor.
Qed.

Lemma recv_many_loop_spec m w Q G max pushed out :
  world_at w Q G -> pushed <= max ->
  exists w' Q' d, recv_many_loop m w max pushed out =
      OK (pushed + Z.of_nat (length d), w', out ++ d) /\
    world_at w' Q' G /\ moved Q d Q' /\ pushed + Z.of_nat (length d) <= max /\
    staging (rx w') = staging (rx w) /\ same_handles w w'.
Proof.
  revert w Q pushed out. induction m as [|m IH]; intros w Q pushed out Hw Hp; cbn [recv_many_loop].
  { exists w, Q, []. rewrite app_nil_r, Z.add_0_r. splits. constructor. }
  destruct (Z.ltb_spec pushed max) as [Hlt|Hge].
  2:{ exists w, Q, []. rewrite app_nil_r, Z.add_0_r. splits. constructor. }
  destruct (shards (rx w)) as [|z l] eqn:E.
  { exists w, Q, []. rewrite app_nil_r, Z.add_0_r. splits. constructor. }
  destruct (visit_append_spec w Q G (max - pushed) out Hw)
    as (i & sid & n & w1 & _ & _ & _ & Hl & Hnm & -> & Hw1 & He & _); [by rewrite E|lia|].
  cbn [mbind outcome_bind].
  destruct (IH w1 _ (pushed + Z.of_nat n) (out ++ take n (Q sid)) Hw1 ltac:(lia))
    as (w' & Q' & d & -> & Hw' & Hm & Hle & Hst & Hh).
  exists w', Q', (take n (Q sid) ++ d). rewrite length_app, length_take_le, app_assoc by done.
  splits.
  - do 2 f_equal. f_equal. lia.
  - by constructor.
  - rewrite Hst. by destruct He as (_ & _ & _ & -> & _).
  - eapply same_handles_trans; [by apply same_env_handles|done].
Qed.

Lemma world_at_ext w Q Q' G G' :
  (forall s, Q s = Q' s) -> (forall s, s ∈ members w -> G s = G' s) -> world_at w Q G -> world_at w Q' G'.
Proof.
  intros HQ HG Hw. destruct Hw. split; try done.
  - intros s Hs. rewrite <- HQ, <- (HG s Hs). by apply wa_shard0.
  - intros s Hs. rewrite <- HQ. by apply wa_dead0.
  - intros s. rewrite wa_prod0. split; intros [Hs Hg]; (split; [done|]); [by rewrite <- HG|by rewrite HG].
Qed.

Lemma drop_0_id Q sid s : <[sid := drop 0 (Q sid)]> Q s = Q s.
Proof.
  destruct (decide (s = sid)) as [->|Hne]; [by rewrite fn_lookup_insert|by rewrite fn_lookup_insert_ne].
Qed.

(** One empty visit. *)
Lemma try_recv_loop_empty m w Q G :
  world_at w Q G -> shards (rx w) <> [] -> staging (rx w) = [] ->
  exists i sid w1, i = Z.to_nat (cursor (rx w) mod Z.of_nat (length (shards (rx w)))) /\
    shards (rx w) !! i = Some sid /\ world_at w1 Q G /\
    (Q sid <> [] -> exists w', try_recv_loop (S m) w = OK w' /\ staging (rx w') <> []) /\
    (Q sid = [] -> staging (rx w1) = [] /\ same_handles w w1 /\
       try_recv_loop (S m) w =
         (match shards (rx w1) with [] => OK w1 | _ => try_recv_loop m w1 end) /\
       (if G sid
        then shards (rx w) ≡ₚ sid :: shards (rx w1)
        else shards (rx w1) = shards (rx w) /\ cursor (rx w1) = wrapping_add (cursor (rx w)) 1)).
Proof.
  intros Hw Hne Hst.
  destruct (visit_append_spec w Q G (batch (rx w)) [] Hw Hne)
    as (i & sid & n & w1 & Hi & Hsid & Hn & Hl & _ & Hv & Hw1 & He & Hsh); [destruct Hw; lia|].
  set (w2 := set_rx w1 (mkRx (shards (rx w1)) (cursor (rx w1)) (batch (rx w1)) (take n (Q sid)))).
  assert (try_recv_loop (S m) w =
    if 0 <? Z.of_nat n then OK w2
    else match shards (rx w2) with [] => OK w2 | _ => try_recv_loop m w2 end) as Hrun.
  { cbn [try_recv_loop]. rewrite Hst, Hv. done. }
  destruct (decide (Q sid = [])) as [HQ|HQ].
  - assert (n = O) as -> by (rewrite HQ in Hl; simpl in Hl; lia).
    exists i, sid, w2. splits.
    + apply world_at_staging. by eapply world_at_ext; [apply drop_0_id|done|exact Hw1].
    + intros _. splits.
      * unfold same_env in He. unfold same_handles. simpl. tauto.
      * rewrite HQ in Hsh. destruct (G sid).
        -- rewrite bool_decide_true in Hsh by done. by destruct Hsh.
        -- rewrite bool_decide_false in Hsh by (by intros [_ ?]). done.
  - specialize (Hn HQ). exists i, sid, w. splits.
    intros _. exists w2. rewrite Hrun. destruct (Z.ltb_spec 0 (Z.of_nat n)); [|lia].
    split; [done|]. simpl. destruct (Q sid), n; done || lia.
Qed.

(** With every producer gone, a pass that finds nothing has emptied the set. *)
Lemma try_recv_loop_gone m w Q G w' :
  world_at w Q G -> shards (rx w) <> [] -> staging (rx w) = [] ->
  (forall sid, sid ∈ shards (rx w) -> G sid = true) -> (length (shards (rx w)) <= m)%nat ->
  try_recv_loop m w = OK w' -> staging (rx w') = [] ->
  (forall sid, sid ∈ shards (rx w) -> Q sid = []) /\ shards (rx w') = [].
Proof.
  revert w. induction m as [|m IH]; intros w Hw Hne Hst HG Hm Hrun He.
  { destruct (shards (rx w)); [done|simpl in Hm; lia]. }
  destruct (try_recv_loop_empty m w Q G Hw Hne Hst) as (i & sid & w1 & _ & Hsid & Hw1 & H1 & H2).
  destruct (decide (Q sid = [])) as [HQ|HQ].
  2:{ destruct (H1 HQ) as (w2 & Hr2 & Hs2). rewrite Hrun in Hr2. by injection Hr2 as ->. }
  destruct (H2 HQ) as (Hst1 & _ & Hr & Hsh).
  rewrite (HG sid) in Hsh by (by eapply list_elem_of_lookup_2). rewrite Hrun in Hr.
  assert (forall s, s ∈ shards (rx w1) -> s ∈ shards (rx w)) as Hsub
    by (intros s Hs; rewrite Hsh; by right).
  destruct (shards (rx w1)) as [|z l] eqn:E.
  - injection Hr as ->. split; [|done]. intros s Hs. rewrite Hsh in Hs.
    by apply list_elem_of_singleton in Hs as ->.
  - rewrite <- E in *. destruct (IH w1 Hw1) as [IH1 IH2]; [by rewrite E|done|auto| |done|done|].
    { apply Permutation_length in Hsh. simpl in Hsh. lia. }
    split; [|done]. intros s Hs. rewrite Hsh in Hs. apply elem_of_cons in Hs as [->|Hs]; auto.
Qed.

Lemma recv_many_loop_gone m w Q G max out w' out' :
  world_at w Q G -> 0 < max -> (forall sid, sid ∈ shards (rx w) -> G sid = true) -> (length (shards (rx w)) <= m)%nat ->
  recv_many_loop m w max 0 out = OK (0, w', out') -> forall sid, sid ∈ shards (rx w) -> Q sid = [].
Proof.
  revert w Q out. induction m as [|m IH]; intros w Q out Hw Hmax HG Hm; cbn [recv_many_loop].
  { intros _ sid Hs. destruct (shards (rx w)); [by apply not_elem_of_nil in Hs|simpl in Hm; lia]. }
  destruct (Z.ltb_spec 0 max); [|lia]. destruct (shards (rx w)) as [|z l] eqn:E; [by intros _ sid Hs%not_elem_of_nil|].
  rewrite <- E in *. destruct (visit_append_spec w Q G (max - 0) out Hw)
    as (i & sid & n & w1 & _ & Hsid & Hn & _ & Hnm & -> & Hw1 & _ & Hsh); [by rewrite E|lia|].
  cbn [mbind outcome_bind]. intros Hrun.
  destruct (recv_many_loop_spec m w1 _ G max (0 + Z.of_nat n) (out ++ take n (Q sid)) Hw1) as (w2 & Q2 & d & E2 & _); [lia|].
  rewrite Hrun in E2. injection E2 as Hz _ _.
  assert (n = O) as -> by lia. assert (Q sid = []) as HQ by (destruct (Q sid); [done|]; lapply Hn; [lia|done]).
  rewrite (bool_decide_true (Q sid = [] /\ G sid = true)) in Hsh by (split; [done|apply HG; by eapply list_elem_of_lookup_2]).
  destruct Hsh as [Hsh _]. intros s Hs. rewrite Hsh in Hs. apply elem_of_cons in Hs as [->|Hs]; [done|].
  rewrite <- (drop_0_id Q sid s). eapply (IH w1 _ _ Hw1 Hmax); [| |exact Hrun|done].
  - intros s' Hs'. apply HG. rewrite Hsh. by right.
  - apply Permutation_length in Hsh. simpl in Hsh. lia.
Qed.

(** With every producer alive, a pass visits consecutive positions. *)
Lemma try_recv_loop_alive m w Q G w' :
  world_at w Q G -> shards (rx w) <> [] -> staging (rx w) = [] ->
  (forall sid, sid ∈ shards (rx w) -> G sid = false) -> cursor (rx w) + Z.of_nat m < USIZE ->
  try_recv_loop m w = OK w' -> staging (rx w') = [] ->
  forall (j : nat) sid, (j < m)%nat ->
    shards (rx w) !! Z.to_nat ((cursor (rx w) + Z.of_nat j) mod Z.of_nat (length (shards (rx w)))) = Some sid ->
    Q sid = [].
Proof.
  revert w. induction m as [|m IH]; intros w Hw Hne Hst HG Hm Hrun He j s Hj Hs; [lia|].
  destruct (try_recv_loop_empty m w Q G Hw Hne Hst) as (i & sid & w1 & Hi & Hsid & Hw1 & H1 & H2).
  destruct (decide (Q sid = [])) as [HQ|HQ].
  2:{ destruct (H1 HQ) as (w2 & Hr2 & Hs2). rewrite Hrun in Hr2. by injection Hr2 as ->. }
  destruct (H2 HQ) as (Hst1 & _ & Hr & Hsh).
  rewrite (HG sid) in Hsh by (by eapply list_elem_of_lookup_2). rewrite Hrun in Hr.
  destruct Hsh as [Hsh Hcur]. destruct j as [|j].
  { rewrite Z.add_0_r, <- Hi, Hsid in Hs. by injection Hs as <-. }
  assert (cursor (rx w1) = cursor (rx w) + 1) as Hc1.
  { rewrite Hcur. unfold wrapping_add. apply usize_small. pose proof (wa_cursor _ _ _ Hw). lia. }
  rewrite <- Hsh in *. destruct (shards (rx w1)) as [|z l] eqn:E; [done|]. rewrite <- E in *.
  apply (IH w1 Hw1) with (j := j); [by rewrite E|done|done|lia|done|done|lia|].
  rewrite Hc1. by replace (cursor (rx w) + 1 + Z.of_nat j) with (cursor (rx w) + Z.of_nat (S j)) by lia.
Qed.

Lemma refresh_pending w Q G : world_at w Q G -> pending (state (refresh_membership w)) = [].
Proof.
  intros Hw. unfold refresh_membership. destruct (state w) as [|b] eqn:E; [by rewrite E|].
  destruct (Z.eqb_spec (generation b) (seen b)) as [Hg|Hg]; [|done].
  rewrite E. by apply (inbox_quiet w Q G b).
Qed.

(** An empty-handed [try_recv] is a full pass over the refreshed membership. *)
Lemma try_recv_none w Q G w' :
  world_at w Q G -> try_recv w = OK (None, w') ->
  staging (rx w) = [] /\ staging (rx w') = [] /\
  (shards (rx (refresh_membership w)) = [] \/
   try_recv_loop (length (shards (rx (refresh_membership w)))) (refresh_membership w) = OK w') /\
  pending (state w') = [].
Proof.
  intros Hw. unfold try_recv. destruct (world_at_refresh w Q G Hw) as (Hw1 & _ & Hst & _).
  pose proof (refresh_pending w Q G Hw) as Hpend.
  destruct (staging (rx w)) as [|v l] eqn:E.
  - destruct (shards (rx (refresh_membership w))) as [|z sh] eqn:Es.
    + intros [= <-]. splits. by left.
    + destruct (try_recv_loop_spec (length (z :: sh)) (refresh_membership w) Q G Hw1)
        as (w2 & Q' & d & Hr & _ & _ & _ & _ & Hste); [by rewrite Es|]. rewrite Hr.
      cbn [mbind outcome_bind]. unfold pop_staging. destruct (staging (rx w2)) as [|x y] eqn:E2; [|done].
      intros [= <-]. splits; [by right|by rewrite Hste].
  - unfold pop_staging. by rewrite E.
Qed.

Lemma try_recv_none_gone w Q G w' :
  world_at w Q G -> (forall sid, sid ∈ members w -> G sid = true) -> try_recv w = OK (None, w') ->
  (forall sid, Q sid = []) /\ staging (rx w) = [].
Proof.
  intros Hw HG Hr. destruct (try_recv_none w Q G w' Hw Hr) as (Hst & Hst' & Hcase & _).
  destruct (world_at_refresh w Q G Hw) as (Hw1 & Hm & Hst1 & _ & _ & _ & _ & Hs).
  split; [|done]. intros sid. destruct (decide (sid ∈ members w)) as [Hin|Hni].
  2: by apply (wa_dead _ _ _ Hw).
  rewrite Hs in Hcase. destruct Hcase as [E|Hloop]; [rewrite E in Hin; by apply not_elem_of_nil in Hin|].
  assert (members w <> []) as Hne by (intros E; rewrite E in Hin; by apply not_elem_of_nil in Hin).
  destruct (try_recv_loop_gone _ _ Q G w' Hw1 ltac:(by rewrite Hs) ltac:(by rewrite Hst1)
    ltac:(rewrite Hs; done) ltac:(by rewrite Hs) Hloop Hst') as [Hq _].
  apply Hq. by rewrite Hs.
Qed.

Lemma try_recv_none_alive w Q G w' :
  world_at w Q G -> (forall sid, sid ∈ members w -> G sid = false) ->
  cursor (rx w) + Z.of_nat (length (members w)) < USIZE -> try_recv w = OK (None, w') ->
  (forall sid, Q sid = []) /\ staging (rx w) = [].
Proof.
  intros Hw HG Hc Hr. destruct (try_recv_none w Q G w' Hw Hr) as (Hst & Hst' & Hcase & _).
  destruct (world_at_refresh w Q G Hw) as (Hw1 & Hm & Hst1 & _ & Hcu & _ & _ & Hs).
  split; [|done]. intros sid. destruct (decide (sid ∈ members w)) as [Hin|Hni].
  2: by apply (wa_dead _ _ _ Hw).
  rewrite Hs in Hcase. destruct Hcase as [E|Hloop]; [rewrite E in Hin; by apply not_elem_of_nil in Hin|].
  assert (members w <> []) as Hne by (intros E; rewrite E in Hin; by apply not_elem_of_nil in Hin).
  apply list_elem_of_lookup in Hin as [p Hp]. pose proof (lookup_lt_Some _ _ _ Hp) as Hlt.
  set (n := length (members w)) in *. set (cu := cursor (rx w)) in *.
  pose proof (Z.mod_pos_bound (Z.of_nat p - cu) (Z.of_nat n) ltac:(lia)) as Hb.
  apply (try_recv_loop_alive n (refresh_membership w) Q G w' Hw1) with
    (j := Z.to_nat ((Z.of_nat p - cu) mod Z.of_nat n)); rewrite ?Hs, ?Hcu; try done; [by rewrite Hst1|lia|].
  rewrite Z2Nat.id by lia. fold n cu. rewrite Zplus_mod_idemp_r.
  replace (cu + (Z.of_nat p - cu)) with (Z.of_nat p) by lia.
  by rewrite Z.mod_small, Nat2Z.id by lia.
Qed.

(** The values a callback was handed, in order. *)
Lemma feed_take {S} (f : callback S T) st l st' k p :
  feed f st l = (st', k, p) -> feed f st (take k l) = (st', k, p).
Proof.
  revert st st' k p. induction l as [|v l IH]; intros st st' k p; cbn [feed].
  - by intros [= <- <- <-].
  - destruct (f st v) as [s1 [|]] eqn:E; [intros [= <- <- <-]; cbn [take feed]; by rewrite E|].
    destruct (feed f s1 l) as [[s2 k2] p2] eqn:E2. intros [= <- <- <-].
    cbn [take feed]. rewrite E. by rewrite (IH _ _ _ _ E2).
Qed.

Lemma drain_once_loop_spec {S} m w Q G total (f : callback S T) st :
  world_at w Q G ->
  exists w' Q' d st' (p : bool) t, drain_once_loop m w total f st =
      OK (if p then Unwound else Returned (total + t), w', st') /\
    feed f st d = (st', length d, p) /\ world_at w' Q' G /\ moved Q d Q' /\
    (p = false -> t = Z.of_nat (length d)) /\
    staging (rx w') = staging (rx w) /\ same_handles w w'.
Proof.
  revert w Q total st. induction m as [|m IH]; intros w Q total st Hw; cbn [drain_once_loop].
  { exists w, Q, [], st, false, 0. rewrite Z.add_0_r. splits. constructor. }
  destruct (shards (rx w)) as [|z l] eqn:E.
  { exists w, Q, [], st, false, 0. rewrite Z.add_0_r. splits. constructor. }
  destruct (visit_spec w Q G (batch (rx w)) f st Hw)
    as (i & sid & n & w1 & st1 & k & p & _ & _ & Hn & _ & _ & Hf & Hk & Hkp & -> & Hw1 & He & _);
    [by rewrite E|destruct Hw; lia|].
  assert (feed f st (take k (Q sid)) = (st1, k, p)) as Hf'
    by (apply feed_take in Hf; by rewrite take_take, Nat.min_l in Hf by done).
  assert (length (take k (Q sid)) = k) as Hlk by (apply length_take_le; lia).
  destruct p; cbn [mbind outcome_bind].
  { exists w1, (<[sid := drop k (Q sid)]> Q), (take k (Q sid)), st1, true, 0. rewrite Hlk. splits.
    - rewrite <- (app_nil_r (take k (Q sid))). do 2 constructor.
    - by destruct He as (_ & _ & _ & -> & _).
    - by apply same_env_handles. }
  specialize (Hkp eq_refl). subst k.
  destruct (IH w1 _ (total + Z.of_nat n) st1 Hw1) as (w' & Q' & d & st' & p & t & -> & Hfd & Hw' & Hm & Ht & Hst & Hh).
  exists w', Q', (take n (Q sid) ++ d), st', p, (Z.of_nat n + t). splits.
  - by rewrite Z.add_assoc.
  - rewrite feed_app, Hf', Hfd, length_app, Hlk. done.
  - by constructor.
  - intros Hp. rewrite length_app, Hlk. specialize (Ht Hp). lia.
  - rewrite Hst. by destruct He as (_ & _ & _ & -> & _).
  - eapply same_handles_trans; [by apply same_env_handles|done].
Qed.

(** ** Producer handles *)

Lemma wa_prod_fresh w Q G :
  world_at w Q G -> (fresh w ∉ producers w) /\ (fresh w ∉ members w).
Proof.
  intros Hw. assert (fresh w ∉ members w) as Hf by (intros Hin; apply (wa_fresh _ _ _ Hw) in Hin; lia).
  split; [|done]. by intros [? _]%(wa_prod _ _ _ Hw).
Qed.

(** A fresh shard enters, in the working set or in the inbox. *)
Lemma world_at_join w Q G c w' :
  world_at w Q G -> bk_repr c [] false false ->
  store w' = <[fresh w := c]> (store w) -> fresh w' = S (fresh w) ->
  producers w' = {[fresh w]} ∪ producers w -> registrars w' = registrars w -> live w' = live w + 1 ->
  members w' ≡ₚ fresh w :: members w -> batch (rx w') = batch (rx w) ->
  cursor (rx w') = cursor (rx w) -> inbox_ok (state w') -> Z.of_nat (S (fresh w)) < USIZE ->
  world_at w' Q (<[fresh w := false]> G).
Proof.
  intros Hw Hc Hst Hfr Hpr Hrg Hlv Hm Hb Hcu Hin Hbd.
  destruct (wa_prod_fresh w Q G Hw) as [Hnp Hnm]. pose proof (wa_dead _ _ _ Hw _ Hnm) as HQ.
  destruct Hw. split; rewrite ?Hst, ?Hfr, ?Hpr, ?Hrg, ?Hlv, ?Hb, ?Hcu; try done.
  - intros s Hs. rewrite Hm in Hs. apply elem_of_cons in Hs as [->|Hs].
    + exists c. by rewrite lookup_insert_eq, fn_lookup_insert, HQ.
    + assert (s <> fresh w) by (by intros ->).
      rewrite lookup_insert_ne, fn_lookup_insert_ne by done. by apply wa_shard0.
  - rewrite Hm. by constructor.
  - intros s Hs. apply wa_dead0. intros Hin'. apply Hs. rewrite Hm. by right.
  - intros s Hs. rewrite Hm in Hs. apply elem_of_cons in Hs as [->|Hs]; [lia|].
    apply wa_fresh0 in Hs. lia.
  - intros s. rewrite elem_of_union, elem_of_singleton, wa_prod0, Hm, elem_of_cons.
    destruct (decide (s = fresh w)) as [->|Hne].
    + rewrite fn_lookup_insert. tauto.
    + rewrite fn_lookup_insert_ne by done. tauto.
  - rewrite size_union, size_singleton by set_solver. lia.
Qed.

Lemma open_fixed_loop_spec n capacity w w' G :
  world_at w (fun _ => []) G -> state w = FixedState -> Z.of_nat (fresh w + n) < USIZE ->
  open_fixed_loop n capacity w = OK w' ->
  exists G', world_at w' (fun _ => []) G' /\ state w' = FixedState /\
    producers w' = producers w ∪ set_seq (fresh w) n /\ shards (rx w') = shards (rx w) ++ seq (fresh w) n /\
    staging (rx w') = staging (rx w) /\ fresh w' = (fresh w + n)%nat.
Proof.
  revert w G. induction n as [|n IH]; intros w G Hw Hst Hbd; cbn [open_fixed_loop].
  { intros [= <-]. exists G. simpl. rewrite app_nil_r. splits. set_solver. }
  unfold spawn_ring. destruct (bk_channel capacity) as [c| |] eqn:Ec; try done.
  cbn [mbind outcome_bind]. intros Hr.
  apply (IH _ (<[fresh w := false]> G)) in Hr as (G' & Hw' & Hs' & Hp' & Hsh & Hsg & Hfr); [| |done|simpl; lia].
  - exists G'. splits.
    + rewrite Hp'. simpl. set_solver.
    + rewrite Hsh. simpl. by rewrite <- app_assoc.
    + rewrite Hfr. simpl. lia.
  - eapply (world_at_join w _ G c); try done; [by apply bk_channel_law in Ec| | |lia].
    + unfold members. simpl. rewrite Hst, !app_nil_r. by rewrite Permutation_app_comm.
    + simpl. by rewrite Hst.
Qed.

Lemma open_fixed_spec n capacity w :
  Z.of_nat n < USIZE -> open_fixed n capacity = OK w ->
  exists G, world_at w (fun _ => []) G /\ producers w = set_seq 0 n /\
    shards (rx w) = seq 0 n /\ staging (rx w) = [] /\ fresh w = n.
Proof.
  intros Hn Ho. apply (open_fixed_loop_spec _ _ _ _ (fun _ => true)) in Ho
    as (G & Hw & _ & Hp & Hs & Hst & Hfr); [| |done|done].
  - exists G. splits. rewrite Hp. simpl. set_solver.
  - split; simpl; try done; try lia.
    + intros s Hs. by apply not_elem_of_nil in Hs.
    + constructor.
    + intros s Hs. by apply not_elem_of_nil in Hs.
    + intros s. split; [set_solver|]. by intros [Hs _]; apply not_elem_of_nil in Hs.
Qed.

Lemma open_dynamic_spec : world_at open_dynamic (fun _ => []) (fun _ => true).
Proof.
  split; simpl; try done; try lia.
  - intros s Hs. by apply not_elem_of_nil in Hs.
  - constructor.
  - intros s Hs. by apply not_elem_of_nil in Hs.
  - intros s. split; [set_solver|]. by intros [Hs _]; apply not_elem_of_nil in Hs.
Qed.

Lemma try_send_spec w Q G sid v :
  world_at w Q G -> sid ∈ producers w ->
  exists r w', try_send w sid v = OK (r, w') /\ same_env w w' /\
    ((r = Ok tt /\ world_at w' (<[sid := Q sid ++ [v]]> Q) G) \/
     (r = Err (Full v) /\ world_at w' Q G)).
Proof.
  intros Hw Hp. apply (wa_prod _ _ _ Hw) in Hp as [Hin HG].
  destruct (deref_member w Q G sid Hw Hin) as (c & Hd & _ & Hc). unfold try_send. rewrite Hd.
  cbn [mbind outcome_bind]. rewrite (bk_consumer_gone_law c _ _ _ Hc). rewrite HG in Hc.
  destruct (bk_try_push_law c (Q sid) false v Hc) as (r & c1 & -> & [[-> Hc1]|[-> Hc1]]);
    cbn [mbind outcome_bind]; eexists _, _; (split; [done|]); (split; [done|]).
  - left. split; [done|]. apply world_at_set_shard; [done|done|by rewrite HG].
  - right. split; [done|]. eapply world_at_ext; [apply drop_0_id|done|].
    rewrite drop_0. apply world_at_set_shard; [done|done|by rewrite HG].
Qed.

Lemma drop_producer_spec w Q G sid :
  world_at w Q G -> sid ∈ producers w ->
  exists w', drop_producer w sid = OK w' /\ world_at w' Q (<[sid := true]> G) /\
    rx w' = rx w /\ producers w' = producers w ∖ {[sid]}.
Proof.
  intros Hw Hp. pose proof Hp as Hp'. apply (wa_prod _ _ _ Hw) in Hp' as [Hin HG].
  destruct (deref_member w Q G sid Hw Hin) as (c & Hd & _ & Hc). unfold drop_producer. rewrite Hd.
  cbn [mbind outcome_bind]. eexists. split; [done|]. split; [|done].
  rewrite HG in Hc. apply bk_drop_tx_law in Hc. destruct Hw. split; try done.
  - intros s Hs. simpl. destruct (decide (s = sid)) as [->|Hne].
    + rewrite lookup_insert_eq, fn_lookup_insert. by eexists.
    + rewrite lookup_insert_ne, fn_lookup_insert_ne by done. by apply wa_shard0.
  - intros s. simpl. rewrite elem_of_difference, elem_of_singleton, wa_prod0.
    destruct (decide (s = sid)) as [->|Hne].
    + rewrite fn_lookup_insert. split; [tauto|]. by intros [_ ?].
    + rewrite fn_lookup_insert_ne by done. tauto.
  - simpl. rewrite wa_live0. assert (producers w = {[sid]} ∪ (producers w ∖ {[sid]})) as E
      by (apply union_difference_L; set_solver).
    rewrite E at 1. rewrite size_union, size_singleton by set_solver. lia.
Qed.

Lemma register_spec w Q G b capacity c :
  world_at w Q G -> state w = DynamicState b -> bk_channel capacity = OK c -> Z.of_nat (S (fresh w)) < USIZE ->
  exists sid w', register w capacity = OK (sid, w') /\ world_at w' Q (<[fresh w := false]> G) /\
    rx w' = rx w /\ live w' = live w + 1.
Proof.
  intros Hw Hs Hc Hbd. unfold register, spawn_ring. rewrite Hs, Hc. cbn [mbind outcome_bind]. eexists _, _.
  split; [done|]. split; [|done]. eapply (world_at_join w Q G c); try done; [by eapply bk_channel_law| |].
  - unfold members. simpl. rewrite Hs. rewrite app_assoc. by rewrite Permutation_app_comm.
  - pose proof (wa_inbox _ _ _ Hw) as Hi. rewrite Hs in Hi. destruct Hi as [Hi1 Hi2]. simpl.
    split; [done|]. rewrite Hi2, wrapping_add_cursor, length_app. simpl. f_equal. lia.
Qed.

(** Nothing moved: nothing changed. *)
Lemma moved_nothing Q Q' : moved Q [] Q' -> forall sid, Q sid = Q' sid.
Proof.
  intros Hm. remember [] as d eqn:E in Hm. induction Hm as [|Q sid n d Q' Hm IH]; [done|].
  apply app_nil in E as [Ht ->]. intros s. rewrite <- (IH eq_refl).
  destruct (decide (s = sid)) as [->|Hne]; [|by rewrite fn_lookup_insert_ne].
  rewrite fn_lookup_insert. rewrite <- (take_drop n (Q sid)) at 1. by rewrite Ht.
Qed.

(** With no live handle, every producer is gone. *)
Lemma disconnected_gone w Q G :
  world_at w Q G -> disconnected w = true ->
  producers w = ∅ /\ forall sid, sid ∈ members w -> G sid = true.
Proof.
  intros Hw Hd. unfold disconnected in Hd. apply Z.eqb_eq in Hd. rewrite (wa_live _ _ _ Hw) in Hd.
  assert (producers w = ∅) as He by (apply leibniz_equiv, size_empty_inv; lia). split; [done|].
  intros sid Hin. destruct (G sid) eqn:E; [done|].
  assert (sid ∈ producers w) by (by apply (wa_prod _ _ _ Hw)). set_solver.
Qed.
End invariant.

(** ** Clients *)

Section client.
Context {T C : Type} `{SpscLaws T C} (capacity : Z).
Implicit Types (w : World T C) (Q : nat -> list T) (G : nat -> bool).

Inductive mop : Type :=
| MSend (sid : nat) (v : T)
| MDrop (sid : nat)
| MRegister
| MDropRegistrar
| MRecv
| MRecvMany (max : Z)
| MDrain (stop : nat)
| MSetBatch (n : Z).

(** The calls of the other side. *)
Definition sender (o : mop) : bool :=
  match o with MSend _ _ | MDrop _ | MRegister | MDropRegistrar => true | _ => false end.

(** Values accepted from a producer, values handed to the consumer. *)
Inductive mobs : Type :=
| OSent (sid : nat) (l : list T)
| OGot (l : list T)
| OQuiet.

(** Calls on a handle that does not exist any more are not made. *)
Definition mstep w (o : mop) : outcome (mobs * World T C) :=
  match o with
  | MSend sid v =>
      if decide (sid ∈ producers w) then
        '(r, w1) ← try_send w sid v;
        OK (OSent sid (match r with Ok _ => [v] | Err _ => [] end), w1)
      else OK (OQuiet, w)
  | MDrop sid =>
      if decide (sid ∈ producers w) then w1 ← drop_producer w sid; OK (OQuiet, w1) else OK (OQuiet, w)
  | MRegister =>
      match state w with
      | FixedState => OK (OQuiet, w)
      | DynamicState _ =>
          if (0 <? registrars w)%nat then '(_, w1) ← register w capacity; OK (OQuiet, w1)
          else OK (OQuiet, w)
      end
  | MDropRegistrar =>
      if (0 <? registrars w)%nat then OK (OQuiet, drop_registrar w) else OK (OQuiet, w)
  | MRecv => '(x, w1) ← try_recv w; OK (OGot (option_list x), w1)
  | MRecvMany max => '(_, w1, out) ← try_recv_many w max; OK (OGot out, w1)
  | MDrain stop => '(_, w1, out) ← drain_once w (logger stop) []; OK (OGot out, w1)
  | MSetBatch n => OK (OQuiet, set_batch w n)
  end.

(** With nobody left the calls of others do nothing. *)
Lemma sender_idle w Q G o x w' :
  world_at w Q G -> disconnected w = true -> sender o = true -> mstep w o = OK (x, w') ->
  w' = w /\ x = OQuiet.
Proof.
  intros Hw Hd Ho Hs. destruct (disconnected_gone w Q G Hw Hd) as [Hp _].
  assert (registrars w = O) as Hr.
  { unfold disconnected in Hd. apply Z.eqb_eq in Hd. rewrite (wa_live _ _ _ Hw) in Hd. lia. }
  destruct o as [sid v|sid| | | | | |]; try done; simpl in Hs; rewrite ?Hp, ?Hr in Hs; try (by injection Hs).
  destruct (state w); by injection Hs.
Qed.

Fixpoint mrun w (os : list mop) : outcome (list mobs * World T C) :=
  match os with
  | [] => OK ([], w)
  | o :: os' => '(x, w1) ← mstep w o; '(xs, w2) ← mrun w1 os'; OK (x :: xs, w2)
  end.

Fixpoint received (xs : list mobs) : list T :=
  match xs with
  | [] => []
  | OGot l :: xs' => l ++ received xs'
  | _ :: xs' => received xs'
  end.

Fixpoint sent_on (sid : nat) (xs : list mobs) : list T :=
  match xs with
  | [] => []
  | OSent s l :: xs' => (if decide (s = sid) then l else []) ++ sent_on sid xs'
  | _ :: xs' => sent_on sid xs'
  end.

(** No other side touches the receiver. *)
Lemma sender_rx w o x w' :
  sender o = true -> mstep w o = OK (x, w') -> rx w' = rx w /\ received [x] = [].
Proof.
  intros Ho Hs. destruct o as [sid v|sid| | | | | |]; try done; cbn [mstep] in Hs.
  - destruct (decide _); [|by injection Hs as <- <-].
    apply bind_OK in Hs as ([r w1] & Hs & [= <- <-]). unfold try_send in Hs.
    apply bind_OK in Hs as (c & _ & Hs). destruct (bk_is_consumer_gone c); [by injection Hs as <- <-|].
    by apply bind_OK in Hs as ([r' c1] & _ & [= <- <-]).
  - destruct (decide _); [|by injection Hs as <- <-].
    apply bind_OK in Hs as (w1 & Hs & [= <- <-]). unfold drop_producer in Hs.
    by apply bind_OK in Hs as (c & _ & [= <-]).
  - destruct (state w) as [|b] eqn:Es; [by injection Hs as <- <-|].
    destruct (0 <? registrars w)%nat; [|by injection Hs as <- <-].
    apply bind_OK in Hs as ([s w1] & Hs & [= <- <-]). unfold register, spawn_ring in Hs. rewrite Es in Hs.
    by destruct (bk_channel capacity); simplify_eq/=.
  - destruct (0 <? registrars w)%nat; by injection Hs as <- <-.
Qed.

(** The client receives with [try_recv] and [try_recv_many] ([drains = false])
    or with [try_drain] only ([drains = true]); values are sent on their own
    shard, and [max] is a [usize]. *)
Definition mop_ok (owner : T -> nat) (drains : bool) (o : mop) : bool :=
  match o with
  | MSend sid v => bool_decide (owner v = sid)
  | MRecv => negb drains
  | MRecvMany max => negb drains && (0 <=? max)
  | MDrain _ => drains
  | _ => true
  end.

Section accounting.
Context (owner : T -> nat) (drains : bool).
Context (channel_ok : exists c : C, bk_channel capacity = OK c).

(** What a shard has outstanding: staged values of it, then its queue. *)
Definition outstanding w Q (sid : nat) : list T :=
  filter (fun v => owner v = sid) (staging (rx w)) ++ Q sid.

Definition client_inv w Q G : Prop :=
  world_at w Q G /\ owned owner Q /\ (drains = true -> staging (rx w) = []).

Lemma moved_outstanding w w' Q Q' d out sid :
  moved Q d Q' -> owned owner Q -> out ++ staging (rx w') = staging (rx w) ++ d ->
  filter (fun v => owner v = sid) out ++ outstanding w' Q' sid = outstanding w Q sid.
Proof.
  intros Hm Ho Heq. destruct (moved_account owner Q d Q' Hm Ho) as [_ Hs]. unfold outstanding.
  rewrite app_assoc, <- filter_app, Heq, filter_app, <- app_assoc. by rewrite Hs.
Qed.

Definition step_post w Q x w' : Prop :=
  exists Q' G', client_inv w' Q' G' /\
    forall sid, filter (fun v => owner v = sid) (received [x]) ++ outstanding w' Q' sid =
      outstanding w Q sid ++ sent_on sid [x].

Lemma quiet_post w Q G w' :
  client_inv w' Q G -> staging (rx w') = staging (rx w) -> step_post w Q OQuiet w'.
Proof.
  intros Hi Hs. exists Q, G. split; [done|]. intros sid. simpl. rewrite app_nil_r.
  unfold outstanding. by rewrite Hs.
Qed.

Lemma recv_many_step w Q G max :
  client_inv w Q G -> drains = false -> 0 <= max ->
  exists n w' out, try_recv_many w max = OK (n, w', out) /\ step_post w Q (OGot out) w'.
Proof.
  intros (Hw & Ho & _) Hdr Hmax. unfold try_recv_many.
  assert (forall w' out Q' d, world_at w' Q' G -> moved Q d Q' ->
    out ++ staging (rx w') = staging (rx w) ++ d -> step_post w Q (OGot out) w') as Hpost.
  { intros w' out Q' d Hw' Hm He. exists Q', G. split.
    - split; [done|]. split; [by eapply moved_account|]. congruence.
    - intros sid. simpl. rewrite !app_nil_r. by eapply moved_outstanding. }
  destruct (Z.eqb_spec max 0).
  { eexists _, _, _. split; [done|]. apply (Hpost _ [] Q []); [done|constructor|by rewrite app_nil_r]. }
  set (k := Nat.min _ _). set (w1 := set_rx w _).
  assert (world_at w1 Q G) as Hw1 by (by apply world_at_staging).
  assert (take k (staging (rx w)) ++ staging (rx w1) = staging (rx w)) as Hsplit by apply take_drop.
  destruct (Z.eqb_spec (Z.of_nat k) max) as [Hk|Hk].
  { eexists _, _, _. split; [done|]. apply (Hpost w1 _ Q []); [done|constructor|by rewrite app_nil_r]. }
  destruct (world_at_refresh w1 Q G Hw1) as (Hw2 & _ & Hst2 & _).
  destruct (recv_many_loop_spec (length (shards (rx (refresh_membership w1)))) _ Q G max (Z.of_nat k)
    (take k (staging (rx w))) Hw2 ltac:(lia)) as (w' & Q' & d & -> & Hw' & Hm & _ & Hst' & _).
  eexists _, _, _. split; [done|]. apply (Hpost w' _ Q' d); [done|done|].
  rewrite Hst', Hst2. unfold w1. simpl. rewrite (drop_ge (staging (rx w))) by lia.
  rewrite (take_ge (staging (rx w))) by lia. by rewrite app_nil_r.
Qed.

Lemma drain_step w Q G stop :
  client_inv w Q G -> drains = true ->
  exists fl w' out, drain_once w (logger stop) [] = OK (fl, w', out) /\ step_post w Q (OGot out) w'.
Proof.
  intros (Hw & Ho & Hst) Hdr. specialize (Hst Hdr). unfold drain_once.
  destruct (world_at_refresh w Q G Hw) as (Hw1 & _ & Hst1 & _).
  destruct (drain_once_loop_spec (length (shards (rx (refresh_membership w)))) _ Q G 0 (logger stop) [] Hw1)
    as (w' & Q' & d & out & p & t & -> & Hf & Hw' & Hm & _ & Hst' & _).
  pose proof (feed_logger stop [] d ltac:(simpl; lia)) as Hl. rewrite Hf in Hl. destruct Hl as (-> & _ & _).
  simpl. rewrite firstn_all. eexists _, _, _. split; [done|]. exists Q', G.
  assert (staging (rx w') = []) as Hst2 by congruence. split.
  - split; [done|]. split; [by eapply moved_account|done].
  - intros sid. simpl. rewrite !app_nil_r. eapply moved_outstanding; [done|done|].
    by rewrite Hst2, Hst, app_nil_r.
Qed.

Lemma refresh_fresh w : fresh (refresh_membership w) = fresh w.
Proof. unfold refresh_membership. destruct (state w) as [|b]; [done|]. by destruct (generation b =? seen b). Qed.

Lemma recv_many_fresh w Q G max n w' out :
  world_at w Q G -> 0 <= max -> try_recv_many w max = OK (n, w', out) -> (fresh w' <= S (fresh w))%nat.
Proof.
  intros Hw Hmax. unfold try_recv_many. destruct (Z.eqb_spec max 0); [intros [= <- <- <-]; lia|].
  set (k := Nat.min _ _). set (w1 := set_rx w _).
  assert (world_at w1 Q G) as Hw1 by (by apply world_at_staging).
  destruct (Z.eqb_spec (Z.of_nat k) max); [intros [= <- <- <-]; simpl; lia|].
  destruct (world_at_refresh w1 Q G Hw1) as (Hw2 & _).
  destruct (recv_many_loop_spec (length (shards (rx (refresh_membership w1)))) _ Q G max (Z.of_nat k)
    (take k (staging (rx w))) Hw2 ltac:(lia)) as (w2 & Q' & d & -> & _ & _ & _ & _ & Hh).
  intros [= <- <- <-]. unfold same_handles in Hh. rewrite refresh_fresh in Hh. simpl in Hh. lia.
Qed.

Lemma drain_fresh w Q G stop fl w' out :
  world_at w Q G -> drain_once w (logger stop) [] = OK (fl, w', out) -> (fresh w' <= S (fresh w))%nat.
Proof.
  intros Hw. unfold drain_once. destruct (world_at_refresh w Q G Hw) as (Hw1 & _).
  destruct (drain_once_loop_spec (length (shards (rx (refresh_membership w)))) _ Q G 0 (logger stop) [] Hw1)
    as (w2 & Q' & d & o & p & t & -> & _ & _ & _ & _ & _ & Hh).
  intros [= <- <- <-]. unfold same_handles in Hh. rewrite refresh_fresh in Hh. lia.
Qed.

Lemma register_step w Q G b :
  client_inv w Q G -> state w = DynamicState b -> (0 < registrars w)%nat ->
  Z.of_nat (S (fresh w)) < USIZE ->
  exists sid w', register w capacity = OK (sid, w') /\ step_post w Q OQuiet w'.
Proof.
  intros (Hw & Ho & Hst) Hs _ Hbd. destruct channel_ok as [c Hc].
  destruct (register_spec w Q G b capacity c Hw Hs Hc Hbd) as (sid & w' & Hr & Hw' & Hrx & _).
  exists sid, w'. split; [done|]. apply (quiet_post _ _ (<[fresh w := false]> G)); [|by rewrite Hrx].
  split; [done|]. by rewrite Hrx.
Qed.

Lemma received_cons x xs : received (x :: xs) = received [x] ++ received xs.
Proof. destruct x; simpl; by rewrite ?app_nil_r. Qed.
Lemma sent_on_cons sid x xs : sent_on sid (x :: xs) = sent_on sid [x] ++ sent_on sid xs.
Proof. destruct x; simpl; by rewrite ?app_nil_r. Qed.

(** At most one shard is created per call. *)
Lemma mstep_spec w Q G o :
  client_inv w Q G -> mop_ok owner drains o -> Z.of_nat (S (fresh w)) < USIZE ->
  exists x w', mstep w o = OK (x, w') /\ step_post w Q x w' /\ (fresh w' <= S (fresh w))%nat.
Proof.
  intros Hi Hok Hbd. pose proof Hi as (Hw & Ho & Hst).
  assert (step_post w Q OQuiet w) as Hq by (by eapply quiet_post).
  destruct o as [sid v|sid| | | |max|stop|n]; cbn [mstep mop_ok] in *.
  - apply bool_decide_unpack in Hok.
    destruct (decide (sid ∈ producers w)) as [Hp|Hp]; [|exists OQuiet, w; splits].
    destruct (try_send_spec w Q G sid v Hw Hp) as (r & w' & -> & He & Hcase).
    assert (staging (rx w') = staging (rx w) /\ fresh w' = fresh w) as [Hsg Hfr]
      by (unfold same_env in He; tauto).
    destruct Hcase as [[-> Hw']|[-> Hw']]; simpl; eexists _, _; (split; [done|]); (split; [|lia]).
    + exists (<[sid := Q sid ++ [v]]> Q), G. split.
      * split; [done|]. split; [|by rewrite Hsg]. intros s x Hx. destruct (decide (s = sid)) as [->|Hne].
        -- rewrite fn_lookup_insert in Hx. apply elem_of_app in Hx as [Hx|Hx]; [by apply Ho|].
           by apply list_elem_of_singleton in Hx as ->.
        -- rewrite fn_lookup_insert_ne in Hx by done. by apply Ho.
      * intros s. simpl. unfold outstanding. rewrite Hsg, app_nil_r, <- app_assoc.
        destruct (decide (s = sid)) as [->|Hne].
        -- rewrite fn_lookup_insert, decide_True by done. done.
        -- rewrite fn_lookup_insert_ne, decide_False by congruence. by rewrite app_nil_r.
    + exists Q, G. split; [split; [done|split; [done|by rewrite Hsg]]|]. intros s. simpl. unfold outstanding.
      rewrite Hsg. by destruct (decide (sid = s)); rewrite app_nil_r.
  - destruct (decide (sid ∈ producers w)) as [Hp|Hp]; [|exists OQuiet, w; splits].
    destruct (drop_producer_spec w Q G sid Hw Hp) as (w' & Hd & Hw' & Hrx & _). rewrite Hd.
    exists OQuiet, w'. split; [done|]. split.
    + apply (quiet_post w Q (<[sid := true]> G)); [|by rewrite Hrx]. split; [done|]. by rewrite Hrx.
    + unfold drop_producer in Hd. destruct (deref w sid); [|done..]. simpl in Hd. by simplify_eq/=; lia.
  - destruct (state w) as [|b] eqn:Es; [exists OQuiet, w; splits|].
    destruct (Nat.ltb_spec 0 (registrars w)); [|exists OQuiet, w; splits].
    destruct (register_step w Q G b Hi Es ltac:(done) Hbd) as (sid & w' & Hr & Hpost). rewrite Hr.
    exists OQuiet, w'. splits. unfold register, spawn_ring in Hr. rewrite Es in Hr.
    destruct (bk_channel capacity); [|done..]. simpl in Hr. by simplify_eq/=; lia.
  - destruct (Nat.ltb_spec 0 (registrars w)); [|exists OQuiet, w; splits].
    exists OQuiet, (drop_registrar w). splits; [|simpl; lia]. apply (quiet_post w Q G); [|done].
    split; [|done]. destruct Hw. split; try done. simpl. lia.
  - assert (drains = false) as Hdr by (by destruct drains).
    destruct (try_recv_spec w Q G Hw) as (x & w' & Q' & d & -> & Hw' & Hm & He & Hh).
    eexists _, _. split; [done|]. unfold same_handles in Hh. split; [|lia]. exists Q', G. split.
    + split; [done|]. split; [by eapply moved_account|congruence].
    + intros sid. simpl. rewrite !app_nil_r. by eapply moved_outstanding.
  - apply andb_prop_elim in Hok as [Hdr Hmax]. assert (drains = false) as Hdr' by (by destruct drains).
    apply Is_true_true, Z.leb_le in Hmax.
    destruct (recv_many_step w Q G max Hi Hdr' Hmax) as (n & w' & out & Hr & Hp). rewrite Hr.
    eexists _, _. split; [done|]. split; [done|]. by apply (recv_many_fresh w Q G max n w' out).
  - assert (drains = true) as Hdr by (by destruct drains).
    destruct (drain_step w Q G stop Hi Hdr) as (fl & w' & out & Hr & Hp). rewrite Hr.
    eexists _, _. split; [done|]. split; [done|]. by apply (drain_fresh w Q G stop fl w' out).
  - exists OQuiet, (set_batch w n). splits; [|simpl; lia]. apply (quiet_post w Q G); [|done].
    split; [|done]. apply world_at_set_rx; [done|done|simpl; lia|apply Hw].
Qed.

Lemma mrun_spec w Q G os :
  client_inv w Q G -> forallb (mop_ok owner drains) os -> Z.of_nat (fresh w + length os) < USIZE ->
  exists xs w' Q' G', mrun w os = OK (xs, w') /\ client_inv w' Q' G' /\
    forall sid, filter (fun v => owner v = sid) (received xs) ++ outstanding w' Q' sid =
      outstanding w Q sid ++ sent_on sid xs.
Proof.
  revert w Q G. induction os as [|o os IH]; intros w Q G Hi Hok Hbd; cbn [mrun forallb length] in *.
  - exists [], w, Q, G. splits. intros sid. by rewrite app_nil_r.
  - apply andb_prop_elim in Hok as [Hok Hoks].
    destruct (mstep_spec w Q G o Hi Hok ltac:(lia)) as (x & w1 & -> & (Q1 & G1 & Hi1 & H1) & Hfr). simpl.
    destruct (IH w1 Q1 G1 Hi1 Hoks ltac:(lia)) as (xs & w2 & Q2 & G2 & -> & Hi2 & H2). simpl.
    exists (x :: xs), w2, Q2, G2. splits. intros sid.
    rewrite received_cons, sent_on_cons, filter_app, <- app_assoc, H2, app_assoc, H1. by rewrite app_assoc.
Qed.
End accounting.
End client.
Arguments mop T : clear implicits.
Arguments sender {T} o.
Arguments mobs T : clear implicits.

(** ** Properties *)

(** C17: per-producer FIFO without loss or duplication. From a fixed channel,
    through any sequence of sends, producer drops and receives (by [try_recv]
    and [try_recv_many], or by [try_drain] with callbacks that may panic, not
    mixed), no call panics or touches a dropped shard, and for each shard the
    values received from it, then those staged, then those queued are exactly
    the values its producer got accepted, in order. *)
Theorem mpsc_per_producer_fifo {T C} `{SpscLaws T C} (owner : T -> nat) (drains : bool)
    (n : nat) (capacity : Z) (w : World T C) (os : list (mop T)) :
  open_fixed n capacity = OK w -> (exists c : C, bk_channel capacity = OK c) ->
  forallb (mop_ok owner drains) os -> Z.of_nat (n + length os) < USIZE ->
  exists xs w' Q, mrun capacity w os = OK (xs, w') /\
    (forall sid, sid ∈ members w' -> exists c g, store w' !! sid = Some c /\ bk_repr c (Q sid) g false) /\
    forall sid, filter (fun v => owner v = sid) (received xs) ++
      filter (fun v => owner v = sid) (staging (rx w')) ++ Q sid = sent_on sid xs.
Proof.
  intros Ho Hc Hok Hbd. destruct (open_fixed_spec n capacity w ltac:(lia) Ho) as (G & Hw & _ & _ & Hst & Hfr).
  destruct (mrun_spec capacity owner drains Hc w (fun _ => []) G os) as (xs & w' & Q & G' & Hr & Hi & Hacc).
  - split; [done|]. split; [|done]. intros sid v Hv. by apply not_elem_of_nil in Hv.
  - done.
  - lia.
  - exists xs, w', Q. splits.
    + intros sid Hin. destruct Hi as [Hw' _]. destruct (wa_shard _ _ _ Hw' sid Hin) as (c & ? & ?).
      by exists c, (G' sid).
    + intros sid. specialize (Hacc sid). unfold outstanding in Hacc. by rewrite Hst in Hacc.
Qed.

(** A fixed channel over rings, for concrete runs: values are (shard, number). *)
#[local] Instance pair_backend : SpscBackend (nat * Z) (ring.Chan (nat * Z)) := ring.ring_backend 16.
#[local] Instance pair_laws : SpscLaws (nat * Z) (ring.Chan (nat * Z)) := ring.ring_laws 16.

Definition ring_world (n : nat) : World (nat * Z) (ring.Chan (nat * Z)) :=
  match open_fixed n 2 with OK w => w | _ => open_dynamic end.

Definition fifo_ops : list (mop (nat * Z)) :=
  [MSend 0 (0%nat, 1); MSend 1 (1%nat, 5); MSend 0 (0%nat, 2); MSend 0 (0%nat, 3); MRecv;
   MDrop 1; MSend 0 (0%nat, 4); MRecv; MRecvMany 9].

Lemma mpsc_per_producer_fifo_witness :
  exists xs w' Q, mrun 2 (ring_world 2) fifo_ops = OK (xs, w') /\
    forall sid, filter (fun v => v.1 = sid) (received xs) ++
      filter (fun v => v.1 = sid) (staging (rx w')) ++ Q sid = sent_on sid xs.
Proof.
  destruct (mpsc_per_producer_fifo fst false 2 2 (ring_world 2) fifo_ops)
    as (xs & w' & Q & H1 & _ & H3); [vm_compute; reflexivity|by eexists|vm_compute; exact I|simpl; lia|].
  exists xs, w', Q. split; [exact H1|exact H3].
Defined.

(** While no producer has left, an empty-handed [try_recv] means that
    nothing was ready anywhere: the pass visits every shard (the cursor being
    short of wrapping at [2^64]). *)
Lemma try_recv_complete_alive {T C} `{SpscLaws T C} (w w' : World T C) Q G :
  world_at w Q G -> (forall sid, sid ∈ members w -> sid ∈ producers w) ->
  cursor (rx w) + Z.of_nat (length (members w)) < USIZE ->
  try_recv w = OK (None, w') ->
  staging (rx w) = [] /\ forall sid, Q sid = [].
Proof.
  intros Hw Hall Hc Hr.
  destruct (try_recv_none_alive w Q G w' Hw) as [H1 H2]; [|done|done|done].
  intros sid Hin. by apply (wa_prod _ _ _ Hw), Hall.
Qed.

Lemma try_recv_complete_alive_witness :
  exists w', try_recv (ring_world 3) = OK (None, w') /\ staging (rx (ring_world 3)) = [].
Proof.
  assert (open_fixed 3 2 = OK (ring_world 3)) as Ho by (vm_compute; reflexivity).
  destruct (open_fixed_spec 3 2 (ring_world 3) ltac:(lia) Ho) as (G & Hw & Hp & _).
  assert (match try_recv (ring_world 3) with OK (None, _) => true | _ => false end = true) as Hn
    by (vm_compute; reflexivity).
  destruct (try_recv (ring_world 3)) as [[[|] w']| |] eqn:E; [discriminate Hn| |discriminate Hn..].
  destruct (try_recv_complete_alive (ring_world 3) w' (fun _ => []) G Hw) as [H1 _].
  - intros sid Hin. assert (members (ring_world 3) = seq 0 3) as Hm by (vm_compute; reflexivity).
    rewrite Hm in Hin. rewrite Hp. apply elem_of_seq in Hin. apply elem_of_set_seq. lia.
  - vm_compute. reflexivity.
  - exact E.
  - exists w'. split; [reflexivity|exact H1].
Defined.

(** That completeness fails once a finished shard is removed during the
    pass. [cursor % len] changes meaning when [swap_remove] shortens the vector,
    so a shard can be passed over: here [try_recv] answers [None] although the
    value sent on shard 3 was accepted earlier and is still queued. *)
Lemma try_recv_skips_ready_shard :
  exists os xs w', mrun 2 (ring_world 4) (os ++ [MRecv]) = OK (xs ++ [OGot []], w') /\
    length xs = length os /\ staging (rx w') = [] /\
    sent_on 3 xs = filter (fun v => v.1 = 3%nat) (received xs) ++ [(3%nat, 9)] /\
    3%nat ∈ shards (rx w').
Proof.
  exists [MSend 0 (0%nat, 1); MRecv; MSend 1 (1%nat, 1); MRecv; MSend 2 (2%nat, 1); MRecv;
          MSend 3 (3%nat, 1); MRecv; MDrop 1; MSend 3 (3%nat, 9)].
  exists [OSent 0 [(0%nat, 1)]; OGot [(0%nat, 1)]; OSent 1 [(1%nat, 1)]; OGot [(1%nat, 1)];
          OSent 2 [(2%nat, 1)]; OGot [(2%nat, 1)]; OSent 3 [(3%nat, 1)]; OGot [(3%nat, 1)];
          OQuiet; OSent 3 [(3%nat, 9)]].
  eexists. split; [vm_compute; reflexivity|]. split; [reflexivity|]. split; [reflexivity|].
  split; [reflexivity|]. vm_compute. right. left.
Qed.

(** [try_drain] (and [drain], which loops over it) does not deliver the
    values that an earlier [try_recv] has staged: after receiving one value of a
    batch, draining hands out a value that the same producer sent later, before
    the staged one. *)
Lemma drain_overtakes_staged_values :
  exists xs w', mrun 4 (ring_world 1)
      [MSend 0 (0%nat, 1); MSend 0 (0%nat, 2); MRecv; MSend 0 (0%nat, 3); MDrain 9; MRecv] = OK (xs, w') /\
    sent_on 0 xs = [(0%nat, 1); (0%nat, 2); (0%nat, 3)] /\
    received xs = [(0%nat, 1); (0%nat, 3); (0%nat, 2)].
Proof.
  eexists _, _. split; [vm_compute; reflexivity|]. split; reflexivity.
Qed.

End mpsc.
