(* ===== verification/MpscRecv.v ===== *)
(** * Blocking receive of the MPSC gatherer: [src/src/mpsc/chan.rs]

    [Receiver::recv] one access at a time, interleaved with the calls of the
    producers and registrars: the passes of [try_recv] visit one shard per step
    (the drain, then the question whether the shard is finished), the counter of
    live handles is loaded, the waiter armed, the shards of the working set are
    asked one by one whether they are empty, the counter is loaded again and the
    thread parks. A call of another thread is one step. What ends a park is the
    subject of [Park.v]; here it may end at any time. *)

From stdpp Require Import functions prelude gmap.
From S2P Require Import Prelude Batch Backend BackendRing Mpsc.
Local Open Scope Z_scope.
#[local] Set Warnings "-clear-no-such-hyp".
Import mpsc.

Module mpsc_recv.

(** [Try last]: entry of [try_recv]; [last] in the final sweep. [Drain last n]:
    [n] iterations of its loop are left. [Ask last n i]: shard [i] gave nothing
    and is asked whether it is finished. [Scan l]: the shards [l] of the check
    before the park are left. *)
Inductive recv_pc (T : Type) : Type :=
| Try (last : bool)
| Drain (last : bool) (n : nat)
| Ask (last : bool) (n i : nat)
| Live
| Sweep
| Arm
| Scan (l : list nat)
| Relive
| Parked
| Disarm
| Done (o : option T).
Arguments Try {T} last.
Arguments Drain {T} last n.
Arguments Ask {T} last n i.
Arguments Live {T}.
Arguments Sweep {T}.
Arguments Arm {T}.
Arguments Scan {T} l.
Arguments Relive {T}.
Arguments Parked {T}.
Arguments Disarm {T}.
Arguments Done {T} o.

Inductive event (T : Type) : Type :=
| ERecv
| ESender (o : mop T).
Arguments ERecv {T}.
Arguments ESender {T} o.

Section machine.
Context {T C : Type} `{SpscBackend T C} (capacity : Z).
Implicit Types w : World T C.

(** Ghosts: [sent] is what the senders' calls answered since the entry,
    [armed] its length when the waiter was armed last, [departed] whether a
    handle was dropped since then. *)
Record receiving := mkRecv {
  world : World T C;
  pc : recv_pc T;
  sent : list (mobs T);
  armed : nat;
  departed : bool
}.

Definition enter w : receiving := mkRecv w (Try false) [] 0 false.

(** [self.staging.pop_front()] as the answer of [try_recv], and what [recv]
    does with it. *)
Definition answer (last : bool) w : World T C * recv_pc T :=
  match pop_staging w with
  | (Some v, w1) => (w1, Done (Some v))
  | (None, w1) => (w1, if last then Done None else Live)
  end.

(** [K::drain] of the shard under the cursor. *)
Definition drain_step (last : bool) (n : nat) w : outcome (World T C * recv_pc T) :=
  let r := rx w in
  let i := Z.to_nat (cursor r mod Z.of_nat (length (shards r))) in
  match shards r !! i with
  | None => PANIC
  | Some sid =>
      c ← deref w sid;
      '(fl, c1, out) ← bk_drain_in_place c (batch r) append (staging r);
      let w1 := set_rx (set_shard w sid c1) (mkRx (shards r) (cursor r) (batch r) out) in
      match fl with
      | Unwound => PANIC
      | Returned got => OK (if 0 <? got then answer last (bump w1) else (w1, Ask last n i))
      end
  end.

(** [is_finished] and the disposal, or the advance of the cursor. *)
Definition ask_step (last : bool) (n i : nat) w : outcome (World T C * recv_pc T) :=
  match shards (rx w) !! i with
  | None => PANIC
  | Some sid =>
      c ← deref w sid;
      fin ← bk_is_finished c;
      if (fin : bool) then
        '(removed, w1) ← dispose_finished w i;
        OK (if (removed : bool) then (w1, Drain last (match shards (rx w1) with [] => 0 | _ => n end))
            else (bump w1, Drain last n))
      else OK (bump w, Drain last n)
  end.

Definition own_step w (p : recv_pc T) : outcome (World T C * recv_pc T) :=
  match p with
  | Try last =>
      match staging (rx w) with
      | _ :: _ => OK (answer last w)
      | [] =>
          let w1 := refresh_membership w in
          match shards (rx w1) with
          | [] => OK (w1, if last then Done None else Live)
          | sh => OK (w1, Drain last (length sh))
          end
      end
  | Drain last O => OK (answer last w)
  | Drain last (S n) => drain_step last n w
  | Ask last n i => ask_step last n i w
  | Live => OK (w, if disconnected w then Sweep else Arm)
  | Sweep => OK (refresh_membership w, Try true)
  | Arm => OK (w, Scan (shards (rx w)))
  | Scan [] => OK (w, Relive)
  | Scan (sid :: l) =>
      c ← deref w sid;
      e ← bk_is_empty c;
      OK (w, if (e : bool) then Scan l else Disarm)
  | Relive => OK (w, if disconnected w then Disarm else Parked)
  | Parked => OK (w, Disarm)
  | Disarm => OK (w, Try false)
  | Done o => OK (w, Done o)
  end.

Definition step (s : receiving) (e : event T) : outcome receiving :=
  match e with
  | ERecv =>
      '(w, p) ← own_step (world s) (pc s);
      OK (match pc s with
          | Arm => mkRecv w p (sent s) (length (sent s)) false
          | _ => mkRecv w p (sent s) (armed s) (departed s)
          end)
  | ESender o =>
      if sender o then
        '(x, w) ← mstep capacity (world s) o;
        OK (mkRecv w (pc s) (sent s ++ [x]) (armed s) (departed s || (live w <? live (world s))))
      else OK s
  end.

Fixpoint run (s : receiving) (es : list (event T)) : outcome receiving :=
  match es with
  | [] => OK s
  | e :: es' => s1 ← step s e; run s1 es'
  end.

(** What was accepted on a shard since the waiter was armed. *)
Definition since (s : receiving) (sid : nat) : list T := sent_on sid (drop (armed s) (sent s)).
End machine.
Arguments receiving T C : clear implicits.

(** ** Invariant *)

Section invariant.
Context {T C : Type} `{SpscLaws T C} (capacity : Z) (owner : T -> nat).
Context (channel_ok : exists c : C, bk_channel capacity = OK c).
Implicit Types (w : World T C) (Q : nat -> list T) (G : nat -> bool) (s : receiving T C).

Abbreviation good := (client_inv owner false).
Abbreviation due := (outstanding owner).

Definition result (p : recv_pc T) : list T := match p with Done o => option_list o | _ => [] end.

(** In the final sweep nobody is left and the inbox is empty, so a pass of [n]
    steps over at most [n] shards removes them all. *)
Definition sweeping (last : bool) w (n : nat) : Prop :=
  last = true -> disconnected w = true /\ pending (state w) = [] /\ (length (shards (rx w)) <= n)%nat.

(** The values on the shards [l] all were accepted since the waiter was armed. *)
Definition only_new (Q new : nat -> list T) (l : list nat) : Prop := forall sid, sid ∈ l -> Q sid = new sid.

Definition pc_ok w (p : recv_pc T) Q (new : nat -> list T) (gone : bool) : Prop :=
  match p with
  | Try last => last = true -> disconnected w = true
  | Drain last n => staging (rx w) = [] /\ sweeping last w n /\ (n <> O -> shards (rx w) <> [])
  | Ask last n i =>
      staging (rx w) = [] /\ sweeping last w (S n) /\
      exists sid, shards (rx w) !! i = Some sid /\ (last = true -> Q sid = [])
  | Live | Arm => staging (rx w) = []
  | Sweep => disconnected w = true
  | Scan l =>
      staging (rx w) = [] /\ (forall sid, exists q, Q sid = q ++ new sid) /\
      exists pre, shards (rx w) = pre ++ l /\ only_new Q new pre
  | Relive => staging (rx w) = [] /\ only_new Q new (shards (rx w))
  | Parked => staging (rx w) = [] /\ only_new Q new (shards (rx w)) /\ (disconnected w = true -> gone = true)
  | Disarm => True
  | Done o => o = None -> disconnected w = true /\ staging (rx w) = [] /\ members w = []
  end.

Definition pc_at s Q : Prop := pc_ok (world s) (pc s) Q (since s) (departed s).

(** What a step of the receiver gives. *)
Definition own_post w Q G w' (p' : recv_pc T) Q' : Prop :=
  good w' Q' G /\ same_handles w w' /\ (length (members w') <= length (members w))%nat /\
  forall sid, filter (fun v => owner v = sid) (result p') ++ due w' Q' sid = due w Q sid.

Lemma own_post_refl w Q G p : good w Q G -> result p = [] -> own_post w Q G w p Q.
Proof. intros Hg Hp. unfold own_post. rewrite Hp. splits. Qed.

Lemma disconnected_handles w w' : same_handles w w' -> disconnected w' = disconnected w.
Proof. unfold disconnected. intros (_ & -> & _). done. Qed.

Lemma refresh_handles w Q G : world_at w Q G -> same_handles w (refresh_membership w).
Proof.
  intros Hw. destruct (world_at_refresh w Q G Hw) as (_ & _ & _ & Hb & _ & Hp & Hl & _).
  unfold same_handles. rewrite Hb, Hp, Hl, refresh_fresh. unfold refresh_membership.
  destruct (state w); [done|]. by destruct (generation inbox =? seen inbox).
Qed.

Lemma refresh_post w Q G p :
  good w Q G -> result p = [] -> own_post w Q G (refresh_membership w) p Q.
Proof.
  intros (Hw & Ho & _) Hp. destruct (world_at_refresh w Q G Hw) as (Hw1 & Hm & Hst & _).
  unfold own_post. rewrite Hp. splits.
  - by eapply refresh_handles.
  - by rewrite Hm.
  - intros sid. unfold outstanding. by rewrite Hst.
Qed.

(** The answer of [try_recv]. *)
Lemma answer_spec last w Q G :
  good w Q G ->
  exists w' p', answer last w = (w', p') /\ own_post w Q G w' p' Q /\
    ((exists v, p' = Done (Some v)) \/
     (staging (rx w) = [] /\ w' = w /\ p' = if last then Done None else Live)).
Proof.
  intros Hg. pose proof Hg as (Hw & Ho & _). unfold answer.
  destruct (pop_staging_spec w Q G Hw) as (Hw1 & Hst & Hh & Hsh & Hn).
  assert (pending (state (pop_staging w).2) = pending (state w)) as Hpe
    by (unfold pop_staging; by destruct (staging (rx w))).
  destruct (pop_staging w) as [[v|] w1]; simpl in *; eexists _, _; (split; [done|]).
  - split; [|by left; eexists]. unfold own_post, members. rewrite Hsh, Hpe. splits.
    intros sid. unfold outstanding. rewrite app_assoc, <- filter_app. simpl. by rewrite Hst.
  - destruct (Hn eq_refl) as [E ->]. split; [|by right]. apply own_post_refl; [done|]. by destruct last.
Qed.

(** The answer leaves the loop with what its place asks for. *)
Lemma answer_pc last w Q G Q0 G0 w0 new gone :
  good w Q G -> own_post w0 Q0 G0 w (Drain last 0) Q -> G0 = G ->
  (staging (rx w) = [] -> last = true -> disconnected w = true /\ members w = []) ->
  exists w' p', answer last w = (w', p') /\ own_post w0 Q0 G0 w' p' Q /\ pc_ok w' p' Q new gone /\
    ((exists v, p' = Done (Some v)) \/ (staging (rx w) = [] /\ p' = if last then Done None else Live)).
Proof.
  intros Hg (_ & Hh & Hl & Ha) -> Hend. destruct (answer_spec last w Q G Hg) as (w' & p' & -> & (Hg' & Hh' & Hl' & Ha') & Hp).
  exists w', p'. splits.
  - split; [done|]. split; [by eapply same_handles_trans|]. split; [lia|].
    intros sid. rewrite Ha'. exact (Ha sid).
  - destruct Hp as [[v ->]|(Hst & -> & ->)]; [done|]. destruct last; [|done]. intros _.
    destruct (Hend Hst eq_refl). done.
  - destruct Hp as [?|(? & _ & ?)]; [by left|by right].
Qed.

(** One [K::drain]. *)
Lemma drain_step_spec last n w Q G new gone :
  good w Q G -> pc_ok w (Drain last (S n)) Q new gone ->
  exists w' p' Q', drain_step last n w = OK (w', p') /\ own_post w Q G w' p' Q' /\
    pc_ok w' p' Q' new gone /\ ((exists v, p' = Done (Some v)) \/ exists i, p' = Ask last n i).
Proof.
  intros (Hw & Ho & _) (Hst & Hsw & Hne). specialize (Hne ltac:(done)). unfold drain_step.
  set (i := Z.to_nat (cursor (rx w) mod Z.of_nat (length (shards (rx w))))).
  assert (i < length (shards (rx w)))%nat as Hi.
  { destruct (shards (rx w)) as [|z l]; [done|]. unfold i. simpl length.
    pose proof (Z.mod_pos_bound (cursor (rx w)) (Z.of_nat (Datatypes.S (length l))) ltac:(lia)). lia. }
  destruct (lookup_lt_is_Some_2 _ _ Hi) as [sid Hsid]. rewrite Hsid.
  assert (sid ∈ members w) as Hin
    by (unfold members; apply elem_of_app; left; by eapply list_elem_of_lookup_2).
  destruct (deref_member w Q G sid Hw Hin) as (c & -> & _ & Hc). cbn [mbind outcome_bind].
  pose proof (wa_batch _ _ _ Hw) as Hb.
  destruct (bk_drain_in_place_law _ c (Q sid) (G sid) (batch (rx w)) append (staging (rx w)) Hc ltac:(lia))
    as (m & c1 & out & k & p & Hm & Hmb & Hpos & Hf & -> & Hc1).
  rewrite feed_append in Hf. injection Hf as <- <- <-. rewrite length_take_le in Hc1 by done.
  cbn [mbind outcome_bind]. set (w1 := set_rx _ _). set (Q1 := <[sid := drop m (Q sid)]> Q).
  assert (moved Q (take m (Q sid)) Q1) as Hmv
    by (rewrite <- (app_nil_r (take m (Q sid))); do 2 constructor).
  assert (good w1 Q1 G) as Hg1.
  { split; [|split; [by eapply moved_account|done]]. exact (world_at_staging (set_shard w sid c1) Q1 G _ (world_at_set_shard w Q G sid c1 _ Hw Hin Hc1)). }
  assert (forall p, result p = [] -> own_post w Q G w1 p Q1) as Hpost.
  { intros p Hp. split; [done|]. split; [done|]. split; [done|]. intros s. rewrite Hp.
    by eapply (moved_outstanding owner w w1 Q Q1 (take m (Q sid)) []). }
  destruct (Z.ltb_spec 0 (Z.of_nat m)) as [Hm0|Hm0].
  - assert (staging (rx (bump w1)) <> []) as Hfull.
    { simpl. rewrite Hst. simpl. intros E. apply (f_equal length) in E. rewrite length_take_le in E by done. simpl in E. lia. }
    destruct (answer_pc last (bump w1) Q1 G Q G w new gone) as (w' & p' & -> & Hpo & Hpc & Hp); [| |done| |].
    + split; [by apply world_at_bump; apply Hg1|]. split; [apply Hg1|done].
    + destruct (Hpost (Drain last 0) eq_refl) as (_ & Hh & Hl & Ha). split; [|done].
      split; [by apply world_at_bump; apply Hg1|]. split; [apply Hg1|done].
    + intros E. by apply Hfull in E.
    + exists w', p', Q1. splits. destruct Hp as [?|[E _]]; [by left|]. by apply Hfull in E.
  - assert (m = O) as -> by lia.
    assert (Q sid = []) as HQ by (destruct (Q sid); [done|specialize (Hpos ltac:(done) ltac:(lia)); lia]).
    exists w1, (Ask last n i), Q1. splits; [by apply Hpost| |by right; eexists].
    split; [simpl; by rewrite Hst|]. split; [done|]. exists sid. split; [done|]. intros _. unfold Q1.
    by rewrite fn_lookup_insert, HQ.
Qed.

(** [is_finished]: with nobody left a drained shard is finished and leaves. *)
Lemma ask_step_spec last n i w Q G new gone :
  good w Q G -> pc_ok w (Ask last n i) Q new gone ->
  exists w' m, ask_step last n i w = OK (w', Drain last m) /\ own_post w Q G w' (Drain last m) Q /\
    pc_ok w' (Drain last m) Q new gone /\ (m <= n)%nat.
Proof.
  intros Hg (Hst & Hsw & sid & Hsid & Hlast). pose proof Hg as (Hw & Ho & _). unfold ask_step. rewrite Hsid.
  assert (sid ∈ members w) as Hin
    by (unfold members; apply elem_of_app; left; by eapply list_elem_of_lookup_2).
  destruct (deref_member w Q G sid Hw Hin) as (c & -> & _ & Hc). cbn [mbind outcome_bind].
  rewrite (bk_is_finished_law c _ _ Hc). cbn [mbind outcome_bind].
  destruct (G sid && bool_decide (Q sid = [])) eqn:Hfin.
  - apply andb_prop in Hfin as [HG HQ%bool_decide_eq_true].
    destruct (world_at_dispose w Q G i sid Hw Hsid HQ HG)
      as (sh & w' & -> & Hw' & Hp & Hrx & Hpr & Hlv & Hste & Hrg & Hfr). cbn [mbind outcome_bind].
    assert (same_handles w w') as Hh by (unfold same_handles; by rewrite Hrx).
    exists w', (match shards (rx w') with [] => 0 | _ => n end)%nat. apply Permutation_length in Hp as Hlen. simpl in Hlen.
    split; [done|]. split; [|split].
    + split; [done|]. split; [done|]. split.
      * unfold members. rewrite Hrx, Hste, !length_app. simpl. lia.
      * intros s. unfold outstanding. by rewrite Hrx.
    + rewrite Hrx. simpl. rewrite Hrx. split; [done|]. split; [|by destruct sh].
      intros Hl. rewrite (disconnected_handles w w' Hh), Hste, Hrx. simpl.
      destruct (Hsw Hl) as (? & ? & ?). splits. destruct sh; simpl in *; lia.
    + destruct (shards (rx w')); lia.
  - exists (bump w), n. split; [done|]. split; [|split; [|done]].
    + split; [split; [by apply world_at_bump|done]|done].
    + split; [done|]. split.
      * intros Hl. destruct (Hsw Hl) as (Hd & ? & ?). exfalso.
        destruct (disconnected_gone w Q G Hw Hd) as [_ HG]. rewrite (HG sid Hin), (Hlast Hl) in Hfin.
        by rewrite bool_decide_true in Hfin.
      * simpl. intros _ E. by rewrite E in Hsid.
Qed.

(** How many steps [recv] still makes once nobody is left. *)
Definition steps_left w (p : recv_pc T) : nat :=
  let l := length (members w) in
  match p with
  | Done _ => 0
  | Drain last n => 2 * n + 1 + if last then 0 else 2 * l + 4
  | Ask last n _ => 2 * n + 2 + if last then 0 else 2 * l + 4
  | Try last => if last then 2 * l + 2 else 4 * l + 6
  | Sweep => 2 * l + 3
  | Live => 2 * l + 4
  | Disarm => 4 * l + 7
  | Parked | Relive => 4 * l + 8
  | Scan sh => 4 * l + 9 + length sh
  | Arm => 5 * l + 10
  end.

(** What [own_step] gives at one place; [new] and [gone] are the ghosts after it. *)
Definition own_ok w p Q G new gone : Prop :=
  exists w' p' Q', own_step w p = OK (w', p') /\ own_post w Q G w' p' Q' /\ pc_ok w' p' Q' new gone /\
    (disconnected w = true -> (steps_left w' p' < steps_left w p)%nat).

(** The entry of [try_recv]. *)
Lemma try_step_spec last w Q G new gone :
  good w Q G -> pc_ok w (Try last) Q new gone -> own_ok w (Try last) Q G new gone.
Proof.
  intros Hg Hp. pose proof Hg as (Hw & Ho & _). unfold own_ok. cbn [own_step].
  destruct (staging (rx w)) as [|v l] eqn:Hst.
  + pose proof (refresh_post w Q G) as Hr. destruct (world_at_refresh w Q G Hw) as (Hw1 & Hm & Hst1 & _ & _ & _ & _ & Hsh).
    pose proof (refresh_pending w Q G Hw) as Hpe. pose proof (disconnected_handles _ _ (refresh_handles w Q G Hw)) as Hd.
    pose proof (Permutation_length Hm) as Hlen. rewrite Hst in Hst1.
    set (w1 := refresh_membership w) in *. destruct (shards (rx w1)) as [|z sh] eqn:Es.
    * assert (members w1 = []) as Hm1 by (unfold members; by rewrite Es, Hpe).
      exists w1, (if last then Done None else Live), Q. split; [done|]. split; [apply Hr; [done|by destruct last]|].
      split; [|destruct last; simpl; lia]. destruct last; [|done]. intros _. rewrite Hd. split; [by apply Hp|done].
    * exists w1, (Drain last (length (z :: sh))), Q. split; [done|]. split; [by apply Hr|]. split.
      -- split; [done|]. split; [|by rewrite Es]. intros Hl. rewrite Hd, Es. splits. by apply Hp.
      -- intros _. rewrite Hsh in *. cbn [steps_left]. destruct last; lia.
  + destruct (answer_pc last w Q G Q G w new gone Hg) as (w' & p' & -> & Hpo & Hpc & Hcase); [by apply own_post_refl|done|by rewrite Hst|].
    exists w', p', Q. splits. intros _. destruct Hcase as [[v' ->]|[E _]]; [|by rewrite Hst in E]. simpl. destruct last; lia.
Qed.

(** One shard of the check before the park. *)
Lemma scan_step_spec sid l w Q G new gone :
  good w Q G -> pc_ok w (Scan (sid :: l)) Q new gone -> own_ok w (Scan (sid :: l)) Q G new gone.
Proof.
  intros Hg (Hst & Hsuf & pre & Hsh & Hn). pose proof Hg as (Hw & Ho & _). unfold own_ok. cbn [own_step].
  assert (sid ∈ members w) as Hin by (unfold members; rewrite Hsh; set_solver).
  destruct (deref_member w Q G sid Hw Hin) as (c & -> & _ & Hc). cbn [mbind outcome_bind].
  rewrite (bk_is_empty_law c _ _ Hc). cbn [mbind outcome_bind].
  exists w, (if bool_decide (Q sid = []) then Scan l else Disarm), Q. split; [done|].
  destruct (bool_decide_reflect (Q sid = [])) as [HQ|HQ]; [|split; [by apply own_post_refl|]; split; [done|simpl; lia]].
  split; [by apply own_post_refl|]. split; [|simpl; lia]. split; [done|]. split; [done|].
  exists (pre ++ [sid]). split; [by rewrite Hsh, <- app_assoc|]. intros s [Hs|Hs]%elem_of_app; [by apply Hn|].
  apply list_elem_of_singleton in Hs as ->. destruct (Hsuf sid) as [q Hq]. rewrite HQ in *.
  symmetry in Hq. by apply app_nil in Hq as [_ ->].
Qed.

(** One step of the receiver. *)
Lemma own_step_spec w p Q G new gone :
  good w Q G -> pc_ok w p Q new gone -> (p = Arm -> forall sid, new sid = []) -> (forall o, p <> Done o) ->
  own_ok w p Q G new gone.
Proof.
  intros Hg Hp Harm Hnd. pose proof Hg as (Hw & Ho & _).
  assert (forall p', result p' = [] -> own_post w Q G w p' Q) as Hsame by (intros; by apply own_post_refl).
  destruct p as [last|last [|n]|last n i| | | |[|sid l]| | | |o].
  - by apply try_step_spec.
  - destruct Hp as (Hst & Hsw & _). unfold own_ok. cbn [own_step].
    destruct (answer_pc last w Q G Q G w new gone Hg) as (w' & p' & -> & Hpo & Hpc & Hcase); [by apply Hsame|done| |].
    { intros _ Hl. destruct (Hsw Hl) as (? & Hpe & Hlen). split; [done|]. unfold members. rewrite Hpe, app_nil_r.
      by apply nil_length_inv; lia. }
    exists w', p', Q. splits. intros _. destruct Hpo as (_ & _ & Hlen & _).
    destruct Hcase as [[v' ->]|[_ ->]]; destruct last; simpl; lia.
  - unfold own_ok. cbn [own_step]. destruct (drain_step_spec last n w Q G new gone Hg Hp) as (w' & p' & Q' & -> & Hpo & Hpc & Hcase).
    exists w', p', Q'. splits. intros _. destruct Hpo as (_ & _ & Hlen & _).
    destruct Hcase as [[v' ->]|[i ->]]; destruct last; cbn [steps_left]; lia.
  - unfold own_ok. cbn [own_step]. destruct (ask_step_spec last n i w Q G new gone Hg Hp) as (w' & m & -> & Hpo & Hpc & Hm).
    exists w', (Drain last m), Q. splits. intros _. destruct Hpo as (_ & _ & Hlen & _). destruct last; cbn [steps_left]; lia.
  - exists w, (if disconnected w then Sweep else Arm), Q. split; [done|]. split; [apply Hsame; by destruct (disconnected w)|].
    destruct (disconnected w) eqn:E; splits; simpl; lia.
  - exists (refresh_membership w), (Try true), Q. destruct (world_at_refresh w Q G Hw) as (_ & Hm & _).
    split; [done|]. split; [by apply refresh_post|]. split.
    + intros _. by rewrite (disconnected_handles _ _ (refresh_handles w Q G Hw)).
    + simpl. rewrite Hm. lia.
  - exists w, (Scan (shards (rx w))), Q. split; [done|]. split; [by apply Hsame|]. split.
    + split; [done|]. split; [|by exists []; split; [|intros s Hs; by apply not_elem_of_nil in Hs]].
      intros sid. exists (Q sid). by rewrite (Harm eq_refl), app_nil_r.
    + intros _. simpl. unfold members. rewrite length_app. lia.
  - exists w, Relive, Q. split; [done|]. split; [by apply Hsame|]. split; [|simpl; lia].
    destruct Hp as (Hst & _ & pre & Hsh & Hn). split; [done|]. by rewrite Hsh, app_nil_r.
  - by apply scan_step_spec.
  - destruct Hp as [Hst Hn]. exists w, (if disconnected w then Disarm else Parked), Q. split; [done|].
    destruct (disconnected w) eqn:E; (split; [by apply Hsame|]); (split; [simpl; by rewrite ?E|simpl; lia]).
  - exists w, Disarm, Q. split; [done|]. split; [by apply Hsame|]. split; [done|simpl; lia].
  - exists w, (Try false), Q. split; [done|]. split; [by apply Hsame|]. split; [done|simpl; lia].
  - by destruct (Hnd o).
Qed.

(** One call of another thread. *)
Lemma sender_step_spec w Q G o :
  good w Q G -> sender o = true -> mop_ok owner false o -> Z.of_nat (S (fresh w)) < USIZE ->
  exists x w' Q' G', mstep capacity w o = OK (x, w') /\ good w' Q' G' /\ rx w' = rx w /\
    (forall sid, Q' sid = Q sid ++ sent_on sid [x]) /\ (fresh w' <= S (fresh w))%nat /\
    (disconnected w = true -> w' = w /\ x = OQuiet).
Proof.
  intros Hg Ho Hok Hb.
  destruct (mstep_spec capacity owner false channel_ok w Q G o Hg Hok Hb) as (x & w' & Hs & (Q' & G' & Hg' & Ha) & Hf).
  destruct (sender_rx capacity w o x w' Ho Hs) as [Hrx Hrec].
  exists x, w', Q', G'. splits.
  - intros sid. specialize (Ha sid). rewrite Hrec in Ha. unfold outstanding in Ha. rewrite Hrx, <- app_assoc in Ha. simpl in Ha.
    by apply app_inv_head in Ha.
  - intros Hd. by apply (sender_idle capacity w Q G o x w'); [apply Hg|..].
Qed.

Lemma sent_on_app sid (xs ys : list (mobs T)) : sent_on sid (xs ++ ys) = sent_on sid xs ++ sent_on sid ys.
Proof.
  induction xs as [|x xs IH]; [done|]. simpl app. by rewrite sent_on_cons, IH, app_assoc, <- sent_on_cons.
Qed.

Lemma pc_ok_ext w p Q Q' new new' gone :
  (forall sid, Q' sid = Q sid) -> (forall sid, new' sid = new sid) -> pc_ok w p Q new gone -> pc_ok w p Q' new' gone.
Proof.
  intros HQ Hn. assert (forall l, only_new Q new l -> only_new Q' new' l) as Hnew
    by (intros l Hl sid Hs; rewrite HQ, Hn; by apply Hl).
  destruct p; simpl; try done.
  - intros (H1 & H2 & sid & H3 & H4). splits. exists sid. by rewrite HQ.
  - intros (H1 & H2 & pre & H3 & H4). splits; [|exists pre; by auto]. intros sid. by rewrite HQ, Hn.
  - intros (H1 & H2). by auto.
  - intros (H1 & H2 & H3). by auto.
Qed.

(** What others do leaves the receiver where it is: the values they add are new. *)
Lemma pc_ok_sender w w' p Q Q' new new' gone G G' :
  good w Q G -> good w' Q' G' -> rx w' = rx w ->
  (forall sid, exists q, Q' sid = Q sid ++ q /\ new' sid = new sid ++ q) ->
  (disconnected w = true -> w' = w /\ forall sid, Q' sid = Q sid) ->
  pc_ok w p Q new gone -> pc_ok w' p Q' new' (gone || (live w' <? live w)).
Proof.
  intros Hg Hg' Hrx HQ Hidle. destruct (disconnected w) eqn:Hd.
  - destruct (Hidle eq_refl) as [-> HQ']. rewrite (Z.ltb_irrefl (live w)), orb_false_r.
    assert (forall sid, new' sid = new sid) as Hn.
    { intros sid. destruct (HQ sid) as (q & E1 & E2). rewrite HQ' in E1. rewrite <- (app_nil_r (Q sid)) in E1 at 1.
      apply app_inv_head in E1 as <-. by rewrite E2, app_nil_r. }
    by apply pc_ok_ext.
  - assert (forall l, only_new Q new l -> only_new Q' new' l) as Hnew.
    { intros l Hl sid Hs. destruct (HQ sid) as (q & -> & ->). by rewrite (Hl sid Hs). }
    destruct p; simpl; unfold sweeping; rewrite ?Hrx, ?Hd; try tauto.
    + intros Hp Hl. by specialize (Hp Hl).
    + intros (H1 & H2 & H3). splits. intros Hl. by destruct (H2 Hl).
    + intros (H1 & H2 & sid & H3 & H4). splits; [intros Hl; by destruct (H2 Hl)|].
      exists sid. split; [done|]. intros Hl. by destruct (H2 Hl).
    + done.
    + intros (H1 & H2 & pre & H3 & H4). splits; [|exists pre; by auto].
      intros sid. destruct (H2 sid) as [q Hq]. destruct (HQ sid) as (q' & -> & ->). exists q. by rewrite Hq, app_assoc.
    + intros (H1 & H2). by auto.
    + intros (H1 & H2 & _). splits; [by auto|]. unfold disconnected in *. intros Hd'%Z.eqb_eq.
      apply Z.eqb_neq in Hd. rewrite orb_comm. destruct Hg as [Hw _]. pose proof (wa_live _ _ _ Hw).
      by destruct (Z.ltb_spec (live w') (live w)); [|lia].
    + intros Hp Hn. by destruct (Hp Hn).
Qed.

(** The invariant of a call that was entered in [w0] with the shards [Q0]. *)
Definition recv_inv w0 Q0 s Q G : Prop :=
  good (world s) Q G /\ (armed s <= length (sent s))%nat /\ pc_at s Q /\
  forall sid, filter (fun v => owner v = sid) (result (pc s)) ++ due (world s) Q sid =
    due w0 Q0 sid ++ sent_on sid (sent s).

Lemma recv_inv_sender w0 Q0 s Q G o :
  recv_inv w0 Q0 s Q G -> mop_ok owner false o -> Z.of_nat (S (fresh (world s))) < USIZE ->
  exists s' Q' G', step capacity s (ESender o) = OK s' /\ recv_inv w0 Q0 s' Q' G' /\
    (fresh (world s') <= S (fresh (world s)))%nat.
Proof.
  intros (Hg & Har & Hpc & Hacc) Hok Hb. cbn [step]. destruct (sender o) eqn:Ho; [|exists s, Q, G; split; [done|]; by splits].
  destruct (sender_step_spec (world s) Q G o Hg Ho Hok Hb) as (x & w' & Q' & G' & -> & Hg' & Hrx & HQ & Hf & Hidle).
  cbn [mbind outcome_bind]. eexists _, Q', G'. split; [done|]. split; [|done].
  split; [done|]. split; [simpl; rewrite length_app; simpl; lia|]. split.
  - unfold pc_at, since in *. simpl. eapply pc_ok_sender; [exact Hg|exact Hg'|done| | |exact Hpc].
    + intros sid. exists (sent_on sid [x]). split; [apply HQ|]. by rewrite drop_app_le, sent_on_app by done.
    + intros Hd. destruct (Hidle Hd) as [-> ->]. split; [done|]. intros sid. by rewrite HQ, app_nil_r.
  - intros sid. simpl. rewrite sent_on_app, app_assoc, <- Hacc. unfold outstanding. rewrite Hrx, HQ. by rewrite <- !app_assoc.
Qed.

Lemma recv_inv_own w0 Q0 s Q G :
  recv_inv w0 Q0 s Q G ->
  exists s' Q', step capacity s ERecv = OK s' /\ recv_inv w0 Q0 s' Q' G /\ same_handles (world s) (world s') /\
    (disconnected (world s) = true ->
     match pc s with Done _ => s' = s | _ => (steps_left (world s') (pc s') < steps_left (world s) (pc s))%nat end).
Proof.
  intros (Hg & Har & Hpc & Hacc). cbn [step]. assert ((exists o, pc s = Done o) \/ ~ exists o, pc s = Done o) as [[o Ho]|Hnd]
    by (destruct (pc s) as [| | | | | | | | | |o]; [right; by intros [o Ho]..|left; by exists o]).
  { destruct s as [w p l a d]. simpl in *. subst p. simpl. eexists _, Q. split; [done|]. by splits. }
  assert (forall o, pc s <> Done o) as Hnd' by (intros o E; apply Hnd; by exists o).
  set (new := fun sid => match pc s with Arm => [] | _ => since s sid end).
  set (gone := match pc s with Arm => false | _ => departed s end).
  destruct (own_step_spec (world s) (pc s) Q G new gone) as (w' & p' & Q' & -> & (Hg' & Hh & _ & Ha) & Hp' & Hst); try done.
  { unfold pc_at, new, gone in *. by destruct (pc s). }
  { unfold new. by intros ->. }
  cbn [mbind outcome_bind]. eexists _, Q'. split; [done|]. split; [|split].
  - split; [by destruct (pc s)|]. split; [by destruct (pc s)|]. split.
    + unfold pc_at, since, new, gone in *. destruct (pc s); try done. simpl.
      eapply pc_ok_ext; [done| |exact Hp']. intros sid. by rewrite drop_all.
    + intros sid. transitivity (due w0 Q0 sid ++ sent_on sid (sent s)); [|by destruct (pc s)].
      rewrite <- Hacc. replace (result (pc s)) with (@nil T) by (destruct (pc s); try done; by destruct (Hnd' o)).
      simpl. rewrite <- Ha. by destruct (pc s).
  - by destruct (pc s).
  - intros Hd. specialize (Hst Hd). destruct (pc s); try done. by destruct (Hnd' o).
Qed.

(** The calls of others that a run makes. *)
Definition event_ok (e : event T) : bool :=
  match e with ERecv => true | ESender o => mop_ok owner false o end.

Lemma recv_inv_run w0 Q0 es s Q G :
  recv_inv w0 Q0 s Q G -> forallb event_ok es -> Z.of_nat (fresh (world s) + length es) < USIZE ->
  exists s' Q' G', run capacity s es = OK s' /\ recv_inv w0 Q0 s' Q' G'.
Proof.
  revert s Q G. induction es as [|e es IH]; intros s Q G Hi Hok Hb; cbn [run forallb length] in *; [by exists s, Q, G|].
  apply andb_prop_elim in Hok as [He Hes].
  assert (exists s' Q' G', step capacity s e = OK s' /\ recv_inv w0 Q0 s' Q' G' /\
    (fresh (world s') <= S (fresh (world s)))%nat) as (s1 & Q1 & G1 & -> & Hi1 & Hf).
  { destruct e as [|o]; [|eapply recv_inv_sender; [done|done|lia]].
    destruct (recv_inv_own w0 Q0 s Q G Hi) as (s' & Q' & Hs & Hi' & Hh & _). exists s', Q', G. splits.
    unfold same_handles in Hh. lia. }
  cbn [mbind outcome_bind]. eapply IH; [done|done|lia].
Qed.

(** With nobody left [recv] comes to its answer alone. *)
Lemma recv_returns w0 Q0 n s Q G :
  recv_inv w0 Q0 s Q G -> disconnected (world s) = true -> (steps_left (world s) (pc s) <= n)%nat ->
  exists s' Q' o, run capacity s (replicate n ERecv) = OK s' /\ recv_inv w0 Q0 s' Q' G /\ pc s' = Done o.
Proof.
  revert s Q. induction n as [|n IH]; intros s Q Hi Hd Hn; cbn [run replicate].
  - exists s, Q. destruct (pc s) as [[|]|? ?|? ? ?| | | |?| | | |o] eqn:E; cbn [steps_left] in Hn; try lia. by exists o.
  - destruct (recv_inv_own w0 Q0 s Q G Hi) as (s1 & Q1 & -> & Hi1 & Hh & Hs). cbn [mbind outcome_bind].
    apply (IH s1 Q1 Hi1); [by rewrite (disconnected_handles _ _ Hh)|]. specialize (Hs Hd).
    destruct (pc s) eqn:E; try lia. subst s1. rewrite E. simpl. lia.
Qed.
End invariant.

(** ** Properties *)

(** C18: [recv], access by access, against producers and registrars that send,
    register and leave between any two of them. From a well-formed channel no
    access panics or touches a dropped shard, and what the call answers, what is
    staged and what is queued account for every accepted value of each shard, in
    order. The call answers [None] only when every handle is gone and nothing is
    staged or queued anywhere. When it parks, nothing is staged, each shard of the
    working set holds exactly what was accepted on it after the waiter was armed,
    and if no handle is left one was dropped after that: every such value and
    departure is announced after the arm. Shards that wait in the inbox are not
    covered ([recv_parks_over_inbox]). Once no handle is left the call answers
    within [steps_left] accesses of its own. *)
Theorem recv_complete {T C} `{SpscLaws T C} (capacity : Z) (owner : T -> nat) (w : World T C) Q G
    (es : list (event T)) :
  (exists c : C, bk_channel capacity = OK c) -> world_at w Q G -> owned owner Q ->
  forallb (event_ok owner) es -> Z.of_nat (fresh w + length es) < USIZE ->
  exists s Q', run capacity (enter w) es = OK s /\
    (forall sid, sid ∈ members (world s) ->
       exists c g, store (world s) !! sid = Some c /\ bk_repr c (Q' sid) g false) /\
    (forall sid, filter (fun v => owner v = sid) (result (pc s)) ++
       filter (fun v => owner v = sid) (staging (rx (world s))) ++ Q' sid =
       (filter (fun v => owner v = sid) (staging (rx w)) ++ Q sid) ++ sent_on sid (sent s)) /\
    (pc s = Done None -> producers (world s) = ∅ /\ registrars (world s) = O /\
       staging (rx (world s)) = [] /\ forall sid, Q' sid = []) /\
    (pc s = Parked -> staging (rx (world s)) = [] /\ (live (world s) = 0 -> departed s = true) /\
       forall sid, sid ∈ shards (rx (world s)) -> Q' sid = since s sid) /\
    (live (world s) = 0 ->
       exists s' o, run capacity s (replicate (steps_left (world s) (pc s)) ERecv) = OK s' /\ pc s' = Done o).
Proof.
  intros Hc Hw Ho Hok Hb.
  destruct (recv_inv_run capacity owner Hc w Q es (enter w) Q G) as (s & Q' & G' & Hrun & Hi); [|done|done|].
  { split; [done|]. split; [simpl; lia|]. split; [done|]. intros sid. simpl. by rewrite app_nil_r. }
  pose proof Hi as ((Hw' & _) & _ & Hpc & Hacc). unfold pc_at in Hpc. exists s, Q'. splits.
  - intros sid Hin. destruct (wa_shard _ _ _ Hw' sid Hin) as (c & ? & ?). by exists c, (G' sid).
  - intros E. rewrite E in Hpc. destruct (Hpc eq_refl) as (Hd & Hst & Hm).
    destruct (disconnected_gone _ _ _ Hw' Hd) as [Hp _]. unfold disconnected in Hd. apply Z.eqb_eq in Hd.
    pose proof (wa_live _ _ _ Hw'). splits. intros sid. apply (wa_dead _ _ _ Hw'). rewrite Hm. apply not_elem_of_nil.
  - intros E. rewrite E in Hpc. destruct Hpc as (Hst & Hn & Hd). splits. intros Hl. apply Hd. unfold disconnected. by rewrite Hl.
  - intros Hl. destruct (recv_returns capacity owner Hc w Q _ s Q' G' Hi ltac:(unfold disconnected; by rewrite Hl) ltac:(done))
      as (s' & _ & o & ? & _ & ?). by exists s', o.
Qed.

#[local] Existing Instances pair_backend pair_laws.

Definition recvs (n : nat) : list (event (nat * Z)) := replicate n ERecv.

(** Two producers: the receiver finds nothing, arms, checks both shards and
    parks; then a value arrives. *)
Lemma recv_complete_witness :
  exists s, run 2 (enter (ring_world 2)) (recvs 12 ++ [ESender (MSend 1 (1%nat, 5))]) = OK s /\ pc s = Parked /\
    since s 1 = [(1%nat, 5)] /\ staging (rx (world s)) = [] /\ (live (world s) = 0 -> departed s = true).
Proof.
  destruct (open_fixed_spec 2 2 (ring_world 2) ltac:(lia) ltac:(vm_compute; reflexivity)) as (G & Hw & _).
  destruct (recv_complete 2 fst (ring_world 2) (fun _ => []) G (recvs 12 ++ [ESender (MSend 1 (1%nat, 5))]))
    as (s & Q & Hrun & _ & _ & _ & Hpark & _).
  - eexists. vm_compute. reflexivity.
  - exact Hw.
  - intros sid v Hv. by apply not_elem_of_nil in Hv.
  - vm_compute. exact I.
  - vm_compute. reflexivity.
  - assert (match run 2 (enter (ring_world 2)) (recvs 12 ++ [ESender (MSend 1 (1%nat, 5))]) with
      | OK s => pc s = Parked /\ since s 1 = [(1%nat, 5)] | _ => False end) as Hs by (vm_compute; by split).
    rewrite Hrun in Hs. destruct Hs as [Hp Hn]. destruct (Hpark Hp) as (Hst & Hd & _).
    exists s. split; [exact Hrun|]. split; [exact Hp|]. split; [exact Hn|]. split; [exact Hst|exact Hd].
Defined.


(** The check before the park does not look at the inbox. A registrar hands out
    a producer after the pass of [try_recv] and its value is accepted before the
    waiter is armed: [recv] parks with the value buffered, and nothing is
    announced after the arm. Only the time limit of the park ends it. *)
Definition late_registration : list (event (nat * Z)) :=
  recvs 2 ++ [ESender MRegister; ESender (MSend 0 (0%nat, 7))] ++ recvs 3.

Lemma recv_parks_over_inbox :
  exists s, run 2 (enter open_dynamic) late_registration = OK s /\ pc s = Parked /\
    sent_on 0 (sent s) = [(0%nat, 7)] /\ since s 0 = [] /\ 0%nat ∈ producers (world s) /\
    exists w', try_recv (world s) = OK (Some (0%nat, 7), w').
Proof.
  eexists. split; [vm_compute; reflexivity|]. split; [reflexivity|]. split; [reflexivity|]. split; [reflexivity|].
  split; [vm_compute; reflexivity|]. eexists. vm_compute. reflexivity.
Qed.

End mpsc_recv.
