(* ===== verification/Broadcast.v ===== *)
(** * Broadcast: [src/src/mpmc/broadcast/mod.rs]

    One publisher, a shared ring, and up to 64 readers, each with its own
    cursor. The ring is bounded by the slowest active reader. [Shared],
    [Publisher] and [Reader] are the code's structures with every cursor kept as
    a machine word; each public call is one definition over them, and [World] is
    the shared part with the handles that are alive. [BroadcastConc.v] interleaves
    the accesses of these calls.

    The abstract specification is a log of published values and a position in
    it per reader; [broadcast_refines_log] shows that the calls implement it. *)

From stdpp Require Import prelude.
From S2P Require Import Prelude Backend MpscPool.
Local Open Scope Z_scope.
#[local] Set Warnings "-clear-no-such-hyp".

Module broadcast.
Import pool (set_bit, clear_bit, set_bit_spec, clear_bit_spec).

Section code.
Context {T : Type}.

Record Shared := mkShared {
  buf : list (cell T);
  mask : Z;
  cap : Z;
  w : Z;
  readers : Z;
  owned : Z;
  cursors : list Z;
  producer_gone : bool
}.

Record Publisher := mkPublisher { pub_w : Z; min_cache : Z }.
Record Reader := mkReader { bit : nat; r : Z; suspended : bool }.

Definition set_buf (s : Shared) (b : list (cell T)) : Shared :=
  mkShared b (mask s) (cap s) (w s) (readers s) (owned s) (cursors s) (producer_gone s).
Definition store_w (s : Shared) (x : Z) : Shared :=
  mkShared (buf s) (mask s) (cap s) x (readers s) (owned s) (cursors s) (producer_gone s).
Definition store_readers (s : Shared) (x : Z) : Shared :=
  mkShared (buf s) (mask s) (cap s) (w s) x (owned s) (cursors s) (producer_gone s).
Definition store_owned (s : Shared) (x : Z) : Shared :=
  mkShared (buf s) (mask s) (cap s) (w s) (readers s) x (cursors s) (producer_gone s).

(** [cursors[bit].store(x)]: a checked index. *)
Definition store_cursor (s : Shared) (b : nat) (x : Z) : outcome Shared :=
  if decide (b < length (cursors s))%nat
  then OK (mkShared (buf s) (mask s) (cap s) (w s) (readers s) (owned s) (<[b := x]> (cursors s)) (producer_gone s))
  else PANIC.

(** ** Construction and membership *)

(** [broadcast::open] for a payload of [size_T] bytes: [Vec::with_capacity] panics
    when the slots exceed the largest allocation. *)
Definition open (size_T capacity : Z) (max_readers : nat) : outcome (Shared * Publisher * Reader) :=
  if decide (1 <= max_readers <= 64)%nat then
    match checked_next_power_of_two capacity with
    | None => PANIC
    | Some c =>
        if ISIZE_MAX <? c * size_T then PANIC else
        OK (mkShared (replicate (Z.to_nat c) None) (c - 1) c 0 1 1 (replicate max_readers 0) false,
            mkPublisher 0 0, mkReader 0 0 false)
    end
  else PANIC.

Definition has_bit (bits : Z) (i : nat) : bool := negb (Z.land bits (Z.shiftl 1 (Z.of_nat i)) =? 0).

Definition activate_reader (s : Shared) (b : nat) : outcome (Z * Shared) :=
  let now := w s in
  s1 ← store_cursor s b now;
  OK (now, store_readers s1 (set_bit (readers s1) (Z.of_nat b))).

(** [(0..n).find(|i| bits & (1u64 << i) == 0)]. *)
Fixpoint find_free (bits : Z) (i n : nat) : option nat :=
  match n with
  | O => None
  | S n' => if has_bit bits i then find_free bits (S i) n' else Some i
  end.

(** [subscribe] without interference: the compare-exchange succeeds. *)
Definition subscribe (s : Shared) : outcome (option Reader * Shared) :=
  let bits := owned s in
  match find_free bits 0 (length (cursors s)) with
  | None => OK (None, s)
  | Some free =>
      let s1 := store_owned s (set_bit bits (Z.of_nat free)) in
      '(now, s2) ← activate_reader s1 free;
      OK (Some (mkReader free now false), s2)
  end.

(** The scan of [slowest] over the cursors from position [i] on. *)
Fixpoint slowest_loop (bits wv : Z) (cs : list Z) (i : nat) (min max_lag : Z) : Z :=
  match cs with
  | [] => min
  | cursor :: cs' =>
      if has_bit bits i then
        let lag := wrapping_sub wv cursor in
        if max_lag <? lag then slowest_loop bits wv cs' (S i) cursor lag
        else slowest_loop bits wv cs' (S i) min max_lag
      else slowest_loop bits wv cs' (S i) min max_lag
  end.

Definition slowest (s : Shared) (wv : Z) : Z := slowest_loop (readers s) wv (cursors s) 0 wv 0.

Definition refresh_slowest (s : Shared) (p : Publisher) : Publisher :=
  mkPublisher (pub_w p) (slowest s (pub_w p)).

(** ** Publishing *)

Definition gated (s : Shared) (p : Publisher) : bool :=
  cap s <=? wrapping_sub (pub_w p) (min_cache p).

(** The slot access of [try_send] and [send_batch]: the replaced value, if any,
    is moved out before the new one is installed. *)
Definition write_slot (s : Shared) (position : Z) (v : T) : outcome (option T * Shared) :=
  let i := Z.to_nat (Z.land position (mask s)) in
  match buf s !! i with
  | None => PANIC
  | Some c =>
      replaced ← (if cap s <=? position then x ← assume_init_read c; OK (Some x) else OK None);
      OK (replaced, set_buf s (<[i := Some v]> (buf s)))
  end.

(** [Publisher::try_send]; the last component is the value destroyed. *)
Definition try_send (s : Shared) (p : Publisher) (v : T)
    : outcome (result unit T * Shared * Publisher * option T) :=
  let p1 := if gated s p then refresh_slowest s p else p in
  if gated s p && gated s p1 then OK (Err v, s, p1, None) else
  '(replaced, s1) ← write_slot s (pub_w p1) v;
  let p2 := mkPublisher (wrapping_add (pub_w p1) 1) (min_cache p1) in
  OK (Ok tt, store_w s1 (pub_w p2), p2, replaced).

(** [PublishCommit::publish]. *)
Definition publish (s : Shared) (p : Publisher) (dirty : bool) : Shared :=
  if dirty then store_w s (pub_w p) else s.

(** How [send_batch] leaves: done, unwound by the iterator, or still spinning
    on a full ring with the values it has not written. *)
Inductive batch_end : Type :=
| BatchDone
| BatchUnwound
| BatchWaiting (rest : list T).

(** The body of [send_batch] with [PublishCommit] as [dirty]; [panics] says
    whether the iterator panics after its last value. *)
Fixpoint send_batch_loop (values : list T) (panics : bool) (s : Shared) (p : Publisher) (dirty : bool)
    (dropped : list T) : outcome (batch_end * Shared * Publisher * list T) :=
  match values with
  | [] => OK (if panics then BatchUnwound else BatchDone, publish s p dirty, p, dropped)
  | v :: values' =>
      let '(s1, p1, dirty1) :=
        if gated s p then (publish s p dirty, refresh_slowest (publish s p dirty) p, false) else (s, p, dirty) in
      if gated s1 p1 then OK (BatchWaiting values, s1, p1, dropped) else
      '(replaced, s2) ← write_slot s1 (pub_w p1) v;
      send_batch_loop values' panics s2 (mkPublisher (wrapping_add (pub_w p1) 1) (min_cache p1)) true
        (dropped ++ option_list replaced)
  end.

Definition send_batch (values : list T) (panics : bool) (s : Shared) (p : Publisher)
    : outcome (batch_end * Shared * Publisher * list T) :=
  send_batch_loop values panics s p false [].

(** ** Reading *)

(** Clone the value of sequence [position]. *)
Definition read_slot (s : Shared) (position : Z) : outcome T :=
  match buf s !! Z.to_nat (Z.land position (mask s)) with
  | None => PANIC
  | Some c => assume_init_read c
  end.

Definition try_recv (s : Shared) (rd : Reader) : outcome (option T * Shared * Reader) :=
  if suspended rd then OK (None, s, rd) else
  let wv := w s in
  if r rd =? wv then OK (None, s, rd) else
  if cap s <? wrapping_sub wv (r rd) then
    s1 ← store_cursor s (bit rd) wv;
    OK (None, s1, mkReader (bit rd) wv false)
  else
    v ← read_slot s (r rd);
    let r1 := wrapping_add (r rd) 1 in
    s1 ← store_cursor s (bit rd) r1;
    OK (Some v, s1, mkReader (bit rd) r1 false).

(** The loop of [drain]: the position is advanced before the callback runs. *)
Fixpoint drain_loop {S} (n : nat) (s : Shared) (position : Z) (f : callback S T) (st : S)
    : outcome (bool * Z * S) :=
  match n with
  | O => OK (false, position, st)
  | Datatypes.S n' =>
      v ← read_slot s position;
      let '(st1, panicked) := f st v in
      if panicked then OK (true, wrapping_add position 1, st1)
      else drain_loop n' s (wrapping_add position 1) f st1
  end.

(** [Reader::drain]; [CursorCommit] stores the position on both exits. *)
Definition drain {S} (s : Shared) (rd : Reader) (max : Z) (f : callback S T) (st : S)
    : outcome (flow Z * Shared * Reader * S) :=
  if suspended rd then OK (Returned 0, s, rd, st) else
  let wv := w s in
  if r rd =? wv then OK (Returned 0, s, rd, st) else
  if cap s <? wrapping_sub wv (r rd) then
    s1 ← store_cursor s (bit rd) wv;
    OK (Returned 0, s1, mkReader (bit rd) wv false, st)
  else
    let n := Z.min (wrapping_sub wv (r rd)) max in
    '(panicked, position, st1) ← drain_loop (Z.to_nat n) s (r rd) f st;
    s1 ← store_cursor s (bit rd) position;
    OK (if panicked : bool then Unwound else Returned n, s1, mkReader (bit rd) position false, st1).

Definition is_disconnected (s : Shared) (rd : Reader) : bool := producer_gone s && (r rd =? w s).

Definition suspend (s : Shared) (rd : Reader) : Shared * Reader :=
  if suspended rd then (s, rd)
  else (store_readers s (clear_bit (readers s) (Z.of_nat (bit rd))), mkReader (bit rd) (r rd) true).

Definition resume (s : Shared) (rd : Reader) : outcome (Shared * Reader) :=
  if suspended rd then
    '(now, s1) ← activate_reader s (bit rd);
    OK (s1, mkReader (bit rd) now false)
  else OK (s, rd).

(** ** Teardown *)

Definition drop_reader (s : Shared) (rd : Reader) : Shared :=
  let s1 := store_readers s (clear_bit (readers s) (Z.of_nat (bit rd))) in
  store_owned s1 (clear_bit (owned s1) (Z.of_nat (bit rd))).

Definition drop_publisher (s : Shared) : Shared :=
  mkShared (buf s) (mask s) (cap s) (w s) (readers s) (owned s) (cursors s) true.

(** The loop of [Drop for Shared] over [n] sequences from [from]: the values
    destroyed. A destroyed cell owns nothing any more. *)
Fixpoint drop_slots (s : Shared) (from : Z) (n : nat) : outcome (list T) :=
  match n with
  | O => OK []
  | S n' =>
      v ← read_slot s from;
      rest ← drop_slots (set_buf s (<[Z.to_nat (Z.land from (mask s)) := None]> (buf s))) (from + 1) n';
      OK (v :: rest)
  end.

Definition shared_drop (s : Shared) : outcome (list T) :=
  let live := Z.min (w s) (cap s) in
  drop_slots s (w s - live) (Z.to_nat live).
End code.
Arguments Shared T : clear implicits.
Arguments batch_end T : clear implicits.

(** ** Client traces *)

(** The live handles: the publisher, and one entry per reader ever created,
    [None] once it is dropped. [destroyed] lists the values whose destructor has
    run because the ring overwrote them. *)
Record World (T : Type) := mkWorld {
  sh : Shared T;
  pub : option Publisher;
  rds : list (option Reader);
  destroyed : list T
}.
Arguments mkWorld {T} sh pub rds destroyed.
Arguments sh {T} _.
Arguments pub {T} _.
Arguments rds {T} _.
Arguments destroyed {T} _.

Inductive bop (T : Type) : Type :=
| BSend (v : T)
| BSendBatch (values : list T) (panics : bool)
| BSubscribe
| BRecv (h : nat)
| BDrain (h : nat) (max : Z) (stop : nat)
| BDisconnected (h : nat)
| BSuspend (h : nat)
| BResume (h : nat)
| BDropReader (h : nat)
| BDropPublisher.
Arguments BSend {T} v.
Arguments BSendBatch {T} values panics.
Arguments BSubscribe {T}.
Arguments BRecv {T} h.
Arguments BDrain {T} h max stop.
Arguments BDisconnected {T} h.
Arguments BSuspend {T} h.
Arguments BResume {T} h.
Arguments BDropReader {T} h.
Arguments BDropPublisher {T}.

(** What a call shows: how a send ended, the values a reader got, a flag. A call
    on a dropped handle cannot be written and shows [ONothing]. *)
Inductive bobs (T : Type) : Type :=
| ONothing
| OSent (ok : bool)
| OBatch (e : batch_end T)
| OGot (vs : list T)
| OFlag (b : bool).
Arguments ONothing {T}.
Arguments OSent {T} ok.
Arguments OBatch {T} e.
Arguments OGot {T} vs.
Arguments OFlag {T} b.

Section traces.
Context {T : Type}.
Implicit Types (x : World T).

Definition with_reader x (h : nat) (k : Reader -> outcome (bobs T * Shared T * option Reader))
    : outcome (bobs T * World T) :=
  match rds x !! h with
  | Some (Some rd) =>
      '(o, s, rd') ← k rd;
      OK (o, mkWorld s (pub x) (<[h := rd']> (rds x)) (destroyed x))
  | _ => OK (ONothing, x)
  end.

Definition bstep x (op : bop T) : outcome (bobs T * World T) :=
  match op with
  | BSend v =>
      match pub x with
      | None => OK (ONothing, x)
      | Some p =>
          '(res, s, p1, old) ← try_send (sh x) p v;
          OK (OSent (match res with Ok _ => true | Err _ => false end),
              mkWorld s (Some p1) (rds x) (destroyed x ++ option_list old))
      end
  | BSendBatch values panics =>
      match pub x with
      | None => OK (ONothing, x)
      | Some p =>
          '(e, s, p1, old) ← send_batch values panics (sh x) p;
          OK (OBatch e, mkWorld s (Some p1) (rds x) (destroyed x ++ old))
      end
  | BSubscribe =>
      '(o, s) ← subscribe (sh x);
      match o with
      | None => OK (OFlag false, mkWorld s (pub x) (rds x) (destroyed x))
      | Some rd => OK (OFlag true, mkWorld s (pub x) (rds x ++ [Some rd]) (destroyed x))
      end
  | BRecv h => with_reader x h (fun rd =>
      '(o, s, rd') ← try_recv (sh x) rd; OK (OGot (option_list o), s, Some rd'))
  | BDrain h max stop => with_reader x h (fun rd =>
      '(_, s, rd', log) ← drain (sh x) rd max (logger stop) []; OK (OGot log, s, Some rd'))
  | BDisconnected h => with_reader x h (fun rd =>
      OK (OFlag (is_disconnected (sh x) rd), sh x, Some rd))
  | BSuspend h => with_reader x h (fun rd =>
      let '(s, rd') := suspend (sh x) rd in OK (ONothing, s, Some rd'))
  | BResume h => with_reader x h (fun rd =>
      '(s, rd') ← resume (sh x) rd; OK (ONothing, s, Some rd'))
  | BDropReader h => with_reader x h (fun rd => OK (ONothing, drop_reader (sh x) rd, None))
  | BDropPublisher =>
      match pub x with
      | None => OK (ONothing, x)
      | Some _ => OK (ONothing, mkWorld (drop_publisher (sh x)) None (rds x) (destroyed x))
      end
  end.

Fixpoint brun x (ops : list (bop T)) : outcome (list (bobs T) * World T) :=
  match ops with
  | [] => OK ([], x)
  | op :: ops' =>
      '(o, x1) ← bstep x op;
      '(os, x2) ← brun x1 ops';
      OK (o :: os, x2)
  end.

Definition bopen (size_T capacity : Z) (max_readers : nat) : outcome (World T) :=
  '(s, p, rd) ← open size_T capacity max_readers;
  OK (mkWorld s (Some p) [Some rd] []).
End traces.

(** ** The abstract specification

    A log, and for each reader whether it is active and its position in the log;
    [None] once it is dropped. *)
Record Log (T : Type) := mkLog {
  entries : list T;
  publishing : bool;
  positions : list (option (bool * nat))
}.
Arguments mkLog {T} entries publishing positions.
Arguments entries {T} _.
Arguments publishing {T} _.
Arguments positions {T} _.

Section spec.
Context {T : Type} (capacity max_readers : nat).
Implicit Types (a : Log T).

Definition live_count (ps : list (option (bool * nat))) : nat := length (filter is_Some ps).

(** Some active reader is [capacity] values behind. *)
Definition lagging (len : nat) (op : option (bool * nat)) : bool :=
  match op with Some (true, p) => bool_decide (p + capacity <= len)%nat | _ => false end.
Definition full a : bool := existsb (lagging (length (entries a))) (positions a).

Definition append a (v : T) : Log T := mkLog (entries a ++ [v]) (publishing a) (positions a).

Fixpoint append_all a (values : list T) (panics : bool) : batch_end T * Log T :=
  match values with
  | [] => (if panics then BatchUnwound else BatchDone, a)
  | v :: values' => if full a then (BatchWaiting values, a) else append_all (append a v) values' panics
  end.

Definition on_reader a (h : nat) (k : bool -> nat -> bobs T * option (bool * nat)) : bobs T * Log T :=
  match positions a !! h with
  | Some (Some (active, p)) =>
      let '(o, pos') := k active p in
      (o, mkLog (entries a) (publishing a) (<[h := pos']> (positions a)))
  | _ => (ONothing, a)
  end.

(** An active reader takes up to [n] entries. *)
Definition advance a (n : nat) (active : bool) (p : nat) : bobs T * option (bool * nat) :=
  if active then
    let got := take n (drop p (entries a)) in (OGot got, Some (true, (p + length got)%nat))
  else (OGot [], Some (false, p)).

Definition astep a (op : bop T) : bobs T * Log T :=
  match op with
  | BSend v =>
      if publishing a then
        if full a then (OSent false, a) else (OSent true, append a v)
      else (ONothing, a)
  | BSendBatch values panics =>
      if publishing a then let '(e, a') := append_all a values panics in (OBatch e, a')
      else (ONothing, a)
  | BSubscribe =>
      if bool_decide (live_count (positions a) < max_readers)%nat
      then (OFlag true, mkLog (entries a) (publishing a) (positions a ++ [Some (true, length (entries a))]))
      else (OFlag false, a)
  | BRecv h => on_reader a h (advance a 1)
  | BDrain h max stop => on_reader a h (advance a (Nat.min (Z.to_nat max) (S stop)))
  | BDisconnected h => on_reader a h (fun active p =>
      (OFlag (negb (publishing a) && ((Z.of_nat (length (entries a)) - Z.of_nat p) mod USIZE =? 0)),
       Some (active, p)))
  | BSuspend h => on_reader a h (fun _ p => (ONothing, Some (false, p)))
  | BResume h => on_reader a h (fun active p =>
      (ONothing, Some (true, if active then p else length (entries a))))
  | BDropReader h => on_reader a h (fun _ _ => (ONothing, None))
  | BDropPublisher => (ONothing, mkLog (entries a) false (positions a))
  end.

Fixpoint arun a (ops : list (bop T)) : list (bobs T) * Log T :=
  match ops with
  | [] => ([], a)
  | op :: ops' =>
      let '(o, a1) := astep a op in
      let '(os, a2) := arun a1 ops' in
      (o :: os, a2)
  end.
End spec.

(** ** Invariant *)

Lemma has_bit_spec bits i : has_bit bits i = Z.testbit bits (Z.of_nat i).
Proof.
  unfold has_bit. destruct (Z.eqb_spec (Z.land bits (Z.shiftl 1 (Z.of_nat i))) 0) as [He|Hne]; simpl.
  - apply (f_equal (fun x => Z.testbit x (Z.of_nat i))) in He.
    rewrite Z.land_spec, one_bit, Z.eqb_refl, andb_true_r, Z.bits_0 in He by lia. done.
  - destruct (Z.testbit bits (Z.of_nat i)) eqn:Hb; [done|]. exfalso. apply Hne. apply Z.bits_inj'.
    intros j Hj. rewrite Z.land_spec, one_bit, Z.bits_0 by lia.
    destruct (Z.eqb_spec (Z.of_nat i) j) as [<-|]; [by rewrite Hb|apply andb_false_r].
Qed.

Lemma find_free_some bits i n j :
  find_free bits i n = Some j -> (i <= j < i + n)%nat /\ Z.testbit bits (Z.of_nat j) = false.
Proof.
  revert i. induction n as [|n IH]; intros i; [done|]. cbn [find_free]. rewrite has_bit_spec.
  destruct (Z.testbit bits (Z.of_nat i)) eqn:Hb.
  - intros Hf. destruct (IH _ Hf). split; [lia|done].
  - intros [= <-]. split; [lia|done].
Qed.

Lemma find_free_none bits i n j :
  find_free bits i n = None -> (i <= j < i + n)%nat -> Z.testbit bits (Z.of_nat j) = true.
Proof.
  revert i. induction n as [|n IH]; intros i; [lia|]. cbn [find_free]. rewrite has_bit_spec.
  destruct (Z.testbit bits (Z.of_nat i)) eqn:Hb; [|done]. intros Hf Hj.
  destruct (decide (i = j)) as [->|]; [done|]. apply (IH (S i)); [done|lia].
Qed.

Section refinement.
Context {T : Type} (k : Z) (Hk : 0 <= k < 64) (max_readers : nat).
Local Abbreviation C := (2 ^ k).
Implicit Types (s : Shared T) (log : list T).

(** The ring holds the last [C] written values; the cursor words agree with the
    unbounded counters they stand for. *)
Record shared_ok s log : Prop := {
  so_cap : cap s = C;
  so_mask : mask s = C - 1;
  so_buf : length (buf s) = Z.to_nat C;
  so_cursors : length (cursors s) = max_readers;
  so_slots : forall j v, Z.of_nat (length log) - C <= Z.of_nat j -> log !! j = Some v ->
    buf s !! Z.to_nat (Z.of_nat j mod C) = Some (Some v)
}.

(** A live reader against its abstract position: [m] bounds the active ones. *)
Definition handle_ok s (m L : Z) (rd : Reader) (ap : bool * nat) : Prop :=
  let '(active, p) := ap in
  suspended rd = negb active /\ r rd = Z.of_nat p mod USIZE /\ (bit rd < max_readers)%nat /\
  Z.testbit (owned s) (Z.of_nat (bit rd)) = true /\ Z.testbit (readers s) (Z.of_nat (bit rd)) = active /\
  Z.of_nat p <= L /\ (active = true -> cursors s !! bit rd = Some (r rd) /\ m <= Z.of_nat p).

Record members_ok s (m L : Z) (rs : list (option Reader)) (ps : list (option (bool * nat))) : Prop := {
  mo_handle : Forall2 (option_Forall2 (handle_ok s m L)) rs ps;
  mo_inj : forall h h' rd rd', rs !! h = Some (Some rd) -> rs !! h' = Some (Some rd') ->
    bit rd = bit rd' -> h = h';
  mo_readers : forall i : nat, Z.testbit (readers s) (Z.of_nat i) = true ->
    exists h rd, rs !! h = Some (Some rd) /\ bit rd = i;
  mo_owned : forall i : nat, Z.testbit (owned s) (Z.of_nat i) = true ->
    exists h rd, rs !! h = Some (Some rd) /\ bit rd = i
}.

Definition world_ok (x : World T) (a : Log T) (m : Z) : Prop :=
  let L := Z.of_nat (length (entries a)) in
  shared_ok (sh x) (entries a) /\ w (sh x) = L mod USIZE /\ m <= L <= m + C /\
  members_ok (sh x) m L (rds x) (positions a) /\
  producer_gone (sh x) = negb (publishing a) /\
  match pub x with
  | Some p => publishing a = true /\ pub_w p = L mod USIZE /\ min_cache p = m mod USIZE
  | None => publishing a = false
  end.

Lemma C_bounds : 0 < C < USIZE.
Proof. split; [apply pow2_pos; lia|]. change USIZE with (2 ^ 64). apply Z.pow_lt_mono_r; lia. Qed.

Lemma slot_index (j : Z) : Z.land (j mod USIZE) (C - 1) = j mod C.
Proof. rewrite land_mask, mod_usize_pow2 by lia. done. Qed.

(** ** The slot accesses *)

Lemma read_slot_spec s log j v :
  shared_ok s log -> Z.of_nat (length log) - C <= Z.of_nat j -> log !! j = Some v ->
  read_slot s (Z.of_nat j mod USIZE) = OK v.
Proof.
  intros Hs Hj Hv. unfold read_slot. rewrite (so_mask _ _ Hs), slot_index, (so_slots _ _ Hs j v Hj Hv).
  done.
Qed.

Lemma write_slot_spec s log v :
  shared_ok s log ->
  exists old b, write_slot s (Z.of_nat (length log) mod USIZE) v = OK (old, set_buf s b) /\
    shared_ok (set_buf s b) (log ++ [v]) /\
    (Z.of_nat (length log) < USIZE ->
     option_list old = if C <=? Z.of_nat (length log) then take 1 (drop (length log - Z.to_nat C) log) else []).
Proof.
  intros Hs. pose proof C_bounds as HC. set (L := Z.of_nat (length log)).
  assert (0 <= L mod C < C) as HLm by (apply Z.mod_pos_bound; lia).
  unfold write_slot. rewrite (so_mask _ _ Hs), (so_cap _ _ Hs), slot_index.
  destruct (lookup_lt_is_Some_2 (buf s) (Z.to_nat (L mod C))) as [c Hc];
    [rewrite (so_buf _ _ Hs); lia|]. rewrite Hc.
  assert (C <= L -> exists x, c = Some x /\ log !! (length log - Z.to_nat C)%nat = Some x) as Hold.
  { intros HCL. destruct (lookup_lt_is_Some_2 log (length log - Z.to_nat C)) as [x Hx]; [lia|].
    exists x. split; [|done]. pose proof (so_slots _ _ Hs (length log - Z.to_nat C) x ltac:(lia) Hx) as Hb.
    replace (Z.of_nat (length log - Z.to_nat C) mod C) with (L mod C) in Hb; [congruence|].
    replace (Z.of_nat (length log - Z.to_nat C)) with (L + -1 * C) by lia. by rewrite Z.mod_add by lia. }
  pose proof (Z.mod_le L USIZE ltac:(lia) ltac:(lia)) as Hmle.
  assert (shared_ok (set_buf s (<[Z.to_nat (L mod C) := Some v]> (buf s))) (log ++ [v])) as Hs'.
  { destruct Hs as [H1 H2 H3 H4 H5]. split; simpl; [done|done|by rewrite length_insert|done|].
    intros j y Hj Hy. rewrite length_app in Hj. simpl in Hj.
    apply lookup_snoc_Some in Hy as [[Hlt Hy]|[-> <-]].
    - rewrite list_lookup_insert_ne; [apply H5; [lia|done]|].
      intros Heq. assert (L mod C = Z.of_nat j mod C) as Hm.
      { pose proof (Z.mod_pos_bound (Z.of_nat j) C ltac:(lia)). lia. }
      apply mod_inj in Hm; lia.
    - rewrite list_lookup_insert_eq; [done|]. lia. }
  destruct (Z.leb_spec C (L mod USIZE)) as [Hge|Hlt].
  - destruct (Hold ltac:(lia)) as (x & -> & Hx). simpl. eexists _, _. split; [done|]. split; [done|].
    intros HL. destruct (Z.leb_spec C L); [|lia]. simpl. by erewrite drop_S by done.
  - simpl. eexists _, _. split; [done|]. split; [done|].
    intros HL. rewrite Z.mod_small in Hlt by lia. destruct (Z.leb_spec C L); [lia|]. done.
Qed.

(** ** The gate *)

(** The scan ends at a position no active cursor is behind: the initial one, or
    an active one. *)
Lemma slowest_loop_spec (bits L : Z) (cs : list Z) (i : nat) (g : Z) (P : Z -> Prop) :
  L - C <= g <= L ->
  (forall j c, cs !! j = Some c -> Z.testbit bits (Z.of_nat (i + j)) = true ->
     exists p, c = p mod USIZE /\ L - C <= p <= L /\ P p) ->
  exists M, slowest_loop bits (L mod USIZE) cs i (g mod USIZE) (L - g) = M mod USIZE /\
    L - C <= M <= g /\ (M = g \/ P M) /\
    forall j p, cs !! j = Some (p mod USIZE) -> Z.testbit bits (Z.of_nat (i + j)) = true ->
      L - C <= p <= L -> M <= p.
Proof.
  pose proof C_bounds as HC. revert i g. induction cs as [|c cs IH]; intros i g Hg Hcs.
  - exists g. splits.
  - assert (forall j c', cs !! j = Some c' -> Z.testbit bits (Z.of_nat (S i + j)) = true ->
      exists p, c' = p mod USIZE /\ L - C <= p <= L /\ P p) as Htl.
    { intros j c' Hj Hb. apply (Hcs (S j) c' Hj). by rewrite Nat.add_succ_r. }
    cbn [slowest_loop]. rewrite has_bit_spec. destruct (Z.testbit bits (Z.of_nat i)) eqn:Hb.
    + destruct (Hcs 0%nat c eq_refl) as (p & -> & Hp & HP); [by rewrite Nat.add_0_r|].
      rewrite wrapping_sub_cursor by lia.
      assert (forall M j q, M <= p ->
        (forall j q, cs !! j = Some (q mod USIZE) -> Z.testbit bits (Z.of_nat (S i + j)) = true ->
           L - C <= q <= L -> M <= q) ->
        (p mod USIZE :: cs) !! j = Some (q mod USIZE) -> Z.testbit bits (Z.of_nat (i + j)) = true ->
        L - C <= q <= L -> M <= q) as Hext.
      { intros M [|j] q HMp Hall Hj Hbj Hq.
        - simpl in Hj. injection Hj as Hj. assert (p = q) as <-; [|done].
          change USIZE with (2 ^ 64) in Hj.
          apply (mod_inj (2 ^ 64)); [done|change (2 ^ 64) with USIZE; lia|done].
        - apply (Hall j q Hj); [|done]. by rewrite Nat.add_succ_r in Hbj. }
      destruct (Z.ltb_spec (L - g) (L - p)).
      * destruct (IH (S i) p Hp Htl) as (M & He & HM & HMg & Hall). exists M. splits.
        -- destruct HMg as [->|]; auto.
        -- intros j q. apply Hext; [lia|done].
      * destruct (IH (S i) g Hg Htl) as (M & He & HM & HMg & Hall). exists M. splits.
        intros j q. apply Hext; [lia|done].
    + destruct (IH (S i) g Hg Htl) as (M & He & HM & HMg & Hall). exists M. splits.
      intros [|j] q Hj Hbj Hq; [by rewrite Nat.add_0_r, Hb in Hbj|].
      apply (Hall j q Hj); [|done]. by rewrite Nat.add_succ_r in Hbj.
Qed.

Lemma members_lookup s m L rs ps h rd :
  members_ok s m L rs ps -> rs !! h = Some (Some rd) ->
  exists ap, ps !! h = Some (Some ap) /\ handle_ok s m L rd ap.
Proof.
  intros Hm Hh. destruct (Forall2_lookup_l _ _ _ _ _ (mo_handle _ _ _ _ _ Hm) Hh) as (o & Ho & Hx).
  inversion Hx as [? ap Hap|]; subst. by exists ap.
Qed.

Lemma members_lookup_r s m L rs ps h ap :
  members_ok s m L rs ps -> ps !! h = Some (Some ap) ->
  exists rd, rs !! h = Some (Some rd) /\ handle_ok s m L rd ap.
Proof.
  intros Hm Hh. destruct (Forall2_lookup_r _ _ _ _ _ (mo_handle _ _ _ _ _ Hm) Hh) as (o & Ho & Hx).
  inversion Hx as [rd ? Hap|]; subst. by exists rd.
Qed.

Lemma members_mono s m m' L L' rs ps :
  members_ok s m L rs ps -> L <= L' ->
  (forall h p, ps !! h = Some (Some (true, p)) -> m' <= Z.of_nat p) ->
  members_ok s m' L' rs ps.
Proof.
  intros Hm HL Hp. pose proof Hm as [H1 H2 H3 H4]. split; [|done..].
  apply Forall2_same_length_lookup_2; [by eapply Forall2_length|].
  intros h o o' Ho Ho'. destruct (Forall2_lookup_lr _ _ _ _ _ _ H1 Ho Ho') as [rd [active p] Hx|]; [|constructor].
  constructor. destruct Hx as (? & ? & ? & ? & ? & ? & Ha). unfold handle_ok. splits.
  intros ->. destruct (Ha eq_refl) as [? _]. split; [done|]. by apply (Hp h p).
Qed.

(** Refreshing the cached minimum is exact: afterwards the ring looks full
    precisely when some active reader is [C] behind. *)
Lemma slowest_spec s m L rs ps :
  members_ok s m (Z.of_nat L) rs ps -> m <= Z.of_nat L <= m + C ->
  exists M, slowest s (Z.of_nat L mod USIZE) = M mod USIZE /\ M <= Z.of_nat L <= M + C /\
    members_ok s M (Z.of_nat L) rs ps /\
    (C <=? Z.of_nat L - M) = existsb (lagging (Z.to_nat C) L) ps.
Proof.
  intros Hm HL. pose proof C_bounds as HC.
  destruct (slowest_loop_spec (readers s) (Z.of_nat L) (cursors s) 0 (Z.of_nat L)
    (fun p => exists h q, ps !! h = Some (Some (true, q)) /\ p = Z.of_nat q)) as (M & He & HM & Hor & Hall); [lia| |].
  - intros j c Hc Hb. rewrite Nat.add_0_l in Hb. destruct (mo_readers _ _ _ _ _ Hm j Hb) as (h & rd & Hh & Hbit).
    destruct (members_lookup _ _ _ _ _ _ _ Hm Hh) as ([active p] & Hp & Hx).
    destruct Hx as (_ & Hr & _ & _ & Hact & HpL & Ha). rewrite Hbit in *. rewrite Hb in Hact. subst active.
    destruct (Ha eq_refl) as [Hcur Hmp]. exists (Z.of_nat p). rewrite Hcur in Hc. injection Hc as <-.
    splits. by exists h, p.
  - rewrite Z.sub_diag in He. exists M. split; [exact He|]. split; [lia|].
    assert (forall h p, ps !! h = Some (Some (true, p)) -> M <= Z.of_nat p) as Hlow.
    { intros h p Hp. destruct (members_lookup_r _ _ _ _ _ _ _ Hm Hp) as (rd & Hh & Hx).
      destruct Hx as (_ & Hr & _ & _ & Hact & HpL & Ha). destruct (Ha eq_refl) as [Hcur Hmp].
      apply (Hall (bit rd)); [by rewrite <- Hr|done|lia]. }
    split; [by apply (members_mono s m M (Z.of_nat L))|]. apply eq_true_iff_eq.
    rewrite Z.leb_le, existsb_exists. split.
    + intros Hfull. destruct Hor as [->|(h & q & Hq & ->)]; [lia|]. exists (Some (true, q)).
      split; [by apply list_elem_of_In, (list_elem_of_lookup_2 _ h)|]. simpl. apply bool_decide_eq_true_2. lia.
    + intros (o & Hin & Hlag). apply list_elem_of_In, list_elem_of_lookup_1 in Hin as [h Hh].
      destruct o as [[[|] p]|]; try done. simpl in Hlag. apply bool_decide_eq_true_1 in Hlag.
      specialize (Hlow h p Hh). lia.
Qed.

(** One handle changes; the other readers' bits and cursors do not. *)
Lemma members_replace s s' m L rs ps h rd (new : option (Reader * (bool * nat))) :
  members_ok s m L rs ps -> rs !! h = Some (Some rd) ->
  (forall i : nat, i <> bit rd ->
     Z.testbit (readers s') (Z.of_nat i) = Z.testbit (readers s) (Z.of_nat i) /\
     Z.testbit (owned s') (Z.of_nat i) = Z.testbit (owned s) (Z.of_nat i) /\
     cursors s' !! i = cursors s !! i) ->
  match new with
  | None => Z.testbit (readers s') (Z.of_nat (bit rd)) = false /\ Z.testbit (owned s') (Z.of_nat (bit rd)) = false
  | Some (rd', ap) => handle_ok s' m L rd' ap /\ bit rd' = bit rd
  end ->
  members_ok s' m L (<[h := fst <$> new]> rs) (<[h := snd <$> new]> ps).
Proof.
  intros Hm Hh Hoth Hnew. pose proof Hm as [H1 H2 H3 H4].
  assert (forall i : nat, i = bit rd -> Z.testbit (readers s') (Z.of_nat i) = true \/ Z.testbit (owned s') (Z.of_nat i) = true ->
    exists h' rd', <[h := fst <$> new]> rs !! h' = Some (Some rd') /\ bit rd' = i) as Hself.
  { intros i -> Hb. destruct new as [[rd' ap]|]; [|destruct Hnew as [E1 E2]; rewrite E1, E2 in Hb; by destruct Hb].
    exists h, rd'. split; [|apply Hnew]. apply list_lookup_insert_eq. by eapply lookup_lt_Some. }
  assert (forall i : nat, i <> bit rd -> (exists h' rd', rs !! h' = Some (Some rd') /\ bit rd' = i) ->
    exists h' rd', <[h := fst <$> new]> rs !! h' = Some (Some rd') /\ bit rd' = i) as Hkeep.
  { intros i Hi (h' & rd' & Hl & <-). exists h', rd'. split; [|done].
    rewrite list_lookup_insert_ne; [done|]. intros ->. congruence. }
  split.
  - apply Forall2_same_length_lookup_2; [rewrite !length_insert; by eapply Forall2_length|].
    intros h' o o' Ho Ho'. destruct (decide (h = h')) as [<-|Hne].
    + assert (h < length rs)%nat as Hlt by (by eapply lookup_lt_Some).
      rewrite list_lookup_insert_eq in Ho by done.
      rewrite list_lookup_insert_eq in Ho' by (by rewrite <- (Forall2_length _ _ _ H1)).
      injection Ho as <-. injection Ho' as <-. destruct new as [[rd' ap]|]; constructor. apply Hnew.
    + rewrite list_lookup_insert_ne in Ho by done. rewrite list_lookup_insert_ne in Ho' by done.
      destruct (Forall2_lookup_lr _ _ _ _ _ _ H1 Ho Ho') as [rd' [active p] Hx|]; constructor.
      assert (bit rd' <> bit rd) as Hb by (intros Hb; apply Hne; by eapply H2).
      destruct (Hoth _ Hb) as (E1 & E2 & E3). unfold handle_ok in *. by rewrite E1, E2, E3.
  - assert (forall h' rd', <[h := fst <$> new]> rs !! h' = Some (Some rd') ->
      exists rd0, rs !! h' = Some (Some rd0) /\ bit rd0 = bit rd') as Hback.
    { intros h' rd' Hl. updated Hl; [|by exists rd']. destruct new as [[rd0 ap]|]; simplify_eq/=.
      exists rd. split; [done|]. symmetry. apply Hnew. }
    intros h1 h2 rd1 rd2 Hl1 Hl2 Hb. destruct (Hback _ _ Hl1) as (a1 & ? & ?).
    destruct (Hback _ _ Hl2) as (a2 & ? & ?). apply (H2 h1 h2 a1 a2); congruence.
  - intros i Hi. destruct (decide (i = bit rd)) as [->|Hne]; [apply Hself; auto|].
    apply Hkeep; [done|]. apply H3. by rewrite <- (proj1 (Hoth i Hne)).
  - intros i Hi. destruct (decide (i = bit rd)) as [->|Hne]; [apply Hself; auto|].
    apply Hkeep; [done|]. apply H4. by rewrite <- (proj1 (proj2 (Hoth i Hne))).
Qed.

(** ** Publishing *)

Record pub_ok s (p : Publisher) log (m : Z) rs ps : Prop := {
  pk_shared : shared_ok s log;
  pk_members : members_ok s m (Z.of_nat (length log)) rs ps;
  pk_min : m <= Z.of_nat (length log) <= m + C;
  pk_w : pub_w p = Z.of_nat (length log) mod USIZE;
  pk_cache : min_cache p = m mod USIZE
}.

(** The destroyed values are the written ones that the ring no longer holds. *)
Definition overwritten log : list T := take (length log - Z.to_nat C) log.

Lemma gated_spec s p log m rs ps :
  pub_ok s p log m rs ps -> gated s p = (C <=? Z.of_nat (length log) - m).
Proof.
  intros [Hs _ Hm Hw Hc]. pose proof C_bounds. unfold gated.
  rewrite Hw, Hc, (so_cap _ _ Hs), wrapping_sub_cursor by lia. done.
Qed.

Lemma gate_open s p log m rs ps :
  pub_ok s p log m rs ps -> gated s p = false ->
  existsb (lagging (Z.to_nat C) (length log)) ps = false.
Proof.
  intros Hp Hg. rewrite (gated_spec _ _ _ _ _ _ Hp) in Hg. apply Z.leb_gt in Hg. pose proof C_bounds.
  destruct (existsb _ ps) eqn:E; [|done]. apply existsb_exists in E as (o & Hin & Hlag).
  apply list_elem_of_In, list_elem_of_lookup_1 in Hin as [h Hh]. destruct o as [[[|] q]|]; try done.
  simpl in Hlag. apply bool_decide_eq_true_1 in Hlag.
  destruct (members_lookup_r _ _ _ _ _ _ _ (pk_members _ _ _ _ _ _ Hp) Hh) as (rd & _ & Hx).
  destruct Hx as (_ & _ & _ & _ & _ & _ & Ha). destruct (Ha eq_refl). lia.
Qed.

Lemma refresh_ok s p log m rs ps :
  pub_ok s p log m rs ps ->
  exists M, pub_ok s (refresh_slowest s p) log M rs ps /\
    gated s (refresh_slowest s p) = existsb (lagging (Z.to_nat C) (length log)) ps.
Proof.
  intros Hp. pose proof Hp as [Hs Hm HL Hw Hc].
  destruct (slowest_spec s m (length log) rs ps Hm HL) as (M & He & HM & Hm' & Hfull). exists M.
  assert (pub_ok s (refresh_slowest s p) log M rs ps) as Hp'.
  { split; try done. unfold refresh_slowest. simpl. by rewrite Hw. }
  split; [done|]. by rewrite (gated_spec _ _ _ _ _ _ Hp'), Hfull.
Qed.

(** The gate as the code runs it: at most one refresh, and an exact answer. *)
Lemma gate_spec s p log m rs ps :
  pub_ok s p log m rs ps ->
  let p1 := if gated s p then refresh_slowest s p else p in
  exists M, pub_ok s p1 log M rs ps /\
    gated s p1 = existsb (lagging (Z.to_nat C) (length log)) ps /\ (gated s p && gated s p1) = gated s p1.
Proof.
  intros Hp p1. subst p1. destruct (gated s p) eqn:Hg.
  - destruct (refresh_ok _ _ _ _ _ _ Hp) as (M & ? & ?). by exists M.
  - exists m. rewrite Hg. by rewrite (gate_open _ _ _ _ _ _ Hp Hg).
Qed.

Lemma overwritten_snoc log v (old : list T) :
  old = (if C <=? Z.of_nat (length log) then take 1 (drop (length log - Z.to_nat C) log) else []) ->
  overwritten log ++ old = overwritten (log ++ [v]).
Proof.
  pose proof C_bounds. intros ->. unfold overwritten. rewrite length_app. simpl.
  destruct (Z.leb_spec C (Z.of_nat (length log))).
  - rewrite take_take_drop. rewrite take_app_le by lia. f_equal. lia.
  - replace (length log - Z.to_nat C)%nat with 0%nat by lia.
    by replace (length log + 1 - Z.to_nat C)%nat with 0%nat by lia.
Qed.

Lemma write_ok s p log m rs ps v :
  pub_ok s p log m rs ps -> gated s p = false ->
  exists old b, write_slot s (pub_w p) v = OK (old, set_buf s b) /\
    pub_ok (set_buf s b) (mkPublisher (wrapping_add (pub_w p) 1) (min_cache p)) (log ++ [v]) m rs ps /\
    (Z.of_nat (length log) < USIZE -> overwritten log ++ option_list old = overwritten (log ++ [v])).
Proof.
  intros Hp Hg. pose proof Hp as [Hs Hm HL Hw Hc]. rewrite (gated_spec _ _ _ _ _ _ Hp) in Hg.
  apply Z.leb_gt in Hg. destruct (write_slot_spec s log v Hs) as (old & b & He & Hs' & Hold).
  exists old, b. rewrite Hw. split; [done|]. split; [|intros HU; by apply overwritten_snoc, Hold].
  assert (Z.of_nat (length (log ++ [v])) = Z.of_nat (length log) + 1) as Hlen
    by (rewrite length_app; simpl; lia).
  split; simpl; [done| |lia|by rewrite Hlen, wrapping_add_cursor|done]. rewrite Hlen.
  assert (members_ok s m (Z.of_nat (length log) + 1) rs ps) as Hm'.
  { apply (members_mono s m m (Z.of_nat (length log))); [done|lia|]. intros h q Hq.
    destruct (members_lookup_r _ _ _ _ _ _ _ Hm Hq) as (rd & _ & Hx).
    destruct Hx as (_ & _ & _ & _ & _ & _ & Ha). by destruct (Ha eq_refl). }
  by destruct Hm'.
Qed.

Lemma pub_ok_store_w s p log m rs ps x :
  pub_ok s p log m rs ps -> pub_ok (store_w s x) p log m rs ps.
Proof. intros [[] [] ? ? ?]. split; [by split|by split|done..]. Qed.

Lemma send_batch_loop_spec values panics s p dirty dropped log m rs ps g :
  pub_ok s p log m rs ps -> (dirty = false -> w s = Z.of_nat (length log) mod USIZE) ->
  exists e s' p' old m' log',
    send_batch_loop values panics s p dirty dropped = OK (e, s', p', dropped ++ old) /\
    append_all (Z.to_nat C) (mkLog log g ps) values panics = (e, mkLog log' g ps) /\
    pub_ok s' p' log' m' rs ps /\ w s' = Z.of_nat (length log') mod USIZE /\
    producer_gone s' = producer_gone s /\ (length log <= length log')%nat /\
    (Z.of_nat (length log') <= USIZE -> overwritten log ++ old = overwritten log').
Proof.
  revert s p dirty dropped log m.
  induction values as [|v values IH]; intros s p dirty dropped log m Hp Hw; cbn [send_batch_loop append_all].
  - exists (if panics then BatchUnwound else BatchDone), (publish s p dirty), p, [], m, log.
    rewrite app_nil_r. split; [done|]. split; [done|]. unfold publish. rewrite app_nil_r. destruct dirty.
    + split; [by apply pub_ok_store_w|]. split; [apply Hp|done].
    + split; [done|]. split; [by apply Hw|done].
  - set (c := if gated s p then (publish s p dirty, refresh_slowest (publish s p dirty) p, false) else (s, p, dirty)).
    assert (exists s1 p1 d1 M, c = (s1, p1, d1) /\ pub_ok s1 p1 log M rs ps /\
      (d1 = false -> w s1 = Z.of_nat (length log) mod USIZE) /\ producer_gone s1 = producer_gone s /\
      gated s1 p1 = full (Z.to_nat C) (mkLog log g ps) /\
      (gated s1 p1 = true -> w s1 = Z.of_nat (length log) mod USIZE)) as (s1 & p1 & d1 & M & -> & Hp1 & Hw1 & Hg1 & Hfull & Hwf).
    { unfold c. destruct (gated s p) eqn:Hg.
      - assert (pub_ok (publish s p dirty) p log m rs ps /\ w (publish s p dirty) = Z.of_nat (length log) mod USIZE /\
          producer_gone (publish s p dirty) = producer_gone s) as (Hp0 & Hw0 & Hpg).
        { unfold publish. destruct dirty; [|split; [done|split; [by apply Hw|done]]].
          split; [by apply pub_ok_store_w|]. split; [apply Hp|done]. }
        destruct (refresh_ok _ _ _ _ _ _ Hp0) as (M & ? & ?). eexists _, _, _, M. splits.
      - exists s, p, dirty, m. rewrite Hg. splits. symmetry. unfold full. simpl. by eapply gate_open. }
    rewrite Hfull in Hwf. rewrite Hfull. destruct (full (Z.to_nat C) (mkLog log g ps)) eqn:Ef.
    + exists (BatchWaiting (v :: values)), s1, p1, [], M, log. rewrite !app_nil_r. splits.
    + destruct (write_ok _ _ _ _ _ _ v Hp1 Hfull) as (old & b & -> & Hp2 & Hold). cbn [mbind outcome_bind].
      destruct (IH (set_buf s1 b) (mkPublisher (wrapping_add (pub_w p1) 1) (min_cache p1)) true
        (dropped ++ option_list old) (log ++ [v]) M Hp2) as (e & s' & p' & old' & m' & log' & He & Ha & Hp' & Hw' & Hg' & Hl' & Ho');
        [done|]. rewrite length_app in Hl'. simpl in Hl'.
      exists e, s', p', (option_list old ++ old'), m', log'. rewrite He, <- app_assoc. splits.
      * simpl in Hg'. by rewrite Hg'.
      * intros HU. rewrite app_assoc, Hold by lia. by apply Ho'.
Qed.

(** ** Readers *)

Lemma reader_lookup x a m h rd :
  world_ok x a m -> rds x !! h = Some (Some rd) ->
  exists ap, positions a !! h = Some (Some ap) /\
    handle_ok (sh x) m (Z.of_nat (length (entries a))) rd ap.
Proof. intros (_ & _ & _ & Hm & _) Hh. by eapply members_lookup. Qed.

(** The cursor comparisons of the read paths; the lapped case never happens. *)
Lemma reader_window x a m rd p :
  world_ok x a m -> handle_ok (sh x) m (Z.of_nat (length (entries a))) rd (true, p) ->
  (r rd =? w (sh x)) = bool_decide (p = length (entries a)) /\
  wrapping_sub (w (sh x)) (r rd) = Z.of_nat (length (entries a)) - Z.of_nat p /\
  (cap (sh x) <? wrapping_sub (w (sh x)) (r rd)) = false /\
  Z.of_nat (length (entries a)) - C <= Z.of_nat p <= Z.of_nat (length (entries a)).
Proof.
  intros (Hs & Hw & HL & _) (_ & Hr & _ & _ & _ & HpL & Ha). destruct (Ha eq_refl) as [_ Hmp].
  pose proof C_bounds. rewrite Hr, Hw, cursor_eqb, wrapping_sub_cursor, (so_cap _ _ Hs) by lia.
  split; [|split; [done|split; [by apply Z.ltb_ge; lia|lia]]].
  apply eq_true_iff_eq. rewrite Z.eqb_eq, bool_decide_eq_true. lia.
Qed.

(** A change of one handle that leaves the ring itself alone. *)
Lemma world_replace x a m h rd s' (new : option (Reader * (bool * nat))) :
  world_ok x a m -> rds x !! h = Some (Some rd) ->
  buf s' = buf (sh x) -> mask s' = mask (sh x) -> cap s' = cap (sh x) -> w s' = w (sh x) ->
  producer_gone s' = producer_gone (sh x) -> length (cursors s') = length (cursors (sh x)) ->
  (forall i : nat, i <> bit rd ->
     Z.testbit (readers s') (Z.of_nat i) = Z.testbit (readers (sh x)) (Z.of_nat i) /\
     Z.testbit (owned s') (Z.of_nat i) = Z.testbit (owned (sh x)) (Z.of_nat i) /\
     cursors s' !! i = cursors (sh x) !! i) ->
  match new with
  | None => Z.testbit (readers s') (Z.of_nat (bit rd)) = false /\ Z.testbit (owned s') (Z.of_nat (bit rd)) = false
  | Some (rd', ap) => handle_ok s' m (Z.of_nat (length (entries a))) rd' ap /\ bit rd' = bit rd
  end ->
  world_ok (mkWorld s' (pub x) (<[h := fst <$> new]> (rds x)) (destroyed x))
    (mkLog (entries a) (publishing a) (<[h := snd <$> new]> (positions a))) m.
Proof.
  intros (Hs & Hw & HL & Hm & Hg & Hp) Hh E1 E2 E3 E4 E5 E6 Hoth Hnew. unfold world_ok. simpl. splits.
  - destruct Hs. split; rewrite ?E1, ?E2, ?E3, ?E6; done.
  - by eapply members_replace.
  - by rewrite E5.
Qed.

Lemma store_cursor_ok x a m rd ap v :
  world_ok x a m -> handle_ok (sh x) m (Z.of_nat (length (entries a))) rd ap ->
  store_cursor (sh x) (bit rd) v =
    OK (mkShared (buf (sh x)) (mask (sh x)) (cap (sh x)) (w (sh x)) (readers (sh x)) (owned (sh x))
          (<[bit rd := v]> (cursors (sh x))) (producer_gone (sh x))).
Proof.
  intros (Hs & _) Hx. destruct ap as [active p]. destruct Hx as (_ & _ & Hb & _).
  unfold store_cursor. by rewrite decide_True by (by rewrite (so_cursors _ _ Hs)).
Qed.

Lemma move_cursor_ok x a m h rd p q :
  world_ok x a m -> rds x !! h = Some (Some rd) ->
  handle_ok (sh x) m (Z.of_nat (length (entries a))) rd (true, p) ->
  (p <= q <= length (entries a))%nat ->
  exists s', store_cursor (sh x) (bit rd) (Z.of_nat q mod USIZE) = OK s' /\
    world_ok (mkWorld s' (pub x) (<[h := Some (mkReader (bit rd) (Z.of_nat q mod USIZE) false)]> (rds x)) (destroyed x))
      (mkLog (entries a) (publishing a) (<[h := Some (true, q)]> (positions a))) m.
Proof.
  intros Hx Hh Hrd Hq. rewrite (store_cursor_ok _ _ _ _ _ _ Hx Hrd). eexists. split; [done|].
  pose proof Hrd as (_ & Hr & Hb & Ho & Hact & HpL & Ha). destruct (Ha eq_refl) as [Hc Hmp].
  apply (world_replace x a m h rd _ (Some (mkReader (bit rd) (Z.of_nat q mod USIZE) false, (true, q)))); try done; simpl.
  - by rewrite length_insert.
  - intros i Hi. by rewrite list_lookup_insert_ne.
  - split; [|done]. unfold handle_ok. simpl. splits. intros _. split; [|lia].
    apply list_lookup_insert_eq. by eapply lookup_lt_Some.
Qed.

Lemma drain_values_spec {S} n s log p (f : callback S T) st :
  shared_ok s log -> Z.of_nat (length log) - C <= Z.of_nat p -> (p + n <= length log)%nat ->
  let '(st', c, panicked) := feed f st (take n (drop p log)) in
  drain_loop n s (Z.of_nat p mod USIZE) f st = OK (panicked, Z.of_nat (p + c) mod USIZE, st').
Proof.
  intros Hs. revert p st. induction n as [|n IH]; intros p st Hp Hn.
  - rewrite take_0. simpl. by rewrite Nat.add_0_r.
  - destruct (lookup_lt_is_Some_2 log p ltac:(lia)) as [v Hv].
    rewrite (drop_S _ _ _ Hv). cbn [take feed drain_loop].
    rewrite (read_slot_spec s log p v Hs Hp Hv). cbn [mbind outcome_bind].
    assert (wrapping_add (Z.of_nat p mod USIZE) 1 = Z.of_nat (Datatypes.S p) mod USIZE) as Hadd
      by (rewrite wrapping_add_cursor; f_equal; lia).
    destruct (f st v) as [st1 [|]].
    + rewrite Hadd. by rewrite Nat.add_1_r.
    + rewrite Hadd. specialize (IH (Datatypes.S p) st1 ltac:(lia) ltac:(lia)).
      destruct (feed f st1 (take n (drop (Datatypes.S p) log))) as [[st2 c] pn]. rewrite IH. do 3 f_equal. f_equal. lia.
Qed.

(** ** Membership *)

Definition live_bits (rs : list (option Reader)) : list nat := omap (fmap bit) rs.

Lemma live_bits_elem rs b : b ∈ live_bits rs <-> exists h rd, rs !! h = Some (Some rd) /\ bit rd = b.
Proof.
  unfold live_bits. rewrite list_elem_of_omap. split.
  - intros (o & Ho & He). apply list_elem_of_lookup_1 in Ho as [h Hh].
    destruct o as [rd|]; [|done]. simplify_eq/=. by exists h, rd.
  - intros (h & rd & Hh & <-). exists (Some rd). split; [by eapply list_elem_of_lookup_2|done].
Qed.

Lemma live_bits_count s m L rs ps :
  members_ok s m L rs ps -> NoDup (live_bits rs) /\ length (live_bits rs) = live_count ps.
Proof.
  intros Hm. split.
  - pose proof (mo_inj _ _ _ _ _ Hm) as Hinj. clear Hm. induction rs as [|o rs IH]; [constructor|].
    assert (NoDup (live_bits rs)) as Hnd.
    { apply IH. intros h h' rd rd' Hh Hh' Hb. pose proof (Hinj (S h) (S h') rd rd' Hh Hh' Hb). lia. }
    destruct o as [rd|]; [|done]. unfold live_bits. simpl. constructor; [|done].
    intros Hin. apply live_bits_elem in Hin as (h & rd' & Hh & Hb).
    pose proof (Hinj 0%nat (S h) rd rd' eq_refl Hh ltac:(done)). lia.
  - destruct Hm as [Hf _ _ _]. unfold live_count, live_bits.
    induction Hf as [|o ap rs ps Hx Hf IH]; [done|]. inversion Hx; subst.
    + rewrite filter_cons_True by (by eexists). change (S (length (omap (fmap bit) rs)) = S (length (filter is_Some ps))). by f_equal.
    + rewrite filter_cons_False by apply is_Some_None. done.
Qed.

(** A free ownership bit exists exactly while fewer than [max_readers] readers
    are alive. *)
Lemma find_free_live s m L rs ps :
  members_ok s m L rs ps ->
  match find_free (owned s) 0 max_readers with
  | Some b => (b < max_readers)%nat /\ Z.testbit (owned s) (Z.of_nat b) = false /\
      (live_count ps < max_readers)%nat
  | None => (max_readers <= live_count ps)%nat
  end.
Proof.
  intros Hm. destruct (live_bits_count _ _ _ _ _ Hm) as [Hnd Hlen].
  assert (forall b, b ∈ live_bits rs -> (b < max_readers)%nat /\ Z.testbit (owned s) (Z.of_nat b) = true) as Hin.
  { intros b Hb. apply live_bits_elem in Hb as (h & rd & Hh & <-).
    destruct (members_lookup _ _ _ _ _ _ _ Hm Hh) as ([active p] & _ & Hx).
    destruct Hx as (_ & _ & ? & ? & _). done. }
  destruct (find_free (owned s) 0 max_readers) as [b|] eqn:E.
  - destruct (find_free_some _ _ _ _ E) as [Hb Hbit]. splits. rewrite <- Hlen.
    assert (length (b :: live_bits rs) <= length (seq 0 max_readers))%nat as Hle.
    { apply submseteq_length, NoDup_submseteq.
      - constructor; [|done]. intros Hc. apply Hin in Hc as [_ Hc]. congruence.
      - intros j Hj. apply elem_of_seq. apply elem_of_cons in Hj as [->|Hj]; [lia|].
        apply Hin in Hj as [Hj _]. lia. }
    rewrite length_seq in Hle. simpl in Hle. lia.
  - rewrite <- Hlen. rewrite <- (length_seq max_readers 0) at 1. apply submseteq_length, NoDup_submseteq.
    + apply NoDup_seq.
    + intros j Hj. apply elem_of_seq in Hj. apply live_bits_elem.
      apply (mo_owned _ _ _ _ _ Hm). apply (find_free_none _ _ _ _ E). lia.
Qed.

(** A new reader enters at the current end of the log. *)
Lemma members_join s s' m (L : nat) rs ps b :
  members_ok s m (Z.of_nat L) rs ps -> m <= Z.of_nat L -> (b < max_readers)%nat ->
  Z.testbit (owned s) (Z.of_nat b) = false ->
  readers s' = set_bit (readers s) (Z.of_nat b) -> owned s' = set_bit (owned s) (Z.of_nat b) ->
  cursors s' = <[b := Z.of_nat L mod USIZE]> (cursors s) -> (b < length (cursors s))%nat ->
  members_ok s' m (Z.of_nat L) (rs ++ [Some (mkReader b (Z.of_nat L mod USIZE) false)]) (ps ++ [Some (true, L)]).
Proof.
  intros Hm HmL Hb Hfree Hr Ho Hc Hlen. pose proof Hm as [H1 H2 H3 H4].
  assert (forall i, Z.testbit (readers s') (Z.of_nat i) = Z.testbit (readers s) (Z.of_nat i) || bool_decide (b = i)) as Hrb.
  { intros i. rewrite Hr, set_bit_spec by lia. f_equal. apply eq_true_iff_eq. rewrite Z.eqb_eq, bool_decide_eq_true. lia. }
  assert (forall i, Z.testbit (owned s') (Z.of_nat i) = Z.testbit (owned s) (Z.of_nat i) || bool_decide (b = i)) as Hob.
  { intros i. rewrite Ho, set_bit_spec by lia. f_equal. apply eq_true_iff_eq. rewrite Z.eqb_eq, bool_decide_eq_true. lia. }
  assert (forall h rd, rs !! h = Some (Some rd) -> bit rd <> b) as Hnew.
  { intros h rd Hh. destruct (members_lookup _ _ _ _ _ _ _ Hm Hh) as ([active p] & _ & Hx).
    destruct Hx as (_ & _ & _ & Hx & _). intros <-. congruence. }
  assert (forall i, (exists h rd, rs !! h = Some (Some rd) /\ bit rd = i) \/ b = i ->
    exists h rd, (rs ++ [Some (mkReader b (Z.of_nat L mod USIZE) false)]) !! h = Some (Some rd) /\ bit rd = i) as Hex.
  { intros i [(h & rd & Hh & Hbi)|<-].
    - exists h, rd. split; [|done]. by apply lookup_app_l_Some.
    - exists (length rs). eexists. split; [by apply list_lookup_middle|done]. }
  split.
  - apply Forall2_app; [|constructor; [|constructor]].
    + apply Forall2_same_length_lookup_2; [by eapply Forall2_length|].
      intros h o o' Hoo Hoo'. destruct (Forall2_lookup_lr _ _ _ _ _ _ H1 Hoo Hoo') as [rd [active p] Hx|]; constructor.
      pose proof (Hnew h rd Hoo) as Hne. unfold handle_ok in *. rewrite Hrb, Hob, Hc.
      rewrite list_lookup_insert_ne by done. rewrite bool_decide_eq_false_2 by done. by rewrite !orb_false_r.
    + constructor. unfold handle_ok. simpl. rewrite Hrb, Hob, bool_decide_eq_true_2, !orb_true_r, Hc by done.
      splits. intros _. split; [|done]. by apply list_lookup_insert_eq.
  - intros h h' rd rd' Hh Hh' Heq.
    apply lookup_snoc_Some in Hh as [[Hlt Hh]|[-> Hh]]; apply lookup_snoc_Some in Hh' as [[Hlt' Hh']|[-> Hh']];
      simplify_eq/=; [by eapply H2|by destruct (Hnew h rd Hh)|by destruct (Hnew h' rd' Hh')|done].
  - intros i Hi. apply Hex. rewrite Hrb in Hi. apply orb_true_iff in Hi as [Hi|Hi]; [left; by apply H3|].
    right. by apply bool_decide_eq_true in Hi.
  - intros i Hi. apply Hex. rewrite Hob in Hi. apply orb_true_iff in Hi as [Hi|Hi]; [left; by apply H4|].
    right. by apply bool_decide_eq_true in Hi.
Qed.

(** ** Every call refines its abstract counterpart *)

(** What one step must establish. *)
Definition step_ok (x : World T) (a : Log T) (x' : World T) (a' : Log T) : Prop :=
  (exists m', world_ok x' a' m') /\ (length (entries a) <= length (entries a'))%nat /\
  (Z.of_nat (length (entries a')) <= USIZE ->
   destroyed x = overwritten (entries a) -> destroyed x' = overwritten (entries a')).

Lemma reader_cases x a m h :
  world_ok x a m ->
  (exists rd ap, rds x !! h = Some (Some rd) /\ positions a !! h = Some (Some ap) /\
     handle_ok (sh x) m (Z.of_nat (length (entries a))) rd ap) \/
  ((forall f, with_reader x h f = OK (ONothing, x)) /\ (forall f, on_reader a h f = (ONothing, a))).
Proof.
  intros Hx. pose proof Hx as (_ & _ & _ & Hm & _). unfold with_reader, on_reader.
  destruct (rds x !! h) as [[rd|]|] eqn:Hh.
  - left. destruct (reader_lookup _ _ _ _ _ Hx Hh) as (ap & ? & ?). by exists rd, ap.
  - right. split; [done|]. destruct (positions a !! h) as [[ap|]|] eqn:Hp; [|done..].
    destruct (members_lookup_r _ _ _ _ _ _ _ Hm Hp) as (rd & ? & _). congruence.
  - right. split; [done|]. destruct (positions a !! h) as [[ap|]|] eqn:Hp; [|done..].
    destruct (members_lookup_r _ _ _ _ _ _ _ Hm Hp) as (rd & ? & _). congruence.
Qed.

Lemma step_ok_same x a m h o po :
  world_ok x a m -> rds x !! h = Some o -> positions a !! h = Some po ->
  step_ok x a (mkWorld (sh x) (pub x) (<[h := o]> (rds x)) (destroyed x))
    (mkLog (entries a) (publishing a) (<[h := po]> (positions a))).
Proof.
  intros Hx Ho Hp. rewrite (list_insert_id _ h) by done. rewrite (list_insert_id _ h) by done.
  split; [exists m; by destruct x, a|done].
Qed.

Lemma send_step x a m v :
  world_ok x a m ->
  exists o x' a', bstep x (BSend v) = OK (o, x') /\
    astep (Z.to_nat C) max_readers a (BSend v) = (o, a') /\ step_ok x a x' a'.
Proof.
  intros Hx. pose proof Hx as (Hs & Hw & HL & Hm & Hg & Hp). unfold bstep, astep.
  destruct (pub x) as [p|]; [destruct Hp as (Hpub & Hpw & Hpc)|]; [|rewrite Hp].
  2:{ exists ONothing, x, a. splits. split; [by exists m|done]. }
  rewrite Hpub. assert (pub_ok (sh x) p (entries a) m (rds x) (positions a)) as Hpk by (by split).
  destruct (gate_spec _ _ _ _ _ _ Hpk) as (M & Hpk1 & Hfull & Hgate). unfold try_send.
  rewrite Hgate. clear Hgate. set (p1 := if gated (sh x) p then _ else _) in *. rewrite Hfull.
  unfold full. destruct (existsb _ _) eqn:Ef; cbn [mbind outcome_bind].
  - eexists _, _, _. split; [done|]. split; [done|]. split; [exists M|].
    + destruct Hpk1 as [? ? ? ? ?]. unfold world_ok. simpl. splits.
    + simpl. rewrite app_nil_r. done.
  - destruct (write_ok _ _ _ _ _ _ v Hpk1 Hfull) as (old & b & -> & Hpk2 & Hold). cbn [mbind outcome_bind].
    eexists _, _, _. split; [done|]. split; [done|]. pose proof Hpk2 as [? ? ? Hw2 ?]. simpl in Hw2.
    destruct (pub_ok_store_w _ _ _ _ _ _ (wrapping_add (pub_w p1) 1) Hpk2). split; [exists M|simpl; split].
    + unfold world_ok. simpl. splits.
    + rewrite length_app. lia.
    + intros HU ->. apply Hold. rewrite length_app in HU. simpl in HU. lia.
Qed.

Lemma send_batch_step x a m values panics :
  world_ok x a m ->
  exists o x' a', bstep x (BSendBatch values panics) = OK (o, x') /\
    astep (Z.to_nat C) max_readers a (BSendBatch values panics) = (o, a') /\ step_ok x a x' a'.
Proof.
  intros Hx. pose proof Hx as (Hs & Hw & HL & Hm & Hg & Hp). unfold bstep, astep.
  destruct (pub x) as [p|]; [destruct Hp as (Hpub & Hpw & Hpc)|]; [|rewrite Hp].
  2:{ exists ONothing, x, a. splits. split; [by exists m|done]. }
  rewrite Hpub. assert (pub_ok (sh x) p (entries a) m (rds x) (positions a)) as Hpk by (by split).
  destruct (send_batch_loop_spec values panics (sh x) p false [] (entries a) m (rds x) (positions a) true Hpk
    ltac:(done)) as (e & s' & p' & old & m' & log' & He & Ha & Hpk' & Hw' & Hg' & Hl & Ho).
  unfold send_batch. rewrite He. cbn [mbind outcome_bind]. destruct a as [log g ps]. simpl in *. subst g.
  rewrite Ha. eexists _, _, _. split; [done|]. split; [done|]. split; [exists m'|simpl; split; [done|]].
  - destruct Hpk'. unfold world_ok. simpl. splits. by rewrite Hg'.
  - intros HU ->. by apply Ho.
Qed.

Lemma subscribe_step x a m :
  world_ok x a m ->
  exists o x' a', bstep x BSubscribe = OK (o, x') /\
    astep (Z.to_nat C) max_readers a BSubscribe = (o, a') /\ step_ok x a x' a'.
Proof.
  intros Hx. pose proof Hx as (Hs & Hw & HL & Hm & Hg & Hp). unfold bstep, astep, subscribe.
  rewrite (so_cursors _ _ Hs). pose proof (find_free_live _ _ _ _ _ Hm) as Hf.
  destruct (find_free _ _ _) as [b|].
  - destruct Hf as (Hb & Hbit & Hlive). unfold activate_reader, store_cursor. simpl.
    rewrite decide_True by (by rewrite (so_cursors _ _ Hs)). cbn [mbind outcome_bind].
    rewrite bool_decide_eq_true_2 by done. eexists _, _, _. split; [done|]. split; [done|].
    split; [exists m|done]. unfold world_ok. simpl. splits.
    + destruct Hs as [? ? ? ? ?]. split; simpl; try done. by rewrite length_insert.
    + rewrite Hw. apply (members_join (sh x)); try done; [lia|by rewrite (so_cursors _ _ Hs)].
  - rewrite bool_decide_eq_false_2 by lia. cbn [mbind outcome_bind]. exists (OFlag false). eexists _, a.
    split; [done|]. split; [done|]. split; [|done]. exists m. by destruct x.
Qed.

Lemma recv_step x a m h :
  world_ok x a m ->
  exists o x' a', bstep x (BRecv h) = OK (o, x') /\
    astep (Z.to_nat C) max_readers a (BRecv h) = (o, a') /\ step_ok x a x' a'.
Proof.
  intros Hx. destruct (reader_cases x a m h Hx) as [(rd & [active p] & Hh & Hp & Hrd)|[Hn1 Hn2]]; cycle 1.
  { exists ONothing, x, a. simpl. rewrite Hn1, Hn2. splits. split; [by exists m|done]. }
  cbn [bstep astep]. unfold with_reader, on_reader, advance, try_recv. rewrite Hh, Hp.
  pose proof Hrd as (Hsus & Hr & _). rewrite Hsus. destruct active; simpl.
  - destruct (reader_window x a m rd p Hx Hrd) as (-> & Hsub & -> & Hlo).
    destruct (bool_decide_reflect (p = length (entries a))) as [->|Hne].
    + rewrite drop_ge by done. cbn [mbind outcome_bind]. simpl. rewrite Nat.add_0_r.
      eexists _, _, _. split; [done|]. split; [done|]. by eapply step_ok_same.
    + destruct (lookup_lt_is_Some_2 (entries a) p ltac:(lia)) as [v Hv].
      rewrite Hr, (read_slot_spec (sh x) (entries a) p v (proj1 Hx) ltac:(lia) Hv).
      cbn [mbind outcome_bind]. rewrite wrapping_add_cursor.
      replace (Z.of_nat p + 1) with (Z.of_nat (p + 1)) by lia.
      destruct (move_cursor_ok x a m h rd p (p + 1) Hx Hh Hrd ltac:(lia)) as (s' & -> & Hx').
      cbn [mbind outcome_bind]. rewrite (drop_S _ _ _ Hv). simpl.
      eexists _, _, _. split; [done|]. split; [done|]. split; [by exists m|done].
  - eexists _, _, _. split; [done|]. split; [done|]. by eapply step_ok_same.
Qed.

Lemma bc_drain_step x a m h max stop :
  world_ok x a m -> 0 <= max ->
  exists o x' a', bstep x (BDrain h max stop) = OK (o, x') /\
    astep (Z.to_nat C) max_readers a (BDrain h max stop) = (o, a') /\ step_ok x a x' a'.
Proof.
  intros Hx Hmax. destruct (reader_cases x a m h Hx) as [(rd & [active p] & Hh & Hp & Hrd)|[Hn1 Hn2]]; cycle 1.
  { exists ONothing, x, a. cbn [bstep astep]. rewrite Hn1, Hn2. splits. split; [by exists m|done]. }
  cbn [bstep astep]. unfold with_reader, on_reader, advance, drain. rewrite Hh, Hp.
  pose proof Hrd as (Hsus & Hr & _). rewrite Hsus. destruct active; cbn [negb].
  - destruct (reader_window x a m rd p Hx Hrd) as (-> & Hsub & -> & Hlo). rewrite Hsub.
    destruct (bool_decide_reflect (p = length (entries a))) as [->|Hne].
    + rewrite drop_ge, take_nil by done. cbn [mbind outcome_bind length]. rewrite Nat.add_0_r.
      eexists _, _, _. split; [done|]. split; [done|]. by eapply step_ok_same.
    + set (n := Z.to_nat (Z.min (Z.of_nat (length (entries a)) - Z.of_nat p) max)).
      destruct (feed_logger_prefix stop [] (take n (drop p (entries a)))) as [pn Hfeed]; [simpl; lia|].
      simpl length in Hfeed. rewrite Nat.sub_0_r, take_take in Hfeed.
      pose proof (drain_values_spec n (sh x) (entries a) p (logger stop) [] (proj1 Hx) ltac:(lia) ltac:(lia)) as Hd.
      rewrite Hfeed in Hd. rewrite Hr, Hd. cbn [mbind outcome_bind].
      assert (take (S stop `min` n) (drop p (entries a)) = take (Z.to_nat max `min` S stop) (drop p (entries a))) as Heq.
      { rewrite (Nat.min_comm (Z.to_nat max)), <- !take_take. f_equal.
        subst n. destruct (Z.min_spec (Z.of_nat (length (entries a)) - Z.of_nat p) max) as [[? ->]|[? ->]]; [|done].
        rewrite !take_ge; [done|rewrite length_drop; lia..]. }
      rewrite Heq in *. set (got := take (Z.to_nat max `min` S stop) (drop p (entries a))) in *.
      assert (length got <= length (entries a) - p)%nat as Hgl.
      { unfold got. rewrite length_take, length_drop. lia. }
      destruct (move_cursor_ok x a m h rd p (p + length got) Hx Hh Hrd ltac:(lia)) as (s' & -> & Hx').
      cbn [mbind outcome_bind app]. eexists _, _, _. split; [done|]. split; [done|]. split; [by exists m|done].
  - cbn [mbind outcome_bind]. eexists _, _, _. split; [done|]. split; [done|]. by eapply step_ok_same.
Qed.

Lemma membership_step x a m h op :
  world_ok x a m ->
  op = BDisconnected h \/ op = BSuspend h \/ op = BResume h \/ op = BDropReader h ->
  exists o x' a', bstep x op = OK (o, x') /\
    astep (Z.to_nat C) max_readers a op = (o, a') /\ step_ok x a x' a'.
Proof.
  intros Hx Hop. pose proof Hx as (Hs & Hw & HL & _ & Hg & _).
  destruct (reader_cases x a m h Hx) as [(rd & [active p] & Hh & Hp & Hrd)|[Hn1 Hn2]]; cycle 1.
  { exists ONothing, x, a. split; [|split]; [..|split; [by exists m|done]];
      destruct Hop as [-> | [-> | [-> | ->]]]; cbn [bstep astep]; rewrite ?Hn1, ?Hn2; done. }
  pose proof Hrd as (Hsus & Hr & Hb & Hob & Hact & HpL & Ha).
  assert (forall i : nat, Z.testbit (clear_bit (readers (sh x)) (Z.of_nat (bit rd))) (Z.of_nat i) =
    Z.testbit (readers (sh x)) (Z.of_nat i) && negb (bool_decide (bit rd = i))) as Hclr.
  { intros i. rewrite clear_bit_spec by lia. do 2 f_equal. apply eq_true_iff_eq. rewrite Z.eqb_eq, bool_decide_eq_true. lia. }
  destruct Hop as [-> | [-> | [-> | ->]]]; cbn [bstep astep]; unfold with_reader, on_reader; rewrite Hh, Hp;
    cbn [mbind outcome_bind].
  - eexists _, _, _. split; [done|]. split; [|by eapply step_ok_same]. do 2 f_equal. unfold is_disconnected.
    rewrite Hg, Hr, Hw. f_equal. apply eq_true_iff_eq. rewrite !Z.eqb_eq. split.
    + intros He. symmetry. by apply Z.cong_iff_0.
    + intros He. by rewrite Zminus_mod, He, Z.sub_diag.
  - unfold suspend. rewrite Hsus. destruct active; simpl.
    + eexists _, _, _. split; [done|]. split; [done|]. split; [exists m|done].
      apply (world_replace x a m h rd _ (Some (mkReader (bit rd) (r rd) true, (false, p)))); try done; simpl.
      * intros i Hi. rewrite Hclr, bool_decide_eq_false_2 by done. by rewrite andb_true_r.
      * split; [|done]. unfold handle_ok. simpl. rewrite Hclr, bool_decide_eq_true_2, andb_false_r by done. splits.
    + eexists _, _, _. split; [done|]. split; [done|]. by eapply step_ok_same.
  - unfold resume. rewrite Hsus. destruct active; simpl.
    + eexists _, _, _. split; [done|]. split; [done|]. by eapply step_ok_same.
    + unfold activate_reader. rewrite (store_cursor_ok x a m rd _ _ Hx Hrd). cbn [mbind outcome_bind].
      eexists _, _, _. split; [done|]. split; [done|]. split; [exists m|done]. rewrite Hw.
      apply (world_replace x a m h rd _ (Some (mkReader (bit rd) (Z.of_nat (length (entries a)) mod USIZE) false,
        (true, length (entries a))))); try done; simpl.
      * by rewrite length_insert.
      * intros i Hi. rewrite list_lookup_insert_ne, set_bit_spec by (done || lia). splits.
        destruct (Z.eqb_spec (Z.of_nat (bit rd)) (Z.of_nat i)); [lia|]. by rewrite orb_false_r.
      * split; [|done]. unfold handle_ok. simpl. rewrite set_bit_spec, Z.eqb_refl, orb_true_r by lia. splits.
        intros _. split; [|lia]. apply list_lookup_insert_eq. by rewrite (so_cursors _ _ Hs).
  - eexists _, _, _. split; [done|]. split; [done|]. split; [exists m|done].
    apply (world_replace x a m h rd _ None); try done; simpl.
    + intros i Hi. rewrite Hclr, bool_decide_eq_false_2, andb_true_r by done. splits.
      rewrite clear_bit_spec by lia. destruct (Z.eqb_spec (Z.of_nat (bit rd)) (Z.of_nat i)); [lia|].
      by rewrite andb_true_r.
    + rewrite !clear_bit_spec, Z.eqb_refl by lia. by rewrite !andb_false_r.
Qed.

Definition bop_ok (op : bop T) : bool :=
  match op with BDrain _ max _ => 0 <=? max | _ => true end.

Lemma bstep_refines x a m op :
  world_ok x a m -> bop_ok op = true ->
  exists o x' a', bstep x op = OK (o, x') /\
    astep (Z.to_nat C) max_readers a op = (o, a') /\ step_ok x a x' a'.
Proof.
  intros Hx Hok. destruct op as [v|vs pn| |h|h max stop|h|h|h|h|].
  - by apply (send_step x a m).
  - by apply (send_batch_step x a m).
  - by apply (subscribe_step x a m).
  - by apply (recv_step x a m).
  - apply (bc_drain_step x a m h max stop Hx). simpl in Hok. lia.
  - apply (membership_step x a m h _ Hx). auto.
  - apply (membership_step x a m h _ Hx). auto.
  - apply (membership_step x a m h _ Hx). auto.
  - apply (membership_step x a m h _ Hx). auto 6.
  - cbn [bstep astep]. pose proof Hx as (Hs & Hw & HL & Hm & Hg & Hp). destruct (pub x) as [p|] eqn:Epub.
    + eexists _, _, _. split; [done|]. split; [done|]. split; [exists m|done].
      unfold world_ok. simpl. splits; [by destruct Hs|by destruct Hm].
    + exists ONothing, x. eexists. split; [done|]. split; [done|]. split; [exists m|done].
      unfold world_ok. simpl. rewrite Epub. splits. by rewrite Hg, Hp.
Qed.

Lemma brun_refines x a m ops :
  world_ok x a m -> forallb bop_ok ops = true ->
  exists x', brun x ops = OK ((arun (Z.to_nat C) max_readers a ops).1, x') /\
    step_ok x a x' (arun (Z.to_nat C) max_readers a ops).2.
Proof.
  revert x a m. induction ops as [|op ops IH]; intros x a m Hx Hok.
  - exists x. split; [done|]. split; [by exists m|done].
  - simpl in Hok. apply andb_true_iff in Hok as [Hop Hok]. cbn [brun arun].
    destruct (bstep_refines x a m op Hx Hop) as (o & x1 & a1 & -> & -> & [m1 Hx1] & Hl1 & Hd1).
    cbn [mbind outcome_bind]. destruct (IH x1 a1 m1 Hx1 Hok) as (x' & -> & Hm' & Hl' & Hd').
    destruct (arun (Z.to_nat C) max_readers a1 ops) as [os a2]. cbn [mbind outcome_bind fst snd] in *.
    exists x'. split; [done|]. split; [done|]. split; [lia|]. intros HU Hd. apply Hd'; [done|]. apply Hd1; [lia|done].
Qed.

(** ** Teardown *)

Lemma drop_slots_spec s log (p n : nat) (done_ : nat) :
  cap s = C -> mask s = C - 1 -> Z.of_nat (length log) < USIZE ->
  (p + n = length log)%nat -> (done_ <= p)%nat -> Z.of_nat (length log) - C <= Z.of_nat done_ ->
  (forall j v, (p <= j)%nat -> log !! j = Some v -> buf s !! Z.to_nat (Z.of_nat j mod C) = Some (Some v)) ->
  drop_slots s (Z.of_nat p) n = OK (drop p log).
Proof.
  pose proof C_bounds as HC. intros Hcap Hmask HU. revert s p Hcap Hmask.
  induction n as [|n IH]; intros s p Hcap Hmask Hpn Hdn Hlo Hbuf.
  - simpl. by rewrite drop_ge by lia.
  - destruct (lookup_lt_is_Some_2 log p ltac:(lia)) as [v Hv]. cbn [drop_slots].
    assert (Z.land (Z.of_nat p) (mask s) = Z.of_nat p mod C) as Hi by (rewrite Hmask, land_mask by lia; done).
    unfold read_slot. rewrite Hi, (Hbuf p v ltac:(lia) Hv). cbn [mbind outcome_bind assume_init_read].
    replace (Z.of_nat p + 1) with (Z.of_nat (S p)) by lia. rewrite IH; try done; try lia.
    + cbn [mbind outcome_bind]. by rewrite (drop_S _ _ _ Hv).
    + intros j y Hj Hy. simpl. rewrite list_lookup_insert_ne; [apply Hbuf; [lia|done]|]. intros Heq.
      assert (j < length log)%nat by (by eapply lookup_lt_Some).
      assert (Z.of_nat p mod C = Z.of_nat j mod C) as Hm.
      { pose proof (Z.mod_pos_bound (Z.of_nat j) C ltac:(lia)).
        pose proof (Z.mod_pos_bound (Z.of_nat p) C ltac:(lia)). lia. }
      apply mod_inj in Hm; lia.
Qed.

Lemma log_teardown_spec s log :
  shared_ok s log -> w s = Z.of_nat (length log) mod USIZE -> Z.of_nat (length log) < USIZE ->
  shared_drop s = OK (drop (length log - Z.to_nat C) log).
Proof.
  intros Hs Hw HU. pose proof C_bounds as HC. unfold shared_drop. rewrite Hw, (so_cap _ _ Hs), Z.mod_small by lia.
  set (L := length log). replace (Z.of_nat L - Z.min (Z.of_nat L) C) with (Z.of_nat (L - Z.to_nat C)) by lia.
  apply (drop_slots_spec s log _ _ (L - Z.to_nat C)); try done; try lia; try apply Hs.
  intros j v Hj. apply Hs. lia.
Qed.
End refinement.

Lemma open_spec {T} size_T capacity max_readers (x : World T) :
  bopen size_T capacity max_readers = OK x ->
  exists k, 0 <= k < 64 /\ cap (sh x) = 2 ^ k /\ capacity <= 2 ^ k /\ destroyed x = [] /\
    world_ok k max_readers x (mkLog [] true [Some (true, 0%nat)]) 0.
Proof.
  unfold bopen, open. case_decide as Hr; [|done].
  destruct (checked_next_power_of_two capacity) as [c|] eqn:E; [|done]. destruct (_ <? _); [done|]. intros [= <-].
  destruct (next_power_of_two_spec _ _ E) as (k & -> & Hk & Hle). exists k. simpl. splits.
  unfold world_ok. simpl. splits.
  - split; simpl; [done|done|by rewrite length_replicate|by rewrite length_replicate|].
    intros j v _ Hv. by rewrite lookup_nil in Hv.
  - split; simpl.
    + constructor; [|constructor]. constructor. unfold handle_ok. simpl. splits. intros _. splits.
      rewrite lookup_replicate_2; [done|lia].
    + intros [|h] [|h'] rd rd'; simpl; done.
    + intros i Hi. exists 0%nat. eexists. split; [done|]. simpl. destruct i; [done|].
      rewrite Z.bits_above_log2 in Hi; simpl; [done|lia|lia].
    + intros i Hi. exists 0%nat. eexists. split; [done|]. simpl. destruct i; [done|].
      rewrite Z.bits_above_log2 in Hi; simpl; [done|lia|lia].
Qed.

(** ** Properties *)

(** C20: broadcast is a log. For every sequence of publishes (single, or
    batched from an iterator that may panic), joins, receives, drains with
    callbacks that may panic, suspensions, resumptions and drops, no call panics
    or reads a slot that owns no value, and every result is the one of the
    abstract log: an active reader receives the values published after it
    joined, each once and in order, and a publish is refused exactly when some
    active reader is a full ring behind. *)
Theorem broadcast_refines_log {T} (size_T capacity : Z) (max_readers : nat) (x : World T) (ops : list (bop T)) :
  bopen size_T capacity max_readers = OK x -> forallb bop_ok ops = true ->
  exists x', brun x ops =
    OK ((arun (Z.to_nat (cap (sh x))) max_readers (mkLog [] true [Some (true, 0%nat)]) ops).1, x').
Proof.
  intros Ho Hops. destruct (open_spec _ _ _ _ Ho) as (k & Hk & -> & _ & _ & Hx).
  destruct (brun_refines k Hk max_readers _ _ 0 ops Hx Hops) as (x' & Hr & _). by exists x'.
Qed.

Definition sample_world (capacity : Z) (max_readers : nat) : World nat :=
  match bopen 8 capacity max_readers with OK x => x | _ => mkWorld (mkShared [] 0 0 0 0 0 [] true) None [] [] end.

Definition sample_ops : list (bop nat) :=
  [BSend 1; BSubscribe; BSend 2; BSend 3; BRecv 0; BSendBatch [3; 4; 5] false; BDrain 1 9 0;
   BSuspend 0; BSend 6; BRecv 0; BResume 0; BRecv 1; BSend 7; BRecv 0; BDropReader 1; BSubscribe; BSubscribe;
   BDropPublisher; BRecv 2; BDisconnected 0; BDisconnected 2]%nat.

Lemma broadcast_refines_log_witness :
  exists x', brun (sample_world 2 2) sample_ops =
    OK ((arun 2 2 (mkLog [] true [Some (true, 0%nat)]) sample_ops).1, x').
Proof.
  exact (broadcast_refines_log 8 2 2 (sample_world 2 2) sample_ops ltac:(vm_compute; reflexivity)
    ltac:(vm_compute; reflexivity)).
Defined.

(** The sample trace in values: a refusal, a lagging batch, a missed value while
    suspended, and slot reuse. *)
Example sample_trace :
  (arun 2 2 (mkLog [] true [Some (true, 0%nat)]) sample_ops).1 =
  [OSent true; OFlag true; OSent true; OSent false; OGot [1]; OBatch (BatchWaiting [4; 5]); OGot [2];
   ONothing; OSent true; OGot []; ONothing; OGot [3]; OSent true; OGot [7]; ONothing; OFlag true; OFlag false;
   ONothing; OGot []; OFlag true; OFlag true]%nat.
Proof. reflexivity. Qed.

(** Every published value is destroyed exactly once. After any such
    sequence of calls with fewer than [2^64] publishes, the values destroyed
    because a later publish took their slot, followed by those destroyed when
    the shared state is dropped, are exactly the published values in order. *)
Lemma broadcast_teardown_exact {T} (size_T capacity : Z) (max_readers : nat) (x x' : World T)
    (ops : list (bop T)) (os : list (bobs T)) :
  bopen size_T capacity max_readers = OK x -> forallb bop_ok ops = true -> brun x ops = OK (os, x') ->
  let log := entries (arun (Z.to_nat (cap (sh x))) max_readers (mkLog [] true [Some (true, 0%nat)]) ops).2 in
  Z.of_nat (length log) < USIZE ->
  exists rest, shared_drop (sh x') = OK rest /\ destroyed x' ++ rest = log.
Proof.
  intros Ho Hops Hrun log Hlog. destruct (open_spec _ _ _ _ Ho) as (k & Hk & Hc & _ & Hd0 & Hx).
  destruct (brun_refines k Hk max_readers _ _ 0 ops Hx Hops) as (x1 & Hr & [m Hx1] & _ & Hd).
  rewrite Hrun in Hr. injection Hr as _ <-. subst log. rewrite Hc in *.
  destruct Hx1 as (Hs & Hw & _). rewrite (log_teardown_spec k Hk max_readers _ _ Hs Hw Hlog).
  eexists. split; [done|]. rewrite Hd; [apply take_drop|lia|done].
Qed.

End broadcast.
