(* ===== verification/BroadcastConc.v ===== *)
(** * Broadcast under interleaving: [src/src/mpmc/broadcast/mod.rs]

    The publisher and any number of reader threads take turns at single shared
    accesses. The publisher runs [try_send] (one item) and [send_batch]: the
    gate on the cached minimum, the locked scan of [slowest] one cursor at a
    time, each slot write, the publishing store. A reader thread runs
    [subscribe] (the compare-exchange loop on [owned]), [activate_reader] under
    the same lock, [try_recv] and [drain] (load of [w], each slot read, the
    cursor store), [suspend], [resume] and its drop.

    Memory is sequentially consistent here. [log] (the values written) and
    [pubd] (how many of them are published) are ghost state, as are the position
    [start] at which a reader joined and the values [got] it has read since. *)

From stdpp Require Import prelude.
From S2P Require Import Prelude Backend MpscPool Broadcast.
Import broadcast.
Local Open Scope Z_scope.
#[local] Set Warnings "-clear-no-such-hyp".

Module broadcast_conc.
Import pool (set_bit, clear_bit, set_bit_spec, clear_bit_spec).

Inductive holder : Type :=
| HPublisher
| HThread (j : nat).

Inductive ppc (T : Type) : Type :=
| PIdle
| PGate (todo : list T)                                  (* before the gate check *)
| PScan (todo : list T) (bits : Z) (i : nat) (min max_lag : Z)  (* in [slowest], lock held *)
| PWrite (todo : list T).                                (* gate passed *)
Arguments PIdle {T}.
Arguments PGate {T} todo.
Arguments PScan {T} todo bits i min max_lag.
Arguments PWrite {T} todo.

Inductive tpc (T : Type) : Type :=
| TNone                                       (* no handle *)
| TSub (bits : Z)                             (* [owned] loaded *)
| TJoin (b : nat)                             (* slot reserved, before activation *)
| TLocked (b : nat)
| TNow (b : nat) (now : Z) (start : nat)
| TStored (b : nat) (now : Z) (start : nat)
| TIdle (rd : Reader) (start : nat) (got : list T)
| TRead (rd : Reader) (todo : nat) (start : nat) (got : list T) (rel : nat)
| TSuspended (rd : Reader)
| TDropping (b : nat).
Arguments TNone {T}.
Arguments TSub {T} bits.
Arguments TJoin {T} b.
Arguments TLocked {T} b.
Arguments TNow {T} b now start.
Arguments TStored {T} b now start.
Arguments TIdle {T} rd start got.
Arguments TRead {T} rd todo start got rel.
Arguments TSuspended {T} rd.
Arguments TDropping {T} b.

Record state (T : Type) := mkState {
  shared : Shared T;
  lock : option holder;
  publ : Publisher;
  prog : ppc T;
  threads : list (tpc T);
  log : list T;
  pubd : nat
}.
Arguments mkState {T} shared lock publ prog threads log pubd.
Arguments shared {T} _.
Arguments lock {T} _.
Arguments publ {T} _.
Arguments prog {T} _.
Arguments threads {T} _.
Arguments log {T} _.
Arguments pubd {T} _.

Inductive event (T : Type) : Type :=
| ECall (items : list T)   (* [try_send] or [send_batch] is called *)
| EGate                    (* the gate check; a closed gate takes the lock and loads [readers] *)
| EScan                    (* one cursor of the scan *)
| EScanned                 (* the scan ends: cache the minimum, unlock *)
| EWrite                   (* the slot write *)
| EPublish                 (* the publishing store of [w] *)
| EReturn                  (* the call returns, gives up or unwinds *)
| ELoadOwned (j : nat)
| ECas (j : nat)
| ELock (j : nat)
| ELoadNow (j : nat)
| EStoreCursor (j : nat)
| EActivate (j : nat)      (* [readers.fetch_or], unlock *)
| ELoadW (j : nat) (max : nat)
| ERead (j : nat)
| ERelease (j : nat)       (* the cursor store, also of an unwinding [drain] *)
| ESuspend (j : nat)
| EResume (j : nat)
| EDropGate (j : nat)      (* the first half of [Drop for Reader] *)
| EDropSlot (j : nat).
Arguments ECall {T} items.
Arguments EGate {T}.
Arguments EScan {T}.
Arguments EScanned {T}.
Arguments EWrite {T}.
Arguments EPublish {T}.
Arguments EReturn {T}.
Arguments ELoadOwned {T} j.
Arguments ECas {T} j.
Arguments ELock {T} j.
Arguments ELoadNow {T} j.
Arguments EStoreCursor {T} j.
Arguments EActivate {T} j.
Arguments ELoadW {T} j max.
Arguments ERead {T} j.
Arguments ERelease {T} j.
Arguments ESuspend {T} j.
Arguments EResume {T} j.
Arguments EDropGate {T} j.
Arguments EDropSlot {T} j.

Section machine.
Context {T : Type}.
Implicit Types (x : state T).

Definition set_prog x (c : ppc T) : state T :=
  mkState (shared x) (lock x) (publ x) c (threads x) (log x) (pubd x).
Definition set_thread x (s : Shared T) (l : option holder) (j : nat) (c : tpc T) : state T :=
  mkState s l (publ x) (prog x) (<[j := c]> (threads x)) (log x) (pubd x).
Definition dirty x : bool := negb (w (shared x) =? pub_w (publ x)).

(** [None]: the event is not the next access of that program. *)
Definition pub_step x (e : event T) : option (outcome (state T)) :=
  match prog x, e with
  | PIdle, ECall items => Some (OK (set_prog x (PGate items)))
  | PGate (v :: todo), EGate =>
      if gated (shared x) (publ x) then
        if dirty x then None else
        match lock x with
        | Some _ => None
        | None => Some (OK (mkState (shared x) (Some HPublisher) (publ x)
                     (PScan (v :: todo) (readers (shared x)) 0 (pub_w (publ x)) 0) (threads x) (log x) (pubd x)))
        end
      else Some (OK (set_prog x (PWrite (v :: todo))))
  | PScan todo bits i mn lag, EScan =>
      match cursors (shared x) !! i with
      | None => None
      | Some cursor =>
          let l := wrapping_sub (pub_w (publ x)) cursor in
          Some (OK (set_prog x
            (if has_bit bits i && (lag <? l) then PScan todo bits (S i) cursor l
             else PScan todo bits (S i) mn lag)))
      end
  | PScan todo bits i mn lag, EScanned =>
      if decide (i = length (cursors (shared x)))
      then Some (OK (mkState (shared x) None (mkPublisher (pub_w (publ x)) mn) (PGate todo) (threads x) (log x) (pubd x)))
      else None
  | PWrite (v :: todo), EWrite => Some (
      '(_, s) ← write_slot (shared x) (pub_w (publ x)) v;
      OK (mkState s (lock x) (mkPublisher (wrapping_add (pub_w (publ x)) 1) (min_cache (publ x)))
            (PGate todo) (threads x) (log x ++ [v]) (pubd x)))
  | PGate _, EPublish =>
      Some (OK (mkState (store_w (shared x) (pub_w (publ x))) (lock x) (publ x) (prog x) (threads x) (log x)
                  (length (log x))))
  | PGate _, EReturn => if dirty x then None else Some (OK (set_prog x PIdle))
  | _, _ => None
  end.

(** The next access of reader thread [j] in state [c]. *)
Definition thread_step x (j : nat) (c : tpc T) (e : event T) : option (outcome (state T)) :=
  let s := shared x in
  match c, e with
  | TNone, ELoadOwned _ => Some (OK (set_thread x s (lock x) j (TSub (owned s))))
  | TSub bits, ECas _ =>
      match find_free bits 0 (length (cursors s)) with
      | None => Some (OK (set_thread x s (lock x) j TNone))
      | Some free =>
          if owned s =? bits
          then Some (OK (set_thread x (store_owned s (set_bit bits (Z.of_nat free))) (lock x) j (TJoin free)))
          else Some (OK (set_thread x s (lock x) j TNone))
      end
  | TJoin b, ELock _ =>
      match lock x with
      | Some _ => None
      | None => Some (OK (set_thread x s (Some (HThread j)) j (TLocked b)))
      end
  | TLocked b, ELoadNow _ => Some (OK (set_thread x s (lock x) j (TNow b (w s) (pubd x))))
  | TNow b now start, EStoreCursor _ => Some (
      s1 ← store_cursor s b now; OK (set_thread x s1 (lock x) j (TStored b now start)))
  | TStored b now start, EActivate _ =>
      Some (OK (set_thread x (store_readers s (set_bit (readers s) (Z.of_nat b))) None j
                  (TIdle (mkReader b now false) start [])))
  | TIdle rd start got, ELoadW _ max =>
      let wv := w s in
      if r rd =? wv then Some (OK x) else
      if cap s <? wrapping_sub wv (r rd) then Some (
        s1 ← store_cursor s (bit rd) wv;
        OK (set_thread x s1 (lock x) j (TIdle (mkReader (bit rd) wv false) (pubd x) [])))
      else Some (OK (set_thread x s (lock x) j
             (TRead rd (Nat.min (Z.to_nat (wrapping_sub wv (r rd))) max) start got (start + length got))))
  | TRead rd (S k) start got rel, ERead _ => Some (
      v ← read_slot s (r rd);
      OK (set_thread x s (lock x) j
            (TRead (mkReader (bit rd) (wrapping_add (r rd) 1) false) k start (got ++ [v]) rel)))
  | TRead rd _ start got _, ERelease _ => Some (
      s1 ← store_cursor s (bit rd) (r rd); OK (set_thread x s1 (lock x) j (TIdle rd start got)))
  | TIdle rd start got, ESuspend _ =>
      Some (OK (set_thread x (store_readers s (clear_bit (readers s) (Z.of_nat (bit rd)))) (lock x) j
                  (TSuspended (mkReader (bit rd) (r rd) true))))
  | TSuspended rd, EResume _ => Some (OK (set_thread x s (lock x) j (TJoin (bit rd))))
  | TIdle rd _ _, EDropGate _ | TSuspended rd, EDropGate _ =>
      Some (OK (set_thread x (store_readers s (clear_bit (readers s) (Z.of_nat (bit rd)))) (lock x) j
                  (TDropping (bit rd))))
  | TDropping b, EDropSlot _ =>
      Some (OK (set_thread x (store_owned s (clear_bit (owned s) (Z.of_nat b))) (lock x) j TNone))
  | _, _ => None
  end.

Definition thread_of (e : event T) : option nat :=
  match e with
  | ELoadOwned j | ECas j | ELock j | ELoadNow j | EStoreCursor j | EActivate j | ELoadW j _
  | ERead j | ERelease j | ESuspend j | EResume j | EDropGate j | EDropSlot j => Some j
  | _ => None
  end.

Definition step x (e : event T) : option (outcome (state T)) :=
  match thread_of e with
  | Some j => match threads x !! j with Some c => thread_step x j c e | None => None end
  | None => pub_step x e
  end.

Fixpoint run x (es : list (event T)) : option (state T) :=
  match es with
  | [] => Some x
  | e :: es' => match step x e with Some (OK x') => run x' es' | _ => None end
  end.
End machine.

(** The initial reader belongs to thread 0. *)
Definition initial {T} (s : Shared T) (p : Publisher) (rd : Reader) (n : nat) : state T :=
  mkState s None p PIdle (TIdle rd 0 [] :: replicate n TNone) [] 0.

Inductive reachable {T} (size_T capacity : Z) (max_readers n : nat) : state T -> Prop :=
| reach_init s p rd : open size_T capacity max_readers = OK (s, p, rd) ->
    reachable size_T capacity max_readers n (initial s p rd n)
| reach_step x e x' : reachable size_T capacity max_readers n x -> step x e = Some (OK x') ->
    reachable size_T capacity max_readers n x'.

(** ** Invariant *)

(** The cursor slot a thread has reserved. *)
Definition slot_of {T} (c : tpc T) : option nat :=
  match c with
  | TNone | TSub _ => None
  | TJoin b | TLocked b | TNow b _ _ | TStored b _ _ | TDropping b => Some b
  | TIdle rd _ _ | TRead rd _ _ _ _ | TSuspended rd => Some (bit rd)
  end.

(** The slot and the released position of an active reader. *)
Definition released {T} (c : tpc T) : option (nat * nat) :=
  match c with
  | TIdle rd start got => Some (bit rd, (start + length got)%nat)
  | TRead rd _ start got rel => Some (bit rd, rel)
  | _ => None
  end.

Section invariant.
Context {T : Type} (k : Z) (Hk : 0 <= k < 64) (max_readers : nat).
Local Abbreviation C := (2 ^ k).
Implicit Types (x : state T) (c d : tpc T).

Definition owns x (b : nat) : Prop :=
  (b < max_readers)%nat /\ Z.testbit (owned (shared x)) (Z.of_nat b) = true.
Definition gates x (b : nat) : bool := Z.testbit (readers (shared x)) (Z.of_nat b).

Definition reading_ok (m : Z) x (rd : Reader) (start : nat) (got : list T) (rel : nat) : Prop :=
  owns x (bit rd) /\ gates x (bit rd) = true /\
  cursors (shared x) !! bit rd = Some (Z.of_nat rel mod USIZE) /\
  m <= Z.of_nat rel /\ (rel <= start + length got <= pubd x)%nat /\
  r rd = Z.of_nat (start + length got) mod USIZE /\ got = take (length got) (drop start (log x)).

Definition thread_ok (m : Z) x (j : nat) c : Prop :=
  match c with
  | TNone | TSub _ => True
  | TJoin b | TDropping b => owns x b /\ gates x b = false
  | TSuspended rd => owns x (bit rd) /\ gates x (bit rd) = false
  | TLocked b => owns x b /\ gates x b = false /\ lock x = Some (HThread j)
  | TNow b now start => owns x b /\ gates x b = false /\ lock x = Some (HThread j) /\
      now = Z.of_nat start mod USIZE /\ m <= Z.of_nat start /\ (start <= pubd x)%nat
  | TStored b now start => owns x b /\ gates x b = false /\ lock x = Some (HThread j) /\
      now = Z.of_nat start mod USIZE /\ m <= Z.of_nat start /\ (start <= pubd x)%nat /\
      cursors (shared x) !! b = Some now
  | TIdle rd start got => reading_ok m x rd start got (start + length got)
  | TRead rd n start got rel => reading_ok m x rd start got rel /\ (start + length got + n <= pubd x)%nat
  end.

(** [M] is the minimum of the scan so far. *)
Definition scan_ok (m : Z) x (bits : Z) (i : nat) (mn lag : Z) : Prop :=
  lock x = Some HPublisher /\ length (log x) = pubd x /\
  exists M, mn = M mod USIZE /\ lag = Z.of_nat (pubd x) - M /\ m <= M <= Z.of_nat (pubd x) /\
    (forall b : nat, Z.testbit bits (Z.of_nat b) = true -> (b < max_readers)%nat ->
       exists q, cursors (shared x) !! b = Some (q mod USIZE) /\ m <= q <= Z.of_nat (pubd x)) /\
    (forall j c b q, threads x !! j = Some c -> released c = Some (b, q) ->
       Z.testbit bits (Z.of_nat b) = true /\ ((b < i)%nat -> M <= Z.of_nat q)).

Definition prog_ok (m : Z) x : Prop :=
  match prog x with
  | PIdle | PGate _ => True
  | PScan _ bits i mn lag => scan_ok m x bits i mn lag
  | PWrite _ => Z.of_nat (length (log x)) < m + C
  end.

Record inv (m : Z) x : Prop := {
  i_ring : shared_ok k max_readers (shared x) (log x);
  i_count : (pubd x <= length (log x))%nat;
  i_w : w (shared x) = Z.of_nat (pubd x) mod USIZE;
  i_pub : pub_w (publ x) = Z.of_nat (length (log x)) mod USIZE;
  i_cache : min_cache (publ x) = m mod USIZE;
  i_min : m <= Z.of_nat (pubd x) /\ Z.of_nat (length (log x)) <= m + C;
  i_prog : prog_ok m x;
  i_thread : forall j c, threads x !! j = Some c -> thread_ok m x j c;
  i_excl : forall i j c d b, threads x !! i = Some c -> threads x !! j = Some d ->
    slot_of c = Some b -> slot_of d = Some b -> i = j;
  i_gates : forall b, gates x b = true ->
    exists j c q, threads x !! j = Some c /\ released c = Some (b, q)
}.

Lemma released_slot c b q : released c = Some (b, q) -> slot_of c = Some b.
Proof. by destruct c; intros [= <- _]. Qed.

Lemma thread_ok_released m x j c b q :
  thread_ok m x j c -> released c = Some (b, q) ->
  (b < max_readers)%nat /\ gates x b = true /\ cursors (shared x) !! b = Some (Z.of_nat q mod USIZE) /\
  m <= Z.of_nat q /\ (q <= pubd x)%nat.
Proof.
  destruct c; try done; intros Hc [= <- <-]; [|destruct Hc as [Hc _]];
    destruct Hc as ((? & _) & ? & ? & ? & ? & _); splits.
Qed.

(** The other threads do not notice a step that leaves their slots alone. *)
Lemma thread_ok_frame m x x' j c :
  thread_ok m x j c -> pubd x' = pubd x -> log x' = log x ->
  (forall b, slot_of c = Some b ->
     Z.testbit (owned (shared x')) (Z.of_nat b) = Z.testbit (owned (shared x)) (Z.of_nat b) /\
     gates x' b = gates x b /\ cursors (shared x') !! b = cursors (shared x) !! b) ->
  (lock x = Some (HThread j) -> lock x' = Some (HThread j)) ->
  thread_ok m x' j c.
Proof.
  intros Hc Hp Hl Hs Hlk. destruct (slot_of c) as [b|] eqn:Eb; [|by destruct c].
  destruct (Hs b eq_refl) as (E1 & E2 & E3). destruct c; simplify_eq/=;
    unfold reading_ok, owns in *; rewrite ?E1, ?E2, ?E3, ?Hp, ?Hl; try exact Hc.
  - destruct Hc as (? & ? & ?). auto.
  - destruct Hc as (? & ? & ? & ?). auto.
  - destruct Hc as (? & ? & ? & ?). auto.
Qed.

(** A step of thread [j]. *)
Lemma inv_thread m x j c c' s' l' :
  inv m x -> threads x !! j = Some c ->
  buf s' = buf (shared x) -> mask s' = mask (shared x) -> cap s' = cap (shared x) -> w s' = w (shared x) ->
  length (cursors s') = length (cursors (shared x)) ->
  (forall b : nat, slot_of c <> Some b -> slot_of c' <> Some b ->
     Z.testbit (owned s') (Z.of_nat b) = Z.testbit (owned (shared x)) (Z.of_nat b) /\
     Z.testbit (readers s') (Z.of_nat b) = Z.testbit (readers (shared x)) (Z.of_nat b) /\
     cursors s' !! b = cursors (shared x) !! b) ->
  l' = lock x \/ lock x = None \/ lock x = Some (HThread j) ->
  thread_ok m (set_thread x s' l' j c') j c' ->
  (forall i d b, i <> j -> threads x !! i = Some d -> slot_of d = Some b -> slot_of c' <> Some b) ->
  (forall b : nat, slot_of c = Some b \/ slot_of c' = Some b -> Z.testbit (readers s') (Z.of_nat b) = true ->
     exists q, released c' = Some (b, q)) ->
  (forall b q, released c' = Some (b, q) -> lock x = Some HPublisher ->
     exists q', released c = Some (b, q') /\ (q' <= q)%nat) ->
  (forall b, lock x = Some HPublisher -> cursors s' !! b = cursors (shared x) !! b \/
     exists q, cursors s' !! b = Some (q mod USIZE) /\ m <= q <= Z.of_nat (pubd x)) ->
  inv m (set_thread x s' l' j c').
Proof.
  intros Hi Hj E1 E2 E3 E4 E5 Hsame Hlk Hc' Hfresh Hgate Hrel Hcur.
  pose proof Hi as [Hring Hcnt Hw Hpub Hcache Hmin Hprog Hth Hex Hg].
  assert (forall i d b, i <> j -> threads x !! i = Some d -> slot_of d = Some b ->
    slot_of c <> Some b /\ slot_of c' <> Some b) as Hother.
  { intros i d b Hne Hd Hb. split; [|by eapply Hfresh]. intros Hb'. apply Hne. by eapply Hex. }
  split; simpl; try done.
  - destruct Hring. split; rewrite ?E1, ?E2, ?E3, ?E5; done.
  - by rewrite E4.
  - unfold prog_ok in *. simpl. destruct (prog x) as [|todo|todo bits i mn lag|todo]; try done.
    destruct Hprog as (HL & Hlen & M & HM1 & HM2 & HM3 & HM4 & HM5). rewrite HL in *.
    destruct Hlk as [-> |[?|?]]; [|done..]. split; [done|]. split; [done|]. exists M. simpl. splits.
    + intros b Hb Hbm. destruct (Hcur b eq_refl) as [-> |?]; [by apply HM4|done].
    + intros i' d b q Hd Hq. updated Hd; [|by eapply HM5].
      destruct (Hrel b q Hq eq_refl) as (q' & Hq' & Hle). destruct (HM5 _ _ _ _ Hj Hq') as [? Hlow].
      split; [done|]. intros Hbi. specialize (Hlow Hbi). lia.
  - intros i d Hd. updated Hd; [done|]. apply (thread_ok_frame m x); try done; [by apply Hth| |].
    + intros b Hb. destruct (Hother i d b ltac:(done) Hd Hb) as [Hb1 Hb2]. simpl. by apply Hsame.
    + intros Hlki. simpl. destruct Hlk as [-> |[?|?]]; congruence.
  - intros i1 i2 d1 d2 b Hd1 Hd2 Hb1 Hb2. updated Hd1; updated Hd2; try done.
    + by destruct (Hother i2 d2 b ltac:(done) Hd2 Hb2).
    + by destruct (Hother i1 d1 b ltac:(done) Hd1 Hb1).
    + by eapply Hex.
  - intros b Hb. unfold gates in Hb. simpl in Hb.
    assert (j < length (threads x))%nat as Hjl by (by eapply lookup_lt_Some).
    destruct (decide (slot_of c = Some b \/ slot_of c' = Some b)) as [Hin|Hout].
    + destruct (Hgate b Hin Hb) as [q Hq]. exists j, c', q. split; [by apply list_lookup_insert_eq|done].
    + destruct (Hsame b) as (_ & Hr & _); [tauto..|]. rewrite Hr in Hb.
      destruct (Hg b Hb) as (i & d & q & Hd & Hq). exists i, d, q. split; [|done].
      rewrite list_lookup_insert_ne; [done|]. intros <-. apply Hout. left.
      replace c with d by congruence. by eapply released_slot.
Qed.

(** A local step that keeps the shared state and the thread's slot. *)
Lemma inv_local m x j c c' :
  inv m x -> threads x !! j = Some c -> (slot_of c' = slot_of c \/ slot_of c' = None) ->
  (gates x <$> slot_of c <> Some true \/ exists b q, released c = Some (b, q) /\ released c' = Some (b, q)) ->
  (forall b, slot_of c = Some b -> slot_of c' = None -> gates x b = false) ->
  (released c' = None \/ released c' = released c) ->
  thread_ok m (set_thread x (shared x) (lock x) j c') j c' ->
  inv m (set_thread x (shared x) (lock x) j c').
Proof.
  intros Hi Hj Hslot Hg Hnone Hrel Hc'. apply (inv_thread m x j c); auto.
  - intros i d b Hne Hd Hb Hb'. apply Hne. apply (i_excl _ _ Hi i j d c b); try done.
    destruct Hslot as [<-|?]; congruence.
  - intros b Hin Hb. destruct Hg as [Hg|(b' & q & Hq & Hq')].
    + exfalso. apply Hg. assert (slot_of c = Some b) as ->.
      { destruct Hin as [?|Hin]; [done|]. destruct Hslot as [<-|?]; congruence. }
      simpl. unfold gates. by rewrite Hb.
    + exists q. rewrite Hq'. apply released_slot in Hq. destruct Hin as [Hin|Hin]; [congruence|].
      destruct Hslot as [Hs|Hs]; congruence.
  - intros b q Hq _. destruct Hrel as [?|Hrel]; [congruence|]. exists q. split; [congruence|done].
Qed.

Lemma set_bit_other bits (b i : nat) : b <> i ->
  Z.testbit (set_bit bits (Z.of_nat b)) (Z.of_nat i) = Z.testbit bits (Z.of_nat i).
Proof. intros. rewrite set_bit_spec by lia. destruct (Z.eqb_spec (Z.of_nat b) (Z.of_nat i)); [lia|apply orb_false_r]. Qed.

Lemma clear_bit_other bits (b i : nat) : b <> i ->
  Z.testbit (clear_bit bits (Z.of_nat b)) (Z.of_nat i) = Z.testbit bits (Z.of_nat i).
Proof. intros. rewrite clear_bit_spec by lia. destruct (Z.eqb_spec (Z.of_nat b) (Z.of_nat i)); [lia|apply andb_true_r]. Qed.

Lemma set_bit_same bits (b : nat) : Z.testbit (set_bit bits (Z.of_nat b)) (Z.of_nat b) = true.
Proof. rewrite set_bit_spec, Z.eqb_refl by lia. apply orb_true_r. Qed.

Lemma clear_bit_same bits (b : nat) : Z.testbit (clear_bit bits (Z.of_nat b)) (Z.of_nat b) = false.
Proof. rewrite clear_bit_spec, Z.eqb_refl by lia. apply andb_false_r. Qed.

(** A reserved slot is reserved by its holder only. *)
Lemma slot_fresh m x j c i d b b' :
  inv m x -> threads x !! j = Some c -> slot_of c = Some b -> i <> j -> threads x !! i = Some d ->
  slot_of d = Some b' -> Some b <> Some b'.
Proof. intros Hi Hj Hb Hne Hd Hd' [= <-]. apply Hne. by eapply (i_excl _ _ Hi). Qed.

Lemma owned_slot m x j c b :
  inv m x -> threads x !! j = Some c -> slot_of c = Some b -> owns x b.
Proof.
  intros Hi Hj Hb. pose proof (i_thread _ _ Hi j c Hj) as Hc.
  destruct c; simplify_eq/=; try apply Hc; destruct Hc as [Hc _]; apply Hc.
Qed.

Lemma inv_reserve m x j b bits :
  inv m x -> threads x !! j = Some (TSub bits) -> owned (shared x) = bits ->
  find_free bits 0 (length (cursors (shared x))) = Some b ->
  inv m (set_thread x (store_owned (shared x) (set_bit bits (Z.of_nat b))) (lock x) j (TJoin b)).
Proof.
  intros Hi Hj <- Hf. destruct (find_free_some _ _ _ _ Hf) as [Hb Hfree].
  rewrite (so_cursors _ _ _ _ (i_ring _ _ Hi)) in Hb.
  assert (gates x b = false) as Hg.
  { destruct (gates x b) eqn:E; [|done]. destruct (i_gates _ _ Hi b E) as (i & d & q & Hd & Hq).
    destruct (owned_slot _ _ _ _ b Hi Hd (released_slot _ _ _ Hq)) as [_ Ho]. congruence. }
  apply (inv_thread m x j (TSub (owned (shared x)))); auto.
  - intros i _ Hne. simpl in *. rewrite set_bit_other by congruence. done.
  - split; [split; [lia|apply set_bit_same]|done].
  - intros i d b' Hne Hd Hb' [= <-]. destruct (owned_slot _ _ _ _ b Hi Hd Hb') as [_ Ho]. congruence.
  - intros b' [Hb'|[= <-]] Hr; [done|]. unfold gates in Hg. simpl in Hr. congruence.
  - done.
Qed.

Lemma inv_lock_steps m x j c c' l' :
  inv m x -> threads x !! j = Some c -> released c = None -> slot_of c' = slot_of c -> released c' = None ->
  (forall b, slot_of c = Some b -> gates x b = false) ->
  l' = lock x \/ lock x = None ->
  thread_ok m (set_thread x (shared x) l' j c') j c' -> inv m (set_thread x (shared x) l' j c').
Proof.
  intros Hi Hj Hrc Hs Hr Hg Hl Hc'. apply (inv_thread m x j c); auto.
  - destruct Hl; auto.
  - intros i d b Hne Hd Hb Hb'. apply Hne. rewrite Hs in Hb'. by eapply (i_excl _ _ Hi).
  - intros b Hin Hb. rewrite Hs in Hin. unfold gates in Hg. rewrite (Hg b) in Hb; [done|tauto].
  - intros b q Hq. congruence.
Qed.

Lemma inv_store_cursor m x j b now start :
  inv m x -> threads x !! j = Some (TNow b now start) ->
  exists s', store_cursor (shared x) b now = OK s' /\ inv m (set_thread x s' (lock x) j (TStored b now start)).
Proof.
  intros Hi Hj. pose proof (i_thread _ _ Hi _ _ Hj) as (Ho & Hg & Hl & Hnow & Hm & Hp).
  unfold store_cursor. rewrite decide_True by (rewrite (so_cursors _ _ _ _ (i_ring _ _ Hi)); apply Ho).
  eexists. split; [done|]. apply (inv_thread m x j (TNow b now start)); auto.
  - simpl. by rewrite length_insert.
  - intros i Hne _. simpl in *. rewrite list_lookup_insert_ne by congruence. done.
  - simpl. splits. apply list_lookup_insert_eq. rewrite (so_cursors _ _ _ _ (i_ring _ _ Hi)). apply Ho.
  - intros i d b' Hne Hd Hb'. by eapply (slot_fresh m x j (TNow b now start)).
  - intros b' Hb' Hr. assert (b' = b) as -> by (destruct Hb' as [Hb'|Hb']; simpl in Hb'; congruence). unfold gates in Hg. simpl in Hr. congruence.
  - done.
  - intros b' Hl'. congruence.
Qed.

Lemma inv_activate m x j b now start :
  inv m x -> threads x !! j = Some (TStored b now start) ->
  inv m (set_thread x (store_readers (shared x) (set_bit (readers (shared x)) (Z.of_nat b))) None j
           (TIdle (mkReader b now false) start [])).
Proof.
  intros Hi Hj. pose proof (i_thread _ _ Hi _ _ Hj) as (Ho & Hg & Hl & Hnow & Hm & Hp & Hc).
  apply (inv_thread m x j (TStored b now start)); auto.
  - intros i Hne _. simpl in *. rewrite set_bit_other by congruence. done.
  - unfold thread_ok, reading_ok, gates. simpl. rewrite Nat.add_0_r, set_bit_same, <- Hnow. splits.
  - intros i d b' Hne Hd Hb'. by eapply (slot_fresh m x j (TStored b now start)).
  - intros b' Hb' _. assert (b' = b) as -> by (destruct Hb' as [Hb'|Hb']; simpl in Hb'; congruence). by eexists.
  - congruence.
Qed.

(** Clearing the gate bit: [suspend] and the first half of the drop. *)
Lemma inv_ungate m x j c c' b :
  inv m x -> threads x !! j = Some c -> slot_of c = Some b -> slot_of c' = Some b -> released c' = None ->
  (forall y : state T, owns y b -> gates y b = false -> thread_ok m y j c') ->
  inv m (set_thread x (store_readers (shared x) (clear_bit (readers (shared x)) (Z.of_nat b))) (lock x) j c').
Proof.
  intros Hi Hj Hs Hs' Hr Hc'. apply (inv_thread m x j c); auto.
  - intros i Hne _. simpl. rewrite clear_bit_other by congruence. done.
  - apply Hc'; [by apply (owned_slot m x j c b)|apply clear_bit_same].
  - intros i d b' Hne Hd Hb'. rewrite Hs'. by apply (slot_fresh m x j c i d b b').
  - intros b' Hb' Hrd. assert (b' = b) as -> by (destruct Hb'; congruence). simpl in Hrd.
    by rewrite clear_bit_same in Hrd.
  - intros b' q Hq. congruence.
Qed.

Lemma inv_unreserve m x j b :
  inv m x -> threads x !! j = Some (TDropping b) ->
  inv m (set_thread x (store_owned (shared x) (clear_bit (owned (shared x)) (Z.of_nat b))) (lock x) j TNone).
Proof.
  intros Hi Hj. pose proof (i_thread _ _ Hi _ _ Hj) as [Ho Hg]. apply (inv_thread m x j (TDropping b)); auto.
  - intros i Hne _. simpl in *. rewrite clear_bit_other by congruence. done.
  - done.
  - intros b' [[= <-]|?] Hr; [|done]. unfold gates in Hg. simpl in Hr. congruence.
  - done.
Qed.

Lemma bc_inv_release m x j rd n start got rel :
  inv m x -> threads x !! j = Some (TRead rd n start got rel) ->
  exists s', store_cursor (shared x) (bit rd) (r rd) = OK s' /\
    inv m (set_thread x s' (lock x) j (TIdle rd start got)).
Proof.
  intros Hi Hj. pose proof (i_thread _ _ Hi _ _ Hj) as [(Ho & Hg & Hc & Hm & Hrel & Hr & Hgot) Hn].
  unfold store_cursor. rewrite decide_True by (rewrite (so_cursors _ _ _ _ (i_ring _ _ Hi)); apply Ho).
  eexists. split; [done|]. apply (inv_thread m x j (TRead rd n start got rel)); auto.
  - simpl. by rewrite length_insert.
  - intros i Hne _. simpl in *. rewrite list_lookup_insert_ne by congruence. done.
  - unfold thread_ok, reading_ok. simpl. splits.
    rewrite list_lookup_insert_eq; [by rewrite Hr|]. rewrite (so_cursors _ _ _ _ (i_ring _ _ Hi)). apply Ho.
  - intros i d b' Hne Hd Hb'. by eapply (slot_fresh m x j (TRead rd n start got rel)).
  - intros b' Hb' _. assert (b' = bit rd) as -> by (destruct Hb' as [Hb'|Hb']; simpl in Hb'; congruence). by eexists.
  - intros b' q [= <- <-] _. exists rel. split; [done|lia].
  - intros b' _. simpl. destruct (decide (bit rd = b')) as [<-|Hne].
    + right. exists (Z.of_nat (start + length got)). split; [|lia].
      rewrite list_lookup_insert_eq; [by rewrite Hr|]. rewrite (so_cursors _ _ _ _ (i_ring _ _ Hi)). apply Ho.
    + left. by rewrite list_lookup_insert_ne.
Qed.

(** The load of [w]: the lapped branch is unreachable. *)
Lemma inv_load_w m x j rd start got max o :
  inv m x -> threads x !! j = Some (TIdle rd start got) ->
  thread_step x j (TIdle rd start got) (ELoadW j max) = Some o -> exists x', o = OK x' /\ inv m x'.
Proof.
  intros Hi Hj. pose proof (i_thread _ _ Hi _ _ Hj) as (Ho & Hg & Hc & Hm & Hrel & Hr & Hgot).
  pose proof (C_bounds k Hk) as HC. pose proof (i_min _ _ Hi) as Hmin. pose proof (i_count _ _ Hi) as Hcnt.
  simpl. rewrite Hr, (i_w _ _ Hi), (so_cap _ _ _ _ (i_ring _ _ Hi)), wrapping_sub_cursor by lia.
  destruct (Z.eqb _ _); [intros [= <-]; by exists x|].
  destruct (Z.ltb_spec C (Z.of_nat (pubd x) - Z.of_nat (start + length got))) as [|Hlag]; [lia|].
  intros [= <-]. eexists. split; [done|]. apply (inv_local m x j (TIdle rd start got)); auto.
  - right. by eexists _, _.
  - done.
  - unfold thread_ok, reading_ok. simpl. splits.
Qed.

Lemma bc_inv_read m x j rd n start got rel o :
  inv m x -> threads x !! j = Some (TRead rd (S n) start got rel) ->
  thread_step x j (TRead rd (S n) start got rel) (ERead j) = Some o -> exists x', o = OK x' /\ inv m x'.
Proof.
  intros Hi Hj. pose proof (i_thread _ _ Hi _ _ Hj) as [(Ho & Hg & Hc & Hm & Hrel & Hr & Hgot) Hn].
  pose proof (i_min _ _ Hi) as Hmin. pose proof (i_count _ _ Hi) as Hcnt.
  set (p := (start + length got)%nat) in *.
  destruct (lookup_lt_is_Some_2 (log x) p ltac:(lia)) as [v Hv].
  simpl. rewrite Hr, (read_slot_spec k Hk max_readers (shared x) (log x) p v (i_ring _ _ Hi) ltac:(lia) Hv).
  cbn [mbind outcome_bind]. intros [= <-]. eexists. split; [done|].
  apply (inv_local m x j (TRead rd (S n) start got rel)); auto.
  - right. by eexists _, _.
  - done.
  - unfold thread_ok, reading_ok. simpl. rewrite length_app, wrapping_add_cursor. simpl. fold p.
    replace (start + (length got + 1))%nat with (p + 1)%nat by lia. splits.
    rewrite Nat.add_1_r, (take_S_r _ _ v) by (by rewrite lookup_drop). by rewrite <- Hgot.
Qed.

Lemma thread_step_ok m x j c e o :
  inv m x -> threads x !! j = Some c -> thread_step x j c e = Some o -> thread_of e = Some j ->
  exists x', o = OK x' /\ inv m x'.
Proof.
  intros Hi Hj Hst He. pose proof (i_thread _ _ Hi j c Hj) as Hc.
  destruct c as [|bits|b|b|b now start|b now start|rd start got|rd n start got rel|rd|b];
    destruct e; try (destruct n); try discriminate Hst; injection He as ->.
  - injection Hst as <-. eexists. split; [done|]. by apply (inv_lock_steps m x j TNone); auto.
  - simpl in Hst. destruct (find_free bits 0 _) as [b|] eqn:Ef; cycle 1.
    { injection Hst as <-. eexists. split; [done|]. by apply (inv_lock_steps m x j (TSub bits)); auto. }
    destruct (Z.eqb_spec (owned (shared x)) bits) as [Heq|]; injection Hst as <-; (eexists; split; [done|]).
    + by apply (inv_reserve m x j b bits).
    + by apply (inv_lock_steps m x j (TSub bits)); auto.
  - simpl in Hst. destruct (lock x) eqn:El; [done|]. injection Hst as <-. eexists. split; [done|].
    destruct Hc as [Ho Hg]. apply (inv_lock_steps m x j (TJoin b)); auto; [by intros b' [= <-]|done].
  - injection Hst as <-. eexists. split; [done|]. destruct Hc as (Ho & Hg & Hl).
    apply (inv_lock_steps m x j (TLocked b)); auto; [by intros b' [= <-]|]. simpl. splits; [apply (i_w _ _ Hi)|apply (i_min _ _ Hi)].
  - simpl in Hst. destruct (inv_store_cursor m x j b now start Hi Hj) as (s' & Hs & Hi').
    rewrite Hs in Hst. injection Hst as <-. by eexists.
  - injection Hst as <-. eexists. split; [done|]. by apply inv_activate.
  - by eapply inv_load_w.
  - injection Hst as <-. eexists. split; [done|]. by eapply inv_ungate.
  - injection Hst as <-. eexists. split; [done|]. by eapply inv_ungate.
  - by eapply bc_inv_read.
  - simpl in Hst. destruct (bc_inv_release m x j rd _ start got rel Hi Hj) as (s' & Hs & Hi').
    rewrite Hs in Hst. injection Hst as <-. by eexists.
  - simpl in Hst. destruct (bc_inv_release m x j rd _ start got rel Hi Hj) as (s' & Hs & Hi').
    rewrite Hs in Hst. injection Hst as <-. by eexists.
  - injection Hst as <-. eexists. split; [done|]. destruct Hc as [Ho Hg].
    apply (inv_lock_steps m x j (TSuspended rd)); auto; [by intros b' [= <-]|done].
  - injection Hst as <-. eexists. split; [done|]. by eapply inv_ungate.
  - injection Hst as <-. eexists. split; [done|]. by apply inv_unreserve.
Qed.

(** ** The publisher's steps *)

Lemma inv_prog m x (a : ppc T) : inv m x -> prog_ok m (set_prog x a) -> inv m (set_prog x a).
Proof. intros [] Hp. by split. Qed.

Lemma clean_count m x : inv m x -> dirty x = false -> length (log x) = pubd x.
Proof.
  intros Hi Hd. pose proof (i_min _ _ Hi). pose proof (i_count _ _ Hi). pose proof (C_bounds k Hk).
  unfold dirty in Hd. apply negb_false_iff in Hd.
  rewrite (i_w _ _ Hi), (i_pub _ _ Hi), cursor_eqb in Hd by lia. lia.
Qed.

Lemma inv_scan_start m x v todo :
  inv m x -> lock x = None -> dirty x = false ->
  inv m (mkState (shared x) (Some HPublisher) (publ x)
    (PScan (v :: todo) (readers (shared x)) 0 (pub_w (publ x)) 0) (threads x) (log x) (pubd x)).
Proof.
  intros Hi Hl Hd. pose proof (clean_count m x Hi Hd) as Hlen.
  pose proof Hi as [Hring Hcnt Hw Hpub Hcache Hmin Hprog Hth Hex Hg]. split; try done.
  - unfold prog_ok, scan_ok. simpl. split; [done|]. split; [done|]. exists (Z.of_nat (pubd x)).
    rewrite Hpub, Hlen. splits.
    + intros b Hb Hbm. destruct (Hg b Hb) as (j & c & q & Hj & Hq).
      destruct (thread_ok_released _ _ _ _ _ _ (Hth j c Hj) Hq) as (_ & _ & ? & ? & ?).
      exists (Z.of_nat q). splits.
    + intros j c b q Hj Hq. destruct (thread_ok_released _ _ _ _ _ _ (Hth j c Hj) Hq) as (_ & Hgb & _).
      split; [done|lia].
  - intros j c Hj. apply (thread_ok_frame m x); try done; [by apply Hth|]. congruence.
Qed.

Lemma inv_scan m x todo bits i mn lag cursor :
  inv m x -> prog x = PScan todo bits i mn lag -> cursors (shared x) !! i = Some cursor ->
  inv m (set_prog x
    (if has_bit bits i && (lag <? wrapping_sub (pub_w (publ x)) cursor)
     then PScan todo bits (S i) cursor (wrapping_sub (pub_w (publ x)) cursor)
     else PScan todo bits (S i) mn lag)).
Proof.
  intros Hi Hp Hc. apply inv_prog; [done|]. pose proof (i_prog _ _ Hi) as Hs. unfold prog_ok in Hs.
  rewrite Hp in Hs. destruct Hs as (HL & Hlen & M & HM1 & HM2 & HM3 & HM4 & HM5).
  pose proof (C_bounds k Hk) as HC. pose proof (i_min _ _ Hi) as Hmin.
  assert (i < max_readers)%nat as Hi'.
  { rewrite <- (so_cursors _ _ _ _ (i_ring _ _ Hi)). by eapply lookup_lt_Some. }
  assert (forall j c q, threads x !! j = Some c -> released c = Some (i, q) ->
    forall q', cursor = q' mod USIZE -> m <= q' <= Z.of_nat (pubd x) -> q' = Z.of_nat q) as Hsame.
  { intros j c q Hj Hq q' Hq' Hr'.
    destruct (thread_ok_released _ _ _ _ _ _ (i_thread _ _ Hi j c Hj) Hq) as (_ & _ & Hcq & Hmq & Hqp).
    rewrite Hcq in Hc. injection Hc as Hc. rewrite Hq' in Hc. symmetry in Hc.
    change USIZE with (2 ^ 64) in Hc. apply (mod_inj (2 ^ 64)) in Hc; [done|done|].
    change (2 ^ 64) with USIZE. lia. }
  rewrite has_bit_spec. unfold prog_ok. destruct (Z.testbit bits (Z.of_nat i)) eqn:Hb; simpl.
  - destruct (HM4 i Hb Hi') as (q & Hq & Hqr). rewrite Hq in Hc. injection Hc as <-.
    rewrite (i_pub _ _ Hi), Hlen, wrapping_sub_cursor by lia.
    destruct (Z.ltb_spec lag (Z.of_nat (pubd x) - q)); simpl; (split; [done|]; split; [done|]).
    + exists q. simpl. splits. intros j c b q' Hj Hq'. destruct (HM5 j c b q' Hj Hq') as [Hbb Hlow]. split; [done|].
      intros Hbi. destruct (decide (b = i)) as [->|]; [|specialize (Hlow ltac:(lia)); lia].
      by rewrite (Hsame j c q' Hj Hq' q eq_refl ltac:(lia)).
    + exists M. simpl. splits. intros j c b q' Hj Hq'. destruct (HM5 j c b q' Hj Hq') as [Hbb Hlow]. split; [done|].
      intros Hbi. destruct (decide (b = i)) as [->|]; [|apply Hlow; lia].
      rewrite <- (Hsame j c q' Hj Hq' q eq_refl ltac:(lia)). lia.
  - split; [done|]. split; [done|]. exists M. simpl. splits. intros j c b q' Hj Hq'.
    destruct (HM5 j c b q' Hj Hq') as [Hbb Hlow]. split; [done|].
    intros Hbi. destruct (decide (b = i)) as [->|]; [congruence|apply Hlow; lia].
Qed.

(** With the scan complete, the found minimum replaces the cached one. *)
Lemma inv_scanned m x todo bits mn lag :
  inv m x -> prog x = PScan todo bits (length (cursors (shared x))) mn lag ->
  exists M, inv M (mkState (shared x) None (mkPublisher (pub_w (publ x)) mn) (PGate todo)
                     (threads x) (log x) (pubd x)).
Proof.
  intros Hi Hp. pose proof (i_prog _ _ Hi) as Hs. unfold prog_ok in Hs.
  rewrite Hp in Hs. destruct Hs as (HL & Hlen & M & HM1 & HM2 & HM3 & HM4 & HM5). exists M.
  pose proof Hi as [Hring Hcnt Hw Hpub Hcache Hmin Hprog Hth Hex Hg]. split; simpl; try done; [lia|].
  intros j c Hj. pose proof (Hth j c Hj) as Hc.
  assert (forall b q, released c = Some (b, q) -> M <= Z.of_nat q) as Hlow.
  { intros b q Hq. destruct (HM5 j c b q Hj Hq) as [_ Hlow]. apply Hlow.
    rewrite (so_cursors _ _ _ _ Hring). by destruct (thread_ok_released _ _ _ _ _ _ Hc Hq). }
  destruct c as [|b'|b|b|b now start|b now start|rd start got|rd n start got rel|rd|b]; simpl in Hc |- *;
    try exact Hc; try (destruct Hc as (_ & _ & Hc & _); congruence).
  - destruct Hc as (_ & _ & Hc). congruence.
  - destruct Hc as (? & ? & ? & _ & ?). split; [done|]. split; [done|]. split; [done|].
    split; [by apply (Hlow (bit rd))|done].
  - destruct Hc as [(? & ? & ? & _ & ?) ?]. split; [|done]. split; [done|]. split; [done|]. split; [done|].
    split; [by apply (Hlow (bit rd))|done].
Qed.

(** A slot write and a publishing store only extend what a reader may see. *)
Lemma thread_ok_grow m x x' j c (l : list T) :
  thread_ok m x j c -> (pubd x <= length (log x))%nat -> log x' = log x ++ l -> (pubd x <= pubd x')%nat ->
  lock x' = lock x -> owned (shared x') = owned (shared x) -> readers (shared x') = readers (shared x) ->
  cursors (shared x') = cursors (shared x) -> thread_ok m x' j c.
Proof.
  intros Hc Hcnt Hlog Hp Hl Ho Hr Hcur.
  assert (forall start (got : list T), (start + length got <= pubd x)%nat ->
    got = take (length got) (drop start (log x)) -> got = take (length got) (drop start (log x'))) as Hgot.
  { intros start got Hs Hg. rewrite Hlog, drop_app_le, take_app_le; [done|rewrite length_drop; lia|lia]. }
  assert (forall b, owns x b -> owns x' b) as Hown by (unfold owns; by rewrite Ho).
  assert (forall b, gates x' b = gates x b) as Hg by (unfold gates; by rewrite Hr).
  assert (forall rd start got rel, reading_ok m x rd start got rel -> reading_ok m x' rd start got rel) as Hread.
  { intros rd start got rel (? & ? & ? & ? & [? ?] & ? & ?). unfold reading_ok. rewrite Hg, Hcur.
    do 4 (split; [by auto|]). split; [lia|]. split; [done|]. by apply Hgot. }
  destruct c as [|b'|b|b|b now start|b now start|rd start got|rd n start got rel|rd|b]; simpl in Hc |- *;
    rewrite ?Hg, ?Hl, ?Hcur; try done.
  - destruct Hc. auto.
  - destruct Hc. auto.
  - destruct Hc as (? & ? & ? & ? & ? & ?). do 5 (split; [by auto|]). lia.
  - destruct Hc as (? & ? & ? & ? & ? & ? & ?). do 5 (split; [by auto|]). split; [lia|done].
  - auto.
  - destruct Hc. split; [auto|lia].
  - destruct Hc. auto.
  - destruct Hc. auto.
Qed.

Lemma bc_inv_write m x v todo :
  inv m x -> prog x = PWrite (v :: todo) ->
  exists old s, write_slot (shared x) (pub_w (publ x)) v = OK (old, s) /\
    inv m (mkState s (lock x) (mkPublisher (wrapping_add (pub_w (publ x)) 1) (min_cache (publ x)))
             (PGate todo) (threads x) (log x ++ [v]) (pubd x)).
Proof.
  intros Hi Hp. pose proof Hi as [Hring Hcnt Hw Hpub Hcache Hmin Hprog Hth Hex Hg].
  unfold prog_ok in Hprog. rewrite Hp in Hprog.
  destruct (write_slot_spec k Hk max_readers (shared x) (log x) v Hring) as (old & b & Hws & Hring' & _).
  rewrite Hpub, Hws. exists old. eexists. split; [done|]. split; simpl; try done.
  - rewrite length_app. lia.
  - rewrite length_app. simpl. rewrite wrapping_add_cursor. f_equal. lia.
  - rewrite length_app. simpl. lia.
  - intros j c Hj. by apply (thread_ok_grow m x _ j c [v] (Hth j c Hj)).
Qed.

Lemma bc_inv_publish m x todo :
  inv m x -> prog x = PGate todo ->
  inv m (mkState (store_w (shared x) (pub_w (publ x))) (lock x) (publ x) (prog x) (threads x) (log x)
           (length (log x))).
Proof.
  intros Hi Hp. pose proof Hi as [Hring Hcnt Hw Hpub Hcache Hmin Hprog Hth Hex Hg]. split; simpl; try done.
  - by destruct Hring.
  - lia.
  - unfold prog_ok. simpl. by rewrite Hp.
  - intros j c Hj. apply (thread_ok_grow m x _ j c [] (Hth j c Hj)); try done. simpl. by rewrite app_nil_r.
Qed.

Lemma pub_step_ok m x e o :
  inv m x -> pub_step x e = Some o -> exists m' x', o = OK x' /\ inv m' x'.
Proof.
  intros Hi. pose proof (C_bounds k Hk) as HC. pose proof (i_min _ _ Hi) as Hmin.
  pose proof (i_count _ _ Hi) as Hcnt. unfold pub_step.
  destruct (prog x) as [|todo|todo bits i mn lag|todo] eqn:Hp.
  - destruct e; try done. intros [= <-]. exists m. eexists. split; [done|]. by apply inv_prog.
  - destruct e; try (by destruct todo).
    + destruct todo as [|v todo]; [done|]. destruct (gated (shared x) (publ x)) eqn:Hg.
      * destruct (dirty x) eqn:Hd; [done|]. destruct (lock x) eqn:Hl; [done|]. intros [= <-].
        exists m. eexists. split; [done|]. by apply inv_scan_start.
      * intros [= <-]. exists m. eexists. split; [done|]. apply inv_prog; [done|]. unfold prog_ok. simpl.
        unfold gated in Hg. rewrite (i_pub _ _ Hi), (i_cache _ _ Hi), wrapping_sub_cursor in Hg by lia.
        rewrite (so_cap _ _ _ _ (i_ring _ _ Hi)) in Hg. apply Z.leb_gt in Hg. lia.
    + intros Ho. assert (o = OK (mkState (store_w (shared x) (pub_w (publ x))) (lock x) (publ x) (PGate todo)
        (threads x) (log x) (length (log x)))) as -> by (destruct todo; by injection Ho).
      exists m. eexists. split; [done|]. rewrite <- Hp. by eapply bc_inv_publish.
    + intros Ho. assert (o = OK (set_prog x PIdle)) as -> by (destruct todo, (dirty x); by simplify_eq).
      exists m. eexists. split; [done|]. by apply inv_prog.
  - destruct e; try done.
    + destruct (cursors (shared x) !! i) as [cursor|] eqn:Hc; [|done]. intros [= <-]. exists m. eexists.
      split; [done|]. by apply inv_scan.
    + case_decide as Hd; [|done]. intros [= <-]. subst i.
      destruct (inv_scanned m x todo bits mn lag Hi Hp) as [M HM]. exists M. by eexists.
  - destruct todo as [|v todo]; [by destruct e|]. destruct e; try done. intros [= <-].
    destruct (bc_inv_write m x v todo Hi Hp) as (old & s & -> & Hi'). cbn [mbind outcome_bind]. exists m. by eexists.
Qed.

Lemma step_inv m x e o : inv m x -> step x e = Some o -> exists m' x', o = OK x' /\ inv m' x'.
Proof.
  intros Hi. unfold step. destruct (thread_of e) as [j|] eqn:He; [|by apply (pub_step_ok m)].
  destruct (threads x !! j) as [c|] eqn:Hj; [|done]. intros Hst.
  destruct (thread_step_ok m x j c e o Hi Hj Hst He) as (x' & ? & ?). by exists m, x'.
Qed.

Lemma bc_inv_initial size_T capacity n (s : Shared T) p rd :
  open size_T capacity max_readers = OK (s, p, rd) -> cap s = C -> inv 0 (initial s p rd n).
Proof.
  intros Ho Hc.
  assert (bopen size_T capacity max_readers = OK (mkWorld s (Some p) [Some rd] [])) as Hb by (unfold bopen; by rewrite Ho).
  destruct (open_spec _ _ _ _ Hb) as (k' & Hk' & Hc' & _ & _ & Hx). simpl in Hc'. rewrite Hc in Hc'.
  assert (k' = k) as -> by (apply (Z.pow_inj_r 2); lia).
  destruct Hx as (Hs & Hw & _ & Hm & _ & _ & Hpw & Hpc). simpl in *. pose proof (C_bounds k Hk) as HC.
  destruct (members_lookup max_readers s 0 0 _ _ 0 rd Hm eq_refl) as (ap & [= <-] & Hh).
  destruct Hh as (_ & Hr & Hbit & Hown & Hgate & _ & Hcur). destruct (Hcur eq_refl) as [Hcur' _]. simpl in Hr.
  assert (forall j c, (TIdle rd 0 [] :: replicate n TNone) !! j = Some c -> (j = 0%nat /\ c = TIdle rd 0 []) \/ c = @TNone T) as Hth.
  { intros [|j] c Hj; simpl in Hj; [left; by injection Hj as <-|]. right. by apply lookup_replicate in Hj as [-> _]. }
  split; simpl; try done; try lia.
  - intros j c Hj. destruct (Hth j c Hj) as [[-> ->]| ->]; [|done]. unfold thread_ok, reading_ok, owns, gates.
    simpl. rewrite Hcur', Hr. splits.
  - intros i j c d b Hi Hj Hbc Hbd. destruct (Hth i c Hi) as [[-> ->]| ->]; [|done].
    by destruct (Hth j d Hj) as [[-> ->]| ->].
  - intros b Hb0. destruct (mo_readers _ _ _ _ _ _ Hm b Hb0) as (h & rd' & Hh & <-).
    destruct h as [|h]; [|done]. injection Hh as <-. exists 0%nat. by eexists _, _.
Qed.
End invariant.

Lemma bc_reachable_inv {T} size_T capacity max_readers n (x : state T) :
  reachable size_T capacity max_readers n x ->
  exists k m, 0 <= k < 64 /\ inv k max_readers m x.
Proof.
  induction 1 as [s p rd Ho|x e x' Hr (k & m & Hk & Hi) Hs].
  - assert (bopen size_T capacity max_readers = OK (mkWorld s (Some p) [Some rd] [])) as Hb by (unfold bopen; by rewrite Ho).
    destruct (open_spec _ _ _ _ Hb) as (k & Hk & Hc & _). exists k, 0. split; [done|]. by apply (bc_inv_initial k Hk _ size_T capacity).
  - destruct (step_inv k Hk max_readers m x e _ Hi Hs) as (m' & y & [= <-] & Hi'). by exists k, m'.
Qed.

(** ** Properties *)

(** The log position that a reader's next slot read concerns. *)
Definition read_position {T} (c : tpc T) : option nat :=
  match c with TRead _ (S _) start got _ => Some (start + length got)%nat | _ => None end.

(** C21: in every interleaving of one publisher with any number of joining,
    reading, suspending and leaving readers, no access panics or touches a slot
    that owns no value, and the slot the publisher is about to overwrite is
    never one that a reader is about to read. *)
Theorem broadcast_no_race {T} (size_T capacity : Z) (max_readers n : nat) (x : state T) :
  reachable size_T capacity max_readers n x ->
  (forall e o, step x e = Some o -> exists x', o = OK x') /\
  (forall v todo j c q, prog x = PWrite (v :: todo) -> threads x !! j = Some c -> read_position c = Some q ->
     Z.land (pub_w (publ x)) (mask (shared x)) <> Z.land (Z.of_nat q mod USIZE) (mask (shared x))).
Proof.
  intros Hr. destruct (bc_reachable_inv _ _ _ _ _ Hr) as (k & m & Hk & Hi). split.
  - intros e o Hs. destruct (step_inv k Hk max_readers m x e o Hi Hs) as (m' & x' & -> & _). by exists x'.
  - intros v todo j c q Hp Hj Hq. pose proof (C_bounds k Hk) as HC.
    pose proof (i_prog _ _ _ _ Hi) as Hw. unfold prog_ok in Hw. rewrite Hp in Hw.
    pose proof (i_thread _ _ _ _ Hi j c Hj) as Hc. pose proof (i_count _ _ _ _ Hi) as Hcnt.
    destruct c as [| | | | | |?|rd [|n'] start got rel| |]; try done. injection Hq as <-.
    destruct Hc as [(_ & _ & _ & Hm & Hrel & _) Hn].
    rewrite (i_pub _ _ _ _ Hi), (so_mask _ _ _ _ (i_ring _ _ _ _ Hi)), !slot_index by done.
    intros Heq. apply mod_inj in Heq; lia.
Qed.

Definition race_start : state nat :=
  match open 8 2 2 with
  | OK (s, p, rd) => initial s p rd 1
  | _ => mkState (mkShared [] 0 0 0 0 0 [] true) None (mkPublisher 0 0) PIdle [] [] 0
  end.

(** Thread 1 joins while the publisher fills the ring and scans; thread 0 is in
    the middle of reading when the publisher is about to write. *)
Definition race_schedule : list (event nat) :=
  [ELoadOwned 1; ECall [7; 8; 9]; EGate; EWrite; ECas 1; EGate; EWrite; EPublish; ELock 1; ELoadNow 1;
   ELoadW 0 1; ERead 0; ERelease 0; EStoreCursor 1; EActivate 1; EGate; EScan; EScan; EScanned;
   EGate; ELoadW 0 5]%nat.

Definition race_state : state nat :=
  match run race_start race_schedule with Some x => x | None => race_start end.

Lemma bc_run_reachable {T} size_T capacity max_readers n (x : state T) es x' :
  reachable size_T capacity max_readers n x -> run x es = Some x' -> reachable size_T capacity max_readers n x'.
Proof.
  revert x. induction es as [|e es IH]; intros x Hr; simpl; [by intros [= <-]|].
  destruct (step x e) as [[y| |]|] eqn:E; try done. intros Hrun. apply (IH y); [|done]. by eapply reach_step.
Qed.

Lemma bc_race_state_reachable : reachable 8 2 2 1 race_state.
Proof.
  apply (bc_run_reachable 8 2 2 1 race_start race_schedule).
  - apply (reach_init 8 2 2 1 (mkShared [None; None] 1 2 0 1 1 [0; 0] false) (mkPublisher 0 0) (mkReader 0 0 false)).
    reflexivity.
  - vm_compute. reflexivity.
Defined.

Lemma broadcast_no_race_witness :
  prog race_state = PWrite [9%nat] /\ read_position <$> threads race_state = [Some 1%nat; None] /\
  Z.land (pub_w (publ race_state)) (mask (shared race_state)) <> Z.land (1 mod USIZE) (mask (shared race_state)).
Proof.
  split; [vm_compute; reflexivity|]. split; [vm_compute; reflexivity|].
  apply (proj2 (broadcast_no_race 8 2 2 1 race_state bc_race_state_reachable) 9%nat [] 0%nat
    (TRead (mkReader 0 1 false) 1 0 [7%nat] 1) 1%nat); vm_compute; reflexivity.
Defined.

(** C22: in every interleaving a reader never falls more than one ring behind
    (the defensive skip is unreachable), and what it has read since it joined is
    exactly the published values from its joining position on, in order. *)
Theorem broadcast_conc_log {T} (size_T capacity : Z) (max_readers n j : nat) (x : state T) (rd : Reader)
    (start : nat) (got : list T) :
  reachable size_T capacity max_readers n x -> threads x !! j = Some (TIdle rd start got) ->
  got = take (length got) (drop start (log x)) /\ (start + length got <= pubd x)%nat /\
  wrapping_sub (w (shared x)) (r rd) = Z.of_nat (pubd x) - Z.of_nat (start + length got) /\
  wrapping_sub (w (shared x)) (r rd) <= cap (shared x).
Proof.
  intros Hr Hj. destruct (bc_reachable_inv _ _ _ _ _ Hr) as (k & m & Hk & Hi). pose proof (C_bounds k Hk) as HC.
  pose proof (i_thread _ _ _ _ Hi j _ Hj) as (_ & _ & _ & Hm & Hrel & Hrd & Hgot).
  pose proof (i_count _ _ _ _ Hi) as Hcnt. pose proof (i_min _ _ _ _ Hi) as Hmin.
  rewrite (i_w _ _ _ _ Hi), Hrd, (so_cap _ _ _ _ (i_ring _ _ _ _ Hi)), wrapping_sub_cursor by lia. splits.
Qed.

Lemma broadcast_conc_log_witness :
  exists rd, threads race_state !! 1%nat = Some (TIdle rd 2 []) /\
    wrapping_sub (w (shared race_state)) (r rd) = 0.
Proof.
  exists (mkReader 1 2 false). split; [vm_compute; reflexivity|].
  exact (proj1 (proj2 (proj2 (broadcast_conc_log 8 2 2 1 1 race_state (mkReader 1 2 false) 2 []
    bc_race_state_reachable ltac:(vm_compute; reflexivity))))).
Defined.

End broadcast_conc.
