(* ===== verification/IpcFrame.v ===== *)
(** * Process-stream frames and checksums: [src/src/ipc/stream.rs]

    The fixed-width descriptor ([Frame]) that two processes exchange through
    shared memory, its 48-byte encoding, and the payload checksum in its scalar
    and AVX2 forms. Bytes are integers in [[0, 256)]. *)

From AAC_tactics Require Import AAC.
From stdpp Require Import prelude strings.
From S2P Require Import Prelude.
Local Open Scope Z_scope.
Local Open Scope prescient_scope.

Module frame.

(** [io::Error] by kind, with its message. *)
Inductive io_error : Type :=
| InvalidInput (message : string)
| InvalidData (message : string)
| AlreadyExists
| TimedOut
| UnexpectedEof
| NotFound
| WriteZero
| OtherIo.

Abbreviation io A := (result A io_error).

(** ** Constants *)

Definition ARENA_MAGIC : Z := 0x50534152.
Definition FRAME_MAGIC : Z := 0x50535354.
Definition VERSION : Z := 2.
Definition FRAME_LEN : Z := 48.
Definition STREAM_FLAG : Z := 0x40.

(** ** Little-endian words *)

Definition is_byte (b : Z) : Prop := 0 <= b < 256.

(** [to_le_bytes] of an [8 * n]-bit word, and [from_le_bytes]. *)
Fixpoint to_le (n : nat) (v : Z) : list Z :=
  match n with
  | O => []
  | S n' => v mod 256 :: to_le n' (v / 256)
  end.

Fixpoint from_le (l : list Z) : Z :=
  match l with
  | [] => 0
  | b :: l' => b + 256 * from_le l'
  end.

(** [bytes[off..off + n]]. *)
Definition slice (bytes : list Z) (off n : nat) : list Z := take n (drop off bytes).

(** ** [Kind], [StreamFlow] and [Frame] *)

Inductive Kind : Type := Data | Released | Complete.

#[export] Instance Kind_eq_dec : EqDecision Kind.
Proof. solve_decision. Defined.

Definition Kind_as_u8 (k : Kind) : Z :=
  match k with Data => 1 | Released => 2 | Complete => 3 end.

Definition Kind_try_from (value : Z) : io Kind :=
  if value =? 1 then Ok Data
  else if value =? 2 then Ok Released
  else if value =? 3 then Ok Complete
  else Err (InvalidData "unknown stream frame kind").

Inductive StreamFlow : Type := ParentToWorker | WorkerToParent.

Definition StreamFlow_as_u8 (f : StreamFlow) : Z :=
  match f with ParentToWorker => 1 | WorkerToParent => 2 end.

Definition StreamFlow_try_from (value : Z) : io StreamFlow :=
  if value =? 1 then Ok ParentToWorker
  else if value =? 2 then Ok WorkerToParent
  else Err (InvalidInput "unknown process stream flow").

Definition frame_flags (f : StreamFlow) : Z := Z.lor STREAM_FLAG (StreamFlow_as_u8 f).

Record Frame := mkFrame {
  kind : Kind;
  flags : Z;
  transfer_id : Z;
  offset : Z;
  slot : Z;
  generation : Z;
  len : Z;
  checksum : Z
}.

#[export] Instance Frame_eq_dec : EqDecision Frame.
Proof. solve_decision. Defined.

(** [bytes[off..].copy_from_slice(src)] on a fixed-size buffer. *)
Definition copy_at (off : nat) (src bytes : list Z) : list Z := list_inserts off src bytes.

Definition encode (f : Frame) : list Z :=
  let bytes := replicate 48 0 in
  let bytes := copy_at 0 (to_le 4 FRAME_MAGIC) bytes in
  let bytes := copy_at 4 (to_le 2 VERSION) bytes in
  let bytes := copy_at 6 [Kind_as_u8 (kind f)] bytes in
  let bytes := copy_at 7 [flags f] bytes in
  let bytes := copy_at 8 (to_le 8 (transfer_id f)) bytes in
  let bytes := copy_at 16 (to_le 8 (offset f)) bytes in
  let bytes := copy_at 24 (to_le 4 (slot f)) bytes in
  let bytes := copy_at 28 (to_le 4 (generation f)) bytes in
  let bytes := copy_at 32 (to_le 4 (len f)) bytes in
  copy_at 40 (to_le 8 (checksum f)) bytes.

(** [bytes] is a [[u8; FRAME_LEN]]. *)
Definition decode (bytes : list Z) : io Frame :=
  if negb (from_le (slice bytes 0 4) =? FRAME_MAGIC)
     || negb (from_le (slice bytes 4 2) =? VERSION)
     || negb (bool_decide (slice bytes 36 4 = [0; 0; 0; 0]))
  then Err (InvalidData "stream frame header is invalid")
  else
    k ←? Kind_try_from (nth 6 bytes 0);
    Ok (mkFrame k (nth 7 bytes 0) (from_le (slice bytes 8 8)) (from_le (slice bytes 16 8))
          (from_le (slice bytes 24 4)) (from_le (slice bytes 28 4)) (from_le (slice bytes 32 4))
          (from_le (slice bytes 40 8))).

(** The field widths of the struct. *)
Definition frame_ok (f : Frame) : Prop :=
  is_byte (flags f) /\ 0 <= transfer_id f < USIZE /\ 0 <= offset f < USIZE /\ 0 <= slot f < U32 /\
  0 <= generation f < U32 /\ 0 <= len f < U32 /\ 0 <= checksum f < USIZE.

(** ** Checksums *)

Definition seeds : list Z :=
  [0xCBF29CE484222325; 0x9E3779B97F4A7C15; 0xD1B54A32D192ED03; 0xA0761D6478BD642F].

Definition finalize_checksum (sums : list Z) (tail : Z) : Z :=
  let sum := Z.lxor (Z.lxor (Z.lxor (Z.lxor (nth 0 sums 0) (rotate_left (nth 1 sums 0) 13))
                       (rotate_left (nth 2 sums 0) 29)) (rotate_left (nth 3 sums 0) 47)) tail in
  let sum := Z.lxor sum (Z.shiftr sum 30) in
  let sum := wrapping_mul sum 0xBF58476D1CE4E5B9 in
  let sum := Z.lxor sum (Z.shiftr sum 27) in
  let sum := wrapping_mul sum 0x94D049BB133111EB in
  Z.lxor sum (Z.shiftr sum 31).

(** One 32-byte chunk into the four lanes. *)
Definition add_chunk (sums chunk : list Z) : list Z :=
  imap (fun lane sum =>
    let word := from_le (slice chunk (lane * 8) 8) in
    wrapping_add sum (Z.lxor word (Z.shiftr word (Z.of_nat lane + 1)))) sums.

Fixpoint lanes_loop (n : nat) (sums payload : list Z) : list Z :=
  match n with
  | O => sums
  | S n' => lanes_loop n' (add_chunk sums (take 32 payload)) (drop 32 payload)
  end.

(** [for chunk in remainder.chunks(8)]: the last chunk is padded with zeros. *)
Fixpoint tail_loop (fuel : nat) (tail : Z) (remainder : list Z) : Z :=
  match fuel, remainder with
  | S fuel', _ :: _ =>
      let chunk := take 8 remainder in
      let word := chunk ++ replicate (8 - length chunk) 0 in
      tail_loop fuel' (wrapping_add tail (from_le word)) (drop 8 remainder)
  | _, _ => tail
  end.

Definition checksum_scalar (payload : list Z) : Z :=
  let chunks := (length payload / 32)%nat in
  let remainder := drop (chunks * 32) payload in
  finalize_checksum (lanes_loop chunks seeds payload) (tail_loop (length remainder) 0 remainder).

(** The vector operations the AVX2 path uses, on four 64-bit lanes, lane 0 first. *)
Definition mm256_add_epi64 (a b : list Z) : list Z := zip_with wrapping_add a b.
Definition mm256_xor_si256 (a b : list Z) : list Z := zip_with Z.lxor a b.
Definition mm256_srlv_epi64 (a n : list Z) : list Z := zip_with Z.shiftr a n.
Definition mm256_loadu_si256 (payload : list Z) (off : nat) : list Z :=
  [from_le (slice payload off 8); from_le (slice payload (off + 8) 8);
   from_le (slice payload (off + 16) 8); from_le (slice payload (off + 24) 8)].

(** [_mm256_set_epi64x(4, 3, 2, 1)]: arguments are highest lane first. *)
Definition shifts : list Z := [1; 2; 3; 4].

Definition accumulate (sums words : list Z) : list Z :=
  mm256_add_epi64 sums (mm256_xor_si256 words (mm256_srlv_epi64 words shifts)).

Fixpoint avx2_wide (fuel : nat) (payload : list Z) (full_bytes off : nat) (s0 s1 s2 s3 : list Z)
    : nat * list Z * list Z * list Z * list Z :=
  match fuel with
  | O => (off, s0, s1, s2, s3)
  | S fuel' =>
      if decide (off + 128 <= full_bytes)%nat then
        avx2_wide fuel' payload full_bytes (off + 128)
          (accumulate s0 (mm256_loadu_si256 payload off))
          (accumulate s1 (mm256_loadu_si256 payload (off + 32)))
          (accumulate s2 (mm256_loadu_si256 payload (off + 64)))
          (accumulate s3 (mm256_loadu_si256 payload (off + 96)))
      else (off, s0, s1, s2, s3)
  end.

Fixpoint avx2_narrow (fuel : nat) (payload : list Z) (full_bytes off : nat) (s0 : list Z) : list Z :=
  match fuel with
  | O => s0
  | S fuel' =>
      if decide (off < full_bytes)%nat then
        avx2_narrow fuel' payload full_bytes (off + 32) (accumulate s0 (mm256_loadu_si256 payload off))
      else s0
  end.

Definition checksum_avx2 (payload : list Z) : Z :=
  let full_bytes := (length payload / 32 * 32)%nat in
  let '(off, s0, s1, s2, s3) :=
    avx2_wide (length payload) payload full_bytes 0 seeds [0; 0; 0; 0] [0; 0; 0; 0] [0; 0; 0; 0] in
  let s0 := avx2_narrow (length payload) payload full_bytes off s0 in
  let sums := mm256_add_epi64 (mm256_add_epi64 s0 s1) (mm256_add_epi64 s2 s3) in
  let remainder := drop full_bytes payload in
  finalize_checksum sums (tail_loop (length remainder) 0 remainder).

(** [checksum]: [avx2] is the result of the CPU feature test. *)
Definition payload_checksum (avx2 : bool) (payload : list Z) : Z :=
  if (256 <=? Z.of_nat (length payload)) && avx2 then checksum_avx2 payload else checksum_scalar payload.

Definition fold_checksum (aggregate : Z) (f : Frame) : Z :=
  Z.lxor (Z.lxor (rotate_left aggregate 7) (checksum f)) (wrapping_mul (offset f) 0x9E3779B97F4A7C15).

(** ** Word lemmas *)

Lemma length_to_le n v : length (to_le n v) = n.
Proof. revert v. induction n as [|n IH]; intros v; simpl; [done|]. by rewrite IH. Qed.

Lemma to_le_is_byte n v : Forall is_byte (to_le n v).
Proof.
  revert v. induction n as [|n IH]; intros v; simpl; constructor; [|apply IH]. by apply Z.mod_pos_bound.
Qed.

Lemma from_le_to_le n v : 0 <= v < 256 ^ Z.of_nat n -> from_le (to_le n v) = v.
Proof.
  revert v. induction n as [|n IH]; intros v Hv; simpl.
  - change (256 ^ Z.of_nat 0) with 1 in Hv. lia.
  - rewrite Nat2Z.inj_succ, Z.pow_succ_r in Hv by lia. pose proof (Z.div_mod v 256 ltac:(lia)) as Hd.
    pose proof (Z.mod_pos_bound v 256 ltac:(lia)).
    rewrite IH; [lia|]. split; [apply Z.div_pos; lia|]. apply Z.div_lt_upper_bound; lia.
Qed.

Lemma from_le_range l : Forall is_byte l -> 0 <= from_le l < 256 ^ Z.of_nat (length l).
Proof.
  induction 1 as [|b l Hb Hl IH]; [done|]. cbn [from_le length]. unfold is_byte in Hb.
  rewrite Nat2Z.inj_succ, Z.pow_succ_r by lia. lia.
Qed.

Lemma to_le_from_le l n : Forall is_byte l -> length l = n -> to_le n (from_le l) = l.
Proof.
  intros Hl <-. induction Hl as [|b l Hb Hl IH]; [done|]. cbn [from_le length to_le]. unfold is_byte in Hb.
  rewrite (Z.mul_comm 256), Z.mod_add, Z.mod_small, Z.div_add, Z.div_small, Z.add_0_l, IH by lia. done.
Qed.

Lemma length_slice b off n : (off + n <= length b)%nat -> length (slice b off n) = n.
Proof. intros Hb. unfold slice. rewrite length_take, length_drop. lia. Qed.

Lemma slice_is_byte b off n : Forall is_byte b -> Forall is_byte (slice b off n).
Proof. intros Hb. unfold slice. by apply Forall_take, Forall_drop. Qed.

Lemma slice_next b off n : drop off b = slice b off n ++ drop (off + n) b.
Proof. unfold slice. by rewrite <- drop_drop, take_drop. Qed.

Lemma slice_one b off : (off < length b)%nat -> slice b off 1 = [nth off b 0].
Proof.
  intros Hb. destruct (lookup_lt_is_Some_2 b off Hb) as [x Hx]. unfold slice.
  rewrite (drop_S _ _ _ Hx). simpl. by rewrite (nth_lookup_Some _ _ _ _ Hx).
Qed.

(** A byte slice as a word of its own width. *)
Lemma from_le_slice b off n : Forall is_byte b -> (off + n <= length b)%nat ->
  0 <= from_le (slice b off n) < 256 ^ Z.of_nat n /\ to_le n (from_le (slice b off n)) = slice b off n.
Proof.
  intros Hb Hn. pose proof (length_slice b off n Hn) as Hl. pose proof (slice_is_byte b off n Hb) as Hs. split.
  - rewrite <- Hl at 3. by apply from_le_range.
  - by apply to_le_from_le.
Qed.

(** ** The frame codec *)

Lemma encode_flat f :
  encode f = to_le 4 FRAME_MAGIC ++ to_le 2 VERSION ++ [Kind_as_u8 (kind f)] ++ [flags f] ++
    to_le 8 (transfer_id f) ++ to_le 8 (offset f) ++ to_le 4 (slot f) ++ to_le 4 (generation f) ++
    to_le 4 (len f) ++ [0; 0; 0; 0] ++ to_le 8 (checksum f).
Proof. reflexivity. Qed.

Lemma frame_slices (b : list Z) : length b = 48%nat ->
  b = slice b 0 4 ++ slice b 4 2 ++ slice b 6 1 ++ slice b 7 1 ++ slice b 8 8 ++ slice b 16 8 ++
    slice b 24 4 ++ slice b 28 4 ++ slice b 32 4 ++ slice b 36 4 ++ slice b 40 8.
Proof.
  intros Hl. rewrite <- (drop_0 b) at 1. rewrite (slice_next b 0 4). f_equal. simpl.
  rewrite (slice_next b 4 2). f_equal. simpl. rewrite (slice_next b 6 1). f_equal. simpl.
  rewrite (slice_next b 7 1). f_equal. simpl. rewrite (slice_next b 8 8). f_equal. simpl.
  rewrite (slice_next b 16 8). f_equal. simpl. rewrite (slice_next b 24 4). f_equal. simpl.
  rewrite (slice_next b 28 4). f_equal. simpl. rewrite (slice_next b 32 4). f_equal. simpl.
  rewrite (slice_next b 36 4). f_equal. simpl. unfold slice. rewrite take_ge; [done|].
  rewrite length_drop. lia.
Qed.

Lemma Kind_round k : Kind_try_from (Kind_as_u8 k) = Ok k.
Proof. by destruct k. Qed.

Lemma Kind_back v k : Kind_try_from v = Ok k -> Kind_as_u8 k = v.
Proof. unfold Kind_try_from. zbool; intros [= <-]; simpl; lia. Qed.

Lemma decode_encode (f : Frame) : frame_ok f -> decode (encode f) = Ok f.
Proof.
  intros (Hfl & Ht & Ho & Hs & Hg & Hl & Hc).
  unfold decode. replace (nth 6 (encode f) 0) with (Kind_as_u8 (kind f)) by reflexivity.
  replace (nth 7 (encode f) 0) with (flags f) by reflexivity. rewrite Kind_round.
  change (slice (encode f) 0 4) with (to_le 4 FRAME_MAGIC).
  change (slice (encode f) 4 2) with (to_le 2 VERSION).
  change (slice (encode f) 36 4) with [0; 0; 0; 0].
  change (slice (encode f) 8 8) with (to_le 8 (transfer_id f)).
  change (slice (encode f) 16 8) with (to_le 8 (offset f)).
  change (slice (encode f) 24 4) with (to_le 4 (slot f)).
  change (slice (encode f) 28 4) with (to_le 4 (generation f)).
  change (slice (encode f) 32 4) with (to_le 4 (len f)).
  change (slice (encode f) 40 8) with (to_le 8 (checksum f)).
  rewrite !from_le_to_le by (done || (vm_compute; split; [discriminate|reflexivity])).
  rewrite !Z.eqb_refl. simpl. by destruct f.
Qed.

(** A frame survives the trip through its descriptor: encoding gives
    exactly [FRAME_LEN] bytes, and decoding them gives the frame back. *)
Lemma encode_decodes (f : Frame) :
  frame_ok f ->
  Z.of_nat (length (encode f)) = FRAME_LEN /\ Forall is_byte (encode f) /\ decode (encode f) = Ok f.
Proof.
  intros Hf. pose proof Hf as (Hfl & _). split; [done|]. split.
  - rewrite encode_flat. repeat (apply Forall_app; split); try apply to_le_is_byte.
    + constructor; [|done]. unfold is_byte. destruct (kind f); simpl; lia.
    + by constructor.
    + by repeat constructor.
  - by apply decode_encode.
Qed.

Definition sample_frame : Frame :=
  mkFrame Released 0x42 7 (5 * 65536) 2 3 65536 0xDEADBEEFCAFEF00D.

(** Decoding is strict: the only descriptor that decodes to a frame is
    the one encoding it, so every other byte pattern (wrong magic, version or
    kind, or nonzero padding) is rejected, and the decoded fields have their
    declared widths. *)
Lemma decode_canonical (bytes : list Z) (f : Frame) :
  Z.of_nat (length bytes) = FRAME_LEN -> Forall is_byte bytes -> decode bytes = Ok f ->
  encode f = bytes /\ frame_ok f.
Proof.
  unfold FRAME_LEN. intros Hlen Hb. unfold decode.
  destruct (Z.eqb_spec (from_le (slice bytes 0 4)) FRAME_MAGIC) as [Hm|]; [|done].
  destruct (Z.eqb_spec (from_le (slice bytes 4 2)) VERSION) as [Hv|]; [|done].
  destruct (bool_decide_reflect (slice bytes 36 4 = [0; 0; 0; 0])) as [Hp|]; [|done]. simpl.
  destruct (Kind_try_from (nth 6 bytes 0)) as [k|e] eqn:Hk; [|done]. apply Kind_back in Hk.
  intros [= <-]. rewrite encode_flat. simpl kind. simpl flags. simpl transfer_id. simpl offset. simpl slot.
  simpl generation. simpl len. simpl checksum.
  rewrite <- Hm, <- Hv, <- Hp, Hk, <- (slice_one bytes 6), <- (slice_one bytes 7) by lia.
  pose proof (fun off n (H : (off + n <= 48)%nat) => from_le_slice bytes off n Hb ltac:(lia)) as Hs. split.
  - rewrite (proj2 (Hs 0 4 ltac:(lia))%nat), (proj2 (Hs 4 2 ltac:(lia))%nat), (proj2 (Hs 8 8 ltac:(lia))%nat),
      (proj2 (Hs 16 8 ltac:(lia))%nat), (proj2 (Hs 24 4 ltac:(lia))%nat), (proj2 (Hs 28 4 ltac:(lia))%nat),
      (proj2 (Hs 32 4 ltac:(lia))%nat), (proj2 (Hs 40 8 ltac:(lia))%nat).
    symmetry. apply frame_slices. lia.
  - pose proof (Hs 8 8 ltac:(lia))%nat. pose proof (Hs 16 8 ltac:(lia))%nat. pose proof (Hs 24 4 ltac:(lia))%nat.
    pose proof (Hs 28 4 ltac:(lia))%nat. pose proof (Hs 32 4 ltac:(lia))%nat. pose proof (Hs 40 8 ltac:(lia))%nat.
    change (256 ^ Z.of_nat 8) with USIZE in *. change (256 ^ Z.of_nat 4) with U32 in *.
    unfold frame_ok. simpl. splits. apply (Forall_lookup_1 is_byte bytes 7); [done|].
    destruct (lookup_lt_is_Some_2 bytes 7 ltac:(lia)) as [x Hx]. by rewrite Hx, (nth_lookup_Some _ _ _ _ Hx).
Qed.

(** C37: decoding is the exact inverse of encoding on 48-byte descriptors. A
    byte pattern decodes to a frame if and only if the frame's fields have their
    declared widths and the pattern is its encoding; wrong magic, version or kind
    and nonzero padding are therefore all rejected. *)
Theorem frame_codec_exact (bytes : list Z) (f : Frame) :
  Z.of_nat (length bytes) = FRAME_LEN -> Forall is_byte bytes ->
  decode bytes = Ok f <-> frame_ok f /\ bytes = encode f.
Proof.
  intros Hl Hb. split.
  - intros Hd. by destruct (decode_canonical bytes f Hl Hb Hd) as [<- ?].
  - intros [Hf ->]. by apply encode_decodes.
Qed.

Lemma frame_codec_exact_witness :
  decode (encode sample_frame) = Ok sample_frame /\ decode (replicate 48 0) <> Ok sample_frame.
Proof.
  assert (frame_ok sample_frame) as Hf by (repeat split; vm_compute; discriminate || reflexivity).
  split.
  - apply (frame_codec_exact (encode sample_frame) sample_frame); [reflexivity|apply (encode_decodes _ Hf)|by split].
  - intros H. apply (frame_codec_exact (replicate 48 0) sample_frame) in H as [_ H];
      [vm_compute in H; discriminate H|reflexivity|apply Forall_replicate; unfold is_byte; lia].
Defined.

(** ** The two checksum paths *)

Lemma wrapping_add_assoc a b c : wrapping_add (wrapping_add a b) c = wrapping_add a (wrapping_add b c).
Proof. unfold wrapping_add. rewrite Zplus_mod_idemp_l, Zplus_mod_idemp_r. f_equal. lia. Qed.

Lemma wrapping_add_comm a b : wrapping_add a b = wrapping_add b a.
Proof. unfold wrapping_add. f_equal. lia. Qed.

Definition four (l : list Z) : Prop := exists a b c d, l = [a; b; c; d].

Lemma add_four a b : four a -> four b -> four (mm256_add_epi64 a b).
Proof. intros (? & ? & ? & ? & ->) (? & ? & ? & ? & ->). by repeat eexists. Qed.

Lemma add_assoc a b c : mm256_add_epi64 (mm256_add_epi64 a b) c = mm256_add_epi64 a (mm256_add_epi64 b c).
Proof.
  unfold mm256_add_epi64. revert b c. induction a as [|x a IH]; intros [|y b] [|z c]; simpl; try done.
  by rewrite IH, wrapping_add_assoc.
Qed.

Lemma add_comm a b : mm256_add_epi64 a b = mm256_add_epi64 b a.
Proof.
  unfold mm256_add_epi64. revert b. induction a as [|x a IH]; intros [|y b]; simpl; try done.
  by rewrite IH, wrapping_add_comm.
Qed.

#[local] Instance eq_lift : AAC.AAC_lift (@eq (list Z)) (@eq (list Z)).
Proof. split; [exact eq_equivalence|]. by intros ? ? -> ? ? ->. Qed.
#[local] Instance add_Associative : AAC.Associative eq mm256_add_epi64.
Proof. intros a b c. symmetry. apply add_assoc. Qed.
#[local] Instance add_Commutative : AAC.Commutative eq mm256_add_epi64.
Proof. intros a b. apply add_comm. Qed.

Lemma accumulate_add s t words :
  accumulate (mm256_add_epi64 s t) words = mm256_add_epi64 (accumulate s words) t.
Proof.
  unfold accumulate. aac_reflexivity.
Qed.

Lemma accumulate_four s payload off : four s -> four (accumulate s (mm256_loadu_si256 payload off)).
Proof. intros (? & ? & ? & ? & ->). by repeat eexists. Qed.

Lemma slice_slice (b : list Z) off m i n :
  (i + n <= m)%nat -> slice (slice b off m) i n = slice b (off + i) n.
Proof.
  intros Hm. unfold slice. rewrite skipn_firstn_comm, take_take, drop_drop. f_equal. lia.
Qed.

(** One scalar chunk is one vector accumulation. *)
Lemma add_chunk_accumulate sums payload off :
  four sums -> add_chunk sums (slice payload off 32) = accumulate sums (mm256_loadu_si256 payload off).
Proof.
  intros (a & b & c & d & ->). unfold add_chunk. simpl.
  rewrite !slice_slice by lia. rewrite Nat.add_0_r. reflexivity.
Qed.

(** The scalar loop from byte [off] on. *)
Lemma lanes_loop_S n sums payload off :
  four sums ->
  lanes_loop (S n) sums (drop off payload) =
    lanes_loop n (accumulate sums (mm256_loadu_si256 payload off)) (drop (off + 32) payload).
Proof.
  intros Hs. cbn [lanes_loop]. rewrite drop_drop. f_equal. by rewrite <- add_chunk_accumulate.
Qed.

Lemma lanes_loop_add n s t payload off :
  four s -> four t ->
  lanes_loop n (mm256_add_epi64 s t) (drop off payload) =
    mm256_add_epi64 (lanes_loop n s (drop off payload)) t /\ four (lanes_loop n s (drop off payload)).
Proof.
  revert s off. induction n as [|n IH]; intros s off Hs Ht; [done|].
  rewrite !lanes_loop_S by (by try apply add_four). rewrite accumulate_add. apply IH; [|done].
  by apply accumulate_four.
Qed.

Lemma avx2_narrow_scalar n fuel payload off s :
  (n <= fuel)%nat -> four s ->
  avx2_narrow fuel payload (off + 32 * n) off s = lanes_loop n s (drop off payload).
Proof.
  revert fuel off s. induction n as [|n IH]; intros fuel off s Hf Hs.
  - destruct fuel; cbn [avx2_narrow]; [done|]. case_decide; [lia|done].
  - destruct fuel as [|fuel]; [lia|]. cbn [avx2_narrow]. case_decide; [|lia].
    rewrite lanes_loop_S by done. rewrite <- (IH fuel); [f_equal; lia|lia|by apply accumulate_four].
Qed.

Definition total4 (s0 s1 s2 s3 : list Z) : list Z :=
  mm256_add_epi64 (mm256_add_epi64 s0 s1) (mm256_add_epi64 s2 s3).

(** One wide turn moves four scalar chunks into the total. *)
Lemma total4_wide s0 s1 s2 s3 w0 w1 w2 w3 :
  total4 (accumulate s0 w0) (accumulate s1 w1) (accumulate s2 w2) (accumulate s3 w3) =
  accumulate (accumulate (accumulate (accumulate (total4 s0 s1 s2 s3) w0) w1) w2) w3.
Proof.
  unfold total4, accumulate. aac_reflexivity.
Qed.

Lemma avx2_wide_total n fuel payload off s0 s1 s2 s3 :
  (n <= fuel)%nat -> four s0 -> four s1 -> four s2 -> four s3 ->
  exists off' n' t0 t1 t2 t3,
    avx2_wide fuel payload (off + 32 * n) off s0 s1 s2 s3 = (off', t0, t1, t2, t3) /\
    (off + 32 * n = off' + 32 * n')%nat /\ (n' <= n)%nat /\ four t0 /\ four t1 /\ four t2 /\ four t3 /\
    lanes_loop n (total4 s0 s1 s2 s3) (drop off payload) = lanes_loop n' (total4 t0 t1 t2 t3) (drop off' payload).
Proof.
  revert fuel off s0 s1 s2 s3. induction (lt_wf n) as [n _ IH]; intros fuel off s0 s1 s2 s3 Hf H0 H1 H2 H3.
  destruct fuel as [|fuel]; [exists off, n, s0, s1, s2, s3; by assert (n = 0%nat) by lia|].
  cbn [avx2_wide]. case_decide as Hd; [|by exists off, n, s0, s1, s2, s3].
  destruct n as [|[|[|[|n]]]]; try lia.
  replace (off + 32 * S (S (S (S n))))%nat with (off + 128 + 32 * n)%nat by lia.
  destruct (IH n ltac:(lia) fuel (off + 128)%nat (accumulate s0 (mm256_loadu_si256 payload off))
    (accumulate s1 (mm256_loadu_si256 payload (off + 32))) (accumulate s2 (mm256_loadu_si256 payload (off + 64)))
    (accumulate s3 (mm256_loadu_si256 payload (off + 96))))
    as (off' & n' & t0 & t1 & t2 & t3 & -> & Hn & Hle & F0 & F1 & F2 & F3 & He);
    [lia|by apply accumulate_four..|].
  exists off', n', t0, t1, t2, t3. splits. rewrite <- He, total4_wide.
  assert (four (total4 s0 s1 s2 s3)) as Ht by (by repeat apply add_four).
  rewrite !lanes_loop_S by (by repeat apply accumulate_four). rewrite <- !Nat.add_assoc. done.
Qed.

Lemma avx2_scalar payload : checksum_avx2 payload = checksum_scalar payload.
Proof.
  unfold checksum_avx2, checksum_scalar. set (n := (length payload / 32)%nat).
  assert (n <= length payload)%nat as Hn by (apply Nat.Div0.div_le_upper_bound; lia).
  assert (four seeds) as Hs by (by repeat eexists). assert (four [0; 0; 0; 0]) as Hz by (by repeat eexists).
  destruct (avx2_wide_total n (length payload) payload 0 seeds [0; 0; 0; 0] [0; 0; 0; 0] [0; 0; 0; 0])
    as (off & n' & t0 & t1 & t2 & t3 & He & Hoff & Hle & F0 & F1 & F2 & F3 & Hl); [done..|].
  rewrite Nat.add_0_l in He, Hoff. rewrite (Nat.mul_comm n 32), He, Hoff.
  rewrite avx2_narrow_scalar by (done || lia).
  assert (lanes_loop n seeds payload = lanes_loop n' (total4 t0 t1 t2 t3) (drop off payload)) as ->
    by (rewrite <- Hl, drop_0; reflexivity).
  f_equal. unfold total4. rewrite !add_assoc.
  by destruct (lanes_loop_add n' t0 (mm256_add_epi64 t1 (mm256_add_epi64 t2 t3)) payload off F0
    ltac:(by repeat apply add_four)) as [-> _].
Qed.

(** C38: the AVX2 checksum is the scalar checksum, for payloads of every
    length: four independent accumulators over 128-byte blocks, the narrow loop
    and the tail add up to the same lanes, so the result does not depend on the
    CPU that computed it. *)
Theorem checksum_paths_agree (avx2 : bool) (payload : list Z) :
  checksum_avx2 payload = checksum_scalar payload /\
  payload_checksum avx2 payload = checksum_scalar payload.
Proof.
  split; [apply avx2_scalar|]. unfold payload_checksum. destruct (_ && _); [apply avx2_scalar|done].
Qed.

End frame.
