(* ===== verification/IpcArena.v ===== *)
(** * Stream shapes and shared arenas: [src/src/ipc/stream.rs]

    [StreamShape] and its validation, the tiling of a stream into chunks, the
    layout of a shared arena (header, descriptor ring, payload slots), and the
    arena's operations over the bytes of its region. Raw pointer accesses are
    [peek] and [poke]: leaving the region is undefined behaviour. The ring
    cursors are the atomic words at [HEAD_OFFSET] and [TAIL_OFFSET]. *)

From stdpp Require Import prelude strings.
From S2P Require Import Prelude IpcFrame.
Import frame.
Local Open Scope Z_scope.
Local Open Scope prescient_scope.
#[local] Set Warnings "-clear-no-such-hyp".

Module arena.

Definition CACHE_LINE : Z := 64.
Definition HEAD_OFFSET : Z := CACHE_LINE.
Definition TAIL_OFFSET : Z := CACHE_LINE * 2.
(** [SharedEventState] is 128 bytes. *)
Definition DATA_EVENT_OFFSET : Z := CACHE_LINE * 3.
Definition SPACE_EVENT_OFFSET : Z := DATA_EVENT_OFFSET + 128.
Definition HEADER_LEN : Z := SPACE_EVENT_OFFSET + 128.
Example header_len_is_448 : HEADER_LEN = 448.
Proof. reflexivity. Qed.
Definition RELEASE_ARENA_FLAG : Z := 0x80000000.
Definition ROLE_CLAIMS_OFFSET : Z := 40.
Definition PRODUCER_CLAIM : Z := 1.
Definition CONSUMER_CLAIM : Z := 2.
Definition ROLE_CLAIM_MASK : Z := Z.lor PRODUCER_CLAIM CONSUMER_CLAIM.

(** ** [StreamShape] *)

Record StreamShape := mkShape { total_bytes : Z; chunk_bytes : Z; slots : Z }.

Definition chunks (s : StreamShape) : Z := div_ceil (total_bytes s) (chunk_bytes s).
Definition resident_bytes (s : StreamShape) : Z := slots s * chunk_bytes s.

Definition validate (s : StreamShape) : io unit :=
  if (chunk_bytes s =? 0) || (U32 - 1 <? chunk_bytes s)
  then Err (InvalidInput "stream chunk_bytes must be in 1..=u32::MAX") else
  if (slots s =? 0) || (U32 - 1 <? slots s)
  then Err (InvalidInput "stream slots must be in 1..=u32::MAX") else
  match checked_mul (slots s) (chunk_bytes s) with
  | Some bytes =>
      if bytes <=? ISIZE_MAX then
        if U32 - 1 <? div_ceil (chunks s) (slots s)
        then Err (InvalidInput "stream slot generation would overflow")
        else Ok tt
      else Err (InvalidInput "stream resident size overflows address space")
  | None => Err (InvalidInput "stream resident size overflows address space")
  end.

(** [u32::try_from]. *)
Definition u32_try_from (v : Z) : io Z :=
  if v <? U32 then Ok v else Err (InvalidData "stream generation exhausted").

(** Offset, length, slot and generation of a chunk. *)
Definition chunk_meta (s : StreamShape) (chunk_index : Z) : io (Z * Z * Z * Z) :=
  match checked_mul chunk_index (chunk_bytes s) with
  | None => Err (InvalidData "stream offset overflow")
  | Some off =>
      let remaining := saturating_sub (total_bytes s) off in
      let len := Z.min remaining (chunk_bytes s) in
      let slot := chunk_index mod slots s in
      generation ←? u32_try_from (chunk_index / slots s + 1);
      Ok (off, len, slot, generation)
  end.

(** ** Roles *)

Inductive DirectionRole : Type := ProducerRole | ConsumerRole.

Definition role_claim (r : DirectionRole) : Z :=
  match r with ProducerRole => PRODUCER_CLAIM | ConsumerRole => CONSUMER_CLAIM end.

(** [claim_direction_role] from the value it loads: the new word when its
    compare-exchange may go ahead. *)
Definition claim_direction_role (current : Z) (r : DirectionRole) : io Z :=
  if negb (Z.ldiff current ROLE_CLAIM_MASK =? 0)
  then Err (InvalidData "shared stream role claims are invalid") else
  if negb (Z.land current (role_claim r) =? 0) then Err AlreadyExists
  else Ok (Z.lor current (role_claim r)).

(** ** Layout *)

Definition align_up (value alignment : Z) : io Z :=
  match checked_add value (alignment - 1) with
  | Some v => Ok (Z.ldiff v (alignment - 1))
  | None => Err (InvalidInput "alignment overflow")
  end.

Definition descriptor_capacity_for (slots : Z) : io Z :=
  match (v ← checked_mul slots 2; w ← checked_add v 2; checked_next_power_of_two w) with
  | Some c => Ok c
  | None => Err (InvalidInput "descriptor capacity overflow")
  end.

(** Region length and payload offset. *)
Definition arena_layout (slots slot_len descriptor_capacity : Z) : io (Z * Z) :=
  if negb (Bool.eqb (slots =? 0) (slot_len =? 0)) || (descriptor_capacity <? 2)
     || negb (is_power_of_two descriptor_capacity) || (U32 - 1 <? descriptor_capacity)
  then Err (InvalidInput "stream arena dimensions are invalid") else
  match checked_mul descriptor_capacity FRAME_LEN with
  | None => Err (InvalidInput "descriptor bytes overflow")
  | Some descriptors =>
      match checked_add HEADER_LEN descriptors with
      | None => Err (InvalidInput "arena offset overflow")
      | Some v =>
          payload_offset ←? align_up v CACHE_LINE;
          match checked_mul slots slot_len with
          | None => Err (InvalidInput "arena payload bytes overflow")
          | Some payload =>
              match checked_add payload_offset payload with
              | Some len => if len <=? ISIZE_MAX then Ok (len, payload_offset)
                            else Err (InvalidInput "arena length overflow")
              | None => Err (InvalidInput "arena length overflow")
              end
          end
      end
  end.

(** ** Raw memory *)

Definition peek (mem : list Z) (off n : Z) : outcome (list Z) :=
  if (0 <=? off) && (0 <=? n) && (off + n <=? Z.of_nat (length mem))
  then OK (slice mem (Z.to_nat off) (Z.to_nat n)) else UB.

Definition poke (mem : list Z) (off : Z) (src : list Z) : outcome (list Z) :=
  if (0 <=? off) && (off + Z.of_nat (length src) <=? Z.of_nat (length mem))
  then OK (list_inserts (Z.to_nat off) src mem) else UB.

(** ** [Arena] *)

Record Arena := mkArena {
  mem : list Z;
  head : Z;
  tail : Z;
  descriptor_capacity : Z;
  a_slots : Z;
  slot_len : Z;
  payload_offset : Z
}.

Definition set_mem (a : Arena) (m : list Z) : Arena :=
  mkArena m (head a) (tail a) (descriptor_capacity a) (a_slots a) (slot_len a) (payload_offset a).

Definition descriptor_ptr (a : Arena) (sequence : Z) : Z :=
  HEADER_LEN + Z.land sequence (descriptor_capacity a - 1) * FRAME_LEN.

(** [Arena::create] over a fresh region of the computed length. The cursor and
    claim words are initialised to zero; the magic word is stored last. *)
Definition header_fields (slots slot_len capacity transfer_id direction payload_offset : Z) : list (Z * list Z) :=
  [(4, to_le 2 VERSION); (6, to_le 2 FRAME_LEN); (8, to_le 4 capacity); (12, to_le 4 slots);
   (16, to_le 4 slot_len); (20, to_le 4 direction); (24, to_le 8 transfer_id);
   (32, to_le 8 payload_offset); (ROLE_CLAIMS_OFFSET, to_le 4 0); (HEAD_OFFSET, to_le 8 0);
   (TAIL_OFFSET, to_le 8 0); (0, to_le 4 ARENA_MAGIC)].

Fixpoint poke_all (mem : list Z) (ws : list (Z * list Z)) : outcome (list Z) :=
  match ws with
  | [] => OK mem
  | (off, src) :: ws' => m ← poke mem off src; poke_all m ws'
  end.

Definition Arena_create (region : Z -> list Z) (slots slot_len capacity transfer_id direction : Z)
    : outcome (io Arena) :=
  match arena_layout slots slot_len capacity with
  | Err e => OK (Err e)
  | Ok (len, payload_offset) =>
      m ← poke_all (region len) (header_fields slots slot_len capacity transfer_id direction payload_offset);
      OK (Ok (mkArena m 0 0 capacity slots slot_len payload_offset))
  end.

(** [Arena::open] on the bytes of an existing region; [handle_len] is the length
    the region handle carries. The two events that the code opens beside the arena,
    and their own checks, are in [IpcEvent.v]. *)
Definition Arena_open (m : list Z) (handle_len slots slot_len capacity transfer_id direction : Z)
    : outcome (io Arena) :=
  magic ← peek m 0 4;
  if negb (from_le magic =? ARENA_MAGIC) then OK (Err (InvalidData "shared stream arena is not initialized")) else
  c ← peek m 8 4; p ← peek m 32 8;
  match arena_layout slots slot_len capacity with
  | Err e => OK (Err e)
  | Ok (expected_len, expected_payload_offset) =>
      v ← peek m 4 2; f ← peek m 6 2; s ← peek m 12 4; l ← peek m 16 4; d ← peek m 20 4; t ← peek m 24 8;
      h ← peek m HEAD_OFFSET 8; tl ← peek m TAIL_OFFSET 8;
      if negb (from_le v =? VERSION) || negb (from_le f =? FRAME_LEN) || negb (from_le c =? capacity)
         || negb (from_le s =? slots) || negb (from_le l =? slot_len) || negb (from_le d =? direction)
         || negb (from_le t =? transfer_id) || negb (from_le p =? expected_payload_offset)
         || negb (handle_len =? expected_len)
      then OK (Err (InvalidData "shared stream arena contract mismatch"))
      else OK (Ok (mkArena m (from_le h) (from_le tl) (from_le c) slots slot_len (from_le p)))
  end.

(** One attempt of [Arena::push]: [None] while the ring is full and the producer
    waits for space. The published cursor is [tail + 1] in checked arithmetic. The
    notification that follows the publication is a step of [IpcEvent.v]. *)
Definition push (a : Arena) (f : Frame) : option (outcome Arena) :=
  if descriptor_capacity a <=? wrapping_sub (tail a) (head a) then None else Some (
    m ← poke (mem a) (descriptor_ptr a (tail a)) (encode f);
    if tail a + 1 <? USIZE
    then OK (mkArena m (head a) (tail a + 1) (descriptor_capacity a) (a_slots a) (slot_len a) (payload_offset a))
    else PANIC).

(** One attempt of [Arena::pop]: [None] while the ring is empty. *)
Definition pop (a : Arena) : option (outcome (io Frame * Arena)) :=
  if wrapping_sub (tail a) (head a) =? 0 then None else Some (
    encoded ← peek (mem a) (descriptor_ptr a (head a)) FRAME_LEN;
    if head a + 1 <? USIZE
    then OK (decode encoded,
             mkArena (mem a) (head a + 1) (tail a) (descriptor_capacity a) (a_slots a) (slot_len a) (payload_offset a))
    else PANIC).

Definition check_slot (a : Arena) (slot len : Z) : io unit :=
  if (a_slots a <=? slot) || (len =? 0) || (slot_len a <? len)
  then Err (InvalidData "stream slot or length is out of bounds") else Ok tt.

(** [write_slot] with the bytes its closure stores. *)
Definition write_slot (a : Arena) (slot len : Z) (bytes : list Z) : outcome (io Arena) :=
  match check_slot a slot len with
  | Err e => OK (Err e)
  | Ok _ => m ← poke (mem a) (payload_offset a + slot * slot_len a) bytes; OK (Ok (set_mem a m))
  end.

Definition read_slot (a : Arena) (slot len : Z) : outcome (io (list Z)) :=
  match check_slot a slot len with
  | Err e => OK (Err e)
  | Ok _ => b ← peek (mem a) (payload_offset a + slot * slot_len a) len; OK (Ok b)
  end.

(** ** Memory lemmas *)

Lemma poke_in m off src :
  0 <= off -> off + Z.of_nat (length src) <= Z.of_nat (length m) ->
  poke m off src = OK (list_inserts (Z.to_nat off) src m).
Proof. intros. unfold poke. zbool; (done || lia). Qed.

Lemma peek_in m off n :
  0 <= off -> 0 <= n -> off + n <= Z.of_nat (length m) ->
  peek m off n = OK (slice m (Z.to_nat off) (Z.to_nat n)).
Proof. intros. unfold peek. zbool; (done || lia). Qed.

Lemma poke_length m off src m' : poke m off src = OK m' -> length m' = length m.
Proof. unfold poke. destruct (_ && _); [|done]. intros [= <-]. apply length_inserts. Qed.

Lemma slice_inserts_same (m src : list Z) off :
  (off + length src <= length m)%nat -> slice (list_inserts off src m) off (length src) = src.
Proof.
  intros Hl. apply list_eq. intros i. unfold slice. destruct (decide (i < length src)%nat) as [Hi|Hi].
  - rewrite lookup_take_lt by done. rewrite lookup_drop, list_lookup_inserts by lia. f_equal. lia.
  - rewrite lookup_take_ge by lia. symmetry. apply lookup_ge_None_2. lia.
Qed.

Lemma slice_inserts_other (m src : list Z) off off' n :
  (off' + n <= off \/ off + length src <= off')%nat ->
  slice (list_inserts off src m) off' n = slice m off' n.
Proof.
  intros Hd. apply list_eq. intros i. unfold slice. destruct (decide (i < n)%nat) as [Hi|Hi].
  - rewrite !lookup_take_lt, !lookup_drop by done.
    destruct Hd; [apply list_lookup_inserts_lt; lia|apply list_lookup_inserts_ge; lia].
  - by rewrite !lookup_take_ge by lia.
Qed.

(** Reading back what was written, and what another write left alone. *)
Lemma peek_poke_same m off src m' :
  poke m off src = OK m' -> peek m' off (Z.of_nat (length src)) = OK src.
Proof.
  intros Hp. pose proof (poke_length _ _ _ _ Hp) as Hl. unfold poke in Hp.
  destruct (Z.leb_spec 0 off); [|done]. destruct (Z.leb_spec (off + Z.of_nat (length src)) (Z.of_nat (length m))); [|done].
  injection Hp as <-. rewrite peek_in by (rewrite ?Hl; lia). rewrite Nat2Z.id, slice_inserts_same by lia. done.
Qed.

Lemma peek_poke_other m off src m' off' n :
  poke m off src = OK m' -> 0 <= off' -> off' + n <= off \/ off + Z.of_nat (length src) <= off' ->
  peek m' off' n = peek m off' n.
Proof.
  intros Hp Ho Hd. pose proof (poke_length _ _ _ _ Hp) as Hl. unfold poke in Hp.
  destruct (Z.leb_spec 0 off); [|done]. destruct (Z.leb_spec (off + Z.of_nat (length src)) (Z.of_nat (length m))); [|done].
  injection Hp as <-. unfold peek. rewrite Hl. destruct (_ && _) eqn:E; [|done]. f_equal.
  apply slice_inserts_other. destruct (Z.leb_spec 0 n); [lia|]. rewrite andb_false_r in E. done.
Qed.

(** ** Chunk arithmetic *)

Record shape_ok (s : StreamShape) : Prop := {
  sk_total : 0 <= total_bytes s < USIZE;
  sk_chunk : 1 <= chunk_bytes s < U32;
  sk_slots : 1 <= slots s < U32;
  sk_resident : slots s * chunk_bytes s <= ISIZE_MAX;
  sk_generations : div_ceil (chunks s) (slots s) < U32
}.

Lemma validate_ok s :
  0 <= total_bytes s < USIZE -> 0 <= chunk_bytes s -> 0 <= slots s -> validate s = Ok tt -> shape_ok s.
Proof.
  intros Ht Hc Hs. unfold validate, checked_mul.
  destruct (Z.eqb_spec (chunk_bytes s) 0), (Z.ltb_spec (U32 - 1) (chunk_bytes s)); try done. simpl.
  destruct (Z.eqb_spec (slots s) 0), (Z.ltb_spec (U32 - 1) (slots s)); try done. simpl.
  destruct (Z.ltb_spec (slots s * chunk_bytes s) USIZE); [|done].
  destruct (Z.leb_spec (slots s * chunk_bytes s) ISIZE_MAX); [|done].
  destruct (Z.ltb_spec (U32 - 1) (div_ceil (chunks s) (slots s))); [done|]. intros _. split; lia.
Qed.

Lemma div_ceil_spec a b : 0 < b -> 0 <= a -> let q := div_ceil a b in b * (q - 1) < a <= b * q \/ (a = 0 /\ q = 0).
Proof.
  intros Hb Ha q. subst q. unfold div_ceil. pose proof (Z.div_mod a b ltac:(lia)) as Hd.
  pose proof (Z.mod_pos_bound a b Hb). zbool; nia.
Qed.

Lemma chunks_spec s : shape_ok s ->
  0 <= chunks s /\ (0 < chunks s -> chunk_bytes s * (chunks s - 1) < total_bytes s) /\
  total_bytes s <= chunk_bytes s * chunks s.
Proof.
  intros [Ht Hc Hs _ _]. destruct (div_ceil_spec (total_bytes s) (chunk_bytes s)) as [Hq|[H0 Hq]]; try lia;
    fold (chunks s) in Hq; nia.
Qed.

(** What [chunk_meta] computes for the chunks of a valid stream. *)
Lemma chunk_meta_ok s i :
  shape_ok s -> 0 <= i < chunks s ->
  let off := i * chunk_bytes s in
  let len := Z.min (total_bytes s - off) (chunk_bytes s) in
  chunk_meta s i = Ok (off, len, i mod slots s, i / slots s + 1) /\
  0 < len /\ off + len <= total_bytes s /\ (i + 1 = chunks s -> off + len = total_bytes s) /\
  (i + 1 < chunks s -> len = chunk_bytes s) /\
  0 <= i mod slots s < slots s /\ 1 <= i / slots s + 1 < U32.
Proof.
  intros Hs Hi off len. pose proof (chunks_spec s Hs) as (_ & Hlo & Hhi).
  specialize (Hlo ltac:(lia)). destruct Hs as [Ht Hc Hsl _ Hg].
  assert (off < total_bytes s) as Hoff by (subst off; nia).
  pose proof (Z.mod_pos_bound i (slots s) ltac:(lia)) as Hm. pose proof (Z.div_mod i (slots s) ltac:(lia)) as Hd.
  assert (0 <= i / slots s) by (apply Z.div_pos; lia).
  assert (i / slots s + 1 < U32) as Hgen.
  { destruct (div_ceil_spec (chunks s) (slots s)) as [Hq|[H0 _]]; try lia. nia. }
  unfold chunk_meta, checked_mul, saturating_sub, u32_try_from. fold off.
  destruct (Z.ltb_spec off USIZE); [|lia]. destruct (Z.leb_spec off (total_bytes s)); [|lia].
  destruct (Z.ltb_spec (i / slots s + 1) U32); [|lia]. simpl. splits; subst len off; nia.
Qed.

(** The bytes of chunk [i] of a source. *)
Definition chunk_of (s : StreamShape) (source : list Z) (i : Z) : list Z :=
  slice source (Z.to_nat (i * chunk_bytes s)) (Z.to_nat (Z.min (total_bytes s - i * chunk_bytes s) (chunk_bytes s))).

(** The first [n] chunks are a prefix of the source. *)
Lemma chunks_prefix s source (n : nat) :
  shape_ok s -> Z.of_nat n <= chunks s -> total_bytes s <= Z.of_nat (length source) ->
  mjoin (chunk_of s source <$> (Z.of_nat <$> seq 0 n)) =
    take (Z.to_nat (Z.min (total_bytes s) (Z.of_nat n * chunk_bytes s))) source.
Proof.
  intros Hs. pose proof Hs as [Ht Hc _ _ _]. induction n as [|n IH]; intros Hn Hlen.
  - rewrite Z.mul_0_l. by replace (Z.to_nat (Z.min (total_bytes s) 0)) with 0%nat by lia.
  - rewrite seq_S, !fmap_app, join_app, IH by lia. simpl. rewrite app_nil_r.
    destruct (chunk_meta_ok s (Z.of_nat n) Hs ltac:(lia)) as (_ & Hpos & Hle & _). unfold chunk_of, slice.
    set (a := Z.to_nat (Z.of_nat n * chunk_bytes s)).
    replace (Z.to_nat (Z.min (total_bytes s) (Z.of_nat n * chunk_bytes s))) with a by (subst a; lia).
    rewrite take_take_drop. f_equal. subst a.
    replace (Z.pos (Pos.of_succ_nat n)) with (Z.of_nat n + 1) by lia. nia.
Qed.

(** ** Layout lemmas *)

Lemma is_power_of_two_pow n : is_power_of_two n = true -> n = 2 ^ Z.log2 n /\ 0 < n.
Proof.
  unfold is_power_of_two. intros H. apply andb_true_iff in H as [Hpos Hland].
  apply Z.ltb_lt in Hpos. apply Z.eqb_eq in Hland. split; [|done].
  pose proof (Z.log2_spec n Hpos) as [Hlo Hhi]. destruct (decide (n = 2 ^ Z.log2 n)) as [|Hne]; [done|].
  exfalso. assert (Z.log2 (n - 1) = Z.log2 n) as Hl.
  { apply Z.log2_unique; [apply Z.log2_nonneg|lia]. }
  assert (0 < n - 1) as Hp by (pose proof (Z.pow_pos_nonneg 2 (Z.log2 n) ltac:(lia) (Z.log2_nonneg n)); lia).
  apply (f_equal (fun x => Z.testbit x (Z.log2 n))) in Hland. rewrite Z.land_spec, Z.bits_0 in Hland.
  rewrite Z.bit_log2 in Hland by done. rewrite <- Hl, Z.bit_log2 in Hland by done. done.
Qed.

Lemma align_up_spec v r : 0 <= v -> align_up v CACHE_LINE = Ok r -> v <= r < v + 64 /\ (64 | r).
Proof.
  intros Hv. unfold align_up, checked_add, CACHE_LINE. zbool; [|done]. intros [= <-].
  change (64 - 1) with (Z.ones 6). rewrite Z.ldiff_ones_r, Z.shiftl_mul_pow2, Z.shiftr_div_pow2 by lia.
  change (2 ^ 6) with 64. change (Z.ones 6) with 63. split; [|apply Z.divide_factor_r].
  pose proof (Z.div_mod (v + 63) 64 ltac:(lia)). pose proof (Z.mod_pos_bound (v + 63) 64 ltac:(lia)). lia.
Qed.

Record layout_ok (slots slot_len cap len po : Z) : Prop := {
  lo_pow : exists k, cap = 2 ^ k /\ 1 <= k < 32;
  lo_descriptors : HEADER_LEN + cap * FRAME_LEN <= po < HEADER_LEN + cap * FRAME_LEN + 64;
  lo_aligned : (64 | po);
  lo_len : len = po + slots * slot_len /\ len <= ISIZE_MAX
}.

Lemma arena_layout_spec slots slot_len cap len po :
  0 <= slots -> 0 <= slot_len -> arena_layout slots slot_len cap = Ok (len, po) ->
  layout_ok slots slot_len cap len po.
Proof.
  intros Hs Hl. unfold arena_layout, checked_mul. destruct (negb (Bool.eqb _ _)); [done|]. simpl.
  destruct (Z.ltb_spec cap 2); [done|]. simpl. destruct (is_power_of_two cap) eqn:Hp; [|done]. simpl.
  destruct (Z.ltb_spec (U32 - 1) cap) as [|Hcap]; [done|]. apply is_power_of_two_pow in Hp as [Hp _].
  destruct (Z.ltb_spec (cap * FRAME_LEN) USIZE); [|done]. unfold checked_add at 1.
  destruct (Z.ltb_spec (HEADER_LEN + cap * FRAME_LEN) USIZE); [|done].
  destruct (align_up _ _) as [po'|] eqn:Ha; [|done]. apply align_up_spec in Ha as [Hr Hd]; [|change HEADER_LEN with 448; unfold FRAME_LEN; lia].
  simpl. destruct (Z.ltb_spec (slots * slot_len) USIZE); [|done]. unfold checked_add.
  destruct (Z.ltb_spec (po' + slots * slot_len) USIZE); [|done].
  destruct (Z.leb_spec (po' + slots * slot_len) ISIZE_MAX); [|done]. intros [= <- <-]. split; try done.
  exists (Z.log2 cap). split; [done|]. split.
  - apply (Z.pow_le_mono_r_iff 2); [lia|apply Z.log2_nonneg|lia].
  - apply (Z.pow_lt_mono_r_iff 2); [lia|lia|]. rewrite <- Hp. change (2 ^ 32) with U32. lia.
Qed.

(** An arena over a region of the computed layout. *)
Record arena_ok (a : Arena) : Prop := {
  ao_layout : layout_ok (a_slots a) (slot_len a) (descriptor_capacity a) (Z.of_nat (length (mem a))) (payload_offset a);
  ao_slots : 0 <= a_slots a /\ 0 <= slot_len a
}.

Lemma descriptor_index a seq :
  arena_ok a -> descriptor_ptr a seq = HEADER_LEN + (seq mod descriptor_capacity a) * FRAME_LEN /\
    0 <= seq mod descriptor_capacity a < descriptor_capacity a.
Proof.
  intros Ha. destruct (lo_pow _ _ _ _ _ (ao_layout _ Ha)) as (k & Hk & Hr).
  unfold descriptor_ptr. rewrite Hk, land_mask by lia. split; [done|]. apply Z.mod_pos_bound. apply pow2_pos. lia.
Qed.

(** ** Properties *)

(** C39: the arena layout keeps every access inside the region and apart. Each
    descriptor lies between the header and the payload, each payload slot
    between the payload offset and the end of the region, the payload offset is
    cache-line aligned, and descriptors of different ring positions and
    different payload slots do not overlap. *)
Theorem arena_layout_disjoint (a : Arena) (len : Z) :
  0 <= a_slots a -> 0 <= slot_len a ->
  arena_layout (a_slots a) (slot_len a) (descriptor_capacity a) = Ok (len, payload_offset a) ->
  (64 | payload_offset a) /\
  (forall seq, HEADER_LEN <= descriptor_ptr a seq /\ descriptor_ptr a seq + FRAME_LEN <= payload_offset a) /\
  (forall seq seq', seq mod descriptor_capacity a <> seq' mod descriptor_capacity a ->
     descriptor_ptr a seq + FRAME_LEN <= descriptor_ptr a seq' \/
     descriptor_ptr a seq' + FRAME_LEN <= descriptor_ptr a seq) /\
  (forall slot, 0 <= slot < a_slots a ->
     payload_offset a <= payload_offset a + slot * slot_len a /\
     payload_offset a + slot * slot_len a + slot_len a <= len) /\
  (forall slot slot', 0 <= slot < slot' ->
     payload_offset a + slot * slot_len a + slot_len a <= payload_offset a + slot' * slot_len a).
Proof.
  intros Hs Hl Hlay. destruct (arena_layout_spec _ _ _ _ _ Hs Hl Hlay) as [(k & Hk & Hr) Hd Hal [Hlen _]].
  assert (forall seq, descriptor_ptr a seq = HEADER_LEN + (seq mod descriptor_capacity a) * FRAME_LEN) as Hp.
  { intros seq. unfold descriptor_ptr. by rewrite Hk, land_mask by lia. }
  assert (0 < descriptor_capacity a) as Hpos by (rewrite Hk; apply pow2_pos; lia).
  unfold FRAME_LEN in *. splits.
  - intros seq. rewrite Hp. pose proof (Z.mod_pos_bound seq (descriptor_capacity a) Hpos). lia.
  - intros seq seq' Hne. rewrite !Hp. lia.
  - intros slot Hslot. nia.
  - intros slot slot' Hslot. nia.
Qed.

Definition sample_arena : Arena := mkArena (replicate 592 0) 0 0 2 3 16 (448 + 96 + 32).

Lemma arena_layout_disjoint_witness :
  (64 | payload_offset sample_arena) /\
  payload_offset sample_arena + 2 * slot_len sample_arena + slot_len sample_arena <= 624.
Proof.
  destruct (arena_layout_disjoint sample_arena 624) as (H1 & _ & _ & H4 & _);
    [simpl; lia|simpl; lia|vm_compute; reflexivity|].
  split; [exact H1|]. apply (proj2 (H4 2 ltac:(simpl; lia))).
Defined.

(** A validated shape tiles its stream. Every chunk index below
    [chunks()] has metadata (no overflow error), its slot is in range and its
    generation is a nonzero [u32]; the slot and generation identify the chunk;
    and the chunks, in order, are exactly the bytes of the stream. *)
Theorem chunk_tiling (s : StreamShape) (source : list Z) :
  0 <= total_bytes s < USIZE -> 0 <= chunk_bytes s -> 0 <= slots s -> validate s = Ok tt ->
  Z.of_nat (length source) = total_bytes s ->
  (forall i, 0 <= i < chunks s -> exists off len slot gen,
     chunk_meta s i = Ok (off, len, slot, gen) /\ 0 < len <= chunk_bytes s /\ 0 <= slot < slots s /\
     1 <= gen < U32 /\ chunk_of s source i = slice source (Z.to_nat off) (Z.to_nat len)) /\
  (forall i j off len off' len' slot gen, chunk_meta s i = Ok (off, len, slot, gen) ->
     chunk_meta s j = Ok (off', len', slot, gen) -> 0 <= i < chunks s -> 0 <= j < chunks s -> i = j) /\
  mjoin (chunk_of s source <$> (Z.of_nat <$> seq 0 (Z.to_nat (chunks s)))) = source.
Proof.
  intros Ht Hc Hsl Hv Hlen. pose proof (validate_ok s Ht Hc Hsl Hv) as Hs.
  pose proof (sk_slots s Hs) as Hsl'. splits.
  - intros i Hi. destruct (chunk_meta_ok s i Hs Hi) as (Hm & H1 & _ & _ & _ & H2 & H3).
    eexists _, _, _, _. split; [exact Hm|]. splits.
  - intros i j off len off' len' slot gen Hi Hj Hri Hrj.
    destruct (chunk_meta_ok s i Hs Hri) as (Hmi & _). destruct (chunk_meta_ok s j Hs Hrj) as (Hmj & _).
    rewrite Hmi in Hi. rewrite Hmj in Hj. injection Hi as _ _ Hsi Hgi. injection Hj as _ _ Hsj Hgj.
    rewrite (Z.div_mod i (slots s)), (Z.div_mod j (slots s)) by lia. rewrite Hsi, Hsj. f_equal. f_equal. lia.
  - pose proof (chunks_spec s Hs) as (H0 & _ & Hhi).
    rewrite chunks_prefix by (done || lia). rewrite take_ge; [done|]. nia.
Qed.

Definition sample_shape : StreamShape := mkShape 10 4 2.

Lemma chunk_tiling_witness :
  mjoin (chunk_of sample_shape [1; 2; 3; 4; 5; 6; 7; 8; 9; 10] <$> (Z.of_nat <$> seq 0 3)) =
    [1; 2; 3; 4; 5; 6; 7; 8; 9; 10].
Proof.
  refine (proj2 (proj2 (chunk_tiling sample_shape [1; 2; 3; 4; 5; 6; 7; 8; 9; 10] _ _ _ _ _))); simpl;
    lia || reflexivity.
Defined.

(** ** The header contract *)

Definition apart (x y : Z * list Z) : Prop :=
  x.1 + Z.of_nat (length x.2) <= y.1 \/ y.1 + Z.of_nat (length y.2) <= x.1.

(** Disjoint writes are all readable afterwards, and nothing else changes. *)
Lemma poke_all_spec m ws :
  Forall (fun x => 0 <= x.1 /\ x.1 + Z.of_nat (length x.2) <= Z.of_nat (length m)) ws -> ForallOrdPairs apart ws ->
  exists m', poke_all m ws = OK m' /\ length m' = length m /\
    (forall x, x ∈ ws -> peek m' x.1 (Z.of_nat (length x.2)) = OK x.2) /\
    (forall y, 0 <= y.1 -> Forall (apart y) ws -> peek m' y.1 (Z.of_nat (length y.2)) = peek m y.1 (Z.of_nat (length y.2))).
Proof.
  revert m. induction ws as [|[off src] ws IH]; intros m Hin Hap.
  - exists m. splits. intros x Hx. by apply not_elem_of_nil in Hx.
  - inversion Hin as [|? ? [Ho Hl] Hin']; subst. inversion Hap as [|? ? Hhd Hap']; subst. simpl in Ho, Hl.
    cbn [poke_all]. destruct (poke m off src) as [m1| |] eqn:Hp;
      [|unfold poke in Hp; by destruct (_ && _)|rewrite poke_in in Hp by done; done].
    cbn [mbind outcome_bind]. pose proof (poke_length _ _ _ _ Hp) as Hlen.
    destruct (IH m1) as (m' & -> & Hl' & Hread & Hkeep); [by rewrite Hlen|done|]. exists m'. splits.
    + intros x Hx. apply elem_of_cons in Hx as [->|Hx]; [|by apply Hread].
      pose proof (Hkeep (off, src) Ho Hhd) as Hk. simpl in *. rewrite Hk. by eapply peek_poke_same.
    + intros y Hy Hall. inversion Hall as [|? ? Hya Hall']; subst. rewrite (Hkeep y Hy Hall').
      eapply peek_poke_other; [done|done|]. destruct Hya; simpl in *; [left|right]; lia.
Qed.

Lemma header_fields_apart sl l c t d p : ForallOrdPairs apart (header_fields sl l c t d p).
Proof.
  unfold header_fields. repeat (constructor; [repeat (constructor; [unfold apart; cbn [fst snd]; rewrite !length_to_le;
    vm_compute; (left; discriminate) || (right; discriminate)|])|]); constructor.
Qed.

(** The handshake numbers fit their header words. *)
Definition dims_ok (slots slot_len capacity transfer_id direction : Z) : Prop :=
  0 <= slots < U32 /\ 0 <= slot_len < U32 /\ 0 <= capacity < U32 /\ 0 <= transfer_id < USIZE /\
  0 <= direction < U32.

Lemma Arena_create_spec region slots slot_len cap tid dir len po :
  dims_ok slots slot_len cap tid dir -> (forall n, 0 <= n -> Z.of_nat (length (region n)) = n) ->
  arena_layout slots slot_len cap = Ok (len, po) ->
  exists m, Arena_create region slots slot_len cap tid dir = OK (Ok (mkArena m 0 0 cap slots slot_len po)) /\
    Z.of_nat (length m) = len /\ 0 <= po < USIZE /\
    forall x, x ∈ header_fields slots slot_len cap tid dir po -> peek m x.1 (Z.of_nat (length x.2)) = OK x.2.
Proof.
  intros (Hs & Hl & _) Hreg Hlay. destruct (arena_layout_spec slots slot_len cap len po ltac:(lia) ltac:(lia) Hlay) as [(k & Hk & Hkr) Hd _ [Hlen Hmax]].
  assert (0 < cap) as Hpos by (rewrite Hk; apply pow2_pos; lia). unfold FRAME_LEN in Hd.
  change HEADER_LEN with 448 in Hd. assert (448 <= len) by nia.
  unfold Arena_create. rewrite Hlay.
  destruct (poke_all_spec (region len) (header_fields slots slot_len cap tid dir po)) as (m & -> & Hlm & Hread & _).
  - rewrite (Hreg len) by lia. unfold header_fields.
    repeat constructor; cbn [fst snd]; rewrite ?length_to_le; unfold ROLE_CLAIMS_OFFSET, HEAD_OFFSET, TAIL_OFFSET, CACHE_LINE; lia.
  - apply header_fields_apart.
  - cbn [mbind outcome_bind]. exists m. splits; rewrite ?Hlm, ?Hreg; nia.
Qed.

Local Ltac in_fields := unfold header_fields; repeat first [apply list_elem_of_here | apply list_elem_of_further].

(** The header words other than the role claims, which later change. *)
Definition header_holds (m : list Z) (slots slot_len cap tid dir po : Z) : Prop :=
  forall x, x ∈ header_fields slots slot_len cap tid dir po -> x.1 <> ROLE_CLAIMS_OFFSET ->
    peek m x.1 (Z.of_nat (length x.2)) = OK x.2.

(** What [Arena::open] decides on a region with an intact header. *)
Lemma Arena_open_reads m slots slot_len cap tid dir po slots' slot_len' cap' tid' dir' len' :
  dims_ok slots slot_len cap tid dir -> 0 <= po < USIZE -> header_holds m slots slot_len cap tid dir po ->
  Arena_open m len' slots' slot_len' cap' tid' dir' =
    match arena_layout slots' slot_len' cap' with
    | Err e => OK (Err e)
    | Ok (el, epo) =>
        if (cap =? cap') && (slots =? slots') && (slot_len =? slot_len') && (dir =? dir') && (tid =? tid') &&
           (po =? epo) && (len' =? el)
        then OK (Ok (mkArena m 0 0 cap slots' slot_len' po))
        else OK (Err (InvalidData "shared stream arena contract mismatch"))
    end.
Proof.
  intros (D1 & D2 & D3 & D4 & D5) Hpo Hh. unfold Arena_open.
  assert (forall off n v, (off, to_le n v) ∈ header_fields slots slot_len cap tid dir po -> off <> ROLE_CLAIMS_OFFSET ->
    0 <= v < 256 ^ Z.of_nat n -> exists b, peek m off (Z.of_nat n) = OK b /\ from_le b = v) as Hf.
  { intros off n v Hin Ho Hv. pose proof (Hh _ Hin Ho) as Hp. cbn [fst snd] in Hp. rewrite length_to_le in Hp.
    eexists. split; [exact Hp|]. by apply from_le_to_le. }
  assert (256 ^ Z.of_nat 8 = USIZE /\ 256 ^ Z.of_nat 4 = U32 /\ 256 ^ Z.of_nat 2 = 65536) as (E8 & E4 & E2) by done.
  destruct (Hf 0 4%nat ARENA_MAGIC ltac:(in_fields) ltac:(done) ltac:(done)) as (b0 & H0 & F0). change (Z.of_nat 4) with 4 in *.
  destruct (Hf 8 4%nat cap ltac:(in_fields) ltac:(done) ltac:(lia)) as (b1 & H1' & F1).
  destruct (Hf 32 8%nat po ltac:(in_fields) ltac:(done) ltac:(lia)) as (b2 & H2' & F2).
  destruct (Hf 4 2%nat VERSION ltac:(in_fields) ltac:(done) ltac:(done)) as (b3 & H3' & F3).
  destruct (Hf 6 2%nat FRAME_LEN ltac:(in_fields) ltac:(done) ltac:(done)) as (b4 & H4' & F4).
  destruct (Hf 12 4%nat slots ltac:(in_fields) ltac:(done) ltac:(lia)) as (b5 & H5' & F5).
  destruct (Hf 16 4%nat slot_len ltac:(in_fields) ltac:(done) ltac:(lia)) as (b6 & H6' & F6).
  destruct (Hf 20 4%nat dir ltac:(in_fields) ltac:(done) ltac:(lia)) as (b7 & H7' & F7).
  destruct (Hf 24 8%nat tid ltac:(in_fields) ltac:(done) ltac:(lia)) as (b8 & H8' & F8).
  destruct (Hf HEAD_OFFSET 8%nat 0 ltac:(in_fields) ltac:(done) ltac:(done)) as (b9 & H9' & F9).
  destruct (Hf TAIL_OFFSET 8%nat 0 ltac:(in_fields) ltac:(done) ltac:(done)) as (b10 & H10' & F10).
  change (Z.of_nat 4) with 4 in *. change (Z.of_nat 8) with 8 in *. change (Z.of_nat 2) with 2 in *.
  rewrite H0, H1', H2', H3', H4', H5', H6', H7', H8', H9', H10'. cbn [mbind outcome_bind].
  rewrite F0, F1, F2, F3, F4, F5, F6, F7, F8, F9, F10, !Z.eqb_refl. cbn [negb orb].
  destruct (arena_layout slots' slot_len' cap') as [[el epo]|]; [|done].
  destruct (cap =? cap'), (slots =? slots'), (slot_len =? slot_len'), (dir =? dir'), (tid =? tid'), (po =? epo),
    (len' =? el); done.
Qed.

(** An arena can only be attached with the contract it was created with.
    Opening the region with the dimensions, ring capacity, transfer id,
    direction and length it was created with gives the creator's arena; opening
    it with any other is rejected, and neither reads outside the region. *)
Lemma arena_attach_contract (region : Z -> list Z) (slots slot_len cap tid dir : Z)
    (slots' slot_len' cap' tid' dir' len len' po : Z) :
  dims_ok slots slot_len cap tid dir -> dims_ok slots' slot_len' cap' tid' dir' ->
  (forall n, 0 <= n -> Z.of_nat (length (region n)) = n) -> arena_layout slots slot_len cap = Ok (len, po) ->
  exists a, Arena_create region slots slot_len cap tid dir = OK (Ok a) /\
    if decide ((slots', slot_len', cap', tid', dir', len') = (slots, slot_len, cap, tid, dir, len))
    then Arena_open (mem a) len' slots' slot_len' cap' tid' dir' = OK (Ok a)
    else exists e, Arena_open (mem a) len' slots' slot_len' cap' tid' dir' = OK (Err e).
Proof.
  intros Hd Hd' Hreg Hlay.
  destruct (Arena_create_spec region slots slot_len cap tid dir len po Hd Hreg Hlay) as (m & -> & Hlm & Hpo & Hread).
  eexists. split; [done|]. cbn [mem].
  rewrite (Arena_open_reads m slots slot_len cap tid dir po) by (done || intros x Hx _; by apply Hread).
  case_decide as Heq.
  - injection Heq as -> -> -> -> -> ->. by rewrite Hlay, !Z.eqb_refl.
  - destruct (arena_layout slots' slot_len' cap') as [[len'' po']|e] eqn:Hlay'; [|by exists e].
    destruct (_ && _) eqn:E; [|by eexists]. exfalso. apply Heq.
    repeat (apply andb_true_iff in E; destruct E as [E ?]).
    repeat match goal with H : (_ =? _) = true |- _ => apply Z.eqb_eq in H end.
    subst. rewrite Hlay in Hlay'. congruence.
Qed.

(** Each direction has at most one producer and one consumer: from a
    fresh claim word a role can be claimed once, in either order, a second claim
    of it fails with [AlreadyExists] and changes nothing, and a word with
    foreign bits is rejected as invalid. *)
Theorem role_claims_exclusive (current : Z) (r : DirectionRole) :
  0 <= current < U32 ->
  match claim_direction_role current r with
  | Ok current' =>
      current ∈ [0; PRODUCER_CLAIM; CONSUMER_CLAIM] /\ claim_direction_role current' r = Err AlreadyExists /\
      (forall r', r' <> r -> claim_direction_role current r' = Err AlreadyExists \/
         claim_direction_role current' r' = Ok ROLE_CLAIM_MASK)
  | Err AlreadyExists => Z.land current (role_claim r) = role_claim r /\ 0 < current <= ROLE_CLAIM_MASK
  | Err e => e = InvalidData "shared stream role claims are invalid" /\ ROLE_CLAIM_MASK < current
  end.
Proof.
  intros Hc. assert (ROLE_CLAIM_MASK = 3) as HM by done.
  assert (Z.ldiff current ROLE_CLAIM_MASK = 0 <-> current <= 3) as Hmask.
  { rewrite HM. change 3 with (Z.ones 2). rewrite Z.ldiff_ones_r, Z.shiftl_mul_pow2, Z.shiftr_div_pow2 by lia.
    change (2 ^ 2) with 4. change (Z.ones 2) with 3. pose proof (Z.div_mod current 4 ltac:(lia)).
    pose proof (Z.mod_pos_bound current 4 ltac:(lia)). lia. }
  destruct (decide (current <= 3)) as [Hle|Hgt].
  - assert (current = 0 \/ current = 1 \/ current = 2 \/ current = 3) as [-> | [-> | [-> | ->]]] by lia; destruct r;
      vm_compute; (split; [set_solver|]) || (split; [reflexivity|]); try done;
      try (split; [reflexivity|]; intros [|]; [by auto|by auto]); try (by split).
    all: try (split; [reflexivity|]; intros [|] Hne; by auto).
  - unfold claim_direction_role. destruct (Z.eqb_spec (Z.ldiff current ROLE_CLAIM_MASK) 0); [lia|]. simpl.
    split; [done|lia].
Qed.

Lemma role_claims_exclusive_witness :
  claim_direction_role CONSUMER_CLAIM ProducerRole = Ok ROLE_CLAIM_MASK /\
  claim_direction_role ROLE_CLAIM_MASK ProducerRole = Err AlreadyExists.
Proof.
  pose proof (role_claims_exclusive CONSUMER_CLAIM ProducerRole ltac:(vm_compute; split; [discriminate|reflexivity])) as H.
  split; [reflexivity|]. exact (proj1 (proj2 H)).
Defined.

End arena.
