(* ===== verification/IpcTransfer.v ===== *)
(** * A process-stream transfer: [produce] and [consume] of [src/src/ipc/stream.rs]

    The two processes of one direction run over the same two arenas: data
    descriptors and payload slots go one way, release descriptors come back. A
    step is one shared access of one process: a descriptor push or pop, the fill
    of a payload slot, a read of it. A process may also be aborted at any time
    by its environment (a timeout, a closed peer, an I/O error of the source or
    the sink). The validators and the processes are those of the code, with the
    checksum path chosen by each process's own CPU. *)

From stdpp Require Import prelude strings.
From S2P Require Import Prelude IpcFrame IpcArena.
Import frame arena.
Local Open Scope Z_scope.
Local Open Scope prescient_scope.
#[local] Set Warnings "-clear-no-such-hyp".

Module transfer.

(** ** Validation of received frames *)

Definition frame_eqb (f g : Frame) : bool := bool_decide (f = g).
Definition kind_is (f : Frame) (k : Kind) : bool := bool_decide (kind f = k).

(** [validate_chunk]: the payload bytes are those read from the slot. *)
Definition validate_chunk (avx2 : bool) (a : Arena) (f : Frame) (chunk_index : Z) (s : StreamShape)
    (tid fl : Z) : outcome (io unit) :=
  match chunk_meta s chunk_index with
  | Err e => OK (Err e)
  | Ok (off, len, slot, generation) =>
      b ← read_slot a slot len;
      OK (bytes ←? b;
          let expected := mkFrame Data fl tid off slot generation len (payload_checksum avx2 bytes) in
          if frame_eqb f expected then Ok tt else Err (InvalidData "DATA frame or payload is invalid"))
  end.

Definition validate_release (f : Frame) (chunk_index : Z) (s : StreamShape) (tid fl : Z) : io unit :=
  '(off, len, slot, generation) ←? chunk_meta s chunk_index;
  if kind_is f Released && (flags f =? fl) && (transfer_id f =? tid) && (offset f =? off)
     && (frame.slot f =? slot) && (frame.generation f =? generation) && (frame.len f =? len)
  then Ok tt else Err (InvalidData "RELEASED frame is invalid").

Definition validate_complete (f : Frame) (s : StreamShape) (tid fl aggregate : Z) : io unit :=
  if kind_is f Complete && (flags f =? fl) && (transfer_id f =? tid) && (offset f =? total_bytes s)
     && (frame.slot f =? 0) && (frame.generation f =? 0) && (frame.len f =? 0)
     && (frame.checksum f =? aggregate)
  then Ok tt else Err (InvalidData "COMPLETE frame is invalid").

(** ** The producing process *)

Inductive ppc : Type :=
| PTop (idx released aggregate : Z) (rest : list Z)       (* head of the chunk loop *)
| PFill (idx released aggregate : Z) (rest : list Z)      (* before [write_slot] *)
| PPush (idx released aggregate : Z) (f : Frame) (rest : list Z)
| PDrain (released aggregate : Z)                         (* [while released < chunks] *)
| PFinish (aggregate : Z)                                 (* before the COMPLETE push *)
| PAck (aggregate : Z)
| PDone (aggregate : Z)
| PFailed (e : io_error)                                  (* a protocol or source error *)
| PAborted.

(** ** The consuming process *)

Inductive cpc : Type :=
| CTop (idx aggregate : Z) (out : list Z)
| CHave (idx aggregate : Z) (out : list Z) (f : Frame)    (* before [validate_chunk] *)
| CWrite (idx aggregate : Z) (out : list Z) (f : Frame)   (* before [write_all] *)
| CRelease (idx aggregate : Z) (out : list Z) (f : Frame)
| CComplete (aggregate : Z) (out : list Z) (f : Frame)    (* before [validate_complete] *)
| CAck (aggregate : Z) (out : list Z) (f : Frame)
| CDone (aggregate : Z) (out : list Z)
| CFailed (e : io_error)
| CAborted.

Record state := mkState { data : Arena; releases : Arena; prod : ppc; cons : cpc }.

Section programs.
Context (s : StreamShape) (tid fl : Z) (avx2_p avx2_c : bool).
Implicit Types (x : state).

Definition set_prod x (d r : Arena) (c : ppc) : state := mkState d r c (cons x).
Definition set_cons x (d r : Arena) (c : cpc) : state := mkState d r (prod x) c.

(** A pop of [releases] by the producer, continuing with the decoded frame. *)
Definition pop_release x (k : Frame -> io ppc) : option (outcome state) :=
  match pop (releases x) with
  | None => None
  | Some o => Some ('(f, r) ← o;
      OK (set_prod x (data x) r (match f with
        | Ok f => match k f with Ok c => c | Err e => PFailed e end
        | Err e => PFailed e
        end)))
  end.

Definition push_data x (f : Frame) (c : ppc) : option (outcome state) :=
  match push (data x) f with
  | None => None
  | Some o => Some (d ← o; OK (set_prod x d (releases x) c))
  end.

Definition prod_step x : option (outcome state) :=
  match prod x with
  | PTop idx released aggregate rest =>
      if idx <? chunks s then
        if slots s <=? idx then
          pop_release x (fun f =>
            _ ←? validate_release f released s tid fl;
            Ok (PFill idx (released + 1) aggregate rest))
        else Some (OK (set_prod x (data x) (releases x) (PFill idx released aggregate rest)))
      else Some (OK (set_prod x (data x) (releases x) (PDrain released aggregate)))
  | PFill idx released aggregate rest =>
      match chunk_meta s idx with
      | Err e => Some (OK (set_prod x (data x) (releases x) (PFailed e)))
      | Ok (off, len, slot, generation) =>
          let bytes := take (Z.to_nat len) rest in
          Some (r ← write_slot (data x) slot len bytes;
            match r with
            | Err e => OK (set_prod x (data x) (releases x) (PFailed e))
            | Ok d =>
                if Z.of_nat (length bytes) <? len
                then OK (set_prod x d (releases x) (PFailed UnexpectedEof))
                else
                  let f := mkFrame Data fl tid off slot generation len (payload_checksum avx2_p bytes) in
                  OK (set_prod x d (releases x)
                        (PPush idx released (fold_checksum aggregate f) f (drop (Z.to_nat len) rest)))
            end)
      end
  | PPush idx released aggregate f rest => push_data x f (PTop (idx + 1) released aggregate rest)
  | PDrain released aggregate =>
      if released <? chunks s then
        pop_release x (fun f => _ ←? validate_release f released s tid fl; Ok (PDrain (released + 1) aggregate))
      else Some (OK (set_prod x (data x) (releases x) (PFinish aggregate)))
  | PFinish aggregate =>
      push_data x (mkFrame Complete fl tid (total_bytes s) 0 0 0 aggregate) (PAck aggregate)
  | PAck aggregate =>
      pop_release x (fun f => _ ←? validate_complete f s tid fl aggregate; Ok (PDone aggregate))
  | PDone _ | PFailed _ | PAborted => None
  end.

Definition push_release x (f : Frame) (c : cpc) : option (outcome state) :=
  match push (releases x) f with
  | None => None
  | Some o => Some (r ← o; OK (set_cons x (data x) r c))
  end.

Definition cons_step x : option (outcome state) :=
  match cons x with
  | CTop idx aggregate out =>
      match pop (data x) with
      | None => None
      | Some o => Some ('(f, d) ← o;
          OK (set_cons x d (releases x) (match f with
            | Err e => CFailed e
            | Ok f => if idx <? chunks s then CHave idx aggregate out f else CComplete aggregate out f
            end)))
      end
  | CHave idx aggregate out f => Some (
      r ← validate_chunk avx2_c (data x) f idx s tid fl;
      OK (set_cons x (data x) (releases x)
            (match r with Ok _ => CWrite idx aggregate out f | Err e => CFailed e end)))
  | CWrite idx aggregate out f => Some (
      r ← read_slot (data x) (frame.slot f) (frame.len f);
      OK (set_cons x (data x) (releases x)
            (match r with
             | Ok bytes => CRelease idx (fold_checksum aggregate f) (out ++ bytes) f
             | Err e => CFailed e
             end)))
  | CRelease idx aggregate out f =>
      push_release x
        (mkFrame Released (flags f) (transfer_id f) (offset f) (frame.slot f) (frame.generation f)
           (frame.len f) (frame.checksum f))
        (CTop (idx + 1) aggregate out)
  | CComplete aggregate out f =>
      Some (OK (set_cons x (data x) (releases x)
        (match validate_complete f s tid fl aggregate with
         | Ok _ => CAck aggregate out f
         | Err e => CFailed e
         end)))
  | CAck aggregate out f => push_release x f (CDone aggregate out)
  | CDone _ _ | CFailed _ | CAborted => None
  end.

Definition prod_over (c : ppc) : bool := match c with PDone _ | PFailed _ | PAborted => true | _ => false end.
Definition cons_over (c : cpc) : bool := match c with CDone _ _ | CFailed _ | CAborted => true | _ => false end.

Inductive event : Type := EProd | ECons | EProdAbort | EConsAbort.

Definition step x (e : event) : option (outcome state) :=
  match e with
  | EProd => prod_step x
  | ECons => cons_step x
  | EProdAbort => if prod_over (prod x) then None else Some (OK (set_prod x (data x) (releases x) PAborted))
  | EConsAbort => if cons_over (cons x) then None else Some (OK (set_cons x (data x) (releases x) CAborted))
  end.

Fixpoint run x (es : list event) : option state :=
  match es with
  | [] => Some x
  | e :: es' => match step x e with Some (OK x') => run x' es' | _ => None end
  end.

Definition initial (d r : Arena) (source : list Z) : state :=
  mkState d r (PTop 0 0 0 source) (CTop 0 0 []).

Inductive reachable (d r : Arena) (source : list Z) : state -> Prop :=
| reach_init : reachable d r source (initial d r source)
| reach_step x e x' : reachable d r source x -> step x e = Some (OK x') -> reachable d r source x'.
End programs.

(** ** Words stay words *)

Lemma word_bits x : 0 <= x -> (forall i, 64 <= i -> Z.testbit x i = false) -> 0 <= x < USIZE.
Proof.
  intros Hx Hb. split; [done|]. destruct (decide (x = 0)) as [->|Hne]; [lia|].
  change USIZE with (2 ^ 64). apply Z.log2_lt_pow2; [lia|].
  destruct (Z.lt_ge_cases (Z.log2 x) 64) as [|Hge]; [done|].
  specialize (Hb (Z.log2 x) Hge). by rewrite Z.bit_log2 in Hb by lia.
Qed.

Lemma high_bits x i : 0 <= x < USIZE -> 64 <= i -> Z.testbit x i = false.
Proof.
  intros Hx Hi. destruct (decide (x = 0)) as [->|Hne]; [apply Z.bits_0|].
  apply Z.bits_above_log2; [lia|]. assert (Z.log2 x < 64); [|lia].
  apply Z.log2_lt_pow2; [lia|]. change (2 ^ 64) with USIZE. lia.
Qed.

Lemma lxor_word x y : 0 <= x < USIZE -> 0 <= y < USIZE -> 0 <= Z.lxor x y < USIZE.
Proof.
  intros Hx Hy. apply word_bits; [apply Z.lxor_nonneg; lia|]. intros i Hi.
  rewrite Z.lxor_spec, !high_bits by done. done.
Qed.

Lemma shiftr_word x n : 0 <= n -> 0 <= x < USIZE -> 0 <= Z.shiftr x n < USIZE.
Proof.
  intros Hn Hx. apply word_bits; [apply Z.shiftr_nonneg; lia|]. intros i Hi.
  rewrite Z.shiftr_spec by lia. apply high_bits; [done|lia].
Qed.

Lemma rotate_left_word x n : 0 <= n <= 64 -> 0 <= x < USIZE -> 0 <= rotate_left x n < USIZE.
Proof.
  intros Hn Hx. unfold rotate_left. assert (0 <= Z.shiftl x n) by (apply Z.shiftl_nonneg; lia).
  apply word_bits.
  - apply Z.lor_nonneg. split; [apply Z.land_nonneg; lia|apply Z.shiftr_nonneg; lia].
  - intros i Hi. rewrite Z.lor_spec, Z.land_spec, Z.ones_spec_high, andb_false_r by lia. simpl.
    rewrite Z.shiftr_spec by lia. apply high_bits; [done|lia].
Qed.

Lemma checksum_word avx2 payload : 0 <= payload_checksum avx2 payload < USIZE.
Proof.
  assert (forall a b, 0 <= wrapping_mul a b < USIZE) as Hmul by (intros a b; by apply Z.mod_pos_bound).
  assert (0 <= checksum_scalar payload < USIZE) as Hw.
  { unfold checksum_scalar, finalize_checksum. apply lxor_word; [done|]. by apply shiftr_word. }
  unfold payload_checksum. destruct (_ && _); [|done].
  by rewrite (avx2_scalar payload).
Qed.

Lemma fold_checksum_word agg f :
  0 <= agg < USIZE -> 0 <= frame.checksum f < USIZE -> 0 <= fold_checksum agg f < USIZE.
Proof.
  intros Ha Hc. unfold fold_checksum. apply lxor_word; [|by apply Z.mod_pos_bound].
  apply lxor_word; [|done]. by apply rotate_left_word.
Qed.

(** ** Invariant *)

Section invariant.
Context (s : StreamShape) (tid fl : Z) (avx2_p avx2_c : bool) (source : list Z).
Context (Hs : shape_ok s) (Htid : 0 <= tid < USIZE) (Hfl : is_byte fl).
Context (Hsrc : total_bytes s <= Z.of_nat (length source)).
Implicit Types (x : state) (a : Arena).

Local Abbreviation n := (chunks s).

Definition chunk_len (j : Z) : Z := Z.min (total_bytes s - j * chunk_bytes s) (chunk_bytes s).

(** The frames of the transfer: chunk [j], and the final one. *)
Definition data_frame (j : Z) : Frame :=
  mkFrame Data fl tid (j * chunk_bytes s) (j mod slots s) (j / slots s + 1) (chunk_len j)
    (checksum_scalar (chunk_of s source j)).

Fixpoint aggregate_of (k : nat) : Z :=
  match k with O => 0 | S k' => fold_checksum (aggregate_of k') (data_frame (Z.of_nat k')) end.

Definition complete_frame : Frame :=
  mkFrame Complete fl tid (total_bytes s) 0 0 0 (aggregate_of (Z.to_nat n)).
Definition release_frame (j : Z) : Frame :=
  let f := data_frame j in
  mkFrame Released (flags f) (transfer_id f) (offset f) (frame.slot f) (frame.generation f) (frame.len f)
    (frame.checksum f).

Definition data_seq (j : Z) : Frame := if j <? n then data_frame j else complete_frame.
Definition release_seq (j : Z) : Frame := if j <? n then release_frame j else complete_frame.

(** A ring whose resident descriptors are those of [seq]. *)
Record ring_ok a (seq : Z -> Frame) : Prop := {
  rk_arena : arena_ok a;
  rk_head : 0 <= head a <= tail a;
  rk_room : slots s + 2 <= descriptor_capacity a < U32;
  rk_frames : forall j, head a <= j < tail a -> peek (mem a) (descriptor_ptr a j) FRAME_LEN = OK (encode (seq j))
}.

Definition slot_holds a (j : Z) : Prop :=
  peek (mem a) (payload_offset a + j mod slots s * slot_len a) (chunk_len j) = OK (chunk_of s source j).

(** How many chunks are in the payload slots. *)
Definition filled x : Z := match prod x with PPush _ _ _ _ _ => tail (data x) + 1 | _ => tail (data x) end.

Definition prod_ok x : Prop :=
  let P := tail (data x) in let L := head (releases x) in
  match prod x with
  | PTop idx released aggregate rest =>
      0 <= idx <= n /\ P = idx /\ L = released /\ released = Z.max 0 (idx - slots s) /\
      aggregate = aggregate_of (Z.to_nat idx) /\ (idx < n -> rest = drop (Z.to_nat (idx * chunk_bytes s)) source)
  | PFill idx released aggregate rest =>
      0 <= idx < n /\ P = idx /\ L = released /\ released = Z.max 0 (idx + 1 - slots s) /\
      aggregate = aggregate_of (Z.to_nat idx) /\ rest = drop (Z.to_nat (idx * chunk_bytes s)) source
  | PPush idx released aggregate f rest =>
      0 <= idx < n /\ P = idx /\ L = released /\ released = Z.max 0 (idx + 1 - slots s) /\ f = data_frame idx /\
      aggregate = aggregate_of (Z.to_nat (idx + 1)) /\
      (idx + 1 < n -> rest = drop (Z.to_nat ((idx + 1) * chunk_bytes s)) source)
  | PDrain released aggregate =>
      P = n /\ L = released /\ n - slots s <= released <= n /\ aggregate = aggregate_of (Z.to_nat n)
  | PFinish aggregate => P = n /\ L = n /\ aggregate = aggregate_of (Z.to_nat n)
  | PAck aggregate => P = n + 1 /\ L = n /\ aggregate = aggregate_of (Z.to_nat n)
  | PDone aggregate => P = n + 1 /\ L = n + 1 /\ aggregate = aggregate_of (Z.to_nat n)
  | PFailed _ => False
  | PAborted => P - L <= slots s
  end.

Definition cons_ok x : Prop :=
  let C := head (data x) in let R := tail (releases x) in
  match cons x with
  | CTop idx aggregate out =>
      0 <= idx <= n /\ C = idx /\ R = idx /\ aggregate = aggregate_of (Z.to_nat idx) /\
      out = take (Z.to_nat (Z.min (total_bytes s) (idx * chunk_bytes s))) source
  | CHave idx aggregate out f | CWrite idx aggregate out f =>
      0 <= idx < n /\ C = idx + 1 /\ R = idx /\ aggregate = aggregate_of (Z.to_nat idx) /\ f = data_frame idx /\
      out = take (Z.to_nat (Z.min (total_bytes s) (idx * chunk_bytes s))) source
  | CRelease idx aggregate out f =>
      0 <= idx < n /\ C = idx + 1 /\ R = idx /\ aggregate = aggregate_of (Z.to_nat (idx + 1)) /\ f = data_frame idx /\
      out = take (Z.to_nat (Z.min (total_bytes s) ((idx + 1) * chunk_bytes s))) source
  | CComplete aggregate out f | CAck aggregate out f =>
      C = n + 1 /\ R = n /\ aggregate = aggregate_of (Z.to_nat n) /\ f = complete_frame /\
      out = take (Z.to_nat (total_bytes s)) source
  | CDone aggregate out =>
      C = n + 1 /\ R = n + 1 /\ aggregate = aggregate_of (Z.to_nat n) /\
      out = take (Z.to_nat (total_bytes s)) source
  | CFailed _ => False
  | CAborted => R <= n
  end.

Record inv x : Prop := {
  v_data : ring_ok (data x) data_seq;
  v_rel : ring_ok (releases x) release_seq;
  v_dims : a_slots (data x) = slots s /\ slot_len (data x) = chunk_bytes s;
  v_order : tail (releases x) <= head (data x) /\ tail (data x) <= n + 1;
  v_window : tail (data x) - head (releases x) <= slots s;
  v_slots : forall j, head (releases x) <= j < filled x -> j < n -> slot_holds (data x) j;
  v_prod : prod_ok x;
  v_cons : cons_ok x
}.

(** ** Frames *)

Lemma n_bound : 0 <= n /\ n + 1 < USIZE.
Proof.
  pose proof (chunks_spec s Hs) as (H0 & _). destruct Hs as [_ _ Hsl _ Hg].
  destruct (div_ceil_spec n (slots s)) as [Hq|[H1 _]]; [lia|lia|split; [lia|nia]|lia].
Qed.

Lemma data_frame_ok j : 0 <= j < n -> frame_ok (data_frame j).
Proof.
  intros Hj. destruct (chunk_meta_ok s j Hs Hj) as (_ & Hpos & Hle & _ & _ & Hslot & Hgen).
  pose proof (sk_total _ Hs). pose proof (sk_chunk _ Hs). pose proof (sk_slots _ Hs).
  pose proof (checksum_word false (chunk_of s source j)) as Hc. unfold payload_checksum in Hc. rewrite andb_false_r in Hc.
  unfold frame_ok, data_frame, chunk_len. simpl. splits; nia.
Qed.

Lemma aggregate_word k : Z.of_nat k <= n -> 0 <= aggregate_of k < USIZE.
Proof.
  induction k as [|k IH]; intros Hk; [simpl; lia|]. cbn [aggregate_of].
  apply fold_checksum_word; [apply IH; lia|]. by apply (data_frame_ok (Z.of_nat k) ltac:(lia)).
Qed.

Lemma complete_frame_ok : frame_ok complete_frame.
Proof.
  pose proof n_bound. pose proof (sk_total _ Hs). pose proof (aggregate_word (Z.to_nat n) ltac:(lia)).
  unfold frame_ok, complete_frame. simpl. splits.
Qed.

Lemma data_seq_ok j : 0 <= j <= n -> frame_ok (data_seq j).
Proof.
  intros Hj. unfold data_seq. destruct (Z.ltb_spec j n); [apply data_frame_ok; lia|apply complete_frame_ok].
Qed.

Lemma frame_ok_kind f k :
  frame_ok f -> frame_ok (mkFrame k (flags f) (transfer_id f) (offset f) (frame.slot f) (frame.generation f) (frame.len f)
    (frame.checksum f)).
Proof. exact id. Qed.

Lemma release_seq_ok j : 0 <= j <= n -> frame_ok (release_seq j).
Proof.
  intros Hj. unfold release_seq. destruct (Z.ltb_spec j n) as [l|]; [|apply complete_frame_ok].
  exact (frame_ok_kind (data_frame j) Released (data_frame_ok j (conj (proj1 Hj) l))).
Qed.

Lemma aggregate_next j : 0 <= j ->
  aggregate_of (Z.to_nat (j + 1)) = fold_checksum (aggregate_of (Z.to_nat j)) (data_frame j).
Proof.
  intros Hj. replace (Z.to_nat (j + 1)) with (S (Z.to_nat j)) by lia. cbn [aggregate_of]. by rewrite Z2Nat.id.
Qed.

(** ** The descriptor ring *)

Lemma cursor_sub (h t : Z) : 0 <= h <= t -> t < USIZE -> wrapping_sub t h = t - h.
Proof. intros. unfold wrapping_sub. apply Z.mod_small. lia. Qed.

Lemma descriptor_in a seq j :
  ring_ok a seq ->
  HEADER_LEN <= descriptor_ptr a j /\ descriptor_ptr a j + FRAME_LEN <= payload_offset a /\
  payload_offset a <= Z.of_nat (length (mem a)).
Proof.
  intros [Ha _ _ _]. destruct (descriptor_index a j Ha) as [-> Hr]. pose proof (lo_descriptors _ _ _ _ _ (ao_layout _ Ha)).
  pose proof (lo_len _ _ _ _ _ (ao_layout _ Ha)) as [Hl _]. pose proof (ao_slots _ Ha). unfold FRAME_LEN in *. nia.
Qed.

Lemma ring_push a seq :
  ring_ok a seq -> tail a - head a < slots s + 2 -> tail a + 1 < USIZE ->
  exists a', push a (seq (tail a)) = Some (OK a') /\ ring_ok a' seq /\ head a' = head a /\ tail a' = tail a + 1 /\
    a_slots a' = a_slots a /\ slot_len a' = slot_len a /\ payload_offset a' = payload_offset a /\
    (forall off m, payload_offset a <= off -> peek (mem a') off m = peek (mem a) off m).
Proof.
  intros Hr Hroom Hu. pose proof Hr as [Ha Hh Hc Hf]. unfold push.
  rewrite cursor_sub by lia. destruct (Z.leb_spec (descriptor_capacity a) (tail a - head a)); [lia|].
  destruct (descriptor_in a seq (tail a) Hr) as (Hd1 & Hd2 & Hd3). change HEADER_LEN with 448 in Hd1.
  assert (Z.of_nat (length (encode (seq (tail a)))) = FRAME_LEN) as Hlen by done.
  destruct (poke (mem a) (descriptor_ptr a (tail a)) (encode (seq (tail a)))) as [m| |] eqn:Hp;
    [|rewrite poke_in in Hp by (rewrite ?Hlen; lia); done..].
  cbn [mbind outcome_bind]. destruct (Z.ltb_spec (tail a + 1) USIZE); [|lia].
  eexists. split; [done|]. pose proof (poke_length _ _ _ _ Hp) as Hlm. splits; cycle 1.
  { intros off k Ho. simpl. eapply peek_poke_other; [done|lia|]. right. rewrite Hlen. lia. }
  split; simpl; [|lia|done|].
  - destruct Ha as [Hlay Hsl]. split; simpl; [by rewrite Hlm|done].
  - intros j Hj. destruct (decide (j = tail a)) as [->|Hne].
    + pose proof (peek_poke_same _ _ _ _ Hp) as Hs'. rewrite Hlen in Hs'. exact Hs'.
    + rewrite <- Hf by lia. destruct (descriptor_in a seq j Hr) as (Hj1 & _). change HEADER_LEN with 448 in Hj1.
      eapply peek_poke_other; [done|unfold descriptor_ptr in *; simpl; lia|].
      destruct (descriptor_index a j Ha) as [Ej Rj]. destruct (descriptor_index a (tail a) Ha) as [Et Rt].
      change (descriptor_ptr _ j) with (descriptor_ptr a j). rewrite Hlen, Ej, Et.
      assert (j mod descriptor_capacity a <> tail a mod descriptor_capacity a) as Hm.
      { intros Heq. apply mod_inj in Heq; lia. }
      unfold FRAME_LEN in *. lia.
Qed.

Lemma ring_pop a seq :
  ring_ok a seq -> head a < tail a -> tail a < USIZE -> frame_ok (seq (head a)) ->
  exists a', pop a = Some (OK (Ok (seq (head a)), a')) /\ ring_ok a' seq /\ head a' = head a + 1 /\
    tail a' = tail a /\ a_slots a' = a_slots a /\ slot_len a' = slot_len a /\
    payload_offset a' = payload_offset a /\ mem a' = mem a.
Proof.
  intros Hr Hlt Hu Hok. pose proof Hr as [Ha Hh Hc Hf]. unfold pop. rewrite cursor_sub by lia.
  destruct (Z.eqb_spec (tail a - head a) 0); [lia|]. rewrite (Hf (head a)) by lia. cbn [mbind outcome_bind].
  destruct (Z.ltb_spec (head a + 1) USIZE); [|lia]. rewrite (decode_encode _ Hok).
  eexists. split; [done|]. splits. split; simpl; [|lia|done|].
  - by destruct Ha.
  - intros j Hj. apply Hf. lia.
Qed.

Lemma ring_empty a seq : ring_ok a seq -> head a = tail a -> tail a < USIZE -> pop a = None.
Proof.
  intros [_ Hh _ _] He Hu. unfold pop. rewrite cursor_sub by lia. by rewrite He, Z.sub_diag.
Qed.

(** ** Payload slots *)

Lemma chunk_of_length j : 0 <= j < n -> Z.of_nat (length (chunk_of s source j)) = chunk_len j.
Proof.
  intros Hj. destruct (chunk_meta_ok s j Hs Hj) as (_ & Hpos & Hle & _). unfold chunk_of, chunk_len.
  rewrite length_slice; [lia|]. pose proof (sk_chunk _ Hs). nia.
Qed.

Lemma slot_bounds a seq j :
  ring_ok a seq -> a_slots a = slots s -> slot_len a = chunk_bytes s -> 0 <= j < n ->
  check_slot a (j mod slots s) (chunk_len j) = Ok tt /\ 0 <= payload_offset a /\
  0 < chunk_len j <= chunk_bytes s /\ 0 <= j mod slots s /\
  payload_offset a + j mod slots s * slot_len a + slot_len a <= Z.of_nat (length (mem a)).
Proof.
  intros Hr Hsl Hlen Hj. destruct (chunk_meta_ok s j Hs Hj) as (_ & Hpos & Hle & _ & _ & Hslot & _).
  destruct (descriptor_in a seq 0 Hr) as (H1 & H2 & _). change HEADER_LEN with 448 in H1. unfold FRAME_LEN in H2.
  pose proof (lo_len _ _ _ _ _ (ao_layout _ (rk_arena _ _ Hr))) as [Hl _]. pose proof (sk_chunk _ Hs).
  unfold check_slot, chunk_len in *. rewrite Hl, Hsl, Hlen. splits; [|nia].
  destruct (Z.leb_spec (slots s) (j mod slots s)); [lia|].
  destruct (Z.eqb_spec (Z.min (total_bytes s - j * chunk_bytes s) (chunk_bytes s)) 0); [lia|].
  destruct (Z.ltb_spec (chunk_bytes s) (Z.min (total_bytes s - j * chunk_bytes s) (chunk_bytes s))); [lia|done].
Qed.

Lemma read_slot_ok a seq j :
  ring_ok a seq -> a_slots a = slots s -> slot_len a = chunk_bytes s -> 0 <= j < n -> slot_holds a j ->
  read_slot a (j mod slots s) (chunk_len j) = OK (Ok (chunk_of s source j)).
Proof.
  intros Hr Hsl Hlen Hj Hh. destruct (slot_bounds a seq j Hr Hsl Hlen Hj) as (Hc & _).
  unfold read_slot. rewrite Hc. unfold slot_holds in Hh. by rewrite Hh.
Qed.

(** Filling the slot of chunk [j] leaves the descriptors and the chunks in other
    slots alone. *)
Lemma write_slot_ok a seq j :
  ring_ok a seq -> a_slots a = slots s -> slot_len a = chunk_bytes s -> 0 <= j < n ->
  exists a', write_slot a (j mod slots s) (chunk_len j) (chunk_of s source j) = OK (Ok a') /\
    ring_ok a' seq /\ head a' = head a /\ tail a' = tail a /\ a_slots a' = a_slots a /\
    slot_len a' = slot_len a /\ slot_holds a' j /\
    (forall i, 0 <= i < n -> i mod slots s <> j mod slots s -> slot_holds a i -> slot_holds a' i).
Proof.
  intros Hr Hsl Hlen Hj. destruct (slot_bounds a seq j Hr Hsl Hlen Hj) as (Hc & Hpo & Hcl & Hm & Hin).
  pose proof (chunk_of_length j Hj) as Hcl'. unfold write_slot. rewrite Hc.
  destruct (poke (mem a) (payload_offset a + j mod slots s * slot_len a) (chunk_of s source j)) as [m| |] eqn:Hp;
    [|rewrite poke_in in Hp by nia; done..].
  cbn [mbind outcome_bind]. pose proof (poke_length _ _ _ _ Hp) as Hlm. eexists. split; [done|]. splits.
  - pose proof Hr as [[Hlay Hs2] Hh Hroom Hf]. split; simpl; [split; simpl; [by rewrite Hlm|done]|done|done|].
    intros i Hi. rewrite <- (Hf i Hi). destruct (descriptor_in a seq i Hr) as (H1 & H2 & _).
    change HEADER_LEN with 448 in H1.
    eapply peek_poke_other; [done|unfold descriptor_ptr in *; simpl; lia|]. left.
    change (descriptor_ptr _ i) with (descriptor_ptr a i). nia.
  - unfold slot_holds. simpl. rewrite <- Hcl'. by eapply peek_poke_same.
  - intros i Hi Hne Hh. unfold slot_holds in *. simpl. rewrite <- Hh.
    destruct (slot_bounds a seq i Hr Hsl Hlen Hi) as (_ & _ & Hci & Hmi & _).
    eapply peek_poke_other; [done|nia|]. rewrite Hcl', Hlen. nia.
Qed.

(** ** Validation succeeds on the frames of the transfer *)

Lemma validate_chunk_ok avx2 a seq j :
  ring_ok a seq -> a_slots a = slots s -> slot_len a = chunk_bytes s -> 0 <= j < n -> slot_holds a j ->
  validate_chunk avx2 a (data_frame j) j s tid fl = OK (Ok tt).
Proof.
  intros Hr Hsl Hlen Hj Hh. destruct (chunk_meta_ok s j Hs Hj) as (Hm & _). unfold validate_chunk. rewrite Hm.
  fold (chunk_len j). rewrite (read_slot_ok a seq j) by done. cbn [mbind outcome_bind result_bind].
  unfold frame_eqb. rewrite bool_decide_eq_true_2; [done|]. unfold data_frame. f_equal.
  unfold payload_checksum. by destruct (_ && _); rewrite ?avx2_scalar.
Qed.

Lemma validate_release_ok j : 0 <= j < n -> validate_release (release_seq j) j s tid fl = Ok tt.
Proof.
  intros Hj. destruct (chunk_meta_ok s j Hs Hj) as (Hm & _). unfold validate_release. rewrite Hm. simpl.
  unfold release_seq. destruct (Z.ltb_spec j n); [|lia]. unfold kind_is. simpl. unfold chunk_len.
  by rewrite !Z.eqb_refl.
Qed.

Lemma validate_complete_ok : validate_complete complete_frame s tid fl (aggregate_of (Z.to_nat n)) = Ok tt.
Proof. unfold validate_complete, kind_is. simpl. by rewrite !Z.eqb_refl. Qed.

(** ** The producer's steps *)

Lemma filled_ge x : tail (data x) <= filled x.
Proof. unfold filled. destruct (prod x); lia. Qed.

(** A producer step that does not touch the arenas, or pops a release. *)
Lemma inv_prod x r c :
  inv x -> ring_ok r release_seq -> head (releases x) <= head r -> tail r = tail (releases x) ->
  filled (set_prod x (data x) r c) = tail (data x) -> prod_ok (set_prod x (data x) r c) ->
  inv (set_prod x (data x) r c).
Proof.
  intros [Hd Hr Hdim Ho Hw Hsl Hp Hc] Hr' Hh Ht Hf Hp'. split; simpl; try done.
  - by rewrite Ht.
  - lia.
  - intros j Hj Hjn. rewrite Hf in Hj. apply Hsl; [|done]. pose proof (filled_ge x). lia.
  - unfold cons_ok in *. simpl. by rewrite Ht.
Qed.

Lemma pop_release_ok x k o :
  inv x -> pop_release x k = Some o ->
  head (releases x) < tail (releases x) /\
  exists r, ring_ok r release_seq /\ head r = head (releases x) + 1 /\ tail r = tail (releases x) /\
    o = OK (set_prod x (data x) r
      (match k (release_seq (head (releases x))) with Ok c => c | Err e => PFailed e end)).
Proof.
  intros Hi. pose proof n_bound as Hn. pose proof (v_order _ Hi) as [Ho1 Ho2].
  pose proof (rk_head _ _ (v_rel _ Hi)) as Hh. pose proof (rk_head _ _ (v_data _ Hi)) as Hhd.
  unfold pop_release. destruct (decide (head (releases x) = tail (releases x))) as [He|Hne].
  { rewrite (ring_empty _ release_seq (v_rel _ Hi) He) by lia. done. }
  destruct (ring_pop _ release_seq (v_rel _ Hi)) as (r & -> & Hr & H1 & H2 & _);
    [lia|lia|apply release_seq_ok; lia|].
  cbn [mbind outcome_bind]. intros [= <-]. split; [lia|]. exists r. splits.
Qed.

Lemma push_data_ok x c o :
  inv x -> push_data x (data_seq (tail (data x))) c = Some o -> tail (data x) <= n ->
  exists d, ring_ok d data_seq /\ head d = head (data x) /\ tail d = tail (data x) + 1 /\
    a_slots d = a_slots (data x) /\ slot_len d = slot_len (data x) /\
    (forall j, 0 <= j < n -> slot_holds (data x) j -> slot_holds d j) /\
    o = OK (set_prod x d (releases x) c).
Proof.
  intros Hi Ho Ht. pose proof n_bound as Hn. pose proof (v_order _ Hi) as [Ho1 Ho2].
  pose proof (v_window _ Hi) as Hw. pose proof (rk_head _ _ (v_rel _ Hi)) as Hh.
  pose proof (v_dims _ Hi) as [Hd1 Hd2].
  destruct (ring_push (data x) data_seq (v_data _ Hi)) as (d & Hp & Hr & H1 & H2 & H3 & H4 & H5 & H6); [lia|lia|].
  unfold push_data in Ho. rewrite Hp in Ho. injection Ho as <-. cbn [mbind outcome_bind]. exists d. splits.
  intros j Hj Hh'. unfold slot_holds in *. rewrite H5, H4, H6; [done|].
  destruct (slot_bounds _ _ j (v_data _ Hi) Hd1 Hd2 Hj) as (_ & _ & _ & Hm & _).
  pose proof (ao_slots _ (rk_arena _ _ (v_data _ Hi))). nia.
Qed.

(** The push of a data descriptor publishes the filled slot. *)
Lemma inv_push_data x d c :
  inv x -> ring_ok d data_seq -> head d = head (data x) -> tail d = tail (data x) + 1 ->
  a_slots d = a_slots (data x) -> slot_len d = slot_len (data x) ->
  (forall j, 0 <= j < n -> slot_holds (data x) j -> slot_holds d j) ->
  tail d <= n + 1 -> tail d - head (releases x) <= slots s ->
  (forall j, j < n -> j < tail d -> j < filled x) -> (match c with PPush _ _ _ _ _ => False | _ => True end) ->
  prod_ok (set_prod x d (releases x) c) -> inv (set_prod x d (releases x) c).
Proof.
  intros [Hd Hr Hdim Ho Hw Hsl Hp Hc] Hd' H1 H2 H3 H4 Hk Ht Hw' Hf Hnp Hp'. split; simpl; try done.
  - by rewrite H3, H4.
  - lia.
  - intros j Hj Hjn. assert (filled (set_prod x d (releases x) c) = tail d) as Hfl' by (by destruct c).
    rewrite Hfl' in Hj. pose proof (rk_head _ _ Hr). apply Hk; [lia|]. apply Hsl; [|done].
    split; [lia|]. apply Hf; lia.
  - unfold cons_ok in *. simpl. by rewrite H1.
Qed.

Lemma prod_fill_ok x idx released aggregate rest o :
  inv x -> prod x = PFill idx released aggregate rest -> prod_step s tid fl avx2_p x = Some o ->
  exists x', o = OK x' /\ inv x'.
Proof.
  intros Hi Hp. pose proof (v_prod _ Hi) as Hpk. unfold prod_ok in Hpk. rewrite Hp in Hpk.
  destruct Hpk as (Hidx & HP & HL & Hrel & Hagg & Hrest). pose proof (v_dims _ Hi) as [Hd1 Hd2].
  destruct (chunk_meta_ok s idx Hs Hidx) as (Hm & Hpos & Hle & _ & Hfull & _).
  unfold prod_step. rewrite Hp, Hm. fold (chunk_len idx) in *.
  assert (take (Z.to_nat (chunk_len idx)) rest = chunk_of s source idx) as Hb by (by rewrite Hrest).
  rewrite Hb. destruct (write_slot_ok (data x) data_seq idx (v_data _ Hi) Hd1 Hd2 Hidx)
    as (d & -> & Hr & Hh & Ht & Ha1 & Ha2 & Hself & Hoth). cbn [mbind outcome_bind].
  rewrite (chunk_of_length idx Hidx), Z.ltb_irrefl. intros [= <-]. eexists. split; [done|].
  assert (payload_checksum avx2_p (chunk_of s source idx) = checksum_scalar (chunk_of s source idx)) as ->
    by (unfold payload_checksum; by destruct (_ && _); rewrite ?avx2_scalar).
  destruct Hi as [Hd Hrr Hdim Ho Hw Hsl Hpr Hc]. pose proof (sk_slots _ Hs) as Hss. split; simpl; try done.
  - by rewrite Ha1, Ha2.
  - rewrite Hh, Ht. lia.
  - rewrite Ht. lia.
  - intros j Hj Hjn. unfold filled in Hj. simpl in Hj. rewrite Ht in Hj. pose proof (rk_head _ _ Hrr).
    destruct (decide (j = idx)) as [->|Hne]; [done|]. apply Hoth; [lia| |].
    + intros Heq. apply mod_inj in Heq; lia.
    + apply Hsl; [|done]. unfold filled. rewrite Hp. lia.
  - unfold prod_ok. simpl. rewrite Ht, aggregate_next by lia. rewrite Hagg. splits.
    intros Hlast. rewrite Hrest, drop_drop. f_equal. rewrite (Hfull ltac:(lia)). pose proof (sk_chunk _ Hs). nia.
  - unfold cons_ok in *. simpl. by rewrite Hh.
Qed.

Lemma prod_step_ok x o :
  inv x -> prod_step s tid fl avx2_p x = Some o -> exists x', o = OK x' /\ inv x'.
Proof.
  intros Hi Hst. destruct (prod x) as [idx rel agg rest|idx rel agg rest|idx rel agg f rest|rel agg|agg|agg|agg|e|] eqn:Hp.
  all: pose proof (v_prod _ Hi) as Hpk; unfold prod_ok in Hpk; rewrite Hp in Hpk; pose proof n_bound as Hn;
    pose proof (v_rel _ Hi) as Hr; pose proof (rk_head _ _ Hr) as Hh; pose proof (v_order _ Hi) as Hord;
    pose proof (sk_slots _ Hs) as Hss; pose proof (rk_head _ _ (v_data _ Hi)) as Hhd.
  2:{ by eapply prod_fill_ok. }
  all: unfold prod_step in Hst; rewrite Hp in Hst.
  - destruct Hpk as (Hidx & HP & HL & Hrel & Hagg & Hrest). destruct (Z.ltb_spec idx n).
    + destruct (Z.leb_spec (slots s) idx).
      * destruct (pop_release_ok _ _ _ Hi Hst) as (Hlt & r & Hr' & H1 & H2 & ->).
        rewrite HL, validate_release_ok by lia. cbn [result_bind]. eexists. split; [done|].
        apply inv_prod; try done; [lia|]. unfold prod_ok. simpl. specialize (Hrest ltac:(lia)). splits.
      * injection Hst as <-. eexists. split; [done|]. apply inv_prod; try done.
        unfold prod_ok. simpl. specialize (Hrest ltac:(lia)). splits.
    + injection Hst as <-. eexists. split; [done|]. apply inv_prod; try done.
      unfold prod_ok. simpl. assert (idx = n) as -> by lia. splits.
  - destruct Hpk as (Hidx & HP & HL & Hrel & Hf & Hagg & Hrest).
    assert (f = data_seq (tail (data x))) as Ef.
    { unfold data_seq. rewrite HP. destruct (Z.ltb_spec idx n); [done|lia]. }
    rewrite Ef in Hst. destruct (push_data_ok _ _ _ Hi Hst ltac:(lia)) as (d & Hd & H1 & H2 & H3 & H4 & H5 & ->).
    eexists. split; [done|]. pose proof (v_window _ Hi).
    apply inv_push_data; try done; [lia|lia| |].
    + intros j _ Hj. unfold filled. rewrite Hp. lia.
    + unfold prod_ok. simpl. rewrite H2, HP. splits.
  - destruct Hpk as (HP & HL & Hrel & Hagg). destruct (Z.ltb_spec rel n).
    + destruct (pop_release_ok _ _ _ Hi Hst) as (Hlt & r & Hr' & H1 & H2 & ->).
      rewrite HL, validate_release_ok by lia. cbn [result_bind]. eexists. split; [done|].
      apply inv_prod; try done; [lia|]. unfold prod_ok. simpl. splits.
    + injection Hst as <-. eexists. split; [done|]. apply inv_prod; try done.
      unfold prod_ok. simpl. splits.
  - destruct Hpk as (HP & HL & Hagg).
    assert (mkFrame Complete fl tid (total_bytes s) 0 0 0 agg = data_seq (tail (data x))) as Ef.
    { unfold data_seq. rewrite HP. destruct (Z.ltb_spec n n); [lia|]. by rewrite Hagg. }
    rewrite Ef in Hst. destruct (push_data_ok _ _ _ Hi Hst ltac:(lia)) as (d & Hd & H1 & H2 & H3 & H4 & H5 & ->).
    eexists. split; [done|]. apply inv_push_data; try done; [lia|lia| |].
    + intros j Hjn Hj. unfold filled. rewrite Hp. lia.
    + unfold prod_ok. simpl. splits.
  - destruct Hpk as (HP & HL & Hagg). destruct (pop_release_ok _ _ _ Hi Hst) as (Hlt & r & Hr' & H1 & H2 & ->).
    assert (release_seq (head (releases x)) = complete_frame) as ->.
    { unfold release_seq. rewrite HL. destruct (Z.ltb_spec n n); [lia|done]. }
    rewrite Hagg, validate_complete_ok. cbn [result_bind]. eexists. split; [done|].
    apply inv_prod; try done; [lia|]. unfold prod_ok. simpl. splits.
  - done.
  - done.
  - done.
Qed.
(** ** The consumer's steps *)

(** A consumer step pops data, pushes a release, or only moves its program
    counter. *)
Lemma inv_cons x d r c :
  inv x -> ring_ok d data_seq -> ring_ok r release_seq -> head (data x) <= head d -> tail d = tail (data x) ->
  a_slots d = a_slots (data x) -> slot_len d = slot_len (data x) -> payload_offset d = payload_offset (data x) ->
  mem d = mem (data x) -> head r = head (releases x) -> tail r <= head d ->
  cons_ok (set_cons x d r c) -> inv (set_cons x d r c).
Proof.
  intros [Hd Hr Hdim Ho Hw Hsl Hp Hc] Hd' Hr' Hh Ht H1 H2 H3 H4 H5 H6 Hc'. split; simpl; try done.
  - by rewrite H1, H2.
  - lia.
  - by rewrite Ht, H5.
  - intros j Hj Hjn. unfold slot_holds. rewrite H2, H3, H4. apply Hsl; [|done].
    unfold filled in *. simpl in Hj. by rewrite Ht, H5 in Hj.
  - unfold prod_ok in *. simpl. by rewrite Ht, H5.
Qed.

(** The chunk under the consumer's hands is in its slot. *)
Lemma cons_slot_holds x idx : inv x -> 0 <= idx < n -> head (data x) = idx + 1 -> tail (releases x) = idx ->
  slot_holds (data x) idx.
Proof.
  intros Hi Hidx HC HR. pose proof (filled_ge x). pose proof (rk_head _ _ (v_data _ Hi)).
  pose proof (rk_head _ _ (v_rel _ Hi)). apply (v_slots _ Hi); lia.
Qed.

Lemma out_next idx : 0 <= idx < n ->
  take (Z.to_nat (Z.min (total_bytes s) (idx * chunk_bytes s))) source ++ chunk_of s source idx =
  take (Z.to_nat (Z.min (total_bytes s) ((idx + 1) * chunk_bytes s))) source.
Proof.
  intros Hidx. destruct (chunk_meta_ok s idx Hs Hidx) as (_ & Hpos & Hle & _). pose proof (sk_chunk _ Hs).
  unfold chunk_of, slice, chunk_len in *.
  replace (Z.to_nat (Z.min (total_bytes s) (idx * chunk_bytes s))) with (Z.to_nat (idx * chunk_bytes s)) by nia.
  rewrite take_take_drop. f_equal. nia.
Qed.

Lemma push_release_ok x c o :
  inv x -> push_release x (release_seq (tail (releases x))) c = Some o -> tail (releases x) <= n ->
  exists r, ring_ok r release_seq /\ head r = head (releases x) /\ tail r = tail (releases x) + 1 /\
    o = OK (set_cons x (data x) r c).
Proof.
  intros Hi Ho Ht. pose proof n_bound as Hn. pose proof (v_order _ Hi) as [Ho1 Ho2].
  pose proof (v_window _ Hi) as Hw. pose proof (rk_head _ _ (v_data _ Hi)) as Hh.
  destruct (ring_push (releases x) release_seq (v_rel _ Hi)) as (r & Hp & Hr & H1 & H2 & _); [lia|lia|].
  unfold push_release in Ho. rewrite Hp in Ho. injection Ho as <-. exists r. splits.
Qed.

Lemma cons_top_ok x idx aggregate out o :
  inv x -> cons x = CTop idx aggregate out -> cons_step s tid fl avx2_c x = Some o ->
  exists x', o = OK x' /\ inv x'.
Proof.
  intros Hi Hp Hst. pose proof (v_cons _ Hi) as Hck. unfold cons_ok in Hck. rewrite Hp in Hck.
  destruct Hck as (Hidx & HC & HR & Hagg & Hout). pose proof n_bound as Hn. pose proof (v_order _ Hi) as [Ho1 Ho2].
  pose proof (rk_head _ _ (v_data _ Hi)) as Hh. pose proof (v_rel _ Hi) as Hr.
  unfold cons_step in Hst. rewrite Hp in Hst.
  destruct (decide (head (data x) = tail (data x))) as [He|Hne].
  { by rewrite (ring_empty _ data_seq (v_data _ Hi) He) in Hst by lia. }
  destruct (ring_pop _ data_seq (v_data _ Hi)) as (d & Hpop & Hd & H1 & H2 & H3 & H4 & H5 & H6);
    [lia|lia|apply data_seq_ok; lia|].
  rewrite Hpop in Hst. cbn [mbind outcome_bind] in Hst. injection Hst as <-. eexists. split; [done|].
  apply inv_cons; try done; try lia. unfold cons_ok, data_seq. rewrite HC. simpl.
  destruct (Z.ltb_spec idx n); simpl; [splits|].
  assert (idx = n) as -> by lia. splits. rewrite Hout. f_equal.
  destruct (chunks_spec s Hs) as (_ & _ & Hcov). lia.
Qed.

Lemma cons_step_ok x o :
  inv x -> cons_step s tid fl avx2_c x = Some o -> exists x', o = OK x' /\ inv x'.
Proof.
  intros Hi Hst. destruct (cons x) as [idx agg out|idx agg out f|idx agg out f|idx agg out f|agg out f|agg out f|agg out|e|] eqn:Hp.
  1: by eapply cons_top_ok.
  all: pose proof (v_cons _ Hi) as Hck; unfold cons_ok in Hck; rewrite Hp in Hck; pose proof n_bound as Hn;
    pose proof (v_rel _ Hi) as Hr; pose proof (v_data _ Hi) as Hd; pose proof (v_order _ Hi) as Hord;
    pose proof (v_dims _ Hi) as [Hd1 Hd2]; pose proof (rk_head _ _ (v_data _ Hi)) as Hhd.
  all: unfold cons_step in Hst; rewrite Hp in Hst.
  - destruct Hck as (Hidx & HC & HR & Hagg & -> & Hout). pose proof (cons_slot_holds x idx Hi Hidx HC HR) as Hh.
    rewrite (validate_chunk_ok avx2_c _ _ idx Hd Hd1 Hd2 Hidx Hh) in Hst. injection Hst as <-.
    eexists. split; [done|]. apply inv_cons; try done; try lia; unfold cons_ok; simpl; splits.
  - destruct Hck as (Hidx & HC & HR & Hagg & -> & Hout). pose proof (cons_slot_holds x idx Hi Hidx HC HR) as Hh.
    simpl in Hst. rewrite (read_slot_ok _ _ idx Hd Hd1 Hd2 Hidx Hh) in Hst. injection Hst as <-.
    eexists. split; [done|]. apply inv_cons; try done; try lia. unfold cons_ok. simpl.
    rewrite aggregate_next, <- out_next by lia. rewrite Hagg, Hout. splits.
  - destruct Hck as (Hidx & HC & HR & Hagg & -> & Hout).
    assert (release_frame idx = release_seq (tail (releases x))) as Ef.
    { unfold release_seq. rewrite HR. destruct (Z.ltb_spec idx n); [done|lia]. }
    fold (release_frame idx) in Hst. rewrite Ef in Hst.
    destruct (push_release_ok _ _ _ Hi Hst ltac:(lia)) as (r & Hr' & H1 & H2 & ->).
    eexists. split; [done|]. apply inv_cons; try done; try lia. unfold cons_ok. simpl. rewrite H2, HC, HR. splits.
  - destruct Hck as (HC & HR & Hagg & -> & Hout). rewrite Hagg, validate_complete_ok in Hst. injection Hst as <-.
    eexists. split; [done|]. apply inv_cons; try done; try lia; unfold cons_ok; simpl; splits.
  - destruct Hck as (HC & HR & Hagg & -> & Hout).
    assert (complete_frame = release_seq (tail (releases x))) as Ef.
    { unfold release_seq. rewrite HR. destruct (Z.ltb_spec n n); [lia|done]. }
    rewrite Ef in Hst. destruct (push_release_ok _ _ _ Hi Hst ltac:(lia)) as (r & Hr' & H1 & H2 & ->).
    eexists. split; [done|]. apply inv_cons; try done; try lia; unfold cons_ok; simpl; splits.
  - done.
  - done.
  - done.
Qed.

(** ** Every step, from a fresh pair of arenas *)

Lemma step_ok x e o :
  inv x -> step s tid fl avx2_p avx2_c x e = Some o -> exists x', o = OK x' /\ inv x'.
Proof.
  intros Hi Hst. destruct e; simpl in Hst; [by eapply prod_step_ok|by eapply cons_step_ok| |].
  - destruct (prod_over _); [done|]. injection Hst as <-. eexists. split; [done|].
    apply inv_prod; try done; [apply (v_rel _ Hi)|]. unfold prod_ok. simpl. apply (v_window _ Hi).
  - destruct (cons_over _) eqn:Hov; [done|]. injection Hst as <-. eexists. split; [done|]. pose proof (v_order _ Hi).
    pose proof (v_cons _ Hi) as Hck. pose proof n_bound.
    apply inv_cons; try done; [apply (v_data _ Hi)|apply (v_rel _ Hi)|lia|].
    unfold cons_ok in *. simpl. destruct (cons x); simpl in *; try done; lia.
Qed.

Record fresh a : Prop := {
  fr_arena : arena_ok a;
  fr_head : head a = 0;
  fr_tail : tail a = 0;
  fr_room : slots s + 2 <= descriptor_capacity a < U32
}.

Lemma transfer_inv_initial d r :
  fresh d -> fresh r -> a_slots d = slots s -> slot_len d = chunk_bytes s -> inv (initial d r source).
Proof.
  intros [Hd1 Hd2 Hd3 Hd4] [Hr1 Hr2 Hr3 Hr4] H1 H2. pose proof n_bound. pose proof (sk_slots _ Hs).
  split; simpl; try done; try (split; [done|lia|done|lia]).
  - lia.
  - lia.
  - unfold filled. simpl. lia.
  - unfold prod_ok. simpl. splits.
  - pose proof (sk_total _ Hs). assert (Z.min (total_bytes s) (0 * chunk_bytes s) = 0) as Hz by lia.
    unfold cons_ok. cbn [cons initial]. rewrite Hz. simpl. splits.
Qed.

Lemma transfer_reachable_inv d r x :
  fresh d -> fresh r -> a_slots d = slots s -> slot_len d = chunk_bytes s ->
  reachable s tid fl avx2_p avx2_c d r source x -> inv x.
Proof.
  intros Hd Hr H1 H2. induction 1 as [|x e x' _ IH Hst]; [by apply transfer_inv_initial|].
  destruct (step_ok x e _ IH Hst) as (x'' & [= <-] & Hi). done.
Qed.
(** ** Custody, agreement and progress, on the invariant *)

Definition in_use_by_producer (c : ppc) : option Z :=
  match c with PFill idx _ _ _ => Some (idx mod slots s) | _ => None end.
Definition in_use_by_consumer (c : cpc) : option Z :=
  match c with CHave _ _ _ f | CWrite _ _ _ f => Some (frame.slot f) | _ => None end.

Lemma inv_custody x i j :
  inv x -> in_use_by_producer (prod x) = Some i -> in_use_by_consumer (cons x) = Some j -> i <> j.
Proof.
  intros Hi. pose proof (v_prod _ Hi) as Hpk. pose proof (v_cons _ Hi) as Hck. unfold prod_ok in Hpk. unfold cons_ok in Hck.
  pose proof (rk_head _ _ (v_rel _ Hi)). pose proof (rk_head _ _ (v_data _ Hi)). pose proof (sk_slots _ Hs).
  destruct (prod x) as [|idx rel agg rest| | | | | | |]; try done. simpl. intros [= <-].
  destruct Hpk as (Hidx & HP & HL & Hrel & _).
  destruct (cons x) as [|jdx ? ? f|jdx ? ? f| | | | | |]; try done; simpl; intros [= <-];
    destruct Hck as (Hjdx & HC & HR & _ & -> & _); simpl; intros Heq; apply mod_inj in Heq; lia.
Qed.

Lemma inv_agree x agg : inv x -> prod x = PDone agg ->
  cons x = CDone agg (take (Z.to_nat (total_bytes s)) source) /\ agg = aggregate_of (Z.to_nat n).
Proof.
  intros Hi Hp. pose proof (v_prod _ Hi) as Hpk. pose proof (v_cons _ Hi) as Hck. unfold prod_ok in Hpk. unfold cons_ok in Hck.
  rewrite Hp in Hpk. destruct Hpk as (HP & HL & ->). pose proof (rk_head _ _ (v_rel _ Hi)).
  destruct (cons x); try lia. by destruct Hck as (_ & _ & -> & ->).
Qed.

(** Where a process waits. *)
Lemma pop_release_stuck x k : inv x -> pop_release x k = None -> head (releases x) = tail (releases x).
Proof.
  intros Hi Hk. pose proof n_bound. pose proof (v_order _ Hi). pose proof (rk_head _ _ (v_rel _ Hi)).
  pose proof (rk_head _ _ (v_data _ Hi)). destruct (decide (head (releases x) = tail (releases x))); [done|].
  destruct (ring_pop _ release_seq (v_rel _ Hi)) as (r & Hr & _); [lia|lia|apply release_seq_ok; lia|].
  unfold pop_release in Hk. by rewrite Hr in Hk.
Qed.

Lemma pop_data_stuck x : inv x -> pop (data x) = None -> head (data x) = tail (data x).
Proof.
  intros Hi Hk. pose proof n_bound. pose proof (v_order _ Hi). pose proof (rk_head _ _ (v_data _ Hi)).
  destruct (decide (head (data x) = tail (data x))); [done|].
  destruct (ring_pop _ data_seq (v_data _ Hi)) as (d & Hr & _); [lia|lia|apply data_seq_ok; lia|].
  by rewrite Hr in Hk.
Qed.

(** The descriptor rings are wide enough: no push ever waits. *)
Lemma push_free a f seq : ring_ok a seq -> tail a - head a < slots s + 2 -> tail a < USIZE -> push a f <> None.
Proof.
  intros Ha Hr Hu. pose proof (rk_head _ _ Ha). pose proof (rk_room _ _ Ha). unfold push. rewrite cursor_sub by lia.
  by destruct (Z.leb_spec (descriptor_capacity a) (tail a - head a)); [lia|].
Qed.

Lemma push_data_free x f c : inv x -> push_data x f c <> None.
Proof.
  intros Hi. pose proof n_bound. pose proof (v_order _ Hi). pose proof (v_window _ Hi). pose proof (rk_head _ _ (v_rel _ Hi)).
  pose proof (push_free (data x) f _ (v_data _ Hi) ltac:(lia) ltac:(lia)). unfold push_data. by destruct (push (data x) f).
Qed.

Lemma push_release_free x f c : inv x -> push_release x f c <> None.
Proof.
  intros Hi. pose proof n_bound. pose proof (v_order _ Hi). pose proof (v_window _ Hi). pose proof (rk_head _ _ (v_data _ Hi)).
  pose proof (push_free (releases x) f _ (v_rel _ Hi) ltac:(lia) ltac:(lia)). unfold push_release. by destruct (push (releases x) f).
Qed.

(** Neither process can block the other forever. *)
Lemma inv_progress x :
  inv x -> prod x <> PAborted -> cons x <> CAborted ->
  prod_step s tid fl avx2_p x = None -> cons_step s tid fl avx2_c x = None ->
  exists agg, prod x = PDone agg /\ cons x = CDone agg (take (Z.to_nat (total_bytes s)) source).
Proof.
  intros Hi Hpa Hca Hps Hcs. pose proof n_bound as Hn. pose proof (v_prod _ Hi) as Hpk. pose proof (v_cons _ Hi) as Hck.
  pose proof (sk_slots _ Hs) as Hss.
  destruct (prod x) as [idx rel agg rest|idx rel agg rest|idx rel agg f rest|rel agg|agg|agg|agg|e|] eqn:Hp; try done.
  all: try (exists agg; split; [done|]; by apply inv_agree).
  all: unfold prod_step in Hps; rewrite Hp in Hps; unfold prod_ok in Hpk; rewrite Hp in Hpk; try done.
  2:{ by destruct (chunk_meta s idx) as [[[[??]?]?]|]. }
  2, 4: by apply push_data_free in Hps.
  1: destruct (Z.ltb_spec idx n); [|done]; destruct (Z.leb_spec (slots s) idx); [|done].
  2: destruct (Z.ltb_spec rel n); [|done].
  all: apply pop_release_stuck in Hps; [|done]; unfold cons_step in Hcs; unfold cons_ok in Hck;
    destruct (cons x); try done; try (by apply push_release_free in Hcs); try lia.
  all: destruct (pop (data x)) eqn:Hpop; [done|]; apply pop_data_stuck in Hpop; [lia|done].
Qed.

(** ** Termination: every step uses up some of the transfer *)

Definition prod_rank (c : ppc) : Z :=
  match c with
  | PTop idx released _ _ => 3 * (n - idx) + (n - released) + 4
  | PFill idx released _ _ => 3 * (n - idx) + (n - released) + 3
  | PPush idx released _ _ _ => 3 * (n - idx) + (n - released) + 2
  | PDrain released _ => n - released + 3
  | PFinish _ => 2
  | PAck _ => 1
  | PDone _ | PFailed _ | PAborted => 0
  end.

Definition cons_rank (c : cpc) : Z :=
  match c with
  | CTop idx _ _ => 4 * (n - idx) + 3
  | CHave idx _ _ _ => 4 * (n - idx) + 2
  | CWrite idx _ _ _ => 4 * (n - idx) + 1
  | CRelease idx _ _ _ => 4 * (n - idx)
  | CComplete _ _ _ => 2
  | CAck _ _ _ => 1
  | CDone _ _ | CFailed _ | CAborted => 0
  end.

Definition rank x : Z := prod_rank (prod x) + cons_rank (cons x).

Lemma rank_nonneg x : inv x -> 0 <= prod_rank (prod x) /\ 0 <= cons_rank (cons x).
Proof.
  intros Hi. pose proof n_bound. pose proof (v_prod _ Hi) as Hpk. pose proof (v_cons _ Hi) as Hck. pose proof (sk_slots _ Hs).
  unfold prod_ok in Hpk. unfold cons_ok in Hck. destruct (prod x), (cons x); simpl; try done; lia.
Qed.

(** Where a step leads, whatever it did to the arenas. *)
Lemma pop_release_leads x k x' : pop_release x k = Some (OK x') ->
  cons x' = cons x /\ ((exists e, prod x' = PFailed e) \/ exists f, k f = Ok (prod x')).
Proof.
  unfold pop_release. destruct (pop (releases x)) as [[[f r]| |]|]; try done. cbn [mbind outcome_bind].
  intros [= <-]. split; [done|]. simpl. destruct f as [f|e]; [|eauto]. destruct (k f) eqn:Ek; eauto.
Qed.

Lemma push_data_leads x f c x' : push_data x f c = Some (OK x') -> cons x' = cons x /\ prod x' = c.
Proof. unfold push_data. destruct (push _ _) as [[d| |]|]; try done. by intros [= <-]. Qed.

Lemma push_release_leads x f c x' : push_release x f c = Some (OK x') -> prod x' = prod x /\ cons x' = c.
Proof. unfold push_release. destruct (push _ _) as [[d| |]|]; try done. by intros [= <-]. Qed.

Local Ltac finish := split; [done|split; [simpl in *; lia|done]].

Lemma prod_step_rank x x' : inv x -> prod_step s tid fl avx2_p x = Some (OK x') ->
  cons x' = cons x /\ prod_rank (prod x') < prod_rank (prod x) /\ prod x' <> PAborted.
Proof.
  intros Hi Hst. pose proof n_bound. pose proof (v_prod _ Hi) as Hpk. unfold prod_ok in Hpk. unfold prod_step in Hst.
  pose proof (sk_slots _ Hs).
  destruct (prod x) as [idx rel agg rest|idx rel agg rest|idx rel agg f rest|rel agg|agg|agg|agg|e|] eqn:Hp; try done.
  - destruct (Z.ltb_spec idx n); [destruct (Z.leb_spec (slots s) idx)|].
    + apply pop_release_leads in Hst as (-> & [[e ->]|[f Hk]]); [finish|].
      destruct (validate_release _ _ _ _ _); [|done]. injection Hk as <-. finish.
    + injection Hst as <-. finish.
    + injection Hst as <-. finish.
  - destruct (chunk_meta s idx) as [[[[off len] sl] g]|e]; [|injection Hst as <-; finish].
    destruct (write_slot _ _ _ _) as [[d|e]| |]; cbn [mbind outcome_bind] in Hst; try done.
    + case_match; injection Hst as <-; finish.
    + injection Hst as <-. finish.
  - apply push_data_leads in Hst as [-> ->]. finish.
  - destruct (Z.ltb_spec rel n); [|injection Hst as <-; finish].
    apply pop_release_leads in Hst as (-> & [[e ->]|[f Hk]]); [finish|].
    destruct (validate_release _ _ _ _ _); [|done]. injection Hk as <-. finish.
  - apply push_data_leads in Hst as [-> ->]. finish.
  - apply pop_release_leads in Hst as (-> & [[e ->]|[f Hk]]); [finish|].
    destruct (validate_complete _ _ _ _ _); [|done]. injection Hk as <-. finish.
Qed.

Lemma cons_step_rank x x' : inv x -> cons_step s tid fl avx2_c x = Some (OK x') ->
  prod x' = prod x /\ cons_rank (cons x') < cons_rank (cons x) /\ cons x' <> CAborted.
Proof.
  intros Hi Hst. pose proof n_bound. pose proof (v_cons _ Hi) as Hck. unfold cons_ok in Hck. unfold cons_step in Hst.
  destruct (cons x) as [idx agg out|idx agg out f|idx agg out f|idx agg out f|agg out f|agg out f|agg out|e|] eqn:Hp; try done.
  - destruct (pop (data x)) as [[[[f|e] d]| |]|]; try done; cbn [mbind outcome_bind] in Hst; injection Hst as <-; [destruct (Z.ltb_spec idx n)|]; finish.
  - destruct (validate_chunk _ _ _ _ _ _ _) as [[|]| |]; try done; injection Hst as <-; finish.
  - destruct (read_slot _ _ _) as [[|]| |]; try done; injection Hst as <-; finish.
  - apply push_release_leads in Hst as [-> ->]. finish.
  - injection Hst as <-. destruct (validate_complete _ _ _ _ _); finish.
  - apply push_release_leads in Hst as [-> ->]. finish.
Qed.

Lemma step_rank x e x' : inv x -> step s tid fl avx2_p avx2_c x e = Some (OK x') -> rank x' < rank x.
Proof.
  intros Hi Hst. unfold rank. pose proof (rank_nonneg x Hi). pose proof n_bound.
  pose proof (v_prod _ Hi) as Hpk. pose proof (v_cons _ Hi) as Hck. unfold prod_ok in Hpk. unfold cons_ok in Hck.
  pose proof (sk_slots _ Hs). destruct e; simpl in Hst.
  - destruct (prod_step_rank _ _ Hi Hst) as (-> & ? & _). lia.
  - destruct (cons_step_rank _ _ Hi Hst) as (-> & ? & _). lia.
  - destruct (prod_over (prod x)) eqn:Ho; [done|]. injection Hst as <-. simpl. destruct (prod x); simpl in *; try done; lia.
  - destruct (cons_over (cons x)) eqn:Ho; [done|]. injection Hst as <-. simpl. destruct (cons x); simpl in *; try done; lia.
Qed.

Lemma run_ok x es x' :
  inv x -> run s tid fl avx2_p avx2_c x es = Some x' -> inv x' /\ Z.of_nat (length es) <= rank x.
Proof.
  revert x. induction es as [|e es IH]; intros x Hi Hr; simpl in Hr.
  - injection Hr as <-. split; [done|]. pose proof (rank_nonneg x Hi). unfold rank. simpl. lia.
  - destruct (step _ _ _ _ _ x e) as [[y| |]|] eqn:Hst; try done.
    destruct (step_ok x e _ Hi Hst) as (z & [= <-] & Hz). pose proof (step_rank x e y Hi Hst).
    destruct (IH y Hz Hr) as [? ?]. simpl. split; [done|lia].
Qed.

(** Only an abort event aborts. *)
Definition is_abort (e : event) : bool := match e with EProdAbort | EConsAbort => true | _ => false end.

Lemma run_not_aborted x es x' :
  inv x -> run s tid fl avx2_p avx2_c x es = Some x' -> forallb (fun e => negb (is_abort e)) es = true ->
  prod x <> PAborted -> cons x <> CAborted -> prod x' <> PAborted /\ cons x' <> CAborted.
Proof.
  revert x. induction es as [|e es IH]; intros x Hi Hr He Hp Hc; simpl in Hr, He; [by injection Hr as <-|].
  destruct (step _ _ _ _ _ x e) as [[y| |]|] eqn:Hst; try done.
  destruct (step_ok x e _ Hi Hst) as (z & [= <-] & Hz). destruct e; try done; simpl in Hst.
  - destruct (prod_step_rank _ _ Hi Hst) as (E & _ & ?). apply (IH y); try done. by rewrite E.
  - destruct (cons_step_rank _ _ Hi Hst) as (E & _ & ?). apply (IH y); try done. by rewrite E.
Qed.
End invariant.

(** ** A direction as its creator sets it up *)

Lemma created_fresh s region slots' slot_len' cap tid dir a :
  dims_ok slots' slot_len' cap tid dir -> (forall n, 0 <= n -> Z.of_nat (length (region n)) = n) ->
  slots s + 2 <= cap -> Arena_create region slots' slot_len' cap tid dir = OK (Ok a) ->
  fresh s a /\ a_slots a = slots' /\ slot_len a = slot_len'.
Proof.
  intros Hd Hreg Hcap Hc. destruct (arena_layout slots' slot_len' cap) as [[len po]|e] eqn:Hl.
  2:{ unfold Arena_create in Hc. by rewrite Hl in Hc. }
  destruct (Arena_create_spec region slots' slot_len' cap tid dir len po Hd Hreg Hl) as (m & E & Hlm & _).
  rewrite E in Hc. injection Hc as <-. split; [|done]. destruct Hd as (H1 & H2 & H3 & _).
  split; try done; simpl; [|lia]. split; simpl; [|lia]. rewrite Hlm. apply arena_layout_spec; lia || done.
Qed.

(** ** Claims *)

(** What the setup of a direction establishes: a validated shape, two arenas just
    created, the payload arena of the shape's dimensions, descriptor rings two
    longer than the payload slots, and a reader that yields the payload. *)
Record ready (s : StreamShape) (tid fl : Z) (source : list Z) (d r : Arena) : Prop := {
  rd_shape : shape_ok s;
  rd_tid : 0 <= tid < USIZE;
  rd_flags : is_byte fl;
  rd_source : total_bytes s <= Z.of_nat (length source);
  rd_data : fresh s d;
  rd_releases : fresh s r;
  rd_slots : a_slots d = slots s;
  rd_slot_len : slot_len d = chunk_bytes s
}.

(** C24: no schedule of the two processes, aborts included, reads or writes
    outside the arenas, panics, or makes either process reject a frame or a
    payload; and while the producer fills a payload slot the consumer is never
    validating or reading that slot. *)
Theorem transfer_safe (s : StreamShape) (tid fl : Z) (avx2_p avx2_c : bool) (source : list Z) (d r : Arena)
    (x : state) (e : event) (o : outcome state) :
  ready s tid fl source d r -> reachable s tid fl avx2_p avx2_c d r source x ->
  (step s tid fl avx2_p avx2_c x e = Some o ->
    exists x', o = OK x' /\ (forall err, prod x' <> PFailed err) /\ (forall err, cons x' <> CFailed err)) /\
  (forall i j, in_use_by_producer s (prod x) = Some i -> in_use_by_consumer (cons x) = Some j -> i <> j).
Proof.
  intros [H1 H2 H3 H4 H5 H6 H7 H8] Hx. assert (inv s tid fl source x) as Hi by (by apply (transfer_reachable_inv s tid fl avx2_p avx2_c source H1 H2 H3 H4 d r)).
  split; [|by intros i j; eapply inv_custody].
  intros Hst. eapply step_ok in Hst as (x' & -> & Hi'); try done. exists x'. split; [done|].
  pose proof (v_prod _ _ _ _ _ Hi') as Hp. pose proof (v_cons _ _ _ _ _ Hi') as Hc. unfold prod_ok in Hp. unfold cons_ok in Hc.
  split; intros err Heq; [by rewrite Heq in Hp|by rewrite Heq in Hc].
Qed.

(** Ten bytes through two four-byte slots. *)
Definition zeroed (n : Z) : list Z := replicate (Z.to_nat n) 0.
Definition sample_source : list Z := [1; 2; 3; 4; 5; 6; 7; 8; 9; 10].
Definition sample_arena (slots slot_len dir : Z) : Arena :=
  match Arena_create zeroed slots slot_len 8 9 dir with OK (Ok a) => a | _ => mkArena [] 0 0 0 0 0 0 end.
Definition sample_data : Arena := sample_arena 2 4 1.
Definition sample_releases : Arena := sample_arena 0 0 0x80000001.

Lemma zeroed_length n : 0 <= n -> Z.of_nat (length (zeroed n)) = n.
Proof. intros. unfold zeroed. rewrite length_replicate. lia. Qed.

Lemma sample_ready : ready sample_shape 9 0x41 sample_source sample_data sample_releases.
Proof.
  assert (shape_ok sample_shape) as Hs by (apply validate_ok; (vm_compute; by split) || done).
  assert (fresh sample_shape sample_data /\ a_slots sample_data = 2 /\ slot_len sample_data = 4) as (Hd & H1 & H2).
  { apply (created_fresh sample_shape zeroed 2 4 8 9 1);
      [unfold dims_ok; lia|apply zeroed_length|simpl; lia|vm_compute; reflexivity]. }
  assert (fresh sample_shape sample_releases /\ a_slots sample_releases = 0 /\ slot_len sample_releases = 0) as (Hr & _).
  { apply (created_fresh sample_shape zeroed 0 0 8 9 0x80000001);
      [unfold dims_ok; lia|apply zeroed_length|simpl; lia|vm_compute; reflexivity]. }
  split; try done; (vm_compute; by split) || (simpl; lia).
Qed.

Lemma transfer_run_reach s tid fl avx2_p avx2_c d r source x es x' :
  reachable s tid fl avx2_p avx2_c d r source x -> run s tid fl avx2_p avx2_c x es = Some x' ->
  reachable s tid fl avx2_p avx2_c d r source x'.
Proof.
  revert x. induction es as [|e es IH]; intros x Hx Hr; simpl in Hr; [by injection Hr as <-|].
  destruct (step _ _ _ _ _ x e) as [[y| |]|] eqn:Hst; try done. apply (IH y); [by eapply reach_step|done].
Qed.

Definition sample_run (es : list event) : option state :=
  run sample_shape 9 0x41 true false (initial sample_data sample_releases sample_source) es.

(** The producer is about to refill slot 1 while the consumer reads slot 0. *)
Definition mid_schedule : list event := [EProd; EProd; EProd; EProd; EProd; EProd; ECons; ECons; ECons; ECons; EProd; ECons].
Definition mid_state : state := default (initial sample_data sample_releases sample_source) (sample_run mid_schedule).

Lemma transfer_safe_witness :
  (exists x', step sample_shape 9 0x41 true false mid_state EProd = Some (OK x')) /\
  in_use_by_producer sample_shape (prod mid_state) = Some 0 /\ in_use_by_consumer (cons mid_state) = Some 1.
Proof.
  assert (reachable sample_shape 9 0x41 true false sample_data sample_releases sample_source mid_state) as Hx.
  { apply (transfer_run_reach _ _ _ _ _ _ _ _ (initial sample_data sample_releases sample_source) mid_schedule);
      [apply reach_init|vm_compute; reflexivity]. }
  destruct (step sample_shape 9 0x41 true false mid_state EProd) as [o|] eqn:Hst; [|vm_compute in Hst; discriminate].
  pose proof (transfer_safe sample_shape 9 0x41 true false sample_source sample_data sample_releases
    mid_state EProd o sample_ready Hx) as [H _].
  destruct (H Hst) as (x' & -> & _). split; [by exists x'|]. vm_compute. by split.
Defined.


(** C23: a consumer that returns has written exactly the first [total_bytes]
    bytes of the source; a producer returns only after the consumer has, and the
    two return the same aggregate checksum, that of the chunks in order. *)
Theorem transfer_delivers (s : StreamShape) (tid fl : Z) (avx2_p avx2_c : bool) (source : list Z) (d r : Arena)
    (x : state) :
  ready s tid fl source d r -> reachable s tid fl avx2_p avx2_c d r source x ->
  (forall agg out, cons x = CDone agg out ->
    out = take (Z.to_nat (total_bytes s)) source /\ agg = aggregate_of s tid fl source (Z.to_nat (chunks s))) /\
  (forall agg, prod x = PDone agg -> cons x = CDone agg (take (Z.to_nat (total_bytes s)) source)).
Proof.
  intros [H1 H2 H3 H4 H5 H6 H7 H8] Hx. assert (inv s tid fl source x) as Hi by (by apply (transfer_reachable_inv s tid fl avx2_p avx2_c source H1 H2 H3 H4 d r)).
  split.
  - intros agg out Hc. pose proof (v_cons _ _ _ _ _ Hi) as Hk. unfold cons_ok in Hk. rewrite Hc in Hk.
    by destruct Hk as (_ & _ & -> & ->).
  - intros agg Hp. by destruct (inv_agree s tid fl source x agg Hi Hp).
Qed.

(** A complete schedule: each process runs as far as it can, alternately. *)
Definition full_schedule : list event :=
  repeat EProd 6 ++ repeat ECons 8 ++ repeat EProd 5 ++ repeat ECons 4 ++ repeat EProd 3 ++ repeat ECons 3 ++ [EProd].
Definition final_state : state := default (initial sample_data sample_releases sample_source) (sample_run full_schedule).

Lemma transfer_delivers_witness :
  exists agg, prod final_state = PDone agg /\ cons final_state = CDone agg sample_source.
Proof.
  assert (reachable sample_shape 9 0x41 true false sample_data sample_releases sample_source final_state) as Hx.
  { apply (transfer_run_reach _ _ _ _ _ _ _ _ (initial sample_data sample_releases sample_source) full_schedule);
      [apply reach_init|vm_compute; reflexivity]. }
  destruct (prod final_state) as [| | | | | |agg| |] eqn:Hp; try (vm_compute in Hp; discriminate).
  exists agg. split; [done|].
  exact (proj2 (transfer_delivers sample_shape 9 0x41 true false sample_source sample_data sample_releases
    final_state sample_ready Hx) agg Hp).
Defined.

(** C25: a transfer always ends: no schedule has more than [8 * chunks + 7]
    steps, and a schedule without aborts can only stop where both processes have
    returned, the consumer with the whole payload; no push ever finds its ring
    full. *)
Theorem transfer_terminates (s : StreamShape) (tid fl : Z) (avx2_p avx2_c : bool) (source : list Z) (d r : Arena)
    (es : list event) (x : state) :
  ready s tid fl source d r -> run s tid fl avx2_p avx2_c (initial d r source) es = Some x ->
  Z.of_nat (length es) <= 8 * chunks s + 7 /\
  (forallb (fun e => negb (is_abort e)) es = true ->
   step s tid fl avx2_p avx2_c x EProd = None -> step s tid fl avx2_p avx2_c x ECons = None ->
   exists agg, prod x = PDone agg /\ cons x = CDone agg (take (Z.to_nat (total_bytes s)) source)).
Proof.
  intros [H1 H2 H3 H4 H5 H6 H7 H8] Hr.
  assert (inv s tid fl source (initial d r source)) as Hi by (by apply transfer_inv_initial).
  destruct (run_ok s tid fl avx2_p avx2_c source H1 H2 H3 H4 _ _ _ Hi Hr) as [Hi' Hlen]. unfold rank in Hlen. simpl in Hlen.
  split; [lia|]. intros He Hp Hc.
  destruct (run_not_aborted s tid fl avx2_p avx2_c source H1 H2 H3 H4 _ _ _ Hi Hr He) as [Ha Hb]; [done|done|].
  by eapply inv_progress.
Qed.

Lemma transfer_terminates_witness :
  Z.of_nat (length full_schedule) <= 31 /\
  exists agg, prod final_state = PDone agg /\ cons final_state = CDone agg sample_source.
Proof.
  assert (run sample_shape 9 0x41 true false (initial sample_data sample_releases sample_source) full_schedule =
    Some final_state) as Hr by (vm_compute; reflexivity).
  pose proof (transfer_terminates sample_shape 9 0x41 true false sample_source sample_data sample_releases
    full_schedule final_state sample_ready Hr) as [Hlen H].
  split; [exact Hlen|]. apply H; vm_compute; reflexivity.
Defined.


End transfer.
