(* ===== verification/IpcDynamic.v ===== *)
(** * Streams of unknown length: [produce_to_end] and [consume_to_end] of [src/src/ipc/stream.rs]

    The same two arenas and rings as [IpcTransfer.v], with a length that the
    producer discovers at the end of its reader, bounded by [total_bytes] of the
    shape. The reader is a script of what its [read] calls return: interrupted
    calls, short reads, errors; after the script it is at its end. The proof
    relates every state of the two processes to a state of the fixed-length
    transfer of the payload that is actually there. *)

From stdpp Require Import prelude strings.
From S2P Require Import Prelude IpcFrame IpcArena IpcTransfer.
Import frame arena transfer.
Local Open Scope Z_scope.
Local Open Scope prescient_scope.
#[local] Set Warnings "-clear-no-such-hyp".

Module dynamic.

(** ** Readers *)

Inductive read_event : Type := RInterrupted | RBytes (bs : list Z) | RError (e : io_error).
Abbreviation script := (list read_event).

Inductive read_result : Type := GotBytes (bs : list Z) | GotInterrupted | GotError (e : io_error).

(** [Read::read] with a buffer of [n] bytes. *)
Definition read (r : script) (n : nat) : read_result * script :=
  match r with
  | [] => (GotBytes [], [])
  | RInterrupted :: r' => (GotInterrupted, r')
  | RError e :: r' => (GotError e, r')
  | RBytes bs :: r' =>
      (GotBytes (take n bs), match drop n bs with [] => r' | bs' => RBytes bs' :: r' end)
  end.

(** [read_chunk]: its result, and the bytes it has put at the start of the
    destination. Every round uses up an event of the script or fills the
    destination. *)
Fixpoint read_chunk (fuel : nat) (r : script) (filled : list Z) (len : nat) : io unit * list Z * script :=
  match fuel with
  | O => (Err OtherIo, filled, r)
  | S fuel' =>
      if (length filled <? len)%nat then
        match read r (len - length filled) with
        | (GotBytes [], r') => (Ok tt, filled, r')
        | (GotBytes bs, r') => read_chunk fuel' r' (filled ++ bs) len
        | (GotInterrupted, r') => read_chunk fuel' r' filled len
        | (GotError e, r') => (Err e, filled, r')
        end
      else (Ok tt, filled, r)
  end.

(** The one-byte read past the ceiling. *)
Fixpoint check_excess (fuel : nat) (r : script) : io unit :=
  match fuel with
  | O => Err OtherIo
  | S fuel' =>
      match read r 1 with
      | (GotBytes [], _) => Ok tt
      | (GotBytes _, _) => Err (InvalidData "stream exceeded its byte ceiling")
      | (GotInterrupted, r') => check_excess fuel' r'
      | (GotError e, _) => Err e
      end
  end.

(** ** Validation *)

Definition within_ceiling (off len total : Z) : bool :=
  match checked_add off len with Some e => e <=? total | None => false end.

Definition validate_dynamic_chunk (avx2 : bool) (a : Arena) (f : Frame) (chunk_index off : Z) (s : StreamShape)
    (tid fl : Z) : outcome (io unit) :=
  let slot := chunk_index mod slots s in
  match u32_try_from (chunk_index / slots s + 1) with
  | Err e => OK (Err e)
  | Ok generation =>
      if kind_is f Data && (flags f =? fl) && (transfer_id f =? tid) && (offset f =? off) && (frame.slot f =? slot)
         && (frame.generation f =? generation) && (0 <? frame.len f) && (frame.len f <=? chunk_bytes s)
         && within_ceiling off (frame.len f) (total_bytes s)
      then
        b ← read_slot a slot (frame.len f);
        OK (bytes ←? b;
            if frame.checksum f =? payload_checksum avx2 bytes then Ok tt
            else Err (InvalidData "streaming DATA frame or payload is invalid"))
      else OK (Err (InvalidData "streaming DATA frame or payload is invalid"))
  end.

Definition validate_dynamic_release (f : Frame) (chunk_index : Z) (s : StreamShape) (tid fl : Z) : io unit :=
  let slot := chunk_index mod slots s in
  generation ←? u32_try_from (chunk_index / slots s + 1);
  if kind_is f Released && (flags f =? fl) && (transfer_id f =? tid) && (frame.slot f =? slot)
     && (frame.generation f =? generation) && (0 <? frame.len f) && (frame.len f <=? chunk_bytes s)
     && within_ceiling (offset f) (frame.len f) (total_bytes s)
  then Ok tt else Err (InvalidData "streaming RELEASED frame is invalid").

Definition validate_dynamic_complete (f : Frame) (s : StreamShape) (tid fl total aggregate : Z) : io unit :=
  if (total <=? total_bytes s) && kind_is f Complete && (flags f =? fl) && (transfer_id f =? tid) && (offset f =? total)
     && (frame.slot f =? 0) && (frame.generation f =? 0) && (frame.len f =? 0) && (frame.checksum f =? aggregate)
  then Ok tt else Err (InvalidData "streaming COMPLETE frame is invalid").

(** ** The two processes *)

Inductive dpc : Type :=
| DTop (chunks released total aggregate : Z) (r : script)      (* head of the loop *)
| DWait (chunks released total aggregate : Z) (r : script)     (* after the ceiling check *)
| DFill (chunks released total aggregate : Z) (r : script)     (* before [write_slot] *)
| DPush (chunks released total aggregate : Z) (f : Frame) (r : script)
| DDrain (chunks released total aggregate : Z)
| DFinish (chunks total aggregate : Z)
| DAck (chunks total aggregate : Z)
| DDone (aggregate total chunks : Z)
| DFailed (e : io_error)
| DAborted.

Inductive qpc : Type :=
| QTop (chunks total aggregate : Z) (out : list Z)
| QHave (chunks total aggregate : Z) (out : list Z) (f : Frame)
| QWrite (chunks total aggregate : Z) (out : list Z) (f : Frame)
| QRelease (chunks total aggregate : Z) (out : list Z) (f : Frame)
| QComplete (chunks total aggregate : Z) (out : list Z) (f : Frame)
| QAck (chunks total aggregate : Z) (out : list Z) (f : Frame)
| QDone (aggregate total chunks : Z) (out : list Z)
| QFailed (e : io_error)
| QAborted.

Record dstate := mkD { ddata : Arena; dreleases : Arena; dprod : dpc; dcons : qpc }.

Section programs.
Context (s : StreamShape) (tid fl : Z) (avx2_p avx2_c : bool).
Implicit Types (x : dstate).

Definition set_dprod x (d r : Arena) (c : dpc) : dstate := mkD d r c (dcons x).
Definition set_dcons x (d r : Arena) (c : qpc) : dstate := mkD d r (dprod x) c.

Definition dpop_release x (k : Frame -> io dpc) : option (outcome dstate) :=
  match pop (dreleases x) with
  | None => None
  | Some o => Some ('(f, r) ← o;
      OK (set_dprod x (ddata x) r (match f with
        | Ok f => match k f with Ok c => c | Err e => DFailed e end
        | Err e => DFailed e
        end)))
  end.

Definition dpush_data x (f : Frame) (c : dpc) : option (outcome dstate) :=
  match push (ddata x) f with
  | None => None
  | Some o => Some (d ← o; OK (set_dprod x d (dreleases x) c))
  end.

Definition dprod_step x : option (outcome dstate) :=
  match dprod x with
  | DTop chunks released total aggregate r =>
      Some (OK (set_dprod x (ddata x) (dreleases x)
        (if total =? total_bytes s then
           match check_excess (S (length r)) r with
           | Ok _ => DDrain chunks released total aggregate
           | Err e => DFailed e
           end
         else DWait chunks released total aggregate r)))
  | DWait chunks released total aggregate r =>
      if slots s <=? chunks then
        dpop_release x (fun f =>
          _ ←? validate_dynamic_release f released s tid fl;
          Ok (DFill chunks (released + 1) total aggregate r))
      else Some (OK (set_dprod x (ddata x) (dreleases x) (DFill chunks released total aggregate r)))
  | DFill chunks released total aggregate r =>
      let slot := chunks mod slots s in
      match u32_try_from (chunks / slots s + 1) with
      | Err e => Some (OK (set_dprod x (ddata x) (dreleases x) (DFailed e)))
      | Ok generation =>
          let capacity := Z.min (total_bytes s - total) (chunk_bytes s) in
          match check_slot (ddata x) slot capacity with
          | Err e => Some (OK (set_dprod x (ddata x) (dreleases x) (DFailed e)))
          | Ok _ =>
              let '(got, bytes, r') := read_chunk (S (S (length r))) r [] (Z.to_nat capacity) in
              Some (
                w ← write_slot (ddata x) slot capacity bytes;
                match w, got with
                | Err e, _ => OK (set_dprod x (ddata x) (dreleases x) (DFailed e))
                | Ok d, Err e => OK (set_dprod x d (dreleases x) (DFailed e))
                | Ok d, Ok _ =>
                    let len := Z.of_nat (length bytes) in
                    OK (set_dprod x d (dreleases x)
                      (if len =? 0 then DDrain chunks released total aggregate
                       else
                         let f := mkFrame Data fl tid total slot generation len (payload_checksum avx2_p bytes) in
                         DPush chunks released total (fold_checksum aggregate f) f r'))
                end)
          end
      end
  | DPush chunks released total aggregate f r =>
      if total + frame.len f <? USIZE
      then dpush_data x f (DTop (chunks + 1) released (total + frame.len f) aggregate r)
      else Some PANIC
  | DDrain chunks released total aggregate =>
      if released <? chunks then
        dpop_release x (fun f =>
          _ ←? validate_dynamic_release f released s tid fl; Ok (DDrain chunks (released + 1) total aggregate))
      else Some (OK (set_dprod x (ddata x) (dreleases x) (DFinish chunks total aggregate)))
  | DFinish chunks total aggregate =>
      dpush_data x (mkFrame Complete fl tid total 0 0 0 aggregate) (DAck chunks total aggregate)
  | DAck chunks total aggregate =>
      dpop_release x (fun f =>
        _ ←? validate_dynamic_complete f s tid fl total aggregate; Ok (DDone aggregate total chunks))
  | DDone _ _ _ | DFailed _ | DAborted => None
  end.

Definition dpush_release x (f : Frame) (c : qpc) : option (outcome dstate) :=
  match push (dreleases x) f with
  | None => None
  | Some o => Some (r ← o; OK (set_dcons x (ddata x) r c))
  end.

Definition dcons_step x : option (outcome dstate) :=
  match dcons x with
  | QTop chunks total aggregate out =>
      match pop (ddata x) with
      | None => None
      | Some o => Some ('(f, d) ← o;
          OK (set_dcons x d (dreleases x) (match f with
            | Err e => QFailed e
            | Ok f => if kind_is f Complete then QComplete chunks total aggregate out f
                      else QHave chunks total aggregate out f
            end)))
      end
  | QHave chunks total aggregate out f => Some (
      r ← validate_dynamic_chunk avx2_c (ddata x) f chunks total s tid fl;
      OK (set_dcons x (ddata x) (dreleases x)
            (match r with Ok _ => QWrite chunks total aggregate out f | Err e => QFailed e end)))
  | QWrite chunks total aggregate out f => Some (
      r ← read_slot (ddata x) (frame.slot f) (frame.len f);
      match r with
      | Err e => OK (set_dcons x (ddata x) (dreleases x) (QFailed e))
      | Ok bytes =>
          if total + frame.len f <? USIZE then
            OK (set_dcons x (ddata x) (dreleases x)
                  (QRelease (chunks + 1) (total + frame.len f) (fold_checksum aggregate f) (out ++ bytes) f))
          else PANIC
      end)
  | QRelease chunks total aggregate out f =>
      dpush_release x
        (mkFrame Released (flags f) (transfer_id f) (offset f) (frame.slot f) (frame.generation f)
           (frame.len f) (frame.checksum f))
        (QTop chunks total aggregate out)
  | QComplete chunks total aggregate out f =>
      Some (OK (set_dcons x (ddata x) (dreleases x)
        (match validate_dynamic_complete f s tid fl total aggregate with
         | Ok _ => QAck chunks total aggregate out f
         | Err e => QFailed e
         end)))
  | QAck chunks total aggregate out f => dpush_release x f (QDone aggregate total chunks out)
  | QDone _ _ _ _ | QFailed _ | QAborted => None
  end.

Definition dprod_over (c : dpc) : bool := match c with DDone _ _ _ | DFailed _ | DAborted => true | _ => false end.
Definition dcons_over (c : qpc) : bool := match c with QDone _ _ _ _ | QFailed _ | QAborted => true | _ => false end.

Definition dstep x (e : event) : option (outcome dstate) :=
  match e with
  | EProd => dprod_step x
  | ECons => dcons_step x
  | EProdAbort => if dprod_over (dprod x) then None else Some (OK (set_dprod x (ddata x) (dreleases x) DAborted))
  | EConsAbort => if dcons_over (dcons x) then None else Some (OK (set_dcons x (ddata x) (dreleases x) QAborted))
  end.

Fixpoint drun x (es : list event) : option dstate :=
  match es with
  | [] => Some x
  | e :: es' => match dstep x e with Some (OK x') => drun x' es' | _ => None end
  end.

Definition dinitial (d r : Arena) (input : script) : dstate := mkD d r (DTop 0 0 0 0 input) (QTop 0 0 0 []).
End programs.

(** ** Readers without errors *)

Definition event_bytes (e : read_event) : list Z := match e with RBytes bs => bs | _ => [] end.
Definition bytes_of (r : script) : list Z := r ≫= event_bytes.
Definition fine_event (e : read_event) : Prop :=
  match e with RBytes bs => bs <> [] | RError _ => False | RInterrupted => True end.
Abbreviation fine := (Forall fine_event).

(** Short and interrupted reads do not show in the chunk. *)
Lemma read_chunk_ok fuel r filled len :
  fine r -> (length filled <= len)%nat -> (length r < fuel)%nat ->
  exists r', read_chunk fuel r filled len = (Ok tt, filled ++ take (len - length filled) (bytes_of r), r') /\
    fine r' /\ bytes_of r' = drop (len - length filled) (bytes_of r).
Proof.
  revert r filled. induction fuel as [|fuel IH]; intros r filled Hf Hl Hr; [lia|]. cbn [read_chunk].
  destruct (Nat.ltb_spec (length filled) len) as [Hlt|Hge].
  2:{ replace (len - length filled)%nat with O by lia. exists r. simpl. by rewrite app_nil_r, drop_0. }
  destruct Hf as [|e r He Hf]; [exists []; simpl; by rewrite take_nil, drop_nil, app_nil_r|].
  destruct e as [|bs|e]; [| |done].
  { cbn [read]. apply (IH r filled); [done|done|simpl in Hr; lia]. }
  set (k := (len - length filled)%nat) in *. assert (0 < k)%nat as Hk by (unfold k; lia). cbn [read].
  change (bytes_of (RBytes bs :: r)) with (bs ++ bytes_of r). simpl in He.
  destruct (take k bs) as [|b bs'] eqn:Ht; [destruct bs, k; simpl in *; done || lia|]. rewrite <- Ht. clear b bs' Ht.
  destruct (decide (length bs <= k)%nat) as [Hle|Hgt].
  - rewrite (drop_ge bs k), (take_ge bs k) by lia.
    destruct (IH r (filled ++ bs)) as (r' & E & Hf' & Hb'); [done|rewrite length_app; unfold k in *; lia|simpl in Hr; lia|].
    rewrite length_app in *. replace (len - (length filled + length bs))%nat with (k - length bs)%nat in * by (unfold k; lia).
    exists r'. rewrite E, take_app, drop_app, (take_ge bs k), (drop_ge bs k), app_assoc, Hb' by lia. done.
  - destruct (drop k bs) as [|b bs'] eqn:Hd; [apply (f_equal length) in Hd; rewrite length_drop in Hd; simpl in Hd; lia|].
    destruct fuel as [|fuel]; [simpl in Hr; lia|]. cbn [read_chunk].
    destruct (Nat.ltb_spec (length (filled ++ take k bs)) len); [rewrite length_app, length_take in *; unfold k in *; lia|].
    exists (RBytes (b :: bs') :: r). rewrite take_app_le, drop_app_le, Hd by lia. splits. by constructor.
Qed.

Lemma check_excess_ok fuel r : fine r -> (length r < fuel)%nat ->
  check_excess fuel r =
    if decide (bytes_of r = []) then Ok tt else Err (InvalidData "stream exceeded its byte ceiling").
Proof.
  revert r. induction fuel as [|fuel IH]; intros r Hf Hr; [lia|]. destruct Hf as [|e r He Hf]; [done|].
  destruct e as [|bs|e]; [| |done]; cbn [check_excess read].
  - rewrite IH by (done || (simpl in Hr; lia)). done.
  - destruct bs as [|b bs]; [done|]. simpl. done.
Qed.

(** ** The fixed-length transfer behind a stream *)

Section simulation.
Context (s : StreamShape) (tid fl : Z) (avx2_p avx2_c : bool) (input : script).
Context (Hs : shape_ok s) (Htid : 0 <= tid < USIZE) (Hfl : is_byte fl) (Hin : fine input).
Implicit Types (x : dstate).

Definition src : list Z := bytes_of input.
(** What fits under the ceiling. *)
Definition payload_len : Z := Z.min (Z.of_nat (length src)) (total_bytes s).
Definition fixed : StreamShape := mkShape payload_len (chunk_bytes s) (slots s).
Local Abbreviation n := (chunks fixed).
Local Abbreviation cb := (chunk_bytes s).

Lemma div_ceil_mono a a' b : 0 < b -> 0 <= a <= a' -> 0 <= div_ceil a b <= div_ceil a' b.
Proof.
  intros Hb Ha. destruct (div_ceil_spec a b) as [H|[-> H]], (div_ceil_spec a' b) as [H'|[? H']]; try lia; nia.
Qed.

Lemma fixed_ok : shape_ok fixed /\ 0 <= n <= chunks s.
Proof.
  pose proof Hs as [Ht Hc Hsl Hr Hg]. assert (0 <= n <= chunks s) as Hn.
  { apply div_ceil_mono; simpl; unfold payload_len; lia. }
  split; [|done]. split; try done; simpl; [unfold payload_len; lia|].
  pose proof (div_ceil_mono n (chunks s) (slots s) ltac:(lia) Hn). lia.
Qed.

Lemma fixed_source : total_bytes fixed <= Z.of_nat (length src).
Proof. simpl. unfold payload_len. lia. Qed.

(** The generation of the chunk after the last one does not fit its field. *)
Definition exhausted : Prop := U32 <= n / slots s + 1 /\ Z.of_nat (length src) < total_bytes s.

Abbreviation finv := (inv fixed tid fl src).

(** How far the reader has been read when [c] chunks have. *)
Definition pos (c : Z) : Z := Z.min (total_bytes s) (c * cb).

Definition at_end (c tot : Z) (r : script) : Prop :=
  c = n /\ tot = payload_len /\ fine r /\ bytes_of r = drop (Z.to_nat (pos n)) src.

Definition prod_rel (d : dpc) (y : state) : Prop :=
  match d, prod y with
  | DTop c rel tot agg r, PTop c' rel' agg' _ | DWait c rel tot agg r, PTop c' rel' agg' _
  | DFill c rel tot agg r, PFill c' rel' agg' _ =>
      c = c' /\ rel = rel' /\ agg = agg' /\ c < n /\ tot = c * cb /\ fine r /\ bytes_of r = drop (Z.to_nat (pos c)) src
  | DTop c rel tot agg r, PDrain rel' agg' =>
      rel = rel' /\ agg = agg' /\ at_end c tot r /\ rel = Z.max 0 (n - slots s)
  | DWait c rel tot agg r, PDrain rel' agg' =>
      rel = rel' /\ agg = agg' /\ at_end c tot r /\ rel = Z.max 0 (n - slots s) /\ payload_len < total_bytes s
  | DFill c rel tot agg r, PDrain rel' agg' =>
      rel = rel' /\ agg = agg' /\ at_end c tot r /\ payload_len < total_bytes s
  | DPush c rel tot agg f r, PPush c' rel' agg' f' _ =>
      c = c' /\ rel = rel' /\ agg = agg' /\ f = f' /\ c < n /\ tot = c * cb /\ fine r /\
      bytes_of r = drop (Z.to_nat (pos (c + 1))) src
  | DDrain c rel tot agg, PDrain rel' agg' =>
      rel = rel' /\ agg = agg' /\ c = n /\ tot = payload_len /\ Z.of_nat (length src) <= total_bytes s
  | DFinish c tot agg, PFinish agg' | DAck c tot agg, PAck agg' | DDone agg tot c, PDone agg' =>
      agg = agg' /\ c = n /\ tot = payload_len /\ Z.of_nat (length src) <= total_bytes s
  | DFailed e, PAborted =>
      (e = InvalidData "stream exceeded its byte ceiling" /\ total_bytes s < Z.of_nat (length src) /\ tail (data y) <= n) \/
      (e = InvalidData "stream generation exhausted" /\ exhausted)
  | DAborted, PAborted => n < tail (data y) -> Z.of_nat (length src) <= total_bytes s
  | _, _ => False
  end.

Definition cons_rel (q : qpc) (c : cpc) : Prop :=
  match q, c with
  | QTop k tot agg out, CTop k' agg' out' =>
      k = k' /\ agg = agg' /\ out = out' /\ tot = Z.min payload_len (k * cb)
  | QHave k tot agg out f, CHave k' agg' out' f' | QWrite k tot agg out f, CWrite k' agg' out' f' =>
      k = k' /\ agg = agg' /\ out = out' /\ f = f' /\ tot = Z.min payload_len (k * cb)
  | QRelease k tot agg out f, CRelease k' agg' out' f' =>
      k = k' + 1 /\ agg = agg' /\ out = out' /\ f = f' /\ tot = Z.min payload_len (k * cb)
  | QComplete k tot agg out f, CComplete agg' out' f' | QAck k tot agg out f, CAck agg' out' f' =>
      k = n /\ agg = agg' /\ out = out' /\ f = f' /\ tot = payload_len
  | QDone agg tot k out, CDone agg' out' => k = n /\ agg = agg' /\ out = out' /\ tot = payload_len
  | QAborted, CAborted => True
  | _, _ => False
  end.

Definition sim x : Prop := exists y, finv y /\ data y = ddata x /\ releases y = dreleases x /\
  prod_rel (dprod x) y /\ cons_rel (dcons x) (cons y).

(** ** Validation of the frames of the transfer *)

Lemma generation_ok j : 0 <= j < n -> u32_try_from (j / slots s + 1) = Ok (j / slots s + 1).
Proof.
  intros Hj. destruct (chunk_meta_ok fixed j (proj1 fixed_ok) Hj) as (_ & _ & _ & _ & _ & _ & Hg). simpl in Hg.
  unfold u32_try_from. by destruct (Z.ltb_spec (j / slots s + 1) U32); [|lia].
Qed.

Lemma within_ceiling_ok j : 0 <= j < n -> within_ceiling (j * cb) (chunk_len fixed j) (total_bytes s) = true.
Proof.
  intros Hj. destruct (chunk_meta_ok fixed j (proj1 fixed_ok) Hj) as (_ & Hp & Hle & _). simpl in Hp, Hle.
  pose proof (sk_total _ Hs). unfold within_ceiling, checked_add, chunk_len. simpl. unfold payload_len in *.
  destruct (Z.ltb_spec (j * cb + Z.min (Z.min (Z.of_nat (length src)) (total_bytes s) - j * cb) cb) USIZE); [|lia].
  apply Z.leb_le. lia.
Qed.

Lemma chunk_len_range j : 0 <= j < n -> (0 <? chunk_len fixed j) = true /\ (chunk_len fixed j <=? cb) = true.
Proof.
  intros Hj. destruct (chunk_meta_ok fixed j (proj1 fixed_ok) Hj) as (_ & Hp & _). simpl in Hp.
  unfold chunk_len. simpl. split; [apply Z.ltb_lt|apply Z.leb_le]; lia.
Qed.

Lemma validate_dynamic_release_ok j :
  0 <= j < n -> validate_dynamic_release (release_seq fixed tid fl src j) j s tid fl = Ok tt.
Proof.
  intros Hj. unfold validate_dynamic_release. rewrite generation_ok by done. cbn [result_bind].
  unfold release_seq. destruct (Z.ltb_spec j n); [|lia]. destruct (chunk_len_range j Hj) as [H1 H2].
  unfold kind_is. simpl. by rewrite !Z.eqb_refl, H1, H2, within_ceiling_ok.
Qed.

Lemma validate_dynamic_chunk_ok avx2 a seq j :
  ring_ok fixed a seq -> a_slots a = slots s -> slot_len a = cb -> 0 <= j < n -> slot_holds fixed src a j ->
  validate_dynamic_chunk avx2 a (data_frame fixed tid fl src j) j (j * cb) s tid fl = OK (Ok tt).
Proof.
  intros Hr Hsl Hlen Hj Hh. unfold validate_dynamic_chunk. rewrite generation_ok by done.
  destruct (chunk_len_range j Hj) as [H1 H2]. unfold kind_is, data_frame.
  cbn [kind flags transfer_id offset frame.slot frame.generation frame.len frame.checksum chunk_bytes slots fixed].
  rewrite bool_decide_eq_true_2, !Z.eqb_refl, H1, H2, within_ceiling_ok by done. cbn [andb].
  pose proof (read_slot_ok fixed tid src (proj1 fixed_ok) Htid a seq j Hr Hsl Hlen Hj Hh) as Hrd.
  change (slots fixed) with (slots s) in Hrd. rewrite Hrd. cbn [mbind outcome_bind result_bind].
  assert (payload_checksum avx2 (chunk_of fixed src j) = checksum_scalar (chunk_of fixed src j)) as ->
    by (unfold payload_checksum; by destruct (_ && _); rewrite ?avx2_scalar).
  by rewrite Z.eqb_refl.
Qed.

Lemma validate_dynamic_complete_ok :
  validate_dynamic_complete (complete_frame fixed tid fl src) s tid fl payload_len (aggregate_of fixed tid fl src (Z.to_nat n)) = Ok tt.
Proof.
  unfold validate_dynamic_complete, kind_is. simpl. rewrite !Z.eqb_refl.
  destruct (Z.leb_spec payload_len (total_bytes s)); [done|]. unfold payload_len in *. lia.
Qed.

(** ** Steps of the fixed-length transfer *)

Local Ltac side := try done; try apply fixed_ok; try apply fixed_source; try lia.

Lemma fixed_prod y y' : finv y -> prod_step fixed tid fl avx2_p y = Some (OK y') -> finv y'.
Proof.
  intros Hi Hst. destruct (prod_step_ok fixed tid fl avx2_p src) with (x := y) (o := OK y') as (z & [= <-] & Hz); side.
Qed.

Lemma fixed_cons y y' : finv y -> cons_step fixed tid fl avx2_c y = Some (OK y') -> finv y'.
Proof.
  intros Hi Hst. destruct (cons_step_ok fixed tid fl avx2_c src) with (x := y) (o := OK y') as (z & [= <-] & Hz); side.
Qed.

Lemma fixed_bound y : finv y ->
  0 <= head (releases y) <= tail (releases y) /\ tail (releases y) <= head (data y) /\ head (data y) <= tail (data y) /\
  tail (data y) <= n + 1 /\ n + 1 < USIZE.
Proof.
  intros Hi. pose proof (rk_head _ _ _ (v_rel _ _ _ _ _ Hi)). pose proof (rk_head _ _ _ (v_data _ _ _ _ _ Hi)).
  pose proof (v_order _ _ _ _ _ Hi). assert (0 <= n /\ n + 1 < USIZE) by (apply (n_bound fixed tid src); side). lia.
Qed.

(** What a pop returns. *)
Lemma rel_pop y o : finv y -> pop (releases y) = Some o ->
  head (releases y) < tail (releases y) /\
  exists r, o = OK (Ok (release_seq fixed tid fl src (head (releases y))), r).
Proof.
  intros Hi Ho. pose proof (fixed_bound y Hi). destruct (decide (head (releases y) = tail (releases y))) as [He|Hne].
  - rewrite (ring_empty fixed src _ _ (v_rel _ _ _ _ _ Hi) He) in Ho by lia. done.
  - destruct (ring_pop fixed src _ _ (v_rel _ _ _ _ _ Hi)) as (r & E & _); [lia|lia| |].
    { apply release_seq_ok; side. }
    rewrite E in Ho. injection Ho as <-. split; [lia|by exists r].
Qed.

Lemma data_pop y o : finv y -> pop (data y) = Some o ->
  head (data y) < tail (data y) /\ exists d, o = OK (Ok (data_seq fixed tid fl src (head (data y))), d).
Proof.
  intros Hi Ho. pose proof (fixed_bound y Hi). destruct (decide (head (data y) = tail (data y))) as [He|Hne].
  - rewrite (ring_empty fixed src _ _ (v_data _ _ _ _ _ Hi) He) in Ho by lia. done.
  - destruct (ring_pop fixed src _ _ (v_data _ _ _ _ _ Hi)) as (r & E & _); [lia|lia| |].
    { apply data_seq_ok; side. }
    rewrite E in Ho. injection Ho as <-. split; [lia|by exists r].
Qed.

(** Popping the release the producer expects, in both machines. *)
Lemma sim_pop_release x y k kf o c c' :
  finv y -> data y = ddata x -> releases y = dreleases x -> dpop_release x k = Some o ->
  k (release_seq fixed tid fl src (head (releases y))) = Ok c ->
  kf (release_seq fixed tid fl src (head (releases y))) = Ok c' ->
  head (releases y) < tail (releases y) /\
  exists r, o = OK (set_dprod x (ddata x) r c) /\ pop_release y kf = Some (OK (set_prod y (data y) r c')).
Proof.
  intros Hi Hd Hr Ho Hk Hkf. unfold dpop_release in Ho. rewrite <- Hr in Ho.
  destruct (pop (releases y)) as [o'|] eqn:Hp; [|done]. destruct (rel_pop y o' Hi Hp) as (Hlt & r & ->).
  split; [done|]. exists r. cbn [mbind outcome_bind] in Ho. rewrite Hk in Ho. injection Ho as <-. split; [done|].
  unfold pop_release. rewrite Hp. cbn [mbind outcome_bind]. by rewrite Hkf.
Qed.

Lemma sim_push_data x y f o c c' :
  finv y -> data y = ddata x -> dpush_data x f c = Some o -> f = data_seq fixed tid fl src (tail (data y)) ->
  tail (data y) <= n ->
  exists d, o = OK (set_dprod x d (dreleases x) c) /\ push_data y f c' = Some (OK (set_prod y d (releases y) c')).
Proof.
  intros Hi Hd Ho Hf Ht. unfold dpush_data in Ho. rewrite <- Hd in Ho.
  destruct (push (data y) f) as [o'|] eqn:Hp; [|done].
  assert (push_data y f c' = Some (d ← o'; OK (set_prod y d (releases y) c'))) as Hpd by (unfold push_data; by rewrite Hp).
  rewrite Hf in Hpd. destruct (push_data_ok fixed tid fl src) with (x := y) (c := c') (o := d ← o'; OK (set_prod y d (releases y) c'))
    as (d & _ & _ & _ & _ & _ & _ & E); side.
  destruct o' as [d'| |]; try done. injection E as ->. exists d. injection Ho as <-. split; [done|].
  unfold push_data. by rewrite Hp.
Qed.

(** ** The producer's steps *)

(** A stream that has been completed was within its ceiling. *)
Lemma prod_rel_cap d y : finv y -> prod_rel d y -> dprod_over d = false ->
  n < tail (data y) -> Z.of_nat (length src) <= total_bytes s.
Proof.
  intros Hi Hp Ho Ht. pose proof (v_prod _ _ _ _ _ Hi) as Hk. unfold prod_ok in Hk. unfold prod_rel in Hp.
  destruct d, (prod y); try done; simpl in Hk, Hp; unfold at_end in *; try lia; by destruct Hp as (_ & _ & _ & ?).
Qed.

Lemma prod_rel_tail d y y' : prod_rel d y -> prod y' = prod y -> tail (data y') = tail (data y) -> prod_rel d y'.
Proof. unfold prod_rel. intros Hp -> ->. exact Hp. Qed.

Lemma pop_tail a f a' : pop a = Some (OK (f, a')) -> tail a' = tail a.
Proof.
  unfold pop. destruct (_ =? 0); [done|]. destruct (peek _ _ _) as [b| |]; try done. cbn [mbind outcome_bind].
  destruct (_ <? _); [|done]. by intros [= _ <-].
Qed.

Lemma sim_intro x' y' : finv y' -> data y' = ddata x' -> releases y' = dreleases x' ->
  prod_rel (dprod x') y' -> cons_rel (dcons x') (cons y') -> sim x'.
Proof. intros. by exists y'. Qed.

Lemma sim_prod y y' x' : finv y -> prod_step fixed tid fl avx2_p y = Some (OK y') -> data y' = ddata x' ->
  releases y' = dreleases x' -> prod_rel (dprod x') y' -> cons_rel (dcons x') (cons y') -> sim x'.
Proof. intros Hi Hst. apply sim_intro. by eapply fixed_prod. Qed.

Lemma sim_cons y y' x' : finv y -> cons_step fixed tid fl avx2_c y = Some (OK y') -> data y' = ddata x' ->
  releases y' = dreleases x' -> prod_rel (dprod x') y' -> cons_rel (dcons x') (cons y') -> sim x'.
Proof. intros Hi Hst. apply sim_intro. by eapply fixed_cons. Qed.

Lemma chunks_cover : 0 <= n /\ payload_len <= n * cb /\ (forall c, 0 <= c < n -> c * cb < payload_len).
Proof.
  destruct (chunks_spec fixed (proj1 fixed_ok)) as (H0 & Hlo & Hhi). simpl in Hlo, Hhi. pose proof (sk_chunk _ Hs).
  splits. intros c Hc. specialize (Hlo ltac:(lia)). nia.
Qed.

Lemma pos_end : payload_len < total_bytes s -> drop (Z.to_nat (pos n)) src = [].
Proof.
  intros Hlt. destruct chunks_cover as (_ & Hc & _). apply drop_ge. unfold pos, payload_len in *. lia.
Qed.

Lemma sim_abort x y : finv y -> data y = ddata x -> releases y = dreleases x -> cons_rel (dcons x) (cons y) ->
  prod_over (prod y) = false -> forall c, prod_rel c (set_prod y (data y) (releases y) PAborted) -> sim (set_dprod x (ddata x) (dreleases x) c).
Proof.
  intros Hi Hd Hr Hc Ho c Hp.
  destruct (step_ok fixed tid fl avx2_p avx2_c src) with (x := y) (e := EProdAbort)
    (o := OK (set_prod y (data y) (releases y) PAborted)) as (z & [= <-] & Hz); side.
  { simpl. by rewrite Ho. }
  apply (sim_intro _ _ Hz); done.
Qed.

Lemma sim_top x c rel tot agg r o :
  sim x -> dprod x = DTop c rel tot agg r -> dprod_step s tid fl avx2_p x = Some o -> exists x', o = OK x' /\ sim x'.
Proof.
  intros (y & Hi & Hd & Hr & Hp & Hc) Ep Hst. unfold dprod_step in Hst. rewrite Ep in Hst, Hp. unfold prod_rel in Hp. apply (inj Some) in Hst as <-.
  destruct chunks_cover as (Hn & Hcov & Hlt). eexists. split; [done|].
  destruct (prod y) as [c' rel' agg' rest| | |rel' agg'| | | | |] eqn:Eq; try done; simpl in Hp.
  - destruct Hp as (<- & <- & <- & Hcn & -> & Hf & Hb). pose proof (v_prod _ _ _ _ _ Hi) as Hk. unfold prod_ok in Hk.
    rewrite Eq in Hk. destruct (Z.eqb_spec (c * cb) (total_bytes s)) as [E|].
    { specialize (Hlt c ltac:(lia)). unfold payload_len in Hlt. lia. }
    apply (sim_intro _ y); try done. simpl. rewrite Eq. splits.
  - destruct Hp as (<- & <- & (-> & -> & Hf & Hb) & Hrel). destruct (Z.eqb_spec payload_len (total_bytes s)) as [E|E].
    + rewrite check_excess_ok by (done || lia). assert (pos n = total_bytes s) as Hpos by (unfold pos; lia).
      case_decide as Hdec.
      * apply (sim_intro _ y); try done. simpl. rewrite Eq. splits. rewrite Hb, Hpos in Hdec.
        apply (f_equal length) in Hdec. rewrite length_drop in Hdec. simpl in Hdec. pose proof (sk_total _ Hs). lia.
      * apply (sim_abort x y); try done; [by rewrite Eq|]. simpl. left. split; [done|].
        pose proof (v_prod _ _ _ _ _ Hi) as Hk. unfold prod_ok in Hk. rewrite Eq in Hk. split; [|lia].
        destruct (Z.lt_ge_cases (total_bytes s) (Z.of_nat (length src))); [done|].
        exfalso. apply Hdec. rewrite Hb, Hpos. apply drop_ge. lia.
    + apply (sim_intro _ y); try done. simpl. rewrite Eq. splits. unfold payload_len in *. lia.
Qed.

Lemma sim_wait x c rel tot agg r o :
  sim x -> dprod x = DWait c rel tot agg r -> dprod_step s tid fl avx2_p x = Some o -> exists x', o = OK x' /\ sim x'.
Proof.
  intros (y & Hi & Hd & Hr & Hp & Hc) Ep Hst. unfold dprod_step in Hst. rewrite Ep in Hst, Hp. unfold prod_rel in Hp.
  pose proof (fixed_bound y Hi) as Hbnd. pose proof (v_prod _ _ _ _ _ Hi) as Hk. unfold prod_ok in Hk.
  pose proof (sk_slots _ Hs) as Hsl. change (slots fixed) with (slots s) in Hk.
  destruct (prod y) as [c' rel' agg' rest| | |rel' agg'| | | | |] eqn:Eq; try done; simpl in Hp.
  - destruct Hp as (<- & <- & <- & Hcn & -> & Hf & Hb). destruct Hk as (Hk1 & Hk2 & Hk3 & Hk4 & Hk5 & Hk6).
    destruct (Z.leb_spec (slots s) c) as [Hle|Hgt].
    + destruct (sim_pop_release x y _ (fun f => _ ←? validate_release f rel fixed tid fl; Ok (PFill c (rel + 1) agg rest))
        o (DFill c (rel + 1) (c * cb) agg r) (PFill c (rel + 1) agg rest) Hi Hd Hr Hst) as (Hlt & ra & -> & Hpf).
      { rewrite Hk3, validate_dynamic_release_ok by lia. done. }
      { rewrite Hk3, validate_release_ok by (side). done. }
      eexists. split; [done|]. eapply (sim_prod y); [exact Hi| |..].
      * unfold prod_step. rewrite Eq. destruct (Z.ltb_spec c n); [|lia]. simpl slots. destruct (Z.leb_spec (slots s) c); [|lia]. exact Hpf.
      * done.
      * done.
      * simpl. splits.
      * done.
    + injection Hst as <-. eexists. split; [done|]. eapply (sim_prod y); [exact Hi| |..].
      * unfold prod_step. rewrite Eq. destruct (Z.ltb_spec c n); [|lia]. simpl slots. destruct (Z.leb_spec (slots s) c); [lia|]. done.
      * done.
      * done.
      * simpl. splits.
      * done.
  - destruct Hp as (<- & <- & (-> & -> & Hf & Hb) & Hrel & Hlt'). destruct Hk as (Hk1 & Hk2 & Hk3 & Hk4).
    destruct (Z.leb_spec (slots s) n) as [Hle|Hgt].
    + destruct (sim_pop_release x y _ (fun f => _ ←? validate_release f rel fixed tid fl; Ok (PDrain (rel + 1) agg))
        o (DFill n (rel + 1) payload_len agg r) (PDrain (rel + 1) agg) Hi Hd Hr Hst) as (Hlt & ra & -> & Hpf).
      { rewrite Hk2, validate_dynamic_release_ok by lia. done. }
      { rewrite Hk2, validate_release_ok by (side). done. }
      eexists. split; [done|]. eapply (sim_prod y); [exact Hi| |..].
      * unfold prod_step. rewrite Eq. destruct (Z.ltb_spec rel n); [|lia]. exact Hpf.
      * done.
      * done.
      * simpl. splits.
      * done.
    + injection Hst as <-. eexists. split; [done|]. apply (sim_intro _ y); try done. simpl. rewrite Eq. splits.
Qed.

(** The dimensions of the data arena. *)
Lemma data_dims y : finv y -> a_slots (data y) = slots s /\ slot_len (data y) = cb.
Proof. intros Hi. exact (v_dims _ _ _ _ _ Hi). Qed.

Lemma capacity_checked y c cap : finv y -> 0 <= c -> 0 < cap <= cb -> check_slot (data y) (c mod slots s) cap = Ok tt.
Proof.
  intros Hi Hc Hcap. destruct (data_dims y Hi) as [H1 H2]. pose proof (sk_slots _ Hs).
  pose proof (Z.mod_pos_bound c (slots s) ltac:(lia)). unfold check_slot. rewrite H1, H2. by zbool; try lia.
Qed.

(** Nothing read, nothing written. *)
Lemma write_nothing y c cap : finv y -> 0 <= c -> 0 < cap <= cb ->
  write_slot (data y) (c mod slots s) cap [] = OK (Ok (data y)).
Proof.
  intros Hi Hc Hcap. destruct (data_dims y Hi) as [H1 H2]. unfold write_slot. rewrite capacity_checked by done.
  pose proof (sk_slots _ Hs). pose proof (sk_chunk _ Hs). pose proof (Z.mod_pos_bound c (slots s) ltac:(lia)).
  pose proof (v_data _ _ _ _ _ Hi) as Hr. destruct (descriptor_in fixed tid src Htid (data y) _ 0 Hr) as (P1 & P2 & _).
  change HEADER_LEN with 448 in P1. unfold FRAME_LEN in P2.
  pose proof (lo_len _ _ _ _ _ (ao_layout _ (rk_arena _ _ _ Hr))) as [Hl _]. rewrite H1, H2 in Hl.
  rewrite poke_in by (rewrite ?H2; simpl; nia). cbn [mbind outcome_bind list_inserts]. by destruct (data y).
Qed.

Lemma chunk_read c : 0 <= c < n ->
  take (Z.to_nat (Z.min (total_bytes s - c * cb) cb)) (drop (Z.to_nat (c * cb)) src) = chunk_of fixed src c.
Proof.
  intros Hc. destruct chunks_cover as (_ & _ & Hlt). specialize (Hlt c Hc). pose proof (sk_chunk _ Hs).
  unfold chunk_of, slice. simpl. unfold payload_len in *.
  destruct (decide (Z.min (total_bytes s - c * cb) cb <= Z.of_nat (length src) - c * cb)).
  - f_equal. lia.
  - rewrite !take_ge; [done|rewrite length_drop; lia..].
Qed.

Lemma sim_fill x c rel tot agg r o :
  sim x -> dprod x = DFill c rel tot agg r -> dprod_step s tid fl avx2_p x = Some o -> exists x', o = OK x' /\ sim x'.
Proof.
  intros (y & Hi & Hd & Hr & Hp & Hc) Ep Hst. unfold dprod_step in Hst. rewrite Ep in Hst, Hp. unfold prod_rel in Hp.
  pose proof (v_prod _ _ _ _ _ Hi) as Hk. unfold prod_ok in Hk. rewrite <- Hd in Hst.
  destruct chunks_cover as (Hn & Hcov & Hlt). pose proof (sk_chunk _ Hs) as Hcb. pose proof (sk_slots _ Hs) as Hsl.
  destruct (prod y) as [|c' rel' agg' rest| |rel' agg'| | | | |] eqn:Eq; try done; simpl in Hp.
  - destruct Hp as (<- & <- & <- & Hcn & -> & Hf & Hb). destruct Hk as (Hk1 & Hk2 & Hk3 & Hk4 & Hk5 & Hk6).
    specialize (Hlt c Hk1). set (cap := Z.min (total_bytes s - c * cb) cb) in *.
    assert (0 < cap <= cb) as Hcap by (unfold cap, payload_len in *; lia).
    rewrite generation_ok, capacity_checked in Hst by (done || lia).
    destruct (read_chunk_ok (S (S (length r))) r [] (Z.to_nat cap)) as (r' & E & Hf' & Hb'); [done|simpl; lia|lia|].
    rewrite E in Hst. simpl length in Hst, Hb'. rewrite Nat.sub_0_r, app_nil_l in Hst. rewrite Nat.sub_0_r in Hb'.
    assert (pos c = c * cb) as Hpos by (unfold pos, payload_len in *; lia). rewrite Hb, Hpos in Hst, Hb'.
    pose proof (chunk_read c Hk1) as Hcr. fold cap in Hcr. rewrite Hcr in Hst.
    destruct (write_slot_ok fixed tid src (proj1 fixed_ok) Htid) with (a := data y) (j := c) (seq := data_seq fixed tid fl src)
      as (d & Hw & _); side; [exact (v_data _ _ _ _ _ Hi)|exact (proj1 (data_dims y Hi))|exact (proj2 (data_dims y Hi))|].
    change (slots fixed) with (slots s) in Hw.
    assert (write_slot (data y) (c mod slots s) cap (chunk_of fixed src c) = OK (Ok d)) as Hw'.
    { rewrite <- Hw. unfold write_slot. rewrite capacity_checked by (done || lia). unfold write_slot in Hw.
      by destruct (check_slot (data y) (c mod slots s) (chunk_len fixed c)). }
    rewrite Hw' in Hst. cbn [mbind outcome_bind] in Hst.
    assert (Z.of_nat (length (chunk_of fixed src c)) = chunk_len fixed c) as Hlen by (eapply chunk_of_length; side).
    destruct (chunk_len_range c Hk1) as [Hl1 _]. apply Z.ltb_lt in Hl1.
    rewrite Hlen in Hst. destruct (Z.eqb_spec (chunk_len fixed c) 0); [lia|]. apply (inj Some) in Hst as <-.
    eexists. split; [done|].
    destruct (chunk_meta_ok fixed c (proj1 fixed_ok) Hk1) as (Hm & _). fold (chunk_len fixed c) in Hm.
    eapply (sim_prod y); [exact Hi| |..].
    * unfold prod_step. rewrite Eq, Hm. rewrite Hk6. change (take (Z.to_nat (chunk_len fixed c)) (drop (Z.to_nat (c * chunk_bytes fixed)) src)) with (chunk_of fixed src c).
      change (slots fixed) with (slots s). rewrite Hw. cbn [mbind outcome_bind]. by rewrite Hlen, Z.ltb_irrefl.
    * done.
    * done.
    * cbn [dprod set_dprod prod set_prod prod_rel]. change (chunk_bytes fixed) with cb. change (slots fixed) with (slots s).
      splits. rewrite Hb', drop_drop. f_equal. unfold pos, cap, payload_len in *. nia.
    * done.
  - destruct Hp as (<- & <- & (-> & -> & Hf & Hb) & Hlt'). set (cap := Z.min (total_bytes s - payload_len) cb) in *.
    assert (0 < cap <= cb) as Hcap by (unfold cap; lia). rewrite pos_end in Hb by done.
    unfold u32_try_from in Hst. destruct (Z.ltb_spec (n / slots s + 1) U32) as [Hg|Hg]; cycle 1.
    { apply (inj Some) in Hst as <-. eexists. split; [done|]. rewrite Hd. apply (sim_abort x y); try done; [by rewrite Eq|].
      simpl. right. split; [done|]. split; [done|]. unfold payload_len in *. lia. }
    rewrite capacity_checked in Hst by (done || lia).
    destruct (read_chunk_ok (S (S (length r))) r [] (Z.to_nat cap)) as (r' & E & Hf' & Hb'); [done|simpl; lia|lia|].
    rewrite E, Hb, take_nil in Hst. simpl app in Hst. rewrite write_nothing in Hst by (done || lia).
    cbn [mbind outcome_bind length] in Hst. apply (inj Some) in Hst as <-. eexists. split; [done|].
    apply (sim_intro _ y); try done. simpl. rewrite Eq. splits. unfold payload_len in *. lia.
Qed.

Lemma sim_push x c rel tot agg f r o :
  sim x -> dprod x = DPush c rel tot agg f r -> dprod_step s tid fl avx2_p x = Some o -> exists x', o = OK x' /\ sim x'.
Proof.
  intros (y & Hi & Hd & Hr & Hp & Hc) Ep Hst. unfold dprod_step in Hst. rewrite Ep in Hst, Hp. unfold prod_rel in Hp.
  pose proof (v_prod _ _ _ _ _ Hi) as Hk. unfold prod_ok in Hk. destruct chunks_cover as (Hn & Hcov & Hlt).
  destruct (prod y) as [| |c' rel' agg' f' rest| | | | | |] eqn:Eq; try done; simpl in Hp.
  destruct Hp as (<- & <- & <- & <- & Hcn & -> & Hf & Hb). destruct Hk as (Hk1 & Hk2 & Hk3 & Hk4 & Hk5 & Hk6 & Hk7).
  destruct (chunk_meta_ok fixed c (proj1 fixed_ok) Hk1) as (_ & Hpos & Hle & Hlast & Hfull & _). simpl in Hle, Hlast, Hfull, Hpos.
  assert (frame.len f = Z.min (payload_len - c * cb) cb) as Hfl' by (by rewrite Hk5).
  pose proof (sk_total _ Hs). assert (payload_len <= total_bytes s) by (unfold payload_len; lia).
  destruct (Z.ltb_spec (c * cb + frame.len f) USIZE); [|lia].
  assert (f = data_seq fixed tid fl src (tail (data y))) as Ef.
  { unfold data_seq. rewrite Hk2. destruct (Z.ltb_spec c n); [done|lia]. }
  destruct (sim_push_data x y f o (DTop (c + 1) rel (c * cb + frame.len f) agg r) (PTop (c + 1) rel agg rest) Hi Hd Hst Ef ltac:(lia))
    as (d & -> & Hpf). eexists. split; [done|].
  assert (prod_step fixed tid fl avx2_p y = Some (OK (set_prod y d (releases y) (PTop (c + 1) rel agg rest)))) as Hst1
    by (unfold prod_step; by rewrite Eq).
  destruct (decide (c + 1 = n)) as [He|Hne].
  - eapply (sim_prod (set_prod y d (releases y) (PTop (c + 1) rel agg rest))); [by eapply fixed_prod| |..].
    + unfold prod_step. cbn [prod set_prod]. destruct (Z.ltb_spec (c + 1) n); [lia|]. done.
    + done.
    + done.
    + cbn [dprod set_dprod prod set_prod prod_rel]. unfold at_end. rewrite He in *. rewrite Hfl'. specialize (Hlast eq_refl). splits.
    + done.
  - eapply (sim_prod y); [exact Hi|exact Hst1|done|done| |done]. unfold prod_rel.
    cbn [dprod set_dprod prod set_prod prod_rel]. specialize (Hfull ltac:(lia)). rewrite Hfl'. splits.
Qed.

Lemma sim_drain x c rel tot agg o :
  sim x -> dprod x = DDrain c rel tot agg -> dprod_step s tid fl avx2_p x = Some o -> exists x', o = OK x' /\ sim x'.
Proof.
  intros (y & Hi & Hd & Hr & Hp & Hc) Ep Hst. unfold dprod_step in Hst. rewrite Ep in Hst, Hp. unfold prod_rel in Hp.
  pose proof (v_prod _ _ _ _ _ Hi) as Hk. unfold prod_ok in Hk. pose proof (fixed_bound y Hi) as Hbnd.
  destruct (prod y) as [| | |rel' agg'| | | | |] eqn:Eq; try done; simpl in Hp.
  destruct Hp as (<- & <- & -> & -> & Hlen). destruct Hk as (Hk1 & Hk2 & Hk3 & Hk4).
  destruct (Z.ltb_spec rel n) as [Hlt|Hge].
  - destruct (sim_pop_release x y _ (fun f => _ ←? validate_release f rel fixed tid fl; Ok (PDrain (rel + 1) agg))
      o (DDrain n (rel + 1) payload_len agg) (PDrain (rel + 1) agg) Hi Hd Hr Hst) as (Hlt' & ra & -> & Hpf).
    { rewrite Hk2, validate_dynamic_release_ok by lia. done. }
    { rewrite Hk2, validate_release_ok by (side). done. }
    eexists. split; [done|]. eapply (sim_prod y); [exact Hi| |..].
    + unfold prod_step. rewrite Eq. destruct (Z.ltb_spec rel n); [|lia]. exact Hpf.
    + done.
    + done.
    + simpl. splits.
    + done.
  - apply (inj Some) in Hst as <-. eexists. split; [done|]. eapply (sim_prod y); [exact Hi| |..].
    + unfold prod_step. rewrite Eq. destruct (Z.ltb_spec rel n); [lia|]. done.
    + done.
    + done.
    + simpl. splits.
    + done.
Qed.

Lemma sim_finish x o :
  sim x -> (match dprod x with DFinish _ _ _ | DAck _ _ _ => True | _ => False end) ->
  dprod_step s tid fl avx2_p x = Some o -> exists x', o = OK x' /\ sim x'.
Proof.
  intros (y & Hi & Hd & Hr & Hp & Hc) Ep Hst. unfold dprod_step in Hst. unfold prod_rel in Hp.
  pose proof (v_prod _ _ _ _ _ Hi) as Hk. unfold prod_ok in Hk.
  destruct (dprod x) as [| | | | |c tot agg|c tot agg| | |] eqn:Epr; try done.
  - destruct (prod y) as [| | | |agg'| | | |] eqn:Eq; try done; simpl in Hp.
    destruct Hp as (<- & -> & -> & Hlen). destruct Hk as (Hk1 & Hk2 & Hk3).
    assert (mkFrame Complete fl tid payload_len 0 0 0 agg = data_seq fixed tid fl src (tail (data y))) as Ef.
    { unfold data_seq. rewrite Hk1. destruct (Z.ltb_spec n n); [lia|]. by rewrite Hk3. }
    destruct (sim_push_data x y _ o _ (PAck agg) Hi Hd Hst Ef ltac:(lia)) as (d & -> & Hpf).
    eexists. split; [done|]. eapply (sim_prod y); [exact Hi| |..].
    + unfold prod_step. rewrite Eq. exact Hpf.
    + done.
    + done.
    + simpl. splits.
    + done.
  - destruct (prod y) as [| | | | |agg'| | |] eqn:Eq; try done; simpl in Hp.
    destruct Hp as (<- & -> & -> & Hlen). destruct Hk as (Hk1 & Hk2 & Hk3).
    assert (release_seq fixed tid fl src (head (releases y)) = complete_frame fixed tid fl src) as Er.
    { unfold release_seq. rewrite Hk2. destruct (Z.ltb_spec n n); [lia|done]. }
    destruct (sim_pop_release x y _ (fun f => _ ←? validate_complete f fixed tid fl agg; Ok (PDone agg))
      o (DDone agg payload_len n) (PDone agg) Hi Hd Hr Hst) as (Hlt & ra & -> & Hpf).
    { rewrite Er, Hk3, validate_dynamic_complete_ok. done. }
    { rewrite Er, Hk3, validate_complete_ok. done. }
    eexists. split; [done|]. eapply (sim_prod y); [exact Hi| |..].
    + unfold prod_step. rewrite Eq. exact Hpf.
    + done.
    + done.
    + simpl. splits.
    + done.
Qed.

(** ** The consumer's steps *)

Lemma sim_push_release x y f o c c' :
  finv y -> releases y = dreleases x -> dpush_release x f c = Some o ->
  f = release_seq fixed tid fl src (tail (releases y)) -> tail (releases y) <= n ->
  exists r, o = OK (set_dcons x (ddata x) r c) /\ push_release y f c' = Some (OK (set_cons y (data y) r c')).
Proof.
  intros Hi Hr Ho Hf Ht. unfold dpush_release in Ho. rewrite <- Hr in Ho.
  destruct (push (releases y) f) as [o'|] eqn:Hp; [|done].
  assert (push_release y f c' = Some (r ← o'; OK (set_cons y (data y) r c'))) as Hpd by (unfold push_release; by rewrite Hp).
  rewrite Hf in Hpd. destruct (push_release_ok fixed tid fl src) with (x := y) (c := c') (o := r ← o'; OK (set_cons y (data y) r c'))
    as (r & _ & _ & _ & E); side.
  destruct o' as [r'| |]; try done. injection E as ->. exists r. injection Ho as <-. split; [done|].
  unfold push_release. by rewrite Hp.
Qed.

Lemma sim_cons_top x k tot agg out o :
  sim x -> dcons x = QTop k tot agg out -> dcons_step s tid fl avx2_c x = Some o -> exists x', o = OK x' /\ sim x'.
Proof.
  intros (y & Hi & Hd & Hr & Hp & Hc) Ec Hst. unfold dcons_step in Hst. rewrite Ec in Hst, Hc. rewrite <- Hd in Hst.
  pose proof (v_cons _ _ _ _ _ Hi) as Hk. unfold cons_ok in Hk. pose proof (fixed_bound y Hi) as Hbnd.
  destruct (cons y) as [k' agg' out'| | | | | | | |] eqn:Eq; try done; simpl in Hc.
  destruct Hc as (<- & <- & <- & ->). destruct Hk as (Hk1 & Hk2 & Hk3 & Hk4 & Hk5).
  destruct (pop (data y)) as [o'|] eqn:Hpop; [|done]. destruct (data_pop y o' Hi Hpop) as (Hlt & d & ->).
  cbn [mbind outcome_bind] in Hst. apply (inj Some) in Hst as <-. eexists. split; [done|].
  eapply (sim_cons y); [exact Hi| |..].
  - unfold cons_step. rewrite Eq, Hpop. cbn [mbind outcome_bind]. reflexivity.
  - done.
  - done.
  - eapply prod_rel_tail; [exact Hp|done|exact (pop_tail _ _ _ Hpop)].
  - unfold data_seq. rewrite Hk2. cbn [dcons set_dcons cons set_cons]. destruct (Z.ltb_spec k n).
    + unfold kind_is. rewrite bool_decide_eq_false_2 by done. simpl. splits.
    + unfold kind_is. rewrite bool_decide_eq_true_2 by done. simpl. destruct chunks_cover as (_ & Hcov & _).
      assert (k = n) as -> by lia. splits.
Qed.

Lemma sim_dcons x o :
  sim x -> dcons_step s tid fl avx2_c x = Some o -> exists x', o = OK x' /\ sim x'.
Proof.
  intros Hx Hst. destruct (dcons x) as [k tot agg out|k tot agg out f|k tot agg out f|k tot agg out f|k tot agg out f|k tot agg out f|agg tot k out|e|] eqn:Ec.
  1: by eapply sim_cons_top.
  all: destruct Hx as (y & Hi & Hd & Hr & Hp & Hc); unfold dcons_step in Hst; rewrite Ec in Hst, Hc; try rewrite <- Hd in Hst;
    pose proof (v_cons _ _ _ _ _ Hi) as Hk; unfold cons_ok in Hk; pose proof (fixed_bound y Hi) as Hbnd;
    destruct chunks_cover as (_ & Hcov & Hlt); destruct (data_dims y Hi) as [Hd1 Hd2]; pose proof (v_data _ _ _ _ _ Hi) as Hrd;
    destruct (cons y) as [k' agg' out'|k' agg' out' f'|k' agg' out' f'|k' agg' out' f'|agg' out' f'|agg' out' f'|agg' out'|e'|] eqn:Eq;
    try done; simpl in Hc.
  - destruct Hc as (<- & <- & <- & <- & ->). destruct Hk as (Hk1 & Hk2 & Hk3 & Hk4 & Hk5 & Hk6).
    pose proof (cons_slot_holds fixed tid fl src y k Hi Hk1 Hk2 Hk3) as Hh. specialize (Hlt k Hk1).
    rewrite Hk5, Z.min_r, (validate_dynamic_chunk_ok avx2_c _ _ k Hrd Hd1 Hd2 Hk1 Hh) in Hst by lia. apply (inj Some) in Hst as <-.
    eexists. split; [done|]. eapply (sim_cons y); [exact Hi| |..].
    + unfold cons_step. rewrite Eq, Hk5. rewrite (validate_chunk_ok fixed tid fl src) with (seq := data_seq fixed tid fl src); side.
    + done.
    + done.
    + done.
    + cbn [dcons set_dcons cons set_cons cons_rel]. rewrite Z.min_r by lia. splits.
  - destruct Hc as (<- & <- & <- & <- & ->). destruct Hk as (Hk1 & Hk2 & Hk3 & Hk4 & Hk5 & Hk6).
    pose proof (cons_slot_holds fixed tid fl src y k Hi Hk1 Hk2 Hk3) as Hh. specialize (Hlt k Hk1).
    pose proof (read_slot_ok fixed tid src (proj1 fixed_ok) Htid (data y) _ k Hrd Hd1 Hd2 Hk1 Hh) as Hrs.
    assert (frame.slot f = k mod slots fixed /\ frame.len f = chunk_len fixed k) as [Es El] by (by rewrite Hk5).
    rewrite Es, El, Hrs in Hst. cbn [mbind outcome_bind] in Hst.
    destruct (chunk_meta_ok fixed k (proj1 fixed_ok) Hk1) as (_ & Hpos & Hle & _). simpl in Hpos, Hle.
    unfold chunk_len in Hst. simpl total_bytes in Hst. simpl chunk_bytes in Hst.
    pose proof (sk_total _ Hs). assert (payload_len <= total_bytes s) by (unfold payload_len; lia).
    rewrite (Z.min_r payload_len) in Hst by lia.
    destruct (Z.ltb_spec (k * cb + Z.min (payload_len - k * cb) cb) USIZE); [|lia]. apply (inj Some) in Hst as <-.
    eexists. split; [done|]. eapply (sim_cons y); [exact Hi| |..].
    + unfold cons_step. rewrite Eq, Es, El, Hrs. done.
    + done.
    + done.
    + done.
    + cbn [dcons set_dcons cons set_cons cons_rel]. splits.
  - destruct Hc as (-> & <- & <- & <- & ->). destruct Hk as (Hk1 & Hk2 & Hk3 & Hk4 & Hk5 & Hk6).
    assert (release_frame fixed tid fl src k' = release_seq fixed tid fl src (tail (releases y))) as Ef.
    { unfold release_seq. rewrite Hk3. destruct (Z.ltb_spec k' n); [done|lia]. }
    rewrite Hk5 in Hst. change (mkFrame Released _ _ _ _ _ _ _) with (release_frame fixed tid fl src k') in Hst.
    destruct (sim_push_release x y _ o _ (CTop (k' + 1) agg out) Hi Hr Hst Ef ltac:(lia)) as (ra & -> & Hpf).
    eexists. split; [done|]. eapply (sim_cons y); [exact Hi| |..].
    + unfold cons_step. rewrite Eq, Hk5. exact Hpf.
    + done.
    + done.
    + done.
    + simpl. splits.
  - destruct Hc as (-> & <- & <- & <- & ->). destruct Hk as (Hk1 & Hk2 & Hk3 & Hk4 & Hk5).
    rewrite Hk3, Hk4, validate_dynamic_complete_ok in Hst. apply (inj Some) in Hst as <-.
    eexists. split; [done|]. eapply (sim_cons y); [exact Hi| |..].
    + unfold cons_step. rewrite Eq, Hk3, Hk4, validate_complete_ok. done.
    + done.
    + done.
    + done.
    + simpl. splits.
  - destruct Hc as (-> & <- & <- & <- & ->). destruct Hk as (Hk1 & Hk2 & Hk3 & Hk4 & Hk5).
    assert (f = release_seq fixed tid fl src (tail (releases y))) as Ef.
    { unfold release_seq. rewrite Hk2, Hk4. destruct (Z.ltb_spec n n); [lia|done]. }
    destruct (sim_push_release x y _ o _ (CDone agg out) Hi Hr Hst Ef ltac:(lia)) as (ra & -> & Hpf).
    eexists. split; [done|]. eapply (sim_cons y); [exact Hi| |..].
    + unfold cons_step. rewrite Eq. exact Hpf.
    + done.
    + done.
    + done.
    + simpl. splits.
Qed.

(** ** Every step *)

Lemma sim_dprod x o :
  sim x -> dprod_step s tid fl avx2_p x = Some o -> exists x', o = OK x' /\ sim x'.
Proof.
  intros Hx Hst. destruct (dprod x) eqn:Ep; try (by unfold dprod_step in Hst; rewrite Ep in Hst).
  - by eapply sim_top.
  - by eapply sim_wait.
  - by eapply sim_fill.
  - by eapply sim_push.
  - by eapply sim_drain.
  - eapply sim_finish; [done| |done]. by rewrite Ep.
  - eapply sim_finish; [done| |done]. by rewrite Ep.
Qed.

Lemma sim_step x e o : sim x -> dstep s tid fl avx2_p avx2_c x e = Some o -> exists x', o = OK x' /\ sim x'.
Proof.
  intros Hx Hst. destruct e; simpl in Hst; [by eapply sim_dprod|by eapply sim_dcons| |].
  - destruct (dprod_over (dprod x)) eqn:Ho; [done|]. injection Hst as <-. eexists. split; [done|].
    destruct Hx as (y & Hi & Hd & Hr & Hp & Hc). pose proof (prod_rel_cap _ _ Hi Hp Ho) as Hcap.
    apply (sim_abort x y); try done. unfold prod_rel in Hp. destruct (dprod x), (prod y); done.
  - destruct (dcons_over (dcons x)) eqn:Ho; [done|]. injection Hst as <-. eexists. split; [done|].
    destruct Hx as (y & Hi & Hd & Hr & Hp & Hc).
    destruct (step_ok fixed tid fl avx2_p avx2_c src) with (x := y) (e := EConsAbort)
      (o := OK (set_cons y (data y) (releases y) CAborted)) as (z & [= <-] & Hz); side.
    { simpl. by destruct (dcons x), (cons y). }
    apply (sim_intro _ _ Hz); done.
Qed.

Lemma sim_initial d r :
  fresh s d -> fresh s r -> a_slots d = slots s -> slot_len d = cb -> sim (dinitial d r input).
Proof.
  intros [H1 H2 H3 H4] [H5 H6 H7 H8] Hsl Hlen. destruct chunks_cover as (Hn & Hcov & Hlt).
  assert (finv (initial d r src)) as Hi by (apply transfer_inv_initial; side; split; done).
  destruct (decide (0 < n)) as [Hpos|Hz].
  - apply (sim_intro _ _ Hi); try done; simpl; splits.
    + unfold pos. pose proof (sk_total _ Hs). by replace (Z.to_nat (Z.min (total_bytes s) (0 * cb))) with O by lia.
    + unfold payload_len. pose proof (sk_total _ Hs). lia.
  - assert (n = 0) as E by lia. eapply (sim_prod (initial d r src)); [exact Hi| |..].
    + unfold prod_step. simpl prod. cbv iota. destruct (Z.ltb_spec 0 n); [lia|]. done.
    + done.
    + done.
    + pose proof (sk_total _ Hs). simpl. unfold at_end, pos. rewrite E in *. splits.
      * unfold payload_len in *. lia.
      * by replace (Z.to_nat (Z.min (total_bytes s) (0 * cb))) with O by lia.
      * pose proof (sk_slots _ Hs). lia.
    + simpl. splits. unfold payload_len. pose proof (sk_total _ Hs). lia.
Qed.

Lemma sim_run x es x' : sim x -> drun s tid fl avx2_p avx2_c x es = Some x' -> sim x'.
Proof.
  revert x. induction es as [|e es IH]; intros x Hx Hr; simpl in Hr; [by injection Hr as <-|].
  destruct (dstep _ _ _ _ _ x e) as [[y| |]|] eqn:Hst; try done.
  destruct (sim_step x e _ Hx Hst) as (z & [= <-] & Hz). by apply (IH y).
Qed.

(** ** What a related state says *)

Lemma sim_results x : sim x ->
  (forall e, dcons x <> QFailed e) /\
  (forall e, dprod x = DFailed e ->
     (e = InvalidData "stream exceeded its byte ceiling" /\ total_bytes s < Z.of_nat (length src)) \/
     (e = InvalidData "stream generation exhausted" /\ exhausted)) /\
  (forall agg tot k out, dcons x = QDone agg tot k out -> out = src /\ tot = Z.of_nat (length src) /\ tot <= total_bytes s) /\
  (forall agg tot k, dprod x = DDone agg tot k -> dcons x = QDone agg tot k src).
Proof.
  intros (y & Hi & Hd & Hr & Hp & Hc). pose proof (v_cons _ _ _ _ _ Hi) as Hk. unfold cons_ok in Hk.
  pose proof (fixed_bound y Hi) as Hb.
  assert (forall agg tot k out, dcons x = QDone agg tot k out -> cons y = CDone agg out /\ tot = payload_len /\ k = n /\
    out = take (Z.to_nat payload_len) src /\ n < tail (data y)) as Hq.
  { intros agg tot k out E. rewrite E in Hc. destruct (cons y) eqn:Ey; try done. simpl in Hc. destruct Hc as (-> & -> & -> & ->).
    destruct Hk as (Hk1 & Hk2 & _ & ->). splits. }
  splits.
  - intros e E. rewrite E in Hc. by destruct (cons y).
  - intros e E. unfold prod_rel in Hp. rewrite E in Hp. destruct (prod y); try done.
    destruct Hp as [(? & ? & _)|?]; [by left|by right].
  - intros agg tot k out E. destruct (Hq _ _ _ _ E) as (_ & -> & _ & -> & Ht).
    assert (Z.of_nat (length src) <= total_bytes s) as Hlen.
    { destruct (dprod_over (dprod x)) eqn:Ho; [|by eapply prod_rel_cap]. unfold prod_rel in Hp.
      pose proof (v_prod _ _ _ _ _ Hi) as Hpk. unfold prod_ok in Hpk.
      destruct (dprod x) eqn:Edp, (prod y) eqn:Ey; try done; [by destruct Hp as (_ & _ & _ & ?)| |by apply Hp].
      destruct Hp as [(_ & _ & Hp)|(_ & _ & Hp)]; lia. }
    unfold payload_len. rewrite Z.min_l by done. splits. apply take_ge. lia.
  - intros agg tot k E. unfold prod_rel in Hp. rewrite E in Hp. destruct (prod y) eqn:Ey; try done.
    destruct Hp as (<- & -> & -> & Hlen). destruct (inv_agree fixed tid fl src y agg Hi Ey) as [Ec _].
    rewrite Ec in Hc. destruct (dcons x) as [| | | | | |a' t' k' o'| |]; try done. simpl in Hc. destruct Hc as (-> & -> & -> & ->).
    f_equal. apply take_ge. unfold payload_len. lia.
Qed.
End simulation.

(** ** Claims *)

(** The setup of a direction, and a reader that reports no error. *)
Record stream_ready (s : StreamShape) (tid fl : Z) (input : script) (d r : Arena) : Prop := {
  sr_shape : shape_ok s;
  sr_tid : 0 <= tid < USIZE;
  sr_flags : is_byte fl;
  sr_input : fine input;
  sr_data : fresh s d;
  sr_releases : fresh s r;
  sr_slots : a_slots d = slots s;
  sr_slot_len : slot_len d = chunk_bytes s
}.


(** Ten bytes in fragments, with an interruption, under a ceiling of twelve. *)
Definition sample_stream : StreamShape := mkShape 12 4 2.
Definition sample_input : script := [RBytes [1; 2; 3]; RInterrupted; RBytes [4; 5; 6; 7; 8]; RBytes [9; 10]].
Definition stream_schedule : list event :=
  repeat EProd 9 ++ repeat ECons 8 ++ repeat EProd 6 ++ repeat ECons 4 ++ repeat EProd 3 ++ repeat ECons 3 ++ [EProd].
Definition stream_final : dstate :=
  default (dinitial sample_data sample_releases [])
    (drun sample_stream 9 0x41 true false (dinitial sample_data sample_releases sample_input) stream_schedule).

Lemma sample_stream_ready : stream_ready sample_stream 9 0x41 sample_input sample_data sample_releases.
Proof.
  destruct sample_ready as [H1 H2 H3 H4 [A1 A2 A3 A4] [B1 B2 B3 B4] H7 H8].
  assert (shape_ok sample_stream) by (apply validate_ok; (vm_compute; by split) || done).
  assert (fine sample_input) by (repeat constructor; discriminate).
  assert (fresh sample_stream sample_data /\ fresh sample_stream sample_releases) as [? ?] by (split; split; assumption).
  split; assumption.
Qed.



End dynamic.
