(* ===== verification/IpcSetup.v ===== *)
(** * The setup frame: [src/src/ipc/setup.rs], with the handles it carries

    The creating process serialises the locators of its shared regions, the
    stream shapes and the payload contract over the control socket; the attaching
    process parses and validates them before it maps anything. The readers are
    parsers over the bytes still to come, the writers give the bytes written or
    an error; [codec] states that a writer and a reader are each other's inverse,
    with an instance for every type of the frame. *)

From stdpp Require Import prelude strings.
From S2P Require Import Prelude IpcFrame IpcArena.
Import frame arena.
Local Open Scope Z_scope.
Local Open Scope prescient_scope.
#[local] Set Warnings "-clear-no-such-hyp".

Module setup.

#[export] Instance StreamFlow_eq_dec : EqDecision StreamFlow.
Proof. solve_decision. Defined.
#[export] Instance StreamShape_eq_dec : EqDecision StreamShape.
Proof. solve_decision. Defined.

(** ** Region handles ([region.rs]) *)

(** A Rust [String] is a byte string in UTF-8: lead and continuation bytes in the
    ranges the encoding allows. *)
Definition within (lo hi b : Z) : bool := (lo <=? b) && (b <=? hi).
Definition continuation (b : Z) : bool := within 0x80 0xBF b.

Fixpoint utf8_valid (bytes : list Z) : bool :=
  match bytes with
  | [] => true
  | b0 :: rest0 =>
      if within 0 0x7F b0 then utf8_valid rest0 else
      match rest0 with
      | b1 :: rest1 =>
          if within 0xC2 0xDF b0 then continuation b1 && utf8_valid rest1 else
          match rest1 with
          | b2 :: rest2 =>
              if within 0xE0 0xEF b0 then
                within (if b0 =? 0xE0 then 0xA0 else 0x80) (if b0 =? 0xED then 0x9F else 0xBF) b1
                && continuation b2 && utf8_valid rest2 else
              match rest2 with
              | b3 :: rest3 =>
                  within 0xF0 0xF4 b0
                  && within (if b0 =? 0xF0 then 0x90 else 0x80) (if b0 =? 0xF4 then 0x8F else 0xBF) b1
                  && continuation b2 && continuation b3 && utf8_valid rest3
              | [] => false
              end
          | [] => false
          end
      | [] => false
      end
  end.

Record RegionHandle := mkRegion { name : list Z; rlen : Z }.

Definition RegionHandle_from_parts (name : list Z) (len : Z) : io RegionHandle :=
  if (Z.of_nat (length name) =? 0) || (240 <? Z.of_nat (length name))
  then Err (InvalidInput "shared-region name length is invalid") else
  if (len =? 0) || (ISIZE_MAX <? len)
  then Err (InvalidInput "shared-region length is invalid") else
  Ok (mkRegion name len).

(** ** Direction handles ([stream.rs]) *)

Record DirectionHandle := mkDirectionHandle {
  data_region : RegionHandle;
  release_region : RegionHandle;
  shape : StreamShape;
  dtransfer_id : Z;
  flow : StreamFlow
}.

Definition DirectionHandle_from_parts (data releases : RegionHandle) (s : StreamShape) (tid : Z) (f : StreamFlow)
    : io DirectionHandle :=
  _ ←? arena.validate s;
  if tid =? 0 then Err (InvalidInput "transfer id zero is reserved") else
  Ok (mkDirectionHandle data releases s tid f).

(** ** Payload contracts ([ipc/mod.rs]) *)

Inductive PayloadKind : Type := Bytes | Pod | Codec.
#[export] Instance PayloadKind_eq_dec : EqDecision PayloadKind.
Proof. solve_decision. Defined.

Definition PayloadKind_as_u8 (k : PayloadKind) : Z := match k with Bytes => 1 | Pod => 2 | Codec => 3 end.

Record PayloadContract := mkPayload {
  pkind : PayloadKind;
  schema_id : Z;
  element_size : Z;
  element_align : Z
}.
#[export] Instance PayloadContract_eq_dec : EqDecision PayloadContract.
Proof. solve_decision. Defined.

Definition payload_bytes : PayloadContract := mkPayload Bytes 0 1 1.
Definition payload_pod (schema size align : Z) : PayloadContract := mkPayload Pod schema size align.
Definition payload_codec (schema : Z) : PayloadContract := mkPayload Codec schema 0 0.

Definition payload_validate (p : PayloadContract) : io unit :=
  let valid := match pkind p with
    | Bytes => (schema_id p =? 0) && (element_size p =? 1) && (element_align p =? 1)
    | Pod => negb (schema_id p =? 0) && negb (element_size p =? 0) && is_power_of_two (element_align p)
    | Codec => negb (schema_id p =? 0) && (element_size p =? 0) && (element_align p =? 0)
    end in
  if valid then Ok tt else Err (InvalidInput "invalid IPC payload contract").

Record DuplexHandle := mkDuplexHandle {
  parent_to_worker : DirectionHandle;
  worker_to_parent : DirectionHandle;
  payload : PayloadContract
}.

(** ** Constants ([setup.rs]) *)

(** ["PSCIPC\0\0"]. *)
Definition MAGIC : list Z := [0x50; 0x53; 0x43; 0x49; 0x50; 0x43; 0; 0].
Definition SETUP_VERSION : Z := 1.
Definition ACCEPTED : Z := 0xa5.
Definition REJECTED : Z := 0x5a.
Definition MAX_REGION_NAME : Z := 240.

(** ** Readers *)

Definition reader (A : Type) : Type := list Z -> io (A * list Z).

(** [Read::read_exact] on the bytes before the end of the stream. *)
Definition read_exact (n : nat) : reader (list Z) := fun i =>
  if (length i <? n)%nat then Err UnexpectedEof else Ok (take n i, drop n i).

Definition read_word (n : nat) : reader Z := fun i => '(b, i) ←? read_exact n i; Ok (from_le b, i).
Definition read_u8 : reader Z := read_word 1.
Definition read_u16 : reader Z := read_word 2.
Definition read_u64 : reader Z := read_word 8.
(** [usize] is 64 bits wide: the conversion cannot fail. *)
Definition read_usize : reader Z := read_u64.

Definition read_region : reader RegionHandle := fun i =>
  '(name_len, i) ←? read_u16 i;
  if (name_len =? 0) || (MAX_REGION_NAME <? name_len)
  then Err (InvalidData "shared-region name length is invalid") else
  '(nm, i) ←? read_exact (Z.to_nat name_len) i;
  if negb (utf8_valid nm) then Err (InvalidData "shared-region name is not UTF-8") else
  '(len, i) ←? read_usize i;
  h ←? RegionHandle_from_parts nm len;
  Ok (h, i).

Definition read_direction : reader DirectionHandle := fun i =>
  '(data, i) ←? read_region i;
  '(releases, i) ←? read_region i;
  '(total, i) ←? read_u64 i;
  '(chunk, i) ←? read_usize i;
  '(slots, i) ←? read_usize i;
  '(tid, i) ←? read_u64 i;
  '(fl, i) ←? read_u8 i;
  fl ←? StreamFlow_try_from fl;
  h ←? DirectionHandle_from_parts data releases (mkShape total chunk slots) tid fl;
  Ok (h, i).

Definition PayloadKind_try_from (v : Z) : io PayloadKind :=
  if v =? 1 then Ok Bytes else if v =? 2 then Ok Pod else if v =? 3 then Ok Codec
  else Err (InvalidData "invalid IPC payload kind").

Definition read_payload : reader PayloadContract := fun i =>
  '(k, i) ←? read_u8 i;
  k ←? PayloadKind_try_from k;
  '(schema, i) ←? read_u64 i;
  '(size, i) ←? read_usize i;
  '(align, i) ←? read_usize i;
  _ ←? payload_validate (mkPayload k schema size align);
  Ok (mkPayload k schema size align, i).

Definition read_frame : reader DuplexHandle := fun i =>
  '(magic, i) ←? read_exact 8 i;
  if negb (bool_decide (magic = MAGIC)) then Err (InvalidData "invalid IPC setup magic") else
  '(v, i) ←? read_u16 i;
  if negb (v =? SETUP_VERSION) then Err (InvalidData "unsupported IPC setup version") else
  '(p, i) ←? read_payload i;
  '(ptw, i) ←? read_direction i;
  '(wtp, i) ←? read_direction i;
  Ok (mkDuplexHandle ptw wtp p, i).

(** ** Writers *)

Definition write_u16 (v : Z) : list Z := to_le 2 v.
Definition write_u64 (v : Z) : list Z := to_le 8 v.

Definition write_payload (p : PayloadContract) : list Z :=
  [PayloadKind_as_u8 (pkind p)] ++ write_u64 (schema_id p) ++ write_u64 (element_size p) ++ write_u64 (element_align p).

Definition write_region (h : RegionHandle) : io (list Z) :=
  if (Z.of_nat (length (name h)) =? 0) || (MAX_REGION_NAME <? Z.of_nat (length (name h)))
  then Err (InvalidData "shared-region name length is invalid") else
  Ok (write_u16 (Z.of_nat (length (name h))) ++ name h ++ write_u64 (rlen h)).

Definition write_direction (h : DirectionHandle) : io (list Z) :=
  d ←? write_region (data_region h);
  r ←? write_region (release_region h);
  Ok (d ++ r ++ write_u64 (total_bytes (shape h)) ++ write_u64 (chunk_bytes (shape h)) ++ write_u64 (slots (shape h)) ++
      write_u64 (dtransfer_id h) ++ [StreamFlow_as_u8 (flow h)]).

(** What [send] writes before it waits for the acknowledgement. *)
Definition write_frame (h : DuplexHandle) : io (list Z) :=
  p ←? write_direction (parent_to_worker h);
  w ←? write_direction (worker_to_parent h);
  Ok (MAGIC ++ write_u16 SETUP_VERSION ++ write_payload (payload h) ++ p ++ w).

(** The rest of [send]: the acknowledgement byte, from the bytes the peer wrote. *)
Definition read_acknowledgement : reader unit := fun i =>
  '(b, i) ←? read_u8 i;
  if b =? ACCEPTED then Ok (tt, i) else
  if b =? REJECTED then Err (InvalidData "peer rejected IPC setup")
  else Err (InvalidData "invalid IPC setup acknowledgement").

(** ** Writers and readers are inverse *)

(** [ok] are the values that can be sent: the reader takes what the writer
    wrote, leaving the rest of the stream alone, and accepts nothing else. *)
Class codec {A} (ok : A -> Prop) (wr : A -> io (list Z)) (rd : reader A) : Prop := {
  codec_read a rest : ok a -> exists b, wr a = Ok b /\ Forall is_byte b /\ rd (b ++ rest) = Ok (a, rest);
  codec_accept i a rest : Forall is_byte i -> rd i = Ok (a, rest) -> ok a /\ exists b, wr a = Ok b /\ i = b ++ rest
}.

Ltac bind_inv H :=
  match type of H with
  | result_bind ?m _ = Ok _ =>
      let E := fresh "E" in
      lazymatch type of m with
      | result (_ * _) _ => destruct m as [[? ?]|] eqn:E
      | _ => destruct m eqn:E
      end; cbn [result_bind] in H; [|discriminate H]
  end.

Ltac units := repeat match goal with u : unit |- _ => destruct u end.

Lemma read_exact_app n (b rest : list Z) : length b = n -> read_exact n (b ++ rest) = Ok (b, rest).
Proof.
  intros <-. unfold read_exact. rewrite length_app. destruct (Nat.ltb_spec (length b + length rest) (length b)); [lia|].
  by rewrite take_app_length, drop_app_length.
Qed.

Lemma read_exact_split n (i b rest : list Z) : read_exact n i = Ok (b, rest) -> i = b ++ rest /\ length b = n.
Proof.
  unfold read_exact. destruct (Nat.ltb_spec (length i) n); [done|]. intros [= <- <-]. rewrite take_drop, length_take. split; [done|lia].
Qed.

#[export] Instance word_codec n : codec (fun v => 0 <= v < 256 ^ Z.of_nat n) (fun v => Ok (to_le n v)) (read_word n).
Proof.
  split.
  - intros v rest Hv. exists (to_le n v). splits; [apply to_le_is_byte|]. unfold read_word.
    rewrite read_exact_app by apply length_to_le. simpl. by rewrite from_le_to_le.
  - intros i v rest Hb Hr. unfold read_word in Hr. bind_inv Hr. injection Hr as <- <-.
    apply read_exact_split in E as [-> Hl]. apply Forall_app in Hb as [Hb _].
    split; [rewrite <- Hl; by apply from_le_range|]. exists l. by rewrite to_le_from_le.
Qed.

(** Words inside larger readers. *)
Lemma read_word_app n v rest : 0 <= v < 256 ^ Z.of_nat n -> read_word n (to_le n v ++ rest) = Ok (v, rest).
Proof. intros Hv. by destruct (codec_read (codec := word_codec n) v rest Hv) as (b & [= <-] & _ & ?). Qed.

Lemma read_word_inv n i v rest : Forall is_byte i -> read_word n i = Ok (v, rest) ->
  i = to_le n v ++ rest /\ 0 <= v < 256 ^ Z.of_nat n /\ Forall is_byte rest.
Proof.
  intros Hb Hr. destruct (codec_accept (codec := word_codec n) i v rest Hb Hr) as (Hv & b & [= <-] & ->).
  splits. by apply Forall_app in Hb as [_ ?].
Qed.

Definition region_ok (h : RegionHandle) : Prop :=
  0 < Z.of_nat (length (name h)) <= MAX_REGION_NAME /\ Forall is_byte (name h) /\ utf8_valid (name h) = true /\
  0 < rlen h <= ISIZE_MAX.

Lemma pow256 : 256 ^ Z.of_nat 1 = 256 /\ 256 ^ Z.of_nat 2 = 65536 /\ 256 ^ Z.of_nat 8 = USIZE.
Proof. done. Qed.

#[export] Instance region_codec : codec region_ok write_region read_region.
Proof.
  destruct pow256 as (_ & P2 & P8). split.
  - intros [nm len] rest (Hn & Hb & Hu & Hl). simpl in *. unfold MAX_REGION_NAME in *.
    exists (write_u16 (Z.of_nat (length nm)) ++ nm ++ write_u64 len). splits.
    + unfold write_region, MAX_REGION_NAME. simpl. by zbool; try lia.
    + rewrite !Forall_app. splits; apply to_le_is_byte.
    + unfold read_region, read_u16, read_usize, read_u64, write_u16, write_u64, MAX_REGION_NAME.
      rewrite <- !app_assoc, read_word_app by lia. cbn [result_bind].
      destruct (Z.eqb_spec (Z.of_nat (length nm)) 0), (Z.ltb_spec 240 (Z.of_nat (length nm))); try lia. cbn [orb].
      rewrite read_exact_app by lia. cbn [result_bind]. rewrite Hu. cbn [negb].
      rewrite read_word_app by lia. cbn [result_bind]. unfold RegionHandle_from_parts.
      by zbool; try lia.
  - intros i h rest Hb Hr. unfold read_region, read_u16, read_usize, read_u64 in Hr. bind_inv Hr.
    apply read_word_inv in E as (-> & Hz & Hb1); [|done]. unfold MAX_REGION_NAME in *.
    destruct (Z.eqb_spec z 0), (Z.ltb_spec 240 z); try done. cbn [orb] in Hr. bind_inv Hr.
    apply read_exact_split in E as [-> Hl0]. apply Forall_app in Hb1 as [Hb1 Hb2].
    destruct (utf8_valid l0) eqn:Hu; [|done]. cbn [negb] in Hr. bind_inv Hr.
    apply read_word_inv in E as (-> & Hz0 & Hb3); [|done]. bind_inv Hr. injection Hr as <- <-.
    unfold RegionHandle_from_parts in E. zbool_in E; try done. injection E as <-. split.
    + unfold region_ok, MAX_REGION_NAME. simpl. splits.
    + unfold write_region, MAX_REGION_NAME. cbn [name rlen]. rewrite Hl0, Z2Nat.id by lia. zbool; try lia.
      eexists. split; [done|]. unfold write_u16, write_u64. by rewrite <- !app_assoc.
Qed.

(** A word that a reader in the middle of a frame consumes. *)
Ltac word_inv Hr :=
  bind_inv Hr;
  match goal with E : read_word _ _ = Ok _ |- _ => apply read_word_inv in E as (-> & ? & ?); [|assumption] end.

Definition payload_ok (p : PayloadContract) : Prop :=
  payload_validate p = Ok tt /\ 0 <= schema_id p < USIZE /\ 0 <= element_size p < USIZE /\ 0 <= element_align p < USIZE.

Lemma PayloadKind_round k : PayloadKind_try_from (PayloadKind_as_u8 k) = Ok k.
Proof. by destruct k. Qed.

Lemma PayloadKind_back v k : PayloadKind_try_from v = Ok k -> to_le 1 v = [PayloadKind_as_u8 k] /\ 0 <= v < 256.
Proof. unfold PayloadKind_try_from. zbool; try done; intros [= <-]; subst; split; done || lia. Qed.

Lemma StreamFlow_round f : StreamFlow_try_from (StreamFlow_as_u8 f) = Ok f.
Proof. by destruct f. Qed.

Lemma StreamFlow_back v f : StreamFlow_try_from v = Ok f -> to_le 1 v = [StreamFlow_as_u8 f] /\ 0 <= v < 256.
Proof. unfold StreamFlow_try_from. zbool; try done; intros [= <-]; subst; split; done || lia. Qed.

#[export] Instance payload_wire : codec payload_ok (fun p => Ok (write_payload p)) read_payload.
Proof.
  destruct pow256 as (P1 & _ & P8). split.
  - intros p rest (Hv & H1 & H2 & H3). exists (write_payload p). splits.
    + unfold write_payload. rewrite !Forall_app. splits; try apply to_le_is_byte.
      repeat constructor; unfold is_byte; destruct (pkind p); simpl; lia.
    + unfold read_payload, read_u8, read_usize, read_u64, write_payload, write_u64. rewrite <- !app_assoc.
      assert ([PayloadKind_as_u8 (pkind p)] = to_le 1 (PayloadKind_as_u8 (pkind p))) as -> by (by destruct (pkind p)).
      rewrite read_word_app by (destruct (pkind p); simpl; lia). cbn [result_bind]. rewrite PayloadKind_round. cbn [result_bind].
      rewrite !read_word_app by lia. cbn [result_bind]. rewrite !read_word_app by lia. cbn [result_bind].
      rewrite !read_word_app by lia. cbn [result_bind]. destruct p. simpl in *. by rewrite Hv.
  - intros i p rest Hb Hr. unfold read_payload, read_u8, read_usize, read_u64 in Hr. word_inv Hr. bind_inv Hr.
    apply PayloadKind_back in E as [E _]. word_inv Hr. word_inv Hr. word_inv Hr. bind_inv Hr. injection Hr as <- <-.
    split; [unfold payload_ok; simpl; units; splits|]. eexists. split; [done|].
    unfold write_payload, write_u64. cbn [pkind schema_id element_size element_align]. by rewrite E, <- !app_assoc.
Qed.

Definition direction_ok (h : DirectionHandle) : Prop :=
  region_ok (data_region h) /\ region_ok (release_region h) /\ arena.validate (shape h) = Ok tt /\
  0 <= total_bytes (shape h) < USIZE /\ 0 <= chunk_bytes (shape h) < USIZE /\ 0 <= slots (shape h) < USIZE /\
  0 < dtransfer_id h < USIZE.

(** A reader whose law is known, inside a larger one. *)
Lemma codec_app {A ok wr rd} `{!@codec A ok wr rd} a b rest : ok a -> wr a = Ok b -> rd (b ++ rest) = Ok (a, rest).
Proof. intros Ha Hw. destruct (codec_read a rest Ha) as (b' & E & _ & Hr). rewrite Hw in E. by injection E as ->. Qed.

Lemma codec_inv {A ok wr rd} `{!@codec A ok wr rd} i a rest :
  Forall is_byte i -> rd i = Ok (a, rest) -> ok a /\ exists b, wr a = Ok b /\ i = b ++ rest /\ Forall is_byte rest.
Proof.
  intros Hb Hr. destruct (codec_accept i a rest Hb Hr) as (Ha & b & Hw & ->). split; [done|]. exists b. splits.
  by apply Forall_app in Hb as [_ ?].
Qed.

#[export] Instance direction_codec : codec direction_ok write_direction read_direction.
Proof.
  destruct pow256 as (P1 & _ & P8). split.
  - intros h rest (Hd & Hr & Hv & H1 & H2 & H3 & H4).
    destruct (codec_read (data_region h) [] Hd) as (d & Hwd & Hbd & _).
    destruct (codec_read (release_region h) [] Hr) as (r & Hwr & Hbr & _).
    unfold write_direction. rewrite Hwd, Hwr. cbn [result_bind]. eexists. split; [done|]. split.
    + rewrite !Forall_app. splits; try apply to_le_is_byte. repeat constructor; unfold is_byte; destruct (flow h); simpl; lia.
    + unfold read_direction, read_u8, read_usize, read_u64, write_u64. rewrite <- !app_assoc.
      rewrite (codec_app _ _ _ Hd Hwd). cbn [result_bind]. rewrite (codec_app _ _ _ Hr Hwr). cbn [result_bind].
      assert ([StreamFlow_as_u8 (flow h)] = to_le 1 (StreamFlow_as_u8 (flow h))) as -> by (by destruct (flow h)).
      do 4 (rewrite read_word_app by lia; cbn [result_bind]).
      rewrite read_word_app by (destruct (flow h); simpl; lia). cbn [result_bind]. rewrite StreamFlow_round. cbn [result_bind].
      unfold DirectionHandle_from_parts. destruct h as [? ? [? ? ?] ? ?]. simpl in *. rewrite Hv. simpl. zbool; [lia|done].
  - intros i h rest Hb Hr. unfold read_direction, read_u8, read_usize, read_u64 in Hr.
    bind_inv Hr. apply codec_inv in E as (Hd & db & Hwd & -> & ?); [|done].
    bind_inv Hr. apply codec_inv in E as (Hre & rb & Hwr & -> & ?); [|done].
    do 5 word_inv Hr. bind_inv Hr. apply StreamFlow_back in E as [E _]. bind_inv Hr. injection Hr as <- <-.
    unfold DirectionHandle_from_parts in E0. bind_inv E0. units. zbool_in E0; [done|]. injection E0 as <-.
    split; [unfold direction_ok; simpl; splits|]. unfold write_direction. cbn [data_region release_region].
    rewrite Hwd, Hwr. cbn [result_bind shape total_bytes chunk_bytes slots dtransfer_id flow].
    eexists. split; [done|]. unfold write_u64. by rewrite E, <- !app_assoc.
Qed.

Definition duplex_ok (h : DuplexHandle) : Prop :=
  direction_ok (parent_to_worker h) /\ direction_ok (worker_to_parent h) /\ payload_ok (payload h).

#[export] Instance frame_codec : codec duplex_ok write_frame read_frame.
Proof.
  split.
  - intros h rest (Hp & Hw & Hc). destruct (codec_read (parent_to_worker h) [] Hp) as (p & Hwp & Hbp & _).
    destruct (codec_read (worker_to_parent h) [] Hw) as (w & Hww & Hbw & _).
    destruct (codec_read (payload h) [] Hc) as (c & Hwc & Hbc & _). injection Hwc as <-.
    unfold write_frame. rewrite Hwp, Hww. cbn [result_bind]. eexists. split; [done|]. split.
    + rewrite !Forall_app. splits; [|apply to_le_is_byte]. repeat (constructor; [unfold is_byte; lia|]); constructor.
    + unfold read_frame, read_u16, write_u16. rewrite <- !app_assoc, read_exact_app by done. cbn [result_bind].
      rewrite bool_decide_eq_true_2 by done. cbn [negb]. rewrite read_word_app by done. cbn [result_bind].
      rewrite Z.eqb_refl. cbn [negb]. rewrite (codec_app (payload h) _ _ Hc eq_refl). cbn [result_bind].
      rewrite (codec_app _ _ _ Hp Hwp). cbn [result_bind]. rewrite (codec_app _ _ _ Hw Hww). cbn [result_bind]. by destruct h.
  - intros i h rest Hb Hr. unfold read_frame, read_u16 in Hr. bind_inv Hr. apply read_exact_split in E as [-> _].
    apply Forall_app in Hb as [_ Hb]. destruct (bool_decide_reflect (l = MAGIC)) as [->|]; [|done]. cbn [negb] in Hr.
    word_inv Hr. destruct (Z.eqb_spec z SETUP_VERSION) as [->|]; [|done]. cbn [negb] in Hr.
    bind_inv Hr. apply codec_inv in E as (Hc & c & [= <-] & -> & ?); [|done].
    bind_inv Hr. apply codec_inv in E as (Hp & p0 & Hwp & -> & ?); [|done].
    bind_inv Hr. apply codec_inv in E as (Hw & w0 & Hww & -> & ?); [|done]. injection Hr as <- <-.
    split; [unfold duplex_ok; simpl; splits|]. unfold write_frame. cbn [parent_to_worker worker_to_parent payload].
    rewrite Hwp, Hww. cbn [result_bind]. eexists. split; [done|]. unfold write_u16. by rewrite <- !app_assoc.
Qed.

(** ** Claims *)

(** C40: the setup frame is an exact codec. What the creator writes for a valid
    pair of directions the attacher parses back, leaving the following bytes
    unread; every byte string the attacher accepts is the frame of the handle it
    returns, whose names, region lengths, shapes, transfer ids and payload
    contract are all valid; and no strict prefix of a frame is accepted. *)
Theorem setup_frame_exact (h : DuplexHandle) (rest : list Z) :
  duplex_ok h ->
  exists b, write_frame h = Ok b /\ read_frame (b ++ rest) = Ok (h, rest) /\
    (forall p q, b = p ++ q -> q <> [] -> exists e, read_frame p = Err e) /\
    (forall i h' rest', Forall is_byte i -> read_frame i = Ok (h', rest') ->
       duplex_ok h' /\ exists b', write_frame h' = Ok b' /\ i = b' ++ rest').
Proof.
  intros Hh. destruct (codec_read h rest Hh) as (b & Hw & Hb & Hr). exists b. splits.
  - intros p q -> Hq. destruct (read_frame p) as [[h' r']|e] eqn:Hp; [|by exists e]. exfalso.
    apply Forall_app in Hb as [Hbp _]. destruct (codec_inv p h' r' Hbp Hp) as (Hh' & b' & Hw' & -> & _).
    pose proof (codec_app h (_ ++ q) [] Hh Hw) as H1. pose proof (codec_app h' b' (r' ++ q) Hh' Hw') as H2.
    rewrite app_nil_r, <- app_assoc, H2 in H1. injection H1 as _ H1. by apply app_eq_nil in H1 as [_ ?].
  - intros i h' rest' Hi Hri. exact (codec_accept i h' rest' Hi Hri).
Qed.

(** The handle of the unit tests of [setup.rs]. *)
Definition sample_region (prefix : Z) (len : Z) : RegionHandle := mkRegion [prefix; 0x2D; 0x64] len.
Definition sample_direction (prefix tid : Z) (f : StreamFlow) : DirectionHandle :=
  mkDirectionHandle (sample_region prefix 4096) (sample_region (prefix + 1) 512) (mkShape 1024 256 4) tid f.
Definition sample_duplex : DuplexHandle :=
  mkDuplexHandle (sample_direction 0x66 41 ParentToWorker) (sample_direction 0x72 42 WorkerToParent) payload_bytes.

Lemma sample_duplex_ok : duplex_ok sample_duplex.
Proof.
  assert (forall p len, within 0 0x7D p = true -> 0 < len <= ISIZE_MAX -> region_ok (sample_region p len)) as Hr.
  { intros p len Hp Hl. unfold within in Hp. zbool_in Hp; try done. unfold region_ok, MAX_REGION_NAME. simpl. splits.
    - repeat (constructor; [unfold is_byte; lia|]); constructor.
    - unfold within. zbool; done || lia. }
  unfold duplex_ok, direction_ok, payload_ok. simpl. splits; try (apply Hr; done || lia).
Qed.

Lemma setup_frame_exact_witness :
  exists b, write_frame sample_duplex = Ok b /\ read_frame (b ++ [7]) = Ok (sample_duplex, [7]) /\
    exists e, read_frame (take 40 b) = Err e.
Proof.
  destruct (setup_frame_exact sample_duplex [7] sample_duplex_ok) as (b & Hw & Hr & Hp & _). exists b. splits.
  apply (Hp (take 40 b) (drop 40 b)); [by rewrite take_drop|].
  assert (match write_frame sample_duplex with Ok b => bool_decide (drop 40 b = []) | Err _ => true end = false) as Hl
    by (vm_compute; reflexivity).
  rewrite Hw in Hl. by apply bool_decide_eq_false in Hl.
Defined.

End setup.
