(* ===== verification/IpcSession.v ===== *)
(** * Process sessions: [src/src/ipc/mod.rs], [region.rs] and the endpoints of [stream.rs]

    Shared regions are named byte strings in a store that both processes see
    ([shm], the POSIX shared-memory namespace on Linux). A session is opened in
    two halves: the creator makes the four regions of a duplex and sends their
    handles, the attacher parses, checks and maps them, claims its roles and
    answers. A failing call removes the regions its caller would have owned, and
    the role claims it made in regions of the peer stay. Mapping a region succeeds
    here; locking its pages is the parameter [mlock]. *)

From stdpp Require Import prelude gmap strings.
From S2P Require Import Prelude IpcFrame IpcArena IpcTransfer IpcSetup.
Import frame arena setup.
Local Open Scope Z_scope.
Local Open Scope prescient_scope.
#[local] Set Warnings "-clear-no-such-hyp".

Module session.

(** ** Shared regions *)

Abbreviation shm := (gmap (list Z) (list Z)).

(** State, undefined behaviour and I/O errors. *)
Definition M (A : Type) : Type := shm -> outcome (io A * shm).
Definition ret {A} (a : A) : M A := fun st => OK (Ok a, st).
Definition lift {A} (r : io A) : M A := fun st => OK (r, st).
Definition bindM {A B} (m : M A) (k : A -> M B) : M B := fun st =>
  '(r, st') ← m st;
  match r with Ok a => k a st' | Err e => OK (Err e, st') end.
Notation "x ←! y ; z" := (bindM y (fun x => z))
  (at level 20, y at level 100, z at level 200, only parsing) : prescient_scope.
Notation "' x ←! y ; z" := (bindM y (fun x => z))
  (at level 20, x pattern, y at level 100, z at level 200, only parsing) : prescient_scope.

(** The owner of a region unlinks it when it is dropped on an error. *)
Definition unlink (names : list (list Z)) (st : shm) : shm := foldr delete st names.
Definition owning {A} (names : list (list Z)) (m : M A) : M A := fun st =>
  '(r, st') ← m st;
  OK (r, match r with Ok _ => st' | Err _ => unlink names st' end).

Definition hex_digit (n : Z) : Z := if n <? 10 then 0x30 + n else 0x61 + (n - 10).
Definition hex (bytes : list Z) : list Z :=
  bytes ≫= (fun b => [hex_digit (Z.shiftr b 4); hex_digit (Z.land b 0x0f)]).

(** ["/p-"]. *)
Definition region_name (suffix : list Z) : list Z := [0x2F; 0x70; 0x2D] ++ suffix.

Definition has_nul (nm : list Z) : bool := existsb (fun b => b =? 0) nm.

(** [platform::Backend::create]: [shm_open] with [O_EXCL], then [ftruncate]. *)
Definition backend_create (nm : list Z) (len : Z) : M unit := fun st =>
  if has_nul nm then OK (Err (InvalidInput "region name has NUL"), st) else
  match st !! nm with
  | Some _ => OK (Err AlreadyExists, st)
  | None => OK (Ok tt, <[nm := replicate (Z.to_nat len) 0]> st)
  end.

(** [platform::Backend::open], with [validate_backing_len]. *)
Definition backend_open (nm : list Z) (len : Z) : M unit := fun st =>
  if has_nul nm then OK (Err (InvalidInput "region name has NUL"), st) else
  match st !! nm with
  | None => OK (Err NotFound, st)
  | Some m =>
      if Z.of_nat (length m) =? len then OK (Ok tt, st)
      else OK (Err (InvalidData "shared-region length does not match descriptor"), st)
  end.

(** [SharedRegion::create]; [token] is what the random source gave. *)
Definition SharedRegion_create (token : list Z) (len : Z) : M RegionHandle :=
  if (len =? 0) || (ISIZE_MAX <? len) then lift (Err (InvalidInput "shared-region length is invalid")) else
  let nm := region_name (hex token) in
  _ ←! backend_create nm len;
  owning [nm] (lift (RegionHandle_from_parts nm len)).

Definition SharedRegion_open (h : RegionHandle) : M unit := backend_open (name h) (rlen h).

(** Pages locked on request; [mlock] is whether the system allows it. *)
Definition lock_region (mlock lock_memory : bool) : io bool :=
  if lock_memory then if mlock then Ok true else Err OtherIo else Ok false.

(** ** Arenas in the store *)

(** The bytes of a mapped region; a mapping outlives no region here. *)
Definition mapped (nm : list Z) : M (list Z) := fun st =>
  match st !! nm with Some m => OK (Ok m, st) | None => UB end.
Definition store_region (nm : list Z) (m : list Z) : M unit := fun st => OK (Ok tt, <[nm := m]> st).
Definition liftO {A} (o : outcome (io A)) : M A := fun st => r ← o; OK (r, st).

Definition arena_create_in (mlock : bool) (token : list Z) (slots slot_len cap tid dir : Z) (lock : bool)
    : M (RegionHandle * bool) :=
  '(len, _) ←! lift (arena_layout slots slot_len cap);
  h ←! SharedRegion_create token len;
  owning [name h] (
    m ←! mapped (name h);
    a ←! liftO (Arena_create (fun _ => m) slots slot_len cap tid dir);
    locked ←! lift (lock_region mlock lock);
    _ ←! store_region (name h) (mem a);
    ret (h, locked)).

Definition arena_open_in (mlock : bool) (h : RegionHandle) (slots slot_len cap tid dir : Z) (lock : bool) : M bool :=
  _ ←! SharedRegion_open h;
  m ←! mapped (name h);
  _ ←! liftO (Arena_open m (rlen h) slots slot_len cap tid dir);
  lift (lock_region mlock lock).

(** [Arena::claim_role]. *)
Definition claim_role (nm : list Z) (r : DirectionRole) : M unit :=
  m ←! mapped nm;
  b ←! liftO (b ← peek m ROLE_CLAIMS_OFFSET 4; OK (Ok b));
  w ←! lift (claim_direction_role (from_le b) r);
  m' ←! liftO (m' ← poke m ROLE_CLAIMS_OFFSET (to_le 4 w); OK (Ok m'));
  store_region nm m'.

(** ** Directions *)

(** [timeout] in nanoseconds. *)
Record EndpointOptions := mkOptions { lock_memory : bool; timeout : Z }.
Definition default_options : EndpointOptions := mkOptions false 30000000000.

Definition options_validate (o : EndpointOptions) : io unit :=
  if timeout o =? 0 then Err (InvalidInput "stream timeout must be non-zero") else Ok tt.

Record DirectionConfig := mkConfig {
  cfg_shape : StreamShape;
  cfg_transfer_id : Z;
  cfg_flow : StreamFlow;
  cfg_options : EndpointOptions
}.

Definition config_validate (c : DirectionConfig) : io unit :=
  _ ←? arena.validate (cfg_shape c);
  if cfg_transfer_id c =? 0 then Err (InvalidInput "transfer id zero is reserved") else
  options_validate (cfg_options c).

Record Direction := mkDirection {
  dir_data : list Z;                 (* name of the mapped data region *)
  dir_releases : list Z;
  dir_capacity : Z;
  dir_shape : StreamShape;
  dir_transfer_id : Z;
  dir_flow : StreamFlow;
  dir_options : EndpointOptions;
  data_locked : bool;
  releases_locked : bool
}.

Definition Direction_create (mlock : bool) (token1 token2 : list Z) (c : DirectionConfig) (role : DirectionRole)
    : M (Direction * DirectionHandle) :=
  _ ←! lift (config_validate c);
  let s := cfg_shape c in let lock := lock_memory (cfg_options c) in let dir := StreamFlow_as_u8 (cfg_flow c) in
  cap ←! lift (descriptor_capacity_for (slots s));
  '(dh, dl) ←! arena_create_in mlock token1 (slots s) (chunk_bytes s) cap (cfg_transfer_id c) dir lock;
  owning [name dh] (
    '(rh, rl) ←! arena_create_in mlock token2 0 0 cap (cfg_transfer_id c) (Z.lor dir RELEASE_ARENA_FLAG) lock;
    owning [name rh] (
      _ ←! claim_role (name dh) role;
      h ←! lift (DirectionHandle_from_parts dh rh s (cfg_transfer_id c) (cfg_flow c));
      ret (mkDirection (name dh) (name rh) cap s (cfg_transfer_id c) (cfg_flow c) (cfg_options c) dl rl, h))).

Definition Direction_open (mlock : bool) (h : DirectionHandle) (o : EndpointOptions) (role : DirectionRole)
    : M Direction :=
  _ ←! lift (options_validate o);
  _ ←! lift (arena.validate (shape h));
  let s := shape h in let dir := StreamFlow_as_u8 (flow h) in
  cap ←! lift (descriptor_capacity_for (slots s));
  dl ←! arena_open_in mlock (data_region h) (slots s) (chunk_bytes s) cap (dtransfer_id h) dir (lock_memory o);
  rl ←! arena_open_in mlock (release_region h) 0 0 cap (dtransfer_id h) (Z.lor dir RELEASE_ARENA_FLAG) (lock_memory o);
  _ ←! claim_role (name (data_region h)) role;
  ret (mkDirection (name (data_region h)) (name (release_region h)) cap s (dtransfer_id h) (flow h) o dl rl).

(** The arena a direction has mapped, cursors included, as its process sees it. *)
Definition arena_view (st : shm) (nm : list Z) (slots slot_len cap : Z) : option Arena :=
  m ← st !! nm;
  match arena_layout slots slot_len cap, peek m HEAD_OFFSET 8, peek m TAIL_OFFSET 8 with
  | Ok (_, po), OK h, OK t => Some (mkArena m (from_le h) (from_le t) cap slots slot_len po)
  | _, _, _ => None
  end.
Definition data_arena (st : shm) (d : Direction) : option Arena :=
  arena_view st (dir_data d) (slots (dir_shape d)) (chunk_bytes (dir_shape d)) (dir_capacity d).
Definition release_arena (st : shm) (d : Direction) : option Arena :=
  arena_view st (dir_releases d) 0 0 (dir_capacity d).

(** ** Reports *)

Record TransferReport := mkReport {
  rep_total_bytes : Z; rep_chunks : Z; rep_checksum : Z; rep_resident_bytes : Z; memory_locked : bool
}.

(** [finish_or_cancel]: the report, or the error after cancelling the liveness
    socket (the boolean). *)
Definition finish_or_cancel (d : Direction) (r : io (Z * Z * Z)) : io TransferReport * bool :=
  match r with
  | Ok (sum, total, n) =>
      (Ok (mkReport total n sum (resident_bytes (dir_shape d)) (data_locked d && releases_locked d)), false)
  | Err e => (Err e, true)
  end.

(** ** Sessions *)

Record Duplex := mkDuplex { outbound : Direction; inbound : Direction }.

(** [ipc::create] up to the acknowledgement: the directions and the bytes sent. *)
Definition create_begin (mlock : bool) (t1 t2 t3 t4 : list Z) (s : StreamShape) (tid : Z) (o : EndpointOptions)
    (p : PayloadContract) : M (Duplex * list Z) :=
  reverse_id ←! lift (match checked_add tid 1 with
                       | Some r => Ok r
                       | None => Err (InvalidInput "duplex transfer id overflows")
                       end);
  '(out, ptw) ←! Direction_create mlock t1 t2 (mkConfig s tid ParentToWorker o) ProducerRole;
  owning [dir_data out; dir_releases out] (
    '(inb, wtp) ←! Direction_create mlock t3 t4 (mkConfig s reverse_id WorkerToParent o) ConsumerRole;
    owning [dir_data inb; dir_releases inb] (
      bytes ←! lift (write_frame (mkDuplexHandle ptw wtp p));
      ret (mkDuplex out inb, bytes))).

(** The rest of [ipc::create], with the bytes the peer answered. *)
Definition create_finish (d : Duplex) (answer : list Z) : M Duplex :=
  owning [dir_data (outbound d); dir_releases (outbound d); dir_data (inbound d); dir_releases (inbound d)] (
    _ ←! lift (read_acknowledgement answer);
    ret d).

(** The checks of [attach_peer] between parsing and mapping. *)
Definition attach_checks (h : DuplexHandle) (expected : PayloadContract) : io unit :=
  _ ←? payload_validate (payload h);
  if negb (bool_decide (payload h = expected)) then Err (InvalidInput "IPC payload contract mismatch") else
  if negb (bool_decide (shape (parent_to_worker h) = shape (worker_to_parent h)))
     || negb (bool_decide (flow (parent_to_worker h) = ParentToWorker))
     || negb (bool_decide (flow (worker_to_parent h) = WorkerToParent))
     || negb (bool_decide (checked_add (dtransfer_id (parent_to_worker h)) 1 = Some (dtransfer_id (worker_to_parent h))))
  then Err (InvalidInput "IPC setup does not describe one paired transport") else
  if bool_decide (pkind (payload h) = Pod)
     && negb (total_bytes (shape (parent_to_worker h)) mod element_size (payload h) =? 0)
  then Err (InvalidInput "IPC POD shape must contain a whole number of values")
  else Ok tt.

Definition attach_body (mlock : bool) (o : EndpointOptions) (expected : PayloadContract) (input : list Z) : M Duplex :=
  '(h, _) ←! lift (read_frame input);
  _ ←! lift (attach_checks h expected);
  inb ←! Direction_open mlock (parent_to_worker h) o ConsumerRole;
  out ←! Direction_open mlock (worker_to_parent h) o ProducerRole;
  ret (mkDuplex out inb).

(** [attach_peer]: its result and the acknowledgement it sends. *)
Definition attach_peer (mlock : bool) (o : EndpointOptions) (expected : PayloadContract) (input : list Z) (st : shm)
    : outcome (io Duplex * list Z * shm) :=
  '(r, st') ← attach_body mlock o expected input st;
  OK (r, match r with Ok _ => [ACCEPTED] | Err _ => [REJECTED] end, st').

(** ** Running the monad *)

Lemma bindM_ok {A B} (m : M A) (k : A -> M B) st b st' :
  bindM m k st = OK (Ok b, st') <-> exists a st1, m st = OK (Ok a, st1) /\ k a st1 = OK (Ok b, st').
Proof.
  unfold bindM. destruct (m st) as [[[a|e] st1]| |]; cbn [mbind outcome_bind]; split; try done.
  - intros H. by exists a, st1.
  - by intros (? & ? & [= -> ->] & ?).
  - by intros (? & ? & ? & _).
  - by intros (? & ? & ? & _).
  - by intros (? & ? & ? & _).
Qed.

Lemma bindM_run {A B} (m : M A) (k : A -> M B) st a st1 : m st = OK (Ok a, st1) -> bindM m k st = k a st1.
Proof. intros H. unfold bindM. by rewrite H. Qed.

Lemma bindM_fail {A B} (m : M A) (k : A -> M B) st e st1 : m st = OK (Err e, st1) -> bindM m k st = OK (Err e, st1).
Proof. intros H. unfold bindM. by rewrite H. Qed.

Lemma owning_ok {A} ns (m : M A) st a st' : owning ns m st = OK (Ok a, st') <-> m st = OK (Ok a, st').
Proof.
  unfold owning. destruct (m st) as [[[x|e] st1]| |]; cbn [mbind outcome_bind]; split; try done.
Qed.

Lemma lift_ok {A} (r : io A) st a st' : lift r st = OK (Ok a, st') <-> r = Ok a /\ st' = st.
Proof. unfold lift. destruct r; split; try done; [by intros [= -> ->]|by intros [[= ->] ->]|by intros [? _]]. Qed.

Lemma lift_run {A} (r : io A) st a : r = Ok a -> lift r st = OK (Ok a, st).
Proof. by intros ->. Qed.

(** Takes apart a successful run. *)
Ltac run_inv :=
  repeat match goal with
  | H : bindM _ _ _ = OK (Ok _, _) |- _ => apply bindM_ok in H as (? & ? & ? & H)
  | H : owning _ _ _ = OK (Ok _, _) |- _ => apply owning_ok in H
  | H : lift _ _ = OK (Ok _, _) |- _ => apply lift_ok in H as [H ->]
  | H : ret _ _ = OK (Ok _, _) |- _ => injection H as ? ?
  end.

(** ** Regions with an intact header *)

Record region_state (m : list Z) (slots slot_len cap tid dir len po claims : Z) : Prop := {
  rs_dims : dims_ok slots slot_len cap tid dir;
  rs_layout : arena_layout slots slot_len cap = Ok (len, po);
  rs_po : 0 <= po < USIZE;
  rs_len : Z.of_nat (length m) = len;
  rs_header : header_holds m slots slot_len cap tid dir po;
  rs_claims : peek m ROLE_CLAIMS_OFFSET 4 = OK (to_le 4 claims);
  rs_range : 0 <= claims <= ROLE_CLAIM_MASK
}.

Lemma from_parts_ok nm len h : RegionHandle_from_parts nm len = Ok h -> h = mkRegion nm len.
Proof. unfold RegionHandle_from_parts. zbool; try done; by intros [= <-]. Qed.

Lemma SharedRegion_create_ok token len st h st' :
  SharedRegion_create token len st = OK (Ok h, st') ->
  st' = <[name h := replicate (Z.to_nat len) 0]> st /\ st !! name h = None /\ has_nul (name h) = false /\
  h = mkRegion (region_name (hex token)) len /\ RegionHandle_from_parts (name h) len = Ok h.
Proof.
  unfold SharedRegion_create. destruct (_ || _); [done|]. intros H. run_inv. unfold backend_create in H0.
  destruct (has_nul _) eqn:Hnul; [done|]. destruct (st !! _) eqn:Hst; [done|]. injection H0 as <- <-.
  pose proof (from_parts_ok _ _ _ H) as ->. simpl. splits.
Qed.

Lemma liftO_ok {A} (o : outcome (io A)) st a st' : liftO o st = OK (Ok a, st') <-> o = OK (Ok a) /\ st' = st.
Proof.
  unfold liftO. destruct o as [[x|e]| |]; cbn [mbind outcome_bind]; split; try done;
    [by intros [= -> ->]|by intros [[= ->] ->]|by intros [? _]..].
Qed.

Lemma arena_create_in_ok mlock token slots slot_len cap tid dir lock st h l st' :
  0 <= slots < U32 -> 0 <= slot_len < U32 -> 0 <= tid < USIZE -> 0 <= dir < U32 ->
  arena_create_in mlock token slots slot_len cap tid dir lock st = OK (Ok (h, l), st') ->
  exists m len po, st' = <[name h := m]> st /\ st !! name h = None /\ has_nul (name h) = false /\
    region_state m slots slot_len cap tid dir len po 0 /\ h = mkRegion (region_name (hex token)) len /\
    RegionHandle_from_parts (name h) len = Ok h.
Proof.
  intros Hsl Hsn Htid Hdir H. unfold arena_create_in in H.
  apply bindM_ok in H as ([len po] & s0 & H1 & H). apply lift_ok in H1 as [Hlay ->].
  assert (dims_ok slots slot_len cap tid dir) as Hd.
  { destruct (arena_layout_spec slots slot_len cap len po ltac:(lia) ltac:(lia) Hlay) as [(k & -> & Hk) _ _ _].
    pose proof (pow2_pos k ltac:(lia)). pose proof (Z.pow_lt_mono_r 2 k 32 ltac:(lia) ltac:(lia) ltac:(lia)).
    change (2 ^ 32) with U32 in *. unfold dims_ok. lia. }
  apply bindM_ok in H as (h' & s1 & H1 & H). apply owning_ok in H.
  apply SharedRegion_create_ok in H1 as (-> & Hst & Hnul & Hh & Hfp).
  apply bindM_ok in H as (m0 & s2 & Hm & H). unfold mapped in Hm. rewrite lookup_insert_eq in Hm. injection Hm as <- <-.
  apply bindM_ok in H as (a & s3 & Ha & H). apply liftO_ok in Ha as [Ha ->].
  apply bindM_ok in H as (lk & s4 & Hlk & H). apply lift_ok in Hlk as [_ ->].
  apply bindM_ok in H as (u & s5 & Hs & H). unfold store_region in Hs. injection Hs as <- <-.
  injection H as -> -> <-.
  destruct (Arena_create_spec (fun n => if n =? len then replicate (Z.to_nat len) 0 else replicate (Z.to_nat n) 0)
    slots slot_len cap tid dir len po Hd) as (m & E & Hlm & Hpo & Hread); [|done|].
  { intros n Hn. destruct (Z.eqb_spec n len) as [->|]; rewrite length_replicate; lia. }
  assert (Arena_create (fun _ => replicate (Z.to_nat len) 0) slots slot_len cap tid dir = OK (Ok (mkArena m 0 0 cap slots slot_len po))) as E'.
  { rewrite <- E. unfold Arena_create. by rewrite Hlay, Z.eqb_refl. }
  rewrite E' in Ha. injection Ha as <-. exists m, len, po. cbn [mem]. rewrite insert_insert_eq. splits. split; try done.
  - intros x Hx _. by apply Hread.
  - exact (Hread (ROLE_CLAIMS_OFFSET, to_le 4 0) ltac:(unfold header_fields; repeat first [apply list_elem_of_here | apply list_elem_of_further])).
Qed.

(** Mapping an intact region changes nothing. *)
Lemma arena_open_in_ok mlock h m slots slot_len cap tid dir len po claims lock lk st :
  region_state m slots slot_len cap tid dir len po claims -> st !! name h = Some m -> rlen h = len ->
  has_nul (name h) = false -> lock_region mlock lock = Ok lk ->
  arena_open_in mlock h slots slot_len cap tid dir lock st = OK (Ok lk, st).
Proof.
  intros [Hd Hlay Hpo Hlen Hh _ _] Hst Hl Hn Hlk. unfold arena_open_in, SharedRegion_open, backend_open, mapped.
  unfold bindM at 1. rewrite Hn, Hst, Hlen, Hl, Z.eqb_refl. cbn [mbind outcome_bind].
  unfold bindM at 1. rewrite Hst. cbn [mbind outcome_bind]. unfold bindM, liftO.
  rewrite (Arena_open_reads m slots slot_len cap tid dir po) by done. rewrite Hlay, !Z.eqb_refl.
  cbn [andb mbind outcome_bind]. by rewrite Hlk.
Qed.

Lemma claim_word_range w r w' : claim_direction_role w r = Ok w' -> 0 <= w <= ROLE_CLAIM_MASK -> 0 <= w' <= ROLE_CLAIM_MASK.
Proof.
  intros Hc Hw. change ROLE_CLAIM_MASK with 3 in *. unfold claim_direction_role in Hc.
  assert (w = 0 \/ w = 1 \/ w = 2 \/ w = 3) as [-> | [-> | [-> | ->]]] by lia; destruct r; simpl in Hc; try done;
    injection Hc as <-; vm_compute; split; discriminate.
Qed.

Lemma field_apart slots slot_len cap tid dir po x :
  x ∈ header_fields slots slot_len cap tid dir po -> x.1 <> ROLE_CLAIMS_OFFSET ->
  0 <= x.1 /\ (x.1 + Z.of_nat (length x.2) <= ROLE_CLAIMS_OFFSET \/ ROLE_CLAIMS_OFFSET + Z.of_nat 4 <= x.1).
Proof.
  intros Hx Hne. unfold header_fields in Hx.
  repeat (apply elem_of_cons in Hx as [->|Hx];
    [cbn [fst snd] in *; rewrite length_to_le; unfold ROLE_CLAIMS_OFFSET, HEAD_OFFSET, TAIL_OFFSET, CACHE_LINE in *; lia|]).
  by apply not_elem_of_nil in Hx.
Qed.

Lemma claim_role_run nm r m slots slot_len cap tid dir len po w st :
  region_state m slots slot_len cap tid dir len po w -> st !! nm = Some m ->
  match claim_direction_role w r with
  | Err e => claim_role nm r st = OK (Err e, st)
  | Ok w' => exists m', claim_role nm r st = OK (Ok tt, <[nm := m']> st) /\
      region_state m' slots slot_len cap tid dir len po w'
  end.
Proof.
  intros Hrs Hst. pose proof Hrs as [Hd Hlay Hpo Hlen Hh Hc Hr].
  assert (448 <= len) as Hl.
  { destruct (arena_layout_spec slots slot_len cap len po ltac:(apply Hd) (proj1 (proj1 (proj2 Hd))) Hlay) as [(k & -> & Hk) Hde _ [? _]].
    change HEADER_LEN with 448 in Hde. unfold FRAME_LEN in Hde. pose proof (pow2_pos k ltac:(lia)).
    destruct Hd as (? & ? & _). nia. }
  assert (from_le (to_le 4 w) = w) as Hw by (apply from_le_to_le; change (256 ^ Z.of_nat 4) with U32; change ROLE_CLAIM_MASK with 3 in Hr; lia).
  unfold claim_role. rewrite (bindM_run _ _ st m st) by (unfold mapped; by rewrite Hst).
  rewrite (bindM_run _ _ st (to_le 4 w) st) by (unfold liftO; by rewrite Hc). rewrite Hw.
  destruct (claim_direction_role w r) as [w'|e] eqn:Hcl; [|by apply bindM_fail].
  rewrite (bindM_run _ _ st w' st) by done.
  destruct (poke m ROLE_CLAIMS_OFFSET (to_le 4 w')) as [m'| |] eqn:Hp;
    [|rewrite poke_in in Hp by (rewrite ?length_to_le; unfold ROLE_CLAIMS_OFFSET; lia); done..].
  exists m'. rewrite (bindM_run _ _ st m' st) by (by unfold liftO). split; [done|].
  pose proof (poke_length _ _ _ _ Hp) as Hlm. split; try done.
  - by rewrite Hlm.
  - intros x Hx Hne. rewrite <- (Hh x Hx Hne). destruct (field_apart _ _ _ _ _ _ x Hx Hne).
    eapply peek_poke_other; [exact Hp|lia|]. rewrite length_to_le. lia.
  - pose proof (peek_poke_same _ _ _ _ Hp) as Hs. rewrite length_to_le in Hs. exact Hs.
  - by eapply claim_word_range.
Qed.

(** ** Directions *)

Lemma hex_ascii token : Forall is_byte token -> Forall (fun b => 0 < b <= 0x7F) (hex token).
Proof.
  intros Ht. unfold hex. apply Forall_bind. eapply Forall_impl; [exact Ht|]. intros b Hb. unfold is_byte in Hb.
  assert (0 <= Z.shiftr b 4 < 16) as H1.
  { rewrite Z.shiftr_div_pow2 by lia. change (2 ^ 4) with 16. split; [apply Z.div_pos; lia|apply Z.div_lt_upper_bound; lia]. }
  assert (0 <= Z.land b 0x0f < 16) as H2.
  { change 0x0f with (2 ^ 4 - 1). rewrite land_mask by lia. apply Z.mod_pos_bound. lia. }
  assert (forall n, 0 <= n < 16 -> 0 < hex_digit n <= 0x7F) as Hd by (intros n Hn; unfold hex_digit; zbool; lia).
  repeat constructor; by apply Hd.
Qed.

Lemma ascii_utf8 nm : Forall (fun b => 0 < b <= 0x7F) nm -> utf8_valid nm = true /\ has_nul nm = false /\ Forall is_byte nm.
Proof.
  induction 1 as [|b nm Hb Hn (IH1 & IH2 & IH3)]; [done|]. splits.
  - cbn [utf8_valid]. assert (within 0 0x7F b = true) as -> by (unfold within; zbool; (done || lia)). done.
  - unfold has_nul in *. simpl. zbool; [lia|done].
  - constructor; [unfold is_byte; lia|done].
Qed.

Lemma region_name_ascii token : Forall is_byte token -> Forall (fun b => 0 < b <= 0x7F) (region_name (hex token)).
Proof. intros Ht. unfold region_name. apply Forall_app. split; [repeat (constructor; [lia|]); constructor|by apply hex_ascii]. Qed.

Lemma created_region_ok token len h :
  Forall is_byte token -> 0 <= len -> h = mkRegion (region_name (hex token)) len ->
  RegionHandle_from_parts (name h) len = Ok h -> region_ok h.
Proof.
  intros Ht Hl -> Hf. destruct (ascii_utf8 _ (region_name_ascii token Ht)) as (H1 & _ & H3). cbn [name] in Hf.
  unfold RegionHandle_from_parts in Hf. unfold region_ok, MAX_REGION_NAME. cbn [name rlen].
  zbool_in Hf; try done. splits.
Qed.

(** The regions and the handle of a direction whose role [r] is claimed. *)
Record direction_regions (st : shm) (h : DirectionHandle) (d : Direction) (w : Z) : Prop := {
  dr_regions : exists md mr ld pd lr pr,
    st !! name (data_region h) = Some md /\ st !! name (release_region h) = Some mr /\
    region_state md (slots (shape h)) (chunk_bytes (shape h)) (dir_capacity d) (dtransfer_id h)
      (StreamFlow_as_u8 (flow h)) ld pd w /\
    region_state mr 0 0 (dir_capacity d) (dtransfer_id h) (Z.lor (StreamFlow_as_u8 (flow h)) RELEASE_ARENA_FLAG) lr pr 0 /\
    rlen (data_region h) = ld /\ rlen (release_region h) = lr;
  dr_capacity : descriptor_capacity_for (slots (shape h)) = Ok (dir_capacity d);
  dr_names : name (data_region h) <> name (release_region h) /\
    has_nul (name (data_region h)) = false /\ has_nul (name (release_region h)) = false;
  dr_handle : direction_ok h;
  dr_direction : dir_data d = name (data_region h) /\ dir_releases d = name (release_region h) /\
    dir_shape d = shape h /\ dir_transfer_id d = dtransfer_id h /\ dir_flow d = flow h
}.

Lemma flow_range f : 0 <= StreamFlow_as_u8 f < 256 /\ 0 <= Z.lor (StreamFlow_as_u8 f) RELEASE_ARENA_FLAG < U32.
Proof. destruct f; vm_compute; repeat split; discriminate. Qed.

Lemma Direction_create_ok mlock t1 t2 c role st d h st' :
  0 <= total_bytes (cfg_shape c) < USIZE -> 0 <= chunk_bytes (cfg_shape c) -> 0 <= slots (cfg_shape c) ->
  0 <= cfg_transfer_id c < USIZE -> Forall is_byte t1 -> Forall is_byte t2 ->
  Direction_create mlock t1 t2 c role st = OK (Ok (d, h), st') ->
  direction_regions st' h d (role_claim role) /\
  (exists md mr, st' = <[dir_data d := md]> (<[dir_releases d := mr]> st)) /\
  st !! dir_data d = None /\ st !! dir_releases d = None /\
  shape h = cfg_shape c /\ dtransfer_id h = cfg_transfer_id c /\ flow h = cfg_flow c.
Proof.
  intros Ht Hc Hs Htid Hb1 Hb2 H. unfold Direction_create in H.
  apply bindM_ok in H as ([] & s0 & H1 & H). apply lift_ok in H1 as [Hv ->].
  apply bindM_ok in H as (cap & s0 & H1 & H). apply lift_ok in H1 as [Hcap ->].
  unfold config_validate in Hv. destruct (arena.validate (cfg_shape c)) as [[]|] eqn:Hvs; [|done]. simpl in Hv.
  destruct (Z.eqb_spec (cfg_transfer_id c) 0) as [|Hne]; [done|].
  pose proof (validate_ok _ Ht Hc Hs Hvs) as [_ Hck Hsl _ _]. destruct (flow_range (cfg_flow c)) as [Hf1 Hf2].
  apply bindM_ok in H as ([dh dl] & s1 & H1 & H). apply owning_ok in H.
  apply arena_create_in_ok in H1 as (md & ld & pd & -> & Hst1 & Hn1 & Hrs1 & Hdh & Hfd); [|lia..].
  apply bindM_ok in H as ([rh rl] & s2 & H2 & H). apply owning_ok in H.
  apply arena_create_in_ok in H2 as (mr & lr & pr & -> & Hst2 & Hn2 & Hrs2 & Hrh & Hfr); [|lia..].
  assert (name dh <> name rh) as Hdist by (intros E; by rewrite E, lookup_insert_eq in Hst2).
  rewrite lookup_insert_ne in Hst2 by done.
  assert (claim_direction_role 0 role = Ok (role_claim role)) as Hcl by (by destruct role).
  assert (<[name rh := mr]> (<[name dh := md]> st) !! name dh = Some md) as Hlk
    by (by rewrite lookup_insert_ne, lookup_insert_eq by done).
  pose proof (claim_role_run (name dh) role md _ _ _ _ _ _ _ _ _ Hrs1 Hlk) as Hrun. rewrite Hcl in Hrun.
  destruct Hrun as (md' & Hrun & Hrs1'). rewrite (bindM_run _ _ _ _ _ Hrun) in H.
  apply bindM_ok in H as (h' & s3 & H3 & H). apply lift_ok in H3 as [Hh ->]. injection H as <- <- <-.
  unfold DirectionHandle_from_parts in Hh. rewrite Hvs in Hh. simpl in Hh.
  destruct (Z.eqb_spec (cfg_transfer_id c) 0); [done|]. injection Hh as <-. simpl.
  pose proof (rs_len _ _ _ _ _ _ _ _ _ Hrs1). pose proof (rs_len _ _ _ _ _ _ _ _ _ Hrs2).
  splits; cycle 1.
  { exists md', mr. by rewrite (insert_insert_ne _ (name rh)), insert_insert_eq by done. }
  split; cbn [data_region release_region shape dtransfer_id flow dir_capacity dir_data dir_releases dir_shape dir_transfer_id dir_flow]; try done.
  - exists md', mr, ld, pd, lr, pr. rewrite lookup_insert_eq, lookup_insert_ne, lookup_insert_eq by done.
    rewrite Hdh, Hrh. splits.
  - unfold direction_ok. simpl. splits.
    + eapply created_region_ok; [exact Hb1| |exact Hdh|exact Hfd]. lia.
    + eapply created_region_ok; [exact Hb2| |exact Hrh|exact Hfr]. lia.
Qed.

Lemma Direction_open_run mlock h d o role w lk st :
  direction_regions st h d w -> options_validate o = Ok tt -> lock_region mlock (lock_memory o) = Ok lk ->
  match claim_direction_role w role with
  | Err e => Direction_open mlock h o role st = OK (Err e, st)
  | Ok w' => exists d' m', Direction_open mlock h o role st = OK (Ok d', <[name (data_region h) := m']> st) /\
      direction_regions (<[name (data_region h) := m']> st) h d' w' /\ dir_capacity d' = dir_capacity d
  end.
Proof.
  intros [(md & mr & ld & pd & lr & pr & Hmd & Hmr & Hrd & Hrr & Hld & Hlr) Hcap (Hnm & Hn1 & Hn2) Hok Hdir] Ho Hlk.
  pose proof Hok as (_ & _ & Hv & _).
  assert (Direction_open mlock h o role st = bindM (claim_role (name (data_region h)) role)
    (fun _ => ret (mkDirection (name (data_region h)) (name (release_region h)) (dir_capacity d) (shape h) (dtransfer_id h)
       (flow h) o lk lk)) st) as E.
  { unfold Direction_open. rewrite (bindM_run _ _ st tt st) by (by apply lift_run).
    rewrite (bindM_run _ _ st tt st) by (by apply lift_run). rewrite (bindM_run _ _ st _ st) by (by apply lift_run).
    rewrite (bindM_run _ _ st lk st) by (by eapply arena_open_in_ok).
    by rewrite (bindM_run _ _ st lk st) by (by eapply arena_open_in_ok). }
  pose proof (claim_role_run (name (data_region h)) role md _ _ _ _ _ _ _ _ _ Hrd Hmd) as Hrun.
  destruct (claim_direction_role w role) as [w'|e]; [|rewrite E; by apply bindM_fail].
  destruct Hrun as (m' & Hrun & Hrs'). eexists. exists m'. rewrite E, (bindM_run _ _ _ _ _ Hrun). split; [done|].
  split; [|done]. split; try done.
  exists m', mr, ld, pd, lr, pr. cbn [dir_capacity]. rewrite lookup_insert_eq, lookup_insert_ne by done. splits.
Qed.

Lemma direction_regions_frame st st' h d w :
  direction_regions st h d w -> st' !! name (data_region h) = st !! name (data_region h) ->
  st' !! name (release_region h) = st !! name (release_region h) -> direction_regions st' h d w.
Proof. intros [H1 H2 H3 H4 H5] E1 E2. split; try done. by rewrite E1, E2. Qed.

Lemma direction_regions_peer st h d d' w :
  direction_regions st h d w -> dir_capacity d' = dir_capacity d ->
  dir_data d' = name (data_region h) /\ dir_releases d' = name (release_region h) /\
  dir_shape d' = shape h /\ dir_transfer_id d' = dtransfer_id h /\ dir_flow d' = flow h -> direction_regions st h d' w.
Proof. intros [H1 H2 H3 H4 H5] E Hd. split; try done; by rewrite E. Qed.

Lemma capacity_room s cap : 0 <= s -> descriptor_capacity_for s = Ok cap -> s + 2 <= cap.
Proof.
  intros Hs. unfold descriptor_capacity_for, checked_mul, checked_add. zbool; cbn [mbind option_bind]; try done.
  zbool; cbn [mbind option_bind]; try done. destruct (checked_next_power_of_two _) as [c|] eqn:E; [|done]. intros [= <-].
  apply next_power_of_two_spec in E as (k & _ & _ & ?). lia.
Qed.

(** A direction whose regions are as created is ready for a transfer. *)
Lemma view_fresh st nm m sh slots slot_len cap tid dir len po w :
  region_state m slots slot_len cap tid dir len po w -> st !! nm = Some m -> arena.slots sh + 2 <= cap ->
  exists a, arena_view st nm slots slot_len cap = Some a /\ transfer.fresh sh a /\ a_slots a = slots /\
    arena.slot_len a = slot_len.
Proof.
  intros [Hd Hlay Hpo Hlen Hh Hc Hr] Hst Hroom. unfold arena_view. rewrite Hst. cbn [mbind option_bind]. rewrite Hlay.
  assert (forall off, off ∈ [HEAD_OFFSET; TAIL_OFFSET] -> peek m off 8 = OK (to_le 8 0)) as Hp.
  { intros off Hoff. assert ((off, to_le 8 0) ∈ header_fields slots slot_len cap tid dir po) as Hin.
    { unfold header_fields. apply elem_of_cons in Hoff as [-> | Hoff%list_elem_of_singleton]; [|subst];
        repeat first [apply list_elem_of_here | apply list_elem_of_further]. }
    refine (Hh (off, to_le 8 0) Hin _). simpl. intros ->. vm_compute in Hoff. by apply elem_of_cons in Hoff as [?|?%list_elem_of_singleton]. }
  rewrite !Hp by set_solver. eexists. split; [done|]. destruct Hd as (H1 & H2 & H3 & _). split; [|done].
  split; simpl; try done; [|lia]. split; simpl; [|lia]. rewrite Hlen. apply arena_layout_spec; lia || done.
Qed.

Lemma direction_ready st h d w source :
  direction_regions st h d w -> total_bytes (shape h) <= Z.of_nat (length source) ->
  exists a r, data_arena st d = Some a /\ release_arena st d = Some r /\
    transfer.ready (shape h) (dtransfer_id h) (frame_flags (flow h)) source a r.
Proof.
  intros [(md & mr & ld & pd & lr & pr & Hmd & Hmr & Hrd & Hrr & Hld & Hlr) Hcap Hnm Hok (E1 & E2 & E3 & _)] Hsrc.
  destruct Hok as (_ & _ & Hv & Ht & Hc & Hsl & Htid).
  pose proof (capacity_room _ _ (proj1 Hsl) Hcap) as Hroom.
  destruct (view_fresh st _ md (shape h) _ _ _ _ _ _ _ _ Hrd Hmd Hroom) as (a & Ha & Hfa & Ha1 & Ha2).
  destruct (view_fresh st _ mr (shape h) _ _ _ _ _ _ _ _ Hrr Hmr Hroom) as (r & Hr & Hfr & _).
  exists a, r. unfold data_arena, release_arena. rewrite E1, E2, E3. splits. split; try done.
  - apply validate_ok; lia || done.
  - lia.
  - unfold is_byte. destruct (flow h); vm_compute; split; discriminate || done.
Qed.

(** ** Sessions *)

Lemma create_begin_ok mlock t1 t2 t3 t4 s tid o p st d bytes st' :
  0 <= total_bytes s < USIZE -> 0 <= chunk_bytes s -> 0 <= slots s -> 0 <= tid < USIZE ->
  Forall is_byte t1 -> Forall is_byte t2 -> Forall is_byte t3 -> Forall is_byte t4 ->
  create_begin mlock t1 t2 t3 t4 s tid o p st = OK (Ok (d, bytes), st') ->
  exists ptw wtp, write_frame (mkDuplexHandle ptw wtp p) = Ok bytes /\
    direction_regions st' ptw (outbound d) PRODUCER_CLAIM /\ direction_regions st' wtp (inbound d) CONSUMER_CLAIM /\
    shape ptw = s /\ dtransfer_id ptw = tid /\ flow ptw = ParentToWorker /\
    shape wtp = s /\ dtransfer_id wtp = tid + 1 /\ flow wtp = WorkerToParent /\ tid + 1 < USIZE /\
    [name (data_region ptw); name (release_region ptw)] ## [name (data_region wtp); name (release_region wtp)] /\
    unlink [dir_data (outbound d); dir_releases (outbound d); dir_data (inbound d); dir_releases (inbound d)] st' = st.
Proof.
  intros Ht Hc Hs Htid Hb1 Hb2 Hb3 Hb4 H. unfold create_begin in H.
  apply bindM_ok in H as (rid & s0 & H1 & H). apply lift_ok in H1 as [Hrid ->]. unfold checked_add in Hrid.
  destruct (Z.ltb_spec (tid + 1) USIZE); [|done]. injection Hrid as <-.
  apply bindM_ok in H as ([out ptw] & s1 & H1 & H). apply owning_ok in H.
  apply bindM_ok in H as ([inb wtp] & s2 & H2 & H). apply owning_ok in H.
  apply bindM_ok in H as (b & s3 & H3 & H). apply lift_ok in H3 as [Hw ->]. injection H as <- <- <-.
  apply Direction_create_ok in H1 as (Hd1 & (md & mr & ->) & Hm1 & Hm2 & S1 & T1 & F1); try done; simpl in *; try lia.
  apply Direction_create_ok in H2 as (Hd2 & (md2 & mr2 & ->) & Hn1 & Hn2 & S2 & T2 & F2); try done; simpl in *; try lia.
  exists ptw, wtp. pose proof (dr_direction _ _ _ _ Hd1) as (E1 & E2 & _). pose proof (dr_direction _ _ _ _ Hd2) as (E3 & E4 & _).
  apply lookup_insert_None in Hn1 as [Hn1 N1]. apply lookup_insert_None in Hn1 as [Hn1 N2].
  apply lookup_insert_None in Hn2 as [Hn2 N3]. apply lookup_insert_None in Hn2 as [Hn2 N4].
  rewrite E1, E2, E3, E4 in *. splits.
  - eapply direction_regions_frame; [exact Hd1| |]; rewrite !lookup_insert_ne by done; by rewrite ?lookup_insert_eq.
  - set_solver.
  - apply map_eq. intros k. unfold unlink. cbn [foldr]. destruct (dr_names _ _ _ _ Hd1) as [M1 _]. destruct (dr_names _ _ _ _ Hd2) as [M2 _].
    destruct (decide (k = name (data_region ptw))) as [->|K1]; [rewrite ?lookup_delete_ne, ?lookup_delete_eq by done; by rewrite Hm1|].
    rewrite lookup_delete_ne by done. destruct (decide (k = name (release_region ptw))) as [->|K2]; [rewrite ?lookup_delete_ne, ?lookup_delete_eq by done; by rewrite Hm2|].
    rewrite lookup_delete_ne by done. destruct (decide (k = name (data_region wtp))) as [->|K3]; [rewrite ?lookup_delete_ne, ?lookup_delete_eq by done; by rewrite Hn1|].
    rewrite lookup_delete_ne by done. destruct (decide (k = name (release_region wtp))) as [->|K4]; [rewrite ?lookup_delete_ne, ?lookup_delete_eq by done; by rewrite Hn2|].
    by rewrite lookup_delete_ne, !lookup_insert_ne by done.
Qed.

Lemma attach_checks_ok h p :
  payload h = p -> payload_validate p = Ok tt -> shape (parent_to_worker h) = shape (worker_to_parent h) ->
  flow (parent_to_worker h) = ParentToWorker -> flow (worker_to_parent h) = WorkerToParent ->
  dtransfer_id (worker_to_parent h) = dtransfer_id (parent_to_worker h) + 1 -> dtransfer_id (parent_to_worker h) + 1 < USIZE ->
  (pkind p = Pod -> total_bytes (shape (parent_to_worker h)) mod element_size p = 0) -> attach_checks h p = Ok tt.
Proof.
  intros E Hv Hsh Hf1 Hf2 Hid Hov Hpod. unfold attach_checks, checked_add. rewrite E, Hv. cbn [result_bind].
  destruct (Z.ltb_spec (dtransfer_id (parent_to_worker h) + 1) USIZE); [|lia].
  rewrite !bool_decide_eq_true_2 by (done || congruence). cbn [negb orb].
  destruct (bool_decide_reflect (pkind p = Pod)); [|done]. by rewrite Hpod.
Qed.

Lemma attach_peer_ok mlock o p bytes st w st' :
  attach_body mlock o p bytes st = OK (Ok w, st') -> attach_peer mlock o p bytes st = OK (Ok w, [ACCEPTED], st').
Proof. intros H. unfold attach_peer. by rewrite H. Qed.

Lemma attach_peer_fail mlock o p bytes st e st' :
  attach_body mlock o p bytes st = OK (Err e, st') -> attach_peer mlock o p bytes st = OK (Err e, [REJECTED], st').
Proof. intros H. unfold attach_peer. by rewrite H. Qed.

(** Two endpoints of one direction see the same arenas. *)
Lemma same_arenas st h d d' w source :
  direction_regions st h d w -> total_bytes (shape h) <= Z.of_nat (length source) -> dir_capacity d = dir_capacity d' ->
  dir_data d' = name (data_region h) /\ dir_releases d' = name (release_region h) /\
  dir_shape d' = shape h /\ dir_transfer_id d' = dtransfer_id h /\ dir_flow d' = flow h ->
  exists a r, data_arena st d' = Some a /\ release_arena st d' = Some r /\ data_arena st d = Some a /\
    release_arena st d = Some r /\ transfer.ready (shape h) (dtransfer_id h) (frame_flags (flow h)) source a r.
Proof.
  intros Hd Hsrc Hcap Hd'. destruct (direction_ready st h d w source Hd Hsrc) as (a & r & Ha & Hr & Hready).
  pose proof (direction_regions_peer st h d d' w Hd ltac:(done) Hd') as Hp.
  destruct (direction_ready st h d' w source Hp Hsrc) as (a' & r' & Ha' & Hr' & _).
  exists a, r. pose proof (dr_direction _ _ _ _ Hd) as (E1 & E2 & E3 & _). destruct Hd' as (F1 & F2 & F3 & _).
  unfold data_arena, release_arena in *. rewrite F1, F2, F3, <- Hcap. rewrite E1, E2, E3 in *. splits.
Qed.

(** A session is one paired transport. When the creator's half has been
    sent, an attacher with valid options and the same payload contract accepts it:
    both ends then hold the same four regions with opposite roles, each direction
    satisfies what a transfer requires of its arenas, and the acknowledgement
    completes the creator. The regions admit no second attacher: another attempt
    with the same frame is rejected with [AlreadyExists] and changes nothing. *)
Lemma session_handshake (mlock : bool) (t1 t2 t3 t4 : list Z) (s : StreamShape) (tid : Z) (o o' : EndpointOptions)
    (p : PayloadContract) (st st1 : shm) (d : Duplex) (bytes source back : list Z) :
  0 <= total_bytes s < USIZE -> 0 <= chunk_bytes s -> 0 <= slots s -> 0 <= tid < USIZE ->
  Forall is_byte t1 -> Forall is_byte t2 -> Forall is_byte t3 -> Forall is_byte t4 ->
  payload_ok p -> (pkind p = Pod -> total_bytes s mod element_size p = 0) ->
  options_validate o' = Ok tt -> (exists lk, lock_region mlock (lock_memory o') = Ok lk) ->
  total_bytes s <= Z.of_nat (length source) -> total_bytes s <= Z.of_nat (length back) ->
  create_begin mlock t1 t2 t3 t4 s tid o p st = OK (Ok (d, bytes), st1) ->
  exists w st2, attach_peer mlock o' p bytes st1 = OK (Ok w, [ACCEPTED], st2) /\
    create_finish d [ACCEPTED] st2 = OK (Ok d, st2) /\
    (exists a r, data_arena st2 (outbound d) = Some a /\ release_arena st2 (outbound d) = Some r /\
       data_arena st2 (inbound w) = Some a /\ release_arena st2 (inbound w) = Some r /\
       transfer.ready s tid (frame_flags ParentToWorker) source a r) /\
    (exists a r, data_arena st2 (inbound d) = Some a /\ release_arena st2 (inbound d) = Some r /\
       data_arena st2 (outbound w) = Some a /\ release_arena st2 (outbound w) = Some r /\
       transfer.ready s (tid + 1) (frame_flags WorkerToParent) back a r) /\
    attach_peer mlock o' p bytes st2 = OK (Err AlreadyExists, [REJECTED], st2).
Proof.
  intros Ht Hc Hs Htid Hb1 Hb2 Hb3 Hb4 Hp Hpod Ho [lk Hlk] Hsrc Hback Hcb.
  destruct (create_begin_ok _ _ _ _ _ _ _ _ _ _ _ _ _ Ht Hc Hs Htid Hb1 Hb2 Hb3 Hb4 Hcb)
    as (ptw & wtp & Hw & Hd1 & Hd2 & S1 & T1 & F1 & S2 & T2 & F2 & Hov & Hdisj & _).
  assert (read_frame bytes = Ok (mkDuplexHandle ptw wtp p, [])) as Hread.
  { rewrite <- (app_nil_r bytes). apply codec_app; [|done]. split; [by apply Hd1|split; [by apply Hd2|done]]. }
  assert (attach_checks (mkDuplexHandle ptw wtp p) p = Ok tt) as Hck
    by (apply attach_checks_ok; simpl; rewrite ?S1, ?S2, ?T1, ?T2; try done; by destruct Hp).
  pose proof (Direction_open_run mlock ptw _ o' ConsumerRole _ lk _ Hd1 Ho Hlk) as Hopen1.
  change (claim_direction_role PRODUCER_CLAIM ConsumerRole) with (@Ok Z io_error ROLE_CLAIM_MASK) in Hopen1.
  destruct Hopen1 as (inb & m1 & Hopen1 & Hr1 & Hcap1).
  assert (direction_regions (<[name (data_region ptw) := m1]> st1) wtp (inbound d) CONSUMER_CLAIM) as Hd2'
    by (eapply direction_regions_frame; [exact Hd2| |]; rewrite lookup_insert_ne by set_solver; done).
  pose proof (Direction_open_run mlock wtp _ o' ProducerRole _ lk _ Hd2' Ho Hlk) as Hopen2.
  change (claim_direction_role CONSUMER_CLAIM ProducerRole) with (@Ok Z io_error ROLE_CLAIM_MASK) in Hopen2.
  destruct Hopen2 as (out & m2 & Hopen2 & Hr2 & Hcap2).
  set (st2 := <[name (data_region wtp) := m2]> (<[name (data_region ptw) := m1]> st1)) in *.
  assert (direction_regions st2 ptw inb ROLE_CLAIM_MASK) as Hr1'
    by (eapply direction_regions_frame; [exact Hr1| |]; unfold st2; rewrite lookup_insert_ne by set_solver; done).
  exists (mkDuplex out inb), st2. splits.
  - apply attach_peer_ok. unfold attach_body. rewrite (bindM_run _ _ _ _ _ (lift_run _ _ _ Hread)).
    rewrite (bindM_run _ _ _ _ _ (lift_run _ _ _ Hck)). cbn [parent_to_worker worker_to_parent].
    by rewrite (bindM_run _ _ _ _ _ Hopen1), (bindM_run _ _ _ _ _ Hopen2).
  - destruct (same_arenas st2 ptw inb (outbound d) _ source Hr1') as (a & r & H1 & H2 & H3 & H4 & H5);
      [by rewrite S1|done|apply Hd1|]. exists a, r. rewrite S1, T1, F1 in H5. splits.
  - destruct (same_arenas st2 wtp out (inbound d) _ back Hr2) as (a & r & H1 & H2 & H3 & H4 & H5);
      [by rewrite S2|done|apply Hd2|]. exists a, r. rewrite S2, T2, F2 in H5. splits.
  - apply attach_peer_fail. unfold attach_body. rewrite (bindM_run _ _ _ _ _ (lift_run _ _ _ Hread)).
    rewrite (bindM_run _ _ _ _ _ (lift_run _ _ _ Hck)). cbn [parent_to_worker worker_to_parent].
    by apply bindM_fail, (Direction_open_run mlock ptw _ o' ConsumerRole _ lk _ Hr1' Ho Hlk).
Qed.

(** A four-byte-slot session of ten-byte payloads, the names from four tokens. *)
Definition token (b : Z) : list Z := replicate 12 b.
Definition sample_begin : outcome (io (Duplex * list Z) * shm) :=
  create_begin true (token 1) (token 2) (token 3) (token 0xFF) sample_shape 41 default_options payload_bytes ∅.
Definition sample_pair : Duplex * list Z * shm :=
  match sample_begin with OK (Ok x, st) => (x, st) | _ => (mkDuplex (mkDirection [] [] 0 sample_shape 0 ParentToWorker default_options false false) (mkDirection [] [] 0 sample_shape 0 ParentToWorker default_options false false), [], ∅) end.

Lemma sample_begin_ok : sample_begin = OK (Ok (sample_pair.1.1, sample_pair.1.2), sample_pair.2).
Proof.
  assert (match sample_begin with OK (Ok _, _) => true | _ => false end = true) as H by (vm_compute; reflexivity).
  unfold sample_pair. destruct sample_begin as [[[[x y]|] st]| |]; done.
Qed.

Lemma token_bytes b : 0 <= b < 256 -> Forall is_byte (token b).
Proof. intros. by apply Forall_replicate. Qed.

(** C28: a payload mismatch is refused before anything is touched, and an
    unaccepted creator cleans up. An attacher that expects another payload contract
    answers REJECTED and leaves the store as it was, nothing mapped or claimed; and
    a creator that reads that answer, any other byte than ACCEPTED or a closed
    socket fails and unlinks every region it made. (A refusal for another reason,
    after the first direction was opened, leaves the attacher's claim in the region
    until the creator unlinks it; it is not covered by the first half.) *)
Theorem session_rejection (mlock : bool) (t1 t2 t3 t4 : list Z) (s : StreamShape) (tid : Z) (o o' : EndpointOptions)
    (p p' : PayloadContract) (st st1 : shm) (d : Duplex) (bytes answer : list Z) :
  0 <= total_bytes s < USIZE -> 0 <= chunk_bytes s -> 0 <= slots s -> 0 <= tid < USIZE ->
  Forall is_byte t1 -> Forall is_byte t2 -> Forall is_byte t3 -> Forall is_byte t4 ->
  payload_ok p -> p' <> p -> Forall is_byte answer ->
  create_begin mlock t1 t2 t3 t4 s tid o p st = OK (Ok (d, bytes), st1) ->
  attach_peer mlock o' p' bytes st1 = OK (Err (InvalidInput "IPC payload contract mismatch"), [REJECTED], st1) /\
  match answer with
  | b :: _ => if b =? ACCEPTED then create_finish d answer st1 = OK (Ok d, st1)
              else exists m, create_finish d answer st1 = OK (Err (InvalidData m), st)
  | [] => create_finish d answer st1 = OK (Err UnexpectedEof, st)
  end.
Proof.
  intros Ht Hc Hs Htid Hb1 Hb2 Hb3 Hb4 Hp Hne Hans Hcb.
  destruct (create_begin_ok _ _ _ _ _ _ _ _ _ _ _ _ _ Ht Hc Hs Htid Hb1 Hb2 Hb3 Hb4 Hcb)
    as (ptw & wtp & Hw & Hd1 & Hd2 & _ & _ & _ & _ & _ & _ & _ & _ & Hun).
  assert (read_frame bytes = Ok (mkDuplexHandle ptw wtp p, [])) as Hread.
  { rewrite <- (app_nil_r bytes). apply codec_app; [|done]. split; [by apply Hd1|split; [by apply Hd2|done]]. }
  split.
  - apply attach_peer_fail. unfold attach_body. rewrite (bindM_run _ _ _ _ _ (lift_run _ _ _ Hread)).
    apply bindM_fail. unfold lift, attach_checks. cbn [payload]. destruct Hp as [-> _]. cbn [result_bind].
    by rewrite bool_decide_eq_false_2 by congruence.
  - assert (forall e, read_acknowledgement answer = Err e -> create_finish d answer st1 = OK (Err e, st)) as Hfail.
    { intros e He. unfold create_finish, owning. rewrite (bindM_fail _ _ _ e st1) by (unfold lift; by rewrite He).
      cbn [mbind outcome_bind]. by rewrite Hun. }
    destruct answer as [|b rest]; [by apply Hfail|].
    assert (read_acknowledgement (b :: rest) = if b =? ACCEPTED then Ok (tt, rest) else
      if b =? REJECTED then Err (InvalidData "peer rejected IPC setup")
      else Err (InvalidData "invalid IPC setup acknowledgement")) as Hack.
    { unfold read_acknowledgement, read_u8, read_word. simpl. by replace (b + 256 * 0) with b by lia. }
    destruct (b =? ACCEPTED) eqn:E1.
    + unfold create_finish, owning. by rewrite (bindM_run _ _ _ (tt, rest) st1) by (unfold lift; by rewrite Hack).
    + destruct (b =? REJECTED); eexists; by apply Hfail.
Qed.

Lemma session_rejection_witness :
  attach_peer true default_options (payload_codec 7) sample_pair.1.2 sample_pair.2 =
    OK (Err (InvalidInput "IPC payload contract mismatch"), [REJECTED], sample_pair.2) /\
  exists m, create_finish sample_pair.1.1 [REJECTED] sample_pair.2 = OK (Err (InvalidData m), ∅).
Proof.
  apply (session_rejection true (token 1) (token 2) (token 3) (token 0xFF) sample_shape 41 default_options default_options
    payload_bytes (payload_codec 7) ∅ sample_pair.2 sample_pair.1.1 sample_pair.1.2 [REJECTED]);
    try (by apply token_bytes); try (simpl; lia).
  - split; [reflexivity|simpl; lia].
  - discriminate.
  - constructor; [unfold is_byte, REJECTED; lia|constructor].
  - exact sample_begin_ok.
Defined.

End session.
