(* ===== verification/IpcPod.v ===== *)
(** * Typed payloads: [src/src/ipc/destination.rs] and [PodDuplex] of [ipc/mod.rs]

    [PodDestination] is the writer a typed receive hands to the stream: an
    allocation whose initialised byte prefix stays private until every byte has
    been written. A value of a POD type is the list of its bytes. *)

From stdpp Require Import prelude strings.
From S2P Require Import Prelude IpcFrame.
Import frame.
Local Open Scope Z_scope.
Local Open Scope prescient_scope.

Module pod.

(** [prefix] is the initialised part of the allocation, of [written] bytes. *)
Record PodDestination := mkDestination { capacity : Z; bytes : Z; written : Z; prefix : list Z }.

(** [size] is [size_of::<P>()]. *)
Definition PodDestination_new (size bytes : Z) : io PodDestination :=
  if (size =? 0) || negb (is_multiple_of bytes size)
  then Err (InvalidInput "POD byte shape is not a whole number of non-zero-sized values")
  else Ok (mkDestination (bytes / size) bytes 0 []).

(** [Write::write]: the copy must stay inside the allocation. *)
Definition write (size : Z) (d : PodDestination) (input : list Z) : outcome (Z * PodDestination) :=
  room ← sub_usize (bytes d) (written d);
  let n := Z.min (Z.of_nat (length input)) room in
  if written d + n <=? capacity d * size
  then OK (n, mkDestination (capacity d) (bytes d) (written d + n) (prefix d ++ take (Z.to_nat n) input))
  else UB.

(** The provided [Write::write_all]; every round consumes input or stops. *)
Fixpoint write_all (fuel : nat) (size : Z) (d : PodDestination) (input : list Z) : outcome (io PodDestination) :=
  match input, fuel with
  | [], _ => OK (Ok d)
  | _, O => OK (Err OtherIo)
  | _, S fuel' =>
      '(n, d') ← write size d input;
      if n =? 0 then OK (Err WriteZero) else write_all fuel' size d' (drop (Z.to_nat n) input)
  end.

(** The allocation read as values. *)
Fixpoint values_of (n : nat) (size : nat) (b : list Z) : list (list Z) :=
  match n with O => [] | S n' => take size b :: values_of n' size (drop size b) end.

Definition finish (size : Z) (d : PodDestination) : io (list (list Z)) :=
  if negb (written d =? bytes d) then Err UnexpectedEof
  else Ok (values_of (Z.to_nat (bytes d / size)) (Z.to_nat size) (prefix d)).

(** [PodDuplex::receive] around the stream: the pieces are what [consume] hands
    to the writer. *)
Fixpoint write_pieces (size : Z) (d : PodDestination) (pieces : list (list Z)) : outcome (io PodDestination) :=
  match pieces with
  | [] => OK (Ok d)
  | piece :: rest =>
      r ← write_all (S (length piece)) size d piece;
      match r with Ok d' => write_pieces size d' rest | Err e => OK (Err e) end
  end.

Definition pod_receive (size total : Z) (pieces : list (list Z)) : outcome (io (list (list Z))) :=
  match PodDestination_new size total with
  | Err e => OK (Err e)
  | Ok d => r ← write_pieces size d pieces; OK (d' ←? r; finish size d')
  end.

(** The size check of [PodDuplex::send] and the bytes it streams. *)
Definition pod_send (size total : Z) (values : list (list Z)) : io (list Z) :=
  match checked_mul (Z.of_nat (length values)) size with
  | None => Err (InvalidInput "POD slice is too large")
  | Some n =>
      if negb (n =? total) then Err (InvalidInput "POD slice does not match the declared byte shape")
      else Ok (mjoin values)
  end.

(** ** Lemmas *)

Record dest_ok (size : Z) (d : PodDestination) : Prop := {
  do_cap : capacity d * size = bytes d;
  do_written : 0 <= written d <= bytes d;
  do_prefix : Z.of_nat (length (prefix d)) = written d
}.

Lemma write_spec size d input : dest_ok size d ->
  let n := Z.min (Z.of_nat (length input)) (bytes d - written d) in
  exists d', write size d input = OK (n, d') /\ dest_ok size d' /\ bytes d' = bytes d /\ written d' = written d + n /\
    prefix d' = prefix d ++ take (Z.to_nat n) input.
Proof.
  intros [Hc Hw Hp] n. unfold write, sub_usize. destruct (Z.leb_spec (written d) (bytes d)); [|lia].
  cbn [mbind outcome_bind]. fold n. destruct (Z.leb_spec (written d + n) (capacity d * size)); [|lia].
  eexists. split; [done|]. splits. split; simpl; [done|lia|]. rewrite length_app, length_take. lia.
Qed.

(** Writing takes all of the input, or fills the destination and fails. *)
Lemma write_all_spec size fuel d input : dest_ok size d -> (length input < fuel)%nat ->
  if Z.of_nat (length input) <=? bytes d - written d
  then exists d', write_all fuel size d input = OK (Ok d') /\ dest_ok size d' /\ bytes d' = bytes d /\
    prefix d' = prefix d ++ input
  else write_all fuel size d input = OK (Err WriteZero).
Proof.
  revert d input. induction fuel as [|fuel IH]; intros d input Hd Hf; [lia|].
  destruct input as [|b rest].
  { pose proof (do_written _ _ Hd). destruct (Z.leb_spec (Z.of_nat (length (@nil Z))) (bytes d - written d)); [|simpl in *; lia].
    exists d. splits. by rewrite app_nil_r. }
  pose proof (do_written _ _ Hd) as Hw.
  destruct (write_spec size d (b :: rest) Hd) as (d' & Hwr & Hd' & Hb & Hw' & Hp'). cbn [write_all].
  set (n := Z.min _ _) in *. rewrite Hwr. cbn [mbind outcome_bind].
  destruct (Z.eqb_spec n 0) as [Hz|Hnz].
  { destruct (Z.leb_spec (Z.of_nat (length (b :: rest))) (bytes d - written d)); [|done]. simpl length in *. lia. }
  pose proof (IH d' (drop (Z.to_nat n) (b :: rest)) Hd') as IHn. rewrite length_drop, Hb, Hw' in IHn.
  specialize (IHn ltac:(simpl length in *; lia)).
  destruct (Z.leb_spec (Z.of_nat (length (b :: rest))) (bytes d - written d)) as [Hle|Hgt].
  - destruct (Z.leb_spec (Z.of_nat (length (b :: rest) - Z.to_nat n)) (bytes d - (written d + n))); [|lia].
    destruct IHn as (d2 & E & Hd2 & Hb2 & Hp2). exists d2. splits. by rewrite Hp2, Hp', <- app_assoc, take_drop.
  - destruct (Z.leb_spec (Z.of_nat (length (b :: rest) - Z.to_nat n)) (bytes d - (written d + n))); [lia|done].
Qed.

Lemma write_pieces_spec size d pieces : dest_ok size d ->
  if Z.of_nat (length (mjoin pieces)) <=? bytes d - written d
  then exists d', write_pieces size d pieces = OK (Ok d') /\ dest_ok size d' /\ bytes d' = bytes d /\
    prefix d' = prefix d ++ mjoin pieces
  else write_pieces size d pieces = OK (Err WriteZero).
Proof.
  revert d. induction pieces as [|piece rest IH]; intros d Hd.
  { pose proof (do_written _ _ Hd). destruct (Z.leb_spec (Z.of_nat (length (mjoin (@nil (list Z))))) (bytes d - written d)); [|simpl in *; lia].
    exists d. splits. by rewrite app_nil_r. }
  change (mjoin (piece :: rest)) with (piece ++ mjoin rest). cbn [write_pieces]. rewrite length_app.
  pose proof (write_all_spec size (S (length piece)) d piece Hd ltac:(lia)) as Hw.
  destruct (Z.leb_spec (Z.of_nat (length piece)) (bytes d - written d)).
  - destruct Hw as (d1 & -> & Hd1 & Hb1 & Hp1). cbn [mbind outcome_bind]. pose proof (IH d1 Hd1) as IHd.
    assert (written d1 = written d + Z.of_nat (length piece)) as Hw1.
    { rewrite <- (do_prefix _ _ Hd1), Hp1, length_app. pose proof (do_prefix _ _ Hd). lia. }
    rewrite Hb1, Hw1 in IHd.
    destruct (Z.leb_spec (Z.of_nat (length (mjoin rest))) (bytes d - (written d + Z.of_nat (length piece)))).
    + destruct (Z.leb_spec (Z.of_nat (length piece + length (mjoin rest))) (bytes d - written d)); [|lia].
      destruct IHd as (d2 & E & Hd2 & Hb2 & Hp2). exists d2. splits. by rewrite Hp2, Hp1, <- app_assoc.
    + destruct (Z.leb_spec (Z.of_nat (length piece + length (mjoin rest))) (bytes d - written d)); [lia|done].
  - rewrite Hw. cbn [mbind outcome_bind].
    destruct (Z.leb_spec (Z.of_nat (length piece + length (mjoin rest))) (bytes d - written d)); [lia|done].
Qed.

Lemma values_of_join (size : nat) (vs : list (list Z)) :
  Forall (fun v => length v = size) vs -> values_of (length vs) size (mjoin vs) = vs.
Proof.
  induction 1 as [|v vs Hv Hvs IH]; [done|]. change (mjoin (v :: vs)) with (v ++ mjoin vs). cbn [length values_of].
  rewrite take_app_length', drop_app_length', IH by done. done.
Qed.

Lemma join_values_of (size n : nat) (b : list Z) :
  length b = (n * size)%nat -> mjoin (values_of n size b) = b /\ Forall (fun v => length v = size) (values_of n size b).
Proof.
  revert b. induction n as [|n IH]; intros b Hb; [by destruct b|].
  destruct (IH (drop size b)) as [H1 H2]; [rewrite length_drop; lia|].
  cbn [values_of]. change (mjoin (take size b :: values_of n size (drop size b)))
    with (take size b ++ mjoin (values_of n size (drop size b))). rewrite H1, take_drop. split; [done|]. constructor; [rewrite length_take; lia|done].
Qed.

Lemma values_of_length n size b : length (values_of n size b) = n.
Proof. revert b. induction n as [|n IH]; intros b; simpl; [done|by rewrite IH]. Qed.

Lemma join_length (vs : list (list Z)) (size : nat) :
  Forall (fun v => length v = size) vs -> length (mjoin vs) = (length vs * size)%nat.
Proof. induction 1 as [|v vs Hv Hvs IH]; [done|]. change (mjoin (v :: vs)) with (v ++ mjoin vs).
  rewrite length_app, IH, Hv. simpl. lia. Qed.

(** A typed receive is all or nothing, however the stream fragments the
    payload: when the pieces make up exactly the declared bytes it returns values
    whose bytes are those of the stream (so what a typed send streamed comes back
    unchanged); a short stream gives [UnexpectedEof] and an over-long one
    [WriteZero], without a partial value and without a copy outside the
    allocation. *)
Theorem pod_receive_exact (size total : Z) (pieces : list (list Z)) :
  0 < size < USIZE -> 0 <= total < USIZE -> total mod size = 0 ->
  let n := Z.of_nat (length (mjoin pieces)) in
  (n = total -> exists vs, pod_receive size total pieces = OK (Ok vs) /\ mjoin vs = mjoin pieces /\
     Forall (fun v => Z.of_nat (length v) = size) vs /\ pod_send size total vs = Ok (mjoin pieces)) /\
  (n < total -> pod_receive size total pieces = OK (Err UnexpectedEof)) /\
  (total < n -> pod_receive size total pieces = OK (Err WriteZero)) /\
  (forall vs, Forall (fun v => Z.of_nat (length v) = size) vs -> pod_send size total vs = Ok (mjoin pieces) ->
     pod_receive size total pieces = OK (Ok vs)).
Proof.
  intros Hs Ht Hm n.
  assert (PodDestination_new size total = Ok (mkDestination (total / size) total 0 [])) as Hnew.
  { unfold PodDestination_new, is_multiple_of. by zbool; try lia. }
  assert (total = total / size * size) as Hdiv by (pose proof (Z.div_mod total size ltac:(lia)); lia).
  assert (dest_ok size (mkDestination (total / size) total 0 [])) as Hd by (split; simpl; lia).
  assert (0 <= total / size) as Hq by (apply Z.div_pos; lia).
  unfold pod_receive. rewrite Hnew. pose proof (write_pieces_spec size _ pieces Hd) as Hw. simpl bytes in Hw. simpl written in Hw.
  rewrite Z.sub_0_r in Hw. fold n in Hw.
  assert (n <= total -> exists d', write_pieces size (mkDestination (total / size) total 0 []) pieces = OK (Ok d') /\
    written d' = n /\ bytes d' = total /\ prefix d' = mjoin pieces) as Hle.
  { intros Hn. destruct (Z.leb_spec n total); [|lia]. destruct Hw as (d' & E & Hd' & Hb & Hp). exists d'.
    pose proof (do_prefix _ _ Hd') as Hl. rewrite Hp in Hl. simpl in Hl, Hp. splits. }
  assert (n = total -> exists vs, (r ← write_pieces size (mkDestination (total / size) total 0 []) pieces; OK (d' ←? r; finish size d')) =
    OK (Ok vs) /\ vs = values_of (Z.to_nat (total / size)) (Z.to_nat size) (mjoin pieces)) as Heq.
  { intros Hn. destruct (Hle ltac:(lia)) as (d' & -> & H1 & H2 & H3). cbn [mbind outcome_bind result_bind].
    unfold finish. rewrite H1, H2, Hn, Z.eqb_refl, H3. by eexists. }
  splits.
  - intros Hn. destruct (Heq Hn) as (vs & E & Hvs). exists vs.
    destruct (join_values_of (Z.to_nat size) (Z.to_nat (total / size)) (mjoin pieces)) as [J1 J2]; [lia|].
    rewrite <- Hvs in J1, J2. splits; [eapply Forall_impl; [exact J2|]; simpl; lia|].
    unfold pod_send, checked_mul. assert (length vs = Z.to_nat (total / size)) as Hl by (rewrite Hvs; apply values_of_length).
    rewrite Hl, Z2Nat.id, <- Hdiv by lia. destruct (Z.ltb_spec total USIZE); [|lia]. by rewrite Z.eqb_refl, J1.
  - intros Hn. destruct (Hle ltac:(lia)) as (d' & -> & H1 & H2 & H3). cbn [mbind outcome_bind result_bind].
    unfold finish. rewrite H1, H2. by destruct (Z.eqb_spec n total); [lia|].
  - intros Hn. destruct (Z.leb_spec n total); [lia|]. by rewrite Hw.
  - intros vs Hvs Hsend. unfold pod_send, checked_mul in Hsend. zbool_in Hsend; try done. injection Hsend as Hj.
    assert (n = total) as Hn.
    { unfold n. rewrite <- Hj. rewrite (join_length vs (Z.to_nat size)); [nia|]. eapply Forall_impl; [exact Hvs|]. simpl. lia. }
    destruct (Heq Hn) as (vs' & -> & ->). do 2 f_equal. rewrite <- Hj.
    replace (Z.to_nat (total / size)) with (length vs) by (apply Nat2Z.inj; nia).
    apply values_of_join. eapply Forall_impl; [exact Hvs|]. simpl. lia.
Qed.

Lemma pod_receive_exact_witness :
  pod_receive 4 8 [[1; 2; 3]; [4; 5; 6; 7; 8]] = OK (Ok [[1; 2; 3; 4]; [5; 6; 7; 8]]) /\
  pod_receive 4 8 [[1; 2; 3]] = OK (Err UnexpectedEof).
Proof.
  pose proof (pod_receive_exact 4 8 [[1; 2; 3]; [4; 5; 6; 7; 8]] ltac:(lia) ltac:(lia) ltac:(reflexivity)) as (_ & _ & _ & H).
  pose proof (pod_receive_exact 4 8 [[1; 2; 3]] ltac:(lia) ltac:(lia) ltac:(reflexivity)) as (_ & H' & _).
  split; [apply H; [repeat constructor|reflexivity]|apply H'; reflexivity].
Defined.

End pod.
