(* ===== verification/IpcEvent.v ===== *)
(** * Process events: [src/src/ipc/event.rs], with the waits of [stream.rs]

    The sequence word and the waiter flag of a [ProcessEvent] in shared memory,
    and the three parking primitives behind it. What the operating system does is a
    parameter ([Kernel], with its documented behaviour in [KernelLaws]): a futex
    word, a FIFO and an auto-reset event object are instances. How the code reads
    the answers of the system calls is translated.

    The second part runs one direction of a descriptor ring over an event, one
    shared access at a time: the peer stores its cursor and notifies, this side
    checks the ring, observes the word, checks again and waits, as [push] and [pop]
    do. The memory is sequentially consistent. *)

From stdpp Require Import prelude strings.
From S2P Require Import Prelude IpcFrame IpcSetup IpcSession.
Import frame.
Local Open Scope Z_scope.
Local Open Scope prescient_scope.

Module event.

(** ** The shared state *)

Definition EVENT_MAGIC : Z := 0x50534556.
Definition EVENT_NAME_LEN : Z := 96.

Record SharedEventState := mkShared {
  magic : Z;
  seq_word : Z;
  waiter_flag : Z;
  name_len : Z;
  name_bytes : list Z
}.

Definition fresh_state : SharedEventState := mkShared 0 0 0 0 (replicate 96 0).

Definition write_name (st : SharedEventState) (nm : list Z) : io SharedEventState :=
  let n := Z.of_nat (length nm) in
  if (n =? 0) || (EVENT_NAME_LEN <=? n)
  then Err (InvalidInput "process event name is empty or too long")
  else Ok (mkShared (magic st) (seq_word st) (waiter_flag st) n (list_inserts 0 (nm ++ [0]) (name_bytes st))).

Definition read_name (st : SharedEventState) : io (list Z) :=
  let n := name_len st in
  if (n =? 0) || (EVENT_NAME_LEN <=? n) then Err (InvalidData "invalid process event name length") else
  let bytes := take (Z.to_nat n) (name_bytes st) in
  if setup.utf8_valid bytes then Ok bytes else Err (InvalidData "event name is not UTF-8").

(** The platform of a process. *)
Inductive platform : Type := Linux | Macos | Windows.

(** [{id:x}]: lower-case hexadecimal without leading zeros. *)
Fixpoint hex_digits (fuel : nat) (n : Z) (acc : list Z) : list Z :=
  match fuel with
  | O => acc
  | S fuel' =>
      let acc' := session.hex_digit (n mod 16) :: acc in
      if n / 16 =? 0 then acc' else hex_digits fuel' (n / 16) acc'
  end.
Definition lower_hex (id : Z) : list Z := hex_digits 16 id [].

(** ["/tmp/psi-"] and ["Local\prescient-event-"]. *)
Definition name_prefix (p : platform) : list Z :=
  match p with
  | Linux => []
  | Macos => [0x2F; 0x74; 0x6D; 0x70; 0x2F; 0x70; 0x73; 0x69; 0x2D]
  | Windows => [0x4C; 0x6F; 0x63; 0x61; 0x6C; 0x5C; 0x70; 0x72; 0x65; 0x73; 0x63; 0x69; 0x65; 0x6E; 0x74;
                0x2D; 0x65; 0x76; 0x65; 0x6E; 0x74; 0x2D]
  end.
Definition event_name (p : platform) (token : list Z) (id : Z) : list Z :=
  name_prefix p ++ session.hex token ++ [0x2D] ++ lower_hex id.

(** [ProcessEvent::create] and [open] over the shared bytes, up to the system call
    that makes or opens the object of that name. *)
Definition event_create (p : platform) (token : list Z) (id : Z) : io SharedEventState :=
  st ←? match p with
        | Linux => Ok fresh_state
        | _ => write_name fresh_state (event_name p token id)
        end;
  Ok (mkShared EVENT_MAGIC (seq_word st) (waiter_flag st) (name_len st) (name_bytes st)).

Definition event_open (p : platform) (st : SharedEventState) : io (list Z) :=
  if negb (magic st =? EVENT_MAGIC) then Err (InvalidData "process event is not initialized") else
  match p with
  | Linux => Ok []
  | Macos => nm ←? read_name st; if session.has_nul nm then Err (InvalidData "event name has NUL") else Ok nm
  | Windows => read_name st
  end.

(** ** The platform backends: arguments and answers of the system calls *)

Inductive WaitOutcome : Type := Changed | TimedOut.
Inductive errno : Type := EAGAIN | EINTR | ETIMEDOUT | EOther (code : Z).

(** Durations are in nanoseconds. *)
Definition as_millis (d : Z) : Z := d / 1000000.
Definition linux_timespec (d : Z) : Z * Z := (d / 1000000000 `min` ISIZE_MAX, d mod 1000000000).
Definition macos_millis (d : Z) : Z := if d =? 0 then 0 else 1 `max` (as_millis d `min` 2147483647).
Definition windows_millis (d : Z) : Z := as_millis d `min` (U32 - 1 - 1).

Definition linux_wait (result : Z) (error : errno) : io WaitOutcome :=
  if result =? 0 then Ok Changed else
  match error with
  | EAGAIN | EINTR => Ok Changed
  | ETIMEDOUT => Ok TimedOut
  | EOther _ => Err OtherIo
  end.
Definition linux_wake (result : Z) : io unit := if 0 <=? result then Ok tt else Err OtherIo.

(** [POLLERR | POLLHUP | POLLNVAL]. *)
Definition poll_failed (revents : Z) : bool := negb (Z.land revents 0x38 =? 0).
Definition macos_wait (result : Z) (error : errno) (revents : Z) (read : Z) (read_error : errno) : io WaitOutcome :=
  if result =? 0 then Ok TimedOut else
  if result <? 0 then match error with EINTR => Ok Changed | _ => Err OtherIo end else
  if poll_failed revents then Err OtherIo else
  if 0 <=? read then Ok Changed else
  match read_error with EAGAIN | EINTR => Ok Changed | _ => Err OtherIo end.
Definition macos_wake (written : Z) (error : errno) : io unit :=
  if written =? 1 then Ok tt else match error with EAGAIN => Ok tt | _ => Err OtherIo end.

Definition WAIT_OBJECT_0 : Z := 0.
Definition WAIT_TIMEOUT : Z := 258.
Definition WAIT_FAILED : Z := 4294967295.
Definition windows_wait (code : Z) : io WaitOutcome :=
  if code =? WAIT_OBJECT_0 then Ok Changed else if code =? WAIT_TIMEOUT then Ok TimedOut else Err OtherIo.
Definition windows_wake (result : Z) : io unit := if negb (result =? 0) then Ok tt else Err OtherIo.

(** ** What the operating system does *)

(** Why a blocking call returns. *)
Inductive cause : Type := Woken | Expired | Failed (e : errno).

(** The parking object with at most one process in the blocking call: the call is
    entered with the word and the value it is compared with, it may return with
    [Woken] once [k_ready], and with [Expired] or [Failed] at any time. *)
Class Kernel (K : Type) := {
  k_new : K;
  k_enter : Z -> Z -> K -> K;
  k_in : K -> bool;
  k_ready : K -> bool;
  k_leave : cause -> K -> K * io WaitOutcome;
  k_wake : K -> K * io unit
}.

(** [woken]: a wake that came while nobody was in the call may still count. It ends
    the next call when the word has changed, and a [Keeps] object ends the next call
    whatever the word is. *)
Class KernelLaws (K : Type) `{Kernel K} := {
  woken : K -> Prop;
  in_new : k_in k_new = false;
  in_enter : forall s o k, k_in (k_enter s o k) = true;
  in_leave : forall c k, k_in (k_leave c k).1 = false;
  in_wake : forall k, k_in (k_wake k).1 = k_in k;
  wake_ok : forall k, (k_wake k).2 = Ok tt;
  wake_parked : forall k, k_in k = true -> k_ready (k_wake k).1 = true;
  wake_absent : forall k, k_in k = false -> woken (k_wake k).1;
  enter_woken : forall s o k, k_in k = false -> woken k -> s <> o -> k_ready (k_enter s o k) = true;
  leave_woken : forall k, k_ready k = true -> (k_leave Woken k).2 = Ok Changed
}.
Definition Keeps (K : Type) `{KernelLaws K} : Prop :=
  forall s o k, k_in k = false -> woken k -> k_ready (k_enter s o k) = true.

(** A futex: the call compares and sleeps in one step, a wake rouses a sleeper and
    is otherwise forgotten. *)
Inductive futex : Type := FOut | FAsleep | FRoused | FRefused.
#[export] Instance futex_kernel : Kernel futex := {
  k_new := FOut;
  k_enter := fun s o _ => if s =? o then FAsleep else FRefused;
  k_in := fun k => match k with FOut => false | _ => true end;
  k_ready := fun k => match k with FRoused | FRefused => true | _ => false end;
  k_leave := fun c k => (FOut, match c with
    | Woken => match k with FRefused => linux_wait (-1) EAGAIN | _ => linux_wait 0 EAGAIN end
    | Expired => linux_wait (-1) ETIMEDOUT
    | Failed e => linux_wait (-1) e
    end);
  k_wake := fun k => match k with FAsleep => (FRoused, linux_wake 1) | _ => (k, linux_wake 0) end
}.

(** A FIFO of [cap] bytes opened for reading and writing without blocking: a poll
    sees the tokens that are there, the read takes up to 64 of them. *)
Record fifo (cap : positive) := mkFifo { tokens : N; polling : bool }.
Arguments mkFifo {cap} tokens polling.
Arguments tokens {cap} f.
Arguments polling {cap} f.
#[export] Instance fifo_kernel (cap : positive) : Kernel (fifo cap) := {
  k_new := mkFifo 0 false;
  k_enter := fun _ _ k => mkFifo (tokens k) true;
  k_in := polling;
  k_ready := fun k => (0 <? tokens k)%N;
  k_leave := fun c k => match c with
    | Woken => (mkFifo (tokens k - 64) false, macos_wait 1 EAGAIN 1 (Z.of_N (tokens k `min` 64)) EAGAIN)
    | Expired => (mkFifo (tokens k) false, macos_wait 0 EAGAIN 0 0 EAGAIN)
    | Failed e => (mkFifo (tokens k) false, macos_wait (-1) e 0 0 EAGAIN)
    end;
  k_wake := fun k =>
    if (tokens k <? Npos cap)%N then (mkFifo (tokens k + 1) (polling k), macos_wake 1 EAGAIN)
    else (k, macos_wake (-1) EAGAIN)
}.

(** An event object made with [CreateEventW(.., 0, 0, ..)]: auto-reset, not signalled. *)
Record autoreset := mkAuto { signalled : bool; blocking : bool }.
#[export] Instance autoreset_kernel : Kernel autoreset := {
  k_new := mkAuto false false;
  k_enter := fun _ _ k => mkAuto (signalled k) true;
  k_in := blocking;
  k_ready := signalled;
  k_leave := fun c k => match c with
    | Woken => (mkAuto false false, windows_wait WAIT_OBJECT_0)
    | Expired => (mkAuto (signalled k) false, windows_wait WAIT_TIMEOUT)
    | Failed _ => (mkAuto (signalled k) false, windows_wait WAIT_FAILED)
    end;
  k_wake := fun k => (mkAuto true (blocking k), windows_wake 1)
}.

#[export] Instance futex_laws : KernelLaws futex.
Proof.
  refine {| woken := fun _ => True |}; try done.
  - intros s o k. simpl. by destruct (s =? o).
  - by intros [].
  - by intros [].
  - by intros [].
  - intros s o k _ _ Hne. simpl. by destruct (Z.eqb_spec s o).
  - by intros [].
Defined.
#[export] Instance fifo_laws (cap : positive) : KernelLaws (fifo cap).
Proof.
  refine {| woken := fun k => (0 < tokens k)%N |}; simpl; try done.
  - by intros [] k.
  - intros k. by case_match.
  - intros k. by case_match.
  - intros k _. destruct (N.ltb_spec (tokens k) (N.pos cap)); simpl; apply N.ltb_lt; lia.
  - intros k _. destruct (N.ltb_spec (tokens k) (N.pos cap)); simpl; lia.
  - intros _ _ k _ Hk _. by apply N.ltb_lt.
  - intros k Hk. unfold macos_wait. simpl. destruct (Z.leb_spec 0 (Z.of_N (tokens k `min` 64))); [done | lia].
Defined.
#[export] Instance autoreset_laws : KernelLaws autoreset.
Proof. refine {| woken := fun k => signalled k = true |}; simpl; try done; by intros []. Defined.

Lemma fifo_keeps cap : Keeps (fifo cap).
Proof. intros s o k _ Hk. by apply N.ltb_lt. Qed.
Lemma autoreset_keeps : Keeps autoreset.
Proof. intros s o k _ Hk. exact Hk. Qed.

(** ** One direction of a ring over an event *)

(** What this side waits for: descriptors in [pop], room in [push]. *)
Inductive direction : Type := ForData | ForSpace.
Definition other (d : direction) : direction := match d with ForData => ForSpace | ForSpace => ForData end.

Definition LIVENESS_POLL_INTERVAL : Z := 10000000.
(** The bound of one wait of [wait_for_peer_event]; [None] once the time is over. *)
Definition wait_for (elapsed timeout : Z) : option Z :=
  if timeout <=? elapsed then None else Some ((timeout - elapsed) `min` LIVENESS_POLL_INTERVAL).

(** Where this side is in [push] or [pop], [wait_for_peer_event] and
    [ProcessEvent::wait]. *)
Inductive wpc : Type :=
| WCheck                              (* head of the loop *)
| WObserve                            (* blocked; about to observe the word *)
| WRing (obs : Z)                     (* about to check the ring again *)
| WStart (obs : Z)                    (* about to compare the elapsed time *)
| WFirst (obs : Z)                    (* first load of the word in [wait] *)
| WSwap (obs : Z)                     (* about to register *)
| WRecheck (obs : Z)                  (* registered; second load *)
| WEnter (obs : Z)                    (* about to enter the system call *)
| WParked (obs : Z)                   (* in it *)
| WClear (obs : Z) (r : io WaitOutcome)
| WFinal (obs : Z)                    (* timed out; last load *)
| WAsk                                (* [peer_closed] *)
| WFailed (e : io_error).

(** Where the peer is: its cursor stored and [notify] not begun, before the swap,
    before the wake. *)
Inductive npc : Type := NIdle | NStore | NSwap | NWake | NFailed.
#[export] Instance npc_eq_dec : EqDecision npc.
Proof. solve_decision. Defined.

(** [peer] and [own] are the two cursors of the ring; ghost fields: the cursor the
    word was last stored from, the same when this side observed the word, and whether
    a notification was past its store when this side registered. *)
Record World (K : Type) := mkWorld {
  peer : Z;
  own : Z;
  sequence : Z;
  waiters : Z;
  kern : K;
  wait : wpc;
  note : npc;
  notified : Z;
  base : Z;
  overlap : bool
}.
Arguments mkWorld {K} peer own sequence waiters kern wait note notified base overlap.
Arguments peer {K} w.
Arguments own {K} w.
Arguments sequence {K} w.
Arguments waiters {K} w.
Arguments kern {K} w.
Arguments wait {K} w.
Arguments note {K} w.
Arguments notified {K} w.
Arguments base {K} w.
Arguments overlap {K} w.

Inductive act : Type :=
| EPeer                   (* the peer's next access *)
| EOwn                    (* this side's next access *)
| EElapsed                (* the time of [push] or [pop] is over *)
| EReturn (c : cause)     (* the system call returns *)
| EPeerClosed (r : io bool).

Section machine.
Context {K : Type} `{Kernel K} (d : direction) (capacity : Z).
Implicit Types w : World K.

(** [tail - head == 0] and [tail - head >= capacity]. *)
Definition blocked_in (d : direction) (own peer : Z) : bool :=
  match d with
  | ForData => wrapping_sub peer own =? 0
  | ForSpace => capacity <=? wrapping_sub own peer
  end.
Definition blocked (own peer : Z) : bool := blocked_in d own peer.

Definition set_wait w (p : wpc) : World K :=
  mkWorld (peer w) (own w) (sequence w) (waiters w) (kern w) p (note w) (notified w) (base w) (overlap w).

(** The transfer of one descriptor, which ends in the store of this side's cursor. *)
Definition transfer w : World K :=
  mkWorld (peer w) (own w + 1) (sequence w) (waiters w) (kern w) WCheck (note w) (notified w) (base w) (overlap w).

(** The peer: the end of [push] or [pop], and [notify]. *)
Definition peer_step w : option (World K) :=
  match note w with
  | NIdle =>
      if negb (blocked_in (other d) (peer w) (own w)) && (peer w + 1 <? USIZE)
      then Some (mkWorld (peer w + 1) (own w) (sequence w) (waiters w) (kern w) (wait w) NStore
                   (notified w) (base w) (overlap w))
      else None
  | NStore =>
      Some (mkWorld (peer w) (own w) (peer w mod U32) (waiters w) (kern w) (wait w) NSwap (peer w) (base w) (overlap w))
  | NSwap =>
      Some (mkWorld (peer w) (own w) (sequence w) 0 (kern w) (wait w) (if negb (waiters w =? 0) then NWake else NIdle)
              (notified w) (base w) (overlap w))
  | NWake =>
      let '(k, r) := k_wake (kern w) in
      Some (mkWorld (peer w) (own w) (sequence w) (waiters w) k (wait w)
              (match r with Ok _ => NIdle | Err _ => NFailed end) (notified w) (base w) (overlap w))
  | NFailed => None
  end.

(** This side: [push] or [pop] up to the wait, and [ProcessEvent::wait]. *)
Definition own_step w : option (World K) :=
  match wait w with
  | WCheck =>
      if blocked (own w) (peer w) then Some (set_wait w WObserve)
      else if own w + 1 <? USIZE then Some (transfer w) else None
  | WObserve =>
      Some (mkWorld (peer w) (own w) (sequence w) (waiters w) (kern w) (WRing (sequence w)) (note w)
              (notified w) (notified w) (overlap w))
  | WRing obs =>
      if blocked (own w) (peer w) then Some (set_wait w (WStart obs))
      else if own w + 1 <? USIZE then Some (transfer w) else None
  | WStart obs => Some (set_wait w (WFirst obs))
  | WFirst obs => Some (set_wait w (if negb (sequence w =? obs) then WCheck else WSwap obs))
  | WSwap obs =>
      Some (mkWorld (peer w) (own w) (sequence w) 1 (kern w)
              (if negb (waiters w =? 0) then WFailed (InvalidInput "process event supports one waiter") else WRecheck obs)
              (note w) (notified w) (base w) (bool_decide (note w = NSwap)))
  | WRecheck obs => Some (set_wait w (if negb (sequence w =? obs) then WClear obs (Ok Changed) else WEnter obs))
  | WEnter obs =>
      Some (mkWorld (peer w) (own w) (sequence w) (waiters w) (k_enter (sequence w) obs (kern w)) (WParked obs) (note w)
              (notified w) (base w) (overlap w))
  | WClear obs r =>
      Some (mkWorld (peer w) (own w) (sequence w) 0 (kern w)
              (match r with Err e => WFailed e | Ok TimedOut => WFinal obs | Ok Changed => WCheck end) (note w)
              (notified w) (base w) (overlap w))
  | WFinal obs => Some (set_wait w (if negb (sequence w =? obs) then WCheck else WAsk))
  | WParked _ | WAsk | WFailed _ => None
  end.

Definition may_return (c : cause) (k : K) : bool := match c with Woken => k_ready k | _ => true end.

Definition step w (e : act) : option (World K) :=
  match e with
  | EPeer => peer_step w
  | EOwn => own_step w
  | EElapsed => match wait w with WStart _ => Some (set_wait w (WFailed frame.TimedOut)) | _ => None end
  | EReturn c =>
      match wait w with
      | WParked obs =>
          if may_return c (kern w) then
            let '(k, r) := k_leave c (kern w) in
            Some (mkWorld (peer w) (own w) (sequence w) (waiters w) k (WClear obs r) (note w)
                    (notified w) (base w) (overlap w))
          else None
      | _ => None
      end
  | EPeerClosed r =>
      match wait w with
      | WAsk => Some (set_wait w (match r with
                  | Ok true => WFailed UnexpectedEof
                  | Ok false => WCheck
                  | Err e => WFailed e
                  end))
      | _ => None
      end
  end.

Fixpoint run w (es : list act) : option (World K) :=
  match es with [] => Some w | e :: es' => w' ← step w e; run w' es' end.

Definition init : World K := mkWorld 0 0 0 0 k_new WCheck NIdle 0 0 false.

(** The rest of a notification in flight. *)
Definition notify_step w : World K :=
  match note w with NIdle => w | _ => default w (peer_step w) end.
Definition finish_notify w : World K := notify_step (notify_step (notify_step w)).

(** ** The invariant *)

(** The peer cursors up to [lim] block this side. *)
Definition lim (own : Z) : Z := match d with ForData => own | ForSpace => own - capacity end.

Definition cursors w : Prop :=
  0 <= own w < USIZE /\ 0 <= peer w < USIZE /\ lim (own w) <= peer w <= lim (own w) + capacity /\
  sequence w = notified w mod U32 /\
  notified w = (if decide (note w = NStore) then peer w - 1 else peer w) /\ note w <> NFailed.

Definition observed (p : wpc) : option Z :=
  match p with
  | WRing o | WStart o | WFirst o | WSwap o | WRecheck o | WEnter o | WParked o | WClear o _ | WFinal o => Some o
  | _ => None
  end.
Definition rechecked (p : wpc) : bool := match p with WRing _ => false | _ => true end.
Definition registered (p : wpc) : bool :=
  match p with WRecheck _ | WEnter _ | WParked _ | WClear _ _ => true | _ => false end.
Definition parked (p : wpc) : bool := match p with WParked _ => true | _ => false end.

Definition window w : Prop :=
  forall o, observed (wait w) = Some o ->
  o = base w mod U32 /\ lim (own w) - 1 <= base w <= notified w /\ (rechecked (wait w) = true -> base w <= lim (own w)).

(** The waiter flag is that of this side, and only this side is in the call. *)
Definition flagged w : Prop :=
  (waiters w = 0 \/ waiters w = 1) /\ (waiters w = 1 -> registered (wait w) = true) /\ k_in (kern w) = parked (wait w).

Context `{!KernelLaws K}.

Definition spent w : Prop := overlap w = true \/ base w < notified w.
Definition synced w : Prop :=
  match wait w with
  | WRecheck _ => (note w = NSwap -> spent w) /\ (waiters w = 0 -> spent w /\ (note w = NWake \/ woken (kern w)))
  | WEnter _ =>
      (note w = NSwap -> spent w) /\ (waiters w = 0 -> spent w /\ (note w = NWake \/ woken (kern w))) /\
      (waiters w = 1 -> notified w = base w \/ note w = NSwap)
  | WParked _ =>
      (waiters w = 1 -> notified w = base w \/ note w = NSwap) /\
      (overlap w = false \/ Keeps K -> waiters w = 0 -> note w = NWake \/ k_ready (kern w) = true)
  | _ => True
  end.

Definition inv w : Prop := cursors w /\ window w /\ flagged w /\ synced w.
End machine.

(** ** Preservation *)

Section proofs.
Context {K : Type} `{KernelLaws K} (d : direction) (capacity : Z).
Context (Hcap : 0 < capacity) (Hcap32 : capacity + 1 < U32).
Implicit Types w : World K.
#[local] Abbreviation inv := (inv d capacity).
#[local] Abbreviation cursors := (cursors d capacity).
#[local] Abbreviation lim := (lim d capacity).

Lemma blocked_lim w : cursors w -> blocked d capacity (own w) (peer w) = (peer w <=? lim (own w)).
Proof.
  intros (Ho & Hp & Hl & _). unfold blocked, blocked_in, lim, wrapping_sub in *.
  apply eq_bool_prop_intro. destruct d; rewrite Z.mod_small by lia; zbool; naive_solver lia.
Qed.

Lemma peer_blocked_lim w :
  cursors w -> blocked_in capacity (other d) (peer w) (own w) = (lim (own w) + capacity <=? peer w).
Proof.
  intros (Ho & Hp & Hl & _). unfold blocked_in, lim, other, wrapping_sub in *.
  apply eq_bool_prop_intro. destruct d; rewrite Z.mod_small by lia; zbool; naive_solver lia.
Qed.

(** The word tells the cursors of one wait apart. *)
Lemma word_changed w : cursors w -> lim (own w) - 1 <= base w <= notified w ->
  sequence w = base w mod U32 <-> notified w = base w.
Proof.
  intros (_ & _ & Hl & -> & Hn & _) Hb. split; [| congruence].
  intros Hm. destruct (decide (note w = NStore)); assert (0 <= notified w - base w < U32) by lia;
    apply Z.cong_iff_0 in Hm; rewrite Z.mod_small in Hm; lia.
Qed.

Lemma window_peer w w' : window d capacity w -> wait w' = wait w -> own w' = own w -> base w' = base w ->
  notified w <= notified w' -> window d capacity w'.
Proof. intros Hw Hwt Ho Hb Hn o Hob. rewrite ?Hwt, ?Ho, ?Hb in *. destruct (Hw o Hob) as (? & ? & ?). splits. Qed.

Lemma publish_inv w : inv w -> note w = NIdle -> peer w < lim (own w) + capacity -> peer w + 1 < USIZE ->
  inv (mkWorld (peer w + 1) (own w) (sequence w) (waiters w) (kern w) (wait w) NStore (notified w) (base w) (overlap w)).
Proof.
  intros ((Ho & Hp & Hl & Hs & Hn & _) & Hw & (Hf1 & Hf2 & Hf3) & Hy) Hi Hlt Hu. rewrite Hi in Hn. simpl in Hn.
  refine (conj _ (conj _ (conj _ _))).
  - unfold cursors. simpl. splits.
  - by apply (window_peer w).
  - unfold flagged. simpl. splits.
  - unfold synced, spent in *. simpl. rewrite Hi in Hy. destruct (wait w); intuition congruence.
Qed.

Lemma store_inv w : inv w -> note w = NStore ->
  inv (mkWorld (peer w) (own w) (peer w mod U32) (waiters w) (kern w) (wait w) NSwap (peer w) (base w) (overlap w)).
Proof.
  intros ((Ho & Hp & Hl & Hs & Hn & _) & Hw & (Hf1 & Hf2 & Hf3) & Hy) Hi. rewrite Hi in Hn. simpl in Hn.
  refine (conj _ (conj _ (conj _ _))).
  - unfold cursors. simpl. splits.
  - apply (window_peer w); simpl; [done.. | lia].
  - done.
  - unfold window, synced, spent in *. simpl. rewrite Hi in Hy.
    destruct (wait w); try done; (destruct (Hw _ eq_refl) as (_ & [_ Hb] & _)); intuition (congruence || lia).
Qed.

Lemma swap_inv w : inv w -> note w = NSwap ->
  inv (mkWorld (peer w) (own w) (sequence w) 0 (kern w) (wait w) (if negb (waiters w =? 0) then NWake else NIdle)
         (notified w) (base w) (overlap w)).
Proof.
  intros ((Ho & Hp & Hl & Hs & Hn & _) & Hw & (Hf1 & Hf2 & Hf3) & Hy) Hi. rewrite Hi in Hn. simpl in Hn.
  assert (Hc : waiters w = 0 /\ (if negb (waiters w =? 0) then NWake else NIdle) = NIdle \/
               waiters w = 1 /\ (if negb (waiters w =? 0) then NWake else NIdle) = NWake)
    by (destruct Hf1 as [-> | ->]; auto).
  set (n := if negb (waiters w =? 0) then NWake else NIdle) in *.
  refine (conj _ (conj _ (conj _ _))).
  - unfold cursors. simpl. destruct Hc as [[_ ->] | [_ ->]]; splits.
  - apply (window_peer w); simpl; done.
  - unfold flagged. simpl. splits.
  - unfold synced, spent in *. simpl. rewrite Hi in Hy.
    destruct (wait w); try done; destruct Hc as [[Hz ->] | [Hz ->]]; intuition (congruence || lia).
Qed.

Lemma wake_inv w : inv w -> note w = NWake ->
  inv (mkWorld (peer w) (own w) (sequence w) (waiters w) (k_wake (kern w)).1 (wait w) NIdle
         (notified w) (base w) (overlap w)).
Proof.
  intros ((Ho & Hp & Hl & Hs & Hn & _) & Hw & (Hf1 & Hf2 & Hf3) & Hy) Hi. rewrite Hi in Hn. simpl in Hn.
  refine (conj _ (conj _ (conj _ _))).
  - unfold cursors. simpl. splits.
  - apply (window_peer w); simpl; done.
  - unfold flagged. simpl. rewrite in_wake. splits.
  - unfold synced, spent in *. simpl. rewrite Hi in Hy.
    pose proof (wake_absent (kern w)) as Ha. pose proof (wake_parked (kern w)) as Hr. rewrite Hf3 in Ha, Hr.
    destruct (wait w); simpl in *; intuition congruence.
Qed.

Lemma peer_step_inv w w' : inv w -> peer_step d capacity w = Some w' -> inv w'.
Proof.
  intros Hi. unfold peer_step. destruct (note w) eqn:Hn; try done.
  - rewrite peer_blocked_lim by apply Hi. destruct (Z.leb_spec (lim (own w) + capacity) (peer w)); [done |].
    simpl. destruct (Z.ltb_spec (peer w + 1) USIZE); [| done]. intros [= <-]. by apply publish_inv.
  - intros [= <-]. by apply store_inv.
  - intros [= <-]. by apply swap_inv.
  - pose proof (wake_ok (kern w)) as Hk. pose proof (wake_inv w Hi Hn) as Hw.
    destruct (k_wake (kern w)) as [k r]. simpl in *. subst r. by intros [= <-].
Qed.

(** Steps of this side that move its program counter only. *)
Lemma set_wait_inv w p :
  inv w -> (forall o, observed p = Some o -> observed (wait w) = Some o) ->
  (rechecked p = true -> observed p <> None -> rechecked (wait w) = true \/ peer w <= lim (own w)) ->
  (waiters w = 1 -> registered p = true) -> parked p = parked (wait w) ->
  synced (set_wait w p) -> inv (set_wait w p).
Proof.
  intros (Hc & Hw & (Hf1 & Hf2 & Hf3) & Hy) Ho Hr Hg Hp Hs. refine (conj _ (conj _ (conj _ _))); [done | .. | done].
  - intros o Hob. simpl in *. destruct (Hw o (Ho o Hob)) as (He & Hb & Hb'). splits.
    intros Hrp. destruct (Hr Hrp ltac:(congruence)) as [|]; [auto |].
    destruct Hc as (_ & _ & _ & _ & Hn & _). destruct (decide _); lia.
  - unfold flagged. simpl. rewrite Hp. splits.
Qed.

Lemma unregistered w : inv w -> registered (wait w) = false -> waiters w = 0.
Proof. intros (_ & _ & (Hf1 & Hf2 & _) & _) Hr. destruct Hf1 as [|Hf1]; [done |]. rewrite Hf2 in Hr; done. Qed.

Lemma transfer_inv w : inv w -> registered (wait w) = false -> lim (own w) < peer w -> own w + 1 < USIZE ->
  inv (transfer w).
Proof.
  intros Hi Hr Hlt Hu. pose proof (unregistered w Hi Hr) as Hz.
  destruct Hi as ((Ho & Hp & Hl & Hs & Hn & Hnf) & _ & (Hf1 & _ & Hf3) & _).
  refine (conj _ (conj _ (conj _ _))); [| done | | done].
  - unfold cursors, transfer, lim in *. simpl. destruct d; splits.
  - unfold flagged. simpl. splits. rewrite Hf3. by destruct (wait w).
Qed.

Lemma observe_inv w : inv w -> wait w = WObserve ->
  inv (mkWorld (peer w) (own w) (sequence w) (waiters w) (kern w) (WRing (sequence w)) (note w)
         (notified w) (notified w) (overlap w)).
Proof.
  intros Hi Hw. pose proof (unregistered w Hi ltac:(by rewrite Hw)) as Hz.
  destruct Hi as ((Ho & Hp & Hl & Hs & Hn & Hnf) & _ & (Hf1 & _ & Hf3) & _). rewrite Hw in Hf3.
  refine (conj _ (conj _ (conj _ _))); [done | | | done].
  - intros o [= <-]. simpl. splits. destruct (decide _); lia.
  - unfold flagged. simpl. splits.
Qed.

Lemma register_inv w obs : inv w -> wait w = WSwap obs ->
  inv (mkWorld (peer w) (own w) (sequence w) 1 (kern w)
         (if negb (waiters w =? 0) then WFailed (InvalidInput "process event supports one waiter") else WRecheck obs)
         (note w) (notified w) (base w) (bool_decide (note w = NSwap))).
Proof.
  intros Hi Hw. rewrite (unregistered w Hi ltac:(by rewrite Hw)). simpl.
  destruct Hi as (Hc & Hwd & (_ & _ & Hf3) & _). unfold window in Hwd. rewrite Hw in Hf3, Hwd.
  refine (conj _ (conj _ (conj _ _))); [done | | |].
  - intros o Ho. by apply (Hwd o).
  - unfold flagged. simpl. splits.
  - unfold synced, spent. simpl. split; [| done]. intros ->. by left.
Qed.

Lemma enter_inv w obs : inv w -> wait w = WEnter obs ->
  inv (mkWorld (peer w) (own w) (sequence w) (waiters w) (k_enter (sequence w) obs (kern w)) (WParked obs) (note w)
         (notified w) (base w) (overlap w)).
Proof.
  intros (Hc & Hwd & (Hf1 & Hf2 & Hf3) & Hy) Hw. unfold synced, window in Hy, Hwd. rewrite Hw in Hf2, Hf3, Hy, Hwd.
  destruct (Hwd obs eq_refl) as (Ho & Hb & Hl). destruct Hy as (Hy1 & Hy2 & Hy3).
  refine (conj _ (conj _ (conj _ _))); [done | | |].
  - intros o Hob. by apply (Hwd o).
  - unfold flagged. simpl. rewrite in_enter. splits.
  - unfold synced. simpl. split; [done |]. intros Hk Hz. destruct (Hy2 Hz) as (Hsp & [|Hwk]); [by left | right].
    destruct Hk as [Hov | Hk]; [| by apply Hk]. apply enter_woken; [done.. |]. rewrite Ho.
    intros He. apply word_changed in He; [| done..]. destruct Hsp; [congruence | lia].
Qed.

Lemma clear_inv w obs r : inv w -> wait w = WClear obs r ->
  inv (mkWorld (peer w) (own w) (sequence w) 0 (kern w)
         (match r with Err e => WFailed e | Ok TimedOut => WFinal obs | Ok Changed => WCheck end) (note w)
         (notified w) (base w) (overlap w)).
Proof.
  intros (Hc & Hwd & (Hf1 & Hf2 & Hf3) & Hy) Hw. unfold window in Hwd. rewrite Hw in Hf3, Hwd.
  refine (conj _ (conj _ (conj _ _))); [done | | |].
  - intros o Ho. simpl in Ho. destruct r as [[]|]; simplify_eq. by apply Hwd.
  - unfold flagged. simpl. rewrite Hf3. splits; destruct r as [[]|]; auto; lia.
  - unfold synced. simpl. by destruct r as [[]|].
Qed.

Lemma return_inv w obs c : inv w -> wait w = WParked obs ->
  inv (mkWorld (peer w) (own w) (sequence w) (waiters w) (k_leave c (kern w)).1 (WClear obs (k_leave c (kern w)).2)
         (note w) (notified w) (base w) (overlap w)).
Proof.
  intros (Hc & Hwd & (Hf1 & Hf2 & Hf3) & Hy) Hw. unfold window in Hwd. rewrite Hw in Hwd.
  refine (conj _ (conj _ (conj _ _))); [done | | | done].
  - intros o Ho. by apply Hwd.
  - unfold flagged. simpl. rewrite in_leave. splits.
Qed.

(** A step that only moves the program counter. *)
Ltac move_pc Hw Hu := apply set_wait_inv; rewrite ?Hw;
  [ assumption | by intros ?
  | intros ? Hsome; first [by left | by right | by destruct Hsome]
  | intros Hone; first [done | by destruct (Hu eq_refl Hone)]
  | done | try done ].

Lemma own_step_inv w w' : inv w -> own_step d capacity w = Some w' -> inv w'.
Proof.
  intros Hi. unfold own_step. pose proof (blocked_lim w (proj1 Hi)) as Hbl.
  assert (Hu : registered (wait w) = false -> waiters w = 1 -> False) by (intros Hr ?; rewrite (unregistered w Hi Hr) in *; done).
  destruct (wait w) as [| | obs | obs | obs | obs | obs | obs | | obs r | obs | |] eqn:Hw; try done.
  - rewrite Hbl. destruct (Z.leb_spec (peer w) (lim (own w))).
    + intros [= <-]. move_pc Hw Hu.
    + destruct (Z.ltb_spec (own w + 1) USIZE); [| done]. intros [= <-]. apply transfer_inv; [done | by rewrite Hw | lia..].
  - intros [= <-]. by apply observe_inv.
  - rewrite Hbl. destruct (Z.leb_spec (peer w) (lim (own w))).
    + intros [= <-]. move_pc Hw Hu.
    + destruct (Z.ltb_spec (own w + 1) USIZE); [| done]. intros [= <-]. apply transfer_inv; [done | by rewrite Hw | lia..].
  - intros [= <-]. move_pc Hw Hu.
  - intros [= <-]. destruct (negb _); move_pc Hw Hu.
  - intros [= <-]. by apply register_inv.
  - intros [= <-]. destruct (id Hi) as (Hc & Hwd & Hf & Hy). unfold synced, window in Hy, Hwd. rewrite Hw in Hy, Hwd.
    destruct (Hwd obs eq_refl) as (-> & Hb & _). destruct (Z.eqb_spec (sequence w) (base w mod U32)) as [He|He]; simpl.
    + apply word_changed in He; [| done..]. move_pc Hw Hu. unfold synced. simpl. intuition.
    + move_pc Hw Hu.
  - intros [= <-]. by apply enter_inv.
  - intros [= <-]. by apply clear_inv.
  - intros [= <-]. destruct (negb _); move_pc Hw Hu.
Qed.

Lemma event_step_inv w e w' : inv w -> step d capacity w e = Some w' -> inv w'.
Proof.
  intros Hi. pose proof (unregistered w Hi) as Hz.
  assert (Hu : registered (wait w) = false -> waiters w = 1 -> False) by (intros Hr ?; rewrite Hz in *; done).
  destruct e as [| | | c | r]; simpl; [by apply peer_step_inv | by apply own_step_inv | ..];
    destruct (wait w) as [| | | obs | | | | | obs | | | |] eqn:Hw; try done.
  - intros [= <-]. move_pc Hw Hu.
  - destruct (may_return c (kern w)); [| done]. pose proof (return_inv w obs c Hi Hw) as Hr.
    destruct (k_leave c (kern w)) as [k r]. by intros [= <-].
  - intros [= <-]. destruct r as [[]|]; move_pc Hw Hu.
Qed.

Lemma run_inv es : forall w w', inv w -> run d capacity w es = Some w' -> inv w'.
Proof.
  induction es as [|e es IH]; intros w w' Hi; simpl; [by intros [= <-] |].
  destruct (step d capacity w e) as [w1|] eqn:He; [| done]. simpl. apply IH. by apply (event_step_inv w e).
Qed.

Lemma init_inv : inv init.
Proof.
  refine (conj _ (conj _ (conj _ _))); [| done | | done].
  - unfold cursors, lim. simpl. destruct d; splits.
  - unfold flagged. simpl. rewrite in_new. splits.
Qed.

(** ** Finishing a notification *)

#[local] Abbreviation notify_step := (notify_step d capacity).

Lemma notify_step_keeps w : inv w ->
  inv (notify_step w) /\ wait (notify_step w) = wait w /\
  (parked (wait w) = true -> k_ready (kern w) = true \/ note w = NWake -> k_ready (kern (notify_step w)) = true).
Proof.
  intros Hi. destruct (id Hi) as (_ & _ & (_ & _ & Hf) & _).
  pose proof (wake_ok (kern w)) as Ho. pose proof (wake_parked (kern w)) as Hr. rewrite Hf in Hr.
  pose proof (peer_step_inv w) as Hs. unfold notify_step, peer_step in *.
  destruct (note w) eqn:Hn; simpl in *; try (by splits; intros ? [|]).
  - splits; [by apply Hs | by intros ? [|]].
  - splits; [by apply Hs | by intros ? [|]].
  - destruct (k_wake (kern w)) as [k r]. simpl in *. splits; [by apply Hs | auto].
Qed.

Lemma notify_step_swap w : note w = NSwap -> waiters w = 1 -> note (notify_step w) = NWake.
Proof. intros Hn Hc. unfold notify_step, peer_step. rewrite Hn, Hc. done. Qed.

Lemma notify_step_store w : note w = NStore -> note (notify_step w) = NSwap /\ waiters (notify_step w) = waiters w.
Proof. intros Hn. unfold notify_step, peer_step. by rewrite Hn. Qed.

(** Within three accesses a notification that will claim the waiter has woken it. *)
Lemma finish_ready w : inv w -> parked (wait w) = true ->
  k_ready (kern w) = true \/ note w = NWake \/ waiters w = 1 /\ (note w = NSwap \/ note w = NStore) ->
  k_ready (kern (finish_notify d capacity w)) = true.
Proof.
  intros Hi Hp Hc. unfold finish_notify.
  destruct (notify_step_keeps w Hi) as (Hi1 & Hw1 & Hr1). destruct (notify_step_keeps _ Hi1) as (Hi2 & Hw2 & Hr2).
  destruct (notify_step_keeps _ Hi2) as (_ & _ & Hr3). rewrite Hw2, Hw1 in Hr3. rewrite Hw1 in Hr2.
  destruct Hc as [Hc | [Hc | [Hc [Hn | Hn]]]]; [auto 10 | auto 10 | ..].
  - pose proof (notify_step_swap w Hn Hc). auto.
  - destruct (notify_step_store w Hn) as (Hn1 & Hc1). rewrite Hc in Hc1.
    pose proof (notify_step_swap _ Hn1 Hc1). auto.
Qed.

(** C7: a process parked in [push] or [pop] is not forgotten by the peer. In every
    reachable state in which this side is in the system call and the ring lets it go
    on, the notification in flight ends the call within its three accesses (or the
    call may end already), provided the parking object keeps a wake that finds nobody
    asleep (the FIFO and the event object do), or no notification was between its
    store and its swap when this side registered. *)
Theorem event_no_lost_wakeup es w obs :
  run d capacity init es = Some w -> wait w = WParked obs -> blocked d capacity (own w) (peer w) = false ->
  overlap w = false \/ Keeps K ->
  k_ready (kern (finish_notify d capacity w)) = true.
Proof.
  intros Hrun Hw Hb Hk. pose proof (run_inv es _ _ init_inv Hrun) as Hi.
  apply finish_ready; [done | by rewrite Hw |].
  destruct Hi as (Hc & Hwd & (Hf1 & _) & Hy). rewrite (blocked_lim w Hc) in Hb. apply Z.leb_gt in Hb.
  unfold window, synced in Hwd, Hy. rewrite Hw in Hwd, Hy. destruct (Hwd obs eq_refl) as (_ & _ & Hbl).
  specialize (Hbl eq_refl). destruct Hy as (Hy1 & Hy2), Hf1 as [Hz | Hz].
  - destruct (Hy2 Hk Hz); auto.
  - destruct Hc as (_ & _ & _ & _ & Hn & _). destruct (Hy1 Hz) as [He |]; [| auto].
    destruct (decide (note w = NStore)); [auto | lia].
Qed.

(** The flag is this side's alone: [wait] never finds another waiter. *)
Lemma single_waiter es w obs :
  run d capacity init es = Some w -> wait w = WSwap obs -> exists w', own_step d capacity w = Some w' /\ wait w' = WRecheck obs.
Proof.
  intros Hrun Hw. pose proof (run_inv es _ _ init_inv Hrun) as Hi.
  unfold own_step. rewrite Hw, (unregistered w Hi) by (by rewrite Hw). eauto.
Qed.

(** A wait that ends in a timeout found the word unchanged on its last load. *)
Lemma timed_out_unchanged es w obs w' :
  run d capacity init es = Some w -> wait w = WFinal obs -> own_step d capacity w = Some w' -> wait w' = WAsk ->
  notified w = base w.
Proof.
  intros Hrun Hw Hs Ha. pose proof (run_inv es _ _ init_inv Hrun) as (Hc & Hwd & _).
  unfold own_step, window in *. rewrite Hw in Hs, Hwd. destruct (Hwd obs eq_refl) as (-> & Hb & _).
  destruct (Z.eqb_spec (sequence w) (base w mod U32)) as [He|]; simplify_eq/=. by apply word_changed in He.
Qed.
End proofs.

Definition fifo_run : list act :=
  [EPeer; EPeer; EOwn; EOwn; EOwn; EOwn; EOwn; EOwn; EOwn; EOwn; EPeer; EPeer; EOwn; EPeer; EPeer].
Definition fifo_parked : World (fifo 16) :=
  mkWorld 2 1 2 0 (mkFifo 1 true) (WParked 1) NSwap 2 1 true.

Lemma event_no_lost_wakeup_witness :
  run ForData 8 init fifo_run = Some fifo_parked /\ overlap fifo_parked = true /\
  k_ready (kern (finish_notify ForData 8 fifo_parked)) = true.
Proof.
  split; [reflexivity |]. split; [reflexivity |].
  apply (event_no_lost_wakeup ForData 8 ltac:(lia) ltac:(lia) fifo_run fifo_parked 1);
    [reflexivity | reflexivity | reflexivity | right; apply fifo_keeps].
Defined.

(** Once the registration was claimed and the wake spent, no notification makes
    another one. *)
Lemma claimed_stays {K} `{Kernel K} d capacity n : forall w w' : World K,
  waiters w = 0 -> note w <> NWake -> run d capacity w (replicate n EPeer) = Some w' ->
  wait w' = wait w /\ kern w' = kern w.
Proof.
  induction n as [|n IH]; intros w w' Hz Hn; simpl; [by intros [= <-] |].
  destruct (peer_step d capacity w) as [w1|] eqn:Hp; [| done]. simpl. intros Hr.
  assert (waiters w1 = 0 /\ note w1 <> NWake /\ wait w1 = wait w /\ kern w1 = kern w) as (H1 & H2 & <- & <-).
  { unfold peer_step in Hp. rewrite Hz in Hp. destruct (note w); try done; [case_match | ..]; by simplify_eq/=. }
  by apply IH.
Qed.

(** C34: on the futex a wakeup can be lost. A notification that stored its cursor
    before this side observed the word claims the registration after this side has
    checked the word again and before it is in the system call: the wake finds nobody,
    the call sleeps on a word that is still the observed one, and the waiter flag stays
    zero. All later notifications of the peer, here seven descriptors up to the
    capacity, find no waiter and leave this side asleep; only the time limit of the
    call ends it. *)
Theorem futex_lost_wakeup : exists (es : list act) (w : World futex) (obs : Z),
  run ForData 8 init es = Some w /\ wait w = WParked obs /\ note w = NIdle /\ blocked ForData 8 (own w) (peer w) = false /\
  (exists w', run ForData 8 w (replicate 21 EPeer) = Some w' /\ peer w' = own w' + 8) /\
  (forall n w', run ForData 8 w (replicate n EPeer) = Some w' -> wait w' = WParked obs /\ k_ready (kern w') = false).
Proof.
  exists (fifo_run ++ [EPeer]), (mkWorld 2 1 2 0 FAsleep (WParked 1) NIdle 2 1 true), 1.
  splits; [eexists; by split; [vm_compute; reflexivity |] |].
  intros n w' Hr. apply claimed_stays in Hr; [| done..]. by destruct Hr as [-> ->].
Qed.

(** The time limits that reach the system calls: never zero or unlimited on Linux and
    macOS, never unlimited on Windows. *)
Lemma wait_for_bounds elapsed timeout t : wait_for elapsed timeout = Some t ->
  linux_timespec t = (0, t) /\ 0 < t <= LIVENESS_POLL_INTERVAL /\ 1 <= macos_millis t <= 10 /\ 0 <= windows_millis t <= 10.
Proof.
  unfold wait_for. destruct (Z.leb_spec timeout elapsed); [done |]. intros [= <-].
  set (t := _ `min` _). assert (0 < t <= 10000000) by (unfold t, LIVENESS_POLL_INTERVAL; lia). clearbody t.
  unfold linux_timespec, macos_millis, windows_millis, as_millis, LIVENESS_POLL_INTERVAL.
  pose proof (Z.div_le_mono t 10000000 1000000 ltac:(lia) ltac:(lia)) as Hd. change (10000000 / 1000000) with 10 in Hd.
  pose proof (Z.div_pos t 1000000 ltac:(lia) ltac:(lia)).
  rewrite (Z.div_small t), (Z.mod_small t) by lia. destruct (Z.eqb_spec t 0); splits.
Qed.

(** ** Names *)

Lemma hex_digits_spec fuel : forall n acc, 0 <= n -> Forall (fun b => 0 < b <= 0x7F) acc ->
  Forall (fun b => 0 < b <= 0x7F) (hex_digits fuel n acc) /\ (length (hex_digits fuel n acc) <= length acc + fuel)%nat.
Proof.
  induction fuel as [|fuel IH]; intros n acc Hn Ha; simpl; [split; [done | lia] |].
  assert (Hd : 0 < session.hex_digit (n mod 16) <= 0x7F)
    by (pose proof (Z.mod_pos_bound n 16); unfold session.hex_digit; zbool; lia).
  case_match; [split; [by constructor | simpl; lia] |].
  destruct (IH (n / 16) (session.hex_digit (n mod 16) :: acc)) as [H1 H2]; [by apply Z.div_pos | by constructor |].
  split; [done | simpl in H2; lia].
Qed.

Lemma hex_length token : length (session.hex token) = (2 * length token)%nat.
Proof. induction token; simpl in *; [done |]. unfold session.hex in *. simpl. lia. Qed.

(** The name the creator generates is the one the other process reads. *)
Lemma event_name_roundtrip p token id : p <> Linux -> length token = 16%nat -> Forall is_byte token -> 0 <= id ->
  exists st, event_create p token id = Ok st /\ event_open p st = Ok (event_name p token id).
Proof.
  intros Hp Hl Ht Hid. set (nm := event_name p token id).
  destruct (hex_digits_spec 16 id [] Hid ltac:(constructor)) as [Hd Hdl]. fold (lower_hex id) in Hd, Hdl. simpl in Hdl.
  assert (Ha : Forall (fun b => 0 < b <= 0x7F) nm).
  { unfold nm, event_name. repeat apply Forall_app_2; [| by apply session.hex_ascii | by constructor | done].
    destruct p; simpl; repeat (constructor; [lia |]); constructor. }
  assert (Hn : (0 < length nm < 96)%nat).
  { unfold nm, event_name. rewrite !length_app, hex_length, Hl. destruct p; simpl; [done | lia..]. }
  destruct (session.ascii_utf8 nm Ha) as (Hu & Hz & _).
  assert (Hw : write_name fresh_state nm = Ok (mkShared 0 0 0 (Z.of_nat (length nm)) (list_inserts 0 (nm ++ [0]) (replicate 96 0)))).
  { unfold write_name, EVENT_NAME_LEN. zbool; simpl; [lia.. | done]. }
  assert (Ht' : take (length nm) (list_inserts 0 (nm ++ [0]) (replicate 96 0)) = nm).
  { apply list_eq. intros i. destruct (decide (i < length nm)%nat) as [Hi|Hi].
    - rewrite lookup_take_lt by done. rewrite inserts_lookup, length_app by (rewrite length_replicate; lia). simpl.
      rewrite Nat.sub_0_r, lookup_app_l by lia. rewrite decide_True by lia. done.
    - rewrite lookup_take_ge, lookup_ge_None_2 by lia. done. }
  set (buf := list_inserts 0 (nm ++ [0]) (replicate 96 0)) in *. clearbody buf.
  assert (Hr : read_name (mkShared EVENT_MAGIC 0 0 (Z.of_nat (length nm)) buf) = Ok nm).
  { unfold read_name, EVENT_NAME_LEN. cbn [name_len name_bytes]. rewrite Nat2Z.id, Ht', Hu. zbool; simpl; [lia.. | done]. }
  exists (mkShared EVENT_MAGIC 0 0 (Z.of_nat (length nm)) buf). unfold event_create, event_open. fold nm. clearbody nm.
  rewrite Hw, Hr. cbn. rewrite Hz. by destruct p.
Qed.

End event.
