(* ===== verification/Declaration.v ===== *)
(** * Declarations: [src/src/declaration.rs]

    A [Channel] is a declaration: a numeric [Shape], a routing policy, an
    endpoint name, and eight type parameters that select the machinery. The type
    parameters are the data [axes] here. A builder method is a [call]; it exists
    for some axes only, and [apply] answers [None] for a call that the compiler
    rejects. [build] is a chain of calls on [Channel::new()], and [has_open] is
    the table of the [impl] blocks that define [open]. *)

From stdpp Require Import prelude strings.
From S2P Require Import Prelude.
Local Open Scope Z_scope.
#[local] Set Warnings "-clear-no-such-hyp".

Module declaration.

(** ** The axes *)

Inductive engine : Type := Claim | Lanes.
Inductive membership : Type := Locked | LockFree.
Inductive reclaim : Type := DropRings | Pooled.
Inductive broker : Type := Spawned | Manual.

Inductive topology : Type :=
| MpscFixed
| MpscPool
| MpscDynamic (m : membership) (q : reclaim)
| Mpmc (e : engine)
| MpmcDynamicLocked
| MpmcDynamicArray
| MpmcBrokered (run : broker)
| Broadcast
| ProcessDuplex.

Inductive backend : Type := Ring | Seg.
Inductive execution : Type := Sync | Async.
Inductive wait : Type := Park | StdThread | Hybrid | Spin | SpinYield | Task.
Inductive routing : Type := RoundRobin | Route | PubSub.
Inductive transport : Type := Local | ProcessCreate | ProcessAttach.
Inductive codec : Type := Native | Leased | Bytes | Pod | Encoded.

#[export] Instance engine_eq_dec : EqDecision engine.
Proof. solve_decision. Defined.
#[export] Instance membership_eq_dec : EqDecision membership.
Proof. solve_decision. Defined.
#[export] Instance reclaim_eq_dec : EqDecision reclaim.
Proof. solve_decision. Defined.
#[export] Instance broker_eq_dec : EqDecision broker.
Proof. solve_decision. Defined.
#[export] Instance topology_eq_dec : EqDecision topology.
Proof. solve_decision. Defined.

(** The type parameters of a [Channel] but for its payload. *)
Record axes := mkAxes {
  ax_topology : topology;
  ax_backend : backend;
  ax_execution : execution;
  ax_wait : wait;
  ax_routing : routing;
  ax_transport : transport;
  ax_codec : codec
}.

(** ** The shape *)

(** A [timeout] is in nanoseconds. *)
Record Shape := mkShape {
  producers : Z;
  consumers : Z;
  brokers : Z;
  capacity : option Z;
  batch : Z;
  max_producers : Z;
  max_readers : Z;
  recycling : option Z;
  timeout : Z;
  lock_memory : bool;
  total_bytes : Z;
  chunk_bytes : Z;
  slots : Z;
  transfer_id : Z;
  array_producers : Z
}.

Definition Shape_default : Shape :=
  mkShape 1 1 1 None 64 64 64 None 30000000000 false 0 (64 * 1024) 8 1 0.

(** A declaration: the consumer mask of a [PubSub] policy is bound by [open]
    only, and a policy's closure is not part of the model. *)
Record Channel := mkChannel {
  ch_axes : axes;
  shape : Shape;
  consumer_mask : Z;
  endpoint : string
}.

(** [Channel::new]. *)
Definition Channel_new : Channel :=
  mkChannel (mkAxes MpscFixed Ring Sync Park RoundRobin Local Native) Shape_default 0 EmptyString.

(** ** Builder methods *)

Inductive call : Type :=
| c_mpsc_fixed | c_mpsc_pool | c_mpsc_dynamic | c_mpmc | c_mpmc_dynamic_locked
| c_mpmc_dynamic_array (max_producers : Z) | c_mpmc_brokered | c_broadcast
| c_backend (b : backend) | c_async | c_sync | c_wait (w : wait)
| c_capacity (n : Z) | c_batch (n : Z)
| c_producers (n : Z) | c_consumers (n : Z) | c_brokers (n : Z)
| c_max_producers (n : Z) | c_max_readers (n : Z) | c_expected_producers (n : Z)
| c_membership (m : membership) | c_recycling (n : Z) | c_leased | c_engine (e : engine)
| c_route | c_pubsub | c_manual
| c_ipc | c_attach | c_endpoint (name : string)
| c_shape (total chunk slots : Z) | c_transfer_id (n : Z)
| c_timeout (n : Z) | c_lock_memory (b : bool) | c_bytes | c_pod | c_codec.

(** New values of the numeric fields. *)
Definition set_producers (s : Shape) (n : Z) : Shape :=
  mkShape n (consumers s) (brokers s) (capacity s) (batch s) (max_producers s) (max_readers s)
    (recycling s) (timeout s) (lock_memory s) (total_bytes s) (chunk_bytes s) (slots s)
    (transfer_id s) (array_producers s).
Definition set_consumers (s : Shape) (n : Z) : Shape :=
  mkShape (producers s) n (brokers s) (capacity s) (batch s) (max_producers s) (max_readers s)
    (recycling s) (timeout s) (lock_memory s) (total_bytes s) (chunk_bytes s) (slots s)
    (transfer_id s) (array_producers s).
Definition set_brokers (s : Shape) (n : Z) : Shape :=
  mkShape (producers s) (consumers s) n (capacity s) (batch s) (max_producers s) (max_readers s)
    (recycling s) (timeout s) (lock_memory s) (total_bytes s) (chunk_bytes s) (slots s)
    (transfer_id s) (array_producers s).
Definition set_capacity (s : Shape) (n : Z) : Shape :=
  mkShape (producers s) (consumers s) (brokers s) (Some n) (batch s) (max_producers s) (max_readers s)
    (recycling s) (timeout s) (lock_memory s) (total_bytes s) (chunk_bytes s) (slots s)
    (transfer_id s) (array_producers s).
Definition set_batch (s : Shape) (n : Z) : Shape :=
  mkShape (producers s) (consumers s) (brokers s) (capacity s) n (max_producers s) (max_readers s)
    (recycling s) (timeout s) (lock_memory s) (total_bytes s) (chunk_bytes s) (slots s)
    (transfer_id s) (array_producers s).
Definition set_max_producers (s : Shape) (n : Z) : Shape :=
  mkShape (producers s) (consumers s) (brokers s) (capacity s) (batch s) n (max_readers s)
    (recycling s) (timeout s) (lock_memory s) (total_bytes s) (chunk_bytes s) (slots s)
    (transfer_id s) (array_producers s).
Definition set_max_readers (s : Shape) (n : Z) : Shape :=
  mkShape (producers s) (consumers s) (brokers s) (capacity s) (batch s) (max_producers s) n
    (recycling s) (timeout s) (lock_memory s) (total_bytes s) (chunk_bytes s) (slots s)
    (transfer_id s) (array_producers s).
Definition set_recycling (s : Shape) (n : Z) : Shape :=
  mkShape (producers s) (consumers s) (brokers s) (capacity s) (batch s) (max_producers s) (max_readers s)
    (Some n) (timeout s) (lock_memory s) (total_bytes s) (chunk_bytes s) (slots s)
    (transfer_id s) (array_producers s).
Definition set_timeout (s : Shape) (n : Z) : Shape :=
  mkShape (producers s) (consumers s) (brokers s) (capacity s) (batch s) (max_producers s) (max_readers s)
    (recycling s) n (lock_memory s) (total_bytes s) (chunk_bytes s) (slots s)
    (transfer_id s) (array_producers s).
Definition set_lock_memory (s : Shape) (b : bool) : Shape :=
  mkShape (producers s) (consumers s) (brokers s) (capacity s) (batch s) (max_producers s) (max_readers s)
    (recycling s) (timeout s) b (total_bytes s) (chunk_bytes s) (slots s)
    (transfer_id s) (array_producers s).
Definition set_stream (s : Shape) (total chunk n : Z) : Shape :=
  mkShape (producers s) (consumers s) (brokers s) (capacity s) (batch s) (max_producers s) (max_readers s)
    (recycling s) (timeout s) (lock_memory s) total chunk n
    (transfer_id s) (array_producers s).
Definition set_transfer_id (s : Shape) (n : Z) : Shape :=
  mkShape (producers s) (consumers s) (brokers s) (capacity s) (batch s) (max_producers s) (max_readers s)
    (recycling s) (timeout s) (lock_memory s) (total_bytes s) (chunk_bytes s) (slots s)
    n (array_producers s).
Definition set_array_producers (s : Shape) (n : Z) : Shape :=
  mkShape (producers s) (consumers s) (brokers s) (capacity s) (batch s) (max_producers s) (max_readers s)
    (recycling s) (timeout s) (lock_memory s) (total_bytes s) (chunk_bytes s) (slots s)
    (transfer_id s) n.

(** The private [axes] method: other parameters, the same configuration. *)
Definition with_axes (c : Channel) (a : axes) : Channel :=
  mkChannel a (shape c) (consumer_mask c) (endpoint c).
Definition with_shape (c : Channel) (s : Shape) : Channel :=
  mkChannel (ch_axes c) s (consumer_mask c) (endpoint c).

Definition to_topology (c : Channel) (t : topology) : Channel :=
  let a := ch_axes c in
  with_axes c (mkAxes t (ax_backend a) (ax_execution a) (ax_wait a) (ax_routing a) (ax_transport a) (ax_codec a)).
Definition to_wait (c : Channel) (e : execution) (w : wait) : Channel :=
  let a := ch_axes c in
  with_axes c (mkAxes (ax_topology a) (ax_backend a) e w (ax_routing a) (ax_transport a) (ax_codec a)).
Definition to_codec (c : Channel) (x : codec) : Channel :=
  let a := ch_axes c in
  with_axes c (mkAxes (ax_topology a) (ax_backend a) (ax_execution a) (ax_wait a) (ax_routing a) (ax_transport a) x).
Definition to_transport (c : Channel) (t : transport) (name : string) : Channel :=
  let a := ch_axes c in
  mkChannel (mkAxes (ax_topology a) (ax_backend a) (ax_execution a) (ax_wait a) (ax_routing a) t (ax_codec a))
    (shape c) (consumer_mask c) name.
Definition to_routing (c : Channel) (r : routing) : Channel :=
  let a := ch_axes c in
  mkChannel (mkAxes (ax_topology a) (ax_backend a) (ax_execution a) (ax_wait a) r (ax_transport a) (ax_codec a))
    (shape c) 0 (endpoint c).

(** [sync_default!]: the waiter a topology has when it leaves async. *)
Definition sync_default (t : topology) : wait :=
  match t with
  | MpscFixed | MpscPool | MpscDynamic _ _ | ProcessDuplex => Park
  | _ => SpinYield
  end.

(** A competing-consumer or broadcast topology also selects [SpinYield]. *)
Definition to_spinning (c : Channel) (t : topology) : Channel :=
  to_wait (to_topology c t) (ax_execution (ch_axes c)) SpinYield.

Definition is_process (a : axes) : bool := bool_decide (ax_topology a = ProcessDuplex).

(** The methods every declaration has, and those of a synchronous or async one. *)
Definition apply_general (k : call) (c : Channel) : option Channel :=
  let a := ch_axes c in
  let s := shape c in
  match k with
  | c_mpsc_fixed => Some (to_topology c MpscFixed)
  | c_mpsc_pool => Some (to_topology c MpscPool)
  | c_mpsc_dynamic => Some (to_topology c (MpscDynamic Locked DropRings))
  | c_mpmc => Some (to_spinning c (Mpmc Claim))
  | c_mpmc_dynamic_locked => Some (to_spinning c MpmcDynamicLocked)
  | c_mpmc_dynamic_array n =>
      Some (to_spinning (with_shape c (set_array_producers s n)) MpmcDynamicArray)
  | c_mpmc_brokered => Some (to_spinning c (MpmcBrokered Spawned))
  | c_broadcast => Some (to_spinning c Broadcast)
  | c_backend b =>
      Some (with_axes c (mkAxes (ax_topology a) b (ax_execution a) (ax_wait a) (ax_routing a)
                           (ax_transport a) (ax_codec a)))
  | c_async => Some (to_wait c Async Task)
  | c_sync =>
      match ax_execution a with
      | Sync => Some c
      | Async => Some (to_wait c Sync (sync_default (ax_topology a)))
      end
  | c_wait w =>
      match ax_execution a with Sync => Some (to_wait c Sync w) | Async => None end
  | c_capacity n => Some (with_shape c (set_capacity s n))
  | c_batch n => Some (with_shape c (set_batch s n))
  | _ => None
  end.

(** The methods of one local topology. *)
Definition apply_topology (k : call) (c : Channel) : option Channel :=
  let a := ch_axes c in
  let s := shape c in
  match k with
  | c_producers n =>
      match ax_topology a with
      | MpscFixed | Mpmc _ | MpmcBrokered _ => Some (with_shape c (set_producers s n))
      | _ => None
      end
  | c_consumers n =>
      match ax_topology a with
      | Mpmc _ | MpmcDynamicLocked | MpmcDynamicArray | MpmcBrokered _ =>
          Some (with_shape c (set_consumers s n))
      | _ => None
      end
  | c_brokers n =>
      match ax_topology a with
      | MpmcBrokered _ => Some (with_shape c (set_brokers s n))
      | _ => None
      end
  | c_max_producers n =>
      match ax_topology a with
      | MpscPool => Some (with_shape c (set_max_producers s n))
      | _ => None
      end
  | c_max_readers n =>
      match ax_topology a with
      | Broadcast => Some (with_shape c (set_max_readers s n))
      | _ => None
      end
  | c_expected_producers n =>
      match ax_topology a with
      | MpscDynamic _ _ | MpmcDynamicLocked => Some (with_shape c (set_producers s n))
      | _ => None
      end
  | c_membership m =>
      match ax_topology a with
      | MpscDynamic _ q => Some (to_topology c (MpscDynamic m q))
      | _ => None
      end
  | c_recycling n =>
      match ax_topology a with
      | MpscDynamic m _ => Some (to_topology (with_shape c (set_recycling s n)) (MpscDynamic m Pooled))
      | _ => None
      end
  | c_leased =>
      match ax_topology a, ax_codec a with
      | Mpmc Claim, Native => Some (to_codec c Leased)
      | _, _ => None
      end
  | c_engine e =>
      match ax_topology a with
      | Mpmc _ => Some (to_topology c (Mpmc e))
      | _ => None
      end
  | c_route =>
      match ax_topology a, ax_routing a with
      | MpmcBrokered _, RoundRobin => Some (to_routing c Route)
      | _, _ => None
      end
  | c_pubsub =>
      match ax_topology a, ax_routing a with
      | MpmcBrokered _, RoundRobin => Some (to_routing c PubSub)
      | _, _ => None
      end
  | c_manual =>
      match ax_topology a with
      | MpmcBrokered Spawned => Some (to_topology c (MpmcBrokered Manual))
      | _ => None
      end
  | _ => None
  end.

(** The selection of a process channel and its methods. *)
Definition apply_process (k : call) (c : Channel) : option Channel :=
  let a := ch_axes c in
  let s := shape c in
  match k with
  | c_ipc =>
      Some (mkChannel (mkAxes ProcessDuplex Ring (ax_execution a) Park (ax_routing a) ProcessCreate Bytes)
              s (consumer_mask c) "default")
  | c_attach =>
      if is_process a then
        match ax_transport a with
        | ProcessCreate => Some (to_transport c ProcessAttach (endpoint c))
        | _ => None
        end
      else None
  | c_endpoint name =>
      if is_process a then
        match ax_transport a with
        | ProcessCreate | ProcessAttach => Some (to_transport c (ax_transport a) name)
        | Local => None
        end
      else None
  | c_shape t b n =>
      if is_process a then
        match ax_transport a with
        | ProcessCreate => Some (with_shape c (set_stream s t b n))
        | _ => None
        end
      else None
  | c_transfer_id n =>
      if is_process a then
        match ax_transport a with
        | ProcessCreate => Some (with_shape c (set_transfer_id s n))
        | _ => None
        end
      else None
  | c_timeout n => if is_process a then Some (with_shape c (set_timeout s n)) else None
  | c_lock_memory b => if is_process a then Some (with_shape c (set_lock_memory s b)) else None
  | c_bytes => if is_process a then Some (to_codec c Bytes) else None
  | c_pod => if is_process a then Some (to_codec c Pod) else None
  | c_codec => if is_process a then Some (to_codec c Encoded) else None
  | _ => None
  end.

Definition apply (k : call) (c : Channel) : option Channel :=
  match apply_general k c with
  | Some c' => Some c'
  | None => match apply_topology k c with Some c' => Some c' | None => apply_process k c end
  end.

(** A chain of builder calls on [Channel::new()]. *)
Fixpoint chain (ks : list call) (c : Channel) : option Channel :=
  match ks with
  | [] => Some c
  | k :: ks' => c1 ← apply k c; chain ks' c1
  end.
Definition build (ks : list call) : option Channel := chain ks Channel_new.

(** ** The [impl] blocks of [open.rs] *)

(** The waiters that implement [SyncKernel]. *)
Definition sync_kernel (w : wait) : bool :=
  match w with Park | StdThread | Hybrid | Spin => true | SpinYield | Task => false end.

Definition is_task (w : wait) : bool := match w with Task => true | _ => false end.
Definition is_spin_yield (w : wait) : bool := match w with SpinYield => true | _ => false end.

Definition has_open (a : axes) : bool :=
  match a with
  | mkAxes (MpscFixed | MpscPool | MpscDynamic Locked _) Ring Sync w RoundRobin Local Native => sync_kernel w
  | mkAxes (MpscFixed | MpscPool | MpscDynamic Locked _) Ring Async w RoundRobin Local Native => is_task w
  | mkAxes (MpscDynamic LockFree _) Ring Sync w RoundRobin Local Native => sync_kernel w
  | mkAxes (Mpmc Claim) Ring Sync SpinYield RoundRobin Local Leased => true
  | mkAxes (Mpmc _ | MpmcDynamicLocked | MpmcDynamicArray) _ Sync SpinYield RoundRobin Local Native => true
  | mkAxes (MpmcBrokered _) _ Sync SpinYield _ Local Native => true
  | mkAxes Broadcast Ring Sync SpinYield RoundRobin Local Native => true
  | mkAxes ProcessDuplex Ring Sync Park RoundRobin (ProcessCreate | ProcessAttach) (Bytes | Pod | Encoded) => true
  | _ => false
  end.

(** What a call writes into the shape, whatever the axes are. *)
Definition numeric (s : Shape) (k : call) : Shape :=
  match k with
  | c_mpmc_dynamic_array n => set_array_producers s n
  | c_capacity n => set_capacity s n
  | c_batch n => set_batch s n
  | c_producers n | c_expected_producers n => set_producers s n
  | c_consumers n => set_consumers s n
  | c_brokers n => set_brokers s n
  | c_max_producers n => set_max_producers s n
  | c_max_readers n => set_max_readers s n
  | c_recycling n => set_recycling s n
  | c_shape t b n => set_stream s t b n
  | c_transfer_id n => set_transfer_id s n
  | c_timeout n => set_timeout s n
  | c_lock_memory b => set_lock_memory s b
  | _ => s
  end.

(** What the type parameters of a declaration say about its configuration. *)
Record typed (c : Channel) : Prop := {
  t_pooled m : ax_topology (ch_axes c) = MpscDynamic m Pooled -> recycling (shape c) <> None;
  t_mask : consumer_mask c = 0;
  t_process : ax_topology (ch_axes c) = ProcessDuplex -> ax_transport (ch_axes c) <> Local;
  t_local : ax_transport (ch_axes c) = Local -> endpoint c = EmptyString /\
    (ax_codec (ch_axes c) = Native \/ ax_codec (ch_axes c) = Leased);
  t_async : ax_execution (ch_axes c) = Async -> 
    ax_wait (ch_axes c) = Task \/ ax_wait (ch_axes c) = SpinYield \/ ax_wait (ch_axes c) = Park
}.

(** What a call keeps: the shape but for its own field, and the typing. *)
Definition keeps (k : call) (c c' : Channel) : Prop :=
  shape c' = numeric (shape c) k /\ (typed c -> typed c').

#[local] Ltac by_cases Ha :=
  simpl in Ha; repeat (case_match; simplify_eq); try done; simplify_eq; (split; [done|]);
  intros [H1 H2 H3 H4 H5]; simpl in *; constructor; simpl in *; try done; try naive_solver.

Lemma general_keeps k c c' : apply_general k c = Some c' -> keeps k c c'.
Proof. destruct c as [[t b e w r tr x] s mask nm]. intros Ha. destruct k; by_cases Ha. Qed.

Lemma topology_keeps k c c' : apply_topology k c = Some c' -> keeps k c c'.
Proof. destruct c as [[t b e w r tr x] s mask nm]. intros Ha. destruct k; by_cases Ha. Qed.

Lemma process_keeps k c c' : apply_process k c = Some c' -> keeps k c c'.
Proof.
  destruct c as [[t b e w r tr x] s mask nm]. intros Ha. unfold apply_process, is_process in Ha. simpl in Ha.
  destruct (bool_decide_reflect (t = ProcessDuplex)) as [->|Hne]; destruct k; by_cases Ha.
Qed.

Lemma apply_keeps k c c' : apply k c = Some c' -> keeps k c c'.
Proof.
  unfold apply. destruct (apply_general k c) eqn:E1; [intros [= <-]; by apply general_keeps|].
  destruct (apply_topology k c) eqn:E2; [intros [= <-]; by apply topology_keeps|]. apply process_keeps.
Qed.

Lemma chain_typed ks c c' :
  chain ks c = Some c' -> typed c -> typed c' /\ shape c' = foldl numeric (shape c) ks.
Proof.
  revert c. induction ks as [|k ks IH]; intros c; cbn [chain foldl]; [by intros [= <-]|].
  destruct (apply k c) as [c1|] eqn:E; [|done]. intros Hc Ht.
  destruct (apply_keeps _ _ _ E) as [Es Et]. rewrite <- Es. apply IH; [done|]. by apply Et.
Qed.

(** The declarations the modules start from: [channel()] and [attach()] of
    [mpsc::fixed], [mpsc::pool], [mpsc::dynamic], [mpmc::brokerless],
    [mpmc::lanes], [brokerless::leased], [mpmc::brokered], [mpmc::broadcast] and
    [ipc] with its [pod] and [codec] shorthands. *)
Definition entry_points : list (list call) :=
  [[]; [c_mpsc_pool]; [c_mpsc_dynamic]; [c_mpmc]; [c_mpmc; c_engine Lanes]; [c_mpmc; c_leased];
   [c_mpmc_brokered]; [c_broadcast]; [c_ipc]; [c_ipc; c_attach]; [c_ipc; c_pod]; [c_ipc; c_attach; c_pod];
   [c_ipc; c_codec]; [c_ipc; c_attach; c_codec]].

(** C32: type-state of the declarations. Whatever chain of builder calls the
    compiler accepts, the numeric configuration is that of the numeric calls in
    their order, however axis selections are interleaved with them; a pooled
    dynamic topology always carries its pool size, so that the missing-size error
    of [open] cannot be reached; a [PubSub] mask is unbound, a process topology
    never keeps the local transport, and an async declaration waits on a waiter
    that [async] or a later topology chose. [open] exists for an async
    declaration only with task wakeups, on an MPSC topology with locked
    membership, and never for a local declaration with a process codec. Every
    module's starting declaration can be opened. *)
Theorem builder_typed (ks : list call) (c : Channel) :
  build ks = Some c ->
  typed c /\ shape c = foldl numeric Shape_default ks /\
  (has_open (ch_axes c) = true -> ax_execution (ch_axes c) = Async ->
     ax_wait (ch_axes c) = Task /\
     (ax_topology (ch_axes c) = MpscFixed \/ ax_topology (ch_axes c) = MpscPool \/
      exists q, ax_topology (ch_axes c) = MpscDynamic Locked q)) /\
  (has_open (ch_axes c) = true -> ax_transport (ch_axes c) = Local <-> ax_topology (ch_axes c) <> ProcessDuplex) /\
  Forall (fun e => exists c0, build e = Some c0 /\ has_open (ch_axes c0) = true) entry_points.
Proof.
  intros Hb. assert (typed Channel_new) as Hn by (constructor; simpl; naive_solver).
  destruct (chain_typed ks _ _ Hb Hn) as [Ht Hs]. split; [done|]. split; [done|].
  clear Hs Hb. destruct Ht as [_ _ Hp _ _]. destruct c as [[t b e w r tr x] s m nm]. simpl in *. split; [|split].
  - intros Ho ->. destruct t as [| |[|] ?|[|]| | |[|]| |], b, w, r, tr, x; try done; naive_solver.
  - intros Ho. split; [intros E1 E2; exact (Hp E2 E1)|]. intros Hne.
    destruct t as [| |[|] ?|[|]| | |[|]| |], b, e, w, r, tr, x; done.
  - repeat constructor; eexists; split; reflexivity.
Qed.

(** A pooled, lock-free dynamic MPSC channel declared in a mixed order. *)
Definition sample_chain : list call :=
  [c_capacity 8; c_mpsc_dynamic; c_batch 4; c_async; c_recycling 2; c_sync; c_membership LockFree;
   c_wait Spin; c_expected_producers 3].

Lemma builder_typed_witness :
  exists c, build sample_chain = Some c /\ has_open (ch_axes c) = true /\ typed c /\
    shape c = mkShape 3 1 1 (Some 8) 4 64 64 (Some 2) 30000000000 false 0 65536 8 1 0.
Proof.
  eexists. split; [reflexivity|]. split; [reflexivity|].
  destruct (builder_typed sample_chain _ eq_refl) as (H1 & H2 & _). split; [exact H1|exact H2].
Defined.
End declaration.
