(* ===== verification/Open.v ===== *)
(** * Opening: [src/src/open.rs]

    What [open] does with a declaration's [Shape]: the capacity it chooses, the
    checks it makes, and the engine it builds. Each function here is one [impl]
    block (or the private function it calls); the axes of [Declaration.v] say which
    one a declaration reaches. A result is an [outcome] of a [Result]: a refused
    shape is [OK (Err _)], a panic of an engine's constructor is [PANIC].

    [size_T] is the size of the payload type and [bounded] the backend's constant
    [BOUNDED_CAPACITY]. The sizes of the endpoint types, which the compiler chooses,
    are a parameter ([Layouts]): [Vec::with_capacity] and a [collect] of known length
    panic when the elements exceed the largest allocation. Memory that runs out is
    not modelled. *)

From stdpp Require Import prelude strings.
From S2P Require Import Prelude Batch Backend BackendRing Rings Staged Brokerless Lanes Targets Brokered Mpsc MpscPool.
From S2P Require Import Broadcast Declaration IpcFrame IpcArena IpcTransfer IpcSetup IpcSession.
Local Open Scope Z_scope.
Local Open Scope prescient_scope.

Module open.
Import declaration.

(** [OpenError]: an invalid shape, or what the operating system answered. *)
Inductive OpenError (E : Type) : Type :=
| Invalid (message : string)
| Spawn (error : E)
| Io (error : E).
Arguments Invalid {E} message.
Arguments Spawn {E} error.
Arguments Io {E} error.

(** ** Checks and capacities *)

Section shape.
Context {E : Type}.

Definition validate_common (capacity batch : Z) : result unit (OpenError E) :=
  if capacity =? 0 then Err (Invalid "channel capacity must be non-zero") else
  if bool_decide (checked_next_power_of_two capacity = None)
  then Err (Invalid "channel capacity overflows its ring shape") else
  if batch =? 0 then Err (Invalid "channel batch must be non-zero") else
  Ok tt.
End shape.

Definition DEFAULT_CAPACITY : Z := 1024.
Definition RING_RESIDENT_TARGET_BYTES : Z := 1024 * 1024.

Definition capacity_or_default (configured : option Z) : Z := default DEFAULT_CAPACITY configured.

Definition quantized_capacity (slots : Z) : Z :=
  if slots <=? 127 then 64 else
  if slots <=? 511 then 256 else
  if slots <=? 2047 then 1024 else 4096.

Definition automatic_ring_capacity (size_T lanes : Z) : Z :=
  let payload_bytes := Z.max size_T 1 in
  let slots := RING_RESIDENT_TARGET_BYTES / payload_bytes / Z.max lanes 1 in
  quantized_capacity slots.

Definition native_capacity (size_T : Z) (bounded : bool) (configured : option Z) (producers consumers : Z) : Z :=
  match configured with
  | Some c => c
  | None =>
      if bounded then automatic_ring_capacity size_T (Z.max producers consumers) else DEFAULT_CAPACITY
  end.

Definition leased_capacity (size_T : Z) (configured : option Z) (producers consumers batch : Z) : Z :=
  match configured with
  | Some c => c
  | None =>
      let payload_bytes := Z.max size_T 1 in
      let slots := RING_RESIDENT_TARGET_BYTES * Z.max consumers 1 / (payload_bytes * Z.max producers 1) in
      let maximum := if payload_bytes <=? 64 then 4096 else 1024 in
      let capacity := Z.min (quantized_capacity slots) maximum in
      if (batch =? 0) || is_multiple_of capacity batch then capacity
      else if capacity <? batch then batch
      else div_ceil capacity batch * batch
  end.

(** ** Endpoint vectors *)

(** The sizes of an engine's endpoint types in bytes. *)
Record Layouts := mkLayouts {
  sz_tx : Z;
  sz_rx : Z;
  sz_slot : Z;
  sz_shard : Z;
  sz_producer : Z;
  sz_consumer : Z;
  sz_broker : Z;
  sz_vec : Z;
  sz_ptr : Z
}.

(** Vectors of [n] elements of [size] bytes each. *)
Definition fits (l : list (Z * Z)) : bool := forallb (fun '(n, size) => n * size <=? ISIZE_MAX) l.
Definition vectors (l : list (Z * Z)) : outcome unit := if fits l then OK tt else PANIC.

Definition fixed_vectors (L : Layouts) (s : Shape) : list (Z * Z) :=
  [(producers s, sz_producer L); (producers s, sz_shard L)].
Definition pool_vectors (L : Layouts) (s : Shape) : list (Z * Z) :=
  [(max_producers s, sz_tx L); (max_producers s, sz_shard L)].
Definition recycling_vectors (L : Layouts) (s : Shape) : list (Z * Z) :=
  match recycling s with Some n => [(n, sz_shard L)] | None => [] end.
Definition claim_vectors (L : Layouts) (s : Shape) : list (Z * Z) :=
  [(producers s, sz_tx L); (producers s, sz_slot L); (producers s, sz_producer L); (consumers s, sz_consumer L)].
Definition locked_vectors (L : Layouts) (s : Shape) : list (Z * Z) := [(consumers s, sz_consumer L)].
Definition array_vectors (L : Layouts) (s : Shape) : list (Z * Z) :=
  [(array_producers s, sz_ptr L); (consumers s, sz_consumer L)].
Definition lanes_vectors (L : Layouts) (s : Shape) : list (Z * Z) :=
  [(producers s, sz_vec L); (consumers s, sz_tx L); (consumers s, sz_vec L); (producers s, sz_rx L);
   (producers s, sz_producer L); (consumers s, sz_consumer L)].
Definition brokered_vectors (L : Layouts) (s : Shape) : list (Z * Z) :=
  [(producers s, sz_producer L); (brokers s, sz_vec L); (consumers s, sz_vec L); (brokers s, sz_broker L);
   (consumers s, sz_tx L); (consumers s, sz_consumer L)].

(** ** MPSC *)

Section mpsc_open.
Context {T E : Type} (L : Layouts) (size_T : Z).
#[local] Abbreviation C := (ring.Chan T).
#[local] Instance ring_storage : SpscBackend T C := ring.ring_backend size_T.

Definition fixed (s : Shape) : outcome (result (mpsc.World T C) (OpenError E)) :=
  let capacity := native_capacity size_T true (capacity s) (producers s) 1 in
  match validate_common capacity (batch s) with
  | Err e => OK (Err e)
  | Ok _ =>
      _ ← vectors (fixed_vectors L s);
      w ← mpsc.open_fixed (Z.to_nat (producers s)) capacity;
      OK (Ok (mpsc.set_batch w (batch s)))
  end.

(** [pool::open]: every shard is created up front, and the slot store holds one
    sender per shard. The receiver keeps the shards. *)
Record Pool := mkPool { pool_slots : pool.PoolSlots nat; shards : list C; pool_live : Z; pool_batch : Z }.

Fixpoint pool_rings (n : nat) (cap : Z) : outcome (list C) :=
  match n with
  | O => OK []
  | S n' => c ← bk_channel cap; l ← pool_rings n' cap; OK (c :: l)
  end.

Definition pool_open (n_max cap : Z) : outcome Pool :=
  if (1 <=? n_max) && (n_max <=? 64) then
    l ← pool_rings (Z.to_nat n_max) cap;
    OK (mkPool (pool.PoolSlots_new (seq 0 (length l))) l 1 mpsc.DEFAULT_BATCH)
  else PANIC.

Definition pool (s : Shape) : outcome (result Pool (OpenError E)) :=
  if negb ((1 <=? max_producers s) && (max_producers s <=? 64))
  then OK (Err (Invalid "MPSC pool max_producers must be in 1..=64")) else
  let capacity := native_capacity size_T true (capacity s) (max_producers s) 1 in
  match validate_common capacity (batch s) with
  | Err e => OK (Err e)
  | Ok _ =>
      _ ← vectors (pool_vectors L s);
      p ← pool_open (max_producers s) capacity;
      OK (Ok (mkPool (pool_slots p) (shards p) (pool_live p) (Z.max (batch s) 1)))
  end.

Definition dynamic_mpsc_capacity (s : Shape) : Z := native_capacity size_T true (capacity s) (producers s) 1.

(** A dynamic channel: the capacity of the rings its registrar makes, the bound
    of its ring pool if it recycles, and the gatherer. *)
Record Dynamic := mkDynamic { d_capacity : Z; d_pooled : option Z; d_world : mpsc.World T C }.

Definition finish_dynamic (batch : Z) (d : Dynamic) : Dynamic :=
  mkDynamic (d_capacity d) (d_pooled d) (mpsc.set_batch (d_world d) batch).

Definition dynamic (s : Shape) : outcome (result Dynamic (OpenError E)) :=
  match validate_common (dynamic_mpsc_capacity s) (batch s) with
  | Err e => OK (Err e)
  | Ok _ => OK (Ok (finish_dynamic (batch s) (mkDynamic (dynamic_mpsc_capacity s) None mpsc.open_dynamic)))
  end.

Definition pooled_dynamic (s : Shape) : outcome (result Dynamic (OpenError E)) :=
  match validate_common (dynamic_mpsc_capacity s) (batch s) with
  | Err e => OK (Err e)
  | Ok _ =>
      match recycling s with
      | None => OK (Err (Invalid "MPSC dynamic recycling requires an explicit pool size"))
      | Some max_pooled =>
          if max_pooled =? 0 then OK (Err (Invalid "MPSC dynamic recycling capacity must be non-zero")) else
          _ ← vectors (recycling_vectors L s);
          OK (Ok (finish_dynamic (batch s)
                    (mkDynamic (dynamic_mpsc_capacity s) (Some max_pooled) mpsc.open_dynamic)))
      end
  end.
End mpsc_open.

(** ** Competing-consumer MPMC *)

Section mpmc_open.
Context {T C E : Type} `{!SpscBackend T C} (L : Layouts) (size_T : Z) (bounded : bool).

(** The consumers of a brokerless channel, in the order they are returned: the
    clones of the first one, then the first one itself. *)
Definition consumer_order (n : Z) : list nat := seq 1 (Z.to_nat n - 1) ++ [0%nat].

(** [set_batch] on the first consumer, and its clones. *)
Definition fan_out {M K} `{!Rings M K} (w : brokerless.World T C M K) (batch n : Z)
    : outcome (brokerless.World T C M K) :=
  match brokerless.run (fun _ => false) w
          (brokerless.ECons 0 (brokerless.CSetBatch batch) ::
           replicate (Z.to_nat n - 1) (brokerless.ECons 0 brokerless.CClone)) with
  | Some w' => OK w'
  | None => PANIC
  end.

Definition claim (s : Shape)
    : outcome (result (brokerless.World T C FixedRings RoundRobin.Cursor * list nat) (OpenError E)) :=
  let capacity := native_capacity size_T bounded (capacity s) (producers s) (consumers s) in
  match validate_common capacity (batch s) with
  | Err e => OK (Err e)
  | Ok _ =>
      if producers s =? 0 then OK (Err (Invalid "brokerless MPMC producers must be non-zero")) else
      if consumers s =? 0 then OK (Err (Invalid "brokerless MPMC consumers must be non-zero")) else
      _ ← vectors (claim_vectors L s);
      w ← brokerless.open (producers s) capacity;
      w1 ← fan_out w (batch s) (consumers s);
      OK (Ok (w1, consumer_order (consumers s)))
  end.

Definition locked (s : Shape)
    : outcome (result (brokerless.World T C LockedRings LockedCursor * list nat) (OpenError E)) :=
  if producers s =? 0 then OK (Err (Invalid "dynamic MPMC expected_producers must be non-zero")) else
  if consumers s =? 0 then OK (Err (Invalid "dynamic MPMC consumers must be non-zero")) else
  let capacity := native_capacity size_T bounded (capacity s) (producers s) (consumers s) in
  match validate_common capacity (batch s) with
  | Err e => OK (Err e)
  | Ok _ =>
      _ ← vectors (locked_vectors L s);
      w ← brokerless.open 0 capacity;
      w1 ← fan_out w (batch s) (consumers s);
      OK (Ok (w1, consumer_order (consumers s)))
  end.

Definition array (s : Shape)
    : outcome (result (brokerless.World T C ArrayRings RoundRobin.Cursor * list nat) (OpenError E)) :=
  if array_producers s =? 0 then OK (Err (Invalid "array MPMC max_producers must be non-zero")) else
  if consumers s =? 0 then OK (Err (Invalid "dynamic MPMC consumers must be non-zero")) else
  let capacity := native_capacity size_T bounded (capacity s) (array_producers s) (consumers s) in
  match validate_common capacity (batch s) with
  | Err e => OK (Err e)
  | Ok _ =>
      _ ← vectors (array_vectors L s);
      w ← brokerless.open (array_producers s) capacity;
      w1 ← fan_out w (batch s) (consumers s);
      OK (Ok (w1, consumer_order (consumers s)))
  end.

(** [consumer.set_batch(batch)] for every consumer. *)
Definition lanes_batch (w : lanes.World T C) (n : nat) (batch : Z) : outcome (lanes.World T C) :=
  match lanes.run (fun _ => false) w ((fun k => lanes.ECons k (lanes.CSetBatch batch)) <$> seq 0 n) with
  | Some w' => OK w'
  | None => PANIC
  end.

Definition lane_grid (s : Shape) : outcome (result (lanes.World T C) (OpenError E)) :=
  let capacity := native_capacity size_T bounded (capacity s) (producers s) (consumers s) in
  match validate_common capacity (batch s) with
  | Err e => OK (Err e)
  | Ok _ =>
      if producers s =? 0 then OK (Err (Invalid "lane-grid MPMC producers must be non-zero")) else
      if consumers s =? 0 then OK (Err (Invalid "lane-grid MPMC consumers must be non-zero")) else
      let lane_capacity := div_ceil capacity (consumers s) in
      match validate_common lane_capacity (batch s) with
      | Err e => OK (Err e)
      | Ok _ =>
          _ ← vectors (lanes_vectors L s);
          w ← lanes.open (Z.to_nat (producers s)) (Z.to_nat (consumers s)) lane_capacity;
          w1 ← lanes_batch w (Z.to_nat (consumers s)) (batch s);
          OK (Ok w1)
      end
  end.

(** ** Brokered MPMC *)

Context {St : Type}.

Definition validate_brokered (producers consumers brokers capacity batch : Z) : result unit (OpenError E) :=
  _ ←? validate_common capacity batch;
  if producers =? 0 then Err (Invalid "brokered MPMC producers must be non-zero") else
  if consumers =? 0 then Err (Invalid "brokered MPMC consumers must be non-zero") else
  if brokers =? 0 then Err (Invalid "brokered MPMC brokers must be non-zero") else
  if producers <? brokers then Err (Invalid "brokered MPMC brokers cannot exceed producers") else
  Ok tt.

(** [Delivery::MAX_CONSUMERS]. *)
Definition MAX_CONSUMERS (p : brokered.Policy St) : option Z :=
  match p with brokered.PubSub _ _ => Some 64 | _ => None end.

Definition validate_routing (p : brokered.Policy St) (consumers : Z) : result unit (OpenError E) :=
  if match MAX_CONSUMERS p with Some limit => limit <? consumers | None => false end
  then Err (Invalid "brokered pub/sub supports at most 64 consumers") else Ok tt.

Definition brokers_batch (w : brokered.World T C St) (batch : Z) : brokered.World T C St :=
  brokered.mkWorld (brokered.ins w) (brokered.outs w) (brokered.live_producers w) (brokered.producers w)
    ((fun b => brokered.mkBroker (brokered.producer_rxs b) (brokered.consumer_txs b) (Z.max batch 1)
                 (brokered.policy b) (brokered.b_pc b) (brokered.fates b) (brokered.tries b)) <$> brokered.brokers w)
    (brokered.consumers w) (brokered.routed w) (brokered.got w).

Definition manual (s : Shape) (p : brokered.Policy St) : outcome (result (brokered.World T C St) (OpenError E)) :=
  let capacity := capacity_or_default (capacity s) in
  match _ ←? validate_brokered (producers s) (consumers s) (brokers s) capacity (batch s);
        validate_routing p (consumers s) with
  | Err e => OK (Err e)
  | Ok _ =>
      _ ← vectors (brokered_vectors L s);
      w ← brokered.open (Z.to_nat (producers s)) (Z.to_nat (consumers s)) (Z.to_nat (brokers s)) capacity p;
      OK (Ok (brokers_batch w (batch s)))
  end.

(** [finish_spawned_open]: [spawn] is what the operating system answers for each
    broker, in order; the first refusal ends the opening. *)
Fixpoint spawn_all (spawn : nat -> result unit E) (n : nat) (i : nat) : result unit (OpenError E) :=
  match n with
  | O => Ok tt
  | S n' => match spawn i with Ok _ => spawn_all spawn n' (S i) | Err e => Err (Spawn e) end
  end.

Definition finish_spawned_open (w : brokered.World T C St) (batch : Z) (spawn : nat -> result unit E)
    : result (brokered.World T C St) (OpenError E) :=
  let w1 := brokers_batch w batch in
  _ ←? spawn_all spawn (length (brokered.brokers w1)) 0; Ok w1.

Definition spawned (s : Shape) (p : brokered.Policy St) (spawn : nat -> result unit E)
    : outcome (result (brokered.World T C St) (OpenError E)) :=
  let capacity := capacity_or_default (capacity s) in
  match _ ←? validate_brokered (producers s) (consumers s) (brokers s) capacity (batch s);
        validate_routing p (consumers s) with
  | Err e => OK (Err e)
  | Ok _ =>
      _ ← vectors (brokered_vectors L s);
      w ← brokered.open (Z.to_nat (producers s)) (Z.to_nat (consumers s)) (Z.to_nat (brokers s)) capacity p;
      OK (finish_spawned_open w (batch s) spawn)
  end.
End mpmc_open.

(** ** Broadcast *)

Definition broadcast_open {T E : Type} (size_T : Z) (s : Shape) : outcome (result (broadcast.World T) (OpenError E)) :=
  let capacity := capacity_or_default (capacity s) in
  if capacity <? 2 then OK (Err (Invalid "broadcast capacity must be at least two")) else
  match validate_common capacity (batch s) with
  | Err e => OK (Err e)
  | Ok _ =>
      if negb ((1 <=? max_readers s) && (max_readers s <=? 64))
      then OK (Err (Invalid "broadcast max_readers must be in 1..=64")) else
      x ← broadcast.bopen size_T capacity (Z.to_nat (max_readers s));
      OK (Ok x)
  end.

(** ** Process channels *)

Section process.

Definition process_shape {E : Type} (s : Shape) : result (arena.StreamShape * session.EndpointOptions) (OpenError E) :=
  if chunk_bytes s =? 0 then Err (Invalid "IPC chunk_bytes must be non-zero") else
  if slots s =? 0 then Err (Invalid "IPC slots must be non-zero") else
  if (transfer_id s =? 0) || (transfer_id s =? USIZE - 1)
  then Err (Invalid "IPC duplex transfer_id must leave two non-zero ids") else
  if timeout s =? 0 then Err (Invalid "IPC timeout must be non-zero") else
  Ok (arena.mkShape (total_bytes s) (chunk_bytes s) (slots s),
      session.mkOptions (lock_memory s) (timeout s)).

Definition process_options {E : Type} (s : Shape) : result session.EndpointOptions (OpenError E) :=
  if timeout s =? 0 then Err (Invalid "IPC timeout must be non-zero") else
  Ok (session.mkOptions (lock_memory s) (timeout s)).

(** [payload.validate()?] *)
Definition validated (p : setup.PayloadContract) : result unit (OpenError frame.io_error) :=
  match setup.payload_validate p with Ok _ => Ok tt | Err e => Err (Io e) end.

(** The checks that the three creating and the three attaching [impl] blocks make
    on their payload contract before they meet their peer. *)
Definition create_payload (p : setup.PayloadContract) (s : arena.StreamShape) : result unit (OpenError frame.io_error) :=
  match setup.pkind p with
  | setup.Bytes => Ok tt
  | setup.Pod =>
      if (setup.element_size p =? 0) || negb (arena.total_bytes s mod setup.element_size p =? 0)
      then Err (Invalid "IPC POD shape must contain a whole number of values")
      else validated p
  | setup.Codec => validated p
  end.

Definition attach_payload (p : setup.PayloadContract) : result unit (OpenError frame.io_error) :=
  match setup.pkind p with setup.Bytes => Ok tt | _ => validated p end.

(** The [open] of a creating declaration, up to the peer's acknowledgement. *)
Definition create_open (mlock : bool) (t1 t2 t3 t4 : list Z) (s : Shape) (p : setup.PayloadContract) (st : session.shm)
    : outcome (result (session.Duplex * list Z) (OpenError frame.io_error) * session.shm) :=
  match ('(sh, o) ←? process_shape s; _ ←? create_payload p sh; Ok (sh, o)) with
  | Err e => OK (Err e, st)
  | Ok (sh, o) =>
      '(r, st') ← session.create_begin mlock t1 t2 t3 t4 sh (transfer_id s) o p st;
      OK (match r with Ok x => Ok x | Err e => Err (Io e) end, st')
  end.

(** The [open] of an attaching declaration: [input] is what its peer sent. *)
Definition attach_open (mlock : bool) (s : Shape) (p : setup.PayloadContract) (input : list Z) (st : session.shm)
    : outcome (result session.Duplex (OpenError frame.io_error) * list Z * session.shm) :=
  match (o ←? process_options s; _ ←? attach_payload p; Ok o) with
  | Err e => OK (Err e, [], st)
  | Ok o =>
      '(r, answer, st') ← session.attach_peer mlock o p input st;
      OK (match r with Ok x => Ok x | Err e => Err (Io e) end, answer, st')
  end.
End process.

(** ** What the checks accept *)

Lemma next_power_of_two_none (n : Z) : checked_next_power_of_two n = None <-> 2 ^ 63 < n.
Proof.
  split; [|intros Hn].
  - intros E. destruct (Z.le_gt_cases n (2 ^ 63)); [|lia]. by rewrite next_power_of_two_total in E.
  - unfold checked_next_power_of_two. zbool; [|done]. exfalso.
    assert (Z.log2_up n < 64) as Hl by (apply (Z.pow_lt_mono_r_iff 2); [lia|lia|by change (2 ^ 64) with USIZE]).
    pose proof (Z.log2_log2_up_spec n ltac:(lia)) as [_ Hu].
    assert (2 ^ Z.log2_up n <= 2 ^ 63) by (apply Z.pow_le_mono_r; lia). lia.
Qed.

(** A capacity and a batch that every local engine accepts. *)
Definition common_ok (capacity batch : Z) : Prop := 1 <= capacity <= 2 ^ 63 /\ batch <> 0.

Lemma validate_common_spec {E} (c b : Z) :
  0 <= c -> (validate_common (E := E) c b = Ok tt /\ common_ok c b) \/
            (exists e, validate_common (E := E) c b = Err e) /\ ~ common_ok c b.
Proof.
  intros Hc. unfold validate_common, common_ok.
  destruct (Z.eqb_spec c 0); [right; split; [by eexists|lia]|].
  case_bool_decide as Hn; [apply next_power_of_two_none in Hn; right; split; [by eexists|lia]|].
  assert (c <= 2 ^ 63) by (destruct (Z.le_gt_cases c (2 ^ 63)); [done|]; by destruct Hn; apply next_power_of_two_none).
  destruct (Z.eqb_spec b 0); [right; split; [by eexists|lia]|]. left. splits.
Qed.

(** ** Automatic capacities *)

Lemma quantized_window (slots : Z) :
  let c := quantized_capacity slots in
  (c = 64 \/ c = 256 \/ c = 1024 \/ c = 4096) /\
  (64 < c -> c <= 2 * slots) /\ (c < 4096 -> slots < 2 * c).
Proof. unfold quantized_capacity. simpl. zbool; lia. Qed.

Lemma automatic_window (size_T lanes : Z) :
  let c := automatic_ring_capacity size_T lanes in
  let resident := c * (Z.max size_T 1 * Z.max lanes 1) in
  (c = 64 \/ c = 256 \/ c = 1024 \/ c = 4096) /\
  (64 < c -> resident <= 2 * RING_RESIDENT_TARGET_BYTES) /\
  (c < 4096 -> RING_RESIDENT_TARGET_BYTES < 2 * resident).
Proof.
  unfold automatic_ring_capacity. simpl. set (p := Z.max size_T 1). set (l := Z.max lanes 1).
  assert (1 <= p) by lia. assert (1 <= l) by lia. rewrite Z.div_div by lia.
  set (x := RING_RESIDENT_TARGET_BYTES / (p * l)).
  destruct (quantized_window x) as (H1 & H2 & H3).
  pose proof (Z.mul_div_le RING_RESIDENT_TARGET_BYTES (p * l) ltac:(nia)) as Hlo. fold x in Hlo.
  pose proof (Z.mul_succ_div_gt RING_RESIDENT_TARGET_BYTES (p * l) ltac:(nia)) as Hhi. fold x in Hhi.
  split; [done|]. split; intros Hc.
  - specialize (H2 Hc). nia.
  - specialize (H3 Hc). nia.
Qed.

Lemma div_ceil_round (a b : Z) : 0 < b -> a <= div_ceil a b * b < a + b.
Proof.
  intros Hb. unfold div_ceil. pose proof (Z.div_mod a b ltac:(lia)) as Hd.
  pose proof (Z.mod_pos_bound a b Hb). zbool; nia.
Qed.

Lemma leased_automatic (size_T producers consumers batch : Z) :
  0 < batch ->
  let c := leased_capacity size_T None producers consumers batch in
  batch <= c /\ is_multiple_of c batch = true /\ c <= Z.max batch 8191.
Proof.
  intros Hb. unfold leased_capacity. simpl.
  set (q := Z.min _ _). assert (64 <= q <= 4096) as Hq.
  { unfold q. destruct (quantized_window (RING_RESIDENT_TARGET_BYTES * Z.max consumers 1 / (Z.max size_T 1 * Z.max producers 1)))
      as (H & _). case_match; lia. }
  clearbody q. unfold is_multiple_of. destruct (Z.eqb_spec batch 0) as [|_]; [lia|]. simpl.
  destruct (Z.eqb_spec (q mod batch) 0) as [e|e].
  - rewrite e. split; [|split; [done|lia]]. apply Z.mod_divide in e; [|lia]. destruct e as [k ->].
    assert (0 < k) by (apply (Z.mul_pos_cancel_r k batch); lia). nia.
  - destruct (Z.ltb_spec q batch); [rewrite Z.mod_same by lia; splits|].
    rewrite Z.mod_mul by lia. pose proof (div_ceil_round q batch Hb). splits.
Qed.

(** The capacity [open] chooses. For any payload size and topology the
    automatic ring capacity is one of four powers of two, it is accepted by the
    common checks with every non-zero batch, and the bytes it keeps resident over
    all lanes are within a factor of two of the target on both sides, but for the
    clamps at 64 and 4096 slots. The automatic capacity of a leased channel is a
    positive multiple of the batch that its open requires, and rounding up to a
    batch never exceeds 8191 slots unless one batch does. *)
Lemma automatic_capacity_window {E : Type} (size_T lanes producers consumers batch : Z) :
  0 < batch ->
  let c := automatic_ring_capacity size_T lanes in
  let resident := c * (Z.max size_T 1 * Z.max lanes 1) in
  let l := leased_capacity size_T None producers consumers batch in
  validate_common (E := E) c batch = Ok tt /\ is_power_of_two c = true /\
  (64 < c -> resident <= 2 * RING_RESIDENT_TARGET_BYTES) /\
  (c < 4096 -> RING_RESIDENT_TARGET_BYTES < 2 * resident) /\
  batch <= l /\ is_multiple_of l batch = true /\ l <= Z.max batch 8191.
Proof.
  intros Hb c resident l. destruct (automatic_window size_T lanes) as (Hc & Hlo & Hhi). fold c in Hc, Hlo, Hhi.
  assert (64 <= c <= 4096) as Hr by lia. split; [|split; [|split; [done|split; [done|by apply leased_automatic]]]].
  - destruct (validate_common_spec (E := E) c batch ltac:(lia)) as [[? _]|[_ Hn]]; [done|].
    destruct Hn. split; lia.
  - by destruct Hc as [-> | [-> | [-> | ->]]].
Qed.

(** ** What the engines are opened with *)

(** The fields that are machine words. *)
Definition words (s : Shape) : Prop :=
  0 <= producers s < USIZE /\ 0 <= consumers s < USIZE /\ 0 <= brokers s < USIZE /\
  0 <= batch s < USIZE /\ 0 <= max_producers s < USIZE /\ 0 <= max_readers s < USIZE /\
  0 <= array_producers s < USIZE /\ (forall c, capacity s = Some c -> 0 <= c < USIZE).

Lemma native_nonneg size_T bounded s p c :
  words s -> 0 <= native_capacity size_T bounded (capacity s) p c.
Proof.
  intros (_ & _ & _ & _ & _ & _ & _ & Hc). unfold native_capacity. destruct (capacity s) as [x|]; [by apply Hc|].
  destruct bounded; [|unfold DEFAULT_CAPACITY; lia].
  destruct (automatic_window size_T (Z.max p c)) as (H & _). lia.
Qed.

Section engines.
Context {T C E : Type} `{!SpscBackend T C} (L : Layouts) (size_T : Z) (bounded : bool).

(** The storage for one transport of capacity [n] can be allocated. *)
Definition storage (n : Z) : Prop := exists c : C, bk_channel n = OK c.

Lemma slots_total n cap : storage cap -> exists l, brokerless.open_slots (C := C) n cap = OK l /\ length l = n.
Proof.
  intros [c Hc]. induction n as [|n (l & Hl & Hn)]; [by exists []|].
  exists (brokerless.mkSlot false c :: l). simpl. rewrite Hc. simpl. rewrite Hl. split; [done|]. simpl. lia.
Qed.

Lemma lanes_total n cap : storage cap -> exists l, lanes.open_lanes (C := C) n cap = OK l.
Proof.
  intros [c Hc]. induction n as [|n (l & Hl)]; [by exists []|].
  exists (lanes.mkLane c [] :: l). simpl. rewrite Hc. simpl. by rewrite Hl.
Qed.

Lemma links_total n cap : storage cap -> exists l, brokered.open_links (C := C) n cap = OK l.
Proof.
  intros [c Hc]. induction n as [|n (l & Hl)]; [by exists []|].
  exists (brokered.mkLink c [] :: l). simpl. rewrite Hc. simpl. by rewrite Hl.
Qed.

(** ** The consumers of a brokerless channel *)

Section fan.
Context {M K : Type} `{!Rings M K}.

(** A consumer as [open] returns it. *)
Definition fresh_consumer (b : Z) (c : brokerless.Consumer T K) : Prop :=
  brokerless.batch c = b /\ brokerless.received c = [] /\ brokerless.pc c = brokerless.Idle false.

Lemma clones_ok k (w : brokerless.World T C M K) c :
  brokerless.consumers w !! 0%nat = Some c -> brokerless.is_idle c = true ->
  exists w' l, brokerless.run (fun _ => false) w (replicate k (brokerless.ECons 0 brokerless.CClone)) = Some w' /\
    brokerless.consumers w' = brokerless.consumers w ++ l /\ length l = k /\
    Forall (fresh_consumer (brokerless.batch c)) l /\ brokerless.producers w' = brokerless.producers w.
Proof.
  revert w. induction k as [|k IH]; intros w Hc Hi.
  - exists w, []. rewrite app_nil_r. splits.
  - cbn [replicate brokerless.run brokerless.step]. unfold brokerless.cons_step. rewrite Hc, Hi.
    match goal with |- context [brokerless.run _ ?x _] => set (w1 := x) end.
    destruct (IH w1) as (w' & l & -> & Hcs & Hl & Hf & Hp); [by apply lookup_app_l_Some|done|].
    eexists w', (_ :: l). split; [done|]. rewrite Hcs. simpl. rewrite <- app_assoc. splits.
    by constructor.
Qed.

Lemma fan_out_ok (w : brokerless.World T C M K) c0 b n :
  1 <= n -> 1 <= b -> brokerless.consumers w = [c0] -> brokerless.received c0 = [] ->
  brokerless.pc c0 = brokerless.Idle false ->
  exists w', fan_out w b n = OK w' /\ brokerless.reachable (fun _ => false) w w' /\
    Z.of_nat (length (brokerless.consumers w')) = n /\ Forall (fresh_consumer b) (brokerless.consumers w') /\
    brokerless.producers w' = brokerless.producers w.
Proof.
  intros Hn Hb Hc Hr Hpc.
  set (c1 := brokerless.mkConsumer (brokerless.cursor c0) (brokerless.staging c0) (Z.max b 1) (brokerless.out c0)
               (brokerless.received c0) (brokerless.pc c0)).
  assert (brokerless.step (fun _ => false) w (brokerless.ECons 0 (brokerless.CSetBatch b)) =
          Some (OK (brokerless.set_consumer w 0 c1))) as Hs.
  { simpl. unfold brokerless.cons_step, c1. rewrite Hc. simpl. unfold brokerless.is_idle. by rewrite Hpc. }
  destruct (clones_ok (Z.to_nat n - 1) (brokerless.set_consumer w 0 c1) c1) as (w' & l & Hrun & Hcs & Hl & Hf & Hp);
    [simpl; by rewrite Hc|unfold brokerless.is_idle, c1; simpl; by rewrite Hpc|].
  exists w'. unfold fan_out. cbn [brokerless.run]. rewrite Hs, Hrun. split; [done|]. split.
  - eapply brokerless.run_reaches; [|exact Hrun]. econstructor; [constructor|exact Hs].
  - rewrite Hcs. simpl in *. rewrite Hc, length_app, Hl. simpl. rewrite Z.max_l in Hf by lia.
    split; [lia|]. split; [|done]. constructor; [|done]. split; [simpl; lia|done].
Qed.
End fan.

(** The brokerless world [open] starts from. *)
Lemma brokerless_total n cap {M K : Type} `{!Rings M K} :
  storage cap -> exists w : brokerless.World T C M K, brokerless.open n cap = OK w /\
    length (brokerless.producers w) = rg_initial n /\
    exists c, brokerless.consumers w = [c] /\ brokerless.received c = [] /\ brokerless.pc c = brokerless.Idle false.
Proof.
  intros Hst. unfold brokerless.open. destruct (slots_total (rg_initial n) cap Hst) as (l & -> & Hl). simpl.
  eexists. split; [done|]. simpl. rewrite length_replicate. split; [done|]. by eexists.
Qed.

Lemma consumer_order_perm n : 1 <= n -> consumer_order n ≡ₚ seq 0 (Z.to_nat n).
Proof.
  intros Hn. unfold consumer_order. destruct (Z.to_nat n) as [|k] eqn:Hk; [lia|].
  simpl. rewrite Nat.sub_0_r. by rewrite Permutation_app_comm.
Qed.

(** Handing out consumers touches neither rings nor producers. *)
Lemma fan_out_quiet {M K : Type} `{!Rings M K} (w w' : brokerless.World T C M K) b n :
  fan_out w b n = OK w' ->
  brokerless.slots w' = brokerless.slots w /\ brokerless.taken w' = brokerless.taken w /\
  brokerless.producers w' = brokerless.producers w.
Proof.
  unfold fan_out. destruct (brokerless.run _ w _) as [w2|] eqn:Hrun; [|done]. intros [= <-].
  assert (Forall (fun e => e = brokerless.ECons 0 (brokerless.CSetBatch b) \/ e = brokerless.ECons 0 brokerless.CClone)
    (brokerless.ECons 0 (brokerless.CSetBatch b) :: replicate (Z.to_nat n - 1) (brokerless.ECons (T := T) 0 brokerless.CClone))) as Hes.
  { constructor; [by left|]. apply Forall_replicate. by right. }
  revert Hes Hrun. generalize (brokerless.ECons (T := T) 0 (brokerless.CSetBatch b) ::
    replicate (Z.to_nat n - 1) (brokerless.ECons 0 brokerless.CClone)).
  intros es Hes. revert w. induction Hes as [|e es He _ IH]; intros w; [by intros [= <-]|]. cbn [brokerless.run].
  destruct (brokerless.step _ w e) as [[w1| |]|] eqn:Hs; try done. intros Hrun. destruct (IH w1 Hrun) as (-> & -> & ->).
  destruct He as [-> | ->]; cbn [brokerless.step] in Hs; unfold brokerless.cons_step in Hs;
    (destruct (brokerless.consumers w !! 0%nat) as [c|]; [|done]); (destruct (brokerless.is_idle c); [|done]); by injection Hs as <-.
Qed.

(** What an accepted declaration of a fixed brokerless channel opens. *)
Lemma claim_opened (s : Shape) w order :
  let cap := native_capacity size_T bounded (capacity s) (producers s) (consumers s) in
  words s -> claim (E := E) (C := C) L size_T bounded s = OK (Ok (w, order)) ->
  common_ok cap (batch s) /\ 1 <= producers s /\ 1 <= consumers s /\ storage cap /\
  (exists w0, brokerless.open (producers s) cap = OK w0 /\ brokerless.reachable (fun _ => false) w0 w /\
     brokerless.open_slots (Z.to_nat (producers s)) cap = OK (brokerless.slots w)) /\
  brokerless.taken w = [] /\
  brokerless.producers w = replicate (Z.to_nat (producers s)) (brokerless.mkProducer brokerless.PIdle []) /\
  Z.of_nat (length (brokerless.consumers w)) = consumers s /\
  order ≡ₚ seq 0 (length (brokerless.consumers w)) /\ Forall (fresh_consumer (batch s)) (brokerless.consumers w).
Proof.
  intros cap Hw. pose proof (native_nonneg size_T bounded s (producers s) (consumers s) Hw) as Hc. fold cap in Hc.
  destruct Hw as (Hp & Hk & _ & Hb & _). unfold claim. fold cap.
  destruct (validate_common_spec (E := E) cap (batch s) Hc) as [[-> Hok]|[[e ->] Hno]]; [|done].
  destruct (Z.eqb_spec (producers s) 0); [done|]. destruct (Z.eqb_spec (consumers s) 0); [done|].
  unfold vectors. destruct (fits (claim_vectors L s)); [|done]. cbn [mbind outcome_bind]. unfold brokerless.open. cbn [rg_initial fixed_rings].
  destruct (brokerless.open_slots (Z.to_nat (producers s)) cap) as [sl| |] eqn:Hsl; try done. cbn [mbind outcome_bind].
  set (w0 := brokerless.mkWorld sl _ _ _ _ _ _ _ _).
  assert (storage cap) as Hst.
  { unfold storage. destruct (Z.to_nat (producers s)) as [|k] eqn:E0; [lia|]. simpl in Hsl.
    destruct (bk_channel cap) as [ch| |]; [by exists ch|done..]. }
  destruct (fan_out_ok w0 (brokerless.mkConsumer (rg_cursor 0) Batch_new 64 Batch_new [] (brokerless.Idle false)) (batch s) (consumers s))
    as (w1 & Hfan & Hreach & Hl & Hf & Hps); [lia|destruct Hok; lia|done..|].
  destruct (fan_out_quiet w0 w1 _ _ Hfan) as (Q1 & Q2 & _). rewrite Hfan. cbn [mbind outcome_bind]. intros [= <- <-].
  split; [done|]. split; [lia|]. split; [lia|]. split; [done|]. split; [exists w0; by rewrite Q1|]. rewrite Q2, Hps.
  split; [done|]. split; [done|]. split; [done|]. split; [|done].
  rewrite <- (Nat2Z.id (length _)), Hl. apply consumer_order_perm. lia.
Qed.

(** A lane grid with all of its consumers idle takes a new batch on each. *)
Lemma lanes_batch_run (w : lanes.World T C) b ks :
  (forall k, k ∈ ks -> exists c, lanes.consumers w !! k = Some c /\ lanes.is_idle c = true) ->
  exists w', lanes.run (fun _ => false) w ((fun k => lanes.ECons k (lanes.CSetBatch b)) <$> ks) = Some w'.
Proof.
  revert w. induction ks as [|k ks IH]; intros w Hk; [by exists w|].
  destruct (Hk k) as (c & Hc & Hi); [by left|].
  cbn [fmap list_fmap lanes.run lanes.step]. unfold lanes.cons_step. rewrite Hc, Hi. apply IH.
  intros k' Hk'. destruct (Hk k') as (c' & Hc' & Hi'); [by right|]. simpl.
  destruct (decide (k = k')) as [->|Hne].
  - eexists. split; [rewrite list_lookup_insert_eq by (by eapply lookup_lt_Some); done|].
    unfold lanes.is_idle in *. simpl. congruence.
  - exists c'. by rewrite list_lookup_insert_ne.
Qed.

Lemma lane_grid_total np nc cap b :
  storage cap -> exists w w', lanes.open (C := C) np nc cap = OK w /\ lanes_batch w nc b = OK w'.
Proof.
  intros Hst. unfold lanes.open, lanes_batch. destruct (lanes_total (np * nc) cap Hst) as (l & ->). simpl.
  match goal with |- exists w w', OK ?x = OK w /\ _ => exists x end.
  match goal with |- context [lanes.run _ ?x (_ <$> ?ks)] => destruct (lanes_batch_run x b ks) as [w' Hw] end.
  - intros k [_ Hk]%elem_of_seq. simpl. rewrite list_lookup_fmap, lookup_seq_lt by lia. by eexists.
  - exists w'. by rewrite Hw.
Qed.

Lemma brokered_total {St} np nc nb cap (p : brokered.Policy St) :
  (1 <= np)%nat -> (1 <= nc)%nat -> (1 <= nb)%nat -> storage cap ->
  exists w, brokered.open (C := C) np nc nb cap p = OK w.
Proof.
  intros H1 H2 H3 Hst. unfold brokered.open.
  destruct (Nat.leb_spec 1 np); [|lia]. destruct (Nat.leb_spec 1 nc); [|lia].
  destruct (Nat.eqb_spec (Nat.min nb np) 0); [lia|]. simpl.
  destruct (links_total np cap Hst) as (l & ->). simpl.
  destruct (links_total (Nat.min nb np * nc) cap Hst) as (l' & ->). by eexists.
Qed.

(** [open] accepts exactly the shapes of which [P] holds and refuses the others
    with an error; it returns if its endpoint vectors fit, and panics on an
    acceptable shape if they do not. *)
Definition decides {X : Type} (o : outcome (result X (OpenError E))) (P : Prop) (fit : bool) : Prop :=
  (fit = true -> (exists r, o = OK r) /\ ((exists x, o = OK (Ok x)) <-> P)) /\
  (fit = false -> P -> o = PANIC) /\
  (~ P -> exists e, o = OK (Err e)).

Lemma decides_err {X} e (P : Prop) fit : ~ P -> decides (X := X) (OK (Err e)) P fit.
Proof. intros HP. split; [intros _; split; [by eexists|split; [by intros [? ?]|done]]|]. split; [done|by eexists]. Qed.

Lemma decides_ok {X} (x : X) (P : Prop) : P -> decides (OK (Ok x)) P true.
Proof. intros HP. split; [intros _; split; [by eexists|split; [done|by eexists]]|]. by split. Qed.

Lemma decides_vectors {X} (o : outcome (result X (OpenError E))) (P : Prop) l :
  P -> decides o P true -> decides (_ ← vectors l; o) P (fits l).
Proof. intros HP Ho. unfold vectors. destruct (fits l); [done|]. by split. Qed.

Lemma decides_common {X} (cap b : Z) (o : outcome (result X (OpenError E))) (P : Prop) fit :
  0 <= cap -> (P -> common_ok cap b) -> (common_ok cap b -> decides o P fit) ->
  decides (match validate_common cap b with Err e => OK (Err e) | Ok _ => o end) P fit.
Proof.
  intros Hc Hp Ho. destruct (validate_common_spec (E := E) cap b Hc) as [[-> Hok]|[[e ->] Hno]]; [by apply Ho|].
  apply decides_err. auto.
Qed.

(** The rings of a brokerless channel with its consumers. *)
Lemma fanned_decides {M K : Type} `{!Rings M K} n cap b nc (P : Prop) :
  storage cap -> 1 <= nc -> 1 <= b -> P ->
  decides (w ← brokerless.open (M := M) (K := K) n cap; w1 ← fan_out w b nc; OK (Ok (w1, consumer_order nc))) P true.
Proof.
  intros Hst Hn Hb HP. destruct (brokerless_total n cap (K := K) (M := M) Hst) as (w0 & -> & _ & c & Hcs & Hr & Hpc).
  cbn [mbind outcome_bind]. destruct (fan_out_ok w0 c b nc) as (w1 & -> & _); [done..|]. by apply decides_ok.
Qed.

Lemma claim_decides s :
  let cap := native_capacity size_T bounded (capacity s) (producers s) (consumers s) in
  words s -> storage cap ->
  decides (claim (C := C) L size_T bounded s) (common_ok cap (batch s) /\ producers s <> 0 /\ consumers s <> 0)
    (fits (claim_vectors L s)).
Proof.
  intros cap Hw Hst. pose proof (native_nonneg size_T bounded s (producers s) (consumers s) Hw) as Hc. fold cap in Hc.
  destruct Hw as (Hp & Hk & _ & Hb & _). unfold claim. fold cap. apply decides_common; [done|tauto|]. intros Hok.
  destruct (Z.eqb_spec (producers s) 0); [apply decides_err; tauto|].
  destruct (Z.eqb_spec (consumers s) 0); [apply decides_err; tauto|].
  apply decides_vectors; [done|]. apply fanned_decides; try done; [lia|destruct Hok; lia].
Qed.

Lemma locked_decides s :
  let cap := native_capacity size_T bounded (capacity s) (producers s) (consumers s) in
  words s -> storage cap ->
  decides (locked (C := C) L size_T bounded s) (common_ok cap (batch s) /\ producers s <> 0 /\ consumers s <> 0)
    (fits (locked_vectors L s)).
Proof.
  intros cap Hw Hst. pose proof (native_nonneg size_T bounded s (producers s) (consumers s) Hw) as Hc. fold cap in Hc.
  destruct Hw as (Hp & Hk & _ & Hb & _). unfold locked. fold cap.
  destruct (Z.eqb_spec (producers s) 0); [apply decides_err; tauto|].
  destruct (Z.eqb_spec (consumers s) 0); [apply decides_err; tauto|].
  apply decides_common; [done|tauto|]. intros Hok.
  apply decides_vectors; [done|]. apply fanned_decides; try done; [lia|destruct Hok; lia].
Qed.

Lemma array_decides s :
  let cap := native_capacity size_T bounded (capacity s) (array_producers s) (consumers s) in
  words s -> storage cap ->
  decides (array (C := C) L size_T bounded s) (common_ok cap (batch s) /\ array_producers s <> 0 /\ consumers s <> 0)
    (fits (array_vectors L s)).
Proof.
  intros cap Hw Hst. pose proof (native_nonneg size_T bounded s (array_producers s) (consumers s) Hw) as Hc. fold cap in Hc.
  destruct Hw as (Hp & Hk & _ & Hb & _). unfold array. fold cap.
  destruct (Z.eqb_spec (array_producers s) 0); [apply decides_err; tauto|].
  destruct (Z.eqb_spec (consumers s) 0); [apply decides_err; tauto|].
  apply decides_common; [done|tauto|]. intros Hok.
  apply decides_vectors; [done|]. apply fanned_decides; try done; [lia|destruct Hok; lia].
Qed.

Lemma lane_grid_decides s :
  let cap := native_capacity size_T bounded (capacity s) (producers s) (consumers s) in
  words s -> storage (div_ceil cap (consumers s)) ->
  decides (lane_grid (C := C) L size_T bounded s) (common_ok cap (batch s) /\ producers s <> 0 /\ consumers s <> 0)
    (fits (lanes_vectors L s)).
Proof.
  intros cap Hw Hst. pose proof (native_nonneg size_T bounded s (producers s) (consumers s) Hw) as Hc. fold cap in Hc.
  destruct Hw as (Hp & Hk & _ & Hb & _). unfold lane_grid. fold cap.
  apply decides_common; [done|tauto|]. intros Hok.
  destruct (Z.eqb_spec (producers s) 0); [apply decides_err; tauto|].
  destruct (Z.eqb_spec (consumers s) 0); [apply decides_err; tauto|].
  assert (common_ok (div_ceil cap (consumers s)) (batch s)) as Hlane.
  { destruct Hok as [Hr Hb0]. split; [|done]. pose proof (div_ceil_round cap (consumers s) ltac:(lia)). nia. }
  apply decides_common; [destruct Hlane; lia|done|]. intros _. apply decides_vectors; [done|].
  destruct (lane_grid_total (Z.to_nat (producers s)) (Z.to_nat (consumers s)) _ (batch s) Hst) as (w & w' & -> & H).
  simpl. rewrite H. by apply decides_ok.
Qed.

(** The shapes of a brokered channel. *)
Definition brokered_ok {St} (s : Shape) (p : brokered.Policy St) : Prop :=
  common_ok (capacity_or_default (capacity s)) (batch s) /\ producers s <> 0 /\ consumers s <> 0 /\
  1 <= brokers s <= producers s /\ (forall m st, p = brokered.PubSub m st -> consumers s <= 64).

Lemma default_nonneg s : words s -> 0 <= capacity_or_default (capacity s).
Proof.
  intros (_ & _ & _ & _ & _ & _ & _ & H). unfold capacity_or_default, DEFAULT_CAPACITY.
  destruct (capacity s) as [c|]; simpl; [by apply H|lia].
Qed.

Lemma validate_brokered_spec {St} s (p : brokered.Policy St) :
  words s ->
  let v := result_bind (validate_brokered (E := E) (producers s) (consumers s) (brokers s)
             (capacity_or_default (capacity s)) (batch s)) (fun _ => validate_routing p (consumers s)) in
  (v = Ok tt /\ brokered_ok s p) \/ (exists e, v = Err e) /\ ~ brokered_ok s p.
Proof.
  intros Hw. pose proof (default_nonneg s Hw) as Hc. destruct Hw as (Hp & Hk & Hbr & _).
  unfold validate_brokered, validate_routing, brokered_ok. simpl.
  destruct (validate_common_spec (E := E) _ (batch s) Hc) as [[-> Hok]|[[e ->] Hno]]; [|right; split; [by eexists|tauto]].
  simpl. destruct (Z.eqb_spec (producers s) 0); [right; split; [by eexists|tauto]|].
  destruct (Z.eqb_spec (consumers s) 0); [right; split; [by eexists|tauto]|].
  destruct (Z.eqb_spec (brokers s) 0); [right; split; [by eexists|lia]|].
  destruct (Z.ltb_spec (producers s) (brokers s)); [right; split; [by eexists|lia]|]. simpl.
  destruct p as [| |m st]; simpl; [left; splits..|].
  destruct (Z.ltb_spec 64 (consumers s)); [|left; splits].
  right. split; [by eexists|]. intros (_ & _ & _ & _ & Hlim). specialize (Hlim m st eq_refl). lia.
Qed.

Lemma manual_decides {St} s (p : brokered.Policy St) :
  words s -> storage (capacity_or_default (capacity s)) ->
  decides (manual (C := C) L s p) (brokered_ok s p) (fits (brokered_vectors L s)).
Proof.
  intros Hw Hst. unfold manual. destruct (validate_brokered_spec s p Hw) as [[-> Hok]|[[e ->] Hno]];
    [|by apply decides_err].
  destruct Hw as (Hp & Hk & Hbr & _). apply decides_vectors; [done|].
  destruct (brokered_total (Z.to_nat (producers s)) (Z.to_nat (consumers s)) (Z.to_nat (brokers s))
    (capacity_or_default (capacity s)) p) as [w ->]; try done; try (destruct Hok; lia). by apply decides_ok.
Qed.

(** Starting the brokers: all of them, or the first refusal. *)
Lemma spawn_all_spec (spawn : nat -> result unit E) n i :
  (forall j, (i <= j < i + n)%nat -> spawn j = Ok tt) /\ spawn_all spawn n i = Ok tt \/
  exists j e, (i <= j < i + n)%nat /\ (forall k, (i <= k < j)%nat -> spawn k = Ok tt) /\ spawn j = Err e /\
    spawn_all spawn n i = Err (Spawn e).
Proof.
  revert i. induction n as [|n IH]; intros i; simpl; [left; split; [intros; lia|done]|].
  destruct (spawn i) as [[]|e] eqn:Hs; [|right; exists i, e; split; [lia|]; split; [intros; lia|done]].
  destruct (IH (S i)) as [[H ->]|(j & e & Hj & Hk & He & ->)].
  - left. split; [|done]. intros j Hj. destruct (decide (j = i)) as [->|]; [done|]. apply H. lia.
  - right. exists j, e. split; [lia|]. split; [|done]. intros k Hr. destruct (decide (k = i)) as [->|]; [done|].
    apply Hk. lia.
Qed.

Lemma spawned_decides {St} s (p : brokered.Policy St) (spawn : nat -> result unit E) :
  words s -> storage (capacity_or_default (capacity s)) -> (forall i, spawn i = Ok tt) ->
  decides (spawned (C := C) L s p spawn) (brokered_ok s p) (fits (brokered_vectors L s)).
Proof.
  intros Hw Hst Hsp. unfold spawned. destruct (validate_brokered_spec s p Hw) as [[-> Hok]|[[e ->] Hno]];
    [|by apply decides_err].
  destruct Hw as (Hp & Hk & Hbr & _). apply decides_vectors; [done|].
  destruct (brokered_total (Z.to_nat (producers s)) (Z.to_nat (consumers s)) (Z.to_nat (brokers s))
    (capacity_or_default (capacity s)) p) as [w ->]; try done; try (destruct Hok; lia). simpl.
  unfold finish_spawned_open. destruct (spawn_all_spec spawn (length (brokered.brokers (brokers_batch w (batch s)))) 0)
    as [[_ ->]|(j & e & _ & _ & He & _)]; [by apply decides_ok|]. by rewrite Hsp in He.
Qed.

(** The slots of a broadcast ring fit. *)
Definition broadcast_fits (s : Shape) : bool :=
  match checked_next_power_of_two (capacity_or_default (capacity s)) with
  | Some c => c * size_T <=? ISIZE_MAX
  | None => true
  end.

Lemma broadcast_decides {X} s :
  words s ->
  decides (broadcast_open (T := X) size_T s)
    (common_ok (capacity_or_default (capacity s)) (batch s) /\ 2 <= capacity_or_default (capacity s) /\
     1 <= max_readers s <= 64) (broadcast_fits s).
Proof.
  intros Hw. pose proof (default_nonneg s Hw) as Hc. destruct Hw as (_ & _ & _ & _ & _ & Hr & _).
  unfold broadcast_open, broadcast_fits.
  destruct (Z.ltb_spec (capacity_or_default (capacity s)) 2); [apply decides_err; lia|].
  apply decides_common; [done|tauto|]. intros Hok.
  destruct (Z.leb_spec 1 (max_readers s)), (Z.leb_spec (max_readers s) 64); simpl; try (apply decides_err; lia).
  unfold broadcast.bopen, broadcast.open. rewrite decide_True by lia.
  rewrite next_power_of_two_total by (destruct Hok; lia).
  match goal with |- context [ISIZE_MAX <? ?x] => destruct (Z.ltb_spec ISIZE_MAX x), (Z.leb_spec x ISIZE_MAX); try lia end.
  - split; [done|]. split; [done|]. intros []. split; [done|lia].
  - by apply decides_ok.
Qed.
End engines.

(** ** MPSC engines *)

Section mpsc_engines.
Context {T E : Type} (L : Layouts) (size_T : Z).
#[local] Instance mpsc_storage : SpscBackend T (ring.Chan T) := ring.ring_backend size_T.

Lemma fixed_total n cap (w : mpsc.World T (ring.Chan T)) :
  storage (T := T) (C := ring.Chan T) cap -> exists w', mpsc.open_fixed_loop n cap w = OK w'.
Proof.
  intros [c Hc]. revert w. induction n as [|n IH]; intros w; [by eexists|].
  cbn [mpsc.open_fixed_loop]. unfold mpsc.spawn_ring. rewrite Hc. apply IH.
Qed.

Lemma pool_rings_total n cap :
  storage (T := T) (C := ring.Chan T) cap -> exists l, pool_rings (T := T) size_T n cap = OK l.
Proof.
  intros [c Hc]. induction n as [|n [l Hl]]; [by eexists|]. cbn [pool_rings].
  unfold ring_storage. unfold mpsc_storage in Hc. rewrite Hc. simpl. rewrite Hl. by eexists.
Qed.

Lemma fixed_decides s :
  let cap := native_capacity size_T true (capacity s) (producers s) 1 in
  words s -> storage (T := T) (C := ring.Chan T) cap ->
  decides (E := E) (fixed (T := T) L size_T s) (common_ok cap (batch s)) (fits (fixed_vectors L s)).
Proof.
  intros cap Hw Hst. unfold fixed. fold cap. apply decides_common; [by apply native_nonneg|done|].
  intros Hok. apply decides_vectors; [done|]. unfold mpsc.open_fixed.
  match goal with |- context [mpsc.open_fixed_loop ?n ?c ?w] => destruct (fixed_total n c w Hst) as [w' Hw'] end.
  unfold mpsc_storage in Hw'. unfold ring_storage. rewrite Hw'. by apply decides_ok.
Qed.

(** A ring that cannot be allocated is not one of the checked errors. *)
Lemma fixed_refused s :
  let cap := native_capacity size_T true (capacity s) (producers s) 1 in
  words s -> common_ok cap (batch s) -> producers s <> 0 -> ring.build (T := T) size_T cap = PANIC ->
  fixed (T := T) (E := E) L size_T s = PANIC.
Proof.
  intros cap Hw Hok Hp Hr. unfold fixed. fold cap.
  destruct (validate_common_spec (E := E) cap (batch s)) as [[-> _]|[_ Hno]]; [by apply native_nonneg| |done].
  destruct Hw as (Hw & _). destruct (Z.to_nat (producers s)) as [|n] eqn:Hn; [lia|].
  unfold vectors. destruct (fits (fixed_vectors L s)); [|done]. cbn [mbind outcome_bind]. unfold mpsc.open_fixed. cbn [mpsc.open_fixed_loop]. unfold mpsc.spawn_ring. simpl. unfold ring.ring.
  by rewrite Hr.
Qed.

Lemma pool_decides s :
  let cap := native_capacity size_T true (capacity s) (max_producers s) 1 in
  words s -> storage (T := T) (C := ring.Chan T) cap ->
  decides (E := E) (pool (T := T) L size_T s) (common_ok cap (batch s) /\ 1 <= max_producers s <= 64)
    (fits (pool_vectors L s)).
Proof.
  intros cap Hw Hst. unfold pool, pool_open.
  destruct (Z.leb_spec 1 (max_producers s)), (Z.leb_spec (max_producers s) 64); simpl; try (apply decides_err; lia).
  fold cap. apply decides_common; [by apply native_nonneg|tauto|]. intros Hok. apply decides_vectors; [done|].
  destruct (pool_rings_total (Z.to_nat (max_producers s)) cap Hst) as [l ->]. by apply decides_ok.
Qed.

Lemma pooled_dynamic_decides s :
  words s ->
  decides (E := E) (pooled_dynamic (T := T) L size_T s)
    (common_ok (dynamic_mpsc_capacity size_T s) (batch s) /\ exists n, recycling s = Some n /\ n <> 0)
    (fits (recycling_vectors L s)).
Proof.
  intros Hw. unfold pooled_dynamic. apply decides_common; [by apply native_nonneg|tauto|]. intros Hok.
  destruct (recycling s) as [n|] eqn:Hr; [|apply decides_err; by intros (_ & ? & ? & _)].
  destruct (Z.eqb_spec n 0) as [->|]; [apply decides_err; by intros (_ & ? & [= <-] & ?)|].
  apply decides_vectors; [|apply decides_ok]; (split; [done|by exists n]).
Qed.

Lemma dynamic_decides s :
  words s -> decides (E := E) (dynamic (T := T) size_T s) (common_ok (dynamic_mpsc_capacity size_T s) (batch s)) true.
Proof.
  intros Hw. unfold dynamic. apply decides_common; [by apply native_nonneg|done|]. intros Hok. by apply decides_ok.
Qed.
End mpsc_engines.


(** The shapes of declared channels. *)
Definition declared (ks : list call) : Shape :=
  match build ks with Some c => shape c | None => Shape_default end.

Definition oversized : Shape := declared [c_capacity (2 ^ 62)].

#[local] Ltac is_words := unfold words; simpl; splits; intros ? [= <-]; lia.

(** Sizes of a 64-bit build. *)
Definition sample_layouts : Layouts := mkLayouts 16 24 48 32 32 72 80 24 8.


(** ** Two processes *)

(** The payload contracts that the [impl] blocks declare. *)
Definition declared_payload (p : setup.PayloadContract) : Prop :=
  (setup.pkind p = setup.Bytes -> p = setup.payload_bytes) /\
  0 <= setup.schema_id p < USIZE /\ 0 <= setup.element_size p < USIZE /\ 0 <= setup.element_align p < USIZE.

Lemma create_payload_ok p sh :
  declared_payload p -> create_payload p sh = Ok tt ->
  setup.payload_ok p /\ attach_payload p = Ok tt /\
  (setup.pkind p = setup.Pod -> arena.total_bytes sh mod setup.element_size p = 0).
Proof.
  intros (Hbytes & Hr) Hc. unfold create_payload, attach_payload, validated, setup.payload_ok in *.
  destruct (setup.pkind p) eqn:Hk.
  - rewrite (Hbytes eq_refl). done.
  - destruct (Z.eqb_spec (setup.element_size p) 0), (Z.eqb_spec (arena.total_bytes sh mod setup.element_size p) 0);
      try done. simpl in Hc. destruct (setup.payload_validate p) as [[]|]; done.
  - destruct (setup.payload_validate p) as [[]|]; done.
Qed.

Lemma process_shape_ok {E} s sh o :
  process_shape (E := E) s = Ok (sh, o) ->
  sh = arena.mkShape (total_bytes s) (chunk_bytes s) (slots s) /\ o = session.mkOptions (lock_memory s) (timeout s) /\
  chunk_bytes s <> 0 /\ slots s <> 0 /\ transfer_id s <> 0 /\ transfer_id s <> USIZE - 1 /\ timeout s <> 0.
Proof. unfold process_shape. zbool; try done. by intros [= <- <-]. Qed.

(** C27: two declarations make one session. When the creating declaration [s]
    has been accepted and its setup frame sent, an attaching declaration [s'] of
    the same payload contract is accepted whatever else it says, but for a zero
    timeout, which is refused before the peer is met. Both ends then hold the same
    four regions with opposite roles, each direction satisfies what a transfer of
    the declared shape requires of its arenas, and the acknowledgement completes
    the creator. The regions admit no second attacher: another attempt with the
    same frame is rejected and changes nothing. *)
Theorem process_open_meets (mlock : bool) (t1 t2 t3 t4 : list Z) (s s' : Shape) (p : setup.PayloadContract)
    (st st1 : session.shm) (d : session.Duplex) (bytes source back : list Z) :
  0 <= total_bytes s < USIZE -> 0 <= chunk_bytes s -> 0 <= slots s -> 0 <= transfer_id s < USIZE ->
  Forall frame.is_byte t1 -> Forall frame.is_byte t2 -> Forall frame.is_byte t3 -> Forall frame.is_byte t4 ->
  declared_payload p -> (exists lk, session.lock_region mlock (lock_memory s') = Ok lk) ->
  total_bytes s <= Z.of_nat (length source) -> total_bytes s <= Z.of_nat (length back) ->
  create_open mlock t1 t2 t3 t4 s p st = OK (Ok (d, bytes), st1) ->
  if timeout s' =? 0
  then attach_open mlock s' p bytes st1 = OK (Err (Invalid "IPC timeout must be non-zero"), [], st1)
  else exists w st2, attach_open mlock s' p bytes st1 = OK (Ok w, [setup.ACCEPTED], st2) /\
    session.create_finish d [setup.ACCEPTED] st2 = OK (Ok d, st2) /\
    (exists a r, session.data_arena st2 (session.outbound d) = Some a /\
       session.release_arena st2 (session.outbound d) = Some r /\
       session.data_arena st2 (session.inbound w) = Some a /\ session.release_arena st2 (session.inbound w) = Some r /\
       transfer.ready (arena.mkShape (total_bytes s) (chunk_bytes s) (slots s)) (transfer_id s)
         (frame.frame_flags frame.ParentToWorker) source a r) /\
    (exists a r, session.data_arena st2 (session.inbound d) = Some a /\
       session.release_arena st2 (session.inbound d) = Some r /\
       session.data_arena st2 (session.outbound w) = Some a /\ session.release_arena st2 (session.outbound w) = Some r /\
       transfer.ready (arena.mkShape (total_bytes s) (chunk_bytes s) (slots s)) (transfer_id s + 1)
         (frame.frame_flags frame.WorkerToParent) back a r) /\
    attach_open mlock s' p bytes st2 = OK (Err (Io frame.AlreadyExists), [setup.REJECTED], st2).
Proof.
  intros Ht Hc Hs Htid H1 H2 H3 H4 Hp Hlk Hsrc Hback Ho. unfold create_open in Ho.
  destruct (process_shape (E := frame.io_error) s) as [[sh o]|] eqn:Hsh; [|done]. simpl in Ho.
  destruct (process_shape_ok s sh o Hsh) as (-> & -> & _).
  destruct (create_payload p _) as [[]|] eqn:Hpl; [|done]. simpl in Ho.
  destruct (create_payload_ok p _ Hp Hpl) as (Hpok & Hap & Hpod).
  unfold attach_open, process_options. destruct (Z.eqb_spec (timeout s') 0) as [|Hto]; [done|]. simpl. rewrite Hap. simpl.
  destruct (session.create_begin _ _ _ _ _ _ _ _ _ _) as [[[x|] st']| |] eqn:Hcb; try done. injection Ho as -> ->.
  destruct (session.session_handshake mlock t1 t2 t3 t4 (arena.mkShape (total_bytes s) (chunk_bytes s) (slots s))
    (transfer_id s) (session.mkOptions (lock_memory s) (timeout s)) (session.mkOptions (lock_memory s') (timeout s')) p st st1 d bytes source back Ht Hc Hs Htid H1 H2 H3 H4 Hpok Hpod)
    as (w & st2 & Ha & Hf & Hd & Hb & Hr); try done.
  { unfold session.options_validate. simpl. by destruct (Z.eqb_spec (timeout s') 0). }
  exists w, st2. rewrite Ha, Hr. splits.
Qed.

(** Two processes that exchange ten bytes each way through two four-byte slots. *)
Definition sample_creator : Shape := declared [c_ipc; c_shape 10 4 2; c_transfer_id 41].
Definition sample_attacher : Shape := declared [c_ipc; c_attach; c_lock_memory false].

Lemma process_open_meets_witness :
  exists d bytes st1 w st2,
    create_open true (session.token 1) (session.token 2) (session.token 3) (session.token 0xFF) sample_creator
      setup.payload_bytes ∅ = OK (Ok (d, bytes), st1) /\
    attach_open true sample_attacher setup.payload_bytes bytes st1 = OK (Ok w, [setup.ACCEPTED], st2) /\
    attach_open true sample_attacher setup.payload_bytes bytes st2 = OK (Err (Io frame.AlreadyExists), [setup.REJECTED], st2).
Proof.
  destruct session.sample_pair as [[d bytes] st1] eqn:Hsp.
  assert (create_open true (session.token 1) (session.token 2) (session.token 3) (session.token 0xFF) sample_creator
      setup.payload_bytes ∅ = OK (Ok (d, bytes), st1)) as Hc.
  { pose proof session.sample_begin_ok as Hb. rewrite Hsp in Hb. unfold session.sample_begin in Hb.
    assert (process_shape (E := frame.io_error) sample_creator = Ok (arena.sample_shape, session.default_options)) as E
      by reflexivity.
    unfold create_open. rewrite E. cbn [result_bind create_payload setup.pkind setup.payload_bytes].
    change (transfer_id sample_creator) with 41. rewrite Hb. reflexivity. }
  exists d, bytes, st1.
  assert (Forall frame.is_byte (session.token 1) /\ Forall frame.is_byte (session.token 2) /\
          Forall frame.is_byte (session.token 3) /\ Forall frame.is_byte (session.token 0xFF)) as (B1 & B2 & B3 & B4).
  { split; [|split; [|split]]; apply session.token_bytes; lia. }
  assert (declared_payload setup.payload_bytes) as Hp by (unfold declared_payload; simpl; splits).
  assert (total_bytes sample_creator = 10) as Ht by reflexivity.
  assert (0 <= chunk_bytes sample_creator /\ 0 <= slots sample_creator /\ 0 <= transfer_id sample_creator < USIZE)
    as (R1 & R2 & R3) by (vm_compute; splits).
  assert (10 <= Z.of_nat (length transfer.sample_source)) as Hl by (vm_compute; done).
  assert (exists lk, session.lock_region true (lock_memory sample_attacher) = Ok lk) as Hlk
    by (exists false; reflexivity).
  assert (0 <= total_bytes sample_creator < USIZE) as R0 by (rewrite Ht; lia). rewrite <- Ht in Hl.
  pose proof (process_open_meets true (session.token 1) (session.token 2) (session.token 3) (session.token 0xFF)
    sample_creator sample_attacher setup.payload_bytes ∅ st1 d bytes transfer.sample_source transfer.sample_source
    R0 R1 R2 R3 B1 B2 B3 B4 Hp Hlk Hl Hl Hc) as H.
  change (timeout sample_attacher =? 0) with false in H. cbn iota in H.
  destruct H as (w & st2 & H1 & _ & _ & _ & H2).
  exists w, st2. split; [exact Hc|]. split; [exact H1|exact H2].
Defined.
End open.
