(* ===== verification/Leased.v ===== *)
(** * Leased payload blocks: [src/src/mpmc/brokerless/leased.rs]

    A leased channel moves whole blocks of values instead of values: a producer
    reserves one of its preallocated blocks, fills it and commits it to a fixed
    brokerless channel; a consumer reads it in place and returns it over an SPSC
    lane of its own to the producer it came from.

    The forward channel is the machine of [Brokerless.v] over payloads of type
    [Block], opened by [open.claim]; a commit and a take run that machine's own
    steps. The return lanes use the storage interface. [step] runs one shared
    access of one endpoint (a step of the forward channel, a call on a return
    lane, a load), with the local computation that follows it.

    A block's [storage] stands for its allocation: no operation changes it.
    Ghost state: [acquired] holds the blocks a consumer was lent, as it was lent
    them, [unwritten] and [forgotten] the blocks of the write and of the read
    leases that a caller forgot. *)

From stdpp Require Import prelude strings.
From S2P Require Import Prelude Batch RoundRobin Backend BackendRing Rings Staged Brokerless Declaration Open.
Local Open Scope Z_scope.

Module leased.

(** ** State *)

Record Block T := mkBlock { values : list T; origin : nat; storage : nat }.
Arguments mkBlock {T} values origin storage.
Arguments values {T} b.
Arguments origin {T} b.
Arguments storage {T} b.

Definition set_values {T} (b : Block T) (l : list T) : Block T := mkBlock l (origin b) (storage b).

(** Which call scans the return lanes: [reclaim] counts what it got back, and
    [flush] looks once more after it saw the consumers gone. *)
Inductive job : Type := JTry | JReserve | JReclaim (n : Z) | JFlush (final : bool).

(** What the last call of an idle producer answered. *)
Inductive answer : Type := Fresh | Refused | Reclaimed (n : Z) | Flushed (b : bool) | Committed (n : Z).

(** Where a producer is: [PScan] is [returned] with the lanes left to try,
    [PHold] a write lease in the caller's hands, [PUnwinding] the same after an
    [advance_initialized] that panicked, [PClosing] the drop of the return lanes. *)
Inductive ppc T : Type :=
| PIdle (a : answer)
| PLoad (j : job)
| PScan (j : job) (k : nat)
| PHold (b : Block T)
| PUnwinding (b : Block T)
| PCheck (b : Block T)
| PSend (b : Block T)
| PClosing (k : nat)
| PDead.
Arguments PIdle {T} a.
Arguments PLoad {T} j.
Arguments PScan {T} j k.
Arguments PHold {T} b.
Arguments PUnwinding {T} b.
Arguments PCheck {T} b.
Arguments PSend {T} b.
Arguments PClosing {T} k.
Arguments PDead {T}.

Record Producer T := mkProducer {
  free : list (Block T);
  in_flight : Z;
  cursor : Z;
  batch : Z;
  unwritten : list (Block T);
  p_pc : ppc T
}.
Arguments mkProducer {T} free in_flight cursor batch unwritten p_pc.
Arguments free {T} p.
Arguments in_flight {T} p.
Arguments cursor {T} p.
Arguments batch {T} p.
Arguments unwritten {T} p.
Arguments p_pc {T} p.

(** Where a consumer is: [CTake] is [take_block], [seen] the length of the
    forward endpoint's log when it began; [CHold] a read lease. *)
Inductive cpc T : Type :=
| CIdle
| CTake (block final : bool) (seen : nat)
| CLoad
| CHold (b : Block T)
| CReturn (b : Block T)
| CGone.
Arguments CIdle {T}.
Arguments CTake {T} block final seen.
Arguments CLoad {T}.
Arguments CHold {T} b.
Arguments CReturn {T} b.
Arguments CGone {T}.

(** [c_fwd] is the number of the forward endpoint. *)
Record Consumer T := mkConsumer { c_fwd : nat; acquired : list (Block T); c_pc : cpc T }.
Arguments mkConsumer {T} c_fwd acquired c_pc.
Arguments c_fwd {T} c.
Arguments acquired {T} c.
Arguments c_pc {T} c.

Abbreviation Forward T C := (brokerless.World (Block T) C FixedRings Cursor).

(** Lane [p * width + k] goes from consumer [k] back to producer [p]. *)
Record World T C := mkWorld {
  fwd : Forward T C;
  width : nat;
  lanes : list C;
  producers : list (Producer T);
  consumers : list (Consumer T);
  forgotten : list (Block T)
}.
Arguments mkWorld {T C} fwd width lanes producers consumers forgotten.
Arguments fwd {T C} w.
Arguments width {T C} w.
Arguments lanes {T C} w.
Arguments producers {T C} w.
Arguments consumers {T C} w.
Arguments forgotten {T C} w.

(** The calls of the endpoints and of their leases; [PStep] and [CStep] continue
    a call under way. *)
Inductive prod_op T : Type :=
| PTryReserve | PReserve | PReclaim | PFlush
| PPush (v : T) | PExtend (l : list T) | PAdvance (l : list T) | PEdit (l : list T)
| PCommit | PRollback | PForget | PDrop | PStep.
Arguments PTryReserve {T}.
Arguments PReserve {T}.
Arguments PReclaim {T}.
Arguments PFlush {T}.
Arguments PPush {T} v.
Arguments PExtend {T} l.
Arguments PAdvance {T} l.
Arguments PEdit {T} l.
Arguments PCommit {T}.
Arguments PRollback {T}.
Arguments PForget {T}.
Arguments PDrop {T}.
Arguments PStep {T}.

Inductive cons_op T : Type :=
| CTryRecv | CRecv | CEdit (l : list T) | CDrain | CRelease | CForget | CDrop | CStep.
Arguments CTryRecv {T}.
Arguments CRecv {T}.
Arguments CEdit {T} l.
Arguments CDrain {T}.
Arguments CRelease {T}.
Arguments CForget {T}.
Arguments CDrop {T}.
Arguments CStep {T}.

Inductive event T : Type :=
| EProd (p : nat) (op : prod_op T)
| ECons (i : nat) (op : cons_op T).
Arguments EProd {T} p op.
Arguments ECons {T} i op.

Section machine.
Context {T C : Type} `{!SpscBackend (Block T) C}.
Implicit Types w : World T C.
Implicit Types p : Producer T.
Implicit Types c : Consumer T.
Implicit Types b : Block T.

(** ** Producers *)

Definition set_producer w i p : World T C :=
  mkWorld (fwd w) (width w) (lanes w) (<[i := p]> (producers w)) (consumers w) (forgotten w).

Definition set_lane w id (ch : C) : World T C :=
  mkWorld (fwd w) (width w) (<[id := ch]> (lanes w)) (producers w) (consumers w) (forgotten w).

Definition set_fwd w (f : Forward T C) : World T C :=
  mkWorld f (width w) (lanes w) (producers w) (consumers w) (forgotten w).

Definition at_pc p (st : ppc T) : Producer T :=
  mkProducer (free p) (in_flight p) (cursor p) (batch p) (unwritten p) st.
Definition with_free p (l : list (Block T)) (st : ppc T) : Producer T :=
  mkProducer l (in_flight p) (cursor p) (batch p) (unwritten p) st.

(** The producer's view of its consumers. *)
Definition is_disconnected w : bool := brokerless.live_consumers (fwd w) =? 0.

(** Dropping a write lease: the block goes back to the free list. *)
Definition rollback p b (a : answer) : Producer T := with_free p (free p ++ [b]) (PIdle a).

(** [self.free.pop()]: the last block. *)
Definition pop_free p : option (Block T * list (Block T)) :=
  match last (free p) with
  | Some b => Some (b, take (length (free p) - 1) (free p))
  | None => None
  end.

(** [returned] found nothing: a reservation falls back on the free list, and
    [flush] looks at its counter. *)
Definition scanned p (n : nat) (j : job) : Producer T :=
  match j with
  | JTry | JReserve =>
      match pop_free p with
      | Some (b, l) => with_free p l (PHold (set_values b []))
      | None => at_pc p (match j with JReserve => PLoad JReserve | _ => PIdle Refused end)
      end
  | JReclaim m => at_pc p (PIdle (Reclaimed m))
  | JFlush final =>
      at_pc p (if in_flight p =? 0 then PIdle (Flushed true)
               else if final then PIdle (Flushed false) else PLoad (JFlush false))
  end.

(** [returned] found a block. *)
Definition got_back p (n : nat) (j : job) b (left : Z) : Producer T :=
  let q l st := mkProducer l left (cursor p) (batch p) (unwritten p) st in
  match j with
  | JTry | JReserve => q (free p) (PHold (set_values b []))
  | JReclaim m => q (free p ++ [set_values b []]) (PScan (JReclaim (m + 1)) n)
  | JFlush f => q (free p ++ [set_values b []]) (PScan (JFlush f) n)
  end.

(** One lane of [returned]. *)
Definition scan_lane w i p (j : job) (k : nat) : outcome (World T C) :=
  let '(x, cur) := next (cursor p) (Z.of_nat (width w)) in
  let p1 := mkProducer (free p) (in_flight p) cur (batch p) (unwritten p) (PScan j k) in
  let id := (i * width w + Z.to_nat x)%nat in
  match lanes w !! id with
  | None => PANIC
  | Some ch =>
      '(o, ch') ← bk_try_pop ch;
      match o with
      | None => OK (set_producer (set_lane w id ch') i p1)
      | Some b =>
          left ← sub_usize (in_flight p) 1;
          OK (set_producer (set_lane w id ch') i (got_back p1 (width w) j b left))
      end
  end.

(** The writing methods of a lease. *)
Definition push p b (v : T) : Block T :=
  if Z.of_nat (length (values b)) =? batch p then b else set_values b (values b ++ [v]).
Definition extend_from_slice p b (l : list T) : Block T :=
  if batch p - Z.of_nat (length (values b)) <? Z.of_nat (length l) then b
  else set_values b (values b ++ l).

(** [advance_initialized] over spare slots that hold [l]: with too many of them
    the [assert!] panics before the lease changes. *)
Definition advance_initialized p b (l : list T) : Producer T :=
  if Z.of_nat (length l) <=? batch p - Z.of_nat (length (values b))
  then at_pc p (PHold (set_values b (values b ++ l)))
  else at_pc p (PUnwinding b).

(** [commit] up to its first load; an empty lease is dropped and counts as done. *)
Definition commit p b : Producer T :=
  match values b with
  | [] => rollback p b (Committed 0)
  | _ => at_pc p (PCheck b)
  end.

(** The [try_send] of [commit]. *)
Definition send w i p b : outcome (World T C) :=
  match brokerless.step (fun _ => false) (fwd w) (brokerless.EProd i (brokerless.PTrySend b)) with
  | None => UB
  | Some r =>
      f ← r;
      let sent := match brokerless.producers (fwd w) !! i, brokerless.producers f !! i with
                  | Some p0, Some p1 =>
                      (length (brokerless.accepted p0) <? length (brokerless.accepted p1))%nat
                  | _, _ => false
                  end in
      OK (set_producer (set_fwd w f) i
            (if sent
             then mkProducer (free p) (in_flight p + 1) (cursor p) (batch p) (unwritten p)
                    (PIdle (Committed (Z.of_nat (length (values b)))))
             else at_pc p (PHold b)))
  end.

(** The end of a producer: the forward endpoint, then each return receiver with
    the blocks it still holds. *)
Definition close w i p : outcome (World T C) :=
  match brokerless.step (fun _ => false) (fwd w) (brokerless.EProd i brokerless.PDrop) with
  | None => UB
  | Some r =>
      f ← r;
      OK (mkWorld f (width w) (lanes w) (<[i := with_free p [] (PClosing 0)]> (producers w)) (consumers w)
            (forgotten w))
  end.

Definition close_lane w i p (k : nat) : outcome (World T C) :=
  let id := (i * width w + k)%nat in
  match lanes w !! id with
  | None => PANIC
  | Some ch => ch' ← bk_drop_rx ch; OK (set_producer (set_lane w id ch') i (at_pc p (PClosing (S k))))
  end.

Definition prod_step w (i : nat) (op : prod_op T) : option (outcome (World T C)) :=
  match producers w !! i with
  | None => None
  | Some p =>
      let goto q := Some (OK (set_producer w i q)) in
      match p_pc p, op with
      | PIdle _, PTryReserve => goto (at_pc p (PLoad JTry))
      | PIdle _, PReserve => goto (at_pc p (PLoad JReserve))
      | PIdle _, PReclaim => goto (at_pc p (PScan (JReclaim 0) (width w)))
      | PIdle _, PFlush => goto (at_pc p (PScan (JFlush false) (width w)))
      | PIdle _, PDrop => Some (close w i p)
      | PLoad j, PStep =>
          goto (match j with
                | JFlush _ => at_pc p (PScan (JFlush (is_disconnected w)) (width w))
                | _ => if is_disconnected w then at_pc p (PIdle Refused) else at_pc p (PScan j (width w))
                end)
      | PScan j O, PStep => goto (scanned p (width w) j)
      | PScan j (S k), PStep => Some (scan_lane w i p j k)
      | PHold b, PPush v => goto (at_pc p (PHold (push p b v)))
      | PHold b, PExtend l => goto (at_pc p (PHold (extend_from_slice p b l)))
      | PHold b, PAdvance l => goto (advance_initialized p b l)
      | PHold b, PEdit l =>
          if (length l =? length (values b))%nat then goto (at_pc p (PHold (set_values b l))) else None
      | PHold b, PCommit => goto (commit p b)
      | PHold b, PRollback => goto (rollback p b Fresh)
      | PHold b, PForget =>
          Some (OK (mkWorld (fwd w) (width w) (lanes w)
                      (<[i := mkProducer (free p) (in_flight p) (cursor p) (batch p) (unwritten p ++ [b])
                                (PIdle Fresh)]> (producers w)) (consumers w) (forgotten w)))
      (* the caller catches the panic, or unwinding drops the lease *)
      | PUnwinding b, PStep => goto (at_pc p (PHold b))
      | PUnwinding b, PRollback => goto (rollback p b Fresh)
      | PCheck b, PStep => goto (at_pc p (if is_disconnected w then PHold b else PSend b))
      | PSend b, PStep => Some (send w i p b)
      | PClosing k, PStep =>
          if (k <? width w)%nat then Some (close_lane w i p k) else goto (at_pc p PDead)
      | _, _ => None
      end
  end.

(** ** Consumers *)

Definition set_consumer w i c : World T C :=
  mkWorld (fwd w) (width w) (lanes w) (producers w) (<[i := c]> (consumers w)) (forgotten w).
Definition cons_at c (st : cpc T) : Consumer T := mkConsumer (c_fwd c) (acquired c) st.

(** [self.forward.drain(1, ..)] begins. *)
Definition begin_take w i c (block final : bool) : outcome (World T C) :=
  match brokerless.consumers (fwd w) !! c_fwd c,
        brokerless.step (fun _ => false) (fwd w) (brokerless.ECons (c_fwd c) (brokerless.CCall (Drain 1))) with
  | Some fc, Some r =>
      f ← r;
      OK (set_consumer (set_fwd w f) i (cons_at c (CTake block final (length (brokerless.received fc)))))
  | _, _ => UB
  end.

(** The drain under way: it goes on, or it has returned and the callback left the
    last value it was given. *)
Definition take_step w i c (block final : bool) (seen : nat) : outcome (World T C) :=
  match brokerless.consumers (fwd w) !! c_fwd c with
  | None => UB
  | Some fc =>
      if brokerless.is_idle fc then
        OK (set_consumer w i
              (match last (drop seen (brokerless.received fc)) with
               | Some b => mkConsumer (c_fwd c) (acquired c ++ [b]) (CHold b)
               | None => cons_at c (if block && negb final then CLoad else CIdle)
               end))
      else
        match brokerless.step (fun _ => false) (fwd w) (brokerless.ECons (c_fwd c) brokerless.CStep) with
        | Some r => f ← r; OK (set_fwd w f)
        | None => UB
        end
  end.

(** Dropping a read lease: the look at the lane, then the push into it. *)
Definition release w i c b : outcome (World T C) :=
  match lanes w !! (origin b * width w + i)%nat with
  | None => PANIC
  | Some ch =>
      if bk_is_consumer_gone ch
      then OK (set_consumer w i (cons_at c CIdle))
      else OK (set_consumer w i (cons_at c (CReturn b)))
  end.

Definition give_back w i c b : outcome (World T C) :=
  let id := (origin b * width w + i)%nat in
  match lanes w !! id with
  | None => PANIC
  | Some ch =>
      '(_, ch') ← bk_try_push ch b;
      OK (set_consumer (set_lane w id ch') i (cons_at c CIdle))
  end.

(** The end of a consumer: its forward endpoint and its return senders, whose
    flags no producer looks at. *)
Definition drop_consumer w i c : outcome (World T C) :=
  match brokerless.step (fun _ => false) (fwd w) (brokerless.ECons (c_fwd c) brokerless.CDrop) with
  | None => UB
  | Some r =>
      f ← r;
      OK (mkWorld f (width w)
            (foldr (alter bk_drop_tx) (lanes w)
               ((fun x : nat => (x * width w + i)%nat) <$> seq 0 (length (producers w))))
            (producers w) (<[i := cons_at c CGone]> (consumers w)) (forgotten w))
  end.

Definition cons_step w (i : nat) (op : cons_op T) : option (outcome (World T C)) :=
  match consumers w !! i with
  | None => None
  | Some c =>
      let goto st := Some (OK (set_consumer w i (cons_at c st))) in
      match c_pc c, op with
      | CIdle, CTryRecv => Some (begin_take w i c false false)
      | CIdle, CRecv => Some (begin_take w i c true false)
      | CIdle, CDrop => Some (drop_consumer w i c)
      | CTake block final seen, CStep => Some (take_step w i c block final seen)
      | CLoad, CStep => Some (begin_take w i c true (brokerless.live (fwd w) =? 0))
      | CHold b, CEdit l =>
          if (length l =? length (values b))%nat then goto (CHold (set_values b l)) else None
      | CHold b, CDrain => goto (CHold (set_values b []))
      | CHold b, CRelease => Some (release w i c b)
      | CHold b, CForget =>
          Some (OK (mkWorld (fwd w) (width w) (lanes w) (producers w) (<[i := cons_at c CIdle]> (consumers w))
                      (forgotten w ++ [b])))
      | CReturn b, CStep => Some (give_back w i c b)
      | _, _ => None
      end
  end.

Definition step w (e : event T) : option (outcome (World T C)) :=
  match e with
  | EProd i op => prod_step w i op
  | ECons i op => cons_step w i op
  end.

Inductive reachable (w0 : World T C) : World T C -> Prop :=
| reach_refl : reachable w0 w0
| reach_step w e w' : reachable w0 w -> step w e = Some (OK w') -> reachable w0 w'.

Fixpoint run w (es : list (event T)) : option (World T C) :=
  match es with
  | [] => Some w
  | e :: es' => match step w e with Some (OK w') => run w' es' | _ => None end
  end.

(** ** Opening *)

(** [allocation]: an array of [n] elements of a layout fits. *)
Definition allocation {E} (layout : Z * Z) (n : Z) : result unit (open.OpenError E) :=
  if ISIZE_MAX - (layout.2 - 1) <? layout.1 * n
  then Err (open.Invalid "leased channel allocation shape overflows") else Ok tt.

Fixpoint return_lanes (n : nat) (slots : Z) : outcome (list C) :=
  match n with
  | O => OK []
  | S n' => ch ← bk_channel slots; l ← return_lanes n' slots; OK (ch :: l)
  end.

(** The free list of producer [i]. *)
Definition new_blocks (i : nat) (blocks : Z) : list (Block T) :=
  (fun k => mkBlock [] i k) <$> seq 0 (Z.to_nat blocks).

(** The declaration of the forward channel. *)
Definition forward_shape (np nc slots : Z) : declaration.Shape :=
  open.declared [declaration.c_mpmc; declaration.c_producers np; declaration.c_consumers nc;
                 declaration.c_capacity slots; declaration.c_batch 1].

(** The layouts are size and alignment of [T], [Block<T>], [Producer<T>] and
    [Consumer<T>], and the sizes of the forward channel's endpoints. *)
Definition open {E} (lay_forward : open.Layouts) (lay_T lay_block lay_producer lay_consumer : Z * Z) (np nc capacity bat : Z)
    : outcome (result (World T C) (open.OpenError E)) :=
  if (np =? 0) || (nc =? 0) || (bat =? 0) || (capacity <? bat) || negb (is_multiple_of capacity bat)
  then OK (Err (open.Invalid "leased channels require non-zero workers and capacity divisible by batch")) else
  let blocks := capacity / bat in
  match checked_next_power_of_two blocks with
  | None => OK (Err (open.Invalid "leased descriptor capacity overflows"))
  | Some slots =>
  match checked_mul np capacity with
  | None => OK (Err (open.Invalid "leased payload count overflows"))
  | Some payloads =>
  match (n ← checked_mul np nc; checked_mul n slots) with
  | None => OK (Err (open.Invalid "leased return topology overflows"))
  | Some descriptors =>
  match result_bind (allocation (E := E) lay_T bat) (fun _ =>
        result_bind (allocation lay_T payloads) (fun _ =>
        result_bind (allocation lay_block descriptors) (fun _ =>
        result_bind (allocation lay_producer np) (fun _ => allocation lay_consumer nc)))) with
  | Err e => OK (Err e)
  | Ok _ =>
      r ← open.claim lay_forward lay_block.1 true (forward_shape np nc slots);
      match r with
      | Err e => OK (Err e)
      | Ok (f, order) =>
          ls ← return_lanes (Z.to_nat np * Z.to_nat nc) slots;
          OK (Ok (mkWorld f (Z.to_nat nc) ls
                    ((fun i => mkProducer (new_blocks i blocks) 0 0 bat [] (PIdle Fresh)) <$> seq 0 (Z.to_nat np))
                    ((fun k => mkConsumer k [] CIdle) <$> order) []))
      end
  end end end end.

(** [open] of a leased declaration. *)
Definition open_declared {E} (lay_forward : open.Layouts) (lay_T lay_block lay_producer lay_consumer : Z * Z) (s : declaration.Shape)
    : outcome (result (World T C) (open.OpenError E)) :=
  let capacity := open.leased_capacity lay_T.1 (declaration.capacity s) (declaration.producers s)
                    (declaration.consumers s) (declaration.batch s) in
  open lay_forward lay_T lay_block lay_producer lay_consumer (declaration.producers s) (declaration.consumers s) capacity
    (declaration.batch s).
End machine.

(** ** Counting blocks *)

(** The identity of a block: no call changes it. *)
Definition ident {T} (b : Block T) : nat * nat := (origin b, storage b).

Definition cnt {T} (x : nat * nat) (l : list (Block T)) : nat := length (filter (fun b => ident b = x) l).

Section counting.
Context {T : Type}.
Implicit Types l : list (Block T).

Lemma cnt_app x l l' : cnt x (l ++ l') = (cnt x l + cnt x l')%nat.
Proof. unfold cnt. by rewrite filter_app, length_app. Qed.

Lemma cnt_one x (b : Block T) l : cnt x (b :: l) = ((if decide (ident b = x) then 1 else 0) + cnt x l)%nat.
Proof. unfold cnt. rewrite filter_cons. by case_decide. Qed.

Lemma cnt_nil x : cnt (T := T) x [] = O.
Proof. done. Qed.

(** Rewriting a block's values is not seen. *)
Lemma cnt_set x (b : Block T) v : cnt x [set_values b v] = cnt x [b].
Proof. by rewrite !cnt_one. Qed.

Lemma cnt_perm x l l' : l ≡ₚ l' -> cnt x l = cnt x l'.
Proof. intros Hp. unfold cnt. by rewrite Hp. Qed.

Lemma cnt_join x (L : list (list (Block T))) : cnt x (mjoin L) = total (cnt x) L.
Proof.
  unfold total. induction L as [|l L IH]; [done|]. change (mjoin (l :: L)) with (l ++ mjoin L).
  rewrite cnt_app, IH. done.
Qed.

Lemma cnt_pos x l : (0 < cnt x l)%nat <-> exists b, b ∈ l /\ ident b = x.
Proof.
  unfold cnt. split.
  - destruct (filter _ l) as [|b k] eqn:E; simpl; [lia|]. intros _. exists b.
    assert (b ∈ filter (fun b => ident b = x) l) as [? ?]%list_elem_of_filter by (rewrite E; by left). done.
  - intros (b & Hb & Hx). destruct (filter (fun b => ident b = x) l) eqn:E; simpl; [|lia].
    assert (b ∈ filter (fun b => ident b = x) l) as Hin by (by apply list_elem_of_filter).
    rewrite E in Hin. by apply not_elem_of_nil in Hin.
Qed.

(** Blocks of one origin that occur at most once each are at most as many as
    there are storages. *)
Lemma cnt_distinct (blocks p : nat) l :
  (forall x, (cnt x l <= if decide (x.2 < blocks)%nat then 1 else 0)%nat) -> Forall (fun b => origin b = p) l ->
  (length l <= blocks)%nat.
Proof.
  intros Hc Ho. rewrite <- (length_fmap storage l), <- (length_seq blocks 0).
  assert (forall s, (length (filter (fun y => y = s) (storage <$> l)) <= 1)%nat /\
    (s ∈ storage <$> l -> (s < blocks)%nat)) as Hs.
  { intros s. specialize (Hc (p, s)). simpl in Hc.
    assert (length (filter (fun y => y = s) (storage <$> l)) = cnt (p, s) l) as E.
    { unfold cnt, ident. clear Hc. induction Ho as [|b l Hb Ho IH]; [done|]. csimpl. rewrite !filter_cons, Hb.
      destruct (decide (storage b = s)) as [->|Hne]; [rewrite decide_True by done; simpl; by rewrite IH|].
      rewrite decide_False by congruence. done. }
    rewrite E. case_decide; split; try lia; try done. intros Hin. exfalso.
    apply list_elem_of_fmap in Hin as (b & -> & Hb). rewrite Forall_forall in Ho.
    assert (0 < cnt (p, storage b) l)%nat by (apply cnt_pos; exists b; split; [done|]; unfold ident; by rewrite Ho). lia. }
  apply submseteq_length, NoDup_submseteq.
  - clear Hc Ho. induction (storage <$> l) as [|s k IH]; [constructor|]. constructor.
    + intros Hin. destruct (Hs s) as [H1 _]. rewrite filter_cons_True in H1 by done. simpl in H1.
      destruct (filter (fun y => y = s) k) eqn:E; [|simpl in H1; lia].
      assert (s ∈ filter (fun y => y = s) k) as Hf by (by apply list_elem_of_filter).
      rewrite E in Hf. by apply not_elem_of_nil in Hf.
    + apply IH. intros y. destruct (Hs y) as [H1 H2]. split; [|intros Hy; apply H2; by right].
      rewrite filter_cons in H1. case_decide; simpl in H1; lia.
  - intros s Hin. apply elem_of_seq. split; [lia|]. apply Hs in Hin. lia.
Qed.
End counting.

(** ** The forward channel *)

Section invariant.
Context {T C : Type} `{!SpscBackend (Block T) C} `{!SpscLaws (Block T) C} `{!SpscBounded (Block T) C}.
(** Producers, consumers, blocks per producer, values per block, ring slots. *)
Context (np nc blocks : nat) (bat slots : Z).
Implicit Types f : Forward T C.
Implicit Types w : World T C.
Implicit Types p : Producer T.
Implicit Types c : Consumer T.
Implicit Types b : Block T.

(** What each forward ring holds: what it accepted and nobody drained yet. *)
Definition fq f : list (list (Block T)) :=
  imap (fun i pr => drop (length (from i (brokerless.taken f))) (brokerless.accepted pr)) (brokerless.producers f).

Definition block_of (i : nat) b : Prop := origin b = i /\ Z.of_nat (length (values b)) <= bat.
Definition block_ok b : Prop := (origin b < np)%nat /\ Z.of_nat (length (values b)) <= bat.

Lemma fq_inv f qs ids : brokerless.inv f qs ids -> qs = fq f.
Proof.
  intros Hi. apply list_eq. intros i. unfold fq. rewrite list_lookup_imap.
  destruct (brokerless.producers f !! i) as [pr|] eqn:Hp; simpl.
  - destruct (brokerless.producer_ring f qs ids i pr Hi Hp) as (s & q & _ & -> & _ & -> & _).
    by rewrite drop_app_length.
  - apply lookup_ge_None in Hp. apply lookup_ge_None. rewrite (brokerless.i_len_q _ _ _ Hi), <- (brokerless.i_len_p _ _ _ Hi). done.
Qed.

Record fwd_ok f : Prop := {
  fo_inv : exists ids, brokerless.inv f (fq f) ids;
  fo_np : length (brokerless.producers f) = np;
  fo_room id s : brokerless.slots f !! id = Some s -> slots <= bk_cap (brokerless.rx s);
  fo_queue i q : fq f !! i = Some q -> Forall (block_of i) q
}.

Lemma same_room_ok f f' :
  brokerless.same_room f f' -> (forall id s, brokerless.slots f !! id = Some s -> slots <= bk_cap (brokerless.rx s)) ->
  forall id s, brokerless.slots f' !! id = Some s -> slots <= bk_cap (brokerless.rx s).
Proof. intros Hr Hs id s' Hs'. destruct (Hr id s' Hs') as (s & H1 & ->). by eapply Hs. Qed.

Lemma fq_lookup f i pr :
  brokerless.producers f !! i = Some pr ->
  fq f !! i = Some (drop (length (from i (brokerless.taken f))) (brokerless.accepted pr)).
Proof. intros Hp. unfold fq. by rewrite list_lookup_imap, Hp. Qed.

(** What the forward rings accepted is what was drained and what they hold. *)
Lemma fq_accepted f ids i pr q :
  brokerless.inv f (fq f) ids -> brokerless.producers f !! i = Some pr -> fq f !! i = Some q ->
  brokerless.accepted pr = from i (brokerless.taken f) ++ q.
Proof.
  intros Hi Hp Hq. destruct (brokerless.producer_ring f _ ids i pr Hi Hp) as (s & q' & _ & Hq' & _ & -> & _).
  by simplify_eq.
Qed.

(** A consumer that drained [new]: the rings lost exactly that. *)
Lemma fq_drained f f' ids ids' new :
  brokerless.inv f (fq f) ids -> brokerless.inv f' (fq f') ids' ->
  brokerless.producers f' = brokerless.producers f -> brokerless.taken f' = brokerless.taken f ++ new ->
  (forall i q', fq f' !! i = Some q' -> exists q, fq f !! i = Some q /\ q = from i new ++ q') /\
  forall x, total (cnt x) (fq f) = (cnt x (snd <$> new) + total (cnt x) (fq f'))%nat.
Proof.
  intros Hi Hi' Hp Ht. assert (forall i q', fq f' !! i = Some q' -> exists q, fq f !! i = Some q /\ q = from i new ++ q') as Hq.
  { intros i q' Hq'. pose proof (lookup_lt_Some _ _ _ Hq') as Hlt. unfold fq in Hlt. rewrite length_imap, Hp in Hlt.
    destruct (lookup_lt_is_Some_2 _ _ Hlt) as [pr Hpr].
    exists (drop (length (from i (brokerless.taken f))) (brokerless.accepted pr)). split; [by apply fq_lookup|].
    rewrite (fq_accepted f' ids' i pr q' Hi') by (by rewrite ?Hp). rewrite Ht, from_app, <- app_assoc. apply drop_app_length. }
  split; [done|]. intros x.
  assert (snd <$> new ≡ₚ mjoin ((fun i => from i new) <$> seq 0 (length (fq f')))) as ->%(cnt_perm x).
  { symmetry. apply (buckets (fun e : nat * nat * Block T => e.1.1) snd). intros [[id i] v] Hin.
    destruct (brokerless.i_log _ _ _ Hi' id i v) as [Hlt _]; [rewrite Ht; set_solver|].
    simpl. by rewrite (brokerless.i_len_q _ _ _ Hi'). }
  rewrite cnt_join. unfold total.
  assert (length (fq f) = length (fq f')) as Hlen by (unfold fq; by rewrite !length_imap, Hp).
  clear -Hq Hlen. revert Hq Hlen. generalize (fq f) (fq f'). intros l l' Hq Hlen.
  assert (forall k, (forall i q', l' !! i = Some q' -> exists q, l !! i = Some q /\ q = from (k + i) new ++ q') ->
    sum_list (cnt x <$> l) = (sum_list (cnt x <$> ((fun i => from i new) <$> seq k (length l'))) + sum_list (cnt x <$> l'))%nat) as Hgen.
  { clear Hq. revert l Hlen. induction l' as [|q' l' IH]; intros [|q l] Hlen k Hq; try done. csimpl.
    destruct (Hq O q' eq_refl) as (q0 & [= <-] & ->). rewrite Nat.add_0_r, cnt_app, (IH l (eq_add_S _ _ Hlen) (S k)).
    - lia.
    - intros i q2 Hi2. destruct (Hq (S i) q2 Hi2) as (q3 & H1 & H2). exists q3. split; [done|].
      by replace (S k + i)%nat with (k + S i)%nat by lia. }
  by apply (Hgen O).
Qed.

Lemma fwd_cons_step f i op f' :
  fwd_ok f -> op <> brokerless.CClone -> brokerless.step (fun _ => false) f (brokerless.ECons i op) = Some (OK f') ->
  fwd_ok f' /\ brokerless.producers f' = brokerless.producers f /\
  (forall k, k <> i -> brokerless.consumers f' !! k = brokerless.consumers f !! k) /\
  exists new, brokerless.taken f' = brokerless.taken f ++ new /\ (forall e, e ∈ new -> e.1.2 = i) /\
    Forall block_ok (snd <$> new) /\ forall x, total (cnt x) (fq f) = (cnt x (snd <$> new) + total (cnt x) (fq f'))%nat.
Proof.
  intros [[ids Hi] Hnp Hroom Hqueue] Hop Hs.
  destruct (brokerless.cons_step_frame _ f i op f' Hs Hop) as (Hp & _ & _ & Ho & new & Ht & Hnew).
  destruct (brokerless.channel_step_ok _ f _ ids _ _ Hi Hs) as (f2 & qs' & ids' & [= <-] & Hi').
  pose proof (fq_inv f' qs' ids' Hi') as ->.
  destruct (fq_drained f f' ids ids' new Hi Hi' Hp Ht) as [Hq Hcnt]. split; [|split; [done|split; [done|]]].
  - constructor; [by exists ids'|by rewrite Hp| |].
    + apply (same_room_ok f); [|done]. by eapply brokerless.cons_step_room.
    + intros k q' Hq'. destruct (Hq k q' Hq') as (q & Hkq & ->). apply Hqueue in Hkq. by apply Forall_app in Hkq as [_ ?].
  - exists new. split; [done|]. split; [done|]. split; [|done]. apply Forall_forall. intros b Hb.
    apply list_elem_of_fmap in Hb as ([[id k] v] & -> & Hin). simpl.
    destruct (brokerless.i_log _ _ _ Hi' id k v) as [Hlt _]; [rewrite Ht; set_solver|].
    rewrite <- (brokerless.i_len_q _ _ _ Hi') in Hlt. destruct (lookup_lt_is_Some_2 _ _ Hlt) as [q' Hq'].
    destruct (Hq id q' Hq') as (q & Hkq & ->). pose proof (Hqueue id _ Hkq) as Hall. rewrite Forall_forall in Hall.
    destruct (Hall v) as [Ho' Hv]; [apply elem_of_app; left; unfold from; apply list_elem_of_omap; exists (id, k, v);
      split; [done|]; simpl; by rewrite decide_True|].
    split; [|done]. rewrite Ho', <- Hnp. apply lookup_lt_Some in Hkq. unfold fq in Hkq. by rewrite length_imap in Hkq.
Qed.

(** What a consumer without staged values received by a step. *)
Lemma received_new f f' ids ids' i fc fc' new :
  brokerless.inv f (fq f) ids -> brokerless.inv f' (fq f') ids' ->
  brokerless.consumers f !! i = Some fc -> brokerless.consumers f' !! i = Some fc' ->
  batch_repr (brokerless.staging fc) [] -> batch_repr (brokerless.staging fc') [] ->
  brokerless.taken f' = brokerless.taken f ++ new -> (forall e, e ∈ new -> e.1.2 = i) ->
  brokerless.received fc' = brokerless.received fc ++ (snd <$> new).
Proof.
  intros Hi Hi' Hc Hc' Hs Hs' Ht Hn.
  destruct (brokerless.i_cons _ _ _ Hi i fc Hc) as (s & _ & Hr & _ & _ & Hl & _).
  destruct (brokerless.i_cons _ _ _ Hi' i fc' Hc') as (s' & _ & Hr' & _ & _ & Hl' & _).
  assert (s = []) as -> by (pose proof (as_slice_repr _ _ Hr) as E1; rewrite (as_slice_repr _ _ Hs) in E1; by injection E1).
  assert (s' = []) as -> by (pose proof (as_slice_repr _ _ Hr') as E1; rewrite (as_slice_repr _ _ Hs') in E1; by injection E1).
  rewrite app_nil_r in Hl, Hl'. rewrite <- Hl', Ht, by_consumer_app, Hl. f_equal. unfold by_consumer. clear -Hn.
  induction new as [|[[id k] v] new IH]; [done|]. csimpl. specialize (Hn (id, k, v) ltac:(by left)) as Hk. simpl in Hk.
  rewrite decide_True by done. simpl. f_equal. apply IH. intros e He. apply Hn. by right.
Qed.

(** ** Where the blocks are *)

(** The blocks on a producer's side: its free list, the block of a lease, and
    those of the leases that were forgotten. *)
Definition prod_held p : list (Block T) :=
  match p_pc p with PHold b | PUnwinding b | PCheck b | PSend b => [b] | _ => [] end.
Definition prod_blocks p : list (Block T) := free p ++ prod_held p ++ unwritten p.

(** The block on a consumer's side: drained from the forward channel and not yet
    lent, lent, or about to be pushed into a return lane. *)
Definition cons_blocks f c : list (Block T) :=
  match c_pc c with
  | CTake _ _ seen =>
      match brokerless.consumers f !! c_fwd c with
      | Some fc => drop seen (brokerless.received fc)
      | None => []
      end
  | CHold b | CReturn b => [b]
  | _ => []
  end.

(** How often block [x] occurs: with producers, in the forward rings, with
    consumers, in the return lanes, in forgotten read leases. *)
Definition custody w (lq : list (list (Block T))) (x : nat * nat) : nat :=
  (total (fun p => cnt x (prod_blocks p)) (producers w) + total (cnt x) (fq (fwd w)) +
   total (fun c => cnt x (cons_blocks (fwd w) c)) (consumers w) + total (cnt x) lq + cnt x (forgotten w))%nat.

Definition valid (x : nat * nat) : nat := if decide (x.1 < np /\ x.2 < blocks)%nat then 1%nat else O.

(** Producer endpoints in use, return lanes with their receiver, consumers gone. *)
Definition open_prod p : bool := match p_pc p with PClosing _ | PDead => false | _ => true end.
Definition lane_live p (k : nat) : bool :=
  match p_pc p with PDead => false | PClosing j => (j <=? k)%nat | _ => true end.
Definition cons_gone c : bool := match c_pc c with CGone => true | _ => false end.

Definition lane_ok (i k : nat) p c (ch : C) (q : list (Block T)) : Prop :=
  if lane_live p k then bk_repr ch q (cons_gone c) false /\ slots <= bk_cap ch /\ Forall (block_of i) q
  else q = [] /\ exists q', bk_repr ch q' (cons_gone c) true.

Definition prod_ok (i : nat) p (fp : brokerless.Producer (Block T)) : Prop :=
  Forall (block_of i) (prod_blocks p) /\ 0 <= cursor p /\ batch p = bat /\
  brokerless.p_pc fp = (if open_prod p then brokerless.PIdle else brokerless.PDead) /\
  (open_prod p = true -> Z.of_nat (length (prod_blocks p)) + in_flight p = Z.of_nat blocks) /\
  (p_pc p = PIdle (Flushed true) -> in_flight p = 0).

Definition cons_ok f c (fc : brokerless.Consumer (Block T) Cursor) : Prop :=
  Forall block_ok (cons_blocks f c) /\
  match c_pc c with
  | CTake _ _ seen => brokerless.taking seen fc /\ acquired c = take seen (brokerless.received fc)
  | CGone => brokerless.pc fc = brokerless.Gone false /\ batch_repr (brokerless.staging fc) [] /\
         acquired c = brokerless.received fc
  | _ => brokerless.pc fc = brokerless.Idle false /\ batch_repr (brokerless.staging fc) [] /\
         acquired c = brokerless.received fc
  end.

Record linv w (lq : list (list (Block T))) : Prop := {
  li_fwd : fwd_ok (fwd w);
  li_width : width w = nc;
  li_np : length (producers w) = np;
  li_nc : length (consumers w) = nc;
  li_lanes : length (lanes w) = (np * nc)%nat;
  li_lq : length lq = (np * nc)%nat;
  li_lane i k p c ch q :
    producers w !! i = Some p -> consumers w !! k = Some c -> lanes w !! (i * nc + k)%nat = Some ch ->
    lq !! (i * nc + k)%nat = Some q -> lane_ok i k p c ch q;
  li_prod i p : producers w !! i = Some p ->
    exists fp, brokerless.producers (fwd w) !! i = Some fp /\ prod_ok i p fp;
  li_cons k c : consumers w !! k = Some c ->
    exists fc, brokerless.consumers (fwd w) !! c_fwd c = Some fc /\ cons_ok (fwd w) c fc;
  li_inj k k' c c' : consumers w !! k = Some c -> consumers w !! k' = Some c' -> c_fwd c = c_fwd c' -> k = k';
  li_custody x : (custody w lq x <= valid x)%nat;
  li_kept i p s : producers w !! i = Some p -> open_prod p = true -> custody w lq (i, s) = valid (i, s)
}.

Definition goes_on (o : outcome (World T C)) : Prop := exists w' lq', o = OK w' /\ linv w' lq'.

Lemma lane_unique i k i' k' : (k < nc)%nat -> (k' < nc)%nat -> (i * nc + k = i' * nc + k')%nat -> i = i' /\ k = k'.
Proof. intros. assert (i = i') by nia. subst. lia. Qed.

Lemma lane_at w lq i k :
  linv w lq -> (i < np)%nat -> (k < nc)%nat ->
  exists ch q, lanes w !! (i * nc + k)%nat = Some ch /\ lq !! (i * nc + k)%nat = Some q.
Proof.
  intros Hi H1 H2. assert (i * nc + k < np * nc)%nat by nia.
  destruct (lookup_lt_is_Some_2 (lanes w) (i * nc + k)) as [ch ?]; [by rewrite (li_lanes _ _ Hi)|].
  destruct (lookup_lt_is_Some_2 lq (i * nc + k)) as [q ?]; [by rewrite (li_lq _ _ Hi)|]. eauto.
Qed.

(** Blocks of one producer that are all accounted for are at most as many as it
    was given. *)
Lemma few w lq i L :
  linv w lq -> Forall (fun b => origin b = i) L -> (forall x, (cnt x L <= custody w lq x)%nat) -> (length L <= blocks)%nat.
Proof.
  intros Hi Ho Hx. apply (cnt_distinct blocks i); [|done]. intros x. specialize (Hx x).
  pose proof (li_custody _ _ Hi x) as Hc. unfold valid in Hc. repeat case_decide; lia.
Qed.

(** A step of producer [i]: its own state, its forward ring, its return lanes. *)
Lemma linv_producer w lq i p p' f' lanes' lq' :
  linv w lq -> producers w !! i = Some p -> fwd_ok f' ->
  brokerless.consumers f' = brokerless.consumers (fwd w) ->
  (forall j, j <> i -> brokerless.producers f' !! j = brokerless.producers (fwd w) !! j) ->
  (exists fp, brokerless.producers f' !! i = Some fp /\ prod_ok i p' fp) ->
  length lanes' = length (lanes w) -> length lq' = length lq ->
  (forall j k, j <> i -> (k < nc)%nat ->
     lanes' !! (j * nc + k)%nat = lanes w !! (j * nc + k)%nat /\ lq' !! (j * nc + k)%nat = lq !! (j * nc + k)%nat) ->
  (forall k c ch q, consumers w !! k = Some c -> lanes' !! (i * nc + k)%nat = Some ch ->
     lq' !! (i * nc + k)%nat = Some q -> lane_ok i k p' c ch q) ->
  (open_prod p' = true -> open_prod p = true) ->
  (forall x, let old := (cnt x (prod_blocks p) + total (cnt x) (fq (fwd w)) + total (cnt x) lq)%nat in
     let new := (cnt x (prod_blocks p') + total (cnt x) (fq f') + total (cnt x) lq')%nat in
     (new <= old)%nat /\ (x.1 <> i \/ open_prod p' = true -> new = old)) ->
  linv (mkWorld f' (width w) lanes' (<[i := p']> (producers w)) (consumers w) (forgotten w)) lq'.
Proof.
  intros Hi Hp Hf Hfc Hfp Hok Hl1 Hl2 Hother Hmine Hopen Hcnt. pose proof (lookup_lt_Some _ _ _ Hp) as Hlt.
  assert (forall c, cons_blocks f' c = cons_blocks (fwd w) c) as Hcb by (intros c; unfold cons_blocks; by rewrite Hfc).
  assert (forall x, let w' := mkWorld f' (width w) lanes' (<[i := p']> (producers w)) (consumers w) (forgotten w) in
    (custody w' lq' x <= custody w lq x)%nat /\ (x.1 <> i \/ open_prod p' = true -> custody w' lq' x = custody w lq x)) as Hcust.
  { intros x. specialize (Hcnt x) as [H1 H2]. unfold custody. simpl.
    pose proof (total_update (fun p => cnt x (prod_blocks p)) (producers w) i p p' Hp) as Ht. simpl in Ht.
    rewrite (total_ext (fun c => cnt x (cons_blocks f' c)) (fun c => cnt x (cons_blocks (fwd w) c)) (consumers w) (consumers w))
      by (done || (intros; simplify_eq; by rewrite Hcb)). split; [lia|]. intros Hx. specialize (H2 Hx). lia. }
  constructor; simpl; try rewrite length_insert; try (by destruct Hi); try done.
  - rewrite Hl1. apply (li_lanes _ _ Hi).
  - rewrite Hl2. apply (li_lq _ _ Hi).
  - intros j k pr c ch q Hj Hk Hch Hq. updated Hj; [by eapply Hmine|].
    pose proof (lookup_lt_Some _ _ _ Hk) as Hkn. rewrite (li_nc _ _ Hi) in Hkn.
    destruct (Hother j k ltac:(done) Hkn) as [E1 E2]. rewrite E1 in Hch. rewrite E2 in Hq. by eapply (li_lane _ _ Hi).
  - intros j pr Hj. updated Hj; [done|]. rewrite Hfp by done. by apply (li_prod _ _ Hi).
  - intros k c Hk. rewrite Hfc. destruct (li_cons _ _ Hi k c Hk) as (fc & H1 & H2 & H3). exists fc.
    unfold cons_ok. rewrite Hcb. done.
  - intros x. destruct (Hcust x) as [H1 _]. pose proof (li_custody _ _ Hi x). lia.
  - intros j pr s Hj Ho. destruct (Hcust (j, s)) as [_ H1]. updated Hj.
    + rewrite H1 by (by right). eapply (li_kept _ _ Hi); [done|by apply Hopen].
    + rewrite H1 by (by left). by eapply (li_kept _ _ Hi).
Qed.

(** A step of consumer [k]: its own state, the forward rings, its return lanes. *)
Lemma linv_consumer w lq k c c' f' lanes' lq' g' :
  linv w lq -> consumers w !! k = Some c -> c_fwd c' = c_fwd c -> fwd_ok f' ->
  brokerless.producers f' = brokerless.producers (fwd w) ->
  (forall j, j <> c_fwd c -> brokerless.consumers f' !! j = brokerless.consumers (fwd w) !! j) ->
  (exists fc, brokerless.consumers f' !! c_fwd c = Some fc /\ cons_ok f' c' fc) ->
  length lanes' = length (lanes w) -> length lq' = length lq ->
  (forall i j, j <> k -> (j < nc)%nat ->
     lanes' !! (i * nc + j)%nat = lanes w !! (i * nc + j)%nat /\ lq' !! (i * nc + j)%nat = lq !! (i * nc + j)%nat) ->
  (forall i p ch q, producers w !! i = Some p -> lanes' !! (i * nc + k)%nat = Some ch ->
     lq' !! (i * nc + k)%nat = Some q -> lane_ok i k p c' ch q) ->
  (forall x, let old := (cnt x (cons_blocks (fwd w) c) + total (cnt x) (fq (fwd w)) + total (cnt x) lq + cnt x (forgotten w))%nat in
     let new := (cnt x (cons_blocks f' c') + total (cnt x) (fq f') + total (cnt x) lq' + cnt x g')%nat in
     (new <= old)%nat /\ forall p, producers w !! x.1 = Some p -> open_prod p = true -> new = old) ->
  linv (mkWorld f' (width w) lanes' (producers w) (<[k := c']> (consumers w)) g') lq'.
Proof.
  intros Hi Hc Hcf Hf Hfp Hfc Hok Hl1 Hl2 Hother Hmine Hcnt. pose proof (lookup_lt_Some _ _ _ Hc) as Hlt.
  assert (forall j d, j <> k -> consumers w !! j = Some d -> c_fwd d <> c_fwd c) as Hne
    by (intros j d Hj Hd E; apply Hj; by eapply (li_inj _ _ Hi)).
  assert (forall j d, j <> k -> consumers w !! j = Some d -> cons_blocks f' d = cons_blocks (fwd w) d) as Hcb
    by (intros j d Hj Hd; unfold cons_blocks; rewrite Hfc; [done|by eapply Hne]).
  assert (forall x, let w' := mkWorld f' (width w) lanes' (producers w) (<[k := c']> (consumers w)) g' in
    (custody w' lq' x <= custody w lq x)%nat /\
    forall p, producers w !! x.1 = Some p -> open_prod p = true -> custody w' lq' x = custody w lq x) as Hcust.
  { intros x. specialize (Hcnt x) as [H1 H2]. unfold custody. simpl.
    pose proof (total_change (fun c => cnt x (cons_blocks (fwd w) c)) (fun c => cnt x (cons_blocks f' c)) (consumers w) k c c' Hc) as Ht.
    specialize (Ht ltac:(intros j d Hj Hd; simpl; by rewrite (Hcb j d Hj Hd))). simpl in Ht.
    split; [lia|]. intros p Hp Ho. specialize (H2 p Hp Ho). lia. }
  constructor; simpl; try rewrite length_insert; try (by destruct Hi); try done.
  - rewrite Hl1. apply (li_lanes _ _ Hi).
  - rewrite Hl2. apply (li_lq _ _ Hi).
  - intros i j pr d ch q Hj Hk Hch Hq. updated Hk; [by eapply Hmine|].
    pose proof (lookup_lt_Some _ _ _ Hk) as Hkn. rewrite (li_nc _ _ Hi) in Hkn.
    destruct (Hother i j ltac:(done) Hkn) as [E1 E2]. rewrite E1 in Hch. rewrite E2 in Hq. by eapply (li_lane _ _ Hi).
  - intros j pr Hj. rewrite Hfp. by apply (li_prod _ _ Hi).
  - intros j d Hk. updated Hk; [by rewrite Hcf|]. destruct (li_cons _ _ Hi j d Hk) as (fc & H1 & H2 & H3). exists fc.
    rewrite Hfc by (by eapply Hne). split; [done|]. unfold cons_ok. by rewrite (Hcb j d).
  - intros j j' d d' Hj Hj' E. updated Hj; updated Hj'; try done.
    + rewrite Hcf in E. by eapply (li_inj _ _ Hi).
    + rewrite Hcf in E. by eapply (li_inj _ _ Hi).
    + by eapply (li_inj _ _ Hi).
  - intros x. destruct (Hcust x) as [H1 _]. pose proof (li_custody _ _ Hi x). lia.
  - intros j pr s Hj Ho. destruct (Hcust (j, s)) as [_ H1]. rewrite (H1 pr) by done. by eapply (li_kept _ _ Hi).
Qed.

(** ** Producers *)

Lemma cnt_ident x (l l' : list (Block T)) : ident <$> l ≡ₚ ident <$> l' -> cnt x l = cnt x l'.
Proof.
  intros Hp. assert (forall k : list (Block T), cnt x k = length (filter (fun y => y = x) (ident <$> k))) as E.
  { intros k. unfold cnt. induction k as [|b k IH]; [done|]. csimpl. rewrite !filter_cons.
    destruct (decide (ident b = x)); simpl; by rewrite IH. }
  by rewrite !E, Hp.
Qed.

Lemma open_live p k : open_prod p = true -> lane_live p k = true.
Proof. unfold open_prod, lane_live. by destruct (p_pc p). Qed.

Lemma lane_ok_live i k p p' c ch q :
  lane_live p k = lane_live p' k -> lane_ok i k p c ch q -> lane_ok i k p' c ch q.
Proof. unfold lane_ok. by intros ->. Qed.

(** The blocks of [p'] are those of [p], perhaps with other values. *)
Definition rearranged i p p' : Prop :=
  open_prod p = true /\ open_prod p' = true /\ ident <$> prod_blocks p' ≡ₚ ident <$> prod_blocks p /\
  (Forall (block_of i) (prod_blocks p) -> Forall (block_of i) (prod_blocks p')) /\
  cursor p' = cursor p /\ batch p' = batch p /\ in_flight p' = in_flight p /\
  (p_pc p' = PIdle (Flushed true) -> in_flight p = 0).

Lemma linv_local w lq i p p' :
  linv w lq -> producers w !! i = Some p -> rearranged i p p' -> goes_on (OK (set_producer w i p')).
Proof.
  intros Hi Hp (Ho & Ho' & Hb & Hf & E1 & E2 & E3 & Hfl). eexists _, lq. split; [reflexivity|].
  apply (linv_producer w lq i p); try done.
  - apply (li_fwd _ _ Hi).
  - destruct (li_prod _ _ Hi i p Hp) as (fp & Hfp & H1 & H2 & H3 & H4 & H5 & H6). exists fp. split; [done|].
    unfold prod_ok. rewrite E1, E2, E3, Ho', Ho in *. pose proof (Permutation_length Hb) as Hl. rewrite !length_fmap in Hl.
    rewrite Hl. split; [by apply Hf|]. splits.
  - intros k c ch q Hk Hch Hq. eapply lane_ok_live; [|by eapply (li_lane _ _ Hi)]. by rewrite !open_live.
  - intros x. rewrite (cnt_ident x _ _ Hb). done.
Qed.

Lemma lease_back i p b a :
  p_pc p = PHold b \/ p_pc p = PUnwinding b -> a <> Flushed true -> rearranged i p (rollback p b a).
Proof.
  intros Hpc Ha. unfold rearranged, prod_blocks, prod_held, open_prod. destruct Hpc as [-> | ->]; cbn; splits.
  - by rewrite <- app_assoc.
  - intros HF. by rewrite <- app_assoc.
  - by intros [= ->].
  - by rewrite <- app_assoc.
  - intros HF. by rewrite <- app_assoc.
  - by intros [= ->].
Qed.

Lemma lease_fill i p b l :
  p_pc p = PHold b -> (block_of i b -> Z.of_nat (length l) <= bat) -> rearranged i p (at_pc p (PHold (set_values b l))).
Proof.
  intros Hpc Hl. unfold rearranged, prod_blocks, prod_held, open_prod. rewrite Hpc. cbn. splits.
  - rewrite !fmap_app. done.
  - rewrite !Forall_app, !Forall_cons. intros (H1 & [H2 H3] & H4). splits. split; [by destruct H2|]. by apply Hl.
Qed.

Lemma lease_same i p b b' st :
  p_pc p = PHold b \/ p_pc p = PCheck b \/ p_pc p = PUnwinding b -> b' = b ->
  st = PHold b' \/ st = PCheck b' \/ st = PSend b' \/ st = PUnwinding b' ->
  rearranged i p (at_pc p st).
Proof.
  intros Hpc -> Hst. unfold rearranged, prod_blocks, prod_held, open_prod.
  destruct Hpc as [-> |[-> | ->]]; destruct Hst as [-> |[-> |[-> | ->]]]; cbn; splits.
Qed.

Lemma move_pc i p st :
  prod_held p = [] -> open_prod p = true -> prod_held (at_pc p st) = [] -> open_prod (at_pc p st) = true ->
  (st = PIdle (Flushed true) -> in_flight p = 0) -> rearranged i p (at_pc p st).
Proof. intros H1 H2 H3 H4 H5. unfold rearranged, prod_blocks. rewrite H1, H3. splits. Qed.

Lemma scanned_rearranged i p n j :
  p_pc p = PScan j 0 -> rearranged i p (scanned p n j).
Proof.
  intros Hpc. assert (prod_held p = [] /\ open_prod p = true) as [H1 H2] by (unfold prod_held, open_prod; by rewrite Hpc).
  assert (forall b l st, pop_free p = Some (b, l) -> st = PHold (set_values b []) -> rearranged i p (with_free p l st)) as Hpop.
  { intros b l st Hp ->. unfold pop_free in Hp. destruct (last (free p)) as [b'|] eqn:Hl; [|done]. injection Hp as -> <-.
    apply last_Some in Hl as [k Hk]. rewrite Hk. rewrite length_app. simpl.
    replace (length k + 1 - 1)%nat with (length k) by lia. rewrite take_app_length.
    unfold rearranged, prod_blocks. rewrite H1, Hk. cbn. splits.
    - rewrite !fmap_app. simpl. by rewrite <- app_assoc.
    - rewrite !Forall_app, !Forall_cons. intros ((HA & [HB1 HB2] & _) & HD). splits. split; [done|]. simpl. lia. }
  unfold scanned. destruct j as [| |m|fin].
  - destruct (pop_free p) as [[b l]|] eqn:Hp; [by eapply Hpop|]. by apply move_pc.
  - destruct (pop_free p) as [[b l]|] eqn:Hp; [by eapply Hpop|]. by apply move_pc.
  - by apply move_pc.
  - zbool; [by apply move_pc|]. destruct fin; by apply move_pc.
Qed.

(** A step of producer [i] on its return lane [k]. *)
Lemma linv_lane w lq i p p' k ch ch' q q' :
  linv w lq -> producers w !! i = Some p -> (k < nc)%nat ->
  lanes w !! (i * nc + k)%nat = Some ch -> lq !! (i * nc + k)%nat = Some q ->
  (forall j, j <> k -> lane_live p j = lane_live p' j) ->
  (forall c, consumers w !! k = Some c -> lane_ok i k p' c ch' q') ->
  (forall fp, prod_ok i p fp -> prod_ok i p' fp) -> (open_prod p' = true -> open_prod p = true) ->
  (forall x, (cnt x (prod_blocks p') + cnt x q' <= cnt x (prod_blocks p) + cnt x q)%nat /\
     (x.1 <> i \/ open_prod p' = true -> (cnt x (prod_blocks p') + cnt x q' = cnt x (prod_blocks p) + cnt x q)%nat)) ->
  linv (set_producer (set_lane w (i * nc + k) ch') i p') (<[(i * nc + k)%nat := q']> lq).
Proof.
  intros Hi Hp Hk Hch Hq Hlive Hlane Hok Ho Hcnt. apply (linv_producer w lq i p); try done.
  - apply (li_fwd _ _ Hi).
  - destruct (li_prod _ _ Hi i p Hp) as (fp & Hfp & H). exists fp. split; [done|by apply Hok].
  - apply length_insert.
  - apply length_insert.
  - intros j k' Hj Hk'. cbn. assert (i * nc + k <> j * nc + k')%nat as Hne
      by (intros E; destruct (lane_unique i k j k' Hk Hk' E); congruence).
    by rewrite !list_lookup_insert_ne by done.
  - intros k' c ch2 q2 Hc Hch2 Hq2. cbn in Hch2. pose proof (lookup_lt_Some _ _ _ Hc) as Hlt. rewrite (li_nc _ _ Hi) in Hlt.
    destruct (decide (k' = k)) as [->|Hne].
    + rewrite list_lookup_insert_eq in Hch2 by (by eapply lookup_lt_Some).
      rewrite list_lookup_insert_eq in Hq2 by (by eapply lookup_lt_Some). simplify_eq. by apply Hlane.
    + assert (i * nc + k <> i * nc + k')%nat as Hne' by lia.
      rewrite list_lookup_insert_ne in Hch2 by done. rewrite list_lookup_insert_ne in Hq2 by done.
      eapply lane_ok_live; [by apply Hlive|]. by eapply (li_lane _ _ Hi).
  - intros x. destruct (Hcnt x) as [H1 H2]. pose proof (total_update (cnt x) lq (i * nc + k) q q' Hq) as Ht. simpl.
    split; [lia|]. intros Hx. specialize (H2 Hx). lia.
Qed.

(** A block in a return lane is one the producer has in flight. *)
Lemma lane_in_flight w lq i p k c ch q :
  linv w lq -> producers w !! i = Some p -> open_prod p = true -> consumers w !! k = Some c ->
  lanes w !! (i * nc + k)%nat = Some ch -> lq !! (i * nc + k)%nat = Some q -> Z.of_nat (length q) <= in_flight p.
Proof.
  intros Hi Hp Ho Hc Hch Hq. pose proof (li_lane _ _ Hi i k p c ch q Hp Hc Hch Hq) as Hl. unfold lane_ok in Hl.
  rewrite (open_live p k Ho) in Hl. destruct Hl as (_ & _ & Hb).
  destruct (li_prod _ _ Hi i p Hp) as (fp & _ & Hf & _ & _ & _ & Hn & _). specialize (Hn Ho).
  assert (length (prod_blocks p ++ q) <= blocks)%nat as Hle; [|rewrite length_app in Hle; lia].
  apply (few w lq i); [done| |].
  - apply Forall_app. split; (eapply Forall_impl; [eassumption|]); by intros b [? _].
  - intros x. rewrite cnt_app. unfold custody.
    pose proof (total_bound (fun p => cnt x (prod_blocks p)) (producers w) i p Hp). pose proof (total_bound (cnt x) lq _ q Hq). simpl in *. lia.
Qed.

Lemma got_back_ok i p k n j b left :
  (forall fp, prod_ok i p fp -> p_pc p = PScan j (S k) -> block_of i b -> left = in_flight p - 1 ->
    forall cur, 0 <= cur ->
    prod_ok i (got_back (mkProducer (free p) (in_flight p) cur (batch p) (unwritten p) (PScan j k)) n j b left) fp).
Proof.
  intros fp (H1 & H2 & H3 & H4 & H5 & H6) Hpc [Hb1 Hb2] -> cur Hcur. revert H1 H4 H5.
  unfold prod_ok, prod_blocks, prod_held, open_prod. rewrite Hpc. intros H1 H4 H5.
  apply Forall_app in H1 as [H1a H1b]. specialize (H5 eq_refl). rewrite !length_app in H5. simpl in H5.
  assert (block_of i (set_values b [])) by (split; [done|simpl; lia]).
  destruct j; cbn; rewrite ?Forall_app, ?Forall_cons, ?length_app; simpl; rewrite ?length_app; splits.
Qed.

Lemma scan_lane_ok w lq i p j k :
  (0 < nc)%nat -> linv w lq -> producers w !! i = Some p -> p_pc p = PScan j (S k) -> goes_on (scan_lane w i p j k).
Proof.
  intros Hnc Hi Hp Hpc. assert (open_prod p = true /\ prod_held p = []) as [Ho Hh] by (unfold open_prod, prod_held; by rewrite Hpc).
  destruct (li_prod _ _ Hi i p Hp) as (fp & Hfp & Hok). pose proof Hok as (_ & Hcur & _).
  pose proof (lookup_lt_Some _ _ _ Hp) as Hlt. rewrite (li_np _ _ Hi) in Hlt.
  unfold scan_lane. rewrite (li_width _ _ Hi). destruct (next (cursor p) (Z.of_nat nc)) as [x cur] eqn:Hn.
  apply next_bounds in Hn as (Hx & -> & _); [|done|lia].
  assert (Z.to_nat x < nc)%nat as Hxn by lia. destruct (lane_at w lq i _ Hi Hlt Hxn) as (ch & q & Hch & Hq). rewrite Hch.
  destruct (lookup_lt_is_Some_2 (consumers w) (Z.to_nat x)) as [c Hc]; [by rewrite (li_nc _ _ Hi)|].
  pose proof (li_lane _ _ Hi _ _ p c ch q Hp Hc Hch Hq) as Hl. unfold lane_ok in Hl. rewrite (open_live p _ Ho) in Hl.
  destruct Hl as (Hr & Hcap & Hb). pose proof (lane_in_flight w lq i p _ c ch q Hi Hp Ho Hc Hch Hq) as Hfl.
  destruct q as [|b q].
  - destruct (bk_try_pop_nil_law ch _ Hr) as (ch' & Hpop & Hr'). rewrite Hpop. cbn [mbind outcome_bind].
    eexists _, _. split; [reflexivity|]. eapply (linv_lane w lq i p _ _ ch ch' [] []); try done.
    + intros y _. by rewrite !open_live.
    + intros c' Hc'. simplify_eq. unfold lane_ok. rewrite open_live by done. splits.
      by rewrite (bk_cap_pop _ _ _ _ _ Hr Hpop).
    + intros fp' (H1 & H2 & H3 & H4 & H5 & H6). revert H1 H4 H5.
      unfold prod_ok, prod_blocks. rewrite Hh, Ho. cbn. intros H1 H4 H5. splits.
    + intros y. unfold prod_blocks. rewrite Hh. done.
  - destruct (bk_try_pop_cons_law ch b q _ Hr) as (ch' & Hpop & Hr'). rewrite Hpop. cbn [mbind outcome_bind].
    apply Forall_cons in Hb as [Hb Hbq]. simpl in Hfl. unfold sub_usize. zbool; [|lia]. cbn [mbind outcome_bind].
    eexists _, _. split; [reflexivity|].
    assert (forall cu, open_prod (got_back (mkProducer (free p) (in_flight p) cu (batch p) (unwritten p) (PScan j k)) nc j b
      (in_flight p - 1)) = true) as Ho' by (by destruct j).
    eapply (linv_lane w lq i p _ _ ch ch' (b :: q) q); try done.
    + intros y _. by rewrite !open_live.
    + intros c' Hc'. simplify_eq. unfold lane_ok. rewrite open_live by done. splits.
      by rewrite (bk_cap_pop _ _ _ _ _ Hr Hpop).
    + intros fp' Hok'. eapply (got_back_ok i p k nc j b); try done. lia.
    + intros y. assert (cnt y (prod_blocks (got_back (mkProducer (free p) (in_flight p) (x + 1) (batch p) (unwritten p) (PScan j k))
        nc j b (in_flight p - 1))) = cnt y (prod_blocks p) + cnt y [b])%nat as E.
      { unfold prod_blocks. rewrite Hh, <- (cnt_set y b []). destruct j;
          cbn [got_back prod_held p_pc free unwritten]; rewrite !cnt_app, ?cnt_nil; lia. }
      rewrite E, (cnt_one y b q), (cnt_one y b []), cnt_nil. lia.
Qed.

(** A producer of the forward channel that grew its log by [l]. *)
Lemma fq_grow f f' ids i fp l st :
  brokerless.inv f (fq f) ids -> brokerless.producers f !! i = Some fp -> brokerless.taken f' = brokerless.taken f ->
  brokerless.producers f' = <[i := brokerless.mkProducer st (brokerless.accepted fp ++ l)]> (brokerless.producers f) ->
  exists q, fq f !! i = Some q /\ fq f' = <[i := q ++ l]> (fq f).
Proof.
  intros Hi Hp Ht Hp'. destruct (brokerless.producer_ring f _ ids i fp Hi Hp) as (s & q & _ & Hq & _ & Hacc & _).
  exists q. split; [done|]. pose proof (lookup_lt_Some _ _ _ Hq) as Hlt. apply list_eq. intros k.
  unfold fq at 1. rewrite list_lookup_imap, Hp', Ht. destruct (decide (k = i)) as [->|Hne].
  - rewrite !list_lookup_insert_eq by (done || by eapply lookup_lt_Some). simpl. f_equal.
    by rewrite Hacc, <- app_assoc, drop_app_length.
  - rewrite !list_lookup_insert_ne by done. unfold fq. by rewrite list_lookup_imap.
Qed.

Lemma fwd_grow f f' ids i fp l st :
  fwd_ok f -> brokerless.inv f (fq f) ids -> brokerless.producers f !! i = Some fp ->
  brokerless.taken f' = brokerless.taken f ->
  brokerless.producers f' = <[i := brokerless.mkProducer st (brokerless.accepted fp ++ l)]> (brokerless.producers f) ->
  brokerless.same_room f f' -> (exists qs ids, brokerless.inv f' qs ids) -> Forall (block_of i) l ->
  fwd_ok f' /\ forall x, total (cnt x) (fq f') = (total (cnt x) (fq f) + cnt x l)%nat.
Proof.
  intros Hf Hi Hp Ht Hp' Hroom (qs' & ids' & Hi') Hl. destruct (fq_grow f f' ids i fp l st Hi Hp Ht Hp') as (q & Hq & E).
  split.
  - destruct Hf as [_ H2 H3 H4]. constructor.
    + exists ids'. by rewrite <- (fq_inv f' qs' ids' Hi').
    + by rewrite Hp', length_insert.
    + by apply (same_room_ok f).
    + rewrite E. intros k q' Hk. updated Hk; [|by eapply H4]. apply Forall_app. split; [by eapply H4|done].
  - intros x. rewrite E. pose proof (total_update (cnt x) (fq f) i q (q ++ l) Hq) as H. rewrite cnt_app in H. lia.
Qed.

Lemma fwd_send f i fp b :
  fwd_ok f -> brokerless.producers f !! i = Some fp -> brokerless.p_pc fp = brokerless.PIdle -> block_of i b ->
  exists f' (ok : bool),
    brokerless.step (fun _ => false) f (brokerless.EProd i (brokerless.PTrySend b)) = Some (OK f') /\
    fwd_ok f' /\ brokerless.consumers f' = brokerless.consumers f /\
    brokerless.producers f' = <[i := brokerless.mkProducer brokerless.PIdle
      (brokerless.accepted fp ++ (if ok then [b] else []))]> (brokerless.producers f) /\
    (forall x, total (cnt x) (fq f') = (total (cnt x) (fq f) + cnt x (if ok then [b] else []))%nat) /\
    (forall q, fq f !! i = Some q -> Z.of_nat (length q) < slots -> ok = true).
Proof.
  intros Hf Hp Hpc Hb. destruct (fo_inv _ Hf) as [ids Hi]. destruct fp as [st acc]. simpl in Hpc. subst st.
  destruct (brokerless.producer_ring f _ ids i _ Hi Hp) as (s & q & Hs & Hq & _).
  destruct (brokerless.step (fun _ => false) f (brokerless.EProd i (brokerless.PTrySend b))) as [r|] eqn:Hstep;
    [|cbn [brokerless.step] in Hstep; unfold brokerless.prod_step in Hstep; by rewrite Hp in Hstep].
  destruct (brokerless.channel_step_ok _ f _ ids _ _ Hi Hstep) as (f' & qs' & ids' & -> & Hi').
  destruct (brokerless.try_send_room _ f _ ids i acc q b f' Hi Hp Hq Hstep) as (Hroom & Hc & Ht & _ & _ & ok & Hp' & Hok).
  exists f', ok. split; [done|].
  assert (brokerless.producers f' = <[i := brokerless.mkProducer brokerless.PIdle (acc ++ (if ok then [b] else []))]>
    (brokerless.producers f)) as Hp2 by (rewrite Hp'; destruct ok; by rewrite ?app_nil_r).
  destruct (fwd_grow f f' ids i _ (if ok then [b] else []) brokerless.PIdle Hf Hi Hp Ht Hp2 Hroom) as [H1 H2];
    [by exists qs', ids'|by destruct ok; constructor|].
  splits. intros q' Hq' Hlt. simplify_eq. apply (Hok s Hs). pose proof (fo_room _ Hf i s Hs). lia.
Qed.

Lemma fwd_close f i fp :
  fwd_ok f -> brokerless.producers f !! i = Some fp -> brokerless.p_pc fp = brokerless.PIdle ->
  exists f', brokerless.step (fun _ => false) f (brokerless.EProd i brokerless.PDrop) = Some (OK f') /\
    fwd_ok f' /\ brokerless.consumers f' = brokerless.consumers f /\
    brokerless.producers f' = <[i := brokerless.mkProducer brokerless.PDead (brokerless.accepted fp)]> (brokerless.producers f) /\
    forall x, total (cnt x) (fq f') = total (cnt x) (fq f).
Proof.
  intros Hf Hp Hpc. destruct (fo_inv _ Hf) as [ids Hi]. destruct fp as [st acc]. simpl in Hpc. subst st.
  destruct (brokerless.step (fun _ => false) f (brokerless.EProd i brokerless.PDrop)) as [r|] eqn:Hstep;
    [|cbn [brokerless.step] in Hstep; unfold brokerless.prod_step in Hstep; by rewrite Hp in Hstep].
  destruct (brokerless.channel_step_ok _ f _ ids _ _ Hi Hstep) as (f' & qs' & ids' & -> & Hi').
  destruct (brokerless.drop_room _ f _ ids i acc f' Hi Hp Hstep) as (Hroom & Hc & Ht & Hp').
  destruct (fwd_grow f f' ids i _ [] brokerless.PDead Hf Hi Hp Ht) as [H1 H2];
    [by rewrite app_nil_r|done|by exists qs', ids'|done|].
  exists f'. splits. intros x. rewrite H2, cnt_nil. lia.
Qed.

Context (Hnc : (0 < nc)%nat) (Hslots : Z.of_nat blocks <= slots).

(** A block of producer [i] that is not in ring [q] leaves it a free slot. *)
Lemma room_for w lq i b q :
  linv w lq -> origin b = i -> Forall (block_of i) q -> (forall x, (cnt x [b] + cnt x q <= custody w lq x)%nat) ->
  Z.of_nat (length q) < slots.
Proof.
  intros Hi Hb Hq Hx. assert (length (b :: q) <= blocks)%nat as Hle; [|simpl in Hle; lia].
  apply (few w lq i); [done| |].
  - constructor; [done|]. eapply Forall_impl; [exact Hq|]. by intros ? [? _].
  - intros x. specialize (Hx x). change (b :: q) with ([b] ++ q). by rewrite cnt_app.
Qed.

(** A commit that got past its check publishes the block. *)
Lemma send_ok w lq i p b :
  linv w lq -> producers w !! i = Some p -> p_pc p = PSend b ->
  exists f' p', send w i p b = OK (set_producer (set_fwd w f') i p') /\
    p_pc p' = PIdle (Committed (Z.of_nat (length (values b)))) /\ linv (set_producer (set_fwd w f') i p') lq.
Proof.
  intros Hi Hp Hpc. destruct (li_prod _ _ Hi i p Hp) as (fp & Hfp & H1 & H2 & H3 & H4 & H5 & H6).
  assert (open_prod p = true /\ prod_held p = [b]) as [Ho Hh] by (unfold open_prod, prod_held; by rewrite Hpc).
  rewrite Ho in H4. specialize (H5 Ho). unfold prod_blocks in H1, H5. rewrite Hh in H1, H5.
  apply Forall_app in H1 as (Hfree & Hrest). apply Forall_app in Hrest as [Hb Hun]. apply Forall_cons in Hb as [Hb _].
  destruct (fwd_send (fwd w) i fp b (li_fwd _ _ Hi) Hfp H4 Hb) as (f' & ok & Hstep & Hf' & Hc & Hp' & Hcnt & Hok).
  destruct (fo_inv _ (li_fwd _ _ Hi)) as [ids Hinv].
  destruct (brokerless.producer_ring (fwd w) _ ids i fp Hinv Hfp) as (s & q & _ & Hq & _).
  assert (ok = true) as ->.
  { apply (Hok q Hq). eapply (room_for w lq i b); [done|by destruct Hb|by eapply (fo_queue _ (li_fwd _ _ Hi))|].
    intros x. unfold custody. pose proof (total_bound (fun p => cnt x (prod_blocks p)) (producers w) i p Hp) as Hx.
    pose proof (total_bound (cnt x) (fq (fwd w)) i q Hq). simpl in Hx. unfold prod_blocks in Hx at 1.
    rewrite Hh, !cnt_app in Hx. lia. }
  unfold send. rewrite Hstep. cbn [mbind outcome_bind]. rewrite Hfp, Hp'. cbn [brokerless.producers].
  rewrite list_lookup_insert_eq by (by eapply lookup_lt_Some). cbn [brokerless.accepted]. rewrite length_app. simpl.
  destruct (Nat.ltb_spec (length (brokerless.accepted fp)) (length (brokerless.accepted fp) + 1)); [|lia].
  eexists f', _. split; [reflexivity|]. split; [done|]. apply (linv_producer w lq i p); try done.
  - intros j Hj. cbn. by rewrite Hp', list_lookup_insert_ne.
  - exists (brokerless.mkProducer brokerless.PIdle (brokerless.accepted fp ++ [b])). split.
    + cbn. rewrite Hp'. apply list_lookup_insert_eq. by eapply lookup_lt_Some.
    + unfold prod_ok, prod_blocks. cbn. rewrite !length_app in *. simpl in *. rewrite Forall_app. splits.
  - intros k c ch q' Hk Hch Hq'. eapply lane_ok_live; [|by eapply (li_lane _ _ Hi)]. by rewrite !open_live.
  - intros x. cbn zeta. rewrite Hcnt. unfold prod_blocks. rewrite Hh. cbn [prod_held p_pc free unwritten]. rewrite !cnt_app, ?cnt_nil. lia.
Qed.

Lemma cnt_other x i (l : list (Block T)) : Forall (block_of i) l -> x.1 <> i -> cnt x l = O.
Proof.
  intros Hl Hx. destruct (decide (cnt x l = O)) as [|Hne]; [done|]. destruct (proj1 (cnt_pos x l) ltac:(lia)) as (b & Hb & <-).
  rewrite Forall_forall in Hl. by destruct (Hl b Hb).
Qed.

Lemma close_ok w lq i p a :
  linv w lq -> producers w !! i = Some p -> p_pc p = PIdle a -> goes_on (close w i p).
Proof.
  intros Hi Hp Hpc. destruct (li_prod _ _ Hi i p Hp) as (fp & Hfp & H1 & H2 & H3 & H4 & H5 & H6).
  assert (open_prod p = true /\ prod_held p = []) as [Ho Hh] by (unfold open_prod, prod_held; by rewrite Hpc).
  rewrite Ho in H4. destruct (fwd_close (fwd w) i fp (li_fwd _ _ Hi) Hfp H4) as (f' & Hstep & Hf' & Hc & Hp' & Hcnt).
  unfold close. rewrite Hstep. cbn [mbind outcome_bind]. eexists _, lq. split; [reflexivity|].
  apply Forall_app in H1 as [Hfree Hun]. rewrite Hh in Hun.
  apply (linv_producer w lq i p); try done.
  - intros j Hj. cbn. by rewrite Hp', list_lookup_insert_ne.
  - eexists. split; [rewrite Hp'; apply list_lookup_insert_eq; by eapply lookup_lt_Some|].
    unfold prod_ok, prod_blocks. cbn. splits.
  - intros k c ch q Hk Hch Hq. eapply lane_ok_live; [|by eapply (li_lane _ _ Hi)]. by rewrite open_live.
  - intros x. cbn zeta. rewrite Hcnt. unfold prod_blocks. rewrite Hh. cbn [with_free prod_held p_pc free unwritten]. rewrite !cnt_app, ?cnt_nil. split; [lia|].
    intros [Hx|Hx]; [|done]. rewrite (cnt_other x i (free p)) by done. lia.
Qed.

Lemma close_lane_ok w lq i p k :
  linv w lq -> producers w !! i = Some p -> p_pc p = PClosing k -> (k < nc)%nat -> goes_on (close_lane w i p k).
Proof.
  intros Hi Hp Hpc Hk. pose proof (lookup_lt_Some _ _ _ Hp) as Hlt. rewrite (li_np _ _ Hi) in Hlt.
  destruct (lane_at w lq i k Hi Hlt Hk) as (ch & q & Hch & Hq). unfold close_lane. rewrite (li_width _ _ Hi), Hch.
  destruct (lookup_lt_is_Some_2 (consumers w) k) as [c Hc]; [by rewrite (li_nc _ _ Hi)|].
  pose proof (li_lane _ _ Hi i k p c ch q Hp Hc Hch Hq) as Hl. unfold lane_ok, lane_live in Hl.
  rewrite Hpc in Hl. destruct (Nat.leb_spec k k); [|lia]. destruct Hl as (Hr & _ & Hb).
  destruct (bk_drop_rx_law ch q _ Hr) as (ch' & q' & -> & Hr'). cbn [mbind outcome_bind]. eexists _, _. split; [reflexivity|].
  apply (linv_lane w lq i p _ k ch ch' q []); try done.
  - intros j Hj. unfold lane_live. rewrite Hpc. cbn [at_pc p_pc]. destruct (Nat.leb_spec k j), (Nat.leb_spec (S k) j); (done || lia).
  - intros c' Hc'. simplify_eq. unfold lane_ok, lane_live. cbn [at_pc p_pc]. destruct (Nat.leb_spec (S k) k); [lia|]. split; [done|by exists q'].
  - intros fp (H1 & H2 & H3 & H4 & H5 & H6). revert H1 H4 H5. unfold prod_ok, prod_blocks, prod_held, open_prod.
    rewrite Hpc. cbn. intros. splits.
  - intros x. unfold prod_blocks, prod_held. rewrite Hpc. cbn [at_pc p_pc free unwritten]. rewrite cnt_nil. split; [lia|].
    intros [Hx|Hx]; [|done]. rewrite (cnt_other x i q) by done. lia.
Qed.

Lemma closed_ok w lq i p k :
  linv w lq -> producers w !! i = Some p -> p_pc p = PClosing k -> (nc <= k)%nat -> goes_on (OK (set_producer w i (at_pc p PDead))).
Proof.
  intros Hi Hp Hpc Hk. eexists _, lq. split; [reflexivity|]. apply (linv_producer w lq i p); try done.
  - apply (li_fwd _ _ Hi).
  - destruct (li_prod _ _ Hi i p Hp) as (fp & Hfp & H1 & H2 & H3 & H4 & H5 & H6). exists fp. split; [done|].
    revert H1 H4 H5. unfold prod_ok, prod_blocks, prod_held, open_prod. rewrite Hpc. cbn. intros. splits.
  - intros j c ch q Hj Hch Hq. eapply lane_ok_live; [|by eapply (li_lane _ _ Hi)].
    apply lookup_lt_Some in Hj. rewrite (li_nc _ _ Hi) in Hj. unfold lane_live. rewrite Hpc. cbn [at_pc p_pc].
    destruct (Nat.leb_spec k j); (done || lia).
  - intros x. unfold prod_blocks, prod_held. rewrite Hpc. done.
Qed.

Lemma leased_prod_step w lq i op r : linv w lq -> prod_step w i op = Some r -> goes_on r.
Proof.
  intros Hi. unfold prod_step. destruct (producers w !! i) as [p|] eqn:Hp; [|done].
  destruct (li_prod _ _ Hi i p Hp) as (fp & Hfp & Hok). pose proof Hok as (_ & _ & Hbat & _).
  assert (forall p', rearranged i p p' -> Some (OK (set_producer w i p')) = Some r -> goes_on r) as Hgo
    by (intros p' Hr [= <-]; by eapply linv_local).
  assert (prod_held p = [] -> open_prod p = true -> forall st, prod_held (at_pc p st) = [] -> open_prod (at_pc p st) = true ->
    st <> PIdle (Flushed true) -> Some (OK (set_producer w i (at_pc p st))) = Some r -> goes_on r) as Hmv
    by (intros H1 H2 st H3 H4 H5; apply Hgo; by apply move_pc).
  destruct (p_pc p) as [a|j|j [|k]|b|b|b|b|k|] eqn:Hpc; destruct op; try done;
    assert (prod_held p = match p_pc p with PHold b | PUnwinding b | PCheck b | PSend b => [b] | _ => [] end) as Hh by done;
    assert (open_prod p = match p_pc p with PClosing _ | PDead => false | _ => true end) as Ho by done;
    rewrite Hpc in Hh, Ho; try (by apply Hmv).
  - intros [= <-]. by eapply close_ok.
  - destruct j; try (destruct (is_disconnected w)); by apply Hmv.
  - apply Hgo. by apply scanned_rearranged.
  - intros [= <-]. by eapply scan_lane_ok.
  - apply Hgo. unfold push. zbool; [eapply (lease_same i p b); [by left|done|by left]|]. apply (lease_fill i p b); [done|].
    intros [_ Hb]. rewrite length_app. simpl. lia.
  - apply Hgo. unfold extend_from_slice. zbool; [eapply (lease_same i p b); [by left|done|by left]|]. apply (lease_fill i p b); [done|].
    intros [_ Hb]. rewrite length_app. lia.
  - apply Hgo. unfold advance_initialized. zbool; [|eapply (lease_same i p b); [by left|done|by right; right; right]].
    apply (lease_fill i p b); [done|].
    intros [_ Hb]. rewrite length_app. lia.
  - destruct (Nat.eqb_spec (length l) (length (values b))) as [E|]; [|done]. apply Hgo, lease_fill; [done|]. intros [_ Hb]. lia.
  - apply Hgo. unfold commit. destruct (values b); [by apply lease_back; [left|]|]. eapply lease_same; [by left|done|]. by right; left.
  - apply Hgo. apply lease_back; [by left|done].
  - apply Hgo. unfold rearranged, prod_blocks. rewrite Hh, Ho. cbn. splits.
    + apply fmap_Permutation, Permutation_app_head. by rewrite Permutation_app_comm.
    + rewrite !Forall_app, !Forall_cons. intros (? & ? & ?). splits.
  - apply Hgo. apply lease_back; [by right|done].
  - apply Hgo. eapply (lease_same i p b); [by right; right|done|by left].
  - apply Hgo. destruct (is_disconnected w); (eapply lease_same; [by right; left|done|]); [by left|by right; right; left].
  - intros [= <-]. destruct (send_ok w lq i p b Hi Hp Hpc) as (f' & p' & -> & _ & H). by eexists _, _.
  - destruct (Nat.ltb_spec k (width w)) as [Hk|Hk]; rewrite (li_width _ _ Hi) in Hk; intros [= <-].
    + by eapply close_lane_ok.
    + by eapply closed_ok.
Qed.

(** ** Consumers *)

(** Between takes. *)
Definition resting (st : cpc T) : bool := match st with CTake _ _ _ | CGone => false | _ => true end.
Definition lent (st : cpc T) : list (Block T) := match st with CHold b | CReturn b => [b] | _ => [] end.

Lemma lent_blocks f c : resting (c_pc c) = true -> cons_blocks f c = lent (c_pc c).
Proof. unfold cons_blocks. by destruct (c_pc c). Qed.

Lemma lane_ok_gone i k p c c' ch q : cons_gone c = cons_gone c' -> lane_ok i k p c ch q -> lane_ok i k p c' ch q.
Proof. unfold lane_ok. by intros ->. Qed.

(** A step that leaves the forward channel alone, from one resting state to
    another. *)
Lemma linv_resting w lq k c st lanes' lq' g' :
  linv w lq -> consumers w !! k = Some c -> resting (c_pc c) = true -> resting st = true -> Forall block_ok (lent st) ->
  length lanes' = length (lanes w) -> length lq' = length lq ->
  (forall i j, j <> k -> (j < nc)%nat ->
     lanes' !! (i * nc + j)%nat = lanes w !! (i * nc + j)%nat /\ lq' !! (i * nc + j)%nat = lq !! (i * nc + j)%nat) ->
  (forall i p ch q, producers w !! i = Some p -> lanes' !! (i * nc + k)%nat = Some ch ->
     lq' !! (i * nc + k)%nat = Some q -> lane_ok i k p c ch q) ->
  (forall x, let old := (cnt x (lent (c_pc c)) + total (cnt x) lq + cnt x (forgotten w))%nat in
     let new := (cnt x (lent st) + total (cnt x) lq' + cnt x g')%nat in
     (new <= old)%nat /\ forall p, producers w !! x.1 = Some p -> open_prod p = true -> new = old) ->
  linv (mkWorld (fwd w) (width w) lanes' (producers w) (<[k := cons_at c st]> (consumers w)) g') lq'.
Proof.
  intros Hi Hc Hr Hr' Hb Hl1 Hl2 Hother Hmine Hcnt. apply (linv_consumer w lq k c); try done.
  - apply (li_fwd _ _ Hi).
  - destruct (li_cons _ _ Hi k c Hc) as (fc & Hfc & _ & H). exists fc. split; [done|]. unfold cons_ok.
    rewrite lent_blocks by done. split; [done|]. cbn [cons_at c_pc acquired].
    destruct (c_pc c); try done; destruct st; done.
  - intros i p ch q Hp Hch Hq. eapply (lane_ok_gone i k p c); [|by eapply Hmine].
    unfold cons_gone. cbn [cons_at c_pc]. destruct (c_pc c), st; done.
  - intros x. specialize (Hcnt x) as [H1 H2]. cbn zeta. rewrite !lent_blocks by done. cbn [cons_at c_pc].
    split; [lia|]. intros p Hp Ho. specialize (H2 p Hp Ho). lia.
Qed.

(** ... and the lanes too. *)
Lemma resting_ok w lq k c st g' :
  linv w lq -> consumers w !! k = Some c -> resting (c_pc c) = true -> resting st = true ->
  (Forall block_ok (lent (c_pc c)) -> Forall block_ok (lent st)) ->
  (forall x, (cnt x (lent st) + cnt x g' = cnt x (lent (c_pc c)) + cnt x (forgotten w))%nat) ->
  goes_on (OK (mkWorld (fwd w) (width w) (lanes w) (producers w) (<[k := cons_at c st]> (consumers w)) g')).
Proof.
  intros Hi Hc Hr Hr' Hb Hcnt. eexists _, lq. split; [reflexivity|]. apply (linv_resting w lq k c); try done.
  - destruct (li_cons _ _ Hi k c Hc) as (fc & Hfc & H & _). rewrite lent_blocks in H by done. by apply Hb.
  - intros. by eapply (li_lane _ _ Hi).
  - intros x. specialize (Hcnt x). cbn zeta. split; [lia|]. intros; lia.
Qed.

Lemma held_block w lq k c b :
  linv w lq -> consumers w !! k = Some c -> c_pc c = CHold b \/ c_pc c = CReturn b ->
  (k < nc)%nat /\ block_ok b /\ resting (c_pc c) = true /\ cons_gone c = false /\
  exists p ch q, producers w !! origin b = Some p /\ lanes w !! (origin b * nc + k)%nat = Some ch /\
    lq !! (origin b * nc + k)%nat = Some q /\ lane_ok (origin b) k p c ch q.
Proof.
  intros Hi Hc Hpc. pose proof (lookup_lt_Some _ _ _ Hc) as Hk. rewrite (li_nc _ _ Hi) in Hk. split; [done|].
  assert (resting (c_pc c) = true /\ lent (c_pc c) = [b] /\ cons_gone c = false) as (Hr & Hl & Hg)
    by (unfold cons_gone; by destruct Hpc as [-> | ->]).
  destruct (li_cons _ _ Hi k c Hc) as (fc & Hfc & H & _). rewrite lent_blocks, Hl in H by done.
  apply Forall_cons in H as [H _]. split; [done|]. split; [done|]. split; [done|]. destruct H as [Ho _].
  destruct (lane_at w lq (origin b) k Hi Ho Hk) as (ch & q & Hch & Hq).
  destruct (lookup_lt_is_Some_2 (producers w) (origin b)) as [p Hp]; [by rewrite (li_np _ _ Hi)|].
  exists p, ch, q. splits. by eapply (li_lane _ _ Hi).
Qed.

(** The block of a producer whose lane has no receiver any more is dropped. *)
Lemma lost_block w b p k x p' :
  producers w !! origin b = Some p -> lane_live p k = false -> producers w !! x.1 = Some p' -> open_prod p' = true ->
  cnt x [b] = O.
Proof.
  intros Hp Hl Hp' Ho. rewrite cnt_one, decide_False, cnt_nil; [done|]. intros <-. simpl in Hp'. simplify_eq.
  by rewrite open_live in Hl.
Qed.

Lemma release_ok w lq k c b :
  linv w lq -> consumers w !! k = Some c -> c_pc c = CHold b -> goes_on (release w k c b).
Proof.
  intros Hi Hc Hpc. destruct (held_block w lq k c b Hi Hc (or_introl Hpc)) as (Hk & Hb & Hr & Hg & p & ch & q & Hp & Hch & Hq & Hl).
  unfold release. rewrite (li_width _ _ Hi), Hch. unfold lane_ok in Hl. destruct (lane_live p k) eqn:Hlive.
  - destruct Hl as (Hrep & _). rewrite (bk_consumer_gone_law _ _ _ _ Hrep). apply (resting_ok w lq k c); try done.
    + intros _. by constructor.
    + intros x. by rewrite Hpc.
  - destruct Hl as (_ & q' & Hrep). rewrite (bk_consumer_gone_law _ _ _ _ Hrep). eexists _, lq. split; [reflexivity|].
    apply (linv_resting w lq k c); try done; [intros; by eapply (li_lane _ _ Hi)|].
    intros x. rewrite Hpc. cbn zeta. cbn [lent]. rewrite cnt_nil. split; [lia|]. intros p' Hp' Ho.
    rewrite (lost_block w b p k x p') by done. lia.
Qed.

(** Replacing the lane from consumer [k] to producer [o]. *)
Lemma lane_replace {X} (l : list X) o k (y : X) :
  (k < nc)%nat ->
  (forall i j, j <> k -> (j < nc)%nat -> <[(o * nc + k)%nat := y]> l !! (i * nc + j)%nat = l !! (i * nc + j)%nat) /\
  (forall i z, <[(o * nc + k)%nat := y]> l !! (i * nc + k)%nat = Some z ->
     (i = o /\ z = y) \/ (i <> o /\ l !! (i * nc + k)%nat = Some z)).
Proof.
  intros Hk. split.
  - intros i j Hj Hjn. apply list_lookup_insert_ne. intros E. by destruct (lane_unique o k i j Hk Hjn E).
  - intros i z Hz. apply insert_other_or_same in Hz as [[E <-]|[Hne Hz]].
    + left. by destruct (lane_unique o k i k Hk Hk E).
    + right. split; [|done]. intros ->. done.
Qed.

(** A live producer's lane takes the block. *)
Lemma give_back_ok w lq k c b :
  linv w lq -> consumers w !! k = Some c -> c_pc c = CReturn b -> goes_on (give_back w k c b).
Proof.
  intros Hi Hc Hpc. destruct (held_block w lq k c b Hi Hc (or_intror Hpc)) as (Hk & Hb & Hr & Hg & p & ch & q & Hp & Hch & Hq & Hl).
  unfold give_back. rewrite (li_width _ _ Hi), Hch. unfold lane_ok in Hl. rewrite Hg in Hl.
  destruct (lane_live p k) eqn:Hlive.
  - destruct Hl as (Hrep & Hcap & Hbq).
    assert (Z.of_nat (length q) < slots) as Hroom.
    { apply (room_for w lq (origin b) b); try done. intros x. unfold custody.
      pose proof (total_bound (fun c => cnt x (cons_blocks (fwd w) c)) (consumers w) k c Hc) as H1.
      pose proof (total_bound (cnt x) lq _ q Hq). simpl in H1. rewrite lent_blocks, Hpc in H1 by done. cbn [lent] in H1. lia. }
    destruct (bk_room_law ch q false b Hrep) as [ch' Hpush]; [lia|].
    destruct (bk_try_push_law ch q false b Hrep) as (r & ch2 & Hpush2 & Hcase). rewrite Hpush in Hpush2.
    injection Hpush2 as <- <-. destruct Hcase as [[_ Hrep']|[? _]]; [|done].
    rewrite Hpush. cbn [mbind outcome_bind]. eexists _, (<[(origin b * nc + k)%nat := q ++ [b]]> lq). split; [reflexivity|].
    destruct (lane_replace (lanes w) (origin b) k ch' Hk) as [L1 L2].
    destruct (lane_replace lq (origin b) k (q ++ [b]) Hk) as [Q1 Q2].
    apply (linv_resting w lq k c); try done; cbn zeta.
    + apply length_insert.
    + apply length_insert.
    + intros i j Hj Hjn. by rewrite L1, Q1.
    + intros i p' ch2 q2 Hp' Hch2 Hq2. destruct (L2 i ch2 Hch2) as [[E ->]|[Hne Hch2']], (Q2 i q2 Hq2) as [[E' ->]|[Hne' Hq2']]; try done.
      * subst i. simplify_eq. unfold lane_ok. rewrite Hlive, Hg. splits; [by rewrite (bk_cap_push _ _ _ _ _ _ Hrep Hpush)|].
        apply Forall_app. split; [done|]. constructor; [|done]. by destruct Hb.
      * by eapply (li_lane _ _ Hi).
    + intros x. pose proof (total_update (cnt x) lq _ q (q ++ [b]) Hq) as Ht. rewrite cnt_app in Ht. rewrite Hpc.
      cbn [lent set_lane forgotten]. rewrite cnt_nil. split; [lia|]. intros; lia.
  - destruct Hl as (-> & q' & Hrep). destruct (bk_try_push_law ch q' true b Hrep) as (r & ch' & -> & Hcase).
    cbn [mbind outcome_bind]. eexists _, lq. split; [reflexivity|].
    destruct (lane_replace (lanes w) (origin b) k ch' Hk) as [L1 L2]. apply (linv_resting w lq k c); try done; cbn zeta.
    + apply length_insert.
    + intros i j Hj Hjn. by rewrite L1.
    + intros i p' ch2 q2 Hp' Hch2 Hq2. destruct (L2 i ch2 Hch2) as [[-> ->]|[Hne Hch2']]; [|by eapply (li_lane _ _ Hi)].
      simplify_eq. unfold lane_ok. rewrite Hlive, Hg. split; [done|]. destruct Hcase as [[_ ?]|[_ ?]]; eauto.
    + intros x. rewrite Hpc. cbn [lent set_lane forgotten]. rewrite cnt_nil. split; [lia|]. intros p' Hp' Ho.
      rewrite (lost_block w b p k x p') by done. lia.
Qed.

(** A step of the forward endpoint [j] that leaves nothing staged. *)
Lemma fwd_take f j op f' fc fc' :
  fwd_ok f -> op <> brokerless.CClone -> brokerless.step (fun _ => false) f (brokerless.ECons j op) = Some (OK f') ->
  brokerless.consumers f !! j = Some fc -> brokerless.consumers f' !! j = Some fc' ->
  batch_repr (brokerless.staging fc) [] -> batch_repr (brokerless.staging fc') [] ->
  fwd_ok f' /\ brokerless.producers f' = brokerless.producers f /\
  (forall k, k <> j -> brokerless.consumers f' !! k = brokerless.consumers f !! k) /\
  exists l, brokerless.received fc' = brokerless.received fc ++ l /\ Forall block_ok l /\
    forall x, total (cnt x) (fq f) = (cnt x l + total (cnt x) (fq f'))%nat.
Proof.
  intros Hf Hop Hs Hc Hc' Hst Hst'.
  destruct (fwd_cons_step f j op f' Hf Hop Hs) as (Hf' & Hp & Ho & new & Ht & Hnew & Hok & Hcnt).
  split; [done|]. split; [done|]. split; [done|]. exists (snd <$> new).
  destruct (fo_inv _ Hf) as [ids Hi]. destruct (fo_inv _ Hf') as [ids' Hi'].
  split; [by eapply (received_new f f' ids ids' j)|]. done.
Qed.

(** The same when the endpoint's log did not move. *)
Lemma fwd_quiet f j op f' fc fc' :
  fwd_ok f -> op <> brokerless.CClone -> brokerless.step (fun _ => false) f (brokerless.ECons j op) = Some (OK f') ->
  brokerless.consumers f !! j = Some fc -> brokerless.consumers f' !! j = Some fc' ->
  batch_repr (brokerless.staging fc) [] -> brokerless.staging fc' = brokerless.staging fc ->
  brokerless.received fc' = brokerless.received fc ->
  fwd_ok f' /\ brokerless.producers f' = brokerless.producers f /\
  (forall k, k <> j -> brokerless.consumers f' !! k = brokerless.consumers f !! k) /\
  forall x, total (cnt x) (fq f) = total (cnt x) (fq f').
Proof.
  intros Hf Hop Hs Hc Hc' Hst E1 E2.
  destruct (fwd_take f j op f' fc fc' Hf Hop Hs Hc Hc' Hst ltac:(by rewrite E1)) as (H1 & H2 & H3 & l & Hl & _ & Hcnt).
  rewrite E2 in Hl. assert (l = []) as -> by (destruct l; [done|]; apply (f_equal length) in Hl; rewrite length_app in Hl; simpl in Hl; lia).
  splits.
Qed.

Lemma begin_take_ok w lq k c blk fin :
  linv w lq -> consumers w !! k = Some c -> c_pc c = CIdle \/ c_pc c = CLoad -> goes_on (begin_take w k c blk fin).
Proof.
  intros Hi Hc Hpc. destruct (li_cons _ _ Hi k c Hc) as (fc & Hfc & _ & Hok).
  assert (brokerless.pc fc = brokerless.Idle false /\ batch_repr (brokerless.staging fc) [] /\
    acquired c = brokerless.received fc) as (Hid & Hst & Hacq) by (by destruct Hpc as [E|E]; rewrite E in Hok).
  assert (resting (c_pc c) = true /\ lent (c_pc c) = [] /\ cons_gone c = false) as (Hr & Hl & Hg)
    by (unfold cons_gone; by destruct Hpc as [-> | ->]).
  set (fc' := brokerless.set_pc fc (brokerless.Start (mkJob (Drain 1) false 0))).
  assert (brokerless.step (fun _ => false) (fwd w) (brokerless.ECons (c_fwd c) (brokerless.CCall (Drain 1))) =
    Some (OK (brokerless.set_consumer (fwd w) (c_fwd c) fc'))) as Hstep.
  { cbn [brokerless.step]. unfold brokerless.cons_step. rewrite Hfc. unfold brokerless.is_idle. by rewrite Hid. }
  unfold begin_take. rewrite Hfc, Hstep. cbn [mbind outcome_bind]. eexists _, lq. split; [reflexivity|].
  assert (brokerless.consumers (brokerless.set_consumer (fwd w) (c_fwd c) fc') !! c_fwd c = Some fc') as Hfc'
    by (apply list_lookup_insert_eq; by eapply lookup_lt_Some).
  destruct (fwd_quiet _ _ (brokerless.CCall (Drain 1)) _ fc fc' (li_fwd _ _ Hi) ltac:(done) Hstep Hfc Hfc' Hst eq_refl eq_refl) as (Hf' & Hp & Ho & Hcnt).
  apply (linv_consumer w lq k c); try done.
  - exists fc'. split; [done|]. unfold cons_ok, cons_blocks. cbn [cons_at c_pc c_fwd acquired set_fwd fwd]. rewrite Hfc'.
    split; [|split; [by split|by rewrite take_ge by done]]. by rewrite drop_ge by done.
  - intros i p ch q Hp' Hch Hq. eapply (lane_ok_gone i k p c); [done|by eapply (li_lane _ _ Hi)].
  - intros x. cbn zeta. rewrite (lent_blocks _ c) by done. rewrite Hl. unfold cons_blocks. cbn [cons_at c_pc c_fwd set_fwd fwd forgotten].
    rewrite Hfc', drop_ge, (Hcnt x) by done. split; [lia|]. intros; lia.
Qed.

Lemma leased_drop_consumer w lq k c :
  linv w lq -> consumers w !! k = Some c -> c_pc c = CIdle -> goes_on (drop_consumer w k c).
Proof.
  intros Hi Hc Hpc. destruct (li_cons _ _ Hi k c Hc) as (fc & Hfc & _ & Hok). rewrite Hpc in Hok.
  destruct Hok as (Hid & Hst & Hacq). set (fc' := brokerless.set_pc fc (brokerless.Gone false)).
  pose proof (lookup_lt_Some _ _ _ Hc) as Hk. rewrite (li_nc _ _ Hi) in Hk.
  destruct (brokerless.step (fun _ => false) (fwd w) (brokerless.ECons (c_fwd c) brokerless.CDrop)) as [r|] eqn:Hstep;
    [|cbn [brokerless.step] in Hstep; unfold brokerless.cons_step in Hstep; by rewrite Hfc, Hid in Hstep].
  pose proof Hstep as Hs2. cbn [brokerless.step] in Hs2. unfold brokerless.cons_step in Hs2. rewrite Hfc, Hid in Hs2. injection Hs2 as <-.
  unfold drop_consumer. rewrite Hstep. cbn [mbind outcome_bind]. eexists _, lq. split; [reflexivity|].
  match type of Hstep with _ = Some (OK ?f') => assert (brokerless.consumers f' !! c_fwd c = Some fc') as Hfc'
    by (apply list_lookup_insert_eq; by eapply lookup_lt_Some) end.
  destruct (fwd_quiet _ _ brokerless.CDrop _ fc fc' (li_fwd _ _ Hi) ltac:(done) Hstep Hfc Hfc' Hst eq_refl eq_refl) as (Hf' & Hp & Ho & Hcnt).
  rewrite (li_width _ _ Hi). set (ids := _ <$> seq 0 _).
  assert (NoDup ids) as Hnd by (apply NoDup_fmap_2; [intros a b' E; by destruct (lane_unique a k b' k Hk Hk E)|apply NoDup_seq]).
  assert (forall i j, (j < nc)%nat -> (i * nc + j)%nat ∈ ids <-> (i < np)%nat /\ j = k) as Hin.
  { intros i j Hj. unfold ids. rewrite list_elem_of_fmap. rewrite (li_np _ _ Hi). split.
    - intros (y & E & Hy%elem_of_seq). destruct (lane_unique i j y k Hj Hk E) as [-> ->]. split; [lia|done].
    - intros [? ->]. exists i. split; [done|]. apply elem_of_seq. lia. }
  rewrite <- (li_width _ _ Hi). apply (linv_consumer w lq k c); try done.
  - exists fc'. split; [done|]. unfold cons_ok. cbn. done.
  - apply foldr_alter_length.
  - intros i j Hj Hjn. rewrite foldr_alter_lookup by done. rewrite decide_False; [done|]. by intros [_ ?]%Hin.
  - intros i p ch q Hp' Hch Hq. rewrite foldr_alter_lookup in Hch by done.
    rewrite decide_True in Hch by (apply Hin; [done|]; split; [|done]; rewrite <- (li_np _ _ Hi); by eapply lookup_lt_Some).
    destruct (lanes w !! (i * nc + k)%nat) as [ch0|] eqn:Hch0; [|done]. injection Hch as <-.
    pose proof (li_lane _ _ Hi i k p c ch0 q Hp' Hc Hch0 Hq) as Hl. unfold lane_ok, cons_gone in *. rewrite Hpc in Hl. cbn.
    destruct (lane_live p k).
    + destruct Hl as (H1 & H2 & H3). splits; [by apply bk_drop_tx_law|by rewrite bk_cap_drop_tx].
    + destruct Hl as (-> & q' & H1). split; [done|]. exists q'. by apply bk_drop_tx_law.
  - intros x. cbn zeta. rewrite (lent_blocks _ c) by (by rewrite Hpc). rewrite Hpc. unfold cons_blocks. cbn [cons_at c_pc c_fwd lent].
    rewrite (Hcnt x). split; [lia|]. intros; lia.
Qed.

Lemma taking_seen seen (fc : brokerless.Consumer (Block T) Cursor) :
  brokerless.taking seen fc -> (seen <= length (brokerless.received fc))%nat.
Proof. intros [_ H]. destruct (brokerless.pc fc); try done; (lia || (destruct H as [_ H]; try lia)). destruct H as (n & _ & _ & ->). lia. Qed.

(** The drain returned: the caller holds the block it gave, if any. *)
Lemma taken_ok w lq k c blk fin seen fc :
  linv w lq -> consumers w !! k = Some c -> c_pc c = CTake blk fin seen ->
  brokerless.consumers (fwd w) !! c_fwd c = Some fc -> brokerless.pc fc = brokerless.Idle false ->
  brokerless.taking seen fc -> acquired c = take seen (brokerless.received fc) ->
  Forall block_ok (drop seen (brokerless.received fc)) ->
  goes_on (OK (set_consumer w k
    (match last (drop seen (brokerless.received fc)) with
     | Some b => mkConsumer (c_fwd c) (acquired c ++ [b]) (CHold b)
     | None => cons_at c (if blk && negb fin then CLoad else CIdle)
     end))).
Proof.
  intros Hi Hc Hpc Hfc Hid Ht Hacq Hb. pose proof (taking_seen seen fc Ht) as Hseen. destruct Ht as [Hst Ht]. rewrite Hid in Ht.
  pose proof (take_drop seen (brokerless.received fc)) as Hsplit.
  assert (length (drop seen (brokerless.received fc)) <= 1)%nat as Hlen by (rewrite length_drop; lia).
  assert (cons_blocks (fwd w) c = drop seen (brokerless.received fc)) as Hold by (unfold cons_blocks; by rewrite Hpc, Hfc).
  eexists _, lq. split; [reflexivity|]. apply (linv_consumer w lq k c); try done.
  - by destruct (last _).
  - apply (li_fwd _ _ Hi).
  - exists fc. split; [done|]. destruct (drop seen (brokerless.received fc)) as [|b [|]]; [| |simpl in Hlen; lia]; cbn [last].
    + unfold cons_ok. rewrite lent_blocks by (by destruct (blk && negb fin)). rewrite app_nil_r in Hsplit.
      split; [by destruct (blk && negb fin)|]. rewrite Hsplit in Hacq. cbn. by destruct (blk && negb fin).
    + unfold cons_ok. rewrite lent_blocks by done. split; [done|]. cbn. rewrite Hacq, Hsplit. done.
  - intros i p ch q Hp' Hch Hq. eapply (lane_ok_gone i k p c); [|by eapply (li_lane _ _ Hi)].
    unfold cons_gone. rewrite Hpc. destruct (last _); [done|]. by destruct (blk && negb fin).
  - intros x. cbn zeta. rewrite Hold. destruct (drop seen (brokerless.received fc)) as [|b [|]]; [| |simpl in Hlen; lia]; cbn [last].
    + rewrite lent_blocks by (by destruct (blk && negb fin)). by destruct (blk && negb fin).
    + rewrite lent_blocks by done. done.
Qed.

Lemma take_step_ok w lq k c blk fin seen :
  linv w lq -> consumers w !! k = Some c -> c_pc c = CTake blk fin seen -> goes_on (take_step w k c blk fin seen).
Proof.
  intros Hi Hc Hpc. destruct (li_cons _ _ Hi k c Hc) as (fc & Hfc & Hb & Hok). rewrite Hpc in Hok. destruct Hok as [Ht Hacq].
  assert (cons_blocks (fwd w) c = drop seen (brokerless.received fc)) as Hold by (unfold cons_blocks; by rewrite Hpc, Hfc).
  rewrite Hold in Hb. unfold take_step. rewrite Hfc. destruct (brokerless.is_idle fc) eqn:Hidle.
  { apply (taken_ok w lq k c blk fin seen fc); try done. unfold brokerless.is_idle in Hidle. destruct Ht as [_ Ht].
    destruct (brokerless.pc fc); try done. by destruct Ht as [-> _]. }
  destruct (fo_inv _ (li_fwd _ _ Hi)) as [ids Hinv].
  destruct (brokerless.step (fun _ => false) (fwd w) (brokerless.ECons (c_fwd c) brokerless.CStep)) as [r|] eqn:Hstep; cycle 1.
  { exfalso. cbn [brokerless.step] in Hstep. unfold brokerless.cons_step, brokerless.cons_continue in Hstep. rewrite Hfc in Hstep.
    unfold brokerless.is_idle in Hidle. destruct Ht as [_ Ht]. destruct (brokerless.pc fc) as [| | |j [|n]| | | | |]; done. }
  destruct (brokerless.channel_step_ok _ (fwd w) _ ids _ _ Hinv Hstep) as (f' & qs' & ids' & -> & _). cbn [mbind outcome_bind].
  destruct (brokerless.taking_step (fwd w) _ ids _ fc seen f' Hinv Hfc Ht Hstep) as (fc' & Hfc' & Ht').
  destruct (fwd_take _ _ brokerless.CStep f' fc fc' (li_fwd _ _ Hi) ltac:(done) Hstep Hfc Hfc' (proj1 Ht) (proj1 Ht'))
    as (Hf' & Hp & Ho & l & Hrec & Hl & Hcnt).
  pose proof (taking_seen seen fc Ht) as Hseen.
  assert (cons_blocks f' c = drop seen (brokerless.received fc) ++ l) as Hnew
    by (unfold cons_blocks; by rewrite Hpc, Hfc', Hrec, drop_app_le).
  eexists _, lq. split; [reflexivity|]. unfold set_fwd. rewrite <- (list_insert_id (consumers w) k c Hc).
  apply (linv_consumer w lq k c); try done.
  - exists fc'. split; [done|]. unfold cons_ok. rewrite Hnew, Hpc, Hrec, take_app_le by done. split; [by apply Forall_app|done].
  - intros. by eapply (li_lane _ _ Hi).
  - intros x. cbn zeta. rewrite Hold, Hnew, cnt_app, (Hcnt x). split; [lia|]. intros; lia.
Qed.

Lemma leased_cons_step w lq k op r : linv w lq -> cons_step w k op = Some r -> goes_on r.
Proof.
  intros Hi. unfold cons_step. destruct (consumers w !! k) as [c|] eqn:Hc; [|done].
  assert (forall b b', c_pc c = CHold b -> ident b' = ident b -> (length (values b') <= length (values b))%nat ->
    goes_on (OK (set_consumer w k (cons_at c (CHold b'))))) as Hedit.
  { intros b b' Hpc Hid Hl. apply (resting_ok w lq k c); try done; rewrite Hpc; try done.
    - intros [Hb _]%Forall_cons. constructor; [|done]. injection Hid as E _. destruct Hb as [H1 H2].
      split; [by rewrite E|lia].
    - intros x. cbn [lent]. by rewrite !cnt_one, Hid. }
  destruct (c_pc c) as [|blk fin seen| |b|b|] eqn:Hpc; destruct op; try done.
  - intros [= <-]. apply (begin_take_ok w lq); auto.
  - intros [= <-]. apply (begin_take_ok w lq); auto.
  - intros [= <-]. by apply (leased_drop_consumer w lq).
  - intros [= <-]. by apply (take_step_ok w lq).
  - intros [= <-]. apply (begin_take_ok w lq); auto.
  - destruct (Nat.eqb_spec (length l) (length (values b))) as [E|]; [|done]. intros [= <-]. apply (Hedit b); [done|done|]. simpl. lia.
  - intros [= <-]. apply (Hedit b); [done|done|]. simpl. lia.
  - intros [= <-]. by apply (release_ok w lq).
  - intros [= <-]. apply (resting_ok w lq k c); try done; rewrite Hpc; [done..|]. intros x. cbn [lent]. rewrite cnt_app, cnt_nil. lia.
  - intros [= <-]. by apply (give_back_ok w lq).
Qed.

Lemma leased_step w lq e r : linv w lq -> step w e = Some r -> goes_on r.
Proof. intros Hi. destruct e; simpl; [by eapply leased_prod_step|by eapply leased_cons_step]. Qed.

Lemma reachable_linv w0 lq0 w : linv w0 lq0 -> reachable w0 w -> exists lq, linv w lq.
Proof.
  intros Hi. induction 1 as [|w e w' _ [lq IH] Hs]; [by exists lq0|].
  destruct (leased_step w lq e _ IH Hs) as (w2 & lq2 & [= <-] & H). by exists lq2.
Qed.
End invariant.

(** ** Opening *)

Section opening.
Context {T C E : Type} `{!SpscBackend (Block T) C} `{!SpscLaws (Block T) C} `{!SpscBounded (Block T) C}.

Lemma return_lanes_ok n slots (l : list C) :
  return_lanes (T := T) n slots = OK l ->
  length l = n /\ forall i ch, l !! i = Some ch -> bk_repr ch [] false false /\ slots <= bk_cap ch.
Proof.
  revert l. induction n as [|n IH]; intros l; simpl; [by intros [= <-]|].
  destruct (bk_channel slots) as [ch| |] eqn:Hch; try done. simpl.
  destruct (return_lanes n slots) as [k| |]; try done. simpl. intros [= <-]. destruct (IH k eq_refl) as [H1 H2].
  split; [simpl; lia|]. intros [|i] c Hc; [|by eapply H2]. injection Hc as <-.
  split; [by eapply bk_channel_law|by eapply bk_cap_channel].
Qed.

Lemma slots_room n cap (sl : list (brokerless.Slot C)) :
  brokerless.open_slots n cap = OK sl -> forall i s, sl !! i = Some s -> cap <= bk_cap (brokerless.rx s).
Proof.
  revert sl. induction n as [|n IH]; intros sl; simpl; [by intros [= <-]|].
  destruct (bk_channel cap) as [ch| |] eqn:Hch; try done. simpl.
  destruct (brokerless.open_slots n cap) as [k| |]; try done. simpl. intros [= <-] [|i] s Hs; [|by eapply IH].
  injection Hs as <-. simpl. by eapply bk_cap_channel.
Qed.

Lemma cnt_new x i n :
  cnt (T := T) x (new_blocks i n) = if decide (x.1 = i /\ x.2 < Z.to_nat n)%nat then 1%nat else O.
Proof.
  unfold new_blocks. induction (Z.to_nat n) as [|k IH]; [by rewrite decide_False by lia|].
  rewrite seq_S, fmap_app, cnt_app, IH. simpl. rewrite cnt_one, cnt_nil. destruct x as [a b]. unfold ident. simpl.
  assert ((i, k) = (a, b) <-> a = i /\ b = k) as Hxy by (split; [by intros [= -> ->]|by intros [-> ->]]).
  repeat case_decide; rewrite Hxy in *; lia.
Qed.

Lemma total_new x np n (g : nat -> Producer T) :
  (forall i, prod_blocks (g i) = new_blocks i n) ->
  total (fun p => cnt x (prod_blocks p)) (g <$> seq 0 np) = valid np (Z.to_nat n) x.
Proof.
  intros Hg. unfold valid. induction np as [|k IH]; [by rewrite decide_False by lia|].
  rewrite seq_S, fmap_app, total_app, IH. unfold total. simpl. rewrite Hg, cnt_new. repeat case_decide; lia.
Qed.

Definition initial_queues (np nc : nat) : list (list (Block T)) := replicate (np * nc) [].

Lemma linv_opened (np nc : nat) n bat slots (f : Forward T C) order ls :
  0 <= n -> 0 <= bat -> fwd_ok np bat slots f -> (forall x, total (cnt x) (fq f) = O) ->
  (forall i, (i < np)%nat -> exists fp, brokerless.producers f !! i = Some fp /\ brokerless.p_pc fp = brokerless.PIdle) ->
  Forall (fun fc => brokerless.pc fc = brokerless.Idle false /\ batch_repr (brokerless.staging fc) [] /\
    brokerless.received fc = []) (brokerless.consumers f) ->
  length (brokerless.consumers f) = nc -> order ≡ₚ seq 0 nc -> return_lanes (T := T) (np * nc) slots = OK ls ->
  linv np nc (Z.to_nat n) bat slots
    (mkWorld f nc ls ((fun i => mkProducer (new_blocks i n) 0 0 bat [] (PIdle Fresh)) <$> seq 0 np)
       ((fun k => mkConsumer k [] CIdle) <$> order) []) (initial_queues np nc).
Proof.
  intros Hn Hbat Hf Hfq Hfp Hfc Hlen Hord Hls. destruct (return_lanes_ok _ _ _ Hls) as [Hl1 Hl2].
  pose proof (Permutation_length Hord) as Hol. rewrite length_seq in Hol.
  assert (forall x, custody (mkWorld f nc ls ((fun i => mkProducer (new_blocks i n) 0 0 bat [] (PIdle Fresh)) <$> seq 0 np)
       ((fun k => mkConsumer k [] CIdle) <$> order) []) (initial_queues np nc) x = valid np (Z.to_nat n) x) as Hcust.
  { intros x. unfold custody. cbn [producers fwd consumers forgotten]. rewrite (total_new x np n), Hfq, cnt_nil.
    - rewrite (total_zero _ (_ <$> order)), (total_zero (cnt x)); [lia| |].
      + by intros i q [-> _]%lookup_replicate.
      + intros i c Hc. by apply list_lookup_fmap_Some in Hc as (k & -> & _).
    - intros i. unfold prod_blocks. cbn. by rewrite app_nil_r. }
  constructor; cbn [producers fwd consumers forgotten lanes width]; try done.
  - by rewrite length_fmap, length_seq.
  - by rewrite length_fmap.
  - unfold initial_queues. by rewrite length_replicate.
  - intros i k p c ch q Hp Hc Hch Hq. apply list_lookup_fmap_Some in Hp as (i' & -> & _).
    apply list_lookup_fmap_Some in Hc as (k' & -> & _). apply lookup_replicate in Hq as [-> _].
    destruct (Hl2 _ _ Hch). unfold lane_ok. cbn. splits.
  - intros i p Hp. apply list_lookup_fmap_Some in Hp as (i' & -> & Hi'). apply lookup_seq in Hi' as [-> Hlt].
    destruct (Hfp i Hlt) as (fp & H1 & H2). exists fp. split; [done|]. unfold prod_ok, prod_blocks. cbn. rewrite app_nil_r.
    split; [|splits].
    + unfold new_blocks. apply Forall_fmap, Forall_forall. intros k _. split; [done|]. simpl. lia.
    + unfold new_blocks. rewrite length_fmap, length_seq. lia.
  - intros k c Hc. apply list_lookup_fmap_Some in Hc as (j & -> & Hj). cbn.
    assert (j ∈ seq 0 nc) as [_ Hlt]%elem_of_seq by (rewrite <- Hord; by eapply list_elem_of_lookup_2).
    destruct (lookup_lt_is_Some_2 (brokerless.consumers f) j) as [fc Hfc']; [lia|]. exists fc. split; [done|].
    destruct (proj1 (Forall_lookup _ _) Hfc j fc Hfc') as (H1 & H2 & H3). unfold cons_ok. cbn. splits.
  - intros k k' c c' Hc Hc' E'. apply list_lookup_fmap_Some in Hc as (j & -> & Hj).
    apply list_lookup_fmap_Some in Hc' as (j' & -> & Hj'). simpl in E'. subst j'.
    assert (NoDup order) as Hnd by (rewrite Hord; apply NoDup_seq). by eapply NoDup_lookup.
  - intros x. by rewrite Hcust.
Qed.

Lemma forward_fields np nc slots :
  let s := forward_shape np nc slots in
  declaration.producers s = np /\ declaration.consumers s = nc /\ declaration.capacity s = Some slots /\
  declaration.batch s = 1.
Proof. done. Qed.

(** The forward channel as it is opened. *)
Lemma forward_opened lf size np nc slots (f : Forward T C) order bat :
  0 <= np < USIZE -> 0 <= nc < USIZE -> 0 <= slots < USIZE ->
  open.claim (E := E) lf size true (forward_shape np nc slots) = OK (Ok (f, order)) ->
  fwd_ok (Z.to_nat np) bat slots f /\ (forall x, total (cnt x) (fq f) = O) /\ 1 <= nc /\
  (forall i, (i < Z.to_nat np)%nat -> exists fp, brokerless.producers f !! i = Some fp /\ brokerless.p_pc fp = brokerless.PIdle) /\
  Forall (fun fc => brokerless.pc fc = brokerless.Idle false /\ batch_repr (brokerless.staging fc) [] /\
    brokerless.received fc = []) (brokerless.consumers f) /\
  length (brokerless.consumers f) = Z.to_nat nc /\ order ≡ₚ seq 0 (Z.to_nat nc).
Proof.
  intros Hnp Hnc Hsl Hcl. destruct (forward_fields np nc slots) as (E1 & E2 & E3 & E4).
  assert (open.words (forward_shape np nc slots)) as Hw
    by (unfold open.words; rewrite E1, E2, E3, E4; splits; by intros c [= <-]).
  destruct (open.claim_opened lf size true _ f order Hw Hcl) as (Hok & H1 & H2 & [ch Hch] & (f0 & Hf0 & Hreach & Hslots) & Ht & Hp & Hl & Ho & Hfr).
  unfold open.native_capacity in *. rewrite E1, E2, E3, E4 in *. destruct Hok as [Hcap _].
  assert (bk_channel (Z.max slots 1) = OK ch) as Hch' by (rewrite Z.max_l by lia; exact Hch).
  destruct (brokerless.world_inv _ f0 f _ _ (brokerless.inv_opened np slots ch f0 (proj1 Hnp) Hch' Hf0) Hreach) as (qs & ids & Hinv).
  assert (forall i q, fq f !! i = Some q -> q = []) as Hq.
  { intros i q. unfold fq. rewrite list_lookup_imap, Hp. destruct (replicate _ _ !! i) as [fp|] eqn:Hfp; [|done].
    apply lookup_replicate in Hfp as [-> _]. simpl. rewrite drop_nil. by intros [= <-]. }
  split; [|split; [|split; [done|split; [|split; [|split]]]]].
  - constructor.
    + exists ids. by rewrite <- (fq_inv f qs ids Hinv).
    + by rewrite Hp, length_replicate.
    + by eapply slots_room.
    + by intros i q ->%Hq.
  - intros x. apply total_zero. by intros i q ->%Hq.
  - intros i Hi. eexists. rewrite Hp. split; [by apply lookup_replicate|done].
  - apply Forall_lookup. intros i fc Hc. destruct (proj1 (Forall_lookup _ _) Hfr i fc Hc) as (_ & Hr & Hpc).
    destruct (brokerless.i_cons _ _ _ Hinv i fc Hc) as (st & o & Hst & _ & _ & Hby & _). rewrite Ht, Hr in Hby. simpl in Hby.
    subst st. done.
  - lia.
  - rewrite <- Hl, Nat2Z.id. done.
Qed.

Lemma open_linv lf lt lb lp lc np nc capacity bat (w : World T C) :
  0 <= np < USIZE -> 0 <= nc < USIZE -> 0 <= bat -> open (E := E) lf lt lb lp lc np nc capacity bat = OK (Ok w) ->
  exists slots, Z.of_nat (Z.to_nat (capacity / bat)) <= slots /\ (0 < Z.to_nat nc)%nat /\
    linv (Z.to_nat np) (Z.to_nat nc) (Z.to_nat (capacity / bat)) bat slots w (initial_queues (Z.to_nat np) (Z.to_nat nc)).
Proof.
  intros Hnp Hnc Hbat. unfold open. destruct (_ || _) eqn:Hg; [done|]. zbool_in Hg; try done.
  destruct (checked_next_power_of_two (capacity / bat)) as [slots|] eqn:Hs; [|done].
  destruct (next_power_of_two_spec _ _ Hs) as (k & Hk & Hk64 & Hle).
  destruct (checked_mul np capacity); [|done]. destruct (checked_mul np nc ≫= _); [|done].
  destruct (result_bind _ _); [|done]. intros Ho. open_bind Ho. destruct r as [[f order]|]; [|done]. open_bind Ho.
  injection Ho as <-. exists slots.
  assert (0 <= slots < USIZE) as Hsb.
  { rewrite Hk. split; [lia|]. change USIZE with (2 ^ 64). apply Z.pow_lt_mono_r; lia. }
  destruct (forward_opened lf lb.1 np nc slots f order bat Hnp Hnc Hsb E0) as (H1 & H2 & H3 & H4 & H5 & H6 & H7).
  assert (0 <= capacity / bat) by (apply Z.div_pos; lia).
  split; [lia|]. split; [lia|]. by eapply linv_opened.
Qed.

Lemma declared_linv lf lt lb lp lc s (w : World T C) :
  open.words s -> open_declared (E := E) lf lt lb lp lc s = OK (Ok w) ->
  let np := declaration.producers s in
  let nc := declaration.consumers s in
  let bat := declaration.batch s in
  let blocks := Z.to_nat (open.leased_capacity lt.1 (declaration.capacity s) np nc bat / bat) in
  exists slots, Z.of_nat blocks <= slots /\ (0 < Z.to_nat nc)%nat /\
    linv (Z.to_nat np) (Z.to_nat nc) blocks bat slots w (initial_queues (Z.to_nat np) (Z.to_nat nc)).
Proof.
  intros (H1 & H2 & _ & H3 & _) Ho np nc bat blocks. unfold open_declared in Ho. eapply open_linv; [done|done| |exact Ho].
  apply H3.
Qed.

(** ** Custody *)

(** [lq] is what the return lanes hold: a queue per lane, the content of the lane
    as long as it has its receiver. *)
Definition lanes_hold (w : World T C) (lq : list (list (Block T))) : Prop :=
  length lq = length (lanes w) /\
  forall i k p ch q, producers w !! i = Some p -> (k < width w)%nat -> lane_live p k = true ->
    lanes w !! (i * width w + k)%nat = Some ch -> lq !! (i * width w + k)%nat = Some q ->
    exists pg, bk_repr ch q pg false.

Lemma linv_lanes_hold np nc blocks bat slots (w : World T C) lq :
  linv np nc blocks bat slots w lq -> lanes_hold w lq.
Proof.
  intros Hi. split; [by rewrite (li_lq _ _ _ _ _ _ _ Hi), (li_lanes _ _ _ _ _ _ _ Hi)|].
  rewrite (li_width _ _ _ _ _ _ _ Hi). intros i k p ch q Hp Hk Hl Hch Hq.
  destruct (lookup_lt_is_Some_2 (consumers w) k) as [c Hc]; [by rewrite (li_nc _ _ _ _ _ _ _ Hi)|].
  pose proof (li_lane _ _ _ _ _ _ _ Hi i k p c ch q Hp Hc Hch Hq) as Hok. unfold lane_ok in Hok. rewrite Hl in Hok.
  destruct Hok as (Hr & _). by exists (cons_gone c).
Qed.

(** Only [advance_initialized] unwinds, and only over too many values. *)
Lemma unwinding_origin (w : World T C) e w' i p' b :
  step w e = Some (OK w') -> producers w' !! i = Some p' -> p_pc p' = PUnwinding b ->
  exists p, producers w !! i = Some p /\
    (p_pc p = PUnwinding b \/
     exists l, e = EProd i (PAdvance l) /\ p_pc p = PHold b /\
       batch p - Z.of_nat (length (values b)) < Z.of_nat (length l)).
Proof.
  intros Hs Hp' Hpc.
  assert (producers w' = producers w -> exists p, producers w !! i = Some p /\
    (p_pc p = PUnwinding b \/ exists l, e = EProd i (PAdvance l) /\ p_pc p = PHold b /\
       batch p - Z.of_nat (length (values b)) < Z.of_nat (length l))) as Hsame
    by (intros Heq; rewrite <- Heq; exists p'; auto).
  destruct e as [k op|k op]; cbn [step] in Hs.
  - unfold prod_step in Hs. destruct (producers w !! k) as [p|] eqn:Hk; [|done].
    assert (forall q, producers w' = <[k := q]> (producers w) ->
      (forall b', p_pc q <> PUnwinding b') \/ (exists l b', q = at_pc p (PUnwinding b') /\ op = PAdvance l /\ p_pc p = PHold b' /\
        batch p - Z.of_nat (length (values b')) < Z.of_nat (length l)) ->
      exists p, producers w !! i = Some p /\
        (p_pc p = PUnwinding b \/ exists l, EProd k op = EProd i (PAdvance l) /\ p_pc p = PHold b /\
          batch p - Z.of_nat (length (values b)) < Z.of_nat (length l))) as Hset.
    { intros q Heq Hq. rewrite Heq in Hp'. updated Hp'; [|exists p'; auto].
      destruct Hq as [Hq|(l & b' & -> & -> & Hh & Hl)]; [by destruct (Hq b)|]. exists p. split; [done|]. right. exists l.
      simpl in Hpc. injection Hpc as ->. done. }
    destruct (p_pc p) as [a|j|j [|n]|b0|b0|b0|b0|n|] eqn:Hpp; destruct op; try done.
    all: unfold scan_lane, send, close, close_lane in Hs; simplify_eq; repeat open_bind Hs.
    all: repeat (case_match; simplify_eq; repeat open_bind Hs); simplify_eq.
    all: try (eapply Hset; [reflexivity|]; left; intros b'; unfold scanned, got_back, commit, rollback; simpl;
      repeat case_match; done).
    eapply Hset; [reflexivity|]. unfold advance_initialized. zbool; [by left|]. right. exists l, b0. splits.
  - unfold cons_step, begin_take, take_step, release, give_back, drop_consumer in Hs. simplify_eq. repeat open_bind Hs.
    repeat (case_match; simplify_eq; repeat open_bind Hs); simplify_eq; by apply Hsame.
Qed.

(** C12: the custody of payload blocks. From every state a leased channel can
    reach, in every interleaving of its endpoints and with leases rolled back,
    forgotten or dropped in any order, no call is undefined behaviour and none
    panics but [advance_initialized], which does exactly when it is told of more
    values than the block has room for and then leaves the lease as it was (in
    particular the count of blocks in flight never underflows); no block is ever in
    two places; and as long as a producer is open each of its [capacity / batch]
    blocks is in exactly one place: its free list or its lease, the forward
    channel, one consumer, a return lane, or a lease that was forgotten. Its counter
    is exactly the number of blocks away from it. A commit that was not refused for
    lack of consumers always publishes: neither the forward channel nor a return
    lane of an open producer is ever full. A block never holds more than [batch]
    values, and after a flush that answered true every block is home. *)
Theorem leased_custody lf lt lb lp lc s (w0 w : World T C) :
  open.words s -> open_declared (E := E) lf lt lb lp lc s = OK (Ok w0) -> reachable w0 w ->
  let np := declaration.producers s in
  let bat := declaration.batch s in
  let blocks := Z.to_nat (open.leased_capacity lt.1 (declaration.capacity s) np (declaration.consumers s) bat / bat) in
  (forall e r, step w e = Some r -> exists w', r = OK w' /\
    forall i p' b, producers w' !! i = Some p' -> p_pc p' = PUnwinding b ->
      exists p, producers w !! i = Some p /\ (p_pc p = PUnwinding b \/
        exists l, e = EProd i (PAdvance l) /\ p_pc p = PHold b /\
          bat - Z.of_nat (length (values b)) < Z.of_nat (length l))) /\
  (forall i p b l, producers w !! i = Some p -> p_pc p = PHold b ->
    step w (EProd i (PAdvance l)) = Some (OK (set_producer w i (at_pc p
      (if Z.of_nat (length l) <=? bat - Z.of_nat (length (values b))
       then PHold (set_values b (values b ++ l)) else PUnwinding b))))) /\
  (exists lq, lanes_hold w lq /\
    (forall x, (custody w lq x <= valid (Z.to_nat np) blocks x)%nat) /\
    forall i p n, producers w !! i = Some p -> open_prod p = true -> (n < blocks)%nat -> custody w lq (i, n) = 1%nat) /\
  (forall i p, producers w !! i = Some p ->
    Forall (fun b => origin b = i /\ Z.of_nat (length (values b)) <= bat) (prod_blocks p) /\
    (open_prod p = true -> in_flight p = Z.of_nat blocks - Z.of_nat (length (prod_blocks p))) /\
    (p_pc p = PIdle (Flushed true) -> length (free p ++ unwritten p) = blocks) /\
    forall b, p_pc p = PSend b -> exists w' p', step w (EProd i PStep) = Some (OK w') /\
      producers w' !! i = Some p' /\ p_pc p' = PIdle (Committed (Z.of_nat (length (values b))))) /\
  forall k c, consumers w !! k = Some c ->
    Forall (fun b => (origin b < Z.to_nat np)%nat /\ Z.of_nat (length (values b)) <= bat) (cons_blocks (fwd w) c).
Proof.
  intros Hw Ho Hr np bat blocks. destruct (declared_linv lf lt lb lp lc s w0 Hw Ho) as (slots & Hs & Hn & Hi0).
  fold np bat in Hs, Hi0. fold blocks in Hs, Hi0. destruct (reachable_linv _ _ _ _ _ Hn Hs w0 _ w Hi0 Hr) as [lq Hi].
  assert (forall i p, producers w !! i = Some p -> batch p = bat) as Hbat
    by (intros i p Hp; by destruct (li_prod _ _ _ _ _ _ _ Hi i p Hp) as (fp & _ & _ & _ & Hb & _)).
  split; [|split; [|split; [|split]]].
  - intros e r He. destruct (leased_step _ _ _ _ _ Hn Hs w lq e r Hi He) as (w' & _ & -> & _). exists w'. split; [done|].
    intros i p' b Hp' Hpc. destruct (unwinding_origin w e w' i p' b He Hp' Hpc) as (p & Hp & Hcase).
    exists p. rewrite (Hbat i p Hp) in Hcase. done.
  - intros i p b l Hp Hpc. cbn [step]. unfold prod_step, advance_initialized. rewrite Hp, Hpc, (Hbat i p Hp).
    by destruct (_ <=? _).
  - exists lq. split; [by eapply linv_lanes_hold|]. split; [apply (li_custody _ _ _ _ _ _ _ Hi)|].
    intros i p n Hp Hop Hlt. rewrite (li_kept _ _ _ _ _ _ _ Hi i p n Hp Hop). unfold valid.
    apply lookup_lt_Some in Hp. rewrite (li_np _ _ _ _ _ _ _ Hi) in Hp. by rewrite decide_True.
  - intros i p Hp. destruct (li_prod _ _ _ _ _ _ _ Hi i p Hp) as (fp & _ & H1 & _ & _ & _ & H5 & H6). split; [done|].
    split; [intros Hop; specialize (H5 Hop); lia|]. split.
    + intros Hpc. specialize (H6 Hpc). unfold open_prod, prod_blocks, prod_held in H5. rewrite Hpc in H5. specialize (H5 eq_refl).
      simpl in H5. lia.
    + intros b Hpc. destruct (send_ok _ _ _ _ _ Hn Hs w lq i p b Hi Hp Hpc) as (f' & p' & Hsend & Hp' & _).
      eexists _, p'. split; [cbn [step]; unfold prod_step; rewrite Hp, Hpc, Hsend; reflexivity|]. split; [|done].
      apply list_lookup_insert_eq. by eapply lookup_lt_Some.
  - intros k c Hc. by destruct (li_cons _ _ _ _ _ _ _ Hi k c Hc) as (fc & _ & H & _).
Qed.

(** C13: the delivery of payload blocks. In every state a leased channel can
    reach, with [taken] the log of what the consumers drained from the forward
    channel: what a producer committed is, in order and with the values it
    committed, what was drained from its ring followed by what waits there; and what
    a consumer was lent is, in order, everything it ever drained, except a block
    drained by a call still under way. Each committed block is thus lent at most
    once, to one consumer, as it was committed, and the blocks of a producer are
    drained in the order of their commits. *)
Theorem leased_exactly_once lf lt lb lp lc s (w0 w : World T C) :
  open.words s -> open_declared (E := E) lf lt lb lp lc s = OK (Ok w0) -> reachable w0 w ->
  let taken := brokerless.taken (fwd w) in
  (forall i fp, brokerless.producers (fwd w) !! i = Some fp ->
     exists sl waiting pg, brokerless.slots (fwd w) !! i = Some sl /\ bk_repr (brokerless.rx sl) waiting pg false /\
       brokerless.accepted fp = from i taken ++ waiting) /\
  (forall k c, consumers w !! k = Some c ->
     by_consumer (c_fwd c) taken =
       acquired c ++ match c_pc c with CTake _ _ _ => cons_blocks (fwd w) c | _ => [] end) /\
  (forall k k' c c', consumers w !! k = Some c -> consumers w !! k' = Some c' -> c_fwd c = c_fwd c' -> k = k').
Proof.
  intros Hw Ho Hr taken. destruct (declared_linv lf lt lb lp lc s w0 Hw Ho) as (slots & Hs & Hn & Hi0).
  destruct (reachable_linv _ _ _ _ _ Hn Hs w0 _ w Hi0 Hr) as [lq Hi].
  destruct (fo_inv _ _ _ _ (li_fwd _ _ _ _ _ _ _ Hi)) as [ids Hinv]. split; [|split].
  - intros i fp Hp. destruct (brokerless.producer_ring _ _ ids i fp Hinv Hp) as (sl & q & H1 & _ & H2 & H3 & _).
    by exists sl, q, (brokerless.prod_dead fp).
  - intros k c Hc. destruct (li_cons _ _ _ _ _ _ _ Hi k c Hc) as (fc & Hfc & _ & Hok).
    destruct (brokerless.i_cons _ _ _ Hinv _ fc Hfc) as (st & o & Hst & _ & _ & Hby & _ & Hpcok & _). unfold taken. rewrite Hby.
    assert (st = [] -> brokerless.received fc ++ st = brokerless.received fc) as Hnil by (intros ->; apply app_nil_r).
    assert (batch_repr (brokerless.staging fc) [] -> st = []) as Hempty.
    { intros Hb. pose proof (as_slice_repr _ _ Hst) as E1. rewrite (as_slice_repr _ _ Hb) in E1. by injection E1. }
    destruct (c_pc c) as [|blk fin seen| |b|b|] eqn:Hpc.
    2: { destruct Hok as ([H1 _] & ->). rewrite Hnil by auto. unfold cons_blocks. by rewrite Hpc, Hfc, take_drop. }
    all: destruct Hok as (_ & H1 & ->); rewrite Hnil by auto; by rewrite app_nil_r.
  - apply (li_inj _ _ _ _ _ _ _ Hi).
Qed.
End opening.

(** ** An execution

    One producer with two blocks of two values, two consumers. The producer
    commits [1; 2], the second consumer is lent the block, drains it and returns it;
    the producer commits [3], flushes, and while it waits the first consumer takes
    and returns the block. *)

Definition psteps (n : nat) : list (event nat) := replicate n (EProd 0 PStep).
Definition csteps (k n : nat) : list (event nat) := replicate n (ECons k CStep).

Definition sample_schedule : list (event nat) :=
  [EProd 0 PTryReserve] ++ psteps 4 ++ [EProd 0 (PExtend [1; 2]%nat); EProd 0 PCommit] ++ psteps 2 ++
  [ECons 1 CTryRecv] ++ csteps 1 7 ++ [ECons 1 CDrain; ECons 1 CRelease] ++ csteps 1 1 ++
  [EProd 0 PReserve] ++ psteps 3 ++ [EProd 0 (PPush 3%nat); EProd 0 PCommit] ++ psteps 2 ++
  [EProd 0 PFlush] ++ psteps 4 ++ [ECons 0 CRecv] ++ csteps 0 7 ++ [ECons 0 CRelease] ++ csteps 0 1 ++ psteps 4.

Abbreviation ring_world := (World nat (ring.Chan (Block nat))).

Definition sample_shape : declaration.Shape :=
  open.declared [declaration.c_mpmc; declaration.c_consumers 2; declaration.c_capacity 4; declaration.c_batch 2].

Definition sample_open : outcome (result ring_world (open.OpenError unit)) :=
  open_declared (SpscBackend0 := ring.ring_backend 32) open.sample_layouts (8, 8) (32, 8) (104, 8) (56, 8) sample_shape.

Lemma leased_run {T C} `{!SpscBackend (Block T) C} (w0 w w' : World T C) es :
  reachable w0 w -> run w es = Some w' -> reachable w0 w'.
Proof.
  revert w. induction es as [|e es IH]; intros w Hr; simpl; [by intros [= <-]|].
  destruct (step w e) as [[w1| |]|] eqn:Hs; try done. apply IH. by econstructor.
Qed.

Lemma leased_sample es (f : ring_world -> Prop) :
  match sample_open with
  | OK (Ok w) => match run (SpscBackend0 := ring.ring_backend 32) w es with Some w' => f w' | None => False end
  | _ => False
  end ->
  exists w0 w, sample_open = OK (Ok w0) /\ reachable (SpscBackend0 := ring.ring_backend 32) w0 w /\ f w.
Proof.
  destruct sample_open as [[w0|]| |]; try done. destruct (run w0 es) as [w|] eqn:E; [|done]. intros Hf. exists w0, w. splits.
  eapply leased_run; [constructor|exact E].
Qed.

(** The flush answers true and both blocks are home, the one that went round
    twice included. *)
Lemma leased_custody_witness :
  exists (w : ring_world) p, producers w = [p] /\ p_pc p = PIdle (Flushed true) /\ length (free p ++ unwritten p) = 2%nat.
Proof.
  destruct (leased_sample sample_schedule (fun w => p_pc <$> producers w = [PIdle (Flushed true)]))
    as (w0 & w & Ho & Hr & Hpc); [vm_compute; reflexivity|].
  destruct (producers w) as [|p [|p2 l]] eqn:Hp; try discriminate Hpc. injection Hpc as Hpc. exists w, p.
  split; [exact Hp|]. split; [exact Hpc|].
  destruct (leased_custody (SpscBackend0 := ring.ring_backend 32) (SpscLaws0 := ring.ring_laws 32)
    (SpscBounded0 := ring.ring_bounded 32) (E := unit) open.sample_layouts (8, 8) (32, 8) (104, 8) (56, 8) sample_shape w0 w
    ltac:(unfold open.words; simpl; splits; intros ? [= <-]; lia) Ho Hr) as (_ & _ & _ & Hprod & _).
  destruct (Hprod 0%nat p) as (_ & _ & Hfl & _); [rewrite Hp; reflexivity|]. exact (Hfl Hpc).
Defined.

(** The first consumer was lent the second commit, the second one the first. *)
Lemma leased_exactly_once_witness :
  exists w : ring_world, acquired <$> consumers w = [[mkBlock [3] 0 1]; [mkBlock [1; 2] 0 1]]%nat /\
    by_consumer 1 (brokerless.taken (fwd w)) = [mkBlock [3] 0 1]%nat.
Proof.
  destruct (leased_sample sample_schedule (fun w => acquired <$> consumers w = [[mkBlock [3] 0 1]; [mkBlock [1; 2] 0 1]]%nat /\
    c_pc <$> consumers w = [CIdle; CIdle] /\ c_fwd <$> consumers w = [1; 0]%nat))
    as (w0 & w & Ho & Hr & Hacq & Hpc & Hf); [vm_compute; split; [|split]; reflexivity|].
  exists w. split; [exact Hacq|].
  destruct (leased_exactly_once (SpscBackend0 := ring.ring_backend 32) (SpscLaws0 := ring.ring_laws 32)
    (SpscBounded0 := ring.ring_bounded 32) (E := unit) open.sample_layouts (8, 8) (32, 8) (104, 8) (56, 8) sample_shape w0 w
    ltac:(unfold open.words; simpl; splits; intros ? [= <-]; lia) Ho Hr) as (_ & Hcons & _).
  destruct (consumers w) as [|c0 [|c1 l]] eqn:Hc; try discriminate Hacq.
  injection Hacq as Ha0 _ _. injection Hpc as Hp0 _ _. injection Hf as Hf0 _ _.
  specialize (Hcons 0%nat c0 eq_refl). rewrite Hf0, Hp0, Ha0 in Hcons. exact Hcons.
Defined.
End leased.
