(* ===== verification/Select.v ===== *)
(** * Waiting on several receivers: [src/src/select/mod.rs]

    [Selectable] is the trait: a source is polled, and asked whether its senders
    are gone. [SelectableLaws] is what a source promises to [select!], with the
    calls that other threads may make on it between two of the macro's own calls.
    The MPSC receiver of [Mpsc.v] is an instance, and the sum of two sources is one,
    so that arms of different types mix.

    [Select] is the loop the macro expands to: [own_step] runs one call of the
    loop, and [sel_step] interleaves it with the other threads. *)

From stdpp Require Import functions prelude gmap.
From S2P Require Import Prelude Batch Backend BackendRing Mpsc.
Local Open Scope Z_scope.

Module select.

(** ** The trait *)

Class Selectable (S V : Type) := {
  try_select : S -> outcome (option V * S);
  selection_over : S -> bool
}.

Class SelectableLaws (S V : Type) `{Selectable S V} := {
  sel_ok : S -> Prop;
  (** A call of another thread on the source. *)
  sel_env : S -> S -> Prop;
  (** Nothing is buffered, and nobody is left to send. *)
  sel_drained : S -> Prop;
  sel_try_law : forall s, sel_ok s -> exists o s', try_select s = OK (o, s') /\ sel_ok s' /\
    selection_over s' = selection_over s /\ (o = None -> selection_over s = true -> sel_drained s');
  sel_env_law : forall s s', sel_ok s -> sel_env s s' -> sel_ok s' /\
    (selection_over s = true -> selection_over s' = true /\ (sel_drained s -> sel_drained s'))
}.

(** ** The loop *)

(** [Backoff::snooze]: how the call waits, and the next step. *)
Inductive wait : Type := Spin (n : Z) | Yield | Sleep (us : Z).

Definition snooze_wait (step : Z) : wait :=
  if step <=? 5 then Spin (Z.shiftl 1 step)
  else if step <=? 15 then Yield
  else Sleep (Z.min (Z.shiftl 10 (Z.min (step - 16) 4)) 100).

Definition snooze (step : Z) : wait * Z := (snooze_wait step, Z.min (step + 1) (U32 - 1)).

(** Where the macro is: before the poll of arm [k], before the question whether it
    is over, in the body of an arm, in the body of [complete]. *)
Inductive spc V : Type :=
| Poll (k : nat) (exhausted : bool)
| Over (k : nat) (exhausted : bool)
| Taken (k : nat) (v : V)
| Complete.
Arguments Poll {V} k exhausted.
Arguments Over {V} k exhausted.
Arguments Taken {V} k v.
Arguments Complete {V}.

Record Select S V := mkSelect { sources : list S; backoff : Z; pc : spc V }.
Arguments mkSelect {S V} sources backoff pc.
Arguments sources {S V} _.
Arguments backoff {S V} _.
Arguments pc {S V} _.

Section loop.
Context {S V : Type} `{!Selectable S V}.
Implicit Types w : Select S V.

Definition enter (ss : list S) : Select S V := mkSelect ss 0 (Poll 0 true).

(** The end of an arm that gave nothing: the next arm, or the end of the round. *)
Definition next_arm w (k : nat) (exhausted : bool) : Select S V :=
  if (Datatypes.S k <? length (sources w))%nat
  then mkSelect (sources w) (backoff w) (Poll (Datatypes.S k) exhausted)
  else if exhausted then mkSelect (sources w) (backoff w) Complete
  else mkSelect (sources w) (snooze (backoff w)).2 (Poll 0 true).

Definition own_step w : option (outcome (Select S V)) :=
  match pc w with
  | Poll k ex =>
      match sources w !! k with
      | None => None
      | Some s =>
          Some ('(o, s') ← try_select s;
                OK (mkSelect (<[k := s']> (sources w)) (backoff w)
                      (match o with Some v => Taken k v | None => Over k ex end)))
      end
  | Over k ex =>
      match sources w !! k with
      | None => None
      | Some s => Some (OK (next_arm w k (if selection_over s then ex else false)))
      end
  | Taken _ _ | Complete => None
  end.

(** The macro alone, for a number of calls. *)
Fixpoint own_run (n : nat) w : option (Select S V) :=
  match n with
  | O => Some w
  | Datatypes.S n' => match own_step w with Some (OK w') => own_run n' w' | _ => None end
  end.

Definition ended w : bool := match pc w with Taken _ _ | Complete => true | _ => false end.
End loop.

(** ** Interleaving *)

Section threads.
Context {S V : Type} `{!Selectable S V} `{!SelectableLaws S V}.
Implicit Types w : Select S V.

Definition set_source w (k : nat) (s : S) : Select S V := mkSelect (<[k := s]> (sources w)) (backoff w) (pc w).

(** [reaches w n w']: [n] calls of the macro, and any number of calls of other
    threads between them. *)
Inductive reaches w : nat -> Select S V -> Prop :=
| reaches_refl : reaches w 0 w
| reaches_own n w1 w2 : reaches w n w1 -> own_step w1 = Some (OK w2) -> reaches w (Datatypes.S n) w2
| reaches_env n w1 k s s' :
    reaches w n w1 -> sources w1 !! k = Some s -> sel_env s s' -> reaches w n (set_source w1 k s').

Definition over_before (ss : list S) (k : nat) : Prop :=
  forall j s, (j < k)%nat -> ss !! j = Some s -> selection_over s = true.
Definition drained_before (ss : list S) (k : nat) : Prop :=
  forall j s, (j < k)%nat -> ss !! j = Some s -> sel_drained s.

(** In every round, [exhausted] says that the arms passed so far are over. *)
Definition round_ok w : Prop :=
  Forall sel_ok (sources w) /\
  match pc w with
  | Poll k ex | Over k ex => (k < length (sources w))%nat /\ (ex = true -> over_before (sources w) k)
  | Complete => over_before (sources w) (length (sources w))
  | Taken _ _ => True
  end.

(** In a round that began with every source over, the arms passed are drained. *)
Definition last_round w : Prop :=
  over_before (sources w) (length (sources w)) /\
  match pc w with
  | Poll k ex => ex = true /\ drained_before (sources w) k
  | Over k ex => ex = true /\ drained_before (sources w) (Datatypes.S k)
  | Complete => drained_before (sources w) (length (sources w))
  | Taken _ _ => True
  end.

(** Calls left in it. *)
Definition calls_left w : nat :=
  match pc w with
  | Poll k _ => 2 * (length (sources w) - k)
  | Over k _ => 2 * (length (sources w) - k) - 1
  | _ => 0
  end.

(** Replacing a source by one that is over, or drained, when the old one was. *)
Lemma over_update (ss : list S) m k s s' :
  ss !! k = Some s -> (selection_over s = true -> selection_over s' = true) ->
  over_before ss m -> over_before (<[k := s']> ss) m.
Proof. intros Hs Ho Hb j x Hj Hx. updated Hx; [|by eapply Hb]. apply Ho. by eapply Hb. Qed.

Lemma drained_update (ss : list S) m k s s' :
  ss !! k = Some s -> ((k < m)%nat -> sel_drained s -> sel_drained s') ->
  drained_before ss m -> drained_before (<[k := s']> ss) m.
Proof. intros Hs Ho Hb j x Hj Hx. updated Hx; [|by eapply Hb]. apply Ho; [done|]. by eapply Hb. Qed.

Lemma env_round w k s s' :
  round_ok w -> sources w !! k = Some s -> sel_env s s' -> round_ok (set_source w k s').
Proof.
  intros [Hok Hpc] Hs He. destruct (sel_env_law s s') as [Hok' Ho]; [by eapply Forall_lookup_1|done|].
  assert (selection_over s = true -> selection_over s' = true) as Hov by (intros E; by apply Ho in E as [? _]).
  split; simpl; [by apply Forall_insert|]. rewrite length_insert.
  destruct (pc w) as [j ex|j ex| |]; try done.
  - destruct Hpc as [H1 H2]. split; [done|]. intros E. eapply over_update; [done|done|by apply H2].
  - destruct Hpc as [H1 H2]. split; [done|]. intros E. eapply over_update; [done|done|by apply H2].
  - by eapply over_update.
Qed.

Lemma env_last w k s s' :
  Forall sel_ok (sources w) -> last_round w -> sources w !! k = Some s -> sel_env s s' -> last_round (set_source w k s').
Proof.
  intros Hok [Hover Hpc] Hs He. destruct (sel_env_law s s') as [_ Ho]; [by eapply Forall_lookup_1|done|].
  assert (selection_over s = true) as Hos by (eapply Hover; [|done]; by eapply lookup_lt_Some).
  destruct (Ho Hos) as [Ho1 Ho2]. split; simpl; rewrite length_insert; [by eapply over_update|].
  destruct (pc w) as [j ex|j ex| |]; try done.
  - destruct Hpc as [-> H2]. split; [done|]. by eapply drained_update.
  - destruct Hpc as [-> H2]. split; [done|]. by eapply drained_update.
  - by eapply drained_update.
Qed.

Lemma own_round w r :
  sources w <> [] -> round_ok w -> own_step w = Some r -> exists w', r = OK w' /\ round_ok w' /\ sources w' <> [].
Proof.
  intros Hne [Hok Hpc]. unfold own_step. destruct (pc w) as [k ex|k ex| |]; try done; destruct Hpc as [Hk Hex];
    (destruct (sources w !! k) as [s|] eqn:Hs; [|done]); intros [= <-].
  - destruct (sel_try_law s) as (o & s' & -> & Hok' & Hov & _); [by eapply Forall_lookup_1|]. cbn [mbind outcome_bind].
    eexists. split; [reflexivity|]. split; [|simpl; intros E; apply Hne, nil_length_inv; apply (f_equal length) in E; by rewrite length_insert in E].
    split; simpl; [by apply Forall_insert|]. destruct o; [done|]. rewrite length_insert. split; [done|]. intros E.
    eapply over_update; [done|by rewrite Hov|by apply Hex].
  - eexists. split; [reflexivity|]. unfold next_arm.
    assert (forall E : (if selection_over s then ex else false) = true, over_before (sources w) (Datatypes.S k)) as Hnext.
    { intros E. destruct (selection_over s) eqn:Ho; [|done]. intros j x Hj Hx.
      destruct (decide (j = k)) as [->|Hjk]; [by simplify_eq|]. eapply (Hex E j); [lia|done]. }
    destruct (Nat.ltb_spec (Datatypes.S k) (length (sources w))) as [Hlt|Hge].
    + split; [|done]. split; [done|]. simpl. by split.
    + destruct (if selection_over s then ex else false) eqn:E; (split; [|done]); (split; [done|]); simpl.
      * replace (length (sources w)) with (Datatypes.S k) by lia. by apply Hnext.
      * split; [lia|]. intros _ j x Hj. lia.
Qed.

Lemma own_last w w' :
  Forall sel_ok (sources w) -> last_round w -> own_step w = Some (OK w') ->
  last_round w' /\ (calls_left w' < calls_left w)%nat.
Proof.
  intros Hok [Hover Hpc]. unfold own_step, calls_left. destruct (pc w) as [k ex|k ex| |] eqn:Epc; try done;
    (destruct (sources w !! k) as [s|] eqn:Hs; [|done]); pose proof (lookup_lt_Some _ _ _ Hs) as Hk;
    destruct Hpc as [-> Hd]; intros E; injection E as E; pose proof (Hover k s Hk Hs) as Hos.
  - destruct (sel_try_law s) as (o & s' & Ht & _ & Hov & Hdr); [by eapply Forall_lookup_1|]. rewrite Ht in E.
    cbn [mbind outcome_bind] in E. injection E as <-. simpl. rewrite length_insert. split; [|destruct o; simpl; lia].
    split; simpl; rewrite ?length_insert; [eapply over_update; [done|by rewrite Hov|done]|].
    destruct o; [done|]. split; [done|]. intros j x Hj Hx. updated Hx; [by apply Hdr|]. eapply (Hd j); [lia|done].
  - rewrite Hos in E. subst w'. unfold next_arm.
    destruct (Nat.ltb_spec (Datatypes.S k) (length (sources w))) as [Hlt|Hge]; simpl; (split; [|lia]); (split; [done|]); simpl.
    + done.
    + by replace (length (sources w)) with (Datatypes.S k) by lia.
Qed.

Lemma reaches_round ss b n w :
  ss <> [] -> Forall sel_ok ss -> reaches (mkSelect ss b (Poll 0 true)) n w -> round_ok w /\ sources w <> [].
Proof.
  intros Hne Hok. induction 1 as [|n w1 w2 _ [IH1 IH2] Hs|n w1 k s s' _ [IH1 IH2] Hs He].
  - split; [|done]. split; [done|]. simpl. split; [destruct ss; [done|simpl; lia]|]. intros _ j s Hj. lia.
  - destruct (own_round w1 _ IH2 IH1 Hs) as (w' & [= <-] & H1 & H2). done.
  - split; [by eapply env_round|]. simpl. intros E. apply IH2, nil_length_inv.
    apply (f_equal length) in E. by rewrite length_insert in E.
Qed.

Lemma reaches_last ss b n w :
  ss <> [] -> Forall sel_ok ss -> Forall (fun s => selection_over s = true) ss ->
  reaches (mkSelect ss b (Poll 0 true)) n w -> last_round w /\ (n + calls_left w <= 2 * length ss)%nat.
Proof.
  intros Hne Hok Hall. induction 1 as [|n w1 w2 Hr [IH1 IH2] Hs|n w1 k s s' Hr [IH1 IH2] Hs He].
  - unfold last_round, calls_left. simpl. split; [|lia]. split.
    + intros j s _ Hs. exact (proj1 (Forall_lookup _ _) Hall j s Hs).
    + split; [done|]. intros j s Hj. lia.
  - destruct (reaches_round _ _ _ _ Hne Hok Hr) as [[Hok1 _] _].
    destruct (own_last w1 w2 Hok1 IH1 Hs) as [H1 H2]. split; [done|lia].
  - destruct (reaches_round _ _ _ _ Hne Hok Hr) as [[Hok1 _] _]. split; [by eapply env_last|].
    unfold calls_left in *. simpl. by rewrite length_insert.
Qed.

(** C33: what [select!] promises over sources whose empty poll after the end
    means that they are drained ([SelectableLaws]; the MPSC receivers are such
    sources; a brokerless [try_recv] documents no such promise). Started on
    any number of them, with any calls of other threads between its own, the macro
    never panics and stops only in the body of an arm or of [complete]; when
    [complete] runs, the senders of every source are gone. If they were all gone
    when a round began, then that round is the last one, it takes at most two calls
    per source, and when it ends in [complete] every source is drained. *)
Theorem select_complete_sound (ss : list S) b n w :
  ss <> [] -> Forall sel_ok ss -> reaches (mkSelect ss b (Poll 0 true)) n w ->
  (forall r, own_step w = Some r -> exists w', r = OK w') /\
  (own_step w = None <-> ended w = true) /\
  (pc w = Complete -> Forall (fun s => selection_over s = true) (sources w)) /\
  (Forall (fun s => selection_over s = true) ss ->
     (n <= 2 * length ss)%nat /\ (pc w = Complete -> Forall sel_drained (sources w))).
Proof.
  intros Hne Hok Hr. destruct (reaches_round _ _ _ _ Hne Hok Hr) as [Hw Hw1].
  split; [intros r Hs; by destruct (own_round w r Hw1 Hw Hs) as (w' & -> & _); eexists|]. destruct Hw as [_ Hpc].
  split; [|split].
  - unfold own_step, ended. destruct (pc w) as [k ex|k ex| |]; try done; destruct Hpc as [Hk _];
      (destruct (sources w !! k) eqn:E; [done|]); apply lookup_ge_None in E; lia.
  - intros E. rewrite E in Hpc. apply Forall_lookup. intros j s Hs. eapply Hpc; [|done]. by eapply lookup_lt_Some.
  - intros Hall. destruct (reaches_last _ _ _ _ Hne Hok Hall Hr) as [[_ H1] H2]. split; [lia|]. intros E. rewrite E in H1.
    apply Forall_lookup. intros j s Hs. eapply H1; [|done]. by eapply lookup_lt_Some.
Qed.
End threads.

(** ** Waiting *)

(** Between rounds the loop never sleeps longer than 100 microseconds, and each
    further round waits at least as long in the same phase. *)
Lemma snooze_bound step :
  0 <= step ->
  match snooze_wait step with
  | Spin n => step <= 5 /\ 1 <= n <= 32
  | Yield => 6 <= step <= 15
  | Sleep us => 16 <= step /\ 10 <= us <= 100
  end.
Proof.
  intros Hs. unfold snooze_wait. destruct (Z.leb_spec step 5).
  - split; [done|]. rewrite Z.shiftl_mul_pow2 by lia.
    assert (2 ^ 0 <= 2 ^ step <= 2 ^ 5) by (split; apply Z.pow_le_mono_r; lia). lia.
  - destruct (Z.leb_spec step 15); [lia|]. split; [lia|]. rewrite Z.shiftl_mul_pow2 by lia.
    assert (2 ^ 0 <= 2 ^ (Z.min (step - 16) 4)) by (apply Z.pow_le_mono_r; lia). lia.
Qed.

(** ** Sources *)

(** Arms of two types. *)
Section mix.
Context {S1 S2 V : Type} `{!Selectable S1 V} `{!Selectable S2 V}.

#[export] Instance sum_selectable : Selectable (S1 + S2) V := {
  try_select s :=
    match s with
    | inl a => '(o, a') ← try_select a; OK (o, inl a')
    | inr b => '(o, b') ← try_select b; OK (o, inr b')
    end;
  selection_over s := match s with inl a => selection_over a | inr b => selection_over b end
}.

#[export] Instance sum_laws `{!SelectableLaws S1 V} `{!SelectableLaws S2 V} : SelectableLaws (S1 + S2) V.
Proof.
  refine {|
    sel_ok s := match s with inl a => sel_ok a | inr b => sel_ok b end;
    sel_env s s' := match s, s' with inl a, inl a' => sel_env a a' | inr b, inr b' => sel_env b b' | _, _ => False end;
    sel_drained s := match s with inl a => sel_drained a | inr b => sel_drained b end
  |}.
  - intros [a|b] Hok; simpl.
    + destruct (sel_try_law a Hok) as (o & a' & -> & H). by exists o, (inl a').
    + destruct (sel_try_law b Hok) as (o & b' & -> & H). by exists o, (inr b').
  - intros [a|b] [a'|b'] Hok He; try done; [exact (sel_env_law a a' Hok He)|exact (sel_env_law b b' Hok He)].
Defined.
End mix.

(** The MPSC receiver: [try_recv] and [is_disconnected]; the other threads send,
    drop their producers, register and drop registrars. *)
Section mpsc_source.
Context {T C : Type} `{!SpscBackend T C}.

#[export] Instance mpsc_selectable : Selectable (mpsc.World T C) T := {
  try_select := mpsc.try_recv;
  selection_over := mpsc.disconnected
}.

Context `{!SpscLaws T C} (capacity : Z) (channel_ok : exists c : C, bk_channel capacity = OK c).
Implicit Types w : mpsc.World T C.

Definition mpsc_env w w' : Prop :=
  exists o x, mpsc.sender o = true /\ Z.of_nat (Datatypes.S (mpsc.fresh w)) < USIZE /\ mpsc.mstep capacity w o = OK (x, w').
Definition mpsc_ok w : Prop := exists Q G, mpsc.world_at w Q G.
Definition mpsc_drained w : Prop := exists G, mpsc.world_at w (fun _ => []) G /\ mpsc.staging (mpsc.rx w) = [].

(** With nobody left the calls of others do nothing. *)
Lemma mpsc_env_over w w' : mpsc_ok w -> mpsc.disconnected w = true -> mpsc_env w w' -> w' = w.
Proof.
  intros (Q & G & Hw) Hd (o & x & Ho & _ & Hs). by destruct (mpsc.sender_idle capacity w Q G o x w' Hw Hd Ho Hs).
Qed.

Lemma mpsc_env_ok w w' : mpsc_ok w -> mpsc_env w w' -> mpsc_ok w'.
Proof.
  intros (Q & G & Hw) (o & x & Ho & Hb & Hs). destruct o as [sid v|sid| | | | | |]; try done; simpl in Hs.
  - destruct (decide _) as [Hp|]; [|injection Hs as _ <-; by exists Q, G].
    destruct (mpsc.try_send_spec w Q G sid v Hw Hp) as (r & w1 & E & _ & H). rewrite E in Hs. simpl in Hs.
    injection Hs as _ <-. destruct H as [[_ H]|[_ H]]; by eexists _, _.
  - destruct (decide _) as [Hp|]; [|injection Hs as _ <-; by exists Q, G].
    destruct (mpsc.drop_producer_spec w Q G sid Hw Hp) as (w1 & E & H & _). rewrite E in Hs. simpl in Hs.
    injection Hs as _ <-. by eexists _, _.
  - destruct (mpsc.state w) as [|b] eqn:Es; [injection Hs as _ <-; by exists Q, G|].
    destruct (Nat.ltb_spec 0 (mpsc.registrars w)); [|injection Hs as _ <-; by exists Q, G].
    destruct channel_ok as [c Hc]. destruct (mpsc.register_spec w Q G b capacity c Hw Es Hc Hb) as (sid & w1 & E & Hw1 & _).
    rewrite E in Hs. simpl in Hs. injection Hs as _ <-. by eexists _, _.
  - destruct (Nat.ltb_spec 0 (mpsc.registrars w)); injection Hs as _ <-; exists Q, G; [|done].
    destruct Hw. split; try done. simpl. lia.
Qed.

#[export] Instance mpsc_laws : SelectableLaws (mpsc.World T C) T.
Proof.
  refine {| sel_ok := mpsc_ok; sel_env := mpsc_env; sel_drained := mpsc_drained |}.
  - intros w (Q & G & Hw). destruct (mpsc.try_recv_spec w Q G Hw) as (o & w' & Q' & d & Ht & Hw' & Hm & Heq & Hh).
    exists o, w'. split; [done|]. split; [by exists Q', G|]. split.
    + simpl. unfold mpsc.disconnected, mpsc.same_handles in *. by destruct Hh as (_ & -> & _).
    + intros -> Hd. destruct (mpsc.disconnected_gone w Q G Hw Hd) as [_ HG].
      destruct (mpsc.try_recv_none_gone w Q G w' Hw HG Ht) as [HQ Hst].
      destruct (mpsc.try_recv_none w Q G w' Hw Ht) as (_ & Hst' & _). simpl in Heq. rewrite Hst, Hst' in Heq. simpl in Heq.
      subst d. exists G. split; [|done]. eapply mpsc.world_at_ext; [|done|exact Hw']. intros sid. simpl.
      by rewrite <- (mpsc.moved_nothing Q Q' Hm sid), HQ.
  - intros w w' Hok He. split; [by eapply mpsc_env_ok|]. intros Hd. by rewrite (mpsc_env_over w w' Hok Hd He).
Defined.
End mpsc_source.

(** ** Executions

    One arm, an MPSC receiver with one producer. *)

Abbreviation source := (mpsc.World (nat * Z) (ring.Chan (nat * Z))).

#[local] Existing Instances mpsc.pair_backend mpsc.pair_laws.

Lemma sample_storage : exists c : ring.Chan (nat * Z), bk_channel 2 = OK c.
Proof. eexists. vm_compute. reflexivity. Qed.

#[local] Instance sample_laws : SelectableLaws source (nat * Z) := mpsc_laws 2 sample_storage.

Definition after (s : source) (os : list (mpsc.mop (nat * Z))) : source :=
  match mpsc.mrun 2 s os with OK (_, s') => s' | _ => s end.

(** The source as its poll leaves it, and with a value and the end of its
    producer sent after the poll. *)
Definition polled : source := match try_select (mpsc.ring_world 1) with OK (_, s) => s | _ => mpsc.ring_world 1 end.
Definition late : source := after (after polled [mpsc.MSend 0 (0%nat, 7)]) [mpsc.MDrop 0].

(** C36: [complete] can run although a value is buffered. The macro asks
    whether a source is over only after it was polled: a producer that sends and
    leaves between the two calls has its value accepted, the poll before it found
    nothing, the question after it says that nobody is left, and the body of
    [complete] runs; the next [try_recv] of the receiver still gives the value. *)
Theorem select_complete_misses_value :
  exists w s', reaches (enter [mpsc.ring_world 1]) 2 w /\ pc w = Complete /\ sources w = [late] /\
    try_select late = OK (Some (0%nat, 7), s').
Proof.
  assert (forall s os x s', mpsc.mstep 2 s os = OK (x, s') -> mpsc.sender os = true ->
    Z.of_nat (Datatypes.S (mpsc.fresh s)) < USIZE -> sel_env s s') as Henv
    by (intros s o x s' Hs Ho Hb; exists o, x; done).
  eexists (mkSelect [late] 0 Complete), _. split; [|split; [done|split; [done|vm_compute; reflexivity]]].
  eapply (reaches_own _ 1 (mkSelect [late] 0 (Over 0 true))); [|vm_compute; reflexivity].
  apply (reaches_env _ 1 (mkSelect [after polled [mpsc.MSend 0 (0%nat, 7)]] 0 (Over 0 true)) 0
    (after polled [mpsc.MSend 0 (0%nat, 7)]) late); [|reflexivity|].
  2: { eapply (Henv _ (mpsc.MDrop 0)); [vm_compute; reflexivity|done|vm_compute; reflexivity]. }
  apply (reaches_env _ 1 (mkSelect [polled] 0 (Over 0 true)) 0 polled (after polled [mpsc.MSend 0 (0%nat, 7)])); [|reflexivity|].
  2: { eapply (Henv _ (mpsc.MSend 0 (0%nat, 7))); [vm_compute; reflexivity|done|vm_compute; reflexivity]. }
  eapply (reaches_own _ 0); [constructor|]. vm_compute. reflexivity.
Qed.

(** The producer has left before the macro is entered: two calls, [complete], and
    the source is drained. *)
Definition closed : source := after (mpsc.ring_world 1) [mpsc.MDrop 0].

Lemma own_run_reaches {S V} `{SelectableLaws S V} (w0 w w' : Select S V) n m :
  reaches w0 n w -> own_run m w = Some w' -> reaches w0 (n + m) w'.
Proof.
  revert n w. induction m as [|m IH]; intros n w Hr; simpl; [intros [= <-]; by rewrite Nat.add_0_r|].
  destruct (own_step w) as [[w1| |]|] eqn:Hs; try done. intros Hm. rewrite Nat.add_succ_r.
  apply (IH (Datatypes.S n) w1); [by econstructor|done].
Qed.

Lemma closed_source_ok : sel_ok closed.
Proof.
  destruct (mpsc.open_fixed_spec 1 2 (mpsc.ring_world 1) ltac:(lia) ltac:(vm_compute; reflexivity)) as (G & Hw & _).
  apply (sel_env_law (mpsc.ring_world 1) closed); [by eexists _, G|]. exists (mpsc.MDrop 0). eexists.
  split; [done|]. split; vm_compute; reflexivity.
Qed.

Lemma select_complete_sound_witness :
  exists w, own_run 2 (enter [closed]) = Some w /\ pc w = Complete /\ Forall sel_drained (sources w).
Proof.
  assert (exists w, own_run 2 (enter [closed]) = Some w /\ pc w = Complete) as (w & Hrun & Hpc)
    by (eexists; split; vm_compute; reflexivity).
  exists w. split; [exact Hrun|]. split; [exact Hpc|].
  assert (Forall sel_ok [closed]) as Hok by (constructor; [exact closed_source_ok|constructor]).
  assert (reaches (enter [closed]) 2 w) as Hr by (exact (own_run_reaches _ _ w 0 2 (reaches_refl _) Hrun)).
  destruct (select_complete_sound [closed] 0 2 w ltac:(discriminate) Hok Hr) as (_ & _ & _ & Hd).
  apply Hd; [constructor; [vm_compute; reflexivity|constructor]|exact Hpc].
Defined.
End select.
