(* ===== verification/Inbox.v ===== *)
(** * The lock-free inbox: [InboxStack] of [src/src/backend/ring.rs]

    A Treiber stack whose nodes are the rings: a registering producer parks the
    receiver of its ring by linking the ring's own [inbox_next] and swinging the
    head, and the single consumer detaches the whole chain with one swap.
    [LockFreeInbox] of [src/src/mpsc/chan.rs] is this stack.

    [step] runs one shared access of one thread: the load of the head, the store of
    the link, the compare-exchange (which may fail spuriously), the swap, one link
    of the walk. Meanwhile the senders push into their rings, parked or not, and
    whoever holds a receiver pops from it; a ring that was drained may be parked
    again. A node is the number of its ring. *)

From stdpp Require Import prelude.
From S2P Require Import Prelude Backend BackendRing.
Local Open Scope Z_scope.

Module inbox.

(** ** State *)

(** A ring with both endpoints, what its sender got accepted and what was popped
    from it. *)
Record Node T := mkNode { chan : ring.Chan T; sent : list T; popped : list T }.
Arguments mkNode {T} chan sent popped.
Arguments chan {T} n.
Arguments sent {T} n.
Arguments popped {T} n.

(** Where a push is: before the load of the head, before the store of the link,
    before the compare-exchange. *)
Inductive upc : Type :=
| UIdle
| ULoad (n : nat)
| ULink (n : nat) (h : option nat)
| UCas (n : nat) (h : option nat).

(** Where the consumer is: [drain_with] and [drop] walking a detached chain,
    before the load of a link and, with the link loaded, before the ring is given
    away or dropped. *)
Inductive wpc : Type :=
| WIdle
| WWalk (node : option nat)
| WGive (node : nat) (next : option nat)
| WTear (node : option nat)
| WFree (node : nat) (next : option nat)
| WDone.

#[export] Instance upc_eq_dec : EqDecision upc.
Proof. solve_decision. Defined.

(** [out] are the receivers in the hands of threads; ghost logs: [pushed] in the
    order of the successful exchanges, [drained] in the order of the callback,
    [dropped] by the teardown. *)
Record World T := mkWorld {
  nodes : list (Node T);
  head : option nat;
  pushers : list upc;
  walker : wpc;
  out : list nat;
  pushed : list nat;
  drained : list nat;
  dropped : list nat
}.
Arguments mkWorld {T} nodes head pushers walker out pushed drained dropped.
Arguments nodes {T} w.
Arguments head {T} w.
Arguments pushers {T} w.
Arguments walker {T} w.
Arguments out {T} w.
Arguments pushed {T} w.
Arguments drained {T} w.
Arguments dropped {T} w.

Inductive event T : Type :=
| EPush (i n : nat)
| EUp (i : nat) (spurious : bool)
| EDrain
| EDrop
| EWalk
| ESend (n : nat) (v : T)
| ELeave (n : nat)
| EPop (n : nat).
Arguments EPush {T} i n.
Arguments EUp {T} i spurious.
Arguments EDrain {T}.
Arguments EDrop {T}.
Arguments EWalk {T}.
Arguments ESend {T} n v.
Arguments ELeave {T} n.
Arguments EPop {T} n.

Section machine.
Context {T : Type}.
Implicit Types w : World T.

Definition set_nodes w (l : list (Node T)) : World T :=
  mkWorld l (head w) (pushers w) (walker w) (out w) (pushed w) (drained w) (dropped w).
Definition set_pusher w i (u : upc) : World T :=
  mkWorld (nodes w) (head w) (<[i := u]> (pushers w)) (walker w) (out w) (pushed w) (drained w) (dropped w).
Definition set_walker w (p : wpc) : World T :=
  mkWorld (nodes w) (head w) (pushers w) p (out w) (pushed w) (drained w) (dropped w).

(** [node] dereferenced. *)
Definition deref w (n : nat) : outcome (Node T) :=
  match nodes w !! n with Some x => OK x | None => UB end.

Definition set_link (x : Node T) (h : option nat) : Node T :=
  let c := chan x in
  mkNode (ring.mkChan (ring.store_inbox_next (ring.ch_inner c) h) (ring.ch_tx c) (ring.ch_rx c)) (sent x) (popped x).

(** The receiver rebuilt from the ring: its cache starts at the head. *)
Definition rebuild (x : Node T) : Node T :=
  let c := chan x in
  mkNode (ring.mkChan (ring.ch_inner c) (ring.ch_tx c) (ring.mkReceiver (ring.head (ring.ch_inner c)))) (sent x) (popped x).

Definition link (x : Node T) : option nat := ring.inbox_next (ring.ch_inner (chan x)).

(** Dropping a rebuilt receiver. *)
Definition drop_receiver (x : Node T) : outcome (Node T) :=
  c ← bk_drop_rx (SpscBackend := ring.ring_backend 0) (chan (rebuild x));
  OK (mkNode c (sent x) (popped x)).

(** [push], one access. *)
Definition push_step w i (u : upc) (spurious : bool) : option (outcome (World T)) :=
  match u with
  | UIdle => None
  | ULoad n => Some (OK (set_pusher w i (ULink n (head w))))
  | ULink n h =>
      Some (x ← deref w n;
            OK (set_pusher (set_nodes w (<[n := set_link x h]> (nodes w))) i (UCas n h)))
  | UCas n h =>
      if negb spurious && bool_decide (head w = h)
      then Some (OK (mkWorld (nodes w) (Some n) (<[i := UIdle]> (pushers w)) (walker w) (out w) (pushed w ++ [n])
                       (drained w) (dropped w)))
      else Some (OK (set_pusher w i (ULink n (head w))))
  end.

(** [drain_with] and [drop]: the link is loaded, then the ring is given away or
    dropped, and the walk goes on with the link it holds. *)
Definition walk_step w : option (outcome (World T)) :=
  match walker w with
  | WWalk None => Some (OK (set_walker w WIdle))
  | WWalk (Some n) => Some (x ← deref w n; OK (set_walker w (WGive n (link x))))
  | WGive n next =>
      Some (x ← deref w n;
            OK (mkWorld (<[n := rebuild x]> (nodes w)) (head w) (pushers w) (WWalk next) (out w ++ [n])
                  (pushed w) (drained w ++ [n]) (dropped w)))
  | WTear None => Some (OK (set_walker w WDone))
  | WTear (Some n) => Some (x ← deref w n; OK (set_walker w (WFree n (link x))))
  | WFree n next =>
      Some (x ← deref w n;
            x' ← drop_receiver x;
            OK (mkWorld (<[n := x']> (nodes w)) (head w) (pushers w) (WTear next) (out w)
                  (pushed w) (drained w) (dropped w ++ [n])))
  | _ => None
  end.

(** The stack is shared: nobody is dropping it. *)
Definition alive (p : wpc) : bool := match p with WTear _ | WFree _ _ | WDone => false | _ => true end.
Definition idle (u : upc) : bool := match u with UIdle => true | _ => false end.

(** Removing a receiver from the hands of its owner. *)
Fixpoint surrender (n : nat) (l : list nat) : list nat :=
  match l with
  | [] => []
  | m :: l' => if decide (m = n) then l' else m :: surrender n l'
  end.

Definition step w (e : event T) : option (outcome (World T)) :=
  match e with
  | EPush i n =>
      if bool_decide (pushers w !! i = Some UIdle) && bool_decide (n ∈ out w) && alive (walker w)
      then Some (OK (mkWorld (nodes w) (head w) (<[i := ULoad n]> (pushers w)) (walker w) (surrender n (out w))
                       (pushed w) (drained w) (dropped w)))
      else None
  | EUp i spurious => u ← pushers w !! i; push_step w i u spurious
  | EDrain =>
      match walker w with
      | WIdle => Some (OK (mkWorld (nodes w) None (pushers w) (WWalk (head w)) (out w) (pushed w) (drained w) (dropped w)))
      | _ => None
      end
  | EDrop =>
      match walker w with
      | WIdle =>
          if forallb idle (pushers w)
          then Some (OK (mkWorld (nodes w) None (pushers w) (WTear (head w)) (out w) (pushed w) (drained w) (dropped w)))
          else None
      | _ => None
      end
  | EWalk => walk_step w
  | ESend n v =>
      x ← nodes w !! n;
      let c := chan x in
      if ring.producer_gone (ring.ch_inner c) then None else
      Some ('(r, i, s) ← ring.try_push (ring.ch_inner c) (ring.ch_tx c) v;
            OK (set_nodes w (<[n := mkNode (ring.mkChan i s (ring.ch_rx c))
                                (sent x ++ match r with Ok _ => [v] | Err _ => [] end) (popped x)]> (nodes w))))
  | ELeave n =>
      x ← nodes w !! n;
      let c := chan x in
      Some (OK (set_nodes w (<[n := mkNode (ring.mkChan (ring.store_producer_gone (ring.ch_inner c) true) (ring.ch_tx c)
                                              (ring.ch_rx c)) (sent x) (popped x)]> (nodes w))))
  | EPop n =>
      if bool_decide (n ∈ out w) then
        x ← nodes w !! n;
        let c := chan x in
        Some ('(o, i, r) ← ring.try_pop (ring.ch_inner c) (ring.ch_rx c);
              OK (set_nodes w (<[n := mkNode (ring.mkChan i (ring.ch_tx c) r) (sent x) (popped x ++ option_list o)]> (nodes w))))
      else None
  end.

Inductive reachable (w0 : World T) : World T -> Prop :=
| reach_refl : reachable w0 w0
| reach_step w e w' : reachable w0 w -> step w e = Some (OK w') -> reachable w0 w'.

(** [InboxStack::new], with [np] pushing threads and rings in their hands. *)
Definition new (np : nat) (cs : list (ring.Chan T)) : World T :=
  mkWorld ((fun c => mkNode c [] []) <$> cs) None (replicate np UIdle) WIdle (seq 0 (length cs)) [] [] [].
End machine.

(** ** Custody *)

Section custody.
Context {T : Type}.
Implicit Types w : World T.
Implicit Types ns : list (Node T).
Implicit Types x : Node T.

(** The links from [h] lead through exactly the nodes [L]. *)
Fixpoint chain ns (h : option nat) (L : list nat) : Prop :=
  match L with
  | [] => h = None
  | n :: L' => h = Some n /\ exists x, ns !! n = Some x /\ chain ns (link x) L'
  end.

Definition held (u : upc) : list nat := match u with UIdle => [] | ULoad n | ULink n _ | UCas n _ => [n] end.
Definition in_hand w : list nat := mjoin (held <$> pushers w).
Definition position (p : wpc) : option nat := match p with WWalk n | WTear n => n | WGive n _ | WFree n _ => Some n | _ => None end.
Definition loaded (p : wpc) : option (nat * option nat) :=
  match p with WGive n h | WFree n h => Some (n, h) | _ => None end.

Definition node_ok w (n : nat) x : Prop :=
  let c := chan x in
  exists q, ring.ring_repr (ring.ch_inner c) (ring.ch_tx c) (ring.ch_rx c) q /\ (n ∉ dropped w -> sent x = popped x ++ q).

Record inv w (L R : list nat) : Prop := {
  i_chain : chain (nodes w) (head w) L;
  i_walk : chain (nodes w) (position (walker w)) R;
  i_hands : out w ++ L ++ R ++ in_hand w ++ dropped w ≡ₚ seq 0 (length (nodes w));
  i_cas i n h : pushers w !! i = Some (UCas n h) -> exists x, nodes w !! n = Some x /\ link x = h;
  i_node n x : nodes w !! n = Some x -> node_ok w n x;
  i_log : exists old, pushed w = old ++ reverse L /\ old ≡ₚ drained w ++ dropped w ++ R;
  i_next n h : loaded (walker w) = Some (n, h) -> exists x, nodes w !! n = Some x /\ link x = h
}.

Lemma loaded_position p n h : loaded p = Some (n, h) -> position p = Some n.
Proof. by destruct p; intros [= <- <-]. Qed.

Lemma chain_head ns n R : chain ns (Some n) R -> n ∈ R.
Proof. destruct R as [|m R]; [done|]. intros ([= <-] & _). by left. Qed.

Lemma link_keep ns n x x' m h :
  ns !! n = Some x -> link x' = link x -> (exists y, ns !! m = Some y /\ link y = h) ->
  exists y, <[n := x']> ns !! m = Some y /\ link y = h.
Proof.
  intros Hx Hl (y & Hy & E). destruct (decide (m = n)) as [->|Hne].
  - simplify_eq. exists x'. split; [apply list_lookup_insert_eq; by eapply lookup_lt_Some|by rewrite Hl].
  - exists y. by rewrite list_lookup_insert_ne.
Qed.

Lemma chain_keep ns ns' h L :
  (forall n x, n ∈ L -> ns !! n = Some x -> exists x', ns' !! n = Some x' /\ link x' = link x) ->
  chain ns h L -> chain ns' h L.
Proof.
  revert h. induction L as [|n L IH]; intros h Hk; simpl; [done|]. intros (-> & x & Hx & Hc). split; [done|].
  destruct (Hk n x ltac:(by left) Hx) as (x' & Hx' & E). exists x'. split; [done|]. rewrite E. apply IH; [|done].
  intros m y Hm. apply Hk. by right.
Qed.

(** Another ring, or the same link. *)
Lemma chain_update ns h L n x x' :
  ns !! n = Some x -> (n ∈ L -> link x' = link x) -> chain ns h L -> chain (<[n := x']> ns) h L.
Proof.
  intros Hx Hl. apply chain_keep. intros m y Hm Hy. destruct (decide (m = n)) as [->|Hne].
  - simplify_eq. exists x'. split; [apply list_lookup_insert_eq; by eapply lookup_lt_Some|by apply Hl].
  - exists y. by rewrite list_lookup_insert_ne.
Qed.

Lemma held_join us i u u' :
  us !! i = Some u -> exists rest, mjoin (held <$> us) ≡ₚ held u ++ rest /\ mjoin (held <$> <[i := u']> us) ≡ₚ held u' ++ rest.
Proof.
  revert i. induction us as [|y us IH]; intros [|i] Hi; try done; simpl in Hi.
  - injection Hi as ->. by exists (mjoin (held <$> us)).
  - destruct (IH i Hi) as (rest & H1 & H2). exists (held y ++ rest). csimpl. change (mjoin (held y :: ?l)) with (held y ++ mjoin l).
    split.
    + rewrite H1, !app_assoc. by rewrite (Permutation_app_comm (held y) (held u)).
    + rewrite H2, !app_assoc. by rewrite (Permutation_app_comm (held y) (held u')).
Qed.

Lemma surrender_perm n l : n ∈ l -> l ≡ₚ n :: surrender n l.
Proof.
  induction l as [|m l IH]; simpl; [by intros ?%not_elem_of_nil|]. intros Hin. case_decide as E; [by subst|].
  apply elem_of_cons in Hin as [->|Hin]; [done|]. rewrite (IH Hin) at 1. constructor.
Qed.

(** Every ring is in one place. *)
Lemma hands_nodup w L R : inv w L R -> NoDup (out w ++ L ++ R ++ in_hand w ++ dropped w).
Proof. intros Hi. rewrite (i_hands _ _ _ Hi). apply NoDup_seq. Qed.

Lemma in_range w L R n : inv w L R -> n ∈ out w ++ L ++ R ++ in_hand w ++ dropped w -> exists x, nodes w !! n = Some x.
Proof.
  intros Hi. rewrite (i_hands _ _ _ Hi). intros [_ Hn]%elem_of_seq. by apply lookup_lt_is_Some_2.
Qed.

Lemma held_in w i u n : pushers w !! i = Some u -> n ∈ held u -> n ∈ in_hand w.
Proof.
  intros Hi Hn. destruct (held_join (pushers w) i u u Hi) as (rest & H1 & _). unfold in_hand. rewrite H1. set_solver.
Qed.

(** A call on a ring leaves its link alone. *)
Lemma inv_ring w L R n x x' :
  inv w L R -> nodes w !! n = Some x -> link x' = link x -> node_ok w n x' -> inv (set_nodes w (<[n := x']> (nodes w))) L R.
Proof.
  intros Hi Hx Hl Hok. destruct Hi as [H1 H2 H3 H4 H5 H6 H7]. constructor; simpl; try done.
  - by eapply chain_update.
  - by eapply chain_update.
  - by rewrite length_insert.
  - intros i m h Hu. by eapply link_keep, H4.
  - intros m y Hy. updated Hy; [done|]. by apply H5.
  - intros m h Hm. by eapply link_keep, H7.
Qed.

(** A pusher that keeps its ring. *)
Lemma inv_pusher w L R i u u' :
  inv w L R -> pushers w !! i = Some u -> held u' = held u ->
  (forall n h, u' = UCas n h -> exists x, nodes w !! n = Some x /\ link x = h) -> inv (set_pusher w i u') L R.
Proof.
  intros Hi Hu Hh Hc. destruct (held_join (pushers w) i u u' Hu) as (rest & E1 & E2).
  assert (in_hand (set_pusher w i u') ≡ₚ in_hand w) as Hp by (unfold in_hand; simpl; by rewrite E2, E1, Hh).
  destruct Hi as [H1 H2 H3 H4 H5 H6 H7]. constructor; simpl; try done.
  - by rewrite Hp.
  - intros j n h Hj. updated Hj; [by apply Hc|]. by eapply H4.
Qed.

Definition goes_on (o : option (outcome (World T))) : Prop :=
  forall r, o = Some r -> exists w' L R, r = OK w' /\ inv w' L R.

Lemma push_step_ok w L R i u sp : inv w L R -> pushers w !! i = Some u -> goes_on (push_step w i u sp).
Proof.
  intros Hi Hu r. unfold push_step. destruct u as [|n|n h|n h]; [done| | |].
  - intros [= <-]. eexists _, L, R. split; [reflexivity|]. by eapply inv_pusher.
  - intros [= <-]. pose proof (held_in w i _ n Hu ltac:(by left)) as Hn.
    destruct (in_range w L R n Hi ltac:(set_solver)) as [x Hx]. unfold deref. rewrite Hx. cbn [mbind outcome_bind].
    eexists _, L, R. split; [reflexivity|].
    pose proof (hands_nodup w L R Hi) as Hnd. rewrite !NoDup_app in Hnd.
    assert ((n ∉ L) /\ (n ∉ R)) as [HL HR] by (destruct Hnd as (_ & _ & _ & Ha & _ & Hb & _);
      split; intros Hin; [apply (Ha n Hin)|apply (Hb n Hin)]; set_solver).
    destruct Hi as [H1 H2 H3 H4 H5 H6 H7].
    assert (inv (set_nodes w (<[n := set_link x h]> (nodes w))) L R) as Hi'.
    { constructor; simpl; try done.
      - eapply chain_update; [done|by intros ?|done].
      - eapply chain_update; [done|by intros ?|done].
      - by rewrite length_insert.
      - intros j m h' Hj. destruct (decide (m = n)) as [->|Hne].
        + exfalso. assert (j <> i) as Hji by (intros ->; rewrite Hu in Hj; done).
          destruct (held_join (pushers w) i _ UIdle Hu) as (rest & E1 & E2). simpl in E1, E2.
          assert (n ∈ rest) as Hr by (rewrite <- E2; eapply (held_in (set_pusher w i UIdle) j);
            [simpl; by rewrite list_lookup_insert_ne|by left]).
          destruct Hnd as (_ & _ & _ & _ & _ & _ & Hnd & _). unfold in_hand in Hnd. rewrite E1 in Hnd.
          by apply NoDup_cons in Hnd as [? _].
        + destruct (H4 j m h' Hj) as (y & Hy & E). exists y. by rewrite list_lookup_insert_ne.
      - intros m y Hy. updated Hy; [|by apply H5]. destruct (H5 _ x Hx) as (q & Hr & Hq). exists q.
        split; [by apply ring.repr_inbox_next|done].
      - intros m h' Hm. destruct (H7 m h' Hm) as (y & Hy & E). exists y. rewrite list_lookup_insert_ne; [done|].
        intros ->. apply HR. rewrite (loaded_position _ _ _ Hm) in H2. by eapply chain_head. }
    eapply inv_pusher; [exact Hi'|exact Hu|done|]. intros m h' E. injection E as E1 E2. subst m h'. exists (set_link x h). simpl.
    split; [apply list_lookup_insert_eq; by eapply lookup_lt_Some|done].
  - destruct (negb sp && bool_decide (head w = h)) eqn:Hcas; cycle 1.
    { intros [= <-]. eexists _, L, R. split; [reflexivity|]. by eapply inv_pusher. }
    intros [= <-]. apply andb_true_iff in Hcas as [_ Hh%bool_decide_eq_true]. eexists _, (n :: L), R. split; [reflexivity|].
    destruct (held_join (pushers w) i _ UIdle Hu) as (rest & E1 & E2). simpl in E1, E2.
    destruct Hi as [H1 H2 H3 H4 H5 H6 H7]. destruct (H4 i n h Hu) as (x & Hx & Hl). constructor; simpl; try done.
    + split; [done|]. exists x. split; [done|]. by rewrite Hl, <- Hh.
    + rewrite <- H3. unfold in_hand. simpl. rewrite E1, E2. solve_Permutation.
    + intros j m h' Hj. updated Hj. by eapply H4.
    + destruct H6 as (old & E & Hold). exists old. rewrite E, reverse_cons, app_assoc. done.
Qed.

Lemma drop_receiver_ok x q :
  ring.ring_repr (ring.ch_inner (chan x)) (ring.ch_tx (chan x)) (ring.ch_rx (chan x)) q ->
  exists x', drop_receiver x = OK x' /\ link x' = link x /\
    ring.ring_repr (ring.ch_inner (chan x')) (ring.ch_tx (chan x')) (ring.ch_rx (chan x')) [].
Proof.
  intros Hr. pose proof (ring.repr_reset_tail_cache _ _ _ _ Hr) as Hr2. unfold drop_receiver, link.
  cbn [bk_drop_rx ring.ring_backend rebuild chan ring.ch_inner ring.ch_tx ring.ch_rx].
  rewrite (ring.used_spec _ _ _ _ Hr2), Nat2Z.id.
  destruct (ring.pop_all_spec _ _ _ _ (ring.repr_consumer_gone _ _ _ _ true Hr2)) as (i1 & r1 & -> & Hr3 & Hf).
  cbn [mbind outcome_bind]. eexists. split; [reflexivity|]. simpl. split; [|done]. unfold ring.frame in Hf.
  by destruct Hf as (_ & -> & _).
Qed.

(** The ring the walk is at, and the rest of its chain. *)
Lemma walk_at w L R n :
  inv w L R -> position (walker w) = Some n ->
  exists x R', nodes w !! n = Some x /\ R = n :: R' /\ chain (nodes w) (link x) R'.
Proof.
  intros Hi Hn. pose proof (i_walk _ _ _ Hi) as Hw. rewrite Hn in Hw. destruct R as [|m R']; [done|].
  destruct Hw as ([= <-] & y & Hy & Hc). by exists y, R'.
Qed.

(** The walk moves while the rings stay. *)
Lemma inv_walker w L R p :
  inv w L R -> position p = position (walker w) ->
  (forall n h, loaded p = Some (n, h) -> exists x, nodes w !! n = Some x /\ link x = h) -> inv (set_walker w p) L R.
Proof. intros [H1 H2 H3 H4 H5 H6 H7] Hp Hl. constructor; simpl; rewrite ?Hp; done. Qed.

(** The link of a ring is loaded. *)
Lemma walk_load_ok w L R n (f : option nat -> wpc) :
  inv w L R -> position (walker w) = Some n -> (forall h, position (f h) = Some n /\ loaded (f h) = Some (n, h)) ->
  goes_on (Some (x ← deref w n; OK (set_walker w (f (link x))))).
Proof.
  intros Hi Hn Hf r [= <-]. destruct (walk_at w L R n Hi Hn) as (x & R' & Hx & -> & Hc).
  unfold deref. rewrite Hx. cbn [mbind outcome_bind]. eexists _, L, (n :: R'). split; [reflexivity|].
  destruct (Hf (link x)) as [Hp Hl]. apply inv_walker; [done|by rewrite Hp, Hn|].
  intros m h. rewrite Hl. intros [= <- <-]. by exists x.
Qed.

(** A ring whose link is loaded is given away. *)
Lemma walk_give_ok w L R n h : inv w L R -> walker w = WGive n h -> goes_on (walk_step w).
Proof.
  intros Hi Ew r. unfold walk_step. rewrite Ew. intros [= <-].
  destruct (walk_at w L R n Hi ltac:(by rewrite Ew)) as (x & R' & Hx & -> & Hc).
  destruct (i_next _ _ _ Hi n h ltac:(by rewrite Ew)) as (y & Hy & <-). simplify_eq.
  unfold deref. rewrite Hx. cbn [mbind outcome_bind]. eexists _, L, R'. split; [reflexivity|].
  destruct (inv_ring w L (n :: R') n x (rebuild x) Hi Hx) as [H1 H2 H3 H4 H5 H6 H7]; [done| |].
  { destruct (i_node _ _ _ Hi n x Hx) as (q & Hr & Hq). exists q. split; [by eapply ring.repr_reset_tail_cache|done]. }
  constructor; simpl in *; try done.
  - by eapply chain_update.
  - rewrite <- H3. solve_Permutation.
  - destruct H6 as (old & E & Hold). exists old. split; [done|]. rewrite Hold. solve_Permutation.
Qed.

(** A ring whose link is loaded is dropped. *)
Lemma walk_free_ok w L R n h : inv w L R -> walker w = WFree n h -> goes_on (walk_step w).
Proof.
  intros Hi Ew r. unfold walk_step. rewrite Ew. intros [= <-].
  destruct (walk_at w L R n Hi ltac:(by rewrite Ew)) as (x & R' & Hx & -> & Hc).
  destruct (i_next _ _ _ Hi n h ltac:(by rewrite Ew)) as (y & Hy & <-). simplify_eq.
  unfold deref. rewrite Hx. cbn [mbind outcome_bind].
  destruct (i_node _ _ _ Hi n x Hx) as (q & Hr & Hq). destruct (drop_receiver_ok x q Hr) as (x' & Hd & Hlc & Hrc).
  rewrite Hd. cbn [mbind outcome_bind]. eexists _, L, R'. split; [reflexivity|].
  destruct Hi as [H1 H2 H3 H4 H5 H6 H7]. constructor; simpl in *; try done.
  - by eapply chain_update.
  - by eapply chain_update.
  - rewrite length_insert, <- H3. solve_Permutation.
  - intros i m h Hu. by eapply link_keep, H4.
  - intros m z Hz. updated Hz.
    + exists []. split; [done|]. simpl. intros Hn. exfalso. apply Hn. set_solver.
    + destruct (H5 m z Hz) as (q' & Hr' & Hq'). exists q'. split; [done|]. intros Hn. apply Hq'. simpl in Hn. set_solver.
  - destruct H6 as (old & E & Hold). exists old. split; [done|]. rewrite Hold. solve_Permutation.
Qed.

Lemma walk_step_ok w L R : inv w L R -> goes_on (walk_step w).
Proof.
  intros Hi. destruct (walker w) as [|[n|]|n h|[n|]|n h|] eqn:Ew;
    [unfold walk_step; by rewrite Ew|..|unfold walk_step; by rewrite Ew].
  - unfold walk_step. rewrite Ew. by apply (walk_load_ok w L R n (WGive n)); [|rewrite Ew|].
  - unfold walk_step. rewrite Ew. intros r [= <-]. eexists _, L, R. split; [reflexivity|]. apply inv_walker; [done|by rewrite Ew|done].
  - by eapply walk_give_ok.
  - unfold walk_step. rewrite Ew. by apply (walk_load_ok w L R n (WFree n)); [|rewrite Ew|].
  - unfold walk_step. rewrite Ew. intros r [= <-]. eexists _, L, R. split; [reflexivity|]. apply inv_walker; [done|by rewrite Ew|done].
  - by eapply walk_free_ok.
Qed.

Lemma node_send_ok w n x v :
  node_ok w n x -> exists r i s, ring.try_push (ring.ch_inner (chan x)) (ring.ch_tx (chan x)) v = OK (r, i, s) /\
    let x' := mkNode (ring.mkChan i s (ring.ch_rx (chan x))) (sent x ++ match r with Ok _ => [v] | Err _ => [] end) (popped x) in
    node_ok w n x' /\ link x' = link x.
Proof.
  intros (q & Hr & Hq). pose proof (ring.try_push_spec _ _ _ _ v Hr) as H. destruct (_ <? _).
  - destruct H as (i & s & -> & Hr' & Hf). eexists _, _, _. split; [reflexivity|]. split; [|by destruct Hf as (_ & ? & _)].
    exists (q ++ [v]). split; [done|]. simpl. intros Hn. by rewrite (Hq Hn), <- app_assoc.
  - destruct H as (s & -> & Hr'). eexists _, _, _. split; [reflexivity|]. split; [|done].
    exists q. split; [done|]. simpl. rewrite app_nil_r. done.
Qed.

Lemma node_pop_ok w n x :
  node_ok w n x -> exists o i r, ring.try_pop (ring.ch_inner (chan x)) (ring.ch_rx (chan x)) = OK (o, i, r) /\
    let x' := mkNode (ring.mkChan i (ring.ch_tx (chan x)) r) (sent x) (popped x ++ option_list o) in
    node_ok w n x' /\ link x' = link x.
Proof.
  intros (q & Hr & Hq). pose proof (ring.try_pop_spec _ _ _ _ Hr) as H. destruct q as [|v q].
  - destruct H as (r & -> & Hr'). eexists _, _, _. split; [reflexivity|]. split; [|done].
    exists []. split; [done|]. simpl. intros Hn. by rewrite (Hq Hn), !app_nil_r.
  - destruct H as (i & r & -> & Hr' & Hf). eexists _, _, _. split; [reflexivity|]. split; [|by destruct Hf as (_ & ? & _)].
    exists q. split; [done|]. simpl. intros Hn. by rewrite (Hq Hn), <- app_assoc.
Qed.

Lemma inbox_step_ok w L R e : inv w L R -> goes_on (step w e).
Proof.
  intros Hi r. destruct e as [i n|i sp| | | |n v|n|n]; cbn [step].
  - destruct (_ && _) eqn:Hg; [|done]. apply andb_true_iff in Hg as [[Hu Hn]%andb_true_iff _].
    apply bool_decide_eq_true in Hu, Hn. intros [= <-]. eexists _, L, R. split; [reflexivity|].
    destruct (held_join (pushers w) i _ (ULoad n) Hu) as (rest & E1 & E2). simpl in E1, E2.
    destruct Hi as [H1 H2 H3 H4 H5 H6 H7]. constructor; simpl; try done.
    + rewrite <- H3. unfold in_hand. simpl. rewrite E1, E2.
      pose proof (surrender_perm n (out w) Hn) as Hg. set (g := surrender n (out w)) in *. rewrite Hg. solve_Permutation.
    + intros j m h Hj. updated Hj. by eapply H4.
  - destruct (pushers w !! i) as [u|] eqn:Hu; [|done]. simpl. by apply (push_step_ok w L R).
  - destruct (walker w) eqn:Ew; try done. intros [= <-]. eexists _, [], L. split; [reflexivity|].
    pose proof (i_walk _ _ _ Hi) as Hw. rewrite Ew in Hw. simpl in Hw. assert (R = []) as -> by (destruct R; [done|by destruct Hw]).
    destruct Hi as [H1 H2 H3 H4 H5 H6 H7]. constructor; simpl; try done.
    destruct H6 as (old & E & Hold). exists (pushed w). rewrite app_nil_r. split; [done|].
    rewrite E, Hold, reverse_Permutation, app_nil_r. solve_Permutation.
  - destruct (walker w) eqn:Ew; try done. destruct (forallb _ _); [|done]. intros [= <-]. eexists _, [], L. split; [reflexivity|].
    pose proof (i_walk _ _ _ Hi) as Hw. rewrite Ew in Hw. simpl in Hw. assert (R = []) as -> by (destruct R; [done|by destruct Hw]).
    destruct Hi as [H1 H2 H3 H4 H5 H6 H7]. constructor; simpl; try done.
    destruct H6 as (old & E & Hold). exists (pushed w). rewrite app_nil_r. split; [done|].
    rewrite E, Hold, reverse_Permutation, app_nil_r. solve_Permutation.
  - by apply (walk_step_ok w L R).
  - destruct (nodes w !! n) as [x|] eqn:Hx; [|done]. simpl. destruct (ring.producer_gone _); [done|].
    intros [= <-]. destruct (node_send_ok w n x v (i_node _ _ _ Hi n x Hx)) as (o & i & s & -> & Hok & Hl).
    cbn [mbind outcome_bind]. eexists _, L, R. split; [reflexivity|]. by eapply inv_ring.
  - destruct (nodes w !! n) as [x|] eqn:Hx; [|done]. simpl. intros [= <-]. eexists _, L, R. split; [reflexivity|].
    eapply inv_ring; [done|done|done|]. destruct (i_node _ _ _ Hi n x Hx) as (q & Hr & Hq). exists q.
    split; [by apply ring.repr_producer_gone|done].
  - case_bool_decide as Hn; [|done]. destruct (nodes w !! n) as [x|] eqn:Hx; [|done]. simpl. intros [= <-].
    destruct (node_pop_ok w n x (i_node _ _ _ Hi n x Hx)) as (o & i & s & -> & Hok & Hl).
    cbn [mbind outcome_bind]. eexists _, L, R. split; [reflexivity|]. by eapply inv_ring.
Qed.

Lemma inv_new np (cs : list (ring.Chan T)) :
  Forall (fun c => ring.ring_repr (ring.ch_inner c) (ring.ch_tx c) (ring.ch_rx c) []) cs -> inv (new np cs) [] [].
Proof.
  intros Hcs. assert (mjoin (held <$> replicate np UIdle) = []) as Hh by (induction np; done).
  constructor; simpl; try done.
  - unfold in_hand. simpl. by rewrite Hh, !app_nil_r, length_fmap.
  - by intros i n h [? _]%lookup_replicate.
  - intros n x Hx. apply list_lookup_fmap_Some in Hx as (c & -> & Hc). exists [].
    split; [by eapply (proj1 (Forall_lookup _ _) Hcs)|done].
  - exists []. by split.
Qed.

(** C14: the lock-free inbox loses and duplicates nothing. In every interleaving
    of threads that park rings (with exchanges that fail spuriously or find a
    recycled head), the consumer's drains, the teardown and the rings' own senders
    and receivers: no link of a ring that was given away is read, and no call
    panics; every ring is in exactly one place: in the hands of a receiver, linked
    in the stack, in the chain being walked, in a push under way, or dropped; the
    stack is linked in the reverse order of the exchanges, and what was parked is,
    as often as it was parked, what was drained, dropped, is being walked or is
    still linked; and each ring keeps its values in order while it is parked. *)
Theorem inbox_exact np (cs : list (ring.Chan T)) (w : World T) :
  Forall (fun c => ring.ring_repr (ring.ch_inner c) (ring.ch_tx c) (ring.ch_rx c) []) cs ->
  reachable (new np cs) w ->
  (forall e r, step w e = Some r -> exists w', r = OK w') /\
  exists linked walked, chain (nodes w) (head w) linked /\ chain (nodes w) (position (walker w)) walked /\
    out w ++ linked ++ walked ++ in_hand w ++ dropped w ≡ₚ seq 0 (length (nodes w)) /\
    (exists old, pushed w = old ++ reverse linked /\ old ≡ₚ drained w ++ dropped w ++ walked) /\
    forall n x, nodes w !! n = Some x -> (n ∉ dropped w) ->
      exists q, ring.ring_repr (ring.ch_inner (chan x)) (ring.ch_tx (chan x)) (ring.ch_rx (chan x)) q /\ sent x = popped x ++ q.
Proof.
  intros Hcs Hr. assert (exists L R, inv w L R) as (L & R & Hi).
  { induction Hr as [|w e w' _ (L & R & IH) Hs]; [exists [], []; by apply inv_new|].
    destruct (inbox_step_ok w L R e IH _ Hs) as (w2 & L' & R' & [= <-] & H). by exists L', R'. }
  split.
  - intros e r Hs. destruct (inbox_step_ok w L R e Hi r Hs) as (w' & _ & _ & -> & _). by exists w'.
  - exists L, R. destruct Hi as [H1 H2 H3 H4 H5 H6 H7]. split; [done|]. split; [done|]. split; [done|]. split; [done|].
    intros n x Hx Hn. destruct (H5 n x Hx) as (q & Hq & E). exists q. split; [done|by apply E].
Qed.
End custody.

(** ** An execution

    Two rings, two threads. The second thread parks ring 1; the first one loads
    that head to park ring 0; ring 1 is drained, popped from and parked again; the
    first thread's exchange then succeeds on the recycled head. The drain gives
    ring 0, then ring 1. *)

Fixpoint run {T} (w : World T) (es : list (event T)) : option (World T) :=
  match es with
  | [] => Some w
  | e :: es' => match step w e with Some (OK w') => run w' es' | _ => None end
  end.

Lemma inbox_run {T} (w0 w w' : World T) es : reachable w0 w -> run w es = Some w' -> reachable w0 w'.
Proof.
  revert w. induction es as [|e es IH]; intros w Hr; simpl; [by intros [= <-]|].
  destruct (step w e) as [[w1| |]|] eqn:Hs; try done. apply IH. by econstructor.
Qed.

Definition ups (i n : nat) : list (event nat) := replicate n (EUp i false).

Definition recycled_schedule : list (event nat) :=
  [EPush 1 1] ++ ups 1 3 ++ [ESend 1 7%nat; EPush 0 0] ++ ups 0 2 ++ [EDrain; EWalk; EWalk; EWalk; EPop 1] ++
  [ESend 1 8%nat; EPush 1 1] ++ ups 1 3 ++ ups 0 1 ++ [EDrain; EWalk; EWalk; EWalk; EWalk; EWalk].

Definition sample_rings : list (ring.Chan nat) :=
  match bk_channel (SpscBackend := ring.ring_backend 8) 2 with OK c => [c; c] | _ => [] end.

Lemma inbox_exact_witness :
  exists w : World nat, drained w = [1; 0; 1]%nat /\ pushed w = [1; 1; 0]%nat /\
    exists x, nodes w !! 1%nat = Some x /\
      ring.ring_repr (ring.ch_inner (chan x)) (ring.ch_tx (chan x)) (ring.ch_rx (chan x)) [8%nat].
Proof.
  assert (Forall (fun c => ring.ring_repr (ring.ch_inner c) (ring.ch_tx c) (ring.ch_rx c) []) sample_rings) as Hcs.
  { unfold sample_rings. destruct (bk_channel 2) as [c| |] eqn:E; [|constructor..].
    destruct (bk_channel_law (SpscLaws := ring.ring_laws 8) 2 c E) as [Hr _]. repeat constructor; exact Hr. }
  assert (match run (new 2 sample_rings) recycled_schedule with
    | Some w => drained w = [1; 0; 1]%nat /\ pushed w = [1; 1; 0]%nat /\ dropped w = [] /\
        match nodes w !! 1%nat with Some x => sent x = [7; 8]%nat /\ popped x = [7]%nat | None => False end
    | None => False end) as Hrun by (vm_compute; repeat split; reflexivity).
  destruct (run (new 2 sample_rings) recycled_schedule) as [w|] eqn:E; [|destruct Hrun].
  pose proof (inbox_run _ _ w _ (reach_refl _) E) as Hr.
  destruct (inbox_exact 2 sample_rings w Hcs Hr) as (_ & L & R & _ & _ & _ & _ & Hq).
  exists w. destruct Hrun as (H1 & H2 & Hd & H3). split; [exact H1|]. split; [exact H2|].
  destruct (nodes w !! 1%nat) as [x|] eqn:Hx; [|destruct H3]. exists x. split; [reflexivity|].
  destruct (Hq 1%nat x Hx) as (q & Hrep & E1); [rewrite Hd; apply not_elem_of_nil|].
  destruct H3 as [Hs Hp]. rewrite Hs, Hp in E1. injection E1 as <-. exact Hrep.
Defined.
End inbox.
