(* ===== verification/Async.v ===== *)
(** * The futures and blocking sends of the MPSC tier: [src/src/mpsc/chan.rs]

    [send_async] and [send_batch_async], one poll at a time. A poll is a function of
    the answers the ring gives to its pushes: the receiver and the other threads
    work between them, so that any sequence of answers is possible, and the
    theorems quantify over all of them. Its result carries the trace of the poll's
    effects in order: pushes with their answers, wakes of the receiver, the
    registration and removal of the task's waker, and a wake of the task itself.

    The blocking [send] and [send_batch] are modelled in the same way.

    [poll_recv] is a machine over the interface of [Select.v], interleaved with the
    calls of the senders. *)

From stdpp Require Import prelude.
From S2P Require Import Prelude Batch Backend BackendRing Mpsc Select.
Local Open Scope Z_scope.

Module async.

(** ** Sending *)

Inductive answer : Type := Sent | Gone | Full.

Inductive action T : Type :=
| APush (v : T) (a : answer)
| ANotify
| ARegister
| AClear
| AWake.
Arguments APush {T} v a.
Arguments ANotify {T}.
Arguments ARegister {T}.
Arguments AClear {T}.
Arguments AWake {T}.

(** What a poll returns; [Panicked] unwinds. *)
Inductive poll R : Type := Ready (r : R) | Pending | Panicked.
Arguments Ready {R} r.
Arguments Pending {R}.
Arguments Panicked {R}.

Definition ASYNC_SEND_BUDGET : nat := 64.

(** [SendBatchFuture]: the caller's iterator is the list of what its calls of
    [next] yield, [None] where one panics. *)
Record SendBatchFuture T := mkBatch { items : list (option T); pending : option T; dirty : bool }.
Arguments mkBatch {T} items pending dirty.
Arguments items {T} s.
Arguments pending {T} s.
Arguments dirty {T} s.

Inductive pulled T : Type := End | Item (v : T) (rest : list (option T)) | Boom (rest : list (option T)).
Arguments End {T}.
Arguments Item {T} v rest.
Arguments Boom {T} rest.

Section sending.
Context {T : Type}.
Implicit Types f : SendBatchFuture T.

(** [self.items.next()]. *)
Definition next (its : list (option T)) : pulled T :=
  match its with
  | [] => End
  | Some v :: r => Item v r
  | None :: r => Boom r
  end.

(** [self.pending.take().or_else(|| self.items.next())]. *)
Definition pull (p : option T) (its : list (option T)) : pulled T :=
  match p with Some v => Item v its | None => next its end.

Definition notify_if (published : bool) : list (action T) := if published then [ANotify] else [].

(** [SendFuture::poll]: [try_send] pushes and wakes the receiver. *)
Definition try_send (v : T) (a : answer) : list (action T) :=
  match a with Sent => [APush v Sent; ANotify] | _ => [APush v a] end.

Definition send_poll (o : nat -> answer) (item : option T)
    : list (action T) * poll (result unit T) * option T :=
  match item with
  | None => ([], Panicked, None)
  | Some v =>
      match o 0%nat with
      | Sent => (try_send v Sent, Ready (Ok tt), None)
      | Gone => (try_send v Gone, Ready (Err v), None)
      | Full =>
          let tr := try_send v Full ++ [ARegister] ++ try_send v (o 1%nat) in
          match o 1%nat with
          | Sent => (tr ++ [AClear], Ready (Ok tt), None)
          | Gone => (tr ++ [AClear], Ready (Err v), None)
          | Full => (tr, Pending, Some v)
          end
      end
  end.

(** The loop of [SendBatchFuture::poll]: [budget] is what is left of it, [k] the
    number of pushes so far. *)
Fixpoint poll_loop (budget : nat) (o : nat -> answer) (k : nat) (published : bool) f
    : list (action T) * poll (result unit T) * SendBatchFuture T :=
  match budget with
  | O => ([], Panicked, f)
  | S b =>
      match pull (pending f) (items f) with
      | Boom its => ([], Panicked, mkBatch its None (dirty f))
      | End =>
          (notify_if published ++ [AClear], Ready (Ok tt), mkBatch [] None (if published then false else dirty f))
      | Item v its =>
          match o k with
          | Sent =>
              match b with
              | O =>
                  match next its with
                  | End => ([APush v Sent; ANotify; AClear], Ready (Ok tt), mkBatch [] None false)
                  | Item v' its' =>
                      ([APush v Sent; ANotify; AClear; AWake], Pending, mkBatch its' (Some v') false)
                  | Boom its' => ([APush v Sent], Panicked, mkBatch its' None true)
                  end
              | _ =>
                  let '(tr, r, f') := poll_loop b o (S k) true (mkBatch its None true) in
                  (APush v Sent :: tr, r, f')
              end
          | Gone =>
              (APush v Gone :: notify_if published ++ [AClear], Ready (Err v),
               mkBatch its None (if published then false else dirty f))
          | Full =>
              let pre := APush v Full :: notify_if published ++ [ARegister; APush v (o (S k))] in
              match o (S k) with
              | Sent =>
                  match b with
                  | O => (pre ++ [AClear; ANotify; AWake], Pending, mkBatch its None false)
                  | _ =>
                      let '(tr, r, f') := poll_loop b o (S (S k)) true (mkBatch its None true) in
                      (pre ++ AClear :: tr, r, f')
                  end
              | Gone => (pre ++ [AClear], Ready (Err v), mkBatch its None (if published then false else dirty f))
              | Full => (pre, Pending, mkBatch its (Some v) (if published then false else dirty f))
              end
          end
      end
  end.

Definition batch_poll (o : nat -> answer) f := poll_loop ASYNC_SEND_BUDGET o 0 false f.

(** [send_batch_async] and [Drop]. *)
Definition batch_new (its : list (option T)) : SendBatchFuture T := mkBatch its None false.
Definition batch_drop f : list (action T) := notify_if (dirty f) ++ [AClear].

(** Polls one after the other until one is ready or unwinds, then the drop. *)
Fixpoint batch_run (os : list (nat -> answer)) f : list (action T) * list (poll (result unit T)) * SendBatchFuture T :=
  match os with
  | [] => (batch_drop f, [], f)
  | o :: os' =>
      let '(tr, r, f') := batch_poll o f in
      match r with
      | Pending => let '(tr', rs, f'') := batch_run os' f' in (tr ++ tr', r :: rs, f'')
      | _ => (tr ++ batch_drop f', [r], f')
      end
  end.

(** [Producer::send] and [send_batch]: they spin while the ring is full, for [fuel]
    pushes here; [None] while they have not returned. A batch wakes the receiver
    once, when all of it is in the ring. *)
Fixpoint send (fuel : nat) (o : nat -> answer) (k : nat) (v : T) : list (action T) * option (result unit T) :=
  match fuel with
  | O => ([], None)
  | S n =>
      match o k with
      | Sent => (try_send v Sent, Some (Ok tt))
      | Gone => (try_send v Gone, Some (Err v))
      | Full => let '(tr, r) := send n o (S k) v in (try_send v Full ++ tr, r)
      end
  end.

Fixpoint send_batch (fuel : nat) (o : nat -> answer) (k : nat) (vs : list T) : list (action T) * option (result unit T) :=
  match vs, fuel with
  | [], _ => ([ANotify], Some (Ok tt))
  | _ :: _, O => ([], None)
  | v :: vs', S n =>
      match o k with
      | Sent => let '(tr, r) := send_batch n o (S k) vs' in (APush v Sent :: tr, r)
      | Gone => ([APush v Gone], Some (Err v))
      | Full => let '(tr, r) := send_batch n o (S k) vs in (APush v Full :: tr, r)
      end
  end.

(** ** What a trace shows *)

(** The values the ring took. *)
Fixpoint sent (tr : list (action T)) : list T :=
  match tr with
  | [] => []
  | APush v Sent :: tr' => v :: sent tr'
  | _ :: tr' => sent tr'
  end.

(** Was a value taken after the last wake of the receiver? [d] before the trace. *)
Fixpoint unseen (d : bool) (tr : list (action T)) : bool :=
  match tr with
  | [] => d
  | APush _ Sent :: tr' => unseen true tr'
  | ANotify :: tr' => unseen false tr'
  | _ :: tr' => unseen d tr'
  end.

(** Is the task's waker registered? *)
Fixpoint registered (g : bool) (tr : list (action T)) : bool :=
  match tr with
  | [] => g
  | ARegister :: tr' => registered true tr'
  | AClear :: tr' => registered false tr'
  | _ :: tr' => registered g tr'
  end.

(** Values that left the future without being sent: handed back, or lost in a
    panic of the iterator. *)
Definition back (r : poll (result unit T)) : list (option T) :=
  match r with Ready (Err v) => [Some v] | Panicked => [None] | _ => [] end.

(** What is still to be sent. *)
Definition left_over f : list (option T) := (Some <$> option_list (pending f)) ++ items f.

Lemma sent_app tr tr' : sent (tr ++ tr') = sent tr ++ sent tr'.
Proof. induction tr as [|[v []| | | |] tr IH]; simpl; by rewrite ?IH. Qed.
Lemma unseen_app d tr tr' : unseen d (tr ++ tr') = unseen (unseen d tr) tr'.
Proof. revert d. induction tr as [|[v []| | | |] tr IH]; intros d; simpl; auto. Qed.
Lemma registered_app g tr tr' : registered g (tr ++ tr') = registered (registered g tr) tr'.
Proof. revert g. induction tr as [|[v []| | | |] tr IH]; intros g; simpl; auto. Qed.

(** How a poll that started with [b] pushes to spend may return. *)
Definition returns (b : nat) (g : bool) (tr : list (action T)) (r : poll (result unit T)) f' : Prop :=
  match r with
  | Ready (Ok _) => left_over f' = [] /\ registered g tr = false
  | Ready (Err _) => registered g tr = false
  | Pending =>
      (exists pre v, tr = pre ++ [ARegister; APush v Full] /\ pending f' = Some v) \/
      (last tr = Some AWake /\ registered g tr = false /\ length (sent tr) = b)
  | Panicked => True
  end.

Definition polled b g f (x : list (action T) * poll (result unit T) * SendBatchFuture T) : Prop :=
  let '(tr, r, f') := x in
  (Some <$> sent tr) ++ back r ++ left_over f' = left_over f /\ (length (sent tr) <= b)%nat /\
  dirty f' = unseen (dirty f) tr /\ (r <> Panicked -> dirty f' = false) /\ returns b g tr r f'.

Lemma pull_left f :
  match pull (pending f) (items f) with
  | End => left_over f = []
  | Item v its => left_over f = Some v :: its
  | Boom its => left_over f = None :: its
  end.
Proof. unfold pull, left_over. destruct (pending f); [done|]. by destruct (items f) as [|[v|] its]. Qed.

Lemma unseen_notify (p d : bool) : (d = true -> p = true) -> unseen d (notify_if p) = false.
Proof. destruct p, d; simpl; auto. intros H. by specialize (H eq_refl). Qed.

Lemma sent_notify (p : bool) : sent (notify_if p) = [].
Proof. by destruct p. Qed.

(** The trace of a poll that went on after it published [v]. *)
Lemma polled_more b g f v its pre x :
  left_over f = Some v :: its -> sent pre = [v] -> unseen (dirty f) pre = true ->
  polled b (registered g pre) (mkBatch its None true) x ->
  polled (S b) g f (let '(tr, r, f') := x in (pre ++ tr, r, f')).
Proof.
  intros Hl Hs Hu. destruct x as [[tr r] f']. unfold polled. intros (H1 & H2 & H3 & H4 & H5).
  rewrite Hl, sent_app, unseen_app, Hs, Hu. split; [|split; [|split; [done|split; [done|]]]].
  - change (Some v :: ((Some <$> sent tr) ++ back r ++ left_over f') = Some v :: its). by rewrite H1.
  - simpl. lia.
  - unfold returns in *. rewrite registered_app, sent_app, Hs. destruct r as [[]| |]; try done.
    destruct H5 as [(pr & u & -> & Hp)|(H6 & H7 & H8)].
    + left. exists (pre ++ pr), u. by rewrite app_assoc.
    + right. split; [|split; [done|simpl; lia]]. rewrite last_app. by rewrite H6.
Qed.

Lemma poll_loop_ok b o k p f g :
  (0 < b)%nat -> (dirty f = true -> p = true) -> polled b g f (poll_loop b o k p f).
Proof.
  revert k p f g. induction b as [|b IH]; intros k p f g Hb Hd; [lia|]. cbn [poll_loop]. pose proof (pull_left f) as Hl.
  assert ((if p then false else dirty f) = false) as Hp by (destruct p; [done|]; destruct (dirty f); [by specialize (Hd eq_refl)|done]).
  destruct (pull (pending f) (items f)) as [|v its|its].
  - unfold polled, returns. rewrite Hl, sent_app, unseen_app, sent_notify, registered_app, Hp. simpl.
    rewrite unseen_notify by done. splits.
  - destruct (o k) eqn:Ek.
    + destruct b as [|b].
      * unfold polled, returns. rewrite Hl. destruct its as [|[v'|] its']; simpl; splits. by right.
      * specialize (IH (S k) true (mkBatch its None true) g ltac:(lia) ltac:(done)).
        pose proof (polled_more (S b) g f v its [APush v Sent] _ Hl eq_refl eq_refl IH) as H.
        by destruct (poll_loop (S b) o (S k) true (mkBatch its None true)) as [[tr r] f'].
    + unfold polled, returns. rewrite Hl, Hp. simpl. rewrite sent_app, unseen_app, sent_notify, registered_app. simpl.
      rewrite unseen_notify by done. splits.
    + destruct (o (S k)) eqn:Ek2.
      * destruct b as [|b].
        -- unfold polled, returns. rewrite Hl. simpl. rewrite !sent_app, !unseen_app, !registered_app, sent_notify. simpl.
           splits. right. split; [by destruct p|done].
        -- specialize (IH (S (S k)) true (mkBatch its None true) false ltac:(lia) ltac:(done)).
           set (pre := APush v Full :: notify_if p ++ [ARegister; APush v Sent]).
           assert (sent (pre ++ [AClear]) = [v]) as Hs by (unfold pre; simpl; by rewrite !sent_app, sent_notify).
           assert (unseen (dirty f) (pre ++ [AClear]) = true) as Hu by (unfold pre; simpl; by rewrite !unseen_app).
           assert (registered g (pre ++ [AClear]) = false) as Hg by (unfold pre; simpl; by rewrite !registered_app).
           rewrite <- Hg in IH. pose proof (polled_more (S b) g f v its (pre ++ [AClear]) _ Hl Hs Hu IH) as H.
           destruct (poll_loop (S b) o (S (S k)) true (mkBatch its None true)) as [[tr r] f'].
           by rewrite <- app_assoc in H.
      * unfold polled, returns. rewrite Hl, Hp. simpl. rewrite !sent_app, !unseen_app, !registered_app, sent_notify. simpl.
        rewrite unseen_notify by done. splits.
      * unfold polled, returns. rewrite Hl, Hp. simpl. rewrite !sent_app, !unseen_app, sent_notify. simpl.
        rewrite unseen_notify by done. splits. left. exists (APush v Full :: notify_if p), v. done.
  - unfold polled, returns. rewrite Hl. simpl. splits.
Qed.

Lemma batch_poll_ok o f g : dirty f = false -> polled ASYNC_SEND_BUDGET g f (batch_poll o f).
Proof. intros Hd. apply poll_loop_ok; [unfold ASYNC_SEND_BUDGET; lia|]. by rewrite Hd. Qed.

(** The future dropped after a poll. *)
Lemma batch_drop_ok g f tr :
  dirty f = unseen false tr ->
  sent (tr ++ batch_drop f) = sent tr /\ unseen false (tr ++ batch_drop f) = false /\ registered g (tr ++ batch_drop f) = false.
Proof.
  intros Hd. unfold batch_drop. rewrite !sent_app, !unseen_app, !registered_app, sent_notify, <- Hd. simpl. rewrite app_nil_r.
  split; [done|]. split; [by destruct (dirty f)|done].
Qed.

(** The answer of the last poll of a run. *)
Definition last_back (rs : list (poll (result unit T))) : list (option T) := default [] (back <$> last rs).

Lemma batch_run_ok os f g :
  dirty f = false ->
  let '(tr, rs, f') := batch_run os f in
  (Some <$> sent tr) ++ last_back rs ++ left_over f' = left_over f /\ unseen false tr = false /\ registered g tr = false /\
  (length (sent tr) <= ASYNC_SEND_BUDGET * length rs)%nat /\ (Ready (Ok tt) ∈ rs -> last_back rs = [] /\ left_over f' = []).
Proof.
  revert f g. induction os as [|o os IH]; intros f g Hd.
  - pose proof (batch_drop_ok g f [] Hd) as H. cbn [batch_run]. destruct H as (H1 & H2 & H3). simpl in *. rewrite H1. splits.
    by intros ?%not_elem_of_nil.
  - cbn [batch_run]. pose proof (batch_poll_ok o f g Hd) as H. destruct (batch_poll o f) as [[tr r] f']. unfold polled in H.
    destruct H as (H1 & H2 & H3 & H4 & H5). rewrite Hd in H3.
    assert (r <> Pending -> let '(tr2, rs, f2) := (tr ++ batch_drop f', [r], f') in
      (Some <$> sent tr2) ++ last_back rs ++ left_over f2 = left_over f /\ unseen false tr2 = false /\ registered g tr2 = false /\
      (length (sent tr2) <= ASYNC_SEND_BUDGET * length rs)%nat /\ (Ready (Ok tt) ∈ rs -> last_back rs = [] /\ left_over f2 = [])) as Hend.
    { intros _. destruct (batch_drop_ok g f' tr H3) as (D1 & D2 & D3). rewrite D1. split; [done|]. split; [done|]. split; [done|].
      split; [cbn [length]; lia|]. intros Hin%list_elem_of_singleton. subst r. by destruct H5. }
    destruct r as [x| |]; [by apply Hend| |by apply Hend].
    assert (dirty f' = false) as Hd' by (by apply H4). specialize (IH f' (registered g tr) Hd').
    destruct (batch_run os f') as [[tr2 rs] f2]. destruct IH as (I1 & I2 & I3 & I4 & I5).
    assert (last_back (Pending :: rs) = last_back rs) as Hlb
      by (unfold last_back; by destruct rs as [|r rs] using rev_ind; rewrite ?app_comm_cons, ?last_snoc).
    rewrite sent_app, unseen_app, registered_app, Hlb, <- H3, Hd'. split; [|split; [done|split; [done|split]]].
    + rewrite fmap_app, <- app_assoc, I1. exact H1.
    + rewrite length_app. cbn [length]. lia.
    + intros [?|Hin]%elem_of_cons; [done|]. by apply I5.
Qed.

(** A blocking send returns once the ring has room or is abandoned, pushes the value
    at most once, and wakes the receiver after it. *)
Lemma send_exact fuel o k v :
  let '(tr, r) := send fuel o k v in
  (forall j, (j < fuel)%nat -> o (k + j)%nat <> Full -> r <> None) /\
  match r with
  | Some (Ok _) => sent tr = [v] /\ unseen false tr = false
  | Some (Err v') => sent tr = [] /\ v' = v
  | None => sent tr = []
  end.
Proof.
  revert k. induction fuel as [|n IH]; intros k; simpl; [split; [lia | done] |].
  destruct (o k) eqn:Ek; [done.. |]. specialize (IH (S k)). destruct (send n o (S k) v) as [tr r]. destruct IH as [IH1 IH2].
  split; [| by destruct r as [[]|]].
  intros [|j] Hj Ho; [rewrite Nat.add_0_r in Ho; congruence |]. apply (IH1 j); [lia |]. by rewrite <- Nat.add_succ_comm in Ho.
Qed.

(** A batch is pushed in order, and the receiver is woken only by a batch that is
    complete: while the call spins on a full ring, and when the receiver is gone,
    what it has published is not announced. *)
Lemma send_batch_announces fuel o k vs :
  let '(tr, r) := send_batch fuel o k vs in
  match r with
  | Some (Ok _) => sent tr = vs /\ exists pre, tr = pre ++ [ANotify] /\ ANotify ∉ pre
  | Some (Err v) => (exists rest, vs = sent tr ++ v :: rest) /\ ANotify ∉ tr
  | None => sent tr `prefix_of` vs /\ ANotify ∉ tr
  end.
Proof.
  assert (Hc : forall v a (tr : list (action T)), ANotify ∉ tr -> ANotify ∉ APush v a :: tr) by (intros v a tr Hn [|]%elem_of_cons; done).
  revert k vs. induction fuel as [|n IH]; intros k [|v vs]; simpl.
  1, 3: split; [done |]; exists []; split; [done | apply not_elem_of_nil].
  - split; [apply prefix_nil | apply not_elem_of_nil].
  - destruct (o k).
    + specialize (IH (S k) vs). destruct (send_batch n o (S k) vs) as [tr [[]|]]; simpl.
      * destruct IH as (-> & pre & -> & Hp). split; [done |]. exists (APush v Sent :: pre). auto.
      * destruct IH as ((rest & ->) & Hp). split; [by exists rest | auto].
      * destruct IH as (Hpre & Hp). split; [by apply prefix_cons | auto].
    + split; [by exists vs | apply Hc, not_elem_of_nil].
    + specialize (IH (S k) (v :: vs)). destruct (send_batch n o (S k) (v :: vs)) as [tr [[]|]]; simpl in *.
      * destruct IH as (-> & pre & -> & Hp). split; [done |]. exists (APush v Full :: pre). auto.
      * destruct IH as ((rest & ->) & Hp). split; [by exists rest | auto].
      * destruct IH as (Hpre & Hp). auto.
Qed.

(** C19: sending an iterator asynchronously. Whatever the ring answers to the
    pushes of a batch future, over any number of polls and with the future dropped
    at any point or the caller's iterator panicking: the values the ring took, then
    the one handed back or lost in the panic, then what the future still owns are
    exactly the iterator's values in order; no poll publishes more than 64; when
    the future is gone every published value was followed by a wake of the receiver
    and its waker is deregistered. A poll that is ready with success has sent
    everything; one that is pending either ends with the registration of the waker
    and a push that still found the ring full, or has spent its budget and woken
    its own task. *)
Theorem send_batch_exact (its : list (option T)) (os : list (nat -> answer)) :
  (let '(tr, rs, f) := batch_run os (batch_new its) in
   (Some <$> sent tr) ++ last_back rs ++ left_over f = its /\ unseen false tr = false /\ registered false tr = false /\
   (length (sent tr) <= 64 * length rs)%nat /\ (Ready (Ok tt) ∈ rs -> Some <$> sent tr = its)) /\
  forall o f, dirty f = false ->
    let '(tr, r, f') := batch_poll o f in
    match r with
    | Ready (Ok _) => left_over f' = []
    | Pending =>
        (exists pre v, tr = pre ++ [ARegister; APush v Full] /\ pending f' = Some v) \/
        (last tr = Some AWake /\ length (sent tr) = 64%nat)
    | _ => True
    end.
Proof.
  split.
  - pose proof (batch_run_ok os (batch_new its) false eq_refl) as H. destruct (batch_run os (batch_new its)) as [[tr rs] f] eqn:E.
    destruct H as (H1 & H2 & H3 & H4 & H5). split; [exact H1|]. split; [done|]. split; [done|]. split; [done|].
    intros Hin. destruct (H5 Hin) as [E1 E2]. by rewrite E1, E2, app_nil_r in H1.
  - intros o f Hd. pose proof (batch_poll_ok o f false Hd) as H. destruct (batch_poll o f) as [[tr r] f'].
    destruct H as (_ & _ & _ & _ & H). unfold returns in H. destruct r as [[]| |]; try done; [by destruct H|].
    destruct H as [H|(H & _ & H')]; [by left|by right].
Qed.

(** One value: it is sent, handed back or kept; a pending poll has registered and
    then found the ring full once more, any other one has no waker left behind by
    this poll. *)
Lemma send_poll_exact (o : nat -> answer) (v : T) :
  let '(tr, r, item) := send_poll o (Some v) in
  (Some <$> sent tr) ++ back r ++ (Some <$> option_list item) = [Some v] /\ unseen false tr = false /\
  match r with
  | Pending => item = Some v /\ exists pre, tr = pre ++ [ARegister; APush v Full]
  | Ready _ => registered false tr = false
  | Panicked => False
  end.
Proof.
  unfold send_poll. destruct (o 0%nat); [done|done|]. destruct (o 1%nat); simpl; splits. by exists [APush v Full].
Qed.
End sending.

(** ** Receiving *)

(** [poll_recv]: before each call it makes, with whether the waker is armed. *)
Inductive rpc V : Type :=
| RTry
| RLook (armed : bool)
| RFinal (armed : bool)
| RArm
| RRetry
| RReady (v : option V)
| RPending.
Arguments RTry {V}.
Arguments RLook {V} armed.
Arguments RFinal {V} armed.
Arguments RArm {V}.
Arguments RRetry {V}.
Arguments RReady {V} v.
Arguments RPending {V}.

Section receiving.
Context {S V : Type} `{!select.Selectable S V}.

(** One call: [try_recv], [disconnected] or [arm]; a [clear] follows at once. *)
Definition recv_step (s : S) (p : rpc V) : option (outcome (S * rpc V)) :=
  match p with
  | RTry =>
      Some ('(o, s') ← select.try_select s;
            OK (s', match o with Some v => RReady (Some v) | None => RLook false end))
  | RLook a => Some (OK (s, if select.selection_over s then RFinal a else if a then RPending else RArm))
  | RFinal a => Some ('(o, s') ← select.try_select s; OK (s', RReady o))
  | RArm => Some (OK (s, RRetry))
  | RRetry =>
      Some ('(o, s') ← select.try_select s;
            OK (s', match o with Some v => RReady (Some v) | None => RLook true end))
  | RReady _ | RPending => None
  end.

Context `{!select.SelectableLaws S V}.

(** The poll interleaved with the senders; [n] calls of its own. *)
Inductive polling (s0 : S) : nat -> S -> rpc V -> Prop :=
| poll_start : polling s0 0 s0 RTry
| poll_own n s p s' p' : polling s0 n s p -> recv_step s p = Some (OK (s', p')) -> polling s0 (Datatypes.S n) s' p'
| poll_env n s p s' : polling s0 n s p -> select.sel_env s s' -> polling s0 n s' p.

Definition rank (p : rpc V) : nat :=
  match p with RTry => 6 | RLook false => 5 | RArm => 4 | RRetry => 3 | RLook true => 2 | RFinal _ => 1 | _ => 0 end%nat.

(** Unlike [select!], a receive that answers the end looked at the channel again
    after it saw that the senders were gone: nothing is left in it. The poll never
    panics and takes at most six calls. *)
Lemma poll_recv_end (s0 : S) n s p :
  select.sel_ok s0 -> polling s0 n s p ->
  select.sel_ok s /\ (n <= 6)%nat /\ (recv_step s p = None <-> exists v, p = RReady v \/ p = RPending) /\
  (forall r, recv_step s p = Some r -> exists x, r = OK x) /\ (p = RReady None -> select.sel_drained s).
Proof.
  intros Hok Hp.
  assert (select.sel_ok s /\ (n + rank p <= 6)%nat /\
    match p with
    | RFinal _ => select.selection_over s = true
    | RReady None => select.selection_over s = true /\ select.sel_drained s
    | _ => True
    end) as (H1 & H2 & H3).
  { induction Hp as [|n s p s' p' _ (I1 & I2 & I3) Hs|n s p s' _ (I1 & I2 & I3) He].
    - split; [done|]. split; [simpl; lia|done].
    - destruct (select.sel_try_law s I1) as (o & t & Ht & Hokt & Hov & Hdr).
      destruct p as [|a|a| | |v|]; cbn [recv_step] in Hs; rewrite ?Ht in Hs; try done; cbn [mbind outcome_bind] in Hs;
        injection Hs as <- <-.
      + split; [done|]. destruct o; simpl in *; split; (done || lia).
      + split; [done|]. destruct a, (select.selection_over s) eqn:Ho; simpl in *; split; (done || lia).
      + split; [done|]. simpl in *. split; [lia|]. destruct o; [done|]. rewrite Hov. split; [done|by apply Hdr].
      + split; [done|]. simpl in *. split; [lia|done].
      + split; [done|]. destruct o; simpl in *; split; (done || lia).
    - destruct (select.sel_env_law s s' I1 He) as [E1 E2]. split; [done|]. split; [done|]. destruct p as [|a|a| | |[v|]|]; try done.
      + by destruct (E2 I3).
      + destruct I3 as [I3 I4]. destruct (E2 I3) as [E3 E4]. split; [done|by apply E4]. }
  split; [done|]. split; [lia|]. split; [|split].
  - destruct p as [|a|a| | |v|]; simpl; split; try done; try (intros (v' & [?|?]); done); intros _.
    + exists v. by left.
    + exists None. by right.
  - intros r Hr. destruct (select.sel_try_law s H1) as (o & t & Ht & _). destruct p as [|a|a| | |v|]; cbn [recv_step] in Hr;
      rewrite ?Ht in Hr; try done; cbn [mbind outcome_bind] in Hr; injection Hr as <-; by eexists.
  - intros ->. by destruct H3.
Qed.
End receiving.

(** ** [poll_recv_many]

    The same poll over [try_recv_many] with a positive [max]; what it appended to the
    caller's buffer is the value, and the answer zero is [None]. *)
Section many.
Context {T C : Type} `{!SpscBackend T C} (max : Z).

Definition many_selectable : select.Selectable (mpsc.World T C) (list T) := {|
  select.try_select w :=
    '(n, w', out) ← mpsc.try_recv_many w max;
    OK (if 0 <? n then Some out else None, w');
  select.selection_over := mpsc.disconnected
|}.

Context `{!SpscLaws T C} (Hmax : 0 < max).
Implicit Types w : mpsc.World T C.

Lemma try_recv_many_ends w Q G : mpsc.world_at w Q G ->
  exists n w' out Q', mpsc.try_recv_many w max = OK (n, w', out) /\ mpsc.world_at w' Q' G /\
    mpsc.disconnected w' = mpsc.disconnected w /\
    (n <= 0 -> mpsc.disconnected w = true -> (forall sid, Q' sid = []) /\ mpsc.staging (mpsc.rx w') = []).
Proof.
  intros Hw. unfold mpsc.try_recv_many. destruct (Z.eqb_spec max 0); [lia|].
  set (k := Nat.min _ _). set (w1 := mpsc.set_rx w _).
  assert (Hw1 : mpsc.world_at w1 Q G) by (by apply mpsc.world_at_staging).
  assert (Hl1 : mpsc.live w1 = mpsc.live w) by done.
  destruct (Z.eqb_spec (Z.of_nat k) max) as [Hk|Hk].
  { eexists _, _, _, Q. split; [done|]. split; [done|]. split; [done|]. lia. }
  destruct (mpsc.world_at_refresh w1 Q G Hw1) as (Hw2 & Hm2 & Hst2 & _ & _ & Hp2 & Hl2 & Hs2).
  set (w2 := mpsc.refresh_membership w1) in *.
  destruct (mpsc.recv_many_loop_spec (length (mpsc.shards (mpsc.rx w2))) w2 Q G max (Z.of_nat k) (take k (mpsc.staging (mpsc.rx w))))
    as (w' & Q' & d & E & Hw' & Hmv & Hle & Hst & Hh); [done|lia|].
  eexists _, _, _, Q'. split; [exact E|]. split; [done|].
  assert (Hd : mpsc.disconnected w' = mpsc.disconnected w)
    by (unfold mpsc.disconnected; destruct Hh as (_ & -> & _); by rewrite Hl2, Hl1).
  split; [done|]. intros Hn Hov.
  assert (k = O) as Hk0 by lia. assert (d = []) as -> by (destruct d; [done|simpl in Hn; lia]).
  assert (Hsg : mpsc.staging (mpsc.rx w) = []) by (destruct (mpsc.staging (mpsc.rx w)); [done|simpl in *; lia]).
  split; [|rewrite Hst, Hst2; simpl; by rewrite Hk0, Hsg].
  rewrite Hk0 in E. simpl in E.
  destruct (mpsc.disconnected_gone w2 Q G Hw2) as [_ HG];
    [unfold mpsc.disconnected in *; by rewrite Hl2, Hl1|].
  intros sid. rewrite <- (mpsc.moved_nothing Q Q' Hmv sid).
  destruct (decide (sid ∈ mpsc.members w2)) as [Hin|Hni]; [|by apply (mpsc.wa_dead _ _ _ Hw2)].
  rewrite Hm2, <- Hs2 in Hin.
  eapply (mpsc.recv_many_loop_gone _ w2 Q G max); [done|done| |done|exact E|done].
  intros s Hs. apply HG. by rewrite Hm2, <- Hs2.
Qed.

(** The laws of [select.v] hold of it, so that [poll_recv_end] covers
    [poll_recv_many]: the answer zero means that nothing is left. *)
Context (capacity : Z) (channel_ok : exists c : C, bk_channel capacity = OK c).

Lemma many_laws : @select.SelectableLaws _ _ many_selectable.
Proof.
  refine (@select.Build_SelectableLaws _ _ many_selectable select.mpsc_ok (select.mpsc_env capacity) select.mpsc_drained _ _).
  - intros w (Q & G & Hw). destruct (try_recv_many_ends w Q G Hw) as (n & w' & out & Q' & E & Hw' & Hd & He).
    simpl. rewrite E. simpl. eexists _, w'. split; [done|]. split; [by exists Q', G|]. split; [done|].
    intros Hn Hov. destruct (Z.ltb_spec 0 n); [done|]. destruct (He ltac:(lia) Hov) as [HQ Hst].
    exists G. split; [|done]. by apply (mpsc.world_at_ext w' Q' _ G).
  - intros w w' Hok He. split; [by eapply select.mpsc_env_ok|].
    simpl. intros Hd. by rewrite (select.mpsc_env_over capacity w w' Hok Hd He).
Qed.
End many.

(** ** An execution

    An iterator of three values that panics on the fourth call: the ring takes the
    first value, is full twice; the second poll sends two more and unwinds; the drop
    wakes the receiver. *)
Definition sample_items : list (option nat) := [Some 1; Some 2; Some 3; None]%nat.
Definition sample_oracles : list (nat -> answer) := [fun k => if (k =? 0)%nat then Sent else Full; fun _ => Sent].

Lemma send_batch_exact_witness :
  exists tr rs f, batch_run sample_oracles (batch_new sample_items) = (tr, rs, f) /\
    sent tr = [1; 2; 3]%nat /\ rs = [Pending; Panicked] /\ unseen false tr = false.
Proof.
  destruct (send_batch_exact sample_items sample_oracles) as [H _].
  destruct (batch_run sample_oracles (batch_new sample_items)) as [[tr rs] f] eqn:E. exists tr, rs, f.
  destruct H as (_ & H & _). vm_compute in E. injection E as <- <- <-.
  split; [reflexivity|]. split; [reflexivity|]. split; [reflexivity|exact H].
Defined.

#[local] Existing Instances mpsc.pair_backend mpsc.pair_laws select.mpsc_selectable.
#[local] Instance sample_source_laws : select.SelectableLaws select.source (nat * Z) :=
  select.mpsc_laws 2 select.sample_storage.

(** Three producers: the first pass of the poll finds nothing; then producer 1 leaves
    and producer 2 sends, before the waker is armed. *)
Definition first_pass : select.source :=
  match mpsc.try_recv (mpsc.ring_world 3) with OK (_, s) => s | _ => mpsc.ring_world 3 end.
Definition left_one : select.source := select.after first_pass [mpsc.MDrop 1].
Definition stranded : select.source := select.after left_one [mpsc.MSend 2 (2%nat, 9)].

(** C35: [poll_recv] can return [Pending] over a buffered value that nobody will
    announce. The recheck after the registration is a pass of [try_recv], which
    passes over a ready shard when it removes a finished one; here the value of
    producer 2 was accepted and its wake was made before the waker was armed, the
    second pass answers [None], the poll is pending with its waker armed, and a
    further [try_recv] would have given the value. *)
Theorem poll_recv_strands_value :
  exists s, polling (mpsc.ring_world 3) 2 stranded RArm /\
    recv_step stranded RArm = Some (OK (stranded, RRetry)) /\
    recv_step stranded RRetry = Some (OK (s, RLook true)) /\
    recv_step s (RLook true) = Some (OK (s, RPending)) /\
    exists s', mpsc.try_recv s = OK (Some (2%nat, 9), s').
Proof.
  assert (Henv : forall s o x s', mpsc.mstep 2 s o = OK (x, s') -> mpsc.sender o = true ->
    Z.of_nat (Datatypes.S (mpsc.fresh s)) < USIZE -> select.sel_env s s')
    by (intros s o x s' Hs Ho Hb; exists o, x; done).
  eexists. split; [| split; [reflexivity |]; split; [vm_compute; reflexivity |]; split; [vm_compute; reflexivity |];
    eexists; vm_compute; reflexivity].
  eapply (poll_env _ _ left_one).
  2: { eapply (Henv _ (mpsc.MSend 2 (2%nat, 9))); [vm_compute; reflexivity | done | vm_compute; reflexivity]. }
  eapply (poll_env _ _ first_pass).
  2: { eapply (Henv _ (mpsc.MDrop 1)); [vm_compute; reflexivity | done | vm_compute; reflexivity]. }
  eapply (poll_own _ _ first_pass (RLook false)); [| vm_compute; reflexivity].
  eapply (poll_own _ _ (mpsc.ring_world 3) RTry); [constructor | vm_compute; reflexivity].
Qed.
End async.
